(* ===== verification/_CoqProject ===== *)
-Q . S2P
Prelude.v
StdMap.v
Double.v
KeyOrder.v
Patricia.v
PatriciaBits.v
PatriciaTree.v
PatriciaSearch.v
PatriciaInsert.v
PatriciaRemove.v
PatriciaWalk.v
IpAddr.v
PatriciaTrie.v
PatriciaTrieSpec.v
TrieProperties.v
Pid.v
AddressProperties.v
Locking.v
PrefixTable.v
ServerObject.v
PidMap.v
IspPidMap.v
Heap.v
HeapProperties.v
PidMatrix.v
PidAggregation.v
NetState.v
NetStateSpec.v
NetCopy.v
PidRouting.v
PidRoutingSpec.v
ViewUpdate.v
ViewUpdateSpec.v
ViewTopology.v
ViewResult.v
Mlu.v
ServerProperties.v
ViewProperties.v
RoutingProperties.v
JobQueue.v
JobProperties.v
DistObj.v
Views.v
AdminState.v
AdminActions.v
AdminSpec.v
AdminTree.v
RegistrySpec.v
AdminTxn.v
AdminCommit.v
AdminBegin.v
AdminEnd.v
AdminProperties.v
Win32Mutex.v
Rand.v
SwarmState.v
PeerDist.v
PeerDistSpec.v
SelHelper.v
SelHelperSpec.v
Guidance.v
IspMaps.v
Selection.v
SelectionSpec.v
PeerProperties.v
ClientSelection.v
ClientProperties.v
GuidanceManager.v
GuidanceManagerSpec.v
GuidanceProperties.v
UpdateManager.v
UpdateManagerSpec.v
UpdateProperties.v
