(* ===== verification/Prelude.v ===== *)
(** * ALTO/P4P: portal server objects and client library

    The repository implements the P4P (later ALTO) service.  A portal server describes
    the network of an ISP: prefixes of addresses are grouped into PIDs, a network graph
    is aggregated into PIDs, and matrices hold the costs (pDistances) between PIDs.
    A client library, used by trackers and peers, loads the PID maps of the ISPs, groups
    the peers of a swarm by PID and selects peers with the guidance of the costs.  This
    library models the data structures, the server objects and the client library, and
    proves what makes them correct.  Paths below are relative to src/.

    ** Conventions

    Fallible code returns an [outcome] (below): a value, or a [fault] for undefined
    behaviour, a failed assertion, an exception, a lock that can never be taken, or fuel
    that ran out.  Pointers are addresses ([positive]) into explicit stores; using a null
    or dangling one is [UB].  [unsigned] arithmetic wraps where it matters.  [double] and
    [float] are the IEEE numbers of SpecFloat (Double.v).  [std::map] and [std::set] with
    a comparator are sorted association lists (StdMap.v), boost's multi-index containers
    lists of records.

    ** Files

    - Common ground.  Prelude.v: outcomes, tactics, hint databases, generic lemmas.
      StdMap.v: ordered maps over an [operator<].  Double.v, KeyOrder.v: floating-point
      numbers, and orders of keys that hold them.
    - Prefix tree.  Patricia.v translates common/cpp/src/lib/patricia.cpp over a store of
      nodes and reference-counted prefixes; PatriciaBits, PatriciaTree, PatriciaSearch,
      PatriciaInsert, PatriciaRemove and PatriciaWalk relate that store to a functional
      tree, operation by operation.  PatriciaTrie.v translates
      p4p/detail/patricia_trie.h, PatriciaTrieSpec.v relates it to finite maps.
      PrefixTable.v is the interface (a class with laws) through which its clients see
      it.  Claims: TrieProperties.v.
    - Addresses and names.  IpAddr.v (ip_addr.cpp), Pid.v (pid.cpp).  Claims:
      AddressProperties.v.
    - Server objects.  Locking.v: the lock classes of p4pserver/locking.h and LocalObject,
      over the interface [SharedMutex] that states Boost's contract, as operations of one
      thread and as a machine of threads whose undisturbed runs these are.  ServerObject.v: an
      object with its lock, its version and its data.  PidMap.v (pid_map.cpp), PidMatrix.v
      (pid_matrix.h), PidAggregation.v (pid_aggregation.cpp), NetState.v and
      NetStateSpec.v (net_state.cpp), NetCopy.v (copies of a network).  Claims:
      ServerProperties.v, ViewProperties.v.
    - Routes and views.  PidRouting.v and PidRoutingSpec.v (pid_routing.cpp): static routes
      with their index of iterators, weights, route computation.  ViewUpdate.v
      (portal/server/src/view/view_update.h): the update of a view, with ViewUpdateSpec.v
      (the matrices), ViewTopology.v (the network of PIDs) and ViewResult.v (the whole
      update over the interface [OptPluginBase] of optimisation plugins).  Mlu.v
      (pdist/mlu/mlu.cpp): the plugin that minimises link utilisation, an instance of that
      interface.  Claims: RoutingProperties.v.
    - Jobs.  JobQueue.v (job_queue.cpp, jobs/view_update_job.cpp): the queue of timed jobs
      and its worker threads as a machine of events.  Claims: JobProperties.v.
    - Administration.  DistObj.v (p4pserver/dist_obj.h, dist_obj.cpp): the tree of server
      objects over a store of addresses.  Views.v (portal/server/src/view/view.cpp,
      view_registry.cpp, global_state/global_state.cpp): the classes of that tree, their
      construction, copies and updates.  AdminState.v (admin/admin_state.cpp): tokens,
      transactions, locks and references; a monad with the state of the process and
      exceptions.  AdminActions.v (admin/admin_net.cpp, admin_view.cpp): the actions.
      AdminSpec.v, AdminTree.v, AdminTxn.v and AdminCommit.v: the invariant of a
      copy-on-write transaction, kept by every action; AdminBegin.v, AdminEnd.v: its
      beginning and its end; RegistrySpec.v: the registry as a map.  Claims:
      AdminProperties.v.
    - Client maps.  IspPidMap.v (isp_pidmap.cpp) over the same [PrefixTable], with a theorem
      in ServerProperties.v; IspMaps.v (isp_pdistancemap.cpp, isp.cpp, isp_manager.cpp): the
      pDistances of an ISP, the ISP with both maps, and the ISPs by name; Win32Mutex.v
      (mutex.cpp): the shared mutex for Windows, over the documented behaviour of critical
      sections, manual-reset events and semaphores; ClientSelection.v
      (client_peer_selection_location.cpp): peer selection at a client without a tracker.
      Claims: ClientProperties.v.
    - Heap.v: RandomAccessSet and MaxHeapWithDelete (heap_with_delete.h).  Claims:
      HeapProperties.v.
    - Peer selection (p4p/app).  SwarmState.v (swarm_state.cpp); PeerDist.v and
      PeerDistSpec.v (perisp_peer_distribution.cpp, peer_distribution_manager.cpp,
      peer.cpp); SelHelper.v and SelHelperSpec.v (pid_peer_selection_helper.cpp);
      Guidance.v (peering_guidance_matrix.cpp and its options); Selection.v and
      SelectionSpec.v (pgm_selection_manager.cpp).  Rand.v: random numbers.  Claims:
      PeerProperties.v.
    - Guidance and updates.  GuidanceManager.v and GuidanceManagerSpec.v
      (peering_guidance_matrix_manager.cpp and the guidance operations of
      pgm_selection_manager.cpp), claims in GuidanceProperties.v; UpdateManager.v and
      UpdateManagerSpec.v (update_manager.cpp, p4p_selection_manager.cpp), claims in
      UpdateProperties.v.

    ** How the parts interact

    PIDMap and ISPPIDMap hold a prefix trie and are proved against [PrefixTable].  A view
    holds an aggregation, a routing and matrices; its update copies the network,
    contracts the vertices of every PID, runs the plugin, computes routes between the
    PIDs and fills the matrices, and the job queue runs the updates when they are due.
    Views and the network are children of the global state; a transaction locks that tree,
    copies what its actions change, and a commit installs the copies and enqueues updates.
    The peer distribution asks an ISP for the PID of an address, the answer of ISPPIDMap; the
    selection manager selects from the groups of a view with the helper, drawing random
    numbers and weights of a guidance matrix; the guidance manager owns the matrices and
    counts the selection managers that use them; the update manager keeps tasks in the
    heap and runs the refresh operations of ISPs and selection managers when they are
    due.

    ** What the theorems show

    - The trie refines a finite map from prefixes to values for every sequence of its
      operations, with longest-prefix match for full addresses, without a memory error;
      underneath, the search, insertion and removal of the Patricia tree keep its
      invariant and have exactly their effect on the entries.
    - Prefixes and PIDs: canonical form, total orders, round trips of the text.
    - Heap: it sorts; deletion keeps the heap.
    - Server objects: exclusion of upgraded locks under any interleaving of the accesses of
      threads, versions, the
      refinement of PIDMap, the effect and the invariant of every edit of matrices,
      aggregations and networks, the contraction of a set of vertices.
    - Routes and views: static routes refine a multiset of routes; routes by weights are
      shortest paths; the network that an update works on is the quotient of the network by
      the PIDs; the matrices of an update hold the costs of shortest routes, for every
      plugin that keeps the laws of its interface, and the MLU plugin does.
    - Jobs: the invariant of the queue, no lost wake-up, and the end of all threads after a
      stop, under any interleaving.
    - Administration: from every idle state a transaction begins; whatever actions it runs,
      a rollback or a failed action leaves the installed tree as it was; a commit installs
      exactly the new children of the root and releases all locks; wrong tokens change
      nothing and their text can be read back; the registry of views refines a map.
    - Peer selection: the invariant of the views under all operations; both selections end
      for every fair stream of random numbers, with what they return.
    - Clients: the mutex for Windows excludes and never forgets a writer, under any
      interleaving; a load of an ISP makes the pDistances of the reply available by the
      indexes of the PIDs; the ISPs of a manager refine a map; selection by location takes
      different candidates within the shares of the three groups.
    - Guidance and updates: reference counts, sharing and lifetimes of matrices; the queue
      of tasks as a map from kinds to times; the end of a run of updates in an environment
      that is fast enough.
    - Errors: the inputs on which the code does not do what it means to, as theorems about
      all such inputs or on concrete states (families that collide in one trie, write locks
      that two threads get at once, a crash of the update loop, a
      selection that overshoots or never ends, locks that are kept, guidance that is not
      rescheduled, routes that are checked backwards or kept too long, jobs that are lost,
      views that lose their names or their places, a reader that misses its wake-up,
      candidates that are selected twice).

    ** Fuel

    The loops of the Patricia tree take as fuel the number of live nodes plus one
    ([node_fuel]); every claim about them is one of total correctness, so this is enough.
    The loops of the heap take its size, and the trace back along a shortest-path tree the
    number of vertices.  The loop that locks the object tree takes the number of objects,
    since it locks each of them once; [updated] takes four, the height of the tree.  The
    loops that draw random numbers take the
    length of the stream that is given (those of the selection at a client the number of
    candidates, since each draw removes one) and the loop that fills the bins the number of
    peers; the claims say that every fair stream has a prefix with which they end.  The
    inner loop of [UpdateManager::run] is shown to end with the amount of work that is
    due as fuel.

    ** Assumptions

    boost::shared_mutex keeps its documented contract (class [SharedMutex], with a model
    that satisfies it).  getaddrinfo and getnameinfo, the portal protocol, the reader of
    files, the protocol of the optimisation engine, the random numbers and the addresses
    chosen by the allocator, the order of hashed sets and boost::dijkstra_shortest_paths
    are parameters; the claims that need something of them say so (numeric addresses are
    converted back, new addresses are fresh, streams are fair, the order is a permutation,
    the predecessors are a tree of shortest paths).
    Operations of the peer distribution, the guidance manager and the update manager run
    one after the other, with the locks that outlive a call in the state, and so do those
    of the administration, whose class holds a mutex.  The update loop reads the clock anew
    in every step; that it ends needs an environment that is fast compared with the times
    to live of the maps.  The plain members of a server object that threads access under
    locks are cells whose reads and writes interleave.  boost::lexical_cast and the registry of plugins are
    parameters.  The modelled builds define neither
    DEBUG nor P4P_CLUSTER.

    ** Not modelled

    The distribution of objects in a cluster and their serialisation (P4P_CLUSTER), the
    REST and UDP servers, the rendering of JSON resources, the administration protocol and
    the shell, which are I/O around the modelled operations; the thread that rolls back a
    transaction that timed out (it calls [txn_rollback]); logging and stream output; the
    BitTorrent client and tracker under apps/, which are vendored programs; the experiment
    tools.  Direct write transactions are modelled, but no claim is made about them. *)
From stdpp Require Export base tactics list gmap strings sorting fin_maps.
From Stdlib Require Export ZArith Lia.

(** * Faults and outcomes

    A C++ operation that is modelled here can end in five ways besides
    returning: undefined behaviour (a dereference of a null or freed pointer, an
    index past the end of a buffer), a failed [assert], a thrown exception, a wait for
    a lock that an earlier call took and never gave back, and a loop of the model that
    ran out of fuel.  The last one does not describe the code: every loop of the
    development has theorems that say which fuel is enough. *)
Inductive fault : Type :=
  | UB
  | AssertFail
  | Throw (what : string)
  | NoFuel
  | Deadlock.

Inductive outcome (A : Type) : Type :=
  | Ok (a : A)
  | Fault (e : fault).
Arguments Ok {A} a.
Arguments Fault {A} e.

#[global] Instance fault_eq_dec : EqDecision fault.
Proof. solve_decision. Defined.

#[global] Instance outcome_ret : MRet outcome := λ A a, Ok a.
#[global] Instance outcome_bind : MBind outcome := λ A B f m,
  match m with Ok a => f a | Fault e => Fault e end.

(** Lift an option: [None] is the fault [e]. *)
Definition from_option_or {A} (e : fault) (o : option A) : outcome A :=
  match o with Some a => Ok a | None => Fault e end.

(** [assert (b)] of the C++ source. *)
Definition assertb (b : bool) : outcome unit := if b then Ok tt else Fault AssertFail.

(** * State passing with faults *)
Definition ST (S A : Type) : Type := S → outcome (A * S).

#[global] Instance st_ret {S} : MRet (ST S) := λ A a s, Ok (a, s).
#[global] Instance st_bind {S} : MBind (ST S) := λ A B f m s,
  match m s with Ok (a, s') => f a s' | Fault e => Fault e end.

Definition st_get {S} : ST S S := λ s, Ok (s, s).
Definition st_put {S} (s' : S) : ST S unit := λ _, Ok (tt, s').
Definition st_fail {S A} (e : fault) : ST S A := λ _, Fault e.
Definition st_lift {S A} (o : outcome A) : ST S A := λ s,
  match o with Ok a => Ok (a, s) | Fault e => Fault e end.

(** Map a state computation over a list, left to right (a [for] loop whose body
    returns nothing). *)
Fixpoint st_iter {S A} (f : A → ST S unit) (l : list A) : ST S unit :=
  match l with
  | [] => mret tt
  | x :: l' => f x ;; st_iter f l'
  end.

(** A loop over a list that carries a value and may fault. *)
Fixpoint ofold {A B} (f : B → A → outcome A) (l : list B) (a : A) : outcome A :=
  match l with
  | [] => Ok a
  | x :: l' => match f x a with Ok a' => ofold f l' a' | Fault e => Fault e end
  end.

Lemma ofold_app {A B} (f : B → A → outcome A) l1 l2 a :
  ofold f (l1 ++ l2) a = match ofold f l1 a with Ok a' => ofold f l2 a' | Fault e => Fault e end.
Proof. revert a. induction l1 as [|x l1 IH]; intros a; cbn; [done|]. by destruct (f x a). Qed.

(** An invariant of the loop, indexed by the elements that were visited. *)
Lemma ofold_inv_split {A B} (P : list B → A → Prop) (f : B → A → outcome A) l a :
  P [] a →
  (∀ done x rest a, l = done ++ x :: rest → P done a → ∃ a', f x a = Ok a' ∧ P (done ++ [x]) a') →
  ∃ a', ofold f l a = Ok a' ∧ P l a'.
Proof.
  intros H0 HS.
  assert (H : ∀ done rest a, l = done ++ rest → P done a → ∃ a', ofold f rest a = Ok a' ∧ P l a').
  { intros dn rest. revert dn. induction rest as [|x rest IH]; intros dn a0 El HP; cbn.
    - exists a0. split; [done|]. by rewrite El, app_nil_r.
    - destruct (HS dn x rest a0 El HP) as (a1 & -> & H1). apply (IH (dn ++ [x])); [|done].
      by rewrite El, <- app_assoc. }
  by apply (H [] l).
Qed.

Lemma ofold_inv {A B} (P : list B → A → Prop) (f : B → A → outcome A) l a :
  P [] a →
  (∀ done x a, P done a → x ∈ l → ∃ a', f x a = Ok a' ∧ P (done ++ [x]) a') →
  ∃ a', ofold f l a = Ok a' ∧ P l a'.
Proof.
  intros H0 HS. apply ofold_inv_split; [done|]. intros dn x rest a0 El HP. apply HS; [done|].
  rewrite El. set_solver.
Qed.

Section monad_lemmas.
Context {S : Type}.

Lemma st_bind_eq {A B} (m : ST S A) (f : A → ST S B) s :
  (m ≫= f) s = match m s with Ok (a, s') => f a s' | Fault e => Fault e end.
Proof. reflexivity. Qed.

Lemma st_bind_Ok {A B} (m : ST S A) (f : A → ST S B) s a s' :
  m s = Ok (a, s') → (m ≫= f) s = f a s'.
Proof. intros H. rewrite st_bind_eq, H. reflexivity. Qed.

Lemma st_bind_Fault {A B} (m : ST S A) (f : A → ST S B) s e :
  m s = Fault e → (m ≫= f) s = Fault e.
Proof. intros H. rewrite st_bind_eq, H. reflexivity. Qed.

Lemma st_bind_inv {A B} (m : ST S A) (f : A → ST S B) s b s'' :
  (m ≫= f) s = Ok (b, s'') → ∃ a s', m s = Ok (a, s') ∧ f a s' = Ok (b, s'').
Proof.
  rewrite st_bind_eq. destruct (m s) as [[a s']|e] eqn:E; [|done]. eauto.
Qed.

Lemma st_lift_bind {A B} (o : outcome A) (f : A → ST S B) s :
  (st_lift o ≫= f) s = match o with Ok a => f a s | Fault e => Fault e end.
Proof. rewrite st_bind_eq. destruct o; reflexivity. Qed.

Lemma st_iter_cons {A} (f : A → ST S unit) x l s s' :
  f x s = Ok (tt, s') → st_iter f (x :: l) s = st_iter f l s'.
Proof. intros H. simpl. by rewrite st_bind_eq, H. Qed.

(** An invariant of a loop, indexed by the elements that were visited. *)
Lemma st_iter_inv {A} (P : list A → S → Prop) (f : A → ST S unit) l s :
  P [] s →
  (∀ done x rest s, l = done ++ x :: rest → P done s → ∃ s', f x s = Ok (tt, s') ∧ P (done ++ [x]) s') →
  ∃ s', st_iter f l s = Ok (tt, s') ∧ P l s'.
Proof.
  intros H0 HS.
  assert (H : ∀ done rest s, l = done ++ rest → P done s → ∃ s', st_iter f rest s = Ok (tt, s') ∧ P l s').
  { intros dn rest. revert dn. induction rest as [|x rest IH]; intros dn s0 El HP.
    - exists s0. split; [done|]. by rewrite El, app_nil_r.
    - destruct (HS dn x rest s0 El HP) as (s1 & H1 & H2). rewrite (st_iter_cons _ _ _ _ _ H1).
      apply (IH (dn ++ [x])); [|done]. by rewrite El, <- app_assoc. }
  by apply (H [] l).
Qed.
End monad_lemmas.

Lemma outcome_bind_inv {A B} (m : outcome A) (f : A → outcome B) b :
  m ≫= f = Ok b → ∃ a, m = Ok a ∧ f a = Ok b.
Proof. destruct m; [eauto|done]. Qed.

(** Symbolic execution of the next step of a state computation whose result is
    given by a hypothesis or by reduction. *)
Ltac st_step H := rewrite (st_bind_Ok _ _ _ _ _ H); cbn beta.
Ltac st_auto := rewrite st_bind_eq; cbn.

(** * Machine integers *)
Definition u8  (z : Z) : Z := (z `mod` 2 ^ 8)%Z.
Definition u16 (z : Z) : Z := (z `mod` 2 ^ 16)%Z.
Definition u32 (z : Z) : Z := (z `mod` 2 ^ 32)%Z.
Definition u64 (z : Z) : Z := (z `mod` 2 ^ 64)%Z.
(** The value of a 32-bit two's complement integer with the bits of [z]. *)
Definition s32 (z : Z) : Z := ((z + 2 ^ 31) `mod` 2 ^ 32 - 2 ^ 31)%Z.
Definition INT_MAX : Z := (2 ^ 31 - 1)%Z.
Definition UINT_MAX : Z := (2 ^ 32 - 1)%Z.
Definition USHRT_MAX : Z := (2 ^ 16 - 1)%Z.

Lemma u32_range z : (0 ≤ u32 z < 2 ^ 32)%Z.
Proof. apply Z.mod_pos_bound. lia. Qed.

Lemma u32_small z : (0 ≤ z < 2 ^ 32)%Z → u32 z = z.
Proof. apply Z.mod_small. Qed.

Lemma u16_small z : (0 ≤ z < 2 ^ 16)%Z → u16 z = z.
Proof. apply Z.mod_small. Qed.

Lemma s32_small z : (- 2 ^ 31 ≤ z < 2 ^ 31)%Z → s32 z = z.
Proof. intros H. unfold s32. rewrite Z.mod_small; lia. Qed.

(** [v\[i\]] of a vector at a machine integer index; [None] when it is out of range. *)
Definition vec_at {A} (l : list A) (i : Z) : option A :=
  if (0 <=? i)%Z && (i <? Z.of_nat (length l))%Z then l !! Z.to_nat i else None.

Lemma vec_at_nat {A} (l : list A) (n : nat) : vec_at l (Z.of_nat n) = l !! n.
Proof.
  unfold vec_at. rewrite (proj2 (Z.leb_le 0 _)) by lia. cbn [andb]. rewrite Nat2Z.id.
  destruct (Z.ltb_spec (Z.of_nat n) (Z.of_nat (length l))); [done|].
  symmetry. apply lookup_ge_None. lia.
Qed.

Lemma vec_at_Some {A} (l : list A) i x : vec_at l i = Some x ↔ (0 ≤ i)%Z ∧ l !! Z.to_nat i = Some x.
Proof.
  unfold vec_at. destruct (Z.leb_spec 0 i); cbn [andb]; [|naive_solver lia].
  destruct (Z.ltb_spec i (Z.of_nat (length l))) as [|Hl]; [naive_solver|].
  split; [done|]. intros [_ H2%lookup_lt_Some]. lia.
Qed.

Lemma vec_at_lt {A} (l : list A) i : (0 ≤ i < Z.of_nat (length l))%Z → is_Some (vec_at l i).
Proof. intros Hi. destruct (lookup_lt_is_Some_2 l (Z.to_nat i)) as [x Hx]; [lia|]. exists x. apply vec_at_Some. naive_solver. Qed.

(** * Fresh addresses

    [calloc] returns an address that is not in use; the model takes the successor
    of the largest address of the map. *)
Definition fresh_loc {V} (m : gmap positive V) : positive :=
  map_fold (λ k _ acc, Pos.max (Pos.succ k) acc) 1%positive m.

Lemma fresh_loc_gt {V} (m : gmap positive V) k v :
  m !! k = Some v → (k < fresh_loc m)%positive.
Proof.
  unfold fresh_loc. revert k v.
  apply (map_fold_weak_ind (λ acc m, ∀ k v, m !! k = Some v → (k < acc)%positive)).
  - intros k v. by rewrite lookup_empty.
  - intros i x m' r Hi IH k v. rewrite lookup_insert. case_decide.
    + intros _. subst. lia.
    + intros Hk. specialize (IH k v Hk). lia.
Qed.

Lemma fresh_loc_None {V} (m : gmap positive V) : m !! fresh_loc m = None.
Proof.
  destruct (m !! fresh_loc m) eqn:E; [|done].
  apply fresh_loc_gt in E. lia.
Qed.

(** * Lists *)
Section list_lemmas.
Context {A : Type}.
Implicit Types l : list A.

(** Length of the longest common prefix. *)
Fixpoint lcp `{EqDecision A} (l1 l2 : list A) : nat :=
  match l1, l2 with
  | x :: l1', y :: l2' => if decide (x = y) then S (lcp l1' l2') else 0
  | _, _ => 0
  end.

Lemma lcp_le_l `{EqDecision A} l1 l2 : lcp l1 l2 ≤ length l1.
Proof.
  revert l2. induction l1 as [|x l1 IH]; intros [|y l2]; simpl; try lia.
  case_decide; [specialize (IH l2)|]; lia.
Qed.

Lemma lcp_le_r `{EqDecision A} l1 l2 : lcp l1 l2 ≤ length l2.
Proof.
  revert l2. induction l1 as [|x l1 IH]; intros [|y l2]; simpl; try lia.
  case_decide; [specialize (IH l2)|]; lia.
Qed.

Lemma lcp_take `{EqDecision A} l1 l2 n : n ≤ lcp l1 l2 → take n l1 = take n l2.
Proof.
  revert l2 n. induction l1 as [|x l1 IH]; intros [|y l2] n; simpl; intros H;
    try (replace n with 0 by lia; done).
  case_decide; [|replace n with 0 by lia; done].
  destruct n; simpl; [done|]. subst. f_equal. apply IH. lia.
Qed.

Lemma lcp_lookup_ne `{EqDecision A} l1 l2 :
  lcp l1 l2 < length l1 → lcp l1 l2 < length l2 →
  l1 !! lcp l1 l2 ≠ l2 !! lcp l1 l2.
Proof.
  revert l2. induction l1 as [|x l1 IH]; intros [|y l2]; simpl; try lia.
  case_decide; simpl; intros; [apply IH; lia|congruence].
Qed.

Lemma lcp_unique `{EqDecision A} l1 l2 n :
  n ≤ length l1 → n ≤ length l2 → take n l1 = take n l2 →
  (n = length l1 ∨ n = length l2 ∨ l1 !! n ≠ l2 !! n) → lcp l1 l2 = n.
Proof.
  revert l2 n. induction l1 as [|x l1 IH]; intros [|y l2] [|n]; simpl; try lia;
    intros H1 H2 Ht Hd.
  - case_decide; [|done]. destruct Hd as [?|[?|?]]; congruence.
  - injection Ht as -> Ht. rewrite decide_True by done. f_equal.
    apply IH; [lia|lia|done|]. destruct Hd as [?|[?|?]]; eauto with lia.
Qed.

Lemma lcp_comm `{EqDecision A} l1 l2 : lcp l1 l2 = lcp l2 l1.
Proof.
  revert l2. induction l1 as [|x l1 IH]; intros [|y l2]; simpl; try done.
  repeat case_decide; subst; try done. f_equal. apply IH.
Qed.

Lemma lcp_take_min `{EqDecision A} l1 l2 n :
  length l1 ≤ n ∨ length l2 ≤ n → lcp (take n l1) (take n l2) = lcp l1 l2.
Proof.
  revert l2 n. induction l1 as [|x l1 IH]; intros [|y l2] [|n]; simpl; try done; try lia.
  intros H. case_decide; [|done]. f_equal. apply IH. lia.
Qed.

Lemma lcp_prefix `{EqDecision A} l l1 l2 :
  l `prefix_of` l1 → l `prefix_of` l2 → length l ≤ lcp l1 l2.
Proof.
  intros [k1 ->] [k2 ->]. induction l as [|x l IH]; simpl; [lia|].
  rewrite decide_True by done. lia.
Qed.

Lemma prefix_take_eq l1 l2 : l1 `prefix_of` l2 ↔ take (length l1) l2 = l1.
Proof.
  split.
  - intros [k ->]. by rewrite take_app_length.
  - intros <-. apply prefix_take.
Qed.

Lemma prefix_lookup_eq l1 l2 i :
  l1 `prefix_of` l2 → i < length l1 → l1 !! i = l2 !! i.
Proof. intros [k ->] ?. by rewrite lookup_app_l. Qed.

Lemma prefix_of_snoc_iff l1 l2 x :
  (l1 ++ [x]) `prefix_of` l2 ↔ l1 `prefix_of` l2 ∧ l2 !! length l1 = Some x.
Proof.
  split.
  - intros [k ->]. split; [rewrite <- app_assoc; apply prefix_app_r; done|].
    rewrite <- app_assoc. rewrite lookup_app_r by lia.
    by rewrite Nat.sub_diag.
  - intros [[k ->] Hx]. rewrite lookup_app_r, Nat.sub_diag in Hx by lia.
    destruct k as [|y k]; [done|]. injection Hx as ->.
    exists k. by rewrite <- app_assoc.
Qed.

(** Two prefixes of the same list are comparable. *)
Lemma prefix_of_linear l1 l2 l :
  l1 `prefix_of` l → l2 `prefix_of` l → length l1 ≤ length l2 → l1 `prefix_of` l2.
Proof.
  rewrite !prefix_take_eq. intros H1 H2 Hle.
  rewrite <- H1 at 2. rewrite <- H2. by rewrite take_take, Nat.min_l by lia.
Qed.

(** A list without duplicates has an element that a shorter list lacks. *)
Lemma nodup_longer `{EqDecision A} l k : NoDup l → length k < length l → ∃ x, x ∈ l ∧ x ∉ k.
Proof.
  intros N L. destruct (decide (Exists (λ x, x ∉ k) l)) as [(x & ? & ?)%Exists_exists|Hno]; [eauto|].
  apply not_Exists_Forall in Hno; [|apply _]. exfalso.
  assert (S : l ⊆ k). { intros x Hx. rewrite Forall_forall in Hno. specialize (Hno x Hx). by destruct (decide (x ∈ k)). }
  apply NoDup_submseteq in S; [|done]. apply submseteq_length in S. lia.
Qed.

Lemma prefix_of_same_length l1 l2 :
  l1 `prefix_of` l2 → length l1 = length l2 → l1 = l2.
Proof. intros H E. by apply (prefix_length_eq _ _ H); rewrite E. Qed.
End list_lemmas.

(** * Automation *)
Create HintDb p4p discriminated.
#[export] Hint Resolve lcp_le_l lcp_le_r : p4p.

(** Split the boolean and decidable tests of the source in the goal and simplify. *)
Ltac case_bool :=
  match goal with
  | |- context [Nat.ltb ?a ?b] => destruct (Nat.ltb_spec a b)
  | |- context [Nat.leb ?a ?b] => destruct (Nat.leb_spec a b)
  | |- context [Nat.eqb ?a ?b] => destruct (Nat.eqb_spec a b)
  | |- context [Z.ltb ?a ?b] => destruct (Z.ltb_spec a b)
  | |- context [Z.leb ?a ?b] => destruct (Z.leb_spec a b)
  | |- context [Z.eqb ?a ?b] => destruct (Z.eqb_spec a b)
  end.
