(* ===== verification/StdMap.v ===== *)
(** * Ordered maps: std::map and std::set

    A [std::map<K, V>] is the list of its pairs in the order of [operator<], which is
    the order its iterators visit.  [StrictTotal] is what [operator<] of the key types
    of the code base satisfies; the operations are those the sources use. *)
From S2P Require Import Prelude.

Class StrictTotal {K : Type} (ltb : K → K → bool) : Prop := {
  lt_irrefl a : ltb a a = false;
  lt_trans a b c : ltb a b = true → ltb b c = true → ltb a c = true;
  lt_total a b : ltb a b = false → ltb b a = false → a = b
}.

(** [operator<] of the integer types. *)
#[global] Instance Z_order : StrictTotal Z.ltb.
Proof.
  split.
  - apply Z.ltb_irrefl.
  - intros a b c. rewrite !Z.ltb_lt. lia.
  - intros a b. rewrite !Z.ltb_ge. lia.
Qed.

(** Pointers are ordered by their addresses. *)
#[global] Instance ptr_order : StrictTotal Pos.ltb.
Proof.
  split.
  - apply Pos.ltb_irrefl.
  - intros a b c. rewrite !Pos.ltb_lt. lia.
  - intros a b. rewrite !Pos.ltb_ge. lia.
Qed.

Section StdMap.
Context {K V : Type} (ltb : K → K → bool).
Abbreviation stdmap := (list (K * V)).

(** [m.find (k)]: the value, if the iterator is not [end ()]. *)
Fixpoint map_find (k : K) (m : stdmap) : option V :=
  match m with
  | [] => None
  | (k', v) :: m' => if ltb k' k then map_find k m' else if ltb k k' then None else Some v
  end.

(** [m\[k\] = v] *)
Fixpoint map_set (k : K) (v : V) (m : stdmap) : stdmap :=
  match m with
  | [] => [(k, v)]
  | (k', v') :: m' =>
      if ltb k' k then (k', v') :: map_set k v m'
      else if ltb k k' then (k, v) :: m else (k', v) :: m'
  end.

(** [m.insert (make_pair (k, v))] keeps an element that is there. *)
Definition map_insert (k : K) (v : V) (m : stdmap) : stdmap :=
  match map_find k m with Some _ => m | None => map_set k v m end.

(** [m.erase (k)] *)
Fixpoint map_erase (k : K) (m : stdmap) : stdmap :=
  match m with
  | [] => []
  | (k', v) :: m' =>
      if ltb k' k then (k', v) :: map_erase k m' else if ltb k k' then m else m'
  end.

Definition map_sorted (m : stdmap) : Prop := StronglySorted (λ a b, ltb a.1 b.1 = true) m.

Context `{!StrictTotal ltb}.

Lemma sorted_lt k v (m : stdmap) : map_sorted ((k, v) :: m) →
  map_sorted m ∧ ∀ p, p ∈ m → ltb k p.1 = true.
Proof. intros H. apply StronglySorted_inv in H as [H1 H2]. rewrite Forall_forall in H2. eauto. Qed.

Lemma lt_asym a b : ltb a b = true → ltb b a = false.
Proof.
  intros H. destruct (ltb b a) eqn:E; [|done]. pose proof (lt_trans _ _ _ H E) as H'.
  by rewrite lt_irrefl in H'.
Qed.

Lemma find_below k (m : stdmap) : (∀ p, p ∈ m → ltb k p.1 = true) → map_find k m = None.
Proof.
  destruct m as [|[k' v'] m]; [done|]. intros H. specialize (H (k', v') ltac:(left)). cbn in *.
  by rewrite (lt_asym _ _ H), H.
Qed.

Lemma map_find_elem k v m : map_sorted m → map_find k m = Some v ↔ (k, v) ∈ m.
Proof.
  induction m as [|[k' v'] m IH]; intros HS; cbn.
  { split; [done|]. set_solver. }
  apply sorted_lt in HS as [HS HL]. destruct (ltb k' k) eqn:E1; [|destruct (ltb k k') eqn:E2].
  - rewrite (IH HS), elem_of_cons. split; [by right|]. intros [[= -> ->]|?]; [|done].
    by rewrite lt_irrefl in E1.
  - split; [done|]. rewrite elem_of_cons. intros [[= -> ->]|H].
    + by rewrite lt_irrefl in E2.
    + specialize (HL _ H). cbn in HL. congruence.
  - pose proof (lt_total _ _ E1 E2) as ->. split.
    + intros [= ->]. left.
    + rewrite elem_of_cons. intros [[= ->]|H]; [done|]. specialize (HL _ H). cbn in HL.
      by rewrite lt_irrefl in HL.
Qed.

Lemma map_set_elem k v m p : p ∈ map_set k v m → p = (k, v) ∨ p ∈ m.
Proof.
  induction m as [|[k' v'] m IH]; cbn; [rewrite list_elem_of_singleton; by left|].
  destruct (ltb k' k) eqn:E1; [|destruct (ltb k k') eqn:E2]; rewrite !elem_of_cons; [tauto..|].
  rewrite (lt_total _ _ E1 E2). tauto.
Qed.

Lemma map_set_sorted k v m : map_sorted m → map_sorted (map_set k v m).
Proof.
  induction m as [|[k' v'] m IH]; intros HS; cbn; [repeat constructor|].
  pose proof (sorted_lt _ _ _ HS) as [HS' HL].
  destruct (ltb k' k) eqn:E1; [|destruct (ltb k k') eqn:E2].
  - constructor; [by apply IH|]. apply Forall_forall. intros p [->|H]%map_set_elem; [done|]. by apply HL.
  - constructor; [done|]. apply Forall_forall. intros p [->|H]%elem_of_cons; [done|]. cbn.
    eapply lt_trans; [exact E2|by apply HL].
  - constructor; [done|]. apply Forall_forall. intros p H. by apply HL.
Qed.

Lemma map_find_set k v k' m : map_sorted m →
  map_find k' (map_set k v m) = if (negb (ltb k k') && negb (ltb k' k)) then Some v else map_find k' m.
Proof.
  induction m as [|[k0 v0] m IH]; intros HS; cbn.
  { by destruct (ltb k k'), (ltb k' k). }
  pose proof (sorted_lt _ _ _ HS) as [HS' HL].
  destruct (ltb k0 k) eqn:E1; [|destruct (ltb k k0) eqn:E2]; cbn.
  - rewrite (IH HS'). destruct (ltb k0 k') eqn:E3; [done|]. destruct (ltb k' k0) eqn:E4.
    + rewrite (lt_trans _ _ _ E4 E1). by rewrite andb_false_r.
    + pose proof (lt_total _ _ E3 E4) as ->. by rewrite E1, andb_false_r.
  - destruct (ltb k k') eqn:E3; cbn; [done|]. destruct (ltb k' k) eqn:E4; cbn; [|done].
    pose proof (lt_trans _ _ _ E4 E2) as E5. by rewrite (lt_asym _ _ E5), E5.
  - pose proof (lt_total _ _ E1 E2) as ->. by destruct (ltb k k'), (ltb k' k).
Qed.

Lemma map_find_set_eq k v m : map_sorted m → map_find k (map_set k v m) = Some v.
Proof. intros H. rewrite map_find_set by done. by rewrite !(lt_irrefl (ltb := ltb)). Qed.

Lemma map_find_set_ne k v k' m : map_sorted m → k ≠ k' → map_find k' (map_set k v m) = map_find k' m.
Proof.
  intros H Hne. rewrite map_find_set by done. destruct (ltb k k') eqn:E1; [done|].
  destruct (ltb k' k) eqn:E2; [done|]. by destruct (Hne (lt_total _ _ E1 E2)).
Qed.

Lemma map_erase_sub k m p : p ∈ map_erase k m → p ∈ m.
Proof.
  induction m as [|[k' v'] m IH]; cbn; [done|].
  destruct (ltb k' k); [|destruct (ltb k k')]; rewrite ?elem_of_cons; tauto.
Qed.

Lemma map_erase_sorted k m : map_sorted m → map_sorted (map_erase k m).
Proof.
  induction m as [|[k' v'] m IH]; intros HS; cbn; [done|].
  pose proof (sorted_lt _ _ _ HS) as [HS' HL]. destruct (ltb k' k); [|by destruct (ltb k k')].
  constructor; [by apply IH|]. apply Forall_forall. intros p H%map_erase_sub. by apply HL.
Qed.

Lemma map_find_erase_eq k m : map_sorted m → map_find k (map_erase k m) = None.
Proof.
  induction m as [|[k' v'] m IH]; intros HS; cbn; [done|].
  pose proof (sorted_lt _ _ _ HS) as [HS' HL].
  destruct (ltb k' k) eqn:E1; [|destruct (ltb k k') eqn:E2]; cbn.
  - rewrite E1. by apply IH.
  - by rewrite E1, E2.
  - pose proof (lt_total _ _ E1 E2) as ->. by apply find_below.
Qed.

Lemma map_find_erase_ne k k' m : map_sorted m → k ≠ k' → map_find k' (map_erase k m) = map_find k' m.
Proof.
  intros HS Hne. induction m as [|[k0 v0] m IH]; cbn; [done|].
  pose proof (sorted_lt _ _ _ HS) as [HS' HL].
  destruct (ltb k0 k) eqn:E1; [|destruct (ltb k k0) eqn:E2]; cbn.
  - destruct (ltb k0 k'); [by apply IH|done].
  - done.
  - pose proof (lt_total _ _ E1 E2) as ->. destruct (ltb k k') eqn:E3; [done|].
    destruct (ltb k' k) eqn:E4; [|by destruct (Hne (lt_total _ _ E3 E4))].
    apply find_below. intros p Hp. eapply lt_trans; [exact E4|by apply HL].
Qed.

Lemma map_sorted_nodup m : map_sorted m → NoDup m.*1.
Proof.
  induction m as [|[k x] m IH]; intros HS; [constructor|]. apply sorted_lt in HS as [HS Hlt]. cbn. constructor; [|auto].
  rewrite list_elem_of_fmap. intros ([k' x'] & E & Hin). cbn in E. subst k'. specialize (Hlt _ Hin). cbn in Hlt.
  by rewrite lt_irrefl in Hlt.
Qed.

Lemma map_set_set k x y m : map_set k x (map_set k y m) = map_set k x m.
Proof.
  pose proof (lt_irrefl (ltb := ltb) k) as Hk. induction m as [|[k' z] m IH]; cbn; [by rewrite Hk|].
  destruct (ltb k' k) eqn:E1; cbn; [by rewrite E1, IH|]. destruct (ltb k k') eqn:E2; cbn; [by rewrite Hk|].
  by rewrite E1, E2.
Qed.

Lemma map_set_id k x m : map_find k m = Some x → map_set k x m = m.
Proof.
  induction m as [|[k' z] m IH]; cbn; [done|]. destruct (ltb k' k) eqn:E1; [intros Hf; f_equal; by apply IH|].
  destruct (ltb k k') eqn:E2; [done|]. by intros [= ->].
Qed.

Lemma map_erase_absent k m : map_find k m = None → map_erase k m = m.
Proof.
  induction m as [|[k' v'] m IH]; cbn; [done|]. repeat case_match; try done. intros Hf. f_equal. by apply IH.
Qed.

Lemma map_insert_sorted k v m : map_sorted m → map_sorted (map_insert k v m).
Proof. intros H. unfold map_insert. destruct (map_find k m); [done|by apply map_set_sorted]. Qed.

End StdMap.

(** ** std::set: the list of its elements in the order of [operator<] *)
Section StdSet.
Context {K : Type} (ltb : K → K → bool).

Fixpoint set_mem (k : K) (s : list K) : bool :=
  match s with
  | [] => false
  | k' :: s' => if ltb k' k then set_mem k s' else negb (ltb k k')
  end.

(** [s.insert (k)] *)
Fixpoint set_insert (k : K) (s : list K) : list K :=
  match s with
  | [] => [k]
  | k' :: s' => if ltb k' k then k' :: set_insert k s' else if ltb k k' then k :: s else s
  end.

(** [s.erase (k)] *)
Fixpoint set_erase (k : K) (s : list K) : list K :=
  match s with
  | [] => []
  | k' :: s' => if ltb k' k then k' :: set_erase k s' else if ltb k k' then s else s'
  end.

(** [std::copy (l.begin (), l.end (), std::inserter (s, s.end ()))] *)
Definition set_inserts (l s : list K) : list K := fold_left (λ s k, set_insert k s) l s.

(** [std::set_difference] and [std::set_union]: the merge loops, which compare heads. *)
Fixpoint set_difference (l1 l2 : list K) {struct l1} : list K :=
  let fix go (l2 : list K) : list K :=
    match l1, l2 with
    | [], _ => []
    | _, [] => l1
    | a :: l1', b :: l2' =>
        if ltb a b then a :: set_difference l1' l2
        else if ltb b a then go l2'
        else set_difference l1' l2'
    end in
  go l2.

Fixpoint set_union (l1 l2 : list K) {struct l1} : list K :=
  let fix go (l2 : list K) : list K :=
    match l1, l2 with
    | [], _ => l2
    | _, [] => l1
    | a :: l1', b :: l2' =>
        if ltb a b then a :: set_union l1' l2
        else if ltb b a then b :: go l2'
        else a :: set_union l1' l2'
    end in
  go l2.

Definition set_sorted (s : list K) : Prop := StronglySorted (λ a b, ltb a b = true) s.

Context `{!StrictTotal ltb}.

Lemma set_sorted_cons k s : set_sorted (k :: s) ↔ set_sorted s ∧ ∀ x, x ∈ s → ltb k x = true.
Proof.
  split.
  - intros H. apply StronglySorted_inv in H as [H1 H2]. by rewrite Forall_forall in H2.
  - intros [H1 H2]. constructor; [done|]. by apply Forall_forall.
Qed.

Lemma lt_neq a b : ltb a b = true → a ≠ b.
Proof. intros H ->. by rewrite lt_irrefl in H. Qed.

Lemma set_sorted_nodup s : set_sorted s → NoDup s.
Proof.
  induction s as [|k s IH]; [constructor|]. intros [H1 H2]%set_sorted_cons. constructor; [|auto].
  intros H. by apply (lt_neq k k (H2 _ H)).
Qed.

Lemma set_mem_elem k s : set_sorted s → set_mem k s = true ↔ k ∈ s.
Proof.
  induction s as [|k' s IH]; [set_solver|]. intros [H1 H2]%set_sorted_cons. cbn.
  rewrite elem_of_cons. destruct (ltb k' k) eqn:E1; [|destruct (ltb k k') eqn:E2]; cbn.
  - rewrite (IH H1). pose proof (lt_neq _ _ E1). naive_solver.
  - split; [done|]. intros [->|H]; [by rewrite lt_irrefl in E2|]. apply H2 in H. congruence.
  - pose proof (lt_total _ _ E1 E2). naive_solver.
Qed.

Lemma set_insert_elem k s x : x ∈ set_insert k s ↔ x = k ∨ x ∈ s.
Proof.
  induction s as [|k' s IH]; cbn; [set_solver|].
  destruct (ltb k' k) eqn:E1; [|destruct (ltb k k') eqn:E2].
  - set_solver.
  - set_solver.
  - pose proof (lt_total _ _ E1 E2) as ->. set_solver.
Qed.

Lemma set_insert_sorted k s : set_sorted s → set_sorted (set_insert k s).
Proof.
  induction s as [|k' s IH]; intros HS; cbn; [repeat constructor|].
  pose proof HS as [H1 H2]%set_sorted_cons.
  destruct (ltb k' k) eqn:E1; [|destruct (ltb k k') eqn:E2]; [| |done].
  - apply set_sorted_cons. split; [by apply IH|]. intros x. rewrite set_insert_elem.
    intros [->|H]; [done|by apply H2].
  - apply set_sorted_cons. split; [done|]. intros x [->|H]%elem_of_cons; [done|].
    eapply lt_trans; [exact E2|by apply H2].
Qed.

Lemma set_erase_elem k s x : set_sorted s → x ∈ set_erase k s ↔ x ≠ k ∧ x ∈ s.
Proof.
  induction s as [|k' s IH]; intros HS; cbn; [set_solver|].
  pose proof HS as [H1 H2]%set_sorted_cons.
  destruct (ltb k' k) eqn:E1; [|destruct (ltb k k') eqn:E2].
  - rewrite !elem_of_cons, (IH H1). pose proof (lt_neq _ _ E1). naive_solver.
  - split; [|tauto]. intros H. split; [|done]. intros ->. apply elem_of_cons in H as [->|H].
    + by rewrite lt_irrefl in E2.
    + apply H2 in H. pose proof (lt_trans _ _ _ H E2) as E. by rewrite lt_irrefl in E.
  - pose proof (lt_total _ _ E1 E2) as ->. rewrite elem_of_cons. split; [|naive_solver].
    intros H. split; [|by right]. intros ->. by apply (lt_neq k k (H2 _ H)).
Qed.

Lemma set_erase_sorted k s : set_sorted s → set_sorted (set_erase k s).
Proof.
  induction s as [|k' s IH]; intros HS; cbn; [done|]. pose proof HS as [H1 H2]%set_sorted_cons.
  destruct (ltb k' k); [|by destruct (ltb k k')]. apply set_sorted_cons.
  split; [by apply IH|]. intros x Hx. apply H2. by apply set_erase_elem in Hx as [_ ?].
Qed.

Lemma set_inserts_elem l s x : x ∈ set_inserts l s ↔ x ∈ l ∨ x ∈ s.
Proof.
  revert s. induction l as [|k l IH]; intros s; cbn; [set_solver|].
  unfold set_inserts in IH. rewrite IH, set_insert_elem, elem_of_cons. tauto.
Qed.

Lemma set_inserts_sorted l s : set_sorted s → set_sorted (set_inserts l s).
Proof. revert s. induction l as [|k l IH]; intros s H; cbn; [done|]. by apply IH, set_insert_sorted. Qed.

(** Two sorted lists with the same elements are the same set. *)
Lemma set_sorted_ext s1 s2 : set_sorted s1 → set_sorted s2 → (∀ x, x ∈ s1 ↔ x ∈ s2) → s1 = s2.
Proof.
  revert s2. induction s1 as [|a s1 IH]; intros [|b s2] H1 H2 HE; try done.
  - specialize (HE b). set_solver.
  - specialize (HE a). set_solver.
  - pose proof H1 as [H1' L1]%set_sorted_cons. pose proof H2 as [H2' L2]%set_sorted_cons.
    assert (a = b) as ->.
    { pose proof (proj1 (HE a) ltac:(left)) as Ha. pose proof (proj2 (HE b) ltac:(left)) as Hb.
      apply elem_of_cons in Ha as [->|Ha]; [done|]. apply elem_of_cons in Hb as [->|Hb]; [done|].
      pose proof (lt_trans _ _ _ (L2 _ Ha) (L1 _ Hb)) as E. by rewrite lt_irrefl in E. }
    f_equal. apply IH; [done..|]. intros x. specialize (HE x). rewrite !elem_of_cons in HE.
    split; intros Hx; [destruct (proj1 HE ltac:(by right)) as [->|]|destruct (proj2 HE ltac:(by right)) as [->|]];
      try done; exfalso; by eapply lt_neq; eauto.
Qed.

Lemma set_difference_nil_r l1 : set_difference l1 [] = l1.
Proof. by destruct l1. Qed.
Lemma set_difference_cons a l1 b l2 : set_difference (a :: l1) (b :: l2) =
  if ltb a b then a :: set_difference l1 (b :: l2)
  else if ltb b a then set_difference (a :: l1) l2 else set_difference l1 l2.
Proof. reflexivity. Qed.
Lemma set_union_nil_r l1 : set_union l1 [] = l1.
Proof. by destruct l1. Qed.
Lemma set_union_cons a l1 b l2 : set_union (a :: l1) (b :: l2) =
  if ltb a b then a :: set_union l1 (b :: l2)
  else if ltb b a then b :: set_union (a :: l1) l2 else a :: set_union l1 l2.
Proof. reflexivity. Qed.

(** On sorted ranges the merge loops compute the difference and the union. *)
Lemma set_difference_elem l1 l2 x : set_sorted l1 → set_sorted l2 →
  x ∈ set_difference l1 l2 ↔ x ∈ l1 ∧ x ∉ l2.
Proof.
  revert l2. induction l1 as [|a l1 IH1]; intros l2; [destruct l2; set_solver|].
  induction l2 as [|b l2 IH2]; intros H1 H2; [rewrite set_difference_nil_r; set_solver|].
  pose proof H1 as [H1' L1]%set_sorted_cons. pose proof H2 as [H2' L2]%set_sorted_cons.
  rewrite set_difference_cons. destruct (ltb a b) eqn:E1; [|destruct (ltb b a) eqn:E2].
  - rewrite !elem_of_cons, (IH1 (b :: l2) H1' H2), elem_of_cons. split; [|naive_solver].
    intros [->|?]; [|naive_solver]. split; [by left|]. intros [->|H]; [by rewrite lt_irrefl in E1|].
    apply L2 in H. pose proof (lt_trans _ _ _ E1 H) as E. by rewrite lt_irrefl in E.
  - rewrite (IH2 H1 H2'), !elem_of_cons. split; [|naive_solver]. intros [Hx Hn]. split; [done|].
    intros [->|?]; [|done]. destruct Hx as [->|Hx]; [by rewrite lt_irrefl in E2|].
    apply L1 in Hx. congruence.
  - pose proof (lt_total _ _ E1 E2) as ->. rewrite (IH1 l2 H1' H2'), !elem_of_cons. split.
    + intros [Hx Hn]. split; [by right|]. intros [->|?]; [|done]. by apply (lt_neq b b (L1 _ Hx)).
    + naive_solver.
Qed.

Lemma set_union_elem l1 l2 x : x ∈ set_union l1 l2 ↔ x ∈ l1 ∨ x ∈ l2.
Proof.
  revert l2. induction l1 as [|a l1 IH1]; intros l2; [destruct l2; set_solver|].
  induction l2 as [|b l2 IH2]; [rewrite set_union_nil_r; set_solver|].
  rewrite set_union_cons. destruct (ltb a b) eqn:E1; [|destruct (ltb b a) eqn:E2].
  - rewrite !elem_of_cons, (IH1 (b :: l2)), elem_of_cons. naive_solver.
  - rewrite elem_of_cons, IH2, !elem_of_cons. naive_solver.
  - pose proof (lt_total _ _ E1 E2) as ->. rewrite !elem_of_cons, (IH1 l2). naive_solver.
Qed.
End StdSet.
