(* ===== verification/Double.v ===== *)
(** * Doubles

    C++ [double]s are IEEE binary64 numbers, computed by SpecFloat of the Standard
    Library, which rounds to nearest even. *)
From S2P Require Import Prelude.
From Stdlib Require Export SpecFloat.

Definition double := spec_float.
Definition isnan (x : double) : bool := match x with S754_nan => true | _ => false end.

Definition dadd (x y : double) : double := SFadd 53 1024 x y.
Definition dzero : double := S754_zero false.
Definition done_ : double := S754_finite false 4503599627370496 (-52).

#[global] Instance double_eq_dec : EqDecision double.
Proof. unfold double. solve_decision. Defined.

(** C++ [float]s are binary32 numbers; an [int] operand is converted to [float] first. *)
Definition float := spec_float.
Definition fadd (x y : float) : float := SFadd 24 128 x y.
Definition fsub (x y : float) : float := SFsub 24 128 x y.
Definition float_of_int (z : Z) : float := binary_normalize 24 128 z 0 false.
Definition fzero : float := S754_zero false.

(** Arithmetic, comparisons and conversions of [double]s. *)
Definition dsub (x y : double) : double := SFsub 53 1024 x y.
Definition dmul (x y : double) : double := SFmul 53 1024 x y.
Definition ddiv (x y : double) : double := SFdiv 53 1024 x y.
Definition dlt (x y : double) : bool := SFltb x y.
Definition dle (x y : double) : bool := SFleb x y.
Definition deq (x y : double) : bool := SFeqb x y.
Definition double_of_int (z : Z) : double := binary_normalize 53 1024 z 0 false.
Definition double_of_float (x : float) : double :=
  match x with S754_finite s m e => binary_normalize 53 1024 (cond_Zopp s (Zpos m)) e s | _ => x end.
(** The literal [n / d], rounded. *)
Definition dlit (n d : Z) : double := ddiv (double_of_int n) (double_of_int d).

(** [(unsigned int) x]: truncation towards zero; a value that does not fit is undefined. *)
Definition double_trunc (x : double) : option Z :=
  match x with
  | S754_zero _ => Some 0%Z
  | S754_finite s m e =>
      let a := if (0 <=? e)%Z then Z.shiftl (Zpos m) e else Z.shiftr (Zpos m) (- e) in
      Some (if s then (- a)%Z else a)
  | _ => None
  end.
Definition double_to_uint (x : double) : outcome Z :=
  match double_trunc x with
  | Some z => if (0 <=? z)%Z && (z <=? UINT_MAX)%Z then Ok z else Fault UB
  | None => Fault UB
  end.

#[global] Instance float_eq_dec : EqDecision float := double_eq_dec.

(** ** Order *)
(** The position of a double that is not NaN in the order of [dlt]: infinities, sign, then
    exponent and significand. *)
Definition drank (x : double) : option (Z * Z * Z) :=
  match x with
  | S754_nan => None
  | S754_infinity s => Some (if s then -2 else 2, 0, 0)%Z
  | S754_zero _ => Some (0, 0, 0)%Z
  | S754_finite s m e => Some (if s then (-1, - e, - Z.pos m) else (1, e, Z.pos m))%Z
  end.
Definition drank_lt (a b : Z * Z * Z) : Prop :=
  (a.1.1 < b.1.1 ∨ (a.1.1 = b.1.1 ∧ (a.1.2 < b.1.2 ∨ (a.1.2 = b.1.2 ∧ a.2 < b.2))))%Z.

Lemma SFcompare_drank x y : match SFcompare x y, drank x, drank y with
  | Some Lt, Some a, Some b => drank_lt a b
  | Some Eq, Some a, Some b => a = b
  | Some Gt, Some a, Some b => drank_lt b a
  | None, Some _, Some _ => False
  | None, _, _ => True
  | _, _, _ => False
  end.
Proof.
  unfold drank_lt. destruct x as [s1|s1| |s1 m1 e1], y as [s2|s2| |s2 m2 e2]; try destruct s1; try destruct s2;
    try exact I; try reflexivity; try (left; reflexivity).
  - cbn -[Z.compare Pos.compare_cont Z.lt Z.opp]. fold (Pos.compare m1 m2).
    destruct (Z.compare_spec e1 e2), (Pos.compare_spec m1 m2); cbn -[Z.lt Z.opp]; subst; try reflexivity; lia.
  - cbn -[Z.compare Pos.compare_cont Z.lt Z.opp]. fold (Pos.compare m1 m2).
    destruct (Z.compare_spec e1 e2), (Pos.compare_spec m1 m2); cbn -[Z.lt Z.opp]; subst; try reflexivity; lia.
Qed.

Lemma dlt_drank x y : dlt x y = true ↔ ∃ a b, drank x = Some a ∧ drank y = Some b ∧ drank_lt a b.
Proof.
  unfold dlt, SFltb. pose proof (SFcompare_drank x y) as X. split.
  - destruct (SFcompare x y) as [[]|], (drank x), (drank y); try done. eauto.
  - intros (a & b & Ha & Hb & L). rewrite Ha, Hb in X. unfold drank_lt in *.
    destruct (SFcompare x y) as [[]|]; [subst; lia|done|lia|done].
Qed.
Lemma dle_drank x y : dle x y = true ↔ ∃ a b, drank x = Some a ∧ drank y = Some b ∧ ¬ drank_lt b a.
Proof.
  unfold dle, SFleb. pose proof (SFcompare_drank x y) as X. split.
  - destruct (SFcompare x y) as [[]|], (drank x), (drank y); try done; intros _; eexists _, _;
      (split_and!; [done..|]); unfold drank_lt in *; [subst; lia|lia].
  - intros (a & b & Ha & Hb & L). rewrite Ha, Hb in X. by destruct (SFcompare x y) as [[]|].
Qed.

Lemma isnan_drank x : isnan x = false ↔ is_Some (drank x).
Proof. destruct x; cbn; split; try done; eauto; by intros [? [=]]. Qed.

Lemma dle_trans x y z : dle x y = true → dle y z = true → dle x z = true.
Proof.
  rewrite !dle_drank. unfold drank_lt. intros (a & b & Ha & Hb & L1) (b' & c & Hb' & Hc & L2).
  rewrite Hb in Hb'. injection Hb' as <-. exists a, c. split_and!; [done..|]. lia.
Qed.
Lemma dlt_dle x y : dlt x y = true → dle x y = true.
Proof. rewrite dlt_drank, dle_drank. unfold drank_lt. intros (a & b & Ha & Hb & L). exists a, b. split_and!; [done..|]. lia. Qed.
Lemma dle_total x y : isnan x = false → isnan y = false → dlt x y = false → dle y x = true.
Proof.
  rewrite !isnan_drank. intros [a Ha] [b Hb] L. apply dle_drank. exists b, a. split_and!; [done..|]. intros X.
  assert (dlt x y = true) by (apply dlt_drank; eauto). congruence.
Qed.
Lemma dle_refl x : isnan x = false → dle x x = true.
Proof. rewrite isnan_drank. intros [a Ha]. apply dle_drank. exists a, a. split_and!; [done..|]. unfold drank_lt. lia. Qed.
