(* ===== verification/KeyOrder.v ===== *)
(** * Orders of composite keys

    Keys of the ordered maps of the client library hold floating-point options.  Without
    NaNs their [operator<] is the order of a canonical key: [fkey] of a float, compared
    lexicographically.  A map ordered by [operator<] of such keys is an ordered map of the
    canonical keys. *)
From S2P Require Import Prelude StdMap Double.

Section lex.
Context {A B : Type} (la : A → A → bool) (lb : B → B → bool).

Definition lex_ltb (x y : A * B) : bool := la x.1 y.1 || (negb (la y.1 x.1) && lb x.2 y.2).

#[global] Instance lex_order `{!StrictTotal la, !StrictTotal lb} : StrictTotal lex_ltb.
Proof.
  split.
  - intros [a b]. unfold lex_ltb. cbn. by rewrite !lt_irrefl.
  - intros [a1 b1] [a2 b2] [a3 b3]. unfold lex_ltb. cbn.
    destruct (la a1 a2) eqn:E12, (la a2 a3) eqn:E23; cbn.
    + intros _ _. by rewrite (lt_trans _ _ _ E12 E23).
    + intros _. destruct (la a3 a2) eqn:E32; [done|]. rewrite <- (lt_total _ _ E23 E32), E12. done.
    + intros H _. destruct (la a2 a1) eqn:E21; [done|]. rewrite (lt_total _ _ E12 E21), E23. done.
    + destruct (la a2 a1) eqn:E21; [done|]. destruct (la a3 a2) eqn:E32; [done|]. cbn. intros H1 H2.
      rewrite <- (lt_total _ _ E23 E32), E12, E21. cbn. by apply (lt_trans _ _ _ H1 H2).
  - intros [a1 b1] [a2 b2]. unfold lex_ltb. cbn. destruct (la a1 a2) eqn:E12, (la a2 a1) eqn:E21; cbn; try done.
    intros H1 H2. f_equal; by apply lt_total.
Qed.
End lex.

#[global] Instance unit_order : StrictTotal (λ _ _ : unit, false).
Proof. split; try done. by intros [] []. Qed.

Definition bool_ltb (a b : bool) : bool := negb a && b.
#[global] Instance bool_order : StrictTotal bool_ltb.
Proof. split; [by intros []|by intros [] [] []|by intros [] []]. Qed.

(** ** Floats *)
Definition fkey (x : spec_float) : Z * (Z * Z) :=
  match x with
  | S754_nan => (3, (0, 0))
  | S754_infinity s => (if s then -2 else 2, (0, 0))
  | S754_zero _ => (0, (0, 0))
  | S754_finite s m e => if s then (-1, (- e, - Zpos m)) else (1, (e, Zpos m))
  end%Z.
Definition fkey_ltb : Z * (Z * Z) → Z * (Z * Z) → bool := lex_ltb Z.ltb (lex_ltb Z.ltb Z.ltb).

Lemma fkey_lt x y : isnan x = false → isnan y = false → dlt x y = fkey_ltb (fkey x) (fkey y).
Proof.
  unfold dlt, SFltb, fkey_ltb, lex_ltb.
  destruct x as [sx|sx| |sx mx ex], y as [sy|sy| |sy my ey]; intros Hx Hy; try done; try by destruct sx, sy.
  all: try by destruct sx. all: try by destruct sy.
  destruct sx, sy; try done; cbn [SFcompare fkey fst snd];
    change (Pos.compare_cont Eq mx my) with (Pos.compare mx my);
    destruct (Z.compare_spec ex ey), (Pos.compare_spec mx my);
    repeat match goal with |- context [Z.ltb ?a ?b] => destruct (Z.ltb_spec a b) end; try done; lia.
Qed.

(** ** Maps over canonical keys *)
Section canonical.
Context {K C V : Type} (ltb : K → K → bool) (lt' : C → C → bool) (f : K → C) (ok : K → Prop).
Context (HF : ∀ a b, ok a → ok b → ltb a b = lt' (f a) (f b)).

Definition canon (m : list (K * V)) : list (C * V) := (λ e, (f e.1, e.2)) <$> m.

Lemma map_find_canon k m : ok k → Forall ok m.*1 → map_find ltb k m = map_find lt' (f k) (canon m).
Proof.
  intros Hk. induction m as [|[k' v] m IH]; intros Hm; [done|]. inversion_clear Hm. cbn. rewrite !HF by done.
  by rewrite IH.
Qed.

Lemma map_set_canon k v m : ok k → Forall ok m.*1 → canon (map_set ltb k v m) = map_set lt' (f k) v (canon m).
Proof.
  intros Hk. induction m as [|[k' v'] m IH]; intros Hm; [done|]. inversion_clear Hm. cbn. rewrite !HF by done.
  destruct (lt' (f k') (f k)); cbn; [f_equal; by apply IH|]. by destruct (lt' (f k) (f k')).
Qed.

Lemma map_set_ok k (v : V) m : ok k → Forall ok m.*1 → Forall ok (map_set ltb k v m).*1.
Proof.
  intros Hk. induction m as [|[k' v'] m IH]; intros Hm; cbn; [by constructor|]. inversion_clear Hm.
  destruct (ltb k' k); cbn; [constructor; [done|by apply IH]|]. destruct (ltb k k'); cbn; by repeat constructor.
Qed.
End canonical.
