(* ===== verification/Patricia.v ===== *)
(** * The Patricia trie (common/cpp/src/lib/patricia.cpp, include/p4p/detail/patricia.h)

    The trie is a binary tree of heap-allocated nodes with parent pointers, whose
    nodes point to reference-counted [prefix_t] objects.  This file translates the
    C code onto an explicit store: [nodes] and [prefixes] are the live objects by
    address, [head], [maxbits] and [num_active_node] the fields of
    [patricia_tree_t].  A dereference of a null or freed pointer, a read outside an
    address buffer and an overflow of the fixed-size stacks are the fault [UB]; an
    [assert] that does not hold is [AssertFail].

    The debug counter [num_active_patricia], which nothing reads, the field
    [user1], which nothing uses, and the [PATRICIA_DEBUG] output are left out. *)
From S2P Require Import Prelude.

Abbreviation loc := positive.

Definition AF_UNSPEC : Z := 0.
Definition AF_INET : Z := 2.
Definition AF_INET6 : Z := 10.
Definition PATRICIA_MAXBITS : nat := 128.

(** [prefix_t]/[prefix4_t].  An AF_INET prefix is allocated with room for 4 address
    bytes, an AF_INET6 prefix with room for 16: [add] has that many bytes. *)
Record prefix_t := Prefix {
  px_family : Z;
  px_bitlen : nat;
  px_ref_count : Z;
  px_add : list Z
}.

Definition set_ref_count (z : Z) (p : prefix_t) : prefix_t :=
  Prefix (px_family p) (px_bitlen p) z (px_add p).

Record patricia_node_t {T : Type} := PNode {
  n_bit : nat;
  n_prefix : option loc;
  n_l : option loc;
  n_r : option loc;
  n_parent : option loc;
  n_data : option T
}.
Arguments patricia_node_t T : clear implicits.

Record patricia_tree_t {T : Type} := PTree {
  t_nodes : gmap loc (patricia_node_t T);
  t_prefixes : gmap loc prefix_t;
  t_head : option loc;
  t_maxbits : nat;
  t_num_active : Z
}.
Arguments patricia_tree_t T : clear implicits.

Section Patricia.
Context {T : Type}.
Abbreviation node_t := (patricia_node_t T).
Abbreviation tree_t := (patricia_tree_t T).
Abbreviation M := (ST tree_t).

(** ** Access to the store *)
Definition set_nodes (ns : gmap loc node_t) (t : tree_t) : tree_t :=
  PTree T ns (t_prefixes t) (t_head t) (t_maxbits t) (t_num_active t).
Definition set_prefixes (ps : gmap loc prefix_t) (t : tree_t) : tree_t :=
  PTree T (t_nodes t) ps (t_head t) (t_maxbits t) (t_num_active t).
Definition set_head (h : option loc) : M unit := λ t,
  Ok (tt, PTree T (t_nodes t) (t_prefixes t) h (t_maxbits t) (t_num_active t)).
Definition add_active (z : Z) : M unit := λ t,
  Ok (tt, PTree T (t_nodes t) (t_prefixes t) (t_head t) (t_maxbits t) (t_num_active t + z)).

Definition get_node (p : loc) : M node_t := λ t,
  match t_nodes t !! p with Some n => Ok (n, t) | None => Fault UB end.
Definition put_node (p : loc) (n : node_t) : M unit := λ t,
  match t_nodes t !! p with
  | Some _ => Ok (tt, set_nodes (<[p:=n]> (t_nodes t)) t)
  | None => Fault UB
  end.
Definition calloc_node (n : node_t) : M loc := λ t,
  let p := fresh_loc (t_nodes t) in Ok (p, set_nodes (<[p:=n]> (t_nodes t)) t).
Definition Delete_node (p : loc) : M unit := λ t,
  match t_nodes t !! p with
  | Some _ => Ok (tt, set_nodes (delete p (t_nodes t)) t)
  | None => Fault UB
  end.
Definition get_prefix (p : loc) : M prefix_t := λ t,
  match t_prefixes t !! p with Some x => Ok (x, t) | None => Fault UB end.

(** Assignments through a node pointer. *)
Definition set_prefix (p : loc) (q : option loc) : M unit :=
  n ← get_node p; put_node p (PNode T (n_bit n) q (n_l n) (n_r n) (n_parent n) (n_data n)).
Definition set_l (p : loc) (c : option loc) : M unit :=
  n ← get_node p; put_node p (PNode T (n_bit n) (n_prefix n) c (n_r n) (n_parent n) (n_data n)).
Definition set_r (p : loc) (c : option loc) : M unit :=
  n ← get_node p; put_node p (PNode T (n_bit n) (n_prefix n) (n_l n) c (n_parent n) (n_data n)).
Definition set_parent (p : loc) (c : option loc) : M unit :=
  n ← get_node p; put_node p (PNode T (n_bit n) (n_prefix n) (n_l n) (n_r n) c (n_data n)).
Definition set_data (p : loc) (d : option T) : M unit :=
  n ← get_node p; put_node p (PNode T (n_bit n) (n_prefix n) (n_l n) (n_r n) (n_parent n) d).

Definition deref (p : option loc) : M loc := st_lift (from_option_or UB p).
Definition assertm (b : bool) : M unit := st_lift (assertb b).

(** ** Address bits *)
Definition byte_at (addr : list Z) (i : nat) : outcome Z := from_option_or UB (addr !! i).

(** [BIT_TEST (addr\[i >> 3\], 0x80 >> (i & 0x07))] *)
Definition BIT_TEST (f b : Z) : bool := negb (Z.land f b =? 0)%Z.
Definition addr_bit (addr : list Z) (i : nat) : outcome bool :=
  f ← byte_at addr (Nat.shiftr i 3);
  mret (BIT_TEST f (Z.shiftr 128 (Z.of_nat (Nat.land i 7)))).

(** [memcmp (a, b, n) == 0]: both buffers must have [n] bytes. *)
Definition memeq (a b : list Z) (n : nat) : outcome bool :=
  if decide (n ≤ length a ∧ n ≤ length b) then Ok (bool_decide (take n a = take n b))
  else Fault UB.

Definition comp_with_mask (a dest : list Z) (mask : nat) : outcome bool :=
  same ← memeq a dest (mask / 8);
  if (same : bool) then
    let n := mask / 8 in
    let m := Z.shiftl (-1) (Z.of_nat (8 - mask `mod` 8)) in
    if mask `mod` 8 =? 0 then mret true
    else
      x ← byte_at a n;
      y ← byte_at dest n;
      mret (Z.land x m =? Z.land y m)%Z
  else mret false.

(** ** Prefix objects *)
Definition put_prefix (q : loc) (x : prefix_t) : M unit := λ t,
  Ok (tt, set_prefixes (<[q:=x]> (t_prefixes t)) t).
Definition calloc_prefix (x : prefix_t) : M loc := λ t,
  let q := fresh_loc (t_prefixes t) in
  Ok (q, set_prefixes (<[q:=x]> (t_prefixes t)) t).
Definition Delete_prefix (q : loc) : M unit := λ t,
  match t_prefixes t !! q with
  | Some _ => Ok (tt, set_prefixes (delete q (t_prefixes t)) t)
  | None => Fault UB
  end.

(** [memcpy (dst, dest, n)] reads [n] bytes of [dest]. *)
Definition memcpy (dest : list Z) (n : nat) : outcome (list Z) :=
  if n <=? length dest then Ok (take n dest) else Fault UB.

(** [New_Prefix2] is only ever called with a null last argument, so the prefix is
    dynamically allocated and its reference count starts at 1.  The [int] length is
    stored in a [u_short]. *)
Definition New_Prefix2 (family : Z) (dest : list Z) (bitlen : Z) : M (option loc) :=
  let finish nbytes default_bitlen :=
    a ← st_lift (memcpy dest nbytes);
    q ← calloc_prefix
          (Prefix family (Z.to_nat (u16 (if (0 <=? bitlen)%Z then bitlen else default_bitlen)))
                  1 a);
    mret (Some q) in
  if (family =? AF_INET6)%Z then finish 16 128%Z
  else if (family =? AF_INET)%Z then finish 4 32%Z
  else mret None.

Definition New_Prefix (family : Z) (dest : list Z) (bitlen : Z) : M (option loc) :=
  New_Prefix2 family dest bitlen.

Definition Ref_Prefix (q : option loc) : M (option loc) :=
  match q with
  | None => mret None
  | Some q =>
      x ← get_prefix q;
      if (px_ref_count x =? 0)%Z
      then New_Prefix2 (px_family x) (px_add x) (Z.of_nat (px_bitlen x))
      else put_prefix q (set_ref_count (px_ref_count x + 1) x);; mret (Some q)
  end.

Definition Deref_Prefix (q : option loc) : M unit :=
  match q with
  | None => mret tt
  | Some q =>
      x ← get_prefix q;
      assertm (0 <? px_ref_count x)%Z;;
      let c := (px_ref_count x - 1)%Z in
      put_prefix q (set_ref_count c x);;
      assertm (0 <=? c)%Z;;
      if (c <=? 0)%Z then Delete_prefix q else mret tt
  end.

(** ** Construction *)
Definition New_Patricia (maxbits : nat) : outcome tree_t :=
  assertb (maxbits <=? PATRICIA_MAXBITS);;
  mret (PTree T ∅ ∅ None maxbits 0).

(** ** Searching *)

(** The descent of [patricia_search_exact]. *)
Fixpoint search_exact_loop (fuel : nat) (addr : list Z) (bitlen : nat) (node : loc)
  : M (option loc) :=
  match fuel with
  | 0 => st_fail NoFuel
  | S fuel =>
      n ← get_node node;
      if n_bit n <? bitlen then
        b ← st_lift (addr_bit addr (n_bit n));
        match (if b : bool then n_r n else n_l n) with
        | None => mret None
        | Some c => search_exact_loop fuel addr bitlen c
        end
      else mret (Some node)
  end.

(** Fuel of the loops that follow child or parent pointers: one unit for each live
    node and one more. *)
Definition node_fuel (t : tree_t) : nat := S (size (t_nodes t)).

Definition patricia_search_exact (prefix : loc) : M (option loc) :=
  t ← st_get;
  x ← get_prefix prefix;
  assertm (px_bitlen x <=? t_maxbits t);;
  match t_head t with
  | None => mret None
  | Some h =>
      stop ← search_exact_loop (node_fuel t) (px_add x) (px_bitlen x) h;
      match stop with
      | None => mret None
      | Some node =>
          n ← get_node node;
          if px_bitlen x <? n_bit n then mret None
          else
            match n_prefix n with
            | None => mret None
            | Some q =>
                assertm (n_bit n =? px_bitlen x);;
                y ← get_prefix q;
                assertm (n_bit n =? px_bitlen y);;
                c ← st_lift (comp_with_mask (px_add y) (px_add x) (px_bitlen x));
                mret (if c : bool then Some node else None)
            end
      end
  end.

(** [stack\[cnt++\] = node] on a stack of [PATRICIA_MAXBITS + 1] entries; the list
    has the top first. *)
Definition push (stack : list loc) (node : loc) : outcome (list loc) :=
  if length stack <? PATRICIA_MAXBITS + 1 then Ok (node :: stack) else Fault UB.

(** The descent of [patricia_search_best2]: the node it stops at, and the nodes with
    a prefix that it passed. *)
Fixpoint search_best_loop (fuel : nat) (addr : list Z) (bitlen : nat) (node : loc)
    (stack : list loc) : M (option loc * list loc) :=
  match fuel with
  | 0 => st_fail NoFuel
  | S fuel =>
      n ← get_node node;
      if n_bit n <? bitlen then
        stack' ← match n_prefix n with Some _ => st_lift (push stack node) | None => mret stack end;
        b ← st_lift (addr_bit addr (n_bit n));
        match (if b : bool then n_r n else n_l n) with
        | None => mret (None, stack')
        | Some c => search_best_loop fuel addr bitlen c stack'
        end
      else mret (Some node, stack)
  end.

(** [while (--cnt >= 0)]: the first node of the stack whose prefix matches. *)
Fixpoint search_best_pop (addr : list Z) (stack : list loc) : M (option loc) :=
  match stack with
  | [] => mret None
  | node :: stack =>
      n ← get_node node;
      q ← deref (n_prefix n);
      y ← get_prefix q;
      c ← st_lift (comp_with_mask (px_add y) addr (px_bitlen y));
      if c : bool then mret (Some node) else search_best_pop addr stack
  end.

Definition patricia_search_best2 (prefix : loc) (inclusive : bool) : M (option loc) :=
  t ← st_get;
  x ← get_prefix prefix;
  assertm (px_bitlen x <=? t_maxbits t);;
  match t_head t with
  | None => mret None
  | Some h =>
      '(stop, stack) ← search_best_loop (node_fuel t) (px_add x) (px_bitlen x) h [];
      stack' ← match stop with
               | Some node =>
                   if inclusive then
                     n ← get_node node;
                     match n_prefix n with Some _ => st_lift (push stack node) | None => mret stack end
                   else mret stack
               | None => mret stack
               end;
      search_best_pop (px_add x) stack'
  end.

Definition patricia_search_best (prefix : loc) : M (option loc) :=
  patricia_search_best2 prefix true.

(** ** Insertion ([patricia_lookup]) *)

(** [node->bit < maxbits && BIT_TEST (addr\[node->bit >> 3\], ...)] *)
Definition take_right (maxbits : nat) (addr : list Z) (i : nat) : outcome bool :=
  if i <? maxbits then addr_bit addr i else mret false.

(** The first loop: follow the bits of the address until a node with a prefix that
    is long enough, or a missing child. *)
Fixpoint lookup_descend (fuel maxbits : nat) (addr : list Z) (bitlen : nat) (node : loc)
  : M loc :=
  match fuel with
  | 0 => st_fail NoFuel
  | S fuel =>
      n ← get_node node;
      if (n_bit n <? bitlen) || bool_decide (n_prefix n = None) then
        b ← st_lift (take_right maxbits addr (n_bit n));
        match (if b : bool then n_r n else n_l n) with
        | None => mret node
        | Some c => lookup_descend fuel maxbits addr bitlen c
        end
      else mret node
  end.

(** [for (j = 0; j < 8; j++) if (BIT_TEST (r, (0x80 >> j))) break;] with [j] counted
    by the remaining iterations [k = 8 - j]. *)
Fixpoint first_set_bit (r : Z) (k : nat) : nat :=
  match k with
  | 0 => 8
  | S k' => let j := 8 - k in
            if BIT_TEST r (Z.shiftr 128 (Z.of_nat j)) then j else first_set_bit r k'
  end.

(** "find the first bit different": the loop over the bytes; [k] bounds the number of
    iterations. *)
Fixpoint differ_loop (k : nat) (addr test_addr : list Z) (check_bit i differ_bit : nat)
  : outcome nat :=
  match k with
  | 0 => Fault NoFuel
  | S k =>
      if i * 8 <? check_bit then
        x ← byte_at addr i;
        y ← byte_at test_addr i;
        let r := Z.lxor x y in
        if (r =? 0)%Z then differ_loop k addr test_addr check_bit (i + 1) ((i + 1) * 8)
        else
          let j := first_set_bit r 8 in
          assertb (j <? 8);;
          mret (i * 8 + j)
      else mret differ_bit
  end.

Definition first_differ_bit (addr test_addr : list Z) (check_bit : nat) : outcome nat :=
  d ← differ_loop (check_bit + 1) addr test_addr check_bit 0 0;
  mret (if check_bit <? d then check_bit else d).

(** [while (parent && parent->bit >= differ_bit) { node = parent; parent = node->parent; }] *)
Fixpoint lookup_climb (fuel : nat) (differ_bit : nat) (node : loc) : M loc :=
  match fuel with
  | 0 => st_fail NoFuel
  | S fuel =>
      n ← get_node node;
      match n_parent n with
      | None => mret node
      | Some p =>
          pn ← get_node p;
          if differ_bit <=? n_bit pn then lookup_climb fuel differ_bit p else mret node
      end
  end.

Definition option_loc_eqb (a b : option loc) : bool := bool_decide (a = b).

(** The child pointer of [node]'s parent (or the head of the tree) is redirected from
    [node] to [new]. *)
Definition replace_in_parent (node : loc) (new : option loc) : M unit :=
  t ← st_get;
  n ← get_node node;
  match n_parent n with
  | None => assertm (option_loc_eqb (t_head t) (Some node));; set_head new
  | Some p =>
      pn ← get_node p;
      if option_loc_eqb (n_r pn) (Some node) then set_r p new else set_l p new
  end.

(** The four ways a new node enters the tree once the position is known.
    [test_addr] is the address of the prefix the first loop stopped at. *)
Definition lookup_attach (prefix : loc) (addr test_addr : list Z)
    (bitlen differ_bit maxbits : nat) (node : loc) : M loc :=
  q ← Ref_Prefix (Some prefix);
  new_node ← calloc_node (PNode T bitlen q None None None None);
  add_active 1;;
  n ← get_node node;
  if n_bit n =? differ_bit then
    (* #2: child of [node] *)
    set_parent new_node (Some node);;
    b ← st_lift (take_right maxbits addr (n_bit n));
    if b : bool then
      assertm (option_loc_eqb (n_r n) None);;
      set_r node (Some new_node);;
      mret new_node
    else
      assertm (option_loc_eqb (n_l n) None);;
      set_l node (Some new_node);;
      mret new_node
  else if bitlen =? differ_bit then
    (* #3: parent of [node] *)
    b ← st_lift (take_right maxbits test_addr bitlen);
    (if b : bool then set_r new_node (Some node) else set_l new_node (Some node));;
    set_parent new_node (n_parent n);;
    replace_in_parent node (Some new_node);;
    set_parent node (Some new_node);;
    mret new_node
  else
    (* #4: a glue node above [node] and [new_node] *)
    glue ← calloc_node (PNode T differ_bit None None None (n_parent n) None);
    add_active 1;;
    b ← st_lift (take_right maxbits addr differ_bit);
    (if b : bool then set_r glue (Some new_node);; set_l glue (Some node)
     else set_r glue (Some node);; set_l glue (Some new_node));;
    set_parent new_node (Some glue);;
    replace_in_parent node (Some glue);;
    set_parent node (Some glue);;
    mret new_node.

Definition patricia_lookup (prefix : loc) : M loc :=
  t ← st_get;
  x ← get_prefix prefix;
  assertm (px_bitlen x <=? t_maxbits t);;
  match t_head t with
  | None =>
      q ← Ref_Prefix (Some prefix);
      node ← calloc_node (PNode T (px_bitlen x) q None None None None);
      set_head (Some node);;
      add_active 1;;
      mret node
  | Some h =>
      let addr := px_add x in
      let bitlen := px_bitlen x in
      node ← lookup_descend (node_fuel t) (t_maxbits t) addr bitlen h;
      n ← get_node node;
      assertm (bool_decide (n_prefix n ≠ None));;
      q ← deref (n_prefix n);
      y ← get_prefix q;
      let test_addr := px_add y in
      let check_bit := if n_bit n <? bitlen then n_bit n else bitlen in
      differ_bit ← st_lift (first_differ_bit addr test_addr check_bit);
      node' ← lookup_climb (node_fuel t) differ_bit node;
      n' ← get_node node';
      if (differ_bit =? bitlen) && (n_bit n' =? bitlen) then
        match n_prefix n' with
        | Some _ => mret node'
        | None =>
            q' ← Ref_Prefix (Some prefix);
            set_prefix node' q';;
            assertm (bool_decide (n_data n' = None));;
            mret node'
        end
      else lookup_attach prefix addr test_addr bitlen differ_bit (t_maxbits t) node'
  end.

(** ** Removal *)
Definition patricia_remove (node : loc) : M unit :=
  n ← get_node node;
  match n_r n, n_l n with
  | Some _, Some _ =>
      (* #0: two children, the node stays as a glue node *)
      Deref_Prefix (n_prefix n);;
      set_prefix node None;;
      set_data node None
  | None, None =>
      (* #1: no child *)
      Deref_Prefix (n_prefix n);;
      Delete_node node;;
      add_active (-1);;
      match n_parent n with
      | None =>
          t ← st_get;
          assertm (option_loc_eqb (t_head t) (Some node));;
          set_head None
      | Some parent =>
          pn ← get_node parent;
          child ←
            (if option_loc_eqb (n_r pn) (Some node) then
               set_r parent None;; mret (n_l pn)
             else
               assertm (option_loc_eqb (n_l pn) (Some node));;
               set_l parent None;; mret (n_r pn));
          match n_prefix pn with
          | Some _ => mret tt
          | None =>
              (* we need to remove parent too *)
              match n_parent pn with
              | None =>
                  t ← st_get;
                  assertm (option_loc_eqb (t_head t) (Some parent));;
                  set_head child
              | Some gp =>
                  gn ← get_node gp;
                  if option_loc_eqb (n_r gn) (Some parent) then set_r gp child
                  else assertm (option_loc_eqb (n_l gn) (Some parent));; set_l gp child
              end;;
              c ← deref child;
              set_parent c (n_parent pn);;
              Delete_node parent;;
              add_active (-1)
          end
      end
  | r, l =>
      (* #2: exactly one child *)
      child ← deref (match r with Some _ => r | None => l end);
      set_parent child (n_parent n);;
      Deref_Prefix (n_prefix n);;
      Delete_node node;;
      add_active (-1);;
      match n_parent n with
      | None =>
          t ← st_get;
          assertm (option_loc_eqb (t_head t) (Some node));;
          set_head (Some child)
      | Some parent =>
          pn ← get_node parent;
          if option_loc_eqb (n_r pn) (Some node) then set_r parent (Some child)
          else assertm (option_loc_eqb (n_l pn) (Some node));; set_l parent (Some child)
      end
  end.

(** ** Walking the tree *)

(** The continuation of [PATRICIA_WALK_END] and of [Clear_Patricia]: where to go after
    a node with children [l] and [r], and the stack of pending right children. *)
Definition walk_next (l r : option loc) (stack : list loc)
  : outcome (option loc * list loc) :=
  match l with
  | Some l =>
      match r with
      | Some r => stack' ← push stack r; mret (Some l, stack')
      | None => mret (Some l, stack)
      end
  | None =>
      match r with
      | Some r => mret (Some r, stack)
      | None => match stack with
                | x :: stack' => mret (Some x, stack')
                | [] => mret (None, [])
                end
      end
  end.

(** [PATRICIA_WALK (head, node) { ... } PATRICIA_WALK_END]: the nodes with a prefix in
    the order in which the body sees them. *)
Fixpoint walk_loop (fuel : nat) (Xrn : option loc) (stack : list loc) : M (list loc) :=
  match Xrn with
  | None => mret []
  | Some node =>
      match fuel with
      | 0 => st_fail NoFuel
      | S fuel =>
          n ← get_node node;
          '(next, stack') ← st_lift (walk_next (n_l n) (n_r n) stack);
          rest ← walk_loop fuel next stack';
          mret (match n_prefix n with Some _ => node :: rest | None => rest end)
      end
  end.

Definition PATRICIA_WALK : M (list loc) :=
  t ← st_get; walk_loop (node_fuel t) (t_head t) [].

(** The arguments the callback of [patricia_process] receives, in order. *)
Definition patricia_process : M (list (prefix_t * option T)) :=
  ns ← PATRICIA_WALK;
  let fix go ns :=
    match ns with
    | [] => mret []
    | node :: ns =>
        n ← get_node node;
        q ← deref (n_prefix n);
        x ← get_prefix q;
        rest ← go ns;
        mret ((x, n_data n) :: rest)
    end in
  go ns.

(** [patricia_walk_inorder]: the count it returns and the nodes it visits. *)
Fixpoint patricia_walk_inorder (fuel : nat) (node : loc) : M (nat * list loc) :=
  match fuel with
  | 0 => st_fail NoFuel
  | S fuel =>
      n ← get_node node;
      a ← match n_l n with
          | Some l => patricia_walk_inorder fuel l
          | None => mret (0, [])
          end;
      let b := match n_prefix n with Some _ => (1, [node]) | None => (0, []) end in
      c ← match n_r n with
          | Some r => patricia_walk_inorder fuel r
          | None => mret (0, [])
          end;
      mret (a.1 + b.1 + c.1, a.2 ++ b.2 ++ c.2)
  end.

(** The loop of [Clear_Patricia] (with no callback, as its callers use it). *)
Fixpoint clear_loop (fuel : nat) (Xrn : option loc) (stack : list loc) : M unit :=
  match Xrn with
  | None => mret tt
  | Some node =>
      match fuel with
      | 0 => st_fail NoFuel
      | S fuel =>
          n ← get_node node;
          match n_prefix n with
          | Some _ => Deref_Prefix (n_prefix n)
          | None => assertm (bool_decide (n_data n = None))
          end;;
          Delete_node node;;
          add_active (-1);;
          '(next, stack') ← st_lift (walk_next (n_l n) (n_r n) stack);
          clear_loop fuel next stack'
      end
  end.

Definition Clear_Patricia : M unit :=
  t ← st_get;
  match t_head t with
  | Some h => clear_loop (node_fuel t) (Some h) []
  | None => mret tt
  end;;
  t' ← st_get;
  assertm (t_num_active t' =? 0)%Z.

(** [Destroy_Patricia] frees the tree header after clearing the tree. *)
Definition Destroy_Patricia : M unit := Clear_Patricia.

End Patricia.
