(* ===== verification/PatriciaBits.v ===== *)
(** * Address bits of the Patricia trie

    What the bit operations of patricia.cpp ([BIT_TEST], [comp_with_mask], the search
    for the first differing bit) compute, in terms of the list of the bits of an
    address, most significant bit first. *)
From S2P Require Import Prelude Patricia.

(** The bit [i] of an address, counted from the most significant bit of the first
    byte. *)
Definition abit (addr : list Z) (i : nat) : bool :=
  Z.testbit (default 0%Z (addr !! (i / 8))) (7 - Z.of_nat (i `mod` 8)).

Definition abits (addr : list Z) (n : nat) : list bool := abit addr <$> seq 0 n.

(** The key of a prefix: its first [bitlen] bits. *)
Definition key_of (x : prefix_t) : list bool := abits (px_add x) (px_bitlen x).

Definition bytes_ok (addr : list Z) : Prop := Forall (λ b, 0 ≤ b < 256)%Z addr.

(** A prefix of an address family with [W] bits. *)
Definition pfx_ok (W : nat) (x : prefix_t) : Prop :=
  bytes_ok (px_add x) ∧ 8 * length (px_add x) = W ∧ px_bitlen x ≤ W.

Lemma length_abits addr n : length (abits addr n) = n.
Proof. unfold abits. by rewrite length_fmap, length_seq. Qed.

Lemma lookup_abits addr n i : i < n → abits addr n !! i = Some (abit addr i).
Proof.
  intros H. unfold abits. rewrite list_lookup_fmap, lookup_seq_lt by done. done.
Qed.

Lemma take_abits addr n m : n ≤ m → take n (abits addr m) = abits addr n.
Proof.
  intros H. unfold abits. rewrite <- fmap_take. f_equal.
  rewrite take_seq. by rewrite Nat.min_l.
Qed.

Lemma abits_eq_iff a b n :
  abits a n = abits b n ↔ ∀ i, i < n → abit a i = abit b i.
Proof.
  split.
  - intros H i Hi. assert (E : abits a n !! i = abits b n !! i) by by rewrite H.
    rewrite !lookup_abits in E by done. by injection E.
  - intros H. apply list_eq. intros i. destruct (decide (i < n)).
    + rewrite !lookup_abits by done. by rewrite H.
    + rewrite !lookup_ge_None_2; [done|rewrite length_abits; lia..].
Qed.

(** ** [BIT_TEST] *)
Lemma land_pow2 f n : (0 ≤ n)%Z →
  Z.land f (2 ^ n) = if Z.testbit f n then (2 ^ n)%Z else 0%Z.
Proof.
  intros Hn. apply Z.bits_inj'. intros m Hm.
  rewrite Z.land_spec, Z.pow2_bits_eqb by done.
  destruct (Z.eqb_spec n m) as [->|Hne].
  - destruct (Z.testbit f m) eqn:E; simpl.
    + by rewrite Z.pow2_bits_true.
    + by rewrite Z.testbit_0_l.
  - rewrite andb_false_r. destruct (Z.testbit f n).
    + by rewrite Z.pow2_bits_false.
    + by rewrite Z.testbit_0_l.
Qed.

Lemma shiftr_128 k : k < 8 → Z.shiftr 128 (Z.of_nat k) = (2 ^ (7 - Z.of_nat k))%Z.
Proof. intros H. do 8 (destruct k; [reflexivity|]). lia. Qed.

Lemma BIT_TEST_testbit f k : k < 8 →
  BIT_TEST f (Z.shiftr 128 (Z.of_nat k)) = Z.testbit f (7 - Z.of_nat k).
Proof.
  intros H. unfold BIT_TEST. rewrite shiftr_128, land_pow2 by lia.
  destruct (Z.testbit f _); [|reflexivity].
  destruct (Z.eqb_spec (2 ^ (7 - Z.of_nat k)) 0); [|reflexivity].
  assert (0 < 2 ^ (7 - Z.of_nat k))%Z by (apply Z.pow_pos_nonneg; lia). lia.
Qed.

Lemma shiftr_3 i : Nat.shiftr i 3 = i / 8.
Proof. rewrite Nat.shiftr_div_pow2. reflexivity. Qed.

Lemma land_7 i : Nat.land i 7 = i `mod` 8.
Proof. change 7 with (Nat.ones 3). rewrite Nat.land_ones. reflexivity. Qed.

Lemma mod8_lt i : i `mod` 8 < 8.
Proof. apply Nat.mod_upper_bound. lia. Qed.

Lemma byte_at_Ok addr i : i < length addr → byte_at addr i = Ok (default 0%Z (addr !! i)).
Proof.
  intros H. unfold byte_at. destruct (lookup_lt_is_Some_2 addr i H) as [b Hb].
  by rewrite Hb.
Qed.

Lemma addr_bit_Ok addr i : i < 8 * length addr → addr_bit addr i = Ok (abit addr i).
Proof.
  intros H. unfold addr_bit. rewrite shiftr_3, land_7.
  rewrite byte_at_Ok by (apply Nat.Div0.div_lt_upper_bound; lia).
  simpl. rewrite BIT_TEST_testbit by apply mod8_lt. reflexivity.
Qed.

Lemma take_right_Ok mb addr i :
  i < 8 * length addr → i < mb → take_right mb addr i = Ok (abit addr i).
Proof.
  intros H1 H2. unfold take_right. destruct (Nat.ltb_spec i mb); [|lia].
  by apply addr_bit_Ok.
Qed.

(** ** Bytes and their bits *)
Lemma byte_testbit_high b m : (0 ≤ b < 256)%Z → (8 ≤ m)%Z → Z.testbit b m = false.
Proof.
  intros Hb Hm. destruct (Z.eq_dec b 0) as [->|]; [apply Z.testbit_0_l|].
  apply Z.bits_above_log2; [lia|].
  assert (Z.log2 b < 8)%Z; [|lia]. apply Z.log2_lt_pow2; lia.
Qed.

Lemma byte_eq_bits a b :
  (0 ≤ a < 256)%Z → (0 ≤ b < 256)%Z →
  (∀ k, k < 8 → Z.testbit a (7 - Z.of_nat k) = Z.testbit b (7 - Z.of_nat k)) → a = b.
Proof.
  intros Ha Hb H. apply Z.bits_inj'. intros m Hm.
  destruct (decide (m < 8)%Z).
  - specialize (H (Z.to_nat (7 - m))). rewrite Z2Nat.id in H by lia.
    replace (7 - (7 - m))%Z with m in H by lia. apply H. lia.
  - rewrite !byte_testbit_high; auto; lia.
Qed.

Lemma abit_byte addr i k : k < 8 →
  abit addr (8 * i + k) = Z.testbit (default 0%Z (addr !! i)) (7 - Z.of_nat k).
Proof.
  intros H. unfold abit.
  assert (E : (8 * i + k) / 8 = i).
  { rewrite Nat.mul_comm, Nat.div_add_l by lia. rewrite Nat.div_small by lia. lia. }
  assert (F : (8 * i + k) `mod` 8 = k).
  { rewrite Nat.add_comm, Nat.mul_comm, Nat.Div0.mod_add. apply Nat.mod_small. lia. }
  by rewrite E, F.
Qed.

Lemma bytes_ok_default addr i : bytes_ok addr → (0 ≤ default 0%Z (addr !! i) < 256)%Z.
Proof.
  intros H. destruct (addr !! i) eqn:E; simpl; [|lia].
  by apply (Forall_lookup_1 _ _ _ _ H E).
Qed.

Lemma byte_eq_abits a b i : bytes_ok a → bytes_ok b →
  default 0%Z (a !! i) = default 0%Z (b !! i) ↔
  ∀ k, k < 8 → abit a (8 * i + k) = abit b (8 * i + k).
Proof.
  intros Ha Hb. split.
  - intros E k Hk. by rewrite !abit_byte, E.
  - intros H. apply byte_eq_bits; [by apply bytes_ok_default..|].
    intros k Hk. specialize (H k Hk). by rewrite !abit_byte in H.
Qed.

Lemma take_bytes_eq_iff a b n : bytes_ok a → bytes_ok b →
  n ≤ length a → n ≤ length b → take n a = take n b ↔ abits a (8 * n) = abits b (8 * n).
Proof.
  intros Ha Hb La Lb. rewrite abits_eq_iff. split.
  - intros H i Hi. set (j := i / 8).
    assert (E : i = 8 * j + i `mod` 8) by (apply Nat.div_mod_eq).
    assert (j < n) by (apply Nat.Div0.div_lt_upper_bound; lia).
    rewrite E. apply byte_eq_abits; [done..| |apply mod8_lt].
    assert (F : take n a !! j = take n b !! j) by by rewrite H.
    rewrite !lookup_take_lt in F by done. by rewrite F.
  - intros H. apply list_eq. intros j. destruct (decide (j < n)) as [Hj|Hj].
    + rewrite !lookup_take_lt by done.
      destruct (lookup_lt_is_Some_2 a j ltac:(lia)) as [x Hx].
      destruct (lookup_lt_is_Some_2 b j ltac:(lia)) as [y Hy].
      rewrite Hx, Hy. f_equal.
      assert (E : default 0%Z (a !! j) = default 0%Z (b !! j)).
      { apply byte_eq_abits; [done..|]. intros k Hk. apply H. lia. }
      by rewrite Hx, Hy in E.
    + rewrite !lookup_ge_None_2; [done|rewrite length_take; lia..].
Qed.

(** ** [comp_with_mask] *)
Lemma mask_byte_eq x y k : (0 ≤ x < 256)%Z → (0 ≤ y < 256)%Z → 0 < k < 8 →
  Z.land x (Z.shiftl (-1) (Z.of_nat (8 - k))) = Z.land y (Z.shiftl (-1) (Z.of_nat (8 - k)))
  ↔ ∀ i, i < k → Z.testbit x (7 - Z.of_nat i) = Z.testbit y (7 - Z.of_nat i).
Proof.
  intros Hx Hy Hk.
  assert (B : ∀ z m, (0 ≤ m)%Z →
    Z.testbit (Z.land z (Z.shiftl (-1) (Z.of_nat (8 - k)))) m
    = if (Z.of_nat (8 - k) <=? m)%Z then Z.testbit z m else false).
  { intros z m Hm. rewrite Z.land_spec, Z.shiftl_spec by done.
    destruct (Z.leb_spec (Z.of_nat (8 - k)) m).
    - rewrite Z.bits_m1 by lia. apply andb_true_r.
    - rewrite (Z.testbit_neg_r (-1)) by lia. apply andb_false_r. }
  split.
  - intros E i Hi.
    assert (F := f_equal (λ z, Z.testbit z (7 - Z.of_nat i)) E). cbv beta in F.
    rewrite !B in F by lia. destruct (Z.leb_spec (Z.of_nat (8 - k)) (7 - Z.of_nat i)); [done|lia].
  - intros H. apply Z.bits_inj'. intros m Hm. rewrite !B by done.
    destruct (Z.leb_spec (Z.of_nat (8 - k)) m); [|done].
    destruct (decide (m < 8)%Z).
    + specialize (H (Z.to_nat (7 - m)) ltac:(lia)). rewrite Z2Nat.id in H by lia.
      by replace (7 - (7 - m))%Z with m in H by lia.
    + rewrite !byte_testbit_high; auto; lia.
Qed.

Lemma comp_with_mask_Ok a b mask :
  bytes_ok a → bytes_ok b → mask ≤ 8 * length a → mask ≤ 8 * length b →
  comp_with_mask a b mask = Ok (bool_decide (abits a mask = abits b mask)).
Proof.
  intros Ha Hb La Lb. unfold comp_with_mask, memeq.
  assert (D := Nat.div_mod_eq mask 8). assert (R := mod8_lt mask).
  set (n := mask / 8) in *. set (k := mask `mod` 8) in *.
  rewrite decide_True by lia.
  cbn [mbind outcome_bind].
  destruct (bool_decide_reflect (take n a = take n b)) as [E|E].
  2:{ rewrite bool_decide_eq_false_2; [done|]. intros F. apply E.
      apply take_bytes_eq_iff; [done..|lia|lia|].
      rewrite !abits_eq_iff in *. intros i Hi. apply F. lia. }
  apply take_bytes_eq_iff in E; [|done..|lia|lia].
  destruct (Nat.eqb_spec k 0) as [Hk|Hk].
  { rewrite bool_decide_eq_true_2; [done|]. by replace mask with (8 * n) by lia. }
  rewrite !byte_at_Ok by lia. cbn [mbind outcome_bind mret outcome_ret].
  f_equal. apply eq_bool_prop_intro. rewrite bool_decide_spec, Is_true_true, Z.eqb_eq.
  rewrite mask_byte_eq by (first [by apply bytes_ok_default | lia]).
  rewrite abits_eq_iff in *. split.
  - intros H i Hi. destruct (decide (i < 8 * n)); [by apply E|].
    replace i with (8 * n + (i - 8 * n)) by lia.
    rewrite !abit_byte by lia. apply H. lia.
  - intros H i Hi. specialize (H (8 * n + i) ltac:(lia)). by rewrite !abit_byte in H by lia.
Qed.

(** ** The first differing bit *)
Lemma lcp_abits_eq a b n d :
  d ≤ n → abits a d = abits b d → (d = n ∨ abit a d ≠ abit b d) →
  lcp (abits a n) (abits b n) = d.
Proof.
  intros Hd E D. apply lcp_unique; rewrite ?length_abits; [done..| |].
  - by rewrite !take_abits.
  - destruct D as [D|D]; [by left|]. right.
    destruct (decide (d = n)) as [->|]; [by left|right].
    rewrite !lookup_abits by lia. congruence.
Qed.

Lemma first_set_bit_spec x y i k a b :
  bytes_ok a → bytes_ok b → x = default 0%Z (a !! i) → y = default 0%Z (b !! i) → k ≤ 8 →
  (∀ j, j < 8 - k → abit a (8 * i + j) = abit b (8 * i + j)) → x ≠ y →
  let j := first_set_bit (Z.lxor x y) k in
  j < 8 ∧ (∀ j', j' < j → abit a (8 * i + j') = abit b (8 * i + j')) ∧
  abit a (8 * i + j) ≠ abit b (8 * i + j).
Proof.
  intros Ha Hb -> ->. induction k as [|k IH]; intros Hk H Hne; cbn zeta.
  - exfalso. apply Hne. apply byte_eq_abits; [done..|]. intros j Hj. apply H. lia.
  - cbn [first_set_bit].
    assert (T : BIT_TEST (Z.lxor (default 0%Z (a !! i)) (default 0%Z (b !! i)))
                  (Z.shiftr 128 (Z.of_nat (8 - S k)))
                = xorb (abit a (8 * i + (8 - S k))) (abit b (8 * i + (8 - S k)))).
    { rewrite BIT_TEST_testbit, Z.lxor_spec, !abit_byte by lia. done. }
    rewrite T. destruct (xorb _ _) eqn:X.
    + split; [lia|]. split; [exact H|]. intros E. rewrite E, xorb_nilpotent in X. done.
    + apply xorb_eq in X. apply IH; [lia| |done]. intros j Hj.
      destruct (decide (j = 8 - S k)) as [->|]; [done|apply H; lia].
Qed.

Lemma abits_bytes_S a b i :
  abits a (8 * i) = abits b (8 * i) →
  (∀ k, k < 8 → abit a (8 * i + k) = abit b (8 * i + k)) →
  abits a (8 * (i + 1)) = abits b (8 * (i + 1)).
Proof.
  rewrite !abits_eq_iff. intros E H m Hm. destruct (decide (m < 8 * i)); [by apply E|].
  replace m with (8 * i + (m - 8 * i)) by lia. apply H. lia.
Qed.

Lemma differ_loop_spec k a b chk i :
  bytes_ok a → bytes_ok b → chk ≤ 8 * length a → chk ≤ 8 * length b →
  0 < k → chk ≤ i * 8 + 8 * (k - 1) → abits a (8 * i) = abits b (8 * i) →
  ∃ d, differ_loop k a b chk i (i * 8) = Ok d ∧ abits a d = abits b d ∧
       (chk ≤ d ∨ abit a d ≠ abit b d).
Proof.
  intros Ha Hb La Lb. revert i. induction k as [|k IH]; intros i H0 Hk E; [lia|].
  cbn [differ_loop]. destruct (Nat.ltb_spec (i * 8) chk) as [Hi|Hi].
  2:{ exists (i * 8). split; [done|]. split; [by rewrite Nat.mul_comm|]. by left. }
  rewrite !byte_at_Ok by lia. cbn [mbind outcome_bind].
  destruct (Z.eqb_spec (Z.lxor (default 0%Z (a !! i)) (default 0%Z (b !! i))) 0) as [X|X].
  - apply Z.lxor_eq in X. pose proof (proj1 (byte_eq_abits a b i Ha Hb) X) as Hk8.
    apply IH; [lia|lia|]. by apply abits_bytes_S.
  - assert (Hne : default 0%Z (a !! i) ≠ default 0%Z (b !! i)).
    { intros F. apply X. rewrite F. apply Z.lxor_nilpotent. }
    destruct (first_set_bit_spec _ _ i 8 a b Ha Hb eq_refl eq_refl (Nat.le_refl 8)
                ltac:(intros; lia) Hne) as (J1 & J2 & J3).
    set (j := first_set_bit _ 8) in *.
    destruct (Nat.ltb_spec j 8); [|lia]. simpl.
    exists (i * 8 + j). split; [done|]. rewrite (Nat.mul_comm i 8). split; [|by right].
    rewrite abits_eq_iff in *. intros m Hm. destruct (decide (m < 8 * i)); [by apply E|].
    replace m with (8 * i + (m - 8 * i)) by lia. apply J2. lia.
Qed.

(** The loop of [patricia_lookup] computes the length of the common prefix of the two
    addresses within the first [chk] bits. *)
Lemma first_differ_bit_Ok a b chk :
  bytes_ok a → bytes_ok b → chk ≤ 8 * length a → chk ≤ 8 * length b →
  first_differ_bit a b chk = Ok (lcp (abits a chk) (abits b chk)).
Proof.
  intros Ha Hb La Lb. unfold first_differ_bit.
  destruct (differ_loop_spec (chk + 1) a b chk 0 Ha Hb La Lb ltac:(lia) ltac:(lia) eq_refl)
    as (d & Hd & E & D).
  change (0 * 8) with 0 in Hd. rewrite Hd. cbn [mbind outcome_bind mret outcome_ret]. f_equal.
  symmetry. destruct (Nat.ltb_spec chk d).
  - apply lcp_abits_eq; [lia| |by left]. rewrite abits_eq_iff in *. intros i Hi. apply E. lia.
  - apply lcp_abits_eq; [lia|done|]. destruct D as [D|D]; [left; lia|by right].
Qed.
