(* ===== verification/PatriciaTree.v ===== *)
(** * Functional trees behind the Patricia store

    A [ptree] is the tree the store of Patricia.v represents: each node carries its
    address, the bits [s] of the path to it (the C node only stores their number), its
    prefix object with its address, and its data.  [flat] and [pflat] are the node and
    prefix stores of a tree, [plug] puts a subtree back under a path of frames (the
    frames are what the parent pointers of the store point to), [wf] is the Patricia
    invariant and [entries] the contents in the order of [PATRICIA_WALK]. *)
From S2P Require Import Prelude Patricia PatriciaBits.

Section Tree.
Context {T : Type}.
Abbreviation node_t := (patricia_node_t T).

Inductive ptree : Type :=
  | E
  | N (p : loc) (s : list bool) (px : option (loc * prefix_t)) (d : option T) (l r : ptree).

Definition root (t : ptree) : option loc :=
  match t with E => None | N p _ _ _ _ _ => Some p end.

Fixpoint locs (t : ptree) : list loc :=
  match t with E => [] | N p _ _ _ l r => p :: locs l ++ locs r end.

Definition opt_list {A B} (f : A → B) (o : option A) : list B :=
  match o with Some a => [f a] | None => [] end.

Fixpoint plocs (t : ptree) : list loc :=
  match t with E => [] | N _ _ px _ l r => opt_list fst px ++ plocs l ++ plocs r end.

Definition mk_node (par : option loc) (s : list bool) (px : option (loc * prefix_t))
    (d : option T) (l r : option loc) : node_t :=
  PNode T (length s) (fst <$> px) l r par d.

(** The nodes of the store that represents [t], with parent pointer [par] at its root. *)
Fixpoint flat (par : option loc) (t : ptree) : gmap loc node_t :=
  match t with
  | E => ∅
  | N p s px d l r =>
      <[p := mk_node par s px d (root l) (root r)]> (flat (Some p) l ∪ flat (Some p) r)
  end.

Definition put_px (px : option (loc * prefix_t)) (m : gmap loc prefix_t) : gmap loc prefix_t :=
  match px with Some (q, x) => <[q := x]> m | None => m end.

Fixpoint pflat (t : ptree) : gmap loc prefix_t :=
  match t with E => ∅ | N _ _ px _ l r => put_px px (pflat l ∪ pflat r) end.

(** Contents. *)
Record entry := Entry { e_node : loc; e_q : loc; e_x : prefix_t; e_d : option T }.
Definition e_key (e : entry) : list bool := key_of (e_x e).

Definition own (p : loc) (px : option (loc * prefix_t)) (d : option T) : list entry :=
  opt_list (λ qx, Entry p qx.1 qx.2 d) px.

Fixpoint entries (t : ptree) : list entry :=
  match t with E => [] | N p _ px d l r => own p px d ++ entries l ++ entries r end.

(** ** The invariant: addresses have [W] bits, every key below a node extends its path,
    a node without a prefix has two children and no data. *)
Definition node_ok (W : nat) (s : list bool) (px : option (loc * prefix_t))
    (d : option T) (l r : ptree) : Prop :=
  match px with
  | Some (q, x) => key_of x = s ∧ pfx_ok W x
  | None => l ≠ E ∧ r ≠ E ∧ d = None
  end.

Fixpoint wf (W : nat) (pre : list bool) (t : ptree) : Prop :=
  match t with
  | E => True
  | N p s px d l r =>
      pre `prefix_of` s ∧ length s ≤ W ∧ node_ok W s px d l r ∧
      wf W (s ++ [false]) l ∧ wf W (s ++ [true]) r
  end.

(** ** Path contexts *)
Record frame := Frame {
  f_p : loc; f_s : list bool; f_px : option (loc * prefix_t); f_d : option T;
  f_dir : bool; f_other : ptree
}.

Definition fill (f : frame) (t : ptree) : ptree :=
  if f_dir f then N (f_p f) (f_s f) (f_px f) (f_d f) (f_other f) t
  else N (f_p f) (f_s f) (f_px f) (f_d f) t (f_other f).

Fixpoint plug (c : list frame) (t : ptree) : ptree :=
  match c with [] => t | f :: c' => plug c' (fill f t) end.

Definition cpar (c : list frame) : option loc :=
  match c with [] => None | f :: _ => Some (f_p f) end.

Fixpoint clocs (c : list frame) : list loc :=
  match c with [] => [] | f :: c' => f_p f :: locs (f_other f) ++ clocs c' end.

Fixpoint cplocs (c : list frame) : list loc :=
  match c with [] => [] | f :: c' => opt_list fst (f_px f) ++ plocs (f_other f) ++ cplocs c' end.

Definition frame_node (f : frame) (par sub : option loc) : node_t :=
  if f_dir f then mk_node par (f_s f) (f_px f) (f_d f) (root (f_other f)) sub
  else mk_node par (f_s f) (f_px f) (f_d f) sub (root (f_other f)).

Fixpoint cflat (c : list frame) (sub : option loc) : gmap loc node_t :=
  match c with
  | [] => ∅
  | f :: c' => <[f_p f := frame_node f (cpar c') sub]>
                 (flat (Some (f_p f)) (f_other f) ∪ cflat c' (Some (f_p f)))
  end.

Fixpoint cpflat (c : list frame) : gmap loc prefix_t :=
  match c with [] => ∅ | f :: c' => put_px (f_px f) (pflat (f_other f) ∪ cpflat c') end.

(** The bits every key of the focus must extend. *)
Definition cpre (c : list frame) : list bool :=
  match c with [] => [] | f :: _ => f_s f ++ [f_dir f] end.

(** The context is part of a well-formed tree (its focus is not empty where the frame
    has no prefix of its own). *)
Fixpoint cwf (W : nat) (c : list frame) : Prop :=
  match c with
  | [] => True
  | f :: c' =>
      cpre c' `prefix_of` f_s f ∧ length (f_s f) ≤ W ∧
      match f_px f with
      | Some (q, x) => key_of x = f_s f ∧ pfx_ok W x
      | None => f_other f ≠ E ∧ f_d f = None
      end ∧
      wf W (f_s f ++ [negb (f_dir f)]) (f_other f) ∧ cwf W c'
  end.

(** What a frame without a prefix of its own asks of its focus. *)
Definition cneeds (c : list frame) (t : ptree) : Prop :=
  match c with f :: _ => f_px f = None → t ≠ E | [] => True end.

Fixpoint centries (c : list frame) : list entry :=
  match c with
  | [] => []
  | f :: c' => own (f_p f) (f_px f) (f_d f) ++ entries (f_other f) ++ centries c'
  end.

(** ** Lemmas on domains *)
Lemma lookup_put_px_ne px m i : i ∉ opt_list fst px → put_px px m !! i = m !! i.
Proof.
  destruct px as [[q x]|]; simpl; [|done]. intros H.
  rewrite lookup_insert_ne; [done|]. intros ->. apply H. set_solver.
Qed.

Lemma flat_dom par t i : i ∉ locs t → flat par t !! i = None.
Proof.
  revert par. induction t as [|p s px d l IHl r IHr]; intros par H; [apply lookup_empty|].
  simpl in *. rewrite lookup_insert_ne by set_solver.
  rewrite lookup_union_None. split; [apply IHl|apply IHr]; set_solver.
Qed.

Lemma pflat_dom t i : i ∉ plocs t → pflat t !! i = None.
Proof.
  induction t as [|p s px d l IHl r IHr]; intros H; [apply lookup_empty|].
  simpl in *. rewrite lookup_put_px_ne by set_solver.
  rewrite lookup_union_None. split; [apply IHl|apply IHr]; set_solver.
Qed.

Lemma cflat_dom c sub i : i ∉ clocs c → cflat c sub !! i = None.
Proof.
  revert sub. induction c as [|f c IH]; intros sub H; [apply lookup_empty|].
  simpl in *. rewrite lookup_insert_ne by set_solver.
  rewrite lookup_union_None. split; [apply flat_dom|apply IH]; set_solver.
Qed.

Lemma cpflat_dom c i : i ∉ cplocs c → cpflat c !! i = None.
Proof.
  induction c as [|f c IH]; intros H; [apply lookup_empty|].
  simpl in *. rewrite lookup_put_px_ne by set_solver.
  rewrite lookup_union_None. split; [apply pflat_dom|apply IH]; set_solver.
Qed.

Lemma flat_disj par1 par2 t1 t2 :
  NoDup (locs t1 ++ locs t2) → flat par1 t1 ##ₘ flat par2 t2.
Proof.
  rewrite NoDup_app. intros (_ & H & _). apply map_disjoint_spec. intros i x y H1 H2.
  destruct (decide (i ∈ locs t1)) as [D|D].
  - by rewrite (flat_dom par2 t2 i (H i D)) in H2.
  - by rewrite (flat_dom par1 t1 i D) in H1.
Qed.

Lemma is_Some_union {A} (m1 m2 : gmap loc A) i :
  is_Some (m1 !! i) ∨ is_Some (m2 !! i) → is_Some ((m1 ∪ m2) !! i).
Proof.
  rewrite lookup_union. intros [[? ->]|[? ->]].
  - destruct (m2 !! i); eexists; reflexivity.
  - destruct (m1 !! i); eexists; reflexivity.
Qed.

Lemma flat_is_Some par t i : i ∈ locs t → is_Some (flat par t !! i).
Proof.
  revert par. induction t as [|p s px d l IHl r IHr]; intros par; cbn [locs flat]; [set_solver|].
  rewrite elem_of_cons, elem_of_app. rewrite lookup_insert.
  intros H. case_decide; [by eexists|]. apply is_Some_union.
  destruct H as [->|[H|H]]; [done|left; by apply IHl|right; by apply IHr].
Qed.

Lemma pflat_is_Some t i : i ∈ plocs t → is_Some (pflat t !! i).
Proof.
  induction t as [|p s px d l IHl r IHr]; cbn [plocs pflat]; [set_solver|].
  rewrite !elem_of_app. intros H.
  assert (G : i ∈ opt_list fst px ∨ is_Some ((pflat l ∪ pflat r) !! i)).
  { destruct H as [H|[H|H]]; [by left|right; apply is_Some_union; auto..]. }
  destruct px as [[q x]|]; simpl in *; [|set_solver].
  rewrite lookup_insert. case_decide; [by eexists|]. set_solver.
Qed.

Lemma flat_Some_in par t i n : flat par t !! i = Some n → i ∈ locs t.
Proof.
  intros H. destruct (decide (i ∈ locs t)) as [D|D]; [done|].
  by rewrite (flat_dom par t i D) in H.
Qed.

Lemma cflat_Some_in c sub i n : cflat c sub !! i = Some n → i ∈ clocs c.
Proof.
  intros H. destruct (decide (i ∈ clocs c)) as [D|D]; [done|].
  by rewrite (cflat_dom c sub i D) in H.
Qed.

Lemma pflat_Some_in t i x : pflat t !! i = Some x → i ∈ plocs t.
Proof.
  intros H. destruct (decide (i ∈ plocs t)) as [D|D]; [done|].
  by rewrite (pflat_dom t i D) in H.
Qed.

Lemma cpflat_Some_in c i x : cpflat c !! i = Some x → i ∈ cplocs c.
Proof.
  intros H. destruct (decide (i ∈ cplocs c)) as [D|D]; [done|].
  by rewrite (cpflat_dom c i D) in H.
Qed.

Lemma size_flat par t : NoDup (locs t) → size (flat par t) = length (locs t).
Proof.
  revert par. induction t as [|p s px d l IHl r IHr]; intros par H; [apply map_size_empty|].
  cbn [locs flat] in *. apply NoDup_cons in H as [Hp H].
  rewrite map_size_insert_None.
  2:{ apply lookup_union_None. split; apply flat_dom; set_solver. }
  rewrite map_size_disj_union by by apply flat_disj.
  apply NoDup_app in H as (H1 & _ & H2).
  rewrite IHl, IHr by done. simpl. by rewrite length_app.
Qed.

(** ** Plugging *)
Lemma locs_fill f t : locs (fill f t) ≡ₚ f_p f :: locs (f_other f) ++ locs t.
Proof. unfold fill. destruct (f_dir f); simpl; [done|]. f_equiv. apply Permutation_app_comm. Qed.

Lemma plocs_fill f t :
  plocs (fill f t) ≡ₚ opt_list fst (f_px f) ++ plocs (f_other f) ++ plocs t.
Proof. unfold fill. destruct (f_dir f); simpl; [done|]. f_equiv. apply Permutation_app_comm. Qed.

Lemma entries_fill f t :
  entries (fill f t) ≡ₚ own (f_p f) (f_px f) (f_d f) ++ entries (f_other f) ++ entries t.
Proof. unfold fill. destruct (f_dir f); simpl; [done|]. f_equiv. apply Permutation_app_comm. Qed.

Lemma perm_shuffle {A} (a b c d : list A) : (a ++ b ++ c) ++ d ≡ₚ c ++ a ++ b ++ d.
Proof.
  rewrite (app_assoc a b c), (Permutation_app_comm (a ++ b) c).
  by rewrite <- !app_assoc.
Qed.

Lemma locs_plug c t : locs (plug c t) ≡ₚ locs t ++ clocs c.
Proof.
  revert t. induction c as [|f c IH]; intros t; simpl; [by rewrite app_nil_r|].
  rewrite IH, locs_fill. apply (perm_shuffle [f_p f]).
Qed.

Lemma plocs_plug c t : plocs (plug c t) ≡ₚ plocs t ++ cplocs c.
Proof.
  revert t. induction c as [|f c IH]; intros t; simpl; [by rewrite app_nil_r|].
  rewrite IH, plocs_fill. apply perm_shuffle.
Qed.

Lemma entries_plug c t : entries (plug c t) ≡ₚ entries t ++ centries c.
Proof.
  revert t. induction c as [|f c IH]; intros t; simpl; [by rewrite app_nil_r|].
  rewrite IH, entries_fill. apply perm_shuffle.
Qed.

Lemma root_plug c t1 t2 : root t1 = root t2 → root (plug c t1) = root (plug c t2).
Proof.
  revert t1 t2. induction c as [|f c IH]; intros t1 t2 H; simpl; [done|].
  apply IH. unfold fill. by destruct (f_dir f).
Qed.

Lemma root_plug_cons f c t1 t2 : root (plug (f :: c) t1) = root (plug (f :: c) t2).
Proof. simpl. apply root_plug. unfold fill. by destruct (f_dir f). Qed.

Lemma flat_fill par f t : NoDup (locs (fill f t)) →
  flat par (fill f t) =
  <[f_p f := frame_node f par (root t)]> (flat (Some (f_p f)) (f_other f) ∪ flat (Some (f_p f)) t).
Proof.
  rewrite locs_fill, NoDup_cons. intros [_ H].
  unfold fill, frame_node. destruct (f_dir f); [done|]. simpl. f_equal.
  apply map_union_comm, flat_disj. by rewrite Permutation_app_comm.
Qed.

Lemma pflat_fill f t : NoDup (plocs (fill f t)) →
  pflat (fill f t) = put_px (f_px f) (pflat (f_other f) ∪ pflat t).
Proof.
  rewrite plocs_fill, !NoDup_app. intros (_ & _ & _ & H & _).
  unfold fill. destruct (f_dir f); [done|]. simpl. f_equal.
  apply map_union_comm, map_disjoint_spec. intros i x y H1%pflat_Some_in H2%pflat_Some_in.
  by apply (H i).
Qed.

Lemma NoDup_plug c t :
  NoDup (locs (plug c t)) ↔ NoDup (locs t) ∧ NoDup (clocs c) ∧ (∀ i, i ∈ locs t → i ∉ clocs c).
Proof. rewrite locs_plug, NoDup_app. tauto. Qed.

Lemma NoDup_pplug c t :
  NoDup (plocs (plug c t)) ↔ NoDup (plocs t) ∧ NoDup (cplocs c) ∧ (∀ i, i ∈ plocs t → i ∉ cplocs c).
Proof. rewrite plocs_plug, NoDup_app. tauto. Qed.

Lemma flat_plug c t : NoDup (locs (plug c t)) →
  flat None (plug c t) = cflat c (root t) ∪ flat (cpar c) t.
Proof.
  revert t. induction c as [|f c IH]; intros t H; simpl; [by rewrite map_empty_union|].
  simpl in H. rewrite IH by done.
  pose proof (proj1 (NoDup_plug _ _) H) as (Hf & Hc & Hd).
  rewrite flat_fill by done. rewrite locs_fill in Hf. setoid_rewrite locs_fill in Hd.
  apply NoDup_cons in Hf as [Hp Hf]. apply NoDup_app in Hf as (_ & Hot & _).
  assert (E1 : root (fill f t) = Some (f_p f)) by (unfold fill; by destruct (f_dir f)).
  rewrite E1. apply map_eq. intros i. rewrite lookup_union.
  destruct (decide (i = f_p f)) as [->|Hi].
  - rewrite cflat_dom by (apply Hd; set_solver). rewrite lookup_insert_eq.
    rewrite lookup_union, lookup_insert_eq, flat_dom by set_solver. done.
  - rewrite lookup_union, !lookup_insert_ne, !lookup_union by done.
    destruct (cflat c (Some (f_p f)) !! i) eqn:A; [apply cflat_Some_in in A|];
    destruct (flat (Some (f_p f)) (f_other f) !! i) eqn:B; try (apply flat_Some_in in B);
    destruct (flat (Some (f_p f)) t !! i) eqn:C; try (apply flat_Some_in in C);
    try done; exfalso; (eapply Hd; [|exact A]); set_solver.
Qed.

Lemma pflat_plug c t : NoDup (plocs (plug c t)) →
  pflat (plug c t) = cpflat c ∪ pflat t.
Proof.
  revert t. induction c as [|f c IH]; intros t H; simpl; [by rewrite map_empty_union|].
  simpl in H. rewrite IH by done.
  pose proof (proj1 (NoDup_pplug _ _) H) as (Hf & Hc & Hd).
  rewrite pflat_fill by done. rewrite plocs_fill in Hf. setoid_rewrite plocs_fill in Hd.
  apply NoDup_app in Hf as (_ & Hp & Hf). apply NoDup_app in Hf as (_ & Hot & _).
  assert (B : cpflat c ∪ (pflat (f_other f) ∪ pflat t) = (pflat (f_other f) ∪ cpflat c) ∪ pflat t).
  { rewrite map_union_assoc. f_equal. apply map_union_comm, map_disjoint_spec.
    intros i x y H1%cpflat_Some_in H2%pflat_Some_in. apply (Hd i); set_solver. }
  unfold put_px. destruct (f_px f) as [[q x]|] eqn:Epx; [|done].
  rewrite <- insert_union_l, <- B. symmetry. apply insert_union_r.
  apply cpflat_dom, Hd. set_solver.
Qed.

Lemma flat_lookup_focus c p s px d l r : NoDup (locs (plug c (N p s px d l r))) →
  flat None (plug c (N p s px d l r)) !! p = Some (mk_node (cpar c) s px d (root l) (root r)).
Proof.
  intros H. rewrite flat_plug by done. apply NoDup_plug in H as (_ & _ & H).
  rewrite lookup_union_r by (apply cflat_dom, H; simpl; set_solver).
  simpl. apply lookup_insert_eq.
Qed.

Lemma flat_lookup_parent f c t : NoDup (locs (plug (f :: c) t)) →
  flat None (plug (f :: c) t) !! f_p f = Some (frame_node f (cpar c) (root t)).
Proof.
  intros H. rewrite flat_plug by done. simpl.
  rewrite <- insert_union_l. apply lookup_insert_eq.
Qed.

(** ** The invariant and its consequences *)
Lemma wf_fill W pre f t :
  wf W pre (fill f t) ↔
  pre `prefix_of` f_s f ∧ length (f_s f) ≤ W ∧
  match f_px f with
  | Some (q, x) => key_of x = f_s f ∧ pfx_ok W x
  | None => f_other f ≠ E ∧ f_d f = None
  end ∧
  wf W (f_s f ++ [negb (f_dir f)]) (f_other f) ∧
  wf W (f_s f ++ [f_dir f]) t ∧ (f_px f = None → t ≠ E).
Proof.
  unfold fill, node_ok. destruct (f_dir f); simpl; destruct (f_px f) as [[q x]|]; naive_solver.
Qed.

Lemma fill_not_E f t : fill f t ≠ E.
Proof. unfold fill. by destruct (f_dir f). Qed.

Lemma wf_plug W c t : wf W [] (plug c t) ↔ cwf W c ∧ wf W (cpre c) t ∧ cneeds c t.
Proof.
  revert t. induction c as [|f c IH]; intros t; simpl; [naive_solver|].
  rewrite IH, wf_fill. unfold cneeds. pose proof (fill_not_E f t). destruct c; naive_solver.
Qed.

Lemma wf_entries W pre t e :
  wf W pre t → e ∈ entries t → pre `prefix_of` e_key e ∧ pfx_ok W (e_x e).
Proof.
  revert pre. induction t as [|p s px d l IHl r IHr]; intros pre; cbn [wf entries]; [set_solver|].
  intros (Hpre & _ & Hn & Hl & Hr). rewrite !elem_of_app. intros [H|[H|H]].
  - destruct px as [[q x]|]; simpl in *; [|set_solver].
    apply list_elem_of_singleton in H as ->. destruct Hn as [Hk Hx]. unfold e_key. simpl.
    by rewrite Hk.
  - destruct (IHl _ Hl H) as [H1 H2]. split; [|done].
    etrans; [exact Hpre|]. etrans; [|exact H1]. by apply prefix_app_r.
  - destruct (IHr _ Hr H) as [H1 H2]. split; [|done].
    etrans; [exact Hpre|]. etrans; [|exact H1]. by apply prefix_app_r.
Qed.

Lemma wf_nonempty W pre t : wf W pre t → t ≠ E → ∃ e, e ∈ entries t.
Proof.
  revert pre. induction t as [|p s px d l IHl r IHr]; intros pre; [done|].
  cbn [wf entries]. intros (_ & _ & Hn & Hl & Hr) _.
  destruct px as [[q x]|]; simpl.
  - eexists. by left.
  - destruct Hn as (Hl' & _). destruct (IHl _ Hl Hl') as [e He]. exists e. set_solver.
Qed.

(** The glue nodes of a tree of width [W] test a bit below [W]. *)
Lemma wf_child_bit W pre p s px d l r b p' s' px' d' l' r' :
  wf W pre (N p s px d l r) → (if b : bool then r else l) = N p' s' px' d' l' r' →
  length s < length s' ∧ length s' ≤ W.
Proof.
  cbn [wf]. intros (_ & _ & _ & Hl & Hr).
  destruct b; intros ->; [destruct Hr as (H & H' & _)|destruct Hl as (H & H' & _)];
    apply prefix_length in H; rewrite length_app in H; simpl in H; lia.
Qed.

Lemma wf_key_ne_side W s t1 t2 e1 e2 b :
  wf W (s ++ [b]) t1 → wf W (s ++ [negb b]) t2 → e1 ∈ entries t1 → e2 ∈ entries t2 →
  e_key e1 ≠ e_key e2.
Proof.
  intros W1 W2 H1 H2 E. destruct (wf_entries _ _ _ _ W1 H1) as [P1 _].
  destruct (wf_entries _ _ _ _ W2 H2) as [P2 _]. rewrite E in P1.
  apply prefix_of_snoc_iff in P1 as [_ P1]. apply prefix_of_snoc_iff in P2 as [_ P2].
  rewrite P1 in P2. by destruct b.
Qed.

Lemma wf_key_ne_own W s x t e b :
  key_of x = s → wf W (s ++ [b]) t → e ∈ entries t → key_of x ≠ e_key e.
Proof.
  intros Hk W1 H1 E. destruct (wf_entries _ _ _ _ W1 H1) as [P1 _].
  apply prefix_length in P1. rewrite length_app, <- E, Hk in P1. simpl in P1. lia.
Qed.

Lemma wf_NoDup_keys W pre t : wf W pre t → NoDup (e_key <$> entries t).
Proof.
  revert pre. induction t as [|p s px d l IHl r IHr]; intros pre; [by constructor|].
  cbn [wf entries]. intros (_ & _ & Hn & Hl & Hr).
  rewrite !fmap_app. apply NoDup_app. split; [destruct px; simpl; [apply NoDup_singleton|constructor]|].
  split; [|apply NoDup_app; split; [by eapply IHl|split; [|by eapply IHr]]].
  - intros k Hk. destruct px as [[q x]|]; simpl in *; [|set_solver].
    apply list_elem_of_singleton in Hk as ->. unfold e_key at 1. simpl.
    destruct Hn as [Hk _].
    rewrite elem_of_app, !list_elem_of_fmap. intros [[e [H1 H2]]|[e [H1 H2]]].
    + by eapply (wf_key_ne_own W s x l e false).
    + by eapply (wf_key_ne_own W s x r e true).
  - intros k. rewrite !list_elem_of_fmap. intros [e1 [-> H1]] [e2 [E2 H2]].
    by eapply (wf_key_ne_side W s l r e1 e2 false).
Qed.

(** An entry is found by its key alone. *)
Lemma wf_key_inj W t e1 e2 :
  wf W [] t → e1 ∈ entries t → e2 ∈ entries t → e_key e1 = e_key e2 → e1 = e2.
Proof.
  intros H H1 H2 E0. pose proof (wf_NoDup_keys _ _ _ H) as ND.
  apply list_elem_of_lookup in H1 as [i Hi]. apply list_elem_of_lookup in H2 as [j Hj].
  assert (Eij : i = j).
  { eapply (NoDup_lookup _ _ _ (e_key e1) ND); rewrite list_lookup_fmap;
      [by rewrite Hi|by rewrite Hj, E0]. }
  subst. congruence.
Qed.

Lemma entry_focus t e : e ∈ entries t →
  ∃ c s l r, t = plug c (N (e_node e) s (Some (e_q e, e_x e)) (e_d e) l r).
Proof.
  intros H. cut (∀ c0, ∃ c s l r,
    plug c0 t = plug c (N (e_node e) s (Some (e_q e, e_x e)) (e_d e) l r));
    [intros G; exact (G [])|].
  induction t as [|p s px d l IHl r IHr]; intros c0; cbn [entries] in H; [set_solver|].
  rewrite !elem_of_app in H. destruct H as [H|[H|H]].
  - destruct px as [[q x]|]; simpl in H; [|set_solver].
    apply list_elem_of_singleton in H as ->. simpl. by exists c0, s, l, r.
  - exact (IHl H (Frame p s px d false r :: c0)).
  - exact (IHr H (Frame p s px d true l :: c0)).
Qed.

(** ** Descending along a key *)
Fixpoint descend (k : list bool) (t : ptree) : ptree :=
  match t with
  | E => E
  | N p s px d l r =>
      match k !! length s with
      | Some b => descend k (if b : bool then r else l)
      | None => t
      end
  end.

Fixpoint path (k : list bool) (t : ptree) (acc : list entry) : list entry :=
  match t with
  | E => acc
  | N p s px d l r =>
      match k !! length s with
      | Some b => path k (if b : bool then r else l) (own p px d ++ acc)
      | None => acc
      end
  end.

Lemma descend_sub k t e : e ∈ entries (descend k t) → e ∈ entries t.
Proof.
  induction t as [|p s px d l IHl r IHr]; [done|]. cbn [descend].
  destruct (k !! length s) as [[]|]; [| |done]; intros H; cbn [entries]; set_solver.
Qed.

Lemma descend_entry W pre t k e :
  wf W pre t → e ∈ entries t → e_key e = k →
  ∃ l r, descend k t = N (e_node e) k (Some (e_q e, e_x e)) (e_d e) l r.
Proof.
  revert pre. induction t as [|p s px d l IHl r IHr]; intros pre; cbn [wf entries descend];
    [set_solver|].
  intros (_ & _ & Hn & Hl & Hr) He Hk. rewrite !elem_of_app in He.
  destruct He as [He|[He|He]].
  - destruct px as [[q x]|]; simpl in *; [|set_solver].
    apply list_elem_of_singleton in He as ->. unfold e_key in Hk. simpl in *.
    destruct Hn as [Hs _]. subst. rewrite lookup_ge_None_2 by done. eauto.
  - destruct (wf_entries _ _ _ _ Hl He) as [P _]. apply prefix_of_snoc_iff in P as [_ P].
    rewrite Hk in P. rewrite P. by eapply IHl.
  - destruct (wf_entries _ _ _ _ Hr He) as [P _]. apply prefix_of_snoc_iff in P as [_ P].
    rewrite Hk in P. rewrite P. by eapply IHr.
Qed.

Lemma descend_stop k t p s px d l r : descend k t = N p s px d l r → length k ≤ length s.
Proof.
  induction t as [|p' s' px' d' l' IHl r' IHr]; cbn [descend]; [done|].
  destruct (k !! length s') as [[]|] eqn:Ek; [done..|].
  intros [= -> -> -> -> -> ->]. by apply lookup_ge_None_1.
Qed.

Lemma path_app k t acc : path k t acc = path k t [] ++ acc.
Proof.
  revert acc. induction t as [|p s px d l IHl r IHr]; intros acc; cbn [path]; [done|].
  destruct (k !! length s) as [[]|]; [| |done].
  - rewrite IHr, (IHr (own p px d ++ [])). by rewrite app_nil_r, <- app_assoc.
  - rewrite IHl, (IHl (own p px d ++ [])). by rewrite app_nil_r, <- app_assoc.
Qed.

(** The candidates of a longest-prefix search, longest first. *)
Definition own_of (t : ptree) : list entry :=
  match t with E => [] | N p _ px d _ _ => own p px d end.
Definition candidates (k : list bool) (t : ptree) : list (entry) :=
  own_of (descend k t) ++ path k t [].

Lemma candidates_N k p s px d l r :
  candidates k (N p s px d l r) =
  match k !! length s with
  | Some b => candidates k (if b : bool then r else l) ++ own p px d
  | None => own p px d
  end.
Proof.
  unfold candidates. cbn [descend path]. destruct (k !! length s) as [b|].
  - rewrite app_nil_r, path_app, app_assoc. done.
  - simpl. by rewrite app_nil_r.
Qed.

Lemma candidates_sub k t e : e ∈ candidates k t → e ∈ entries t.
Proof.
  induction t as [|p s px d l IHl r IHr]; [done|]. rewrite candidates_N. cbn [entries].
  destruct (k !! length s) as [[]|]; rewrite ?elem_of_app; naive_solver.
Qed.

Lemma candidates_complete W pre t k e :
  wf W pre t → e ∈ entries t → e_key e `prefix_of` k → e ∈ candidates k t.
Proof.
  revert pre. induction t as [|p s px d l IHl r IHr]; intros pre; cbn [wf entries]; [set_solver|].
  intros (_ & _ & Hn & Hl & Hr) He Hk. rewrite candidates_N. rewrite !elem_of_app in He.
  destruct He as [He|[He|He]].
  - destruct (k !! length s); rewrite ?elem_of_app; auto.
  - destruct (wf_entries _ _ _ _ Hl He) as [P _].
    assert (Q : (s ++ [false]) `prefix_of` k) by by etrans.
    apply prefix_of_snoc_iff in Q as [_ Q].
    rewrite Q. apply elem_of_app. left. by eapply IHl.
  - destruct (wf_entries _ _ _ _ Hr He) as [P _].
    assert (Q : (s ++ [true]) `prefix_of` k) by by etrans.
    apply prefix_of_snoc_iff in Q as [_ Q].
    rewrite Q. apply elem_of_app. left. by eapply IHr.
Qed.

(** Candidates that come earlier are longer. *)
Lemma candidates_sorted W pre t k :
  wf W pre t → StronglySorted (λ e1 e2, length (e_key e2) < length (e_key e1)) (candidates k t).
Proof.
  revert pre. induction t as [|p s px d l IHl r IHr]; intros pre Hwf; [constructor|].
  assert (Ho : StronglySorted (λ e1 e2, length (e_key e2) < length (e_key e1)) (own p px d)).
  { unfold own. destruct px; simpl; repeat constructor. }
  rewrite candidates_N. cbn [wf] in Hwf. destruct Hwf as (_ & _ & Hn & Hl & Hr).
  destruct (k !! length s) as [b|]; [|done].
  assert (Hb : wf W (s ++ [b]) (if b then r else l)) by by destruct b.
  apply StronglySorted_app_2; [|destruct b; eauto|done].
  intros e1 e2 H1 H2. apply candidates_sub in H1.
  destruct (wf_entries _ _ _ _ Hb H1) as [P _]. apply prefix_length in P.
  rewrite length_app in P. simpl in P.
  destruct px as [[q x]|]; simpl in *; [|set_solver].
  apply list_elem_of_singleton in H2 as ->. unfold e_key at 1. simpl.
  destruct Hn as [-> _]. lia.
Qed.
End Tree.
Arguments ptree T : clear implicits.
Arguments entry T : clear implicits.
Arguments frame T : clear implicits.

(** Equality of stores, address by address. *)
Ltac pmap_eq :=
  apply map_eq; let i := fresh "i" in intros i;
  repeat (rewrite lookup_insert || rewrite lookup_union || rewrite lookup_singleton ||
          rewrite lookup_delete || rewrite lookup_empty);
  repeat case_decide; subst; try congruence;
  rewrite ?cflat_dom, ?flat_dom, ?pflat_dom, ?cpflat_dom by assumption;
  repeat match goal with |- context [@lookup _ _ _ _ ?j ?m] => destruct (m !! j) end;
  try done.
