(* ===== verification/PatriciaSearch.v ===== *)
(** * Searching the Patricia trie

    [rep W t ext st]: the store [st] of Patricia.v represents the functional tree [t],
    whose prefixes have [W]-bit addresses, next to the prefix objects [ext] of the
    callers.  [patricia_search_exact] finds exactly the node of the key it is given,
    [patricia_search_best2] the node of the longest stored key that is a prefix of it;
    neither faults, runs out of fuel or overflows its stack. *)
From S2P Require Import Prelude Patricia PatriciaBits PatriciaTree.

Section Search.
Context {T : Type}.
Implicit Types (t l r : ptree T) (c : list (frame T)) (st : patricia_tree_t T).

Record rep (W : nat) (t : ptree T) (ext : gmap loc prefix_t) (st : patricia_tree_t T) : Prop := {
  rep_nodes : t_nodes st = flat None t;
  rep_prefixes : t_prefixes st = pflat t ∪ ext;
  rep_head : t_head st = root t;
  rep_active : t_num_active st = Z.of_nat (length (locs t));
  rep_wf : wf W [] t;
  rep_nd : NoDup (locs t);
  rep_pnd : NoDup (plocs t);
  rep_ext : pflat t ##ₘ ext;
  rep_width : W ≤ t_maxbits st;
  rep_maxbits : t_maxbits st ≤ PATRICIA_MAXBITS
}.

Lemma get_node_Ok st p n : t_nodes st !! p = Some n → get_node p st = Ok (n, st).
Proof. intros H. unfold get_node. by rewrite H. Qed.

Lemma get_prefix_Ok st q x : t_prefixes st !! q = Some x → get_prefix q st = Ok (x, st).
Proof. intros H. unfold get_prefix. by rewrite H. Qed.

Lemma pflat_lookup_entry t e : NoDup (plocs t) → e ∈ entries t → pflat t !! e_q e = Some (e_x e).
Proof.
  intros ND He. destruct (entry_focus t e He) as (c & s & l & r & ->).
  rewrite pflat_plug by done. apply NoDup_pplug in ND as (_ & _ & H).
  rewrite lookup_union_r by (apply cpflat_dom, H; simpl; set_solver).
  simpl. apply lookup_insert_eq.
Qed.

Lemma rep_entry_prefix W t ext st e :
  rep W t ext st → e ∈ entries t → t_prefixes st !! e_q e = Some (e_x e).
Proof.
  intros R He. rewrite (rep_prefixes _ _ _ _ R). apply lookup_union_Some_l.
  apply pflat_lookup_entry; [apply R|done].
Qed.

Lemma rep_ext_prefix W t ext st q x :
  rep W t ext st → ext !! q = Some x → t_prefixes st !! q = Some x.
Proof.
  intros R Hq. rewrite (rep_prefixes _ _ _ _ R).
  rewrite lookup_union_r; [done|]. eapply map_disjoint_Some_r; [apply R|done].
Qed.

Lemma rep_focus W c p s px d l r ext st :
  rep W (plug c (N p s px d l r)) ext st →
  t_nodes st !! p = Some (mk_node (cpar c) s px d (root l) (root r)).
Proof.
  intros R. rewrite (rep_nodes _ _ _ _ R). apply flat_lookup_focus, (rep_nd _ _ _ _ R).
Qed.

Lemma rep_fuel W t ext st : rep W t ext st → node_fuel st = S (length (locs t)).
Proof.
  intros R. unfold node_fuel. by rewrite (rep_nodes _ _ _ _ R), size_flat by apply R.
Qed.

Lemma root_if (b : bool) l r : (if b then root r else root l) = root (if b then r else l).
Proof. by destruct b. Qed.

Lemma plug_child (b : bool) c p s px d l r :
  plug c (N p s px d l r) =
  plug (Frame p s px d b (if b then l else r) :: c) (if b then r else l).
Proof. by destruct b. Qed.

Lemma length_locs_child (b : bool) p (s : list bool) px (d : option T) l r :
  length (locs (if b then r else l)) < length (locs (N p s px d l r)).
Proof. destruct b; simpl; rewrite length_app; lia. Qed.

(** The bit tested at a node in the search for the first [n] bits of [addr]. *)
Lemma key_bit addr n i : i < n → abits addr n !! i = Some (abit addr i).
Proof. apply lookup_abits. Qed.

Lemma key_bit_None addr n i : n ≤ i → abits addr n !! i = None.
Proof. intros H. apply lookup_ge_None_2. by rewrite length_abits. Qed.

(** ** Exact search *)
Lemma search_exact_loop_spec W c t ext st addr n fuel p :
  rep W (plug c t) ext st → n ≤ 8 * length addr →
  length (locs t) < fuel → root t = Some p →
  search_exact_loop fuel addr n p st = Ok (root (descend (abits addr n) t), st).
Proof.
  intros R Hn. revert c fuel p R.
  induction t as [|p0 s px d l IHl r IHr]; intros c fuel p R Hf Hp; [done|].
  injection Hp as <-. destruct fuel as [|fuel]; [lia|].
  cbn [search_exact_loop]. rewrite (st_bind_Ok _ _ _ _ _ (get_node_Ok _ _ _ (rep_focus _ _ _ _ _ _ _ _ _ _ R))).
  cbn [n_bit mk_node n_l n_r]. cbn [descend].
  destruct (Nat.ltb_spec (length s) n) as [Hs|Hs].
  - rewrite key_bit by done. rewrite addr_bit_Ok, st_lift_bind by lia.
    rewrite root_if. set (b := abit addr (length s)).
    rewrite (plug_child b) in R.
    pose proof (length_locs_child b p0 s px d l r) as HL.
    destruct (if b then r else l) as [|p' s' px' d' l' r'] eqn:Eb; [done|].
    cbn [root]. rewrite <- Eb in R, HL |- *.
    assert (Hr : root (if b then r else l) = Some p') by by rewrite Eb.
    destruct b; [eapply IHr|eapply IHl]; eauto; lia.
  - by rewrite key_bit_None by done.
Qed.

Lemma rep_key_cmp W t ext st e x :
  rep W t ext st → e ∈ entries t → pfx_ok W x →
  comp_with_mask (px_add (e_x e)) (px_add x) (px_bitlen (e_x e))
  = Ok (bool_decide (e_key e `prefix_of` abits (px_add x) W)).
Proof.
  intros R He (Bx & Lx & Wx).
  destruct (wf_entries _ _ _ _ (rep_wf _ _ _ _ R) He) as [_ (Be & Le & We)].
  rewrite comp_with_mask_Ok by (done || lia). f_equal. apply bool_decide_ext.
  rewrite prefix_take_eq. unfold e_key, key_of. rewrite length_abits.
  rewrite take_abits by done. naive_solver.
Qed.

Lemma entries_descend_root W pre t k p s q x d l r :
  wf W pre t → descend k t = N p s (Some (q, x)) d l r →
  Entry p q x d ∈ entries t ∧ key_of x = s.
Proof.
  revert pre. induction t as [|p0 s0 px0 d0 l0 IHl r0 IHr]; intros pre; cbn [descend wf]; [done|].
  intros (_ & _ & Hn & Hl & Hr).
  destruct (k !! length s0) as [[]|].
  - intros H. destruct (IHr _ Hr H). cbn [entries]. set_solver.
  - intros H. destruct (IHl _ Hl H). cbn [entries]. set_solver.
  - intros [= -> -> -> -> -> ->]. cbn [entries own opt_list]. split; [set_solver|].
    apply Hn.
Qed.

Lemma descend_focus k t : ∀ c, ∃ c', plug c t = plug c' (descend k t).
Proof.
  induction t as [|p s px d l IHl r IHr]; intros c; cbn [descend]; [by exists c|].
  destruct (k !! length s) as [[]|]; [| |by exists c].
  - exact (IHr (Frame p s px d true l :: c)).
  - exact (IHl (Frame p s px d false r :: c)).
Qed.

(** The node of the key of [x], if there is one. *)
Definition find_key (k : list bool) (es : list (entry T)) : option (entry T) :=
  List.find (λ e, bool_decide (e_key e = k)) es.

Lemma find_key_Some k es e : find_key k es = Some e → e ∈ es ∧ e_key e = k.
Proof.
  intros H. apply List.find_some in H as [H1 H2]. apply bool_decide_eq_true in H2.
  by rewrite list_elem_of_In.
Qed.

Lemma find_key_None k es e : find_key k es = None → e ∈ es → e_key e ≠ k.
Proof.
  intros H He%list_elem_of_In Hk. apply (List.find_none _ _ H) in He.
  by apply bool_decide_eq_false in He.
Qed.

Lemma find_key_unique W t k e :
  wf W [] t → e ∈ entries t → e_key e = k → find_key k (entries t) = Some e.
Proof.
  intros Hwf He Hk. destruct (find_key k (entries t)) as [e'|] eqn:F.
  - apply find_key_Some in F as [F1 F2]. f_equal. eapply wf_key_inj; eauto. congruence.
  - by eapply find_key_None in F.
Qed.

(** What the node the descent stops at says about the key. *)
Lemma find_key_descend W t k :
  wf W [] t →
  find_key k (entries t) =
  match descend k t with
  | N p s (Some (q, x)) d _ _ => if decide (s = k) then Some (Entry p q x d) else None
  | _ => None
  end.
Proof.
  intros Hwf. destruct (find_key k (entries t)) as [e|] eqn:F.
  - apply find_key_Some in F as [F1 F2].
    destruct (descend_entry _ _ _ _ _ Hwf F1 F2) as (l & r & ->).
    rewrite decide_True by done. by destruct e.
  - destruct (descend k t) as [|p s [[q x]|] d l r] eqn:D; [done| |done].
    destruct (entries_descend_root _ _ _ _ _ _ _ _ _ _ _ Hwf D) as [He Hk].
    case_decide; [|done]. exfalso. eapply (find_key_None _ _ _ F He). by rewrite <- H.
Qed.

Lemma assertm_true (b : bool) {B} (f : unit → ST (patricia_tree_t T) B) st :
  b = true → (assertm b ≫= f) st = f tt st.
Proof. intros ->. reflexivity. Qed.

Lemma search_exact_spec W t ext st q x :
  rep W t ext st → ext !! q = Some x → pfx_ok W x →
  patricia_search_exact q st = Ok (e_node <$> find_key (key_of x) (entries t), st).
Proof.
  intros R Hq Hx. unfold patricia_search_exact. pose proof (rep_width _ _ _ _ R) as HW.
  pose proof Hx as (Bx & Lx & Wx).
  rewrite (st_bind_Ok st_get _ st st st eq_refl).
  rewrite (st_bind_Ok _ _ _ _ _ (get_prefix_Ok _ _ _ (rep_ext_prefix _ _ _ _ _ _ R Hq))).
  rewrite assertm_true by (apply Nat.leb_le; lia).
  rewrite (rep_head _ _ _ _ R), (find_key_descend _ _ _ (rep_wf _ _ _ _ R)).
  destruct (root t) as [h|] eqn:Hroot; [|by destruct t].
  rewrite (st_bind_Ok _ _ _ _ _ (search_exact_loop_spec W [] t ext st (px_add x) (px_bitlen x)
             (node_fuel st) h R ltac:(lia) ltac:(rewrite (rep_fuel _ _ _ _ R); lia) Hroot)).
  change (abits (px_add x) (px_bitlen x)) with (key_of x).
  destruct (descend (key_of x) t) as [|p s px d l r] eqn:D; cbn [root]; [done|].
  destruct (descend_focus (key_of x) t []) as [c Hc]. cbn [plug] in Hc. rewrite D in Hc.
  rewrite (st_bind_Ok _ _ _ _ _ (get_node_Ok st p (mk_node (cpar c) s px d (root l) (root r))
             ltac:(eapply rep_focus; rewrite <- Hc; exact R))).
  cbn [n_bit mk_node n_prefix].
  assert (Hs := descend_stop _ _ _ _ _ _ _ _ D).
  assert (Hkx : length (key_of x) = px_bitlen x) by (unfold key_of; apply length_abits).
  rewrite Hkx in Hs.
  destruct px as [[q' y]|]; [|by destruct (_ <? _)].
  destruct (entries_descend_root _ _ _ _ _ _ _ _ _ _ _ (rep_wf _ _ _ _ R) D) as [He Hk].
  assert (Hly : length (key_of y) = px_bitlen y) by (unfold key_of; apply length_abits).
  cbn [fmap option_fmap option_map fst].
  destruct (Nat.ltb_spec (px_bitlen x) (length s)) as [Hlt|Hge].
  { rewrite decide_False; [done|]. intros ->. lia. }
  rewrite assertm_true by (apply Nat.eqb_eq; lia).
  rewrite (st_bind_Ok _ _ _ _ _ (get_prefix_Ok st q' y (rep_entry_prefix _ _ _ _ _ R He))).
  rewrite assertm_true by (apply Nat.eqb_eq; rewrite Hk in Hly; lia).
  replace (px_bitlen x) with (px_bitlen y) by (rewrite Hk in Hly; lia).
  pose proof (rep_key_cmp _ _ _ _ (Entry p q' y d) x R He Hx) as C. unfold e_key in C.
  cbn [e_x] in C. rewrite C, st_lift_bind. cbn [mret st_ret]. do 2 f_equal.
  assert (Hkp : key_of y `prefix_of` abits (px_add x) W ↔ s = key_of x).
  { rewrite prefix_take_eq, Hly, take_abits by (rewrite Hk in Hly; lia).
    unfold key_of at 2. replace (px_bitlen y) with (px_bitlen x) by (rewrite Hk in Hly; lia).
    change (abits (px_add x) (px_bitlen x)) with (key_of x). rewrite Hk. naive_solver. }
  case_bool_decide as P; rewrite Hkp in P.
  - by rewrite decide_True.
  - by rewrite decide_False.
Qed.

(** ** Longest-prefix search *)
Lemma push_Ok stack node : length stack < PATRICIA_MAXBITS + 1 → push stack node = Ok (node :: stack).
Proof. intros H. unfold push. by destruct (Nat.ltb_spec (length stack) (PATRICIA_MAXBITS + 1)); [|lia]. Qed.

(** The stack never has more entries than the bits passed, so it does not overflow. *)
Lemma search_best_loop_spec W c t ext st addr n fuel p stack acc :
  rep W (plug c t) ext st → n ≤ 8 * length addr →
  length (locs t) < fuel → root t = Some p →
  wf W (cpre c) t → stack = e_node <$> acc → length acc ≤ length (cpre c) →
  search_best_loop fuel addr n p stack st =
    Ok ((root (descend (abits addr n) t), e_node <$> path (abits addr n) t acc), st).
Proof.
  intros R Hn. revert c fuel p stack acc R.
  induction t as [|p0 s px d l IHl r IHr]; intros c fuel p stack acc R Hf Hp Hwf -> Hacc; [done|].
  injection Hp as <-. destruct fuel as [|fuel]; [lia|].
  cbn [search_best_loop].
  rewrite (st_bind_Ok _ _ _ _ _ (get_node_Ok _ _ _ (rep_focus _ _ _ _ _ _ _ _ _ _ R))).
  cbn [n_bit mk_node n_l n_r n_prefix descend path].
  assert (HW := rep_width _ _ _ _ R). assert (HM := rep_maxbits _ _ _ _ R).
  pose proof Hwf as (Hpre & HsW & _ & Hl & Hr). apply prefix_length in Hpre.
  destruct (Nat.ltb_spec (length s) n) as [Hs|Hs]; [|by rewrite key_bit_None by done].
  rewrite key_bit by done.
  rewrite (st_bind_Ok _ _ st (e_node <$> own p0 px d ++ acc) st).
  2:{ destruct px as [[q x]|]; cbn [fmap option_fmap option_map]; [|done].
      rewrite push_Ok by (rewrite length_fmap; lia). done. }
  rewrite addr_bit_Ok, st_lift_bind by lia. rewrite root_if.
  set (b := abit addr (length s)). rewrite (plug_child b) in R.
  pose proof (length_locs_child b p0 s px d l r) as HL.
  assert (HO : length (own p0 px d ++ acc) ≤ length (s ++ [b])).
  { rewrite !length_app. simpl. assert (length (own p0 px d) ≤ 1); [|lia].
    unfold own. destruct px; simpl; lia. }
  destruct (if b then r else l) as [|p' s' px' d' l' r'] eqn:Eb; [done|].
  cbn [root]. rewrite <- Eb in R, HL |- *.
  assert (Hr' : root (if b then r else l) = Some p') by by rewrite Eb.
  destruct b; [eapply IHr|eapply IHl]; eauto; lia.
Qed.

(** The result of the search for the key [k] in an address with bits [full]: the first
    candidate whose key is a prefix of the address. *)
Definition best_match (full k : list bool) (t : ptree T) : option (entry T) :=
  List.find (λ e, bool_decide (e_key e `prefix_of` full)) (candidates k t).

Lemma search_best_pop_spec W t ext st x cands :
  rep W t ext st → pfx_ok W x → Forall (λ e, e ∈ entries t) cands →
  search_best_pop (px_add x) (e_node <$> cands) st =
  Ok (e_node <$> List.find (λ e, bool_decide (e_key e `prefix_of` abits (px_add x) W)) cands, st).
Proof.
  intros R Hx. induction cands as [|e cands IH]; intros HF; [done|].
  apply Forall_cons in HF as [He HF]. cbn [fmap list_fmap search_best_pop List.find].
  destruct (entry_focus _ _ He) as (c & s & l & r & Et).
  assert (Hn : t_nodes st !! e_node e
               = Some (mk_node (cpar c) s (Some (e_q e, e_x e)) (e_d e) (root l) (root r))).
  { eapply rep_focus. rewrite <- Et. exact R. }
  rewrite (st_bind_Ok _ _ _ _ _ (get_node_Ok _ _ _ Hn)). cbn [n_prefix mk_node fmap option_fmap option_map fst].
  rewrite (st_bind_Ok (deref (Some (e_q e))) _ st (e_q e) st eq_refl).
  rewrite (st_bind_Ok _ _ _ _ _ (get_prefix_Ok _ _ _ (rep_entry_prefix _ _ _ _ _ R He))).
  rewrite (rep_key_cmp _ _ _ _ _ _ R He Hx), st_lift_bind.
  case_bool_decide; [done|]. by apply IH.
Qed.

Lemma candidates_length W t k : wf W [] t → length (candidates k t) ≤ S W.
Proof.
  intros Hwf. assert (G : ∀ es : list (entry T), (∀ e, e ∈ es → length (e_key e) ≤ W) →
    StronglySorted (λ e1 e2, length (e_key e2) < length (e_key e1)) es →
    match es with [] => True | e :: es' => length es ≤ S (length (e_key e)) end).
  { induction es as [|e es IH]; intros HW HS; [done|].
    apply StronglySorted_inv in HS as [HS HF]. destruct es as [|e' es]; [simpl; lia|].
    apply Forall_cons in HF as [HF _].
    specialize (IH ltac:(set_solver) HS). simpl in *. lia. }
  assert (HW : ∀ e, e ∈ candidates k t → length (e_key e) ≤ W).
  { intros e He%candidates_sub. destruct (wf_entries _ _ _ _ Hwf He) as [_ (_ & _ & ?)].
    unfold e_key, key_of. by rewrite length_abits. }
  specialize (G _ HW (candidates_sorted _ _ _ k Hwf)).
  destruct (candidates k t) as [|e es]; [simpl; lia|].
  specialize (HW e ltac:(set_solver)). lia.
Qed.

(** [patricia_search_best2] returns the first matching candidate; the node at which it
    stops is a candidate only when [inclusive] is set. *)
Lemma search_best2_spec W t ext st q x inclusive :
  rep W t ext st → ext !! q = Some x → pfx_ok W x →
  patricia_search_best2 q inclusive st =
  Ok (e_node <$> List.find (λ e, bool_decide (e_key e `prefix_of` abits (px_add x) W))
        ((if inclusive then own_of (descend (key_of x) t) else []) ++ path (key_of x) t []), st).
Proof.
  intros R Hq Hx. unfold patricia_search_best2. pose proof (rep_width _ _ _ _ R) as HW.
  pose proof Hx as (Bx & Lx & Wx). pose proof (rep_maxbits _ _ _ _ R) as HM.
  rewrite (st_bind_Ok st_get _ st st st eq_refl).
  rewrite (st_bind_Ok _ _ _ _ _ (get_prefix_Ok _ _ _ (rep_ext_prefix _ _ _ _ _ _ R Hq))).
  rewrite assertm_true by (apply Nat.leb_le; lia). rewrite (rep_head _ _ _ _ R).
  destruct (root t) as [h|] eqn:Hroot; [|destruct t; [by destruct inclusive|done]].
  rewrite (st_bind_Ok _ _ _ _ _ (search_best_loop_spec W [] t ext st (px_add x) (px_bitlen x)
             (node_fuel st) h [] [] R ltac:(lia) ltac:(rewrite (rep_fuel _ _ _ _ R); lia) Hroot
             (rep_wf _ _ _ _ R) eq_refl ltac:(simpl; lia))).
  change (abits (px_add x) (px_bitlen x)) with (key_of x).
  set (cands := (if inclusive then own_of (descend (key_of x) t) else []) ++ path (key_of x) t []).
  assert (HC : Forall (λ e, e ∈ entries t) cands).
  { apply Forall_forall. intros e He. apply (candidates_sub (key_of x)). unfold candidates.
    subst cands. destruct inclusive; set_solver. }
  rewrite (st_bind_Ok _ _ st (e_node <$> cands) st); [by eapply search_best_pop_spec|].
  subst cands. destruct (descend (key_of x) t) as [|p s px d l r] eqn:D; cbn [root].
  { by destruct inclusive. }
  destruct inclusive; [|done].
  destruct (descend_focus (key_of x) t []) as [c Hc]. cbn [plug] in Hc. rewrite D in Hc.
  rewrite (st_bind_Ok _ _ _ _ _ (get_node_Ok st p (mk_node (cpar c) s px d (root l) (root r))
             ltac:(eapply rep_focus; rewrite <- Hc; exact R))).
  cbn [n_prefix mk_node]. destruct px as [[q' y]|]; cbn [fmap option_fmap option_map]; [|done].
  rewrite push_Ok; [done|]. rewrite length_fmap.
  pose proof (candidates_length _ _ (key_of x) (rep_wf _ _ _ _ R)) as HL.
  unfold candidates in HL. rewrite D, length_app in HL. simpl in HL. lia.
Qed.

(** ** What the longest-prefix search means *)
Definition is_best (k : list bool) (es : list (entry T)) (e : entry T) : Prop :=
  e ∈ es ∧ e_key e `prefix_of` k ∧
  ∀ e', e' ∈ es → e_key e' `prefix_of` k → length (e_key e') ≤ length (e_key e).

Lemma find_sorted {A} (R : relation A) (P : A → bool) (l : list A) a :
  StronglySorted R l → List.find P l = Some a →
  a ∈ l ∧ P a = true ∧ ∀ b, b ∈ l → P b = true → b = a ∨ R a b.
Proof.
  induction l as [|x l IH]; intros HS; [done|].
  apply StronglySorted_inv in HS as [HS HF]. simpl. destruct (P x) eqn:Px.
  - intros [= ->]. split; [by left|]. split; [done|]. intros b Hb _.
    apply elem_of_cons in Hb as [->|Hb]; [by left|right].
    rewrite Forall_forall in HF. by apply HF.
  - intros F. destruct (IH HS F) as (H1 & H2 & H3). split; [by right|]. split; [done|].
    intros b Hb Pb. apply elem_of_cons in Hb as [->|Hb]; [congruence|by apply H3].
Qed.

(** For an address of full length the search is the longest-prefix match. *)
Lemma best_match_full W t k :
  wf W [] t → 
  match best_match k k t with
  | Some e => is_best k (entries t) e
  | None => ∀ e, e ∈ entries t → ¬ e_key e `prefix_of` k
  end.
Proof.
  intros Hwf. unfold best_match. destruct (List.find _ _) as [e|] eqn:F.
  - apply (find_sorted _ _ _ _ (candidates_sorted _ _ _ k Hwf)) in F as (F1 & F2 & F3).
    apply bool_decide_eq_true in F2. split; [by eapply candidates_sub|]. split; [done|].
    intros e' He' Hp. pose proof (candidates_complete _ _ _ k e' Hwf He' Hp) as Hc.
    destruct (F3 e' Hc (bool_decide_eq_true_2 _ Hp)) as [->|?]; lia.
  - intros e He Hp. pose proof (candidates_complete _ _ _ k e Hwf He Hp) as Hc.
    apply list_elem_of_In in Hc. apply (List.find_none _ _ F) in Hc.
    by apply bool_decide_eq_false in Hc.
Qed.

Lemma is_best_unique W t k e1 e2 :
  wf W [] t → is_best k (entries t) e1 → is_best k (entries t) e2 → e1 = e2.
Proof.
  intros Hwf (A1 & B1 & C1) (A2 & B2 & C2). eapply wf_key_inj; eauto.
  assert (length (e_key e1) = length (e_key e2)) by (apply Nat.le_antisymm; auto).
  apply prefix_of_same_length; [|done]. eapply prefix_of_linear; eauto with lia.
Qed.
End Search.
