(* ===== verification/PatriciaInsert.v ===== *)
(** * Insertion into the Patricia trie ([patricia_lookup])

    The first loop of [patricia_lookup] follows the bits of the address without looking
    at the keys it passes, the first differing bit with the key it stops at decides how
    far up the new node goes, and four kinds of pointer surgery put it there.  The file
    shows that the result is the tree with one more entry, and that a key that is
    present is returned without any change. *)
From S2P Require Import Prelude Patricia PatriciaBits PatriciaTree PatriciaSearch.

Section Insert.
Context {T : Type}.
Implicit Types (t l r : ptree T) (c : list (frame T)) (st : patricia_tree_t T).

(** ** Stores and contexts *)
Definition retarget c (sub : option loc) (m : gmap loc (patricia_node_t T)) :=
  match c with
  | [] => m
  | f :: c' => <[f_p f := frame_node f (cpar c') sub]> m
  end.

Lemma cflat_retarget c sub sub' : cflat c sub' = retarget c sub' (cflat c sub).
Proof. destruct c as [|f c]; simpl; [done|]. by rewrite insert_insert_eq. Qed.

Lemma retarget_union c sub m1 m2 : retarget c sub (m1 ∪ m2) = retarget c sub m1 ∪ m2.
Proof. destruct c; simpl; [done|]. by rewrite insert_union_l. Qed.

Lemma retarget_insert c sub p n m :
  p ∉ clocs c → retarget c sub (<[p:=n]> m) = <[p:=n]> (retarget c sub m).
Proof.
  destruct c as [|f c]; simpl; [done|]. intros H. apply insert_insert_ne. set_solver.
Qed.

Lemma lookup_retarget_ne c sub m i : i ∉ clocs c → retarget c sub m !! i = m !! i.
Proof. destruct c; simpl; [done|]. intros H. apply lookup_insert_ne. set_solver. Qed.

(** Assignments through pointers. *)
Lemma put_node_Ok st p n n' : t_nodes st !! p = Some n →
  put_node p n' st = Ok (tt, set_nodes (<[p:=n']> (t_nodes st)) st).
Proof. intros H. unfold put_node. by rewrite H. Qed.

Lemma set_l_Ok st p n v : t_nodes st !! p = Some n →
  set_l p v st = Ok (tt, set_nodes
    (<[p := PNode T (n_bit n) (n_prefix n) v (n_r n) (n_parent n) (n_data n)]> (t_nodes st)) st).
Proof.
  intros H. unfold set_l. rewrite (st_bind_Ok _ _ _ _ _ (get_node_Ok _ _ _ H)).
  by apply (put_node_Ok _ _ n).
Qed.

Lemma set_r_Ok st p n v : t_nodes st !! p = Some n →
  set_r p v st = Ok (tt, set_nodes
    (<[p := PNode T (n_bit n) (n_prefix n) (n_l n) v (n_parent n) (n_data n)]> (t_nodes st)) st).
Proof.
  intros H. unfold set_r. rewrite (st_bind_Ok _ _ _ _ _ (get_node_Ok _ _ _ H)).
  by apply (put_node_Ok _ _ n).
Qed.

Lemma set_parent_Ok st p n v : t_nodes st !! p = Some n →
  set_parent p v st = Ok (tt, set_nodes
    (<[p := PNode T (n_bit n) (n_prefix n) (n_l n) (n_r n) v (n_data n)]> (t_nodes st)) st).
Proof.
  intros H. unfold set_parent. rewrite (st_bind_Ok _ _ _ _ _ (get_node_Ok _ _ _ H)).
  by apply (put_node_Ok _ _ n).
Qed.

Lemma set_prefix_Ok st p n v : t_nodes st !! p = Some n →
  set_prefix p v st = Ok (tt, set_nodes
    (<[p := PNode T (n_bit n) v (n_l n) (n_r n) (n_parent n) (n_data n)]> (t_nodes st)) st).
Proof.
  intros H. unfold set_prefix. rewrite (st_bind_Ok _ _ _ _ _ (get_node_Ok _ _ _ H)).
  by apply (put_node_Ok _ _ n).
Qed.

Lemma set_data_Ok st p n v : t_nodes st !! p = Some n →
  set_data p v st = Ok (tt, set_nodes
    (<[p := PNode T (n_bit n) (n_prefix n) (n_l n) (n_r n) (n_parent n) v]> (t_nodes st)) st).
Proof.
  intros H. unfold set_data. rewrite (st_bind_Ok _ _ _ _ _ (get_node_Ok _ _ _ H)).
  by apply (put_node_Ok _ _ n).
Qed.

(** Redirecting the pointer of the parent (or the head) from [p] to [v]. *)
Definition redirect_head c (v : option loc) st : patricia_tree_t T :=
  match c with
  | [] => PTree T (t_nodes st) (t_prefixes st) v (t_maxbits st) (t_num_active st)
  | _ => st
  end.

Lemma replace_in_parent_Ok c st p n v :
  t_nodes st !! p = Some n → n_parent n = cpar c →
  match c with
  | [] => t_head st = Some p
  | f :: c' => t_nodes st !! f_p f = Some (frame_node f (cpar c') (Some p)) ∧
               root (f_other f) ≠ Some p
  end →
  replace_in_parent p v st =
  Ok (tt, redirect_head c v (set_nodes (retarget c v (t_nodes st)) st)).
Proof.
  intros Hn Hp Hc. unfold replace_in_parent.
  rewrite (st_bind_Ok st_get _ st st st eq_refl).
  rewrite (st_bind_Ok _ _ _ _ _ (get_node_Ok _ _ _ Hn)), Hp. unfold option_loc_eqb.
  destruct c as [|f c]; cbn [cpar].
  - rewrite Hc, assertm_true by by rewrite bool_decide_eq_true_2. done.
  - destruct Hc as [Hf Ho].
    rewrite (st_bind_Ok _ _ _ _ _ (get_node_Ok _ _ _ Hf)).
    cbn [redirect_head retarget]. unfold frame_node in *. destruct (f_dir f); cbn [n_r mk_node].
    + rewrite bool_decide_eq_true_2 by done. rewrite (set_r_Ok _ _ _ _ Hf). done.
    + rewrite bool_decide_eq_false_2 by done. rewrite (set_l_Ok _ _ _ _ Hf). done.
Qed.

(** ** The first loop *)
Fixpoint ldescend (addr : list Z) (n : nat) c t : list (frame T) * ptree T :=
  match t with
  | E => (c, E)
  | N p s px d l r =>
      if (length s <? n) || bool_decide (px = None) then
        if abit addr (length s) then
          match r with E => (c, t) | _ => ldescend addr n (Frame p s px d true l :: c) r end
        else
          match l with E => (c, t) | _ => ldescend addr n (Frame p s px d false r :: c) l end
      else (c, t)
  end.

(** Every step of the path followed the address. *)
Definition follows (addr : list Z) (f : frame T) : Prop := f_dir f = abit addr (length (f_s f)).

(** Why the first loop stopped: the prefix is long enough, or the child is missing. *)
Definition stopped (addr : list Z) (n : nat) t : Prop :=
  match t with
  | E => False
  | N p s px d l r =>
      px ≠ None ∧ (n ≤ length s ∨ (if abit addr (length s) then r else l) = E)
  end.

Lemma ldescend_N addr n c p s px d l r :
  ldescend addr n c (N p s px d l r) =
  if (length s <? n) || bool_decide (px = None) then
    let b := abit addr (length s) in
    match (if b then r else l) with
    | E => (c, N p s px d l r)
    | t' => ldescend addr n (Frame p s px d b (if b then l else r) :: c) t'
    end
  else (c, N p s px d l r).
Proof.
  cbn [ldescend]. destruct (_ || _); [|done]. cbv zeta.
  destruct (abit addr (length s)); [by destruct r|by destruct l].
Qed.

Lemma wf_child W s (b : bool) l r :
  wf W (s ++ [false]) l → wf W (s ++ [true]) r → wf W (s ++ [b]) (if b then r else l).
Proof. by destruct b. Qed.

Lemma ldescend_spec W c t addr n :
  wf W (cpre c) t → t ≠ E → Forall (follows addr) c →
  let '(c', t') := ldescend addr n c t in
  plug c' t' = plug c t ∧ stopped addr n t' ∧ Forall (follows addr) c'.
Proof.
  revert c. induction t as [|p s px d l IHl r IHr]; intros c Hwf Hne Hc; [done|].
  rewrite ldescend_N. destruct Hwf as (Hpre & HsW & Hn & Hl & Hr). cbv zeta.
  destruct ((length s <? n) || bool_decide (px = None)) eqn:Hcond.
  - set (b := abit addr (length s)). destruct (if b then r else l) as [|p' s' px' d' l' r'] eqn:HE.
    + split; [done|]. split; [|done]. cbn [stopped]. split; [|by right].
      intros ->. destruct Hn as (? & ? & ?). by destruct b.
    + rewrite (plug_child b c p s px d l r). rewrite <- HE.
      assert (Hch : (if b then r else l) ≠ E) by by rewrite HE. clear HE.
      destruct b eqn:Hb; [apply (IHr (_ :: c))|apply (IHl (_ :: c))]; try done;
        (apply Forall_cons; split; [by symmetry|done]).
  - split; [done|]. split; [|done]. cbn [stopped].
    apply orb_false_iff in Hcond as [H1 H2].
    apply Nat.ltb_ge in H1. apply bool_decide_eq_false in H2. auto.
Qed.

Lemma wf_glue_lt W pre p s d l r : wf W pre (N p s None d l r) → length s < W.
Proof.
  intros Hwf. destruct l as [|p' s' px' d' l' r'].
  - by destruct Hwf as (_ & _ & (? & _) & _).
  - pose proof (wf_child_bit _ _ _ _ _ _ _ _ false _ _ _ _ _ _ Hwf eq_refl). lia.
Qed.

Lemma lookup_descend_spec W c t ext st addr n fuel p :
  rep W (plug c t) ext st → n ≤ W → 8 * length addr = W →
  wf W (cpre c) t → length (locs t) < fuel → root t = Some p →
  ∃ p', root (ldescend addr n c t).2 = Some p' ∧
        lookup_descend fuel (t_maxbits st) addr n p st = Ok (p', st).
Proof.
  intros R Hn Ha. revert c fuel p R.
  induction t as [|p0 s px d l IHl r IHr]; intros c fuel p R Hwf Hf Hp; [done|].
  injection Hp as <-. destruct fuel as [|fuel]; [lia|].
  rewrite ldescend_N. cbn [lookup_descend].
  rewrite (st_bind_Ok _ _ _ _ _ (get_node_Ok _ _ _ (rep_focus _ _ _ _ _ _ _ _ _ _ R))).
  cbn [n_bit mk_node n_l n_r n_prefix].
  replace (bool_decide ((fst <$> px) = None)) with (bool_decide (px = None))
    by (apply bool_decide_ext; by destruct px).
  destruct ((length s <? n) || bool_decide (px = None)) eqn:Hc; [|by exists p0].
  assert (HW := rep_width _ _ _ _ R).
  assert (Hlt : length s < W).
  { apply orb_true_iff in Hc as [Hc|Hc]; [apply Nat.ltb_lt in Hc; lia|].
    apply bool_decide_eq_true in Hc. subst px. by apply (wf_glue_lt _ _ _ _ _ _ _ Hwf). }
  rewrite take_right_Ok, st_lift_bind by lia.
  rewrite root_if. pose proof (length_locs_child (abit addr (length s)) p0 s px d l r) as HL.
  rewrite (plug_child (abit addr (length s))) in R. destruct Hwf as (Hpre & HsW & Hno & Hl & Hr).
  cbv zeta. set (b := abit addr (length s)) in *.
  destruct (if b then r else l) as [|p' s' px' d' l' r'] eqn:HE; [by exists p0|].
  rewrite <- HE in *. assert (Hroot : root (if b then r else l) = Some p') by by rewrite HE.
  rewrite Hroot. clear HE.
  destruct b; [eapply IHr|eapply IHl]; eauto; lia.
Qed.

(** ** Climbing back *)
Fixpoint climb (d : nat) c t : list (frame T) * ptree T :=
  match c with
  | [] => ([], t)
  | f :: c' => if d <=? length (f_s f) then climb d c' (fill f t) else (c, t)
  end.

Lemma climb_plug d c t : plug (climb d c t).1 (climb d c t).2 = plug c t.
Proof.
  revert t. induction c as [|f c IH]; intros t; cbn [climb]; [done|].
  destruct (d <=? length (f_s f)); [apply IH|done].
Qed.

Lemma lookup_climb_spec W c t ext st d fuel p :
  rep W (plug c t) ext st → length c < fuel → root t = Some p →
  ∃ p', root (climb d c t).2 = Some p' ∧ lookup_climb fuel d p st = Ok (p', st).
Proof.
  revert t fuel p. induction c as [|f c IH]; intros t fuel p R Hf Hp;
    (destruct fuel as [|fuel]; [simpl in Hf; lia|]);
    destruct t as [|p0 s px dd l r]; try done; injection Hp as <-; cbn [lookup_climb climb];
    rewrite (st_bind_Ok _ _ _ _ _ (get_node_Ok _ _ _ (rep_focus _ _ _ _ _ _ _ _ _ _ R)));
    cbn [n_parent mk_node cpar]; [by exists p0|].
  assert (Hf' : t_nodes st !! f_p f = Some (frame_node f (cpar c) (Some p0))).
  { rewrite (rep_nodes _ _ _ _ R). apply (flat_lookup_parent f c (N p0 s px dd l r)), R. }
  rewrite (st_bind_Ok _ _ _ _ _ (get_node_Ok _ _ _ Hf')).
  replace (n_bit (frame_node f (cpar c) (Some p0))) with (length (f_s f))
    by (unfold frame_node; by destruct (f_dir f)).
  destruct (Nat.leb_spec d (length (f_s f))); [|by exists p0].
  apply IH; [exact R|simpl in Hf; lia|]. unfold fill. by destruct (f_dir f).
Qed.

Lemma length_ctx c t : length c ≤ length (locs (plug c t)).
Proof.
  rewrite locs_plug, length_app. assert (length c ≤ length (clocs c)); [|lia].
  induction c as [|f c IH]; simpl; [lia|]. rewrite length_app. lia.
Qed.

(** ** The position of the new key [k]: [sx] is the key the first loop stopped at. *)
Record position (addr : list Z) (n : nat) (sx : list bool) (dd : nat) c t : Prop := {
  pos_root : ∃ p s px d l r, t = N p s px d l r ∧ s `prefix_of` sx ∧ dd ≤ length s ∧
               (length s = dd → dd < n → (if abit addr dd then r else l) = E);
  pos_ctx : match c with [] => True | f :: _ => length (f_s f) < dd end
}.

Lemma climb_position W addr n sx c t :
  n ≤ W →
  cwf W c → wf W (cpre c) t → Forall (follows addr) c →
  (∃ p s px d l r, t = N p s px d l r ∧ s `prefix_of` sx ∧ lcp (abits addr n) sx ≤ length s ∧
     (length s = lcp (abits addr n) sx → lcp (abits addr n) sx < n →
      (if abit addr (lcp (abits addr n) sx) then r else l) = E)) →
  let ct := climb (lcp (abits addr n) sx) c t in
  position addr n sx (lcp (abits addr n) sx) ct.1 ct.2.
Proof.
  intros Hn. set (dd := lcp (abits addr n) sx). revert t.
  induction c as [|f c IH]; intros t Hc Hwf HF Hroot; cbn [climb]; [by constructor|].
  destruct (Nat.leb_spec dd (length (f_s f))) as [Hle|Hgt]; [|by constructor].
  destruct Hc as (Hpre & HfW & Hpx & Hoth & Hc). apply Forall_cons in HF as [Hfol HF].
  destruct Hroot as (p & s & px & d & l & r & -> & Hs & Hd & _).
  apply IH; [done| |done|].
  - apply wf_fill. split_and!; done.
  - assert (Hpf : (f_s f ++ [f_dir f]) `prefix_of` sx) by (etrans; [apply Hwf|done]).
    apply prefix_of_snoc_iff in Hpf as [Hp1 Hp2].
    assert (Hcontra : length (f_s f) = dd → dd < n → False).
    { intros E1 E2. apply lookup_lt_Some in Hp2 as Hlt.
      assert (HD : lcp (abits addr n) sx < length (abits addr n)) by (rewrite length_abits; exact E2).
      apply (lcp_lookup_ne (abits addr n) sx HD); [fold dd; lia|]. fold dd. rewrite <- E1.
      rewrite Hp2, lookup_abits by lia. by rewrite Hfol. }
    unfold fill. destruct (f_dir f); do 6 eexists; (split; [done|]); split_and!; auto; tauto.
Qed.

(** The path to the position agrees with the new key. *)
Lemma position_agree addr n sx c t p s px d l r :
  position addr n sx (lcp (abits addr n) sx) c t → t = N p s px d l r →
  take (lcp (abits addr n) sx) s = take (lcp (abits addr n) sx) (abits addr n).
Proof.
  intros [(p0 & s0 & px0 & d0 & l0 & r0 & E0 & Hs & Hd & _) _] ->. injection E0 as <- <- <- <- <- <-.
  rewrite (lcp_take (abits addr n) sx _ (Nat.le_refl _)).
  destruct Hs as [w ->]. by rewrite take_app_le by done.
Qed.

(** Every key below the position's parent extends the context's bits, which are among
    the first [dd] bits of the new key. *)
Lemma position_cpre W addr n sx c t :
  n ≤ W → position addr n sx (lcp (abits addr n) sx) c t → wf W (cpre c) t →
  cpre c `prefix_of` take (lcp (abits addr n) sx) (abits addr n).
Proof.
  intros Hn P Hwf. pose proof P as [(p & s & px & d & l & r & -> & Hs & Hd & _) Hc].
  rewrite <- (position_agree _ _ _ _ _ _ _ _ _ _ _ P eq_refl). destruct Hwf as (Hpre & _).
  set (dd := lcp (abits addr n) sx) in *.
  assert (HL : length (cpre c) ≤ dd).
  { destruct c as [|f c]; simpl; [lia|]. rewrite length_app. simpl. lia. }
  apply prefix_take_eq in Hpre. apply prefix_take_eq. rewrite take_take.
  rewrite Nat.min_l by done. exact Hpre.
Qed.

(** ** Assembling the new representation *)
Lemma insert_union_delete (q : loc) (x' : prefix_t) (m ext : gmap loc prefix_t) :
  <[q:=x']> (m ∪ ext) = <[q:=x']> m ∪ delete q ext.
Proof.
  apply map_eq. intros i. rewrite lookup_insert, !lookup_union, lookup_insert.
  case_decide; subst; [by rewrite lookup_delete_eq|by rewrite lookup_delete_ne].
Qed.

Lemma rep_insert_intro W c t0 t1 ext st st' q x' p (new : list loc) :
  rep W (plug c t0) ext st → is_Some (ext !! q) →
  locs t1 ≡ₚ new ++ locs t0 → NoDup new → (∀ i, i ∈ new → t_nodes st !! i = None) →
  plocs t1 ≡ₚ q :: plocs t0 → pflat t1 = <[q:=x']> (pflat t0) →
  wf W (cpre c) t1 → t1 ≠ E → entries t1 ≡ₚ Entry p q x' None :: entries t0 →
  t_nodes st' = cflat c (root t1) ∪ flat (cpar c) t1 →
  t_prefixes st' = <[q:=x']> (t_prefixes st) →
  t_head st' = match c with [] => root t1 | _ => t_head st end →
  t_num_active st' = (t_num_active st + Z.of_nat (length new))%Z →
  t_maxbits st' = t_maxbits st →
  rep W (plug c t1) (delete q ext) st' ∧
  entries (plug c t1) ≡ₚ Entry p q x' None :: entries (plug c t0).
Proof.
  intros R [x Hq] Hlocs Hnew Hfresh Hplocs Hpflat Hwf Hne Hent Hnodes Hpfx Hhead Hact Hmax.
  assert (Hq0 : pflat (plug c t0) !! q = None) by (eapply map_disjoint_Some_r; [apply R|done]).
  assert (Hqn : q ∉ plocs (plug c t0)).
  { intros Hin. destruct (pflat_is_Some _ _ Hin) as [? H]. congruence. }
  assert (HND : NoDup (locs (plug c t1))).
  { rewrite locs_plug, Hlocs, <- app_assoc, <- locs_plug. apply NoDup_app. split; [done|].
    split; [|apply R]. intros i Hi Hi'. specialize (Hfresh i Hi).
    rewrite (rep_nodes _ _ _ _ R) in Hfresh. destruct (flat_is_Some None _ _ Hi') as [? H].
    congruence. }
  assert (HPND : NoDup (plocs (plug c t1))).
  { rewrite plocs_plug, Hplocs. cbn. rewrite <- plocs_plug. apply NoDup_cons. split; [done|apply R]. }
  assert (HP : pflat (plug c t1) = <[q:=x']> (pflat (plug c t0))).
  { rewrite !pflat_plug by (done || apply R). rewrite Hpflat. symmetry. apply insert_union_r.
    apply cpflat_dom. intros Hc. apply Hqn. rewrite plocs_plug. set_solver. }
  split; [|by rewrite !entries_plug, Hent].
  constructor; try done.
  - by rewrite flat_plug.
  - by rewrite Hpfx, (rep_prefixes _ _ _ _ R), HP, insert_union_delete.
  - rewrite Hhead. destruct c as [|f c]; [done|]. rewrite (rep_head _ _ _ _ R).
    apply (root_plug_cons f c).
  - rewrite Hact, (rep_active _ _ _ _ R), !locs_plug, Hlocs, !length_app. lia.
  - pose proof (rep_wf _ _ _ _ R) as Hw. apply wf_plug in Hw as (Hc & _ & _). apply wf_plug.
    split_and!; [done|done|]. destruct c; simpl; auto.
  - rewrite HP. apply map_disjoint_insert_l. split; [by rewrite lookup_delete_eq|].
    eapply map_disjoint_weaken_r; [apply R|apply delete_subseteq].
  - rewrite Hmax. apply R.
  - rewrite Hmax. apply R.
Qed.

Lemma Ref_Prefix_Ok st q x : t_prefixes st !! q = Some x → (px_ref_count x ≠ 0)%Z →
  Ref_Prefix (Some q) st =
  Ok (Some q, set_prefixes (<[q := set_ref_count (px_ref_count x + 1) x]> (t_prefixes st)) st).
Proof.
  intros Hq Hrc. unfold Ref_Prefix. rewrite (st_bind_Ok _ _ _ _ _ (get_prefix_Ok _ _ _ Hq)).
  destruct (Z.eqb_spec (px_ref_count x) 0); [done|]. reflexivity.
Qed.

Lemma put_px_insert px0 (m1 : gmap loc prefix_t) q0 x0 :
  q0 ∉ opt_list fst px0 → m1 !! q0 = None →
  put_px px0 (m1 ∪ {[q0 := x0]}) = <[q0:=x0]> (put_px px0 (m1 ∪ ∅)).
Proof.
  intros Hp Hm. unfold put_px. destruct px0 as [[q1 x1]|]; [|pmap_eq].
  assert (q1 ≠ q0) by (intros ->; apply Hp; simpl; set_solver).
  pmap_eq.
Qed.

(** What the three cases of [lookup_attach] share. *)
Section Attach.
Context (W : nat) (c : list (frame T)) (ext : gmap loc prefix_t) (st : patricia_tree_t T).
Context (q : loc) (x y : prefix_t).
Context (p : loc) (s : list bool) (px : option (loc * prefix_t)) (d : option T) (l r : ptree T).
Abbreviation t0 := (N p s px d l r).
Abbreviation addr := (px_add x).
Abbreviation n := (px_bitlen x).
Abbreviation k := (key_of x).
Abbreviation sx := (key_of y).
Abbreviation test_addr := (px_add y).
Abbreviation dd := (lcp k sx).
Abbreviation x' := (set_ref_count (px_ref_count x + 1) x).
Hypothesis R : rep W (plug c t0) ext st.
Hypothesis Hq : ext !! q = Some x.
Hypothesis Hx : pfx_ok W x.
Hypothesis Hy : pfx_ok W y.
Hypothesis Hrc : (px_ref_count x ≠ 0)%Z.
Hypothesis Hpos : position addr n sx dd c t0.

Let np := fresh_loc (t_nodes st).
Let leaf : ptree T := N np k (Some (q, x')) None E E.

Lemma np_fresh : t_nodes st !! np = None.
Proof. apply fresh_loc_None. Qed.

Lemma np_not_in : np ∉ locs (plug c t0).
Proof.
  intros H. destruct (flat_is_Some None _ _ H) as [? H']. rewrite <- (rep_nodes _ _ _ _ R) in H'.
  by rewrite np_fresh in H'.
Qed.

Lemma key_x' : key_of x' = k.
Proof. reflexivity. Qed.

Lemma pfx_ok_x' : pfx_ok W x'.
Proof. exact Hx. Qed.

Lemma length_k : length k = n.
Proof. unfold key_of. apply length_abits. Qed.

Lemma wf_t0 : cwf W c ∧ wf W (cpre c) t0.
Proof. pose proof (rep_wf _ _ _ _ R) as H. apply wf_plug in H. tauto. Qed.

Lemma nodes_st : t_nodes st = cflat c (Some p) ∪
  <[p := mk_node (cpar c) s px d (root l) (root r)]> (flat (Some p) l ∪ flat (Some p) r).
Proof. rewrite (rep_nodes _ _ _ _ R), flat_plug by apply R. reflexivity. Qed.

Lemma p_not_ctx : p ∉ clocs c.
Proof. pose proof (rep_nd _ _ _ _ R) as H. apply NoDup_plug in H as (_ & _ & H). apply H. by left. Qed.

Lemma np_facts : np ∉ clocs c ∧ np ≠ p ∧ np ∉ locs l ∧ np ∉ locs r.
Proof.
  pose proof np_not_in as H. rewrite locs_plug in H. simpl in H. set_solver.
Qed.

Lemma q_not_in : q ∉ plocs t0.
Proof.
  intros H. assert (H' : q ∈ plocs (plug c t0)) by (rewrite plocs_plug; set_solver).
  destruct (pflat_is_Some _ _ H') as [? H1].
  assert (pflat (plug c t0) !! q = None) by (eapply map_disjoint_Some_r; [apply R|done]). congruence.
Qed.

Lemma cpre_k : cpre c `prefix_of` take dd k.
Proof. exact (position_cpre W addr n sx c t0 ltac:(apply Hx) Hpos (proj2 wf_t0)). Qed.

Lemma agree : take dd s = take dd k.
Proof. exact (position_agree _ _ _ _ _ _ _ _ _ _ _ Hpos eq_refl). Qed.

Lemma dd_le : dd ≤ length s.
Proof.
  destruct Hpos as [(? & ? & ? & ? & ? & ? & H & _ & Hd & _) _]. by injection H as <- <- <- <- <- <-.
Qed.

(** The state after the reference count and the allocation. *)
Definition st1 : patricia_tree_t T :=
  PTree T (<[np := PNode T n (Some q) None None None None]> (t_nodes st))
    (<[q:=x']> (t_prefixes st)) (t_head st) (t_maxbits st) (t_num_active st + 1).

Lemma attach_prologue {B} (f : loc → ST (patricia_tree_t T) B) :
  (q' ← Ref_Prefix (Some q);
   new_node ← calloc_node (PNode T n q' None None None None);
   add_active 1;; f new_node) st = f np st1.
Proof.
  rewrite (st_bind_Ok _ _ _ _ _ (Ref_Prefix_Ok _ _ _ (rep_ext_prefix _ _ _ _ _ _ R Hq) Hrc)).
  reflexivity.
Qed.

Lemma st1_p : t_nodes st1 !! p = Some (mk_node (cpar c) s px d (root l) (root r)).
Proof.
  cbn. rewrite lookup_insert_ne by (apply np_facts). eapply rep_focus. exact R.
Qed.

(** The entry is added by a tree [t1] at the position. *)
Definition attached (t1 : ptree T) (st' : patricia_tree_t T) : Prop :=
  rep W (plug c t1) (delete q ext) st' ∧ t_maxbits st' = t_maxbits st ∧
  entries (plug c t1) ≡ₚ Entry np q x' None :: entries (plug c t0).

Lemma wf_leaf pre : pre `prefix_of` k → wf W pre leaf.
Proof. intros H. cbn. rewrite length_k. pose proof Hx as (_ & _ & ?). split_and!; auto. Qed.

Lemma pflat_leaf : pflat leaf = {[q := x']}.
Proof. cbn. by rewrite map_empty_union, insert_empty. Qed.

Lemma flat_leaf par : flat par leaf = {[np := PNode T n (Some q) None None par None]}.
Proof. cbn. rewrite map_empty_union, insert_empty. unfold mk_node. by rewrite length_k. Qed.

Lemma attached_intro t1 st' new :
  locs t1 ≡ₚ new ++ locs t0 → NoDup new → (∀ i, i ∈ new → t_nodes st !! i = None) →
  plocs t1 ≡ₚ q :: plocs t0 → (NoDup (plocs t1) → pflat t1 = <[q:=x']> (pflat t0)) →
  wf W (cpre c) t1 → t1 ≠ E → entries t1 ≡ₚ Entry np q x' None :: entries t0 →
  (NoDup (locs t1) → t_nodes st' = cflat c (root t1) ∪ flat (cpar c) t1) →
  t_prefixes st' = <[q:=x']> (t_prefixes st) →
  t_head st' = match c with [] => root t1 | _ => t_head st end →
  t_num_active st' = (t_num_active st + Z.of_nat (length new))%Z →
  t_maxbits st' = t_maxbits st → attached t1 st'.
Proof.
  intros Hlocs Hnew Hfresh Hplocs Hpflat Hwf Hne Hent Hnodes Hpfx Hhead Hact Hmax.
  unfold attached. cut (rep W (plug c t1) (delete q ext) st' ∧
    entries (plug c t1) ≡ₚ Entry np q x' None :: entries (plug c t0)); [naive_solver|].
  pose proof (rep_nd _ _ _ _ R) as ND. apply NoDup_plug in ND as (ND & _ & _).
  pose proof (rep_pnd _ _ _ _ R) as PND. apply NoDup_pplug in PND as (PND & _ & _).
  eapply (rep_insert_intro _ _ t0 _ _ _ _ _ x' np new); eauto.
  - apply Hpflat. rewrite Hplocs. apply NoDup_cons. split; [apply q_not_in|done].
  - apply Hnodes. rewrite Hlocs. apply NoDup_app. split; [done|]. split; [|done].
    intros i Hi Hi'. specialize (Hfresh i Hi).
    assert (Hin : i ∈ locs (plug c t0)) by (rewrite locs_plug; set_solver).
    destruct (flat_is_Some None _ _ Hin) as [? H']. rewrite <- (rep_nodes _ _ _ _ R) in H'. congruence.
Qed.

(** Case #2: the new node becomes the missing child of the position. *)
Lemma attach_child_rep (b : bool) st' :
  let f := Frame p s px d b (if b then l else r) in
  (if b then r else l) = E → (s ++ [b]) `prefix_of` k →
  t_nodes st' = <[p := frame_node f (cpar c) (Some np)]>
     (<[np := PNode T n (Some q) None None (Some p) None]> (t_nodes st)) →
  t_prefixes st' = <[q:=x']> (t_prefixes st) → t_head st' = t_head st →
  t_num_active st' = (t_num_active st + 1)%Z → t_maxbits st' = t_maxbits st →
  attached (fill f leaf) st'.
Proof.
  intros f HE Hk Hnodes Hpfx Hhead Hact Hmax.
  pose proof np_facts as (F1 & F2 & F3 & F4). pose proof p_not_ctx as Hpc.
  pose proof wf_t0 as (_ & Hpre & HsW & Hno & Hl & Hr). pose proof q_not_in as Hqn.
  assert (Et : t0 = fill f E) by (unfold fill, f; destruct b; by rewrite HE).
  assert (Fo : np ∉ locs (f_other f)) by (by destruct b).
  apply (attached_intro _ _ [np]); rewrite ?Et; try done.
  - rewrite !locs_fill. cbn. solve_Permutation.
  - apply NoDup_singleton.
  - intros i ->%list_elem_of_singleton. apply np_fresh.
  - rewrite !plocs_fill. cbn. solve_Permutation.
  - intros ND. rewrite pflat_fill, pflat_leaf by done.
    rewrite pflat_fill by (rewrite <- Et; apply (proj1 (NoDup_pplug c _)), R).
    rewrite Et in Hqn. rewrite plocs_fill, !not_elem_of_app in Hqn. destruct Hqn as (Q1 & Q2 & _).
    cbn [pflat f_px f]. apply put_px_insert; [done|by apply pflat_dom].
  - pose proof (proj2 wf_t0) as Hw. rewrite Et in Hw. apply wf_fill in Hw.
    apply wf_fill. destruct Hw as (? & ? & ? & ? & _ & _).
    split_and!; auto using wf_leaf.
  - apply fill_not_E.
  - rewrite !entries_fill. cbn. solve_Permutation.
  - intros ND. rewrite flat_fill, flat_leaf, Hnodes, nodes_st by done.
    assert (Er : flat (Some p) l ∪ flat (Some p) r = flat (Some p) (f_other f))
      by (unfold f; cbn; destruct b; rewrite HE; cbn; by rewrite ?map_union_empty, ?map_empty_union).
    rewrite Er. replace (root (fill f leaf)) with (Some p) by (unfold fill; by destruct b).
    cbn [f_p f root leaf]. pmap_eq.
  - rewrite Hhead. destruct c; [|done]. rewrite (rep_head _ _ _ _ R). unfold fill. by destruct b.
Qed.
Definition attach_result (st' : patricia_tree_t T) : Prop :=
  lookup_attach q addr test_addr n dd (t_maxbits st) p st = Ok (np, st') ∧
  ∃ t1, attached t1 st'.

Lemma attach_child : length s = dd → dd < n → ∃ st', attach_result st'.
Proof.
  intros Hs Hn. pose proof np_facts as (F1 & F2 & F3 & F4). pose proof (rep_width _ _ _ _ R) as HW.
  pose proof Hx as (_ & HxL & HxW). unfold attach_result, lookup_attach. rewrite attach_prologue.
  rewrite (st_bind_Ok _ _ _ _ _ (get_node_Ok _ _ _ st1_p)). cbn [n_bit mk_node n_l n_r].
  destruct (Nat.eqb_spec (length s) dd); [|done].
  set (st2 := set_nodes (<[np := PNode T n (Some q) None None (Some p) None]> (t_nodes st)) st1).
  rewrite (st_bind_Ok _ _ _ tt st2).
  2:{ rewrite (set_parent_Ok _ _ (PNode T n (Some q) None None None None))
        by (cbn; apply lookup_insert_eq). cbn. by rewrite insert_insert_eq. }
  rewrite take_right_Ok, st_lift_bind by lia.
  assert (Hst2 : t_nodes st2 !! p = Some (mk_node (cpar c) s px d (root l) (root r))).
  { cbn. rewrite lookup_insert_ne by done. eapply rep_focus. exact R. }
  assert (Hkb : (s ++ [abit addr (length s)]) `prefix_of` k).
  { apply prefix_of_snoc_iff. split; [|apply lookup_abits; lia].
    rewrite prefix_take_eq, Hs, <- agree. by rewrite <- Hs, take_ge. }
  destruct Hpos as [(? & ? & ? & ? & ? & ? & [= <- <- <- <- <- <-] & _ & _ & HE) _].
  specialize (HE Hs Hn). rewrite <- Hs in HE.
  destruct (abit addr (length s)) eqn:Eb; unfold option_loc_eqb.
  all: rewrite assertm_true by (rewrite HE; by rewrite bool_decide_eq_true_2).
  - rewrite (st_bind_Ok _ _ _ _ _ (set_r_Ok _ _ _ _ Hst2)). cbn [mret st_ret].
    eexists. split; [reflexivity|]. eexists. by eapply (attach_child_rep true).
  - rewrite (st_bind_Ok _ _ _ _ _ (set_l_Ok _ _ _ _ Hst2)). cbn [mret st_ret].
    eexists. split; [reflexivity|]. eexists. by eapply (attach_child_rep false).
Qed.

(** Cases #3 and #4 put a node above the position. *)
Lemma ctx_parent st2 sub : t_nodes st2 = cflat c sub ∪ flat (cpar c) t0 →
  match c with
  | [] => True
  | f :: c' => t_nodes st2 !! f_p f = Some (frame_node f (cpar c') sub) ∧ root (f_other f) ≠ Some p
  end.
Proof.
  intros E. pose proof p_not_ctx as Hp. destruct c as [|f c']; [done|].
  rewrite E. cbn [cflat clocs] in *. split; [by rewrite <- insert_union_l, lookup_insert_eq|].
  intros H. destruct (f_other f); [done|]. injection H as ->. set_solver.
Qed.

Definition above_nodes top m : gmap loc (patricia_node_t T) :=
  <[p := mk_node (Some top) s px d (root l) (root r)]> (retarget c (Some top) m).

Lemma attach_above_tail st3 top :
  (∀ i, i ∈ p :: clocs c → t_nodes st3 !! i = t_nodes st !! i) → t_head st3 = t_head st →
  (replace_in_parent p (Some top);; set_parent p (Some top);; mret np) st3 =
  Ok (np, redirect_head c (Some top) (set_nodes (above_nodes top (t_nodes st3)) st3)).
Proof.
  intros Hn Hh. pose proof p_not_ctx as Hpc.
  assert (Hp : t_nodes st3 !! p = Some (mk_node (cpar c) s px d (root l) (root r))).
  { rewrite Hn by set_solver. eapply rep_focus. exact R. }
  assert (Hc : match c with
    | [] => t_head st3 = Some p
    | f :: c' => t_nodes st3 !! f_p f = Some (frame_node f (cpar c') (Some p)) ∧
                 root (f_other f) ≠ Some p
    end).
  { pose proof (ctx_parent st (Some p) nodes_st) as H. pose proof (rep_head _ _ _ _ R) as H'.
    destruct c as [|f c']; [by rewrite Hh, H'|].
    rewrite Hn by (cbn; rewrite !elem_of_cons; tauto). done. }
  rewrite (st_bind_Ok _ _ _ _ _ (replace_in_parent_Ok c st3 p _ (Some top) Hp eq_refl Hc)).
  set (st4 := redirect_head _ _ _).
  assert (E4 : t_nodes st4 = retarget c (Some top) (t_nodes st3)) by (unfold st4; by destruct c).
  assert (Hp4 : t_nodes st4 !! p = Some (mk_node (cpar c) s px d (root l) (root r))).
  { rewrite E4, lookup_retarget_ne; done. }
  rewrite (st_bind_Ok _ _ _ _ _ (set_parent_Ok _ _ _ _ Hp4)). cbn [mret st_ret].
  do 2 f_equal. rewrite E4. unfold st4, above_nodes. by destruct c.
Qed.

Lemma attach_above_rep b st' :
  let f := Frame np k (Some (q, x')) None b E in
  (k ++ [b]) `prefix_of` s → 
  t_nodes st' = above_nodes np (<[np := frame_node f (cpar c) (Some p)]> (t_nodes st)) →
  t_prefixes st' = <[q:=x']> (t_prefixes st) →
  t_head st' = match c with [] => Some np | _ => t_head st end →
  t_num_active st' = (t_num_active st + 1)%Z → t_maxbits st' = t_maxbits st →
  attached (fill f t0) st'.
Proof.
  intros f Hk Hnodes Hpfx Hhead Hact Hmax.
  pose proof np_facts as (F1 & F2 & F3 & F4). pose proof p_not_ctx as Hpc.
  pose proof wf_t0 as (_ & Hpre & HsW & Hno & Hl & Hr). pose proof Hx as (_ & HxL & HxW).
  assert (Er : root (fill f t0) = Some np) by (unfold fill; by destruct b).
  apply (attached_intro _ _ [np]); rewrite ?Er; try done.
  - rewrite !locs_fill. cbn. solve_Permutation.
  - apply NoDup_singleton.
  - intros i ->%list_elem_of_singleton. apply np_fresh.
  - by rewrite !plocs_fill.
  - intros ND. rewrite pflat_fill by done. cbn [pflat f_px f f_other]. by rewrite map_empty_union.
  - apply wf_fill. split_and!; try done.
    + etrans; [apply cpre_k|]. apply prefix_take.
    + cbn [f_s f]. by rewrite length_k.
  - apply fill_not_E.
  - by rewrite !entries_fill.
  - intros ND. rewrite flat_fill, Hnodes, nodes_st by done. unfold above_nodes.
    rewrite (cflat_retarget c (Some p) (Some np)). cbn [f_other f f_p flat root cpar].
    destruct c as [|fr c']; cbn [retarget cpar clocs] in *.
    + pmap_eq.
    + assert (f_p fr ≠ p) by set_solver. assert (f_p fr ≠ np) by set_solver. pmap_eq.
Qed.

Lemma attach_above : dd = n → n < length s → ∃ st', attach_result st'.
Proof.
  intros Hs Hn. pose proof np_facts as (F1 & F2 & F3 & F4). pose proof (rep_width _ _ _ _ R) as HW.
  pose proof Hy as (_ & HyL & HyW). unfold attach_result, lookup_attach. rewrite attach_prologue.
  rewrite (st_bind_Ok _ _ _ _ _ (get_node_Ok _ _ _ st1_p)). cbn [n_bit mk_node n_parent].
  destruct (Nat.eqb_spec (length s) dd) as [Ha|Ha]; [lia|].
  destruct (Nat.eqb_spec n dd) as [Hb|Hb]; [|done].
  assert (HsW : length s ≤ W) by apply (proj2 wf_t0).
  rewrite take_right_Ok, st_lift_bind by lia. set (b := abit test_addr n).
  set (st3 := set_nodes (<[np := frame_node (Frame np k (Some (q, x')) None b E) (cpar c) (Some p)]>
                (t_nodes st)) st1).
  match goal with |- context [(?m ≫= ?g) st1] => set (mm := (m ≫= g) st1) end.
  assert (Em : mm = (replace_in_parent p (Some np);; set_parent p (Some np);; mret np) st3).
  { unfold mm. assert (L : t_nodes st1 !! np = Some (PNode T n (Some q) None None None None))
      by apply lookup_insert_eq.
    destruct b; [rewrite (st_bind_Ok _ _ _ _ _ (set_r_Ok _ _ _ _ L))
                |rewrite (st_bind_Ok _ _ _ _ _ (set_l_Ok _ _ _ _ L))];
      rewrite (st_bind_Ok _ _ _ _ _ (set_parent_Ok _ np _ _ (lookup_insert_eq _ _ _)));
      cbn [set_nodes t_nodes st1]; rewrite !insert_insert_eq; unfold st3, frame_node, mk_node;
      cbn [f_dir f_s]; by rewrite length_k. }
  rewrite Em, attach_above_tail; [|intros i Hi; cbn; rewrite lookup_insert_ne; set_solver|done].
  eexists. split; [reflexivity|]. eexists. eapply (attach_above_rep b).
  - apply prefix_of_snoc_iff. rewrite length_k.
    assert (Ht : take n s = k).
    { rewrite <- Hs at 1. rewrite agree, Hs. apply take_ge. by rewrite length_k. }
    split; [rewrite <- Ht; apply prefix_take|].
    destruct Hpos as [(? & ? & ? & ? & ? & ? & [= <- <- <- <- <- <-] & Hsx & _) _].
    rewrite (prefix_lookup_eq _ _ _ Hsx) by lia. apply prefix_length in Hsx.
    unfold key_of in Hsx. rewrite length_abits in Hsx. apply lookup_abits. lia.
  - by destruct c.
  - by destruct c.
  - by destruct c.
  - by destruct c.
  - by destruct c.
Qed.
(** Case #4: a glue node at the first differing bit. *)
Let gl := fresh_loc (t_nodes st1).

Lemma gl_facts : t_nodes st !! gl = None ∧ gl ≠ np ∧ gl ≠ p ∧ gl ∉ clocs c ∧ gl ∉ locs l ∧ gl ∉ locs r.
Proof.
  pose proof (fresh_loc_None (t_nodes st1)) as H. fold gl in H. cbn [st1 t_nodes] in H.
  rewrite lookup_insert_None in H. destruct H as [H1 H2].
  assert (H3 : gl ∉ locs (plug c t0)).
  { intros H. destruct (flat_is_Some None _ _ H) as [? H']. rewrite <- (rep_nodes _ _ _ _ R) in H'.
    congruence. }
  rewrite locs_plug in H3. cbn in H3. set_solver.
Qed.

Lemma attach_glue_rep b st' :
  let f := Frame gl (take dd k) None None b t0 in
  dd < n → k !! dd = Some b → s !! dd = Some (negb b) →
  t_nodes st' = above_nodes gl (<[np := PNode T n (Some q) None None (Some gl) None]>
                  (<[gl := frame_node f (cpar c) (Some np)]> (t_nodes st))) →
  t_prefixes st' = <[q:=x']> (t_prefixes st) →
  t_head st' = match c with [] => Some gl | _ => t_head st end →
  t_num_active st' = (t_num_active st + 2)%Z → t_maxbits st' = t_maxbits st →
  attached (fill f leaf) st'.
Proof.
  intros f Hn Hk Hs Hnodes Hpfx Hhead Hact Hmax.
  pose proof np_facts as (F1 & F2 & F3 & F4). pose proof p_not_ctx as Hpc.
  pose proof gl_facts as (G0 & G1 & G2 & G3 & G4 & G5).
  pose proof wf_t0 as (_ & Hpre & HsW & Hno & Hl & Hr). pose proof Hx as (_ & HxL & HxW).
  assert (Er : root (fill f leaf) = Some gl) by (unfold fill; by destruct b).
  assert (Lt : length (take dd k) = dd) by (rewrite length_take, length_k; lia).
  apply (attached_intro _ _ [gl; np]); rewrite ?Er; try done.
  - rewrite !locs_fill. cbn. solve_Permutation.
  - apply NoDup_cons. split; [set_solver|apply NoDup_singleton].
  - intros i Hi. apply elem_of_cons in Hi as [->|Hi]; [done|].
    apply list_elem_of_singleton in Hi as ->. apply np_fresh.
  - rewrite !plocs_fill. cbn. solve_Permutation.
  - intros ND. rewrite pflat_fill, pflat_leaf by done. cbn [f_px f f_other put_px].
    pose proof (pflat_dom _ _ q_not_in) as Hq0. pmap_eq.
  - apply wf_fill. cbn [f_s f f_px f_other f_d f_dir]. rewrite Lt. split_and!; try done.
    + apply cpre_k.
    + lia.
    + cbn [wf]. split_and!; try done. apply prefix_of_snoc_iff. rewrite Lt, <- agree.
      split; [apply prefix_take|done].
    + apply wf_leaf, prefix_of_snoc_iff. rewrite Lt. split; [apply prefix_take|done].
  - apply fill_not_E.
  - rewrite !entries_fill. cbn. solve_Permutation.
  - intros ND. rewrite flat_fill, flat_leaf, Hnodes, nodes_st by done. unfold above_nodes.
    rewrite (cflat_retarget c (Some p) (Some gl)). cbn [f_other f f_p flat root cpar leaf].
    destruct c as [|fr c']; cbn [retarget cpar clocs] in *.
    + pmap_eq.
    + assert (f_p fr ≠ p) by set_solver. assert (f_p fr ≠ np) by set_solver.
      assert (f_p fr ≠ gl) by set_solver. pmap_eq.
Qed.

Lemma attach_glue : dd < n → dd < length s → ∃ st', attach_result st'.
Proof.
  intros Hn Hs. pose proof np_facts as (F1 & F2 & F3 & F4). pose proof (rep_width _ _ _ _ R) as HW.
  pose proof gl_facts as (G0 & G1 & G2 & G3 & G4 & G5).
  pose proof Hx as (_ & HxL & HxW). unfold attach_result, lookup_attach. rewrite attach_prologue.
  rewrite (st_bind_Ok _ _ _ _ _ (get_node_Ok _ _ _ st1_p)). cbn [n_bit mk_node n_parent].
  destruct (Nat.eqb_spec (length s) dd) as [Ha|Ha]; [lia|].
  destruct (Nat.eqb_spec n dd) as [Hb|Hb]; [lia|].
  assert (Lt : length (take dd k) = dd) by (rewrite length_take, length_k; lia).
  set (st2 := PTree T (<[gl := PNode T dd None None None (cpar c) None]> (t_nodes st1))
                (t_prefixes st1) (t_head st1) (t_maxbits st1) (t_num_active st1 + 1)).
  rewrite (st_bind_Ok (calloc_node _) _ st1 gl (set_nodes (t_nodes st2) st1) eq_refl).
  rewrite (st_bind_Ok (add_active 1) _ (set_nodes (t_nodes st2) st1) tt st2 eq_refl).
  rewrite take_right_Ok, st_lift_bind by lia. set (b := abit addr dd).
  assert (Kb : k !! dd = Some b) by (apply lookup_abits; lia).
  set (F := Frame gl (take dd k) None None b t0).
  set (st3 := set_nodes (<[np := PNode T n (Some q) None None (Some gl) None]>
                (<[gl := frame_node F (cpar c) (Some np)]> (t_nodes st))) st2).
  match goal with |- context [(?m ≫= ?g) st2] => set (mm := (m ≫= g) st2) end.
  assert (Em : mm = (replace_in_parent p (Some gl);; set_parent p (Some gl);; mret np) st3).
  { unfold mm. rewrite (st_bind_Ok _ _ _ tt
      (set_nodes (<[gl := frame_node F (cpar c) (Some np)]> (t_nodes st1)) st2)).
    2:{ assert (L : t_nodes st2 !! gl = Some (PNode T dd None None None (cpar c) None))
          by apply lookup_insert_eq.
        destruct b;
          rewrite (st_bind_Ok _ _ _ _ _ (set_r_Ok _ _ _ _ L));
          rewrite (set_l_Ok _ gl _ _ (lookup_insert_eq _ _ _));
          cbn [set_nodes t_nodes st2]; rewrite !insert_insert_eq;
          unfold F, frame_node, mk_node; cbn [f_dir f_s]; by rewrite Lt. }
    erewrite (st_bind_Ok (set_parent np _)).
    2:{ apply set_parent_Ok. cbn. rewrite lookup_insert_ne by done. apply lookup_insert_eq. }
    f_equal. unfold st3, set_nodes. cbn. f_equal. rewrite insert_insert_ne, insert_insert_eq by done.
    by rewrite insert_insert_ne. }
  rewrite Em, attach_above_tail.
  2:{ intros i Hi. cbn. rewrite !lookup_insert_ne; [done|..]; intros ->; set_solver. }
  2:{ done. }
  eexists. split; [reflexivity|]. eexists. eapply (attach_glue_rep b); try done.
  - destruct Hpos as [(? & ? & ? & ? & ? & ? & [= <- <- <- <- <- <-] & Hsx & _) _].
    assert (Hne : k !! dd ≠ sx !! dd).
    { apply lcp_lookup_ne; [by rewrite length_k|]. apply prefix_length in Hsx. lia. }
    rewrite Kb, <- (prefix_lookup_eq _ _ _ Hsx Hs) in Hne.
    destruct (lookup_lt_is_Some_2 s dd Hs) as [b' Hb']. rewrite Hb' in *. f_equal.
    destruct b, b'; done.
  - by destruct c.
  - by destruct c.
  - by destruct c.
  - destruct c; cbn; lia.
  - by destruct c.
Qed.
End Attach.
(** ** The specification of [patricia_lookup] *)
Lemma descend_plug W c t k :
  cwf W c → cpre c `prefix_of` k → descend k (plug c t) = descend k t.
Proof.
  revert t. induction c as [|f c IH]; intros t Hc Hk; [done|].
  destruct Hc as (Hpre & _ & _ & _ & Hc). cbn [cpre] in Hk.
  apply prefix_of_snoc_iff in Hk as [Hk1 Hk2]. cbn [plug].
  rewrite IH; [|done|by etrans]. unfold fill. destruct (f_dir f); cbn [descend]; by rewrite Hk2.
Qed.

Lemma find_key_at W c p k px d l r :
  wf W [] (plug c (N p k px d l r)) →
  find_key k (entries (plug c (N p k px d l r))) = (λ qx, Entry p qx.1 qx.2 d) <$> px.
Proof.
  intros Hwf. apply wf_plug in Hwf as Hw. destruct Hw as (Hc & (Hpre & _) & _).
  rewrite (find_key_descend _ _ _ Hwf), (descend_plug W) by done. cbn [descend].
  rewrite lookup_ge_None_2 by done. destruct px as [[q x]|]; [|done]. by rewrite decide_True.
Qed.

(** The outcome of an insertion: the entry that is there, or one more. *)
Definition inserted W t ext st q x (res : outcome (loc * patricia_tree_t T)) : Prop :=
  match find_key (key_of x) (entries t) with
  | Some e => res = Ok (e_node e, st)
  | None => ∃ p t' st', res = Ok (p, st') ∧ rep W t' (delete q ext) st' ∧
      t_maxbits st' = t_maxbits st ∧
      entries t' ≡ₚ Entry p q (set_ref_count (px_ref_count x + 1) x) None :: entries t
  end.

Section Lookup.
Context (W : nat) (ext : gmap loc prefix_t) (st : patricia_tree_t T) (q : loc) (x : prefix_t).
Abbreviation k := (key_of x).
Abbreviation n := (px_bitlen x).
Abbreviation x' := (set_ref_count (px_ref_count x + 1) x).
Hypothesis Hq : ext !! q = Some x.
Hypothesis Hx : pfx_ok W x.
Hypothesis Hrc : (px_ref_count x ≠ 0)%Z.

Lemma lookup_empty_spec : rep W E ext st → inserted W E ext st q x (patricia_lookup q st).
Proof.
  intros R. unfold inserted. cbn [entries find_key List.find]. unfold patricia_lookup.
  pose proof (rep_width _ _ _ _ R) as HW. pose proof Hx as (_ & _ & HxW).
  rewrite (st_bind_Ok st_get _ st st st eq_refl).
  rewrite (st_bind_Ok _ _ _ _ _ (get_prefix_Ok _ _ _ (rep_ext_prefix _ _ _ _ _ _ R Hq))).
  rewrite assertm_true by (apply Nat.leb_le; lia). rewrite (rep_head _ _ _ _ R). cbn [root].
  rewrite (st_bind_Ok _ _ _ _ _ (Ref_Prefix_Ok _ _ _ (rep_ext_prefix _ _ _ _ _ _ R Hq) Hrc)).
  set (np := fresh_loc (t_nodes st)).
  set (t1 := N np k (Some (q, x')) None E E : ptree T).
  set (st' := PTree T (<[np := PNode T n (Some q) None None None None]> (t_nodes st))
           (<[q:=x']> (t_prefixes st)) (Some np) (t_maxbits st) (t_num_active st + 1)).
  exists np, t1, st'. split; [reflexivity|].
  cut (rep W (plug [] t1) (delete q ext) st' ∧
       entries (plug [] t1) ≡ₚ Entry np q x' None :: entries (plug [] E));
    [intros [G1 G2]; split; [exact G1|by split]|].
  apply (rep_insert_intro W [] E _ ext st _ q x' _ [np]); try done.
  - apply NoDup_singleton.
  - intros i ->%list_elem_of_singleton. apply fresh_loc_None.
  - cbn. unfold key_of at 2. rewrite length_abits. split_and!; auto using prefix_nil.
  - cbn [st' t_nodes]. rewrite (rep_nodes _ _ _ _ R). cbn. rewrite !map_empty_union. unfold mk_node.
    unfold key_of. by rewrite length_abits.
Qed.

(** A glue node at the position becomes the node of the new prefix. *)
Lemma lookup_glue_mod c p d l r st' :
  rep W (plug c (N p k None d l r)) ext st →
  t_nodes st' = <[p := mk_node (cpar c) k (Some (q, x')) d (root l) (root r)]> (t_nodes st) →
  t_prefixes st' = <[q:=x']> (t_prefixes st) → t_head st' = t_head st →
  t_num_active st' = t_num_active st → t_maxbits st' = t_maxbits st →
  rep W (plug c (N p k (Some (q, x')) d l r)) (delete q ext) st' ∧
  entries (plug c (N p k (Some (q, x')) d l r)) ≡ₚ
    Entry p q x' None :: entries (plug c (N p k None d l r)).
Proof.
  intros R Hn Hp Hh Ha Hm.
  pose proof (rep_wf _ _ _ _ R) as Hw. apply wf_plug in Hw as (_ & Hw & _).
  destruct Hw as (Hw1 & Hw2 & (_ & _ & ->) & Hw3).
  pose proof (rep_nd _ _ _ _ R) as ND. apply NoDup_plug in ND as (_ & _ & ND).
  assert (Hpc : p ∉ clocs c) by (apply ND; by left).
  apply (rep_insert_intro W c _ _ ext st st' q x' p []); try done.
  - constructor.
  - set_solver.
  - rewrite Hn, (rep_nodes _ _ _ _ R), flat_plug by apply R. cbn [root flat]. pmap_eq.
  - rewrite Hh. destruct c; [|done]. rewrite (rep_head _ _ _ _ R). done.
  - cbn. lia.
Qed.

(** Where the key is not stored: the position says so. *)
Lemma position_absent c p s px d l r sx :
  wf W [] (plug c (N p s px d l r)) → position (px_add x) n sx (lcp k sx) c (N p s px d l r) →
  (lcp k sx < length s ∨ (length s = lcp k sx ∧ lcp k sx < n)) →
  find_key k (entries (plug c (N p s px d l r))) = None.
Proof.
  intros Hwf P Hcase. apply wf_plug in Hwf as Hw. destruct Hw as (Hc & Hw & _).
  pose proof (position_cpre W _ n sx c _ ltac:(apply Hx) P Hw) as Hcp.
  assert (Hcp' : cpre c `prefix_of` k) by (etrans; [exact Hcp|apply prefix_take]).
  rewrite (find_key_descend _ _ _ Hwf), (descend_plug W) by done.
  pose proof P as [(? & ? & ? & ? & ? & ? & [= <- <- <- <- <- <-] & Hs & Hd & HE) _].
  destruct Hcase as [Hlt|[Hs1 Hlt]].
  - destruct (descend k _) as [|p' s' [[q' y']|] d' l' r'] eqn:D; [done| |done].
    case_decide as Hk; [|done]. exfalso.
    destruct (entries_descend_root _ _ _ _ _ _ _ _ _ _ _ Hw D) as [He Hky].
    assert (Hw' : wf W s (N p s px d l r)) by (destruct Hw as (_ & Hw); split; [done|exact Hw]).
    destruct (wf_entries _ _ _ _ Hw' He) as [Hp _]. unfold e_key in Hp. cbn [e_x] in Hp.
    rewrite Hky, Hk in Hp. pose proof (lcp_prefix _ _ _ Hp Hs). lia.
  - specialize (HE Hs1 Hlt). cbn [descend].
    replace (k !! length s) with (Some (abit (px_add x) (length s)))
      by (symmetry; apply lookup_abits; lia).
    rewrite Hs1. destruct (abit (px_add x) (lcp k sx)); by rewrite HE.
Qed.

Lemma differ_bit_key y : pfx_ok W y →
  first_differ_bit (px_add x) (px_add y) (if length (key_of y) <? n then length (key_of y) else n) =
  Ok (lcp k (key_of y)).
Proof.
  intros (By & Ly & Wy). pose proof Hx as (Bx & Lx & Wx).
  assert (Hly : length (key_of y) = px_bitlen y) by apply length_abits. rewrite Hly.
  set (chk := if px_bitlen y <? n then px_bitlen y else n).
  assert (Hc : chk ≤ px_bitlen y ∧ chk ≤ n ∧ (n ≤ chk ∨ px_bitlen y ≤ chk)).
  { unfold chk. destruct (Nat.ltb_spec (px_bitlen y) n); lia. }
  rewrite first_differ_bit_Ok by (done || lia). f_equal.
  rewrite <- (take_abits (px_add x) chk n), <- (take_abits (px_add y) chk (px_bitlen y)) by lia.
  apply lcp_take_min. unfold key_of. rewrite !length_abits. lia.
Qed.

(** The end of [patricia_lookup], from the position on. *)
Lemma lookup_finish c t0 p y :
  rep W (plug c t0) ext st → pfx_ok W y → root t0 = Some p →
  position (px_add x) n (key_of y) (lcp k (key_of y)) c t0 →
  inserted W (plug c t0) ext st q x
    ((n' ← get_node p;
      if (lcp k (key_of y) =? n) && (n_bit n' =? n) then
        match n_prefix n' with
        | Some _ => mret p
        | None =>
            q' ← Ref_Prefix (Some q);
            set_prefix p q';;
            assertm (bool_decide (n_data n' = None));;
            mret p
        end
      else lookup_attach q (px_add x) (px_add y) n (lcp k (key_of y)) (t_maxbits st) p) st).
Proof.
  intros R Hy Hr P. pose proof P as [(p' & s & px & d & l & r & -> & Hs & Hd & HE) _].
  injection Hr as ->. pose proof (rep_wf _ _ _ _ R) as Hwf.
  rewrite (st_bind_Ok _ _ _ _ _ (get_node_Ok _ _ _ (rep_focus _ _ _ _ _ _ _ _ _ _ R))).
  cbn [mk_node n_bit n_prefix n_data]. set (dd := lcp k (key_of y)) in *.
  assert (Hlk : length k = n) by apply length_abits.
  assert (Hdn : dd ≤ n) by (rewrite <- Hlk; apply lcp_le_l).
  assert (Hatt : (dd < length s ∨ (length s = dd ∧ dd < n)) →
    inserted W (plug c (N p s px d l r)) ext st q x
      (lookup_attach q (px_add x) (px_add y) n dd (t_maxbits st) p st)).
  { intros Hcase. unfold inserted. rewrite (position_absent _ _ _ _ _ _ _ _ Hwf P Hcase).
    assert (∃ st', attach_result W c ext st q x y p s px d l r st') as (st' & H1 & t1 & H2 & H3 & H4).
    { destruct Hcase as [?|[? ?]]; [|by eapply attach_child].
      destruct (decide (dd = n)); [eapply attach_above|eapply attach_glue]; eauto; lia. }
    exists (fresh_loc (t_nodes st)), (plug c t1), st'. done. }
  destruct (Nat.eqb_spec dd n) as [E1|E1]; cbn [andb]; [|apply Hatt; lia].
  destruct (Nat.eqb_spec (length s) n) as [E2|E2]; [|apply Hatt; lia]. clear Hatt.
  assert (Es : s = k).
  { pose proof (position_agree _ _ _ _ _ _ _ _ _ _ _ P eq_refl) as A.
    fold k dd in A. rewrite !take_ge in A by lia. exact A. }
  subst s. unfold inserted. rewrite (find_key_at _ _ _ _ _ _ _ _ Hwf).
  destruct px as [[q0 x0]|]; cbn [fmap option_fmap option_map fst].
  { done. }
  rewrite (st_bind_Ok _ _ _ _ _ (Ref_Prefix_Ok _ _ _ (rep_ext_prefix _ _ _ _ _ _ R Hq) Hrc)).
  erewrite (st_bind_Ok (set_prefix p _)).
  2:{ apply set_prefix_Ok. cbn. eapply rep_focus. exact R. }
  assert (Ed : d = None) by (apply wf_plug in Hwf as (_ & (_ & _ & (_ & _ & ?) & _) & _); done).
  rewrite assertm_true by (by rewrite Ed, bool_decide_eq_true_2).
  eexists p, (plug c (N p k (Some (q, x')) d l r)), _. split; [reflexivity|].
  edestruct (lookup_glue_mod c p d l r) as [G1 G2]; [exact R|..|split; [exact G1|by split]]; done.
Qed.

Lemma lookup_spec t : rep W t ext st → inserted W t ext st q x (patricia_lookup q st).
Proof.
  intros R. destruct (root t) as [h|] eqn:Hroot; [|destruct t; [by apply lookup_empty_spec|done]].
  assert (Hne : t ≠ E) by (by intros ->). pose proof (rep_wf _ _ _ _ R) as Hwf.
  pose proof Hx as (Bx & Lx & Wx). pose proof (rep_width _ _ _ _ R) as HW.
  unfold patricia_lookup. rewrite (st_bind_Ok st_get _ st st st eq_refl).
  rewrite (st_bind_Ok _ _ _ _ _ (get_prefix_Ok _ _ _ (rep_ext_prefix _ _ _ _ _ _ R Hq))).
  rewrite assertm_true by (apply Nat.leb_le; lia). rewrite (rep_head _ _ _ _ R), Hroot. cbv zeta.
  pose proof (ldescend_spec W [] t (px_add x) n Hwf Hne ltac:(constructor)) as HD.
  destruct (lookup_descend_spec W [] t ext st (px_add x) n (node_fuel st) h R Wx Lx Hwf
    ltac:(rewrite (rep_fuel _ _ _ _ R); lia) Hroot) as (p & Hp & HL).
  rewrite (st_bind_Ok _ _ _ _ _ HL). clear HL.
  destruct (ldescend (px_add x) n [] t) as [c t0]. destruct HD as (HD1 & HD2 & HD3).
  cbn [plug snd] in *. subst t. destruct t0 as [|p0 s [[q0 y]|] d l r]; [done| |by destruct HD2].
  injection Hp as ->. destruct HD2 as [_ Hst].
  apply wf_plug in Hwf as (Hc & Hw & _). pose proof Hw as (_ & HsW & [<- Hy] & _).
  rewrite (st_bind_Ok _ _ _ _ _ (get_node_Ok _ _ _ (rep_focus _ _ _ _ _ _ _ _ _ _ R))).
  cbn [mk_node n_prefix n_bit fmap option_fmap option_map fst].
  rewrite assertm_true by done. rewrite (st_bind_Ok (deref (Some q0)) _ st q0 st eq_refl).
  rewrite (st_bind_Ok _ _ st y st).
  2:{ apply get_prefix_Ok, (rep_entry_prefix _ _ _ _ (Entry p q0 y d) R).
      rewrite entries_plug. set_solver. }
  rewrite differ_bit_key, st_lift_bind by done.
  destruct (lookup_climb_spec W c _ ext st (lcp k (key_of y)) (node_fuel st) p R
    ltac:(rewrite (rep_fuel _ _ _ _ R); apply le_n_S, length_ctx) eq_refl) as (p' & Hp' & HL).
  rewrite (st_bind_Ok _ _ _ _ _ HL). clear HL.
  assert (P := climb_position W (px_add x) n (key_of y) c _ Wx Hc Hw HD3).
  rewrite <- (climb_plug (lcp k (key_of y)) c) in R |- *.
  apply lookup_finish; try done. apply P. do 6 eexists. split; [done|]. split; [done|].
  change (abits (px_add x) n) with k. split; [apply lcp_le_r|].
  intros HL Hlt. destruct Hst as [?|?]; [lia|]. by rewrite <- HL.
Qed.
End Lookup.
End Insert.
