(* ===== verification/PatriciaRemove.v ===== *)
(** * Removal from the Patricia trie ([patricia_remove])

    A node with two children stays as a glue node, a node with one child is replaced by
    it, a leaf disappears together with a glue parent that is left with one child.  In
    each case the contents lose exactly the entry of the node, and the prefix object
    loses one reference: it is freed with the last one. *)
From S2P Require Import Prelude Patricia PatriciaBits PatriciaTree PatriciaSearch PatriciaInsert.

Section Remove.
Context {T : Type}.
Implicit Types (t l r : ptree T) (c : list (frame T)) (st : patricia_tree_t T).

(** The prefix store after one reference to [q] is dropped, given the store without [q]. *)
Definition deref_ext (q : loc) (x : prefix_t) (m : gmap loc prefix_t) : gmap loc prefix_t :=
  if (px_ref_count x =? 1)%Z then m else <[q := set_ref_count (px_ref_count x - 1) x]> m.

Lemma Deref_Prefix_Ok st q x : t_prefixes st !! q = Some x → (0 < px_ref_count x)%Z →
  Deref_Prefix (Some q) st = Ok (tt, set_prefixes (deref_ext q x (delete q (t_prefixes st))) st).
Proof.
  intros Hq Hrc. unfold Deref_Prefix, deref_ext.
  rewrite (st_bind_Ok _ _ _ _ _ (get_prefix_Ok _ _ _ Hq)).
  rewrite assertm_true by by apply Z.ltb_lt. cbv zeta.
  rewrite (st_bind_Ok (put_prefix _ _) _ st tt (set_prefixes (<[q := set_ref_count (px_ref_count x - 1) x]>
    (t_prefixes st)) st) eq_refl).
  rewrite assertm_true by (apply Z.leb_le; lia).
  destruct (Z.eqb_spec (px_ref_count x) 1) as [E|E]; destruct (Z.leb_spec (px_ref_count x - 1) 0); try lia.
  - unfold Delete_prefix. cbn. rewrite lookup_insert_eq. by rewrite delete_insert_eq.
  - cbn. by rewrite insert_delete_eq.
Qed.

Lemma deref_ext_union q x m ext : m ##ₘ ext → is_Some (m !! q) →
  deref_ext q x (delete q (m ∪ ext)) = delete q m ∪ deref_ext q x ext ∧
  delete q m ##ₘ deref_ext q x ext.
Proof.
  intros Hd [y Hq]. assert (He : ext !! q = None) by (by eapply map_disjoint_Some_l).
  assert (E : delete q (m ∪ ext) = delete q m ∪ ext).
  { by rewrite delete_union, (delete_id ext). }
  unfold deref_ext. rewrite E. destruct (_ =? _)%Z.
  - split; [done|]. eapply map_disjoint_weaken_l; [done|apply delete_subseteq].
  - rewrite insert_union_r by apply lookup_delete_eq. split; [done|].
    apply map_disjoint_insert_r. split; [apply lookup_delete_eq|].
    eapply map_disjoint_weaken_l; [done|apply delete_subseteq].
Qed.

(** Assembling the representation of the smaller tree. *)
Lemma rep_remove_intro W c t0 t1 ext st st' q x p d (gone : list loc) :
  rep W (plug c t0) ext st →
  locs t0 ≡ₚ gone ++ locs t1 → plocs t0 ≡ₚ q :: plocs t1 →
  (NoDup (plocs t0) → pflat t0 = <[q := x]> (pflat t1)) →
  wf W (cpre c) t1 → cneeds c t1 → entries t0 ≡ₚ Entry p q x d :: entries t1 →
  (NoDup (locs t1) → t_nodes st' = cflat c (root t1) ∪ flat (cpar c) t1) →
  t_prefixes st' = deref_ext q x (delete q (t_prefixes st)) →
  t_head st' = match c with [] => root t1 | _ => t_head st end →
  t_num_active st' = (t_num_active st - Z.of_nat (length gone))%Z →
  t_maxbits st' = t_maxbits st →
  rep W (plug c t1) (deref_ext q x ext) st' ∧
  entries (plug c t0) ≡ₚ Entry p q x d :: entries (plug c t1).
Proof.
  intros R Hlocs Hplocs Hpflat Hwf Hne Hent Hnodes Hpfx Hhead Hact Hmax.
  split; [|by rewrite !entries_plug, Hent].
  pose proof (rep_nd _ _ _ _ R) as ND. rewrite locs_plug, Hlocs, <- app_assoc, <- locs_plug in ND.
  apply NoDup_app in ND as (_ & _ & ND).
  pose proof (rep_pnd _ _ _ _ R) as PND. apply NoDup_pplug in PND as (PND0 & _ & _).
  pose proof (rep_pnd _ _ _ _ R) as PND. rewrite plocs_plug, Hplocs in PND. cbn in PND.
  rewrite <- plocs_plug in PND. apply NoDup_cons in PND as [Hqn PND].
  assert (HP : pflat (plug c t0) = <[q:=x]> (pflat (plug c t1))).
  { rewrite !pflat_plug by (done || apply R). rewrite (Hpflat PND0). symmetry. apply insert_union_r.
    apply cpflat_dom. intros Hc. apply Hqn. rewrite plocs_plug. set_solver. }
  assert (HP1 : pflat (plug c t1) = delete q (pflat (plug c t0))).
  { rewrite HP, delete_insert_id; [done|]. by apply pflat_dom. }
  destruct (deref_ext_union q x _ ext (rep_ext _ _ _ _ R)) as [D1 D2].
  { rewrite HP, lookup_insert_eq. by eexists. }
  constructor; try done.
  - rewrite flat_plug by done. apply Hnodes. apply NoDup_plug in ND. tauto.
  - by rewrite Hpfx, (rep_prefixes _ _ _ _ R), HP1.
  - rewrite Hhead. destruct c as [|f c]; [done|]. rewrite (rep_head _ _ _ _ R).
    apply (root_plug_cons f c).
  - rewrite Hact, (rep_active _ _ _ _ R), !locs_plug, Hlocs, !length_app. lia.
  - pose proof (rep_wf _ _ _ _ R) as Hw. apply wf_plug in Hw as (Hc & _ & _). by apply wf_plug.
  - by rewrite HP1.
  - rewrite Hmax. apply R.
  - rewrite Hmax. apply R.
Qed.

Lemma flat_reparent par par' t :
  flat par' t = match t with
                | E => ∅
                | N p s px d l r => <[p := mk_node par' s px d (root l) (root r)]> (flat par t)
                end.
Proof. destruct t; [done|]. cbn. by rewrite insert_insert_eq. Qed.

Lemma root_not_E t : t ≠ E → ∃ p, root t = Some p.
Proof. destruct t; [done|]. by eexists. Qed.

Lemma E_or_not t : t = E ∨ t ≠ E.
Proof. destruct t; [by left|by right]. Qed.

Lemma wf_weaken W pre pre' t : pre' `prefix_of` pre → wf W pre t → wf W pre' t.
Proof. destruct t; [done|]. intros H (H1 & H2). split; [by etrans|done]. Qed.

(** The pointer that the context holds to its focus [p] is set to [v]. *)
Lemma redirect_Ok c st p v :
  match c with
  | [] => t_head st = Some p
  | f :: c' => t_nodes st !! f_p f = Some (frame_node f (cpar c') (Some p)) ∧
               root (f_other f) ≠ Some p
  end →
  match cpar c with
  | None => t ← st_get; assertm (option_loc_eqb (t_head t) (Some p));; set_head v
  | Some parent =>
      pn ← get_node parent;
      if option_loc_eqb (n_r pn) (Some p) then set_r parent v
      else assertm (option_loc_eqb (n_l pn) (Some p));; set_l parent v
  end st = Ok (tt, redirect_head c v (set_nodes (retarget c v (t_nodes st)) st)).
Proof.
  intros Hc. unfold option_loc_eqb. destruct c as [|f c]; cbn [cpar].
  - rewrite (st_bind_Ok st_get _ st st st eq_refl), Hc, assertm_true by by rewrite bool_decide_eq_true_2.
    done.
  - destruct Hc as [Hf Ho]. rewrite (st_bind_Ok _ _ _ _ _ (get_node_Ok _ _ _ Hf)).
    cbn [redirect_head retarget]. unfold frame_node in *. destruct (f_dir f); cbn [n_r n_l mk_node].
    + rewrite bool_decide_eq_true_2 by done. rewrite (set_r_Ok _ _ _ _ Hf). done.
    + rewrite bool_decide_eq_false_2 by done. rewrite assertm_true by by rewrite bool_decide_eq_true_2.
      rewrite (set_l_Ok _ _ _ _ Hf). done.
Qed.

Lemma unlink_child_Ok f c st p :
  t_nodes st !! f_p f = Some (frame_node f (cpar c) (Some p)) → root (f_other f) ≠ Some p →
  (let pn := frame_node f (cpar c) (Some p) in
   if option_loc_eqb (n_r pn) (Some p) then set_r (f_p f) None;; mret (n_l pn)
   else assertm (option_loc_eqb (n_l pn) (Some p));; set_l (f_p f) None;; mret (n_r pn)) st =
  Ok (root (f_other f), set_nodes (<[f_p f := frame_node f (cpar c) None]> (t_nodes st)) st).
Proof.
  intros Hf Ho. unfold option_loc_eqb, frame_node in *. cbv zeta.
  destruct (f_dir f); cbn [n_r n_l mk_node].
  - rewrite bool_decide_eq_true_2 by done. by rewrite (st_bind_Ok _ _ _ _ _ (set_r_Ok _ _ _ _ Hf)).
  - rewrite bool_decide_eq_false_2 by done. rewrite assertm_true by by rewrite bool_decide_eq_true_2.
    by rewrite (st_bind_Ok _ _ _ _ _ (set_l_Ok _ _ _ _ Hf)).
Qed.

(** The pointer the context holds to its focus, in a store that agrees on the context. *)
Lemma rep_ctx W c t ext st st2 p :
  rep W (plug c t) ext st → root t = Some p →
  (∀ i, i ∈ clocs c → t_nodes st2 !! i = t_nodes st !! i) → t_head st2 = t_head st →
  match c with
  | [] => t_head st2 = Some p
  | f :: c' => t_nodes st2 !! f_p f = Some (frame_node f (cpar c') (Some p)) ∧ root (f_other f) ≠ Some p
  end.
Proof.
  intros R Hr Hn Hh. pose proof (rep_head _ _ _ _ R) as HR. destruct c as [|f c'].
  { by rewrite Hh, HR, <- Hr. }
  rewrite Hn by (cbn; apply elem_of_cons; by left). rewrite (rep_nodes _ _ _ _ R), <- Hr.
  split; [apply (flat_lookup_parent f c' t), R|].
  pose proof (rep_nd _ _ _ _ R) as ND. apply NoDup_plug in ND as (_ & _ & ND).
  intros H. destruct t as [|p' ? ? ? ? ?]; [done|]. injection Hr as ->. specialize (ND p).
  destruct (f_other f) eqn:Eo; [done|]. injection H as ->. apply ND; [by left|].
  cbn. rewrite Eo. set_solver.
Qed.

Lemma fill_swap f t :
  fill f t = fill (Frame (f_p f) (f_s f) (f_px f) (f_d f) (negb (f_dir f)) t) (f_other f).
Proof. unfold fill. cbn. by destruct (f_dir f). Qed.

Section Cases.
Context (W : nat) (c : list (frame T)) (ext : gmap loc prefix_t) (st : patricia_tree_t T).
Context (p : loc) (s : list bool) (q : loc) (x : prefix_t) (d : option T) (l r : ptree T).
Abbreviation t0 := (N p s (Some (q, x)) d l r).
Hypothesis R : rep W (plug c t0) ext st.
Hypothesis Hrc : (0 < px_ref_count x)%Z.

Definition removed : Prop :=
  ∃ t' st', patricia_remove p st = Ok (tt, st') ∧ rep W t' (deref_ext q x ext) st' ∧
    t_maxbits st' = t_maxbits st ∧ entries (plug c t0) ≡ₚ Entry p q x d :: entries t'.

Definition std : patricia_tree_t T := set_prefixes (deref_ext q x (delete q (t_prefixes st))) st.

Lemma deref_std : Deref_Prefix (Some q) st = Ok (tt, std).
Proof.
  apply Deref_Prefix_Ok; [|done]. apply (rep_entry_prefix _ _ _ _ (Entry p q x d) R).
  rewrite entries_plug. set_solver.
Qed.

Lemma focus_nodes : t_nodes st = cflat c (Some p) ∪
  <[p := mk_node (cpar c) s (Some (q, x)) d (root l) (root r)]> (flat (Some p) l ∪ flat (Some p) r).
Proof. rewrite (rep_nodes _ _ _ _ R), flat_plug by apply R. reflexivity. Qed.

Lemma focus_node : t_nodes st !! p = Some (mk_node (cpar c) s (Some (q, x)) d (root l) (root r)).
Proof. eapply rep_focus. exact R. Qed.

Lemma focus_apart : p ∉ clocs c ∧ p ∉ locs l ∧ p ∉ locs r ∧ NoDup (locs l) ∧ NoDup (locs r) ∧
  (∀ i, i ∈ locs l → i ∉ clocs c) ∧ (∀ i, i ∈ locs r → i ∉ clocs c) ∧ (∀ i, i ∈ locs l → i ∉ locs r).
Proof.
  pose proof (rep_nd _ _ _ _ R) as ND. apply NoDup_plug in ND as (ND & _ & Hc). cbn in *.
  apply NoDup_cons in ND as [ND1 ND]. apply NoDup_app in ND as (ND2 & ND3 & ND4). set_solver.
Qed.

Lemma focus_wf : cwf W c ∧ wf W (cpre c) t0.
Proof. pose proof (rep_wf _ _ _ _ R) as H. apply wf_plug in H. tauto. Qed.

Lemma removed_intro c' t0' t1 gone st' :
  plug c t0 = plug c' t0' →
  patricia_remove p st = Ok (tt, st') →
  locs t0' ≡ₚ gone ++ locs t1 → plocs t0' ≡ₚ q :: plocs t1 →
  (NoDup (plocs t0') → pflat t0' = <[q := x]> (pflat t1)) →
  wf W (cpre c') t1 → cneeds c' t1 → entries t0' ≡ₚ Entry p q x d :: entries t1 →
  (NoDup (locs t1) → t_nodes st' = cflat c' (root t1) ∪ flat (cpar c') t1) →
  t_prefixes st' = t_prefixes std →
  t_head st' = match c' with [] => root t1 | _ => t_head st end →
  t_num_active st' = (t_num_active st - Z.of_nat (length gone))%Z →
  t_maxbits st' = t_maxbits st → removed.
Proof.
  intros Hplug Hres. intros. unfold removed.
  destruct (rep_remove_intro W c' t0' t1 ext st st' q x p d gone) as [G1 G2];
    rewrite <- ?Hplug; try done.
  exists (plug c' t1), st'. by rewrite Hplug.
Qed.

(** #0: the node stays as a glue node. *)
Lemma remove_two : l ≠ E → r ≠ E → removed.
Proof.
  intros Hl Hr. pose proof focus_apart as (F1 & F2 & F3 & _). pose proof focus_wf as (_ & Hw).
  apply (removed_intro c t0 (N p s None None l r) [] (set_nodes (<[p :=
    mk_node (cpar c) s None None (root l) (root r)]> (t_nodes st)) std)); try done.
  - unfold patricia_remove.
    rewrite (st_bind_Ok _ _ _ _ _ (get_node_Ok _ _ _ focus_node)). cbn [mk_node n_r n_l n_prefix].
    destruct (root_not_E l Hl) as [pl El], (root_not_E r Hr) as [pr Er]. rewrite El, Er.
    rewrite (st_bind_Ok _ _ _ _ _ deref_std). erewrite (st_bind_Ok (set_prefix p _)).
    2:{ apply set_prefix_Ok. apply focus_node. }
    erewrite set_data_Ok; [|cbn; apply lookup_insert_eq]. cbn. by rewrite insert_insert_eq, El, Er.
  - destruct Hw as (? & ? & _ & ?). done.
  - by destruct c.
  - intros _. cbn [set_nodes t_nodes]. rewrite focus_nodes. cbn [flat root]. pmap_eq.
  - cbn. rewrite (rep_head _ _ _ _ R). by destruct c.
  - cbn. lia.
Qed.
Lemma focus_ctx st2 : (∀ i, i ∈ clocs c → t_nodes st2 !! i = t_nodes st !! i) → t_head st2 = t_head st →
  match c with
  | [] => t_head st2 = Some p
  | f :: c' => t_nodes st2 !! f_p f = Some (frame_node f (cpar c') (Some p)) ∧ root (f_other f) ≠ Some p
  end.
Proof. apply (rep_ctx W c t0 ext st st2 p R eq_refl). Qed.

(** #2: the only child [ch] takes the place of the node. *)
Lemma remove_one_nodes ch pc sc pxc dc lc rc st2 :
  ch = N pc sc pxc dc lc rc → (l = ch ∧ r = E) ∨ (l = E ∧ r = ch) →
  st2 = set_nodes (delete p (<[pc := mk_node (cpar c) sc pxc dc (root lc) (root rc)]> (t_nodes st))) std →
  (∀ i, i ∈ clocs c → t_nodes st2 !! i = t_nodes st !! i) ∧
  retarget c (Some pc) (t_nodes st2) = cflat c (root ch) ∪ flat (cpar c) ch.
Proof.
  intros Ech Hlr ->. pose proof focus_apart as (F1 & F2 & F3 & F4 & F5 & F6 & F7 & F8).
  assert (Hpc : pc ∉ clocs c ∧ p ∉ locs ch).
  { assert (pc ∈ locs ch) by (rewrite Ech; left). destruct Hlr as [[-> ->]|[-> ->]]; auto. }
  destruct Hpc as [Hpc Hpch]. assert (p ≠ pc) by (rewrite Ech in Hpch; set_solver).
  split; [intros i Hi; cbn; rewrite lookup_delete_ne, lookup_insert_ne by set_solver; done|].
  assert (Eu : flat (Some p) l ∪ flat (Some p) r = flat (Some p) ch).
  { destruct Hlr as [[-> ->]|[-> ->]]; cbn; by rewrite ?map_union_empty, ?map_empty_union. }
  rewrite (flat_reparent (Some p) (cpar c) ch), (cflat_retarget c (Some p) (root ch)).
  cbn [set_nodes t_nodes]. rewrite focus_nodes, Eu. assert (Hf := flat_dom (Some p) ch p Hpch).
  rewrite Ech in *. cbn [root]. set (fl := flat (Some p) _) in *. clearbody fl.
  destruct c as [|fr c']; cbn [retarget cpar clocs] in *; [pmap_eq|].
  assert (f_p fr ≠ p) by set_solver. assert (f_p fr ≠ pc) by set_solver. pmap_eq.
Qed.

Lemma prefix_st : t_prefixes st !! q = Some x.
Proof.
  apply (rep_entry_prefix _ _ _ _ (Entry p q x d) R). rewrite entries_plug. set_solver.
Qed.

Lemma remove_one_steps pc nc (K : ST (patricia_tree_t T) unit) :
  t_nodes st !! pc = Some nc → p ≠ pc →
  (set_parent pc (cpar c);; Deref_Prefix (Some q);; Delete_node p;; add_active (-1);; K) st =
  K (PTree T (delete p (<[pc := PNode T (n_bit nc) (n_prefix nc) (n_l nc) (n_r nc) (cpar c) (n_data nc)]>
        (t_nodes st))) (t_prefixes std) (t_head st) (t_maxbits st) (t_num_active st + -1)).
Proof.
  intros Hnc Hne. rewrite (st_bind_Ok _ _ _ _ _ (set_parent_Ok _ _ _ _ Hnc)).
  erewrite st_bind_Ok; [|apply Deref_Prefix_Ok; [apply prefix_st|done]].
  erewrite (st_bind_Ok (Delete_node p));
    [|unfold Delete_node; cbn; rewrite lookup_insert_ne, focus_node by done; reflexivity].
  reflexivity.
Qed.

Lemma remove_one ch : ch ≠ E → (l = ch ∧ r = E) ∨ (l = E ∧ r = ch) → removed.
Proof.
  intros Hne Hlr. pose proof focus_apart as (F1 & F2 & F3 & F4 & F5 & F6 & F7 & F8).
  pose proof focus_wf as (_ & Hw1 & Hw2 & Hw3 & Hw4 & Hw5).
  destruct ch as [|pc sc pxc dc lc rc] eqn:Ech; [done|]. rewrite <- Ech in *.
  set (st2 := set_nodes (delete p (<[pc := mk_node (cpar c) sc pxc dc (root lc) (root rc)]>
                (t_nodes st))) std).
  destruct (remove_one_nodes ch pc sc pxc dc lc rc st2 Ech Hlr eq_refl) as [Hc Hnodes].
  set (st3 := PTree T (t_nodes st2) (t_prefixes st2) (t_head st2) (t_maxbits st2) (t_num_active st2 + -1)).
  assert (Hpin : p ∉ locs ch) by (destruct Hlr as [[-> ->]|[-> ->]]; done).
  assert (Hne' : p ≠ pc) by (rewrite Ech in Hpin; set_solver).
  assert (Hch : t_nodes st !! pc = Some (mk_node (Some p) sc pxc dc (root lc) (root rc))).
  { destruct Hlr as [[El Er]|[El Er]]; pose proof R as R'; rewrite El, Er, Ech in R'.
    - rewrite (plug_child false) in R'. apply rep_focus in R'. exact R'.
    - rewrite (plug_child true) in R'. apply rep_focus in R'. exact R'. }
  apply (removed_intro c t0 ch [p] (redirect_head c (Some pc)
    (set_nodes (retarget c (Some pc) (t_nodes st3)) st3))); try done.
  - unfold patricia_remove.
    rewrite (st_bind_Ok _ _ _ _ _ (get_node_Ok _ _ _ focus_node)). cbn [mk_node n_r n_l n_prefix n_parent].
    rewrite <- (redirect_Ok c st3 p (Some pc) (focus_ctx st3 Hc eq_refl)).
    destruct Hlr as [[El Er]|[El Er]]; rewrite El, Er, Ech; cbn [root];
      rewrite (st_bind_Ok (deref (Some pc)) _ st pc st eq_refl), (remove_one_steps _ _ _ Hch Hne');
      reflexivity.
  - destruct Hlr as [[-> ->]|[-> ->]]; cbn; by rewrite ?app_nil_r.
  - destruct Hlr as [[-> ->]|[-> ->]]; cbn; by rewrite ?app_nil_r.
  - intros _. destruct Hlr as [[-> ->]|[-> ->]]; cbn; by rewrite ?map_union_empty, ?map_empty_union.
  - assert (Hp : ∀ b, cpre c `prefix_of` s ++ [b]) by (intros; etrans; [exact Hw1|by apply prefix_app_r]).
    destruct Hlr as [[<- _]|[_ <-]]; (eapply wf_weaken; [apply Hp|eassumption]).
  - destruct c; [done|]. intros _. done.
  - destruct Hlr as [[-> ->]|[-> ->]]; cbn; by rewrite ?app_nil_r.
  - intros _. rewrite <- Hnodes. by destruct c.
  - by destruct c.
  - rewrite Ech. by destruct c.
  - by destruct c.
  - by destruct c.
Qed.

(** #1: a leaf. *)
Definition stl : patricia_tree_t T :=
  PTree T (delete p (t_nodes st)) (t_prefixes std) (t_head st) (t_maxbits st) (t_num_active st + -1).

Lemma remove_leaf_steps (K : ST (patricia_tree_t T) unit) :
  (Deref_Prefix (Some q);; Delete_node p;; add_active (-1);; K) st = K stl.
Proof.
  rewrite (st_bind_Ok _ _ _ _ _ deref_std).
  erewrite (st_bind_Ok (Delete_node p));
    [|unfold Delete_node; cbn; rewrite focus_node by done; reflexivity].
  reflexivity.
Qed.

Lemma stl_ctx i : i ∈ clocs c → t_nodes stl !! i = t_nodes st !! i.
Proof.
  intros Hi. pose proof focus_apart as (F1 & _). cbn. rewrite lookup_delete_ne; [done|]. intros ->. done.
Qed.

(** The parent (or the head) keeps its place. *)
Lemma remove_leaf : l = E → r = E → (∀ f c', c = f :: c' → f_px f ≠ None) → removed.
Proof.
  intros El Er Hpx. pose proof focus_apart as (F1 & _).
  pose proof (focus_ctx stl stl_ctx eq_refl) as HC.
  apply (removed_intro c t0 E [p] (redirect_head c None (set_nodes (retarget c None (t_nodes stl)) stl)));
    try done.
  - unfold patricia_remove. rewrite (st_bind_Ok _ _ _ _ _ (get_node_Ok _ _ _ focus_node)).
    cbn [mk_node n_r n_l n_prefix n_parent fmap option_fmap option_map fst].
    rewrite El, Er. cbn [root]. rewrite remove_leaf_steps.
    destruct c as [|f c'] eqn:Ec; cbn [cpar].
    + rewrite (st_bind_Ok st_get _ stl stl stl eq_refl), HC.
      by rewrite assertm_true by by apply bool_decide_eq_true_2.
    + destruct HC as [HC1 HC2]. rewrite (st_bind_Ok _ _ _ _ _ (get_node_Ok _ _ _ HC1)).
      rewrite (st_bind_Ok _ _ _ _ _ (unlink_child_Ok f c' stl p HC1 HC2)).
      specialize (Hpx f c' eq_refl). cbn [redirect_head retarget]. unfold frame_node.
      destruct (f_px f) as [[q' x']|]; [|done]. by destruct (f_dir f).
  - by rewrite El, Er.
  - by rewrite El, Er.
  - intros _. by rewrite El, Er.
  - unfold cneeds. destruct c as [|f c'] eqn:Ec; [done|]. intros H. by destruct (Hpx f c' eq_refl).
  - by rewrite El, Er.
  - intros _. transitivity (retarget c None (delete p (t_nodes st))); [by destruct c|].
    rewrite focus_nodes, El, Er. cbn [flat root]. rewrite (cflat_retarget c (Some p) None).
    destruct c as [|fr c']; cbn [retarget clocs] in *; [pmap_eq|]. assert (f_p fr ≠ p) by set_solver. pmap_eq.
  - by destruct c.
  - by destruct c.
  - by destruct c.
  - by destruct c.
Qed.

(** The glue parent goes with the leaf: its other child takes its place. *)
Lemma remove_glue_nodes f c' pc sc pxc dc lc rc m :
  c = f :: c' → l = E → r = E → f_other f = N pc sc pxc dc lc rc →
  m = retarget c' (Some pc) (<[f_p f := frame_node f (cpar c') None]> (delete p (t_nodes st))) →
  delete (f_p f) (<[pc := mk_node (cpar c') sc pxc dc (root lc) (root rc)]> m)
  = cflat c' (Some pc) ∪ flat (cpar c') (f_other f).
Proof.
  intros Ec El Er Eo ->. pose proof (rep_nd _ _ _ _ R) as ND. apply NoDup_plug in ND as (_ & ND & _).
  pose proof focus_apart as (F1 & _). pose proof focus_nodes as HN.
  rewrite El, Er, Ec in HN. rewrite Ec in F1, ND. clear Ec. cbn [clocs cflat flat root] in *.
  apply NoDup_cons in ND as [ND1 ND]. apply NoDup_app in ND as (_ & ND2 & _).
  assert (Hpc : pc ∈ locs (f_other f)) by (rewrite Eo; left).
  assert (Hd : flat (Some (f_p f)) (f_other f) ##ₘ cflat c' (Some (f_p f))).
  { apply map_disjoint_spec. intros i y z H1%flat_Some_in H2%cflat_Some_in. by eapply ND2. }
  rewrite (map_union_comm _ _ Hd) in HN.
  rewrite (flat_reparent (Some (f_p f)) (cpar c')), (cflat_retarget c' (Some (f_p f)) (Some pc)), HN.
  assert (Hf1 := flat_dom (Some (f_p f)) (f_other f) (f_p f) ltac:(set_solver)).
  assert (Hf2 := flat_dom (Some (f_p f)) (f_other f) p ltac:(set_solver)).
  assert (Hg1 : f_p f ∉ clocs c') by set_solver. assert (Hg2 : p ∉ clocs c') by set_solver.
  assert (Hg3 : pc ∉ clocs c') by auto.
  assert (f_p f ≠ pc) by set_solver. assert (f_p f ≠ p) by set_solver. assert (p ≠ pc) by set_solver.
  clear HN Hd ND1 ND2 Hpc F1. rewrite Eo in *.
  set (fl := flat (Some (f_p f)) _) in *. clearbody fl.
  destruct c' as [|fr c'']; cbn [retarget cpar clocs] in *; [pmap_eq|].
  assert (f_p fr ≠ p) by set_solver. assert (f_p fr ≠ pc) by set_solver.
  assert (f_p fr ≠ f_p f) by set_solver. set (cf := cflat _ _) in *.
  assert (cf !! f_p f = None) by (apply cflat_dom; done).
  assert (cf !! p = None) by (apply cflat_dom; done).
  assert (cf !! pc = None) by (apply cflat_dom; done). clearbody cf. pmap_eq.
Qed.

Section Glue.
Context (f : frame T) (c' : list (frame T)) (pc : loc) (sc : list bool).
Context (pxc : option (loc * prefix_t)) (dc : option T) (lc rc : ptree T).
Hypothesis El : l = E.
Hypothesis Er : r = E.
Hypothesis Ec : c = f :: c'.
Hypothesis Hpx : f_px f = None.
Hypothesis Eo : f_other f = N pc sc pxc dc lc rc.

Lemma glue_rep : rep W (plug c' (fill f t0)) ext st.
Proof. pose proof R as R'. by rewrite Ec in R'. Qed.

Lemma glue_pc : t_nodes st !! pc = Some (mk_node (Some (f_p f)) sc pxc dc (root lc) (root rc)).
Proof.
  pose proof glue_rep as R'. rewrite fill_swap, Eo in R'. exact (rep_focus _ (_ :: c') _ _ _ _ _ _ _ _ R').
Qed.

Lemma glue_apart : f_p f ≠ pc ∧ p ≠ pc ∧ f_p f ≠ p ∧ p ∉ clocs c' ∧ f_p f ∉ clocs c' ∧ pc ∉ clocs c'.
Proof.
  pose proof focus_apart as (F1 & _).
  pose proof (rep_nd _ _ _ _ R) as ND. apply NoDup_plug in ND as (_ & ND & _).
  rewrite Ec in ND, F1. cbn [clocs] in ND, F1. rewrite Eo in ND, F1. cbn [locs] in ND, F1.
  apply NoDup_cons in ND as [ND1 ND]. apply NoDup_app in ND as (_ & ND2 & _).
  specialize (ND2 pc ltac:(left)). set_solver.
Qed.

Definition st4 : patricia_tree_t T :=
  set_nodes (<[f_p f := frame_node f (cpar c') None]> (t_nodes stl)) stl.
Definition st5 : patricia_tree_t T :=
  redirect_head c' (Some pc) (set_nodes (retarget c' (Some pc) (t_nodes st4)) st4).
Definition st6 : patricia_tree_t T :=
  PTree T (delete (f_p f) (<[pc := mk_node (cpar c') sc pxc dc (root lc) (root rc)]> (t_nodes st5)))
    (t_prefixes std) (t_head st5) (t_maxbits st) (t_num_active st - 2).

Lemma st5_nodes : t_nodes st5 = retarget c' (Some pc) (t_nodes st4).
Proof. unfold st5. by destruct c'. Qed.

Lemma glue_exec : patricia_remove p st = Ok (tt, st6).
Proof.
  pose proof (focus_ctx stl stl_ctx eq_refl) as HC. rewrite Ec in HC. destruct HC as [HC1 HC2].
  pose proof glue_apart as (N1 & N2 & N3 & N4 & N5 & N6).
  unfold patricia_remove. rewrite (st_bind_Ok _ _ _ _ _ (get_node_Ok _ _ _ focus_node)).
  cbn [mk_node n_r n_l n_prefix n_parent fmap option_fmap option_map fst].
  rewrite El, Er, Ec. cbn [root cpar]. rewrite remove_leaf_steps.
  rewrite (st_bind_Ok _ _ _ _ _ (get_node_Ok _ _ _ HC1)).
  rewrite (st_bind_Ok _ _ _ _ _ (unlink_child_Ok f c' stl p HC1 HC2)).
  replace (n_prefix (frame_node f (cpar c') (Some p))) with (@None loc)
    by (unfold frame_node; rewrite Hpx; by destruct (f_dir f)).
  replace (n_parent (frame_node f (cpar c') (Some p))) with (cpar c')
    by (unfold frame_node; by destruct (f_dir f)).
  rewrite Eo. cbn [root]. fold st4.
  rewrite (st_bind_Ok _ _ _ _ _ (redirect_Ok c' st4 (f_p f) (Some pc)
    (rep_ctx W c' (fill f t0) ext st st4 (f_p f) glue_rep ltac:(unfold fill; by destruct (f_dir f))
       ltac:(intros i Hi; cbn; rewrite lookup_insert_ne, lookup_delete_ne by (intros ?; subst i; done); done)
       eq_refl))). fold st5.
  rewrite (st_bind_Ok (deref (Some pc)) _ st5 pc st5 eq_refl).
  erewrite (st_bind_Ok (set_parent pc (cpar c'))).
  2:{ apply set_parent_Ok. rewrite st5_nodes, lookup_retarget_ne by done. cbn.
      rewrite lookup_insert_ne, lookup_delete_ne by done. apply glue_pc. }
  erewrite (st_bind_Ok (Delete_node (f_p f))).
  2:{ unfold Delete_node. cbn. rewrite lookup_insert_ne by done.
      rewrite st5_nodes, lookup_retarget_ne by done. cbn. rewrite lookup_insert_eq. reflexivity. }
  unfold add_active, st6. cbn. do 2 f_equal. unfold st5, st4. destruct c'; cbn; f_equal; lia.
Qed.

Lemma remove_leaf_glue : removed.
Proof.
  pose proof focus_wf as (Hcw & _). rewrite Ec in Hcw. destruct Hcw as (Hw1 & _ & _ & Hw4 & _).
  assert (Efill : fill f t0 = fill f (N p s (Some (q, x)) d E E)) by by rewrite El, Er.
  apply (removed_intro c' (fill f t0) (f_other f) [f_p f; p] st6); rewrite ?Efill; try done.
  - by rewrite Ec, El, Er.
  - apply glue_exec.
  - rewrite locs_fill. cbn. solve_Permutation.
  - rewrite plocs_fill, Hpx. cbn. solve_Permutation.
  - intros PND. rewrite pflat_fill, Hpx by done. cbn. rewrite map_empty_union.
    rewrite plocs_fill, Hpx in PND. cbn in PND. apply NoDup_app in PND as (_ & PND & _).
    assert (Hq : pflat (f_other f) !! q = None) by (apply pflat_dom; set_solver). pmap_eq.
  - eapply wf_weaken; [|exact Hw4]. etrans; [exact Hw1|by apply prefix_app_r].
  - rewrite Eo. by destruct c'.
  - rewrite entries_fill, Hpx. cbn. solve_Permutation.
  - intros _. rewrite Eo at 1. cbn [root st6 t_nodes].
    eapply (remove_glue_nodes f c'); [done..|]. apply st5_nodes.
  - rewrite Eo. cbn. unfold st5. by destruct c'.
Qed.
End Glue.

Lemma remove_all : removed.
Proof.
  pose proof focus_wf as (Hcw & _).
  destruct (E_or_not l) as [El|El]; destruct (E_or_not r) as [Er|Er].
  - assert (Hc : c = [] ∨ ∃ f c', c = f :: c') by (destruct c; eauto).
    destruct Hc as [Ec|(f & c' & Ec)]; [apply remove_leaf; congruence|].
    destruct (f_px f) eqn:Hpx; [apply remove_leaf; congruence|].
    rewrite Ec in Hcw. destruct Hcw as (_ & _ & Hw & _). rewrite Hpx in Hw. destruct Hw as [Hw _].
    destruct (f_other f) eqn:Eo; [done|]. by eapply remove_leaf_glue.
  - by apply (remove_one r); auto.
  - by apply (remove_one l); auto.
  - by apply remove_two.
Qed.
End Cases.

(** Removing an entry of the tree. *)
Lemma remove_spec W t ext st e :
  rep W t ext st → e ∈ entries t → (0 < px_ref_count (e_x e))%Z →
  ∃ t' st', patricia_remove (e_node e) st = Ok (tt, st') ∧
    rep W t' (deref_ext (e_q e) (e_x e) ext) st' ∧ t_maxbits st' = t_maxbits st ∧
    entries t ≡ₚ e :: entries t'.
Proof.
  intros R He Hrc. destruct (entry_focus _ _ He) as (c & s & l & r & ->). destruct e.
  by eapply remove_all.
Qed.
End Remove.
