(* ===== verification/PatriciaWalk.v ===== *)
(** * Walking, clearing and updating the Patricia trie in place

    [PATRICIA_WALK] visits the nodes with a prefix in the order of [entries] and its
    fixed stack of 129 pointers never overflows; [Clear_Patricia] frees every node and
    drops one reference to every prefix; the assignments the clients make through a node
    pointer change one entry. *)
From S2P Require Import Prelude Patricia PatriciaBits PatriciaTree PatriciaSearch PatriciaInsert.
From S2P Require Import PatriciaRemove.

Section Walk.
Context {T : Type}.
Implicit Types (t l r : ptree T) (c : list (frame T)) (st : patricia_tree_t T).

(** A pending right child: it is not empty, and fewer nodes are pending below it than
    the bits it extends. *)
Fixpoint pending (W : nat) (ts : list (ptree T)) : Prop :=
  match ts with
  | [] => True
  | t :: ts' => t ≠ E ∧ (∃ pre, wf W pre t ∧ length ts' < length pre) ∧ pending W ts'
  end.

Definition roots (ts : list (ptree T)) : list loc := omap root ts.

Lemma length_roots W ts : pending W ts → length (roots ts) = length ts.
Proof.
  induction ts as [|t ts IH]; [done|]. intros (Hne & _ & H). cbn.
  destruct t; [done|]. cbn. by rewrite <- IH.
Qed.

Lemma pending_not_E W ts u : pending W ts → u ∈ ts → u ≠ E.
Proof.
  induction ts as [|t ts IH]; [set_solver|]. intros (Hne & _ & H) Hu.
  apply elem_of_cons in Hu as [->|Hu]; auto.
Qed.

(** The next subtree and the pending ones after a node with children [l] and [r]. *)
Definition next_trees l r (ts : list (ptree T)) : ptree T * list (ptree T) :=
  match l, r with
  | N _ _ _ _ _ _, N _ _ _ _ _ _ => (l, r :: ts)
  | N _ _ _ _ _ _, E => (l, ts)
  | E, N _ _ _ _ _ _ => (r, ts)
  | E, E => match ts with t :: ts' => (t, ts') | [] => (E, []) end
  end.

Lemma next_trees_E W l r ts t' ts' : pending W ts → next_trees l r ts = (t', ts') → t' = E → ts' = [].
Proof.
  intros HP. destruct l, r; cbn; try (intros [= <- <-]; done).
  destruct ts as [|u us]; intros [= <- <-]; [done|]. by destruct HP.
Qed.

Definition all_entries (ts : list (ptree T)) : list (entry T) := ts ≫= entries.
Definition all_locs (ts : list (ptree T)) : list loc := ts ≫= locs.

Lemma walk_next_spec W pre p s px d l r ts :
  W ≤ PATRICIA_MAXBITS → wf W pre (N p s px d l r) → length ts ≤ length pre → pending W ts →
  let '(t', ts') := next_trees l r ts in
  walk_next (root l) (root r) (roots ts) = Ok (root t', roots ts') ∧
  (∃ pre', wf W pre' t' ∧ length ts' ≤ length pre') ∧ pending W ts' ∧
  entries l ++ entries r ++ all_entries ts = entries t' ++ all_entries ts' ∧
  locs l ++ locs r ++ all_locs ts = locs t' ++ all_locs ts' ∧
  (∀ u, u ∈ t' :: ts' → u = E ∨ u = l ∨ u = r ∨ u ∈ ts).
Proof.
  intros HW (Hpre & HsW & _ & Hl & Hr) Hts HP. apply prefix_length in Hpre.
  assert (Hlen : ∀ b : bool, length (s ++ [b]) = S (length s)) by (intros; rewrite length_app; simpl; lia).
  destruct l as [|pl sl pxl dl ll lr]; destruct r as [|pr sr pxr dr rl rr]; cbn [next_trees].
  - destruct ts as [|t' ts']; cbn [roots omap list_omap].
    + split_and!; try done; [|set_solver]. by exists [].
    + destruct HP as (Hne & (pre' & Hw & Hlt) & HP). split_and!; try done.
      * destruct t'; [done|]. done.
      * exists pre'. split; [done|lia].
      * set_solver.
  - split_and!; try done; [|set_solver]. exists (s ++ [true]). rewrite Hlen. split; [done|lia].
  - split_and!; try done; [|set_solver]. exists (s ++ [false]). rewrite Hlen. split; [done|lia].
  - split_and!; try done; [| | |set_solver].
    + cbn [root walk_next]. rewrite push_Ok; [done|]. rewrite (length_roots W) by done. lia.
    + exists (s ++ [false]). rewrite Hlen. split; [done|]. simpl. lia.
    + cbn [pending]. split_and!; [done| |done]. exists (s ++ [true]). rewrite Hlen. split; [done|lia].
Qed.

(** A subtree of the represented tree. *)
Definition subtree t0 t : Prop := ∃ c, plug c t = t0.

Lemma subtree_l t0 p s px d l r : subtree t0 (N p s px d l r) → subtree t0 l.
Proof. intros [c <-]. exists (Frame p s px d false r :: c). reflexivity. Qed.
Lemma subtree_r t0 p s px d l r : subtree t0 (N p s px d l r) → subtree t0 r.
Proof. intros [c <-]. exists (Frame p s px d true l :: c). reflexivity. Qed.

Lemma walk_loop_spec W t0 ext st t ts fuel pre :
  rep W t0 ext st → subtree t0 t → Forall (subtree t0) ts →
  wf W pre t → length ts ≤ length pre → pending W ts → (t = E → ts = []) →
  length (locs t ++ all_locs ts) ≤ fuel →
  walk_loop fuel (root t) (roots ts) st = Ok (e_node <$> (entries t ++ all_entries ts), st).
Proof.
  intros R. revert t ts pre. induction fuel as [|fuel IH]; intros t ts pre Ht Hts Hwf Hlen HP HE Hf;
    (destruct t as [|p s px d l r]; [by rewrite (HE eq_refl)|]); [cbn in Hf; lia|].
  cbn [walk_loop root]. destruct Ht as [c Hc]. 
  rewrite (st_bind_Ok _ _ _ _ _ (get_node_Ok st p (mk_node (cpar c) s px d (root l) (root r))
    ltac:(eapply rep_focus; rewrite Hc; exact R))). cbn [mk_node n_l n_r n_prefix].
  pose proof (rep_width _ _ _ _ R). pose proof (rep_maxbits _ _ _ _ R).
  pose proof (walk_next_spec W pre p s px d l r ts ltac:(lia) Hwf Hlen HP) as HN.
  assert (Hn0 := λ t' ts', next_trees_E W l r ts t' ts' HP).
  destruct (next_trees l r ts) as [t' ts']. destruct HN as (-> & (pre' & Hw' & Hl') & HP' & He & Hlo & Hin).
  specialize (Hn0 t' ts' eq_refl). rewrite st_lift_bind. cbn [locs length] in Hf.
  assert (Hsub : ∀ u, u ∈ t' :: ts' → u ≠ E → subtree t0 u).
  { intros u Hu Hne. destruct (Hin u Hu) as [?|[->|[->|?]]]; [done| | |].
    - eapply subtree_l. by exists c.
    - eapply subtree_r. by exists c.
    - rewrite Forall_forall in Hts. auto. }
  rewrite (st_bind_Ok _ _ st (e_node <$> (entries t' ++ all_entries ts')) st).
  - cbn [mret st_ret entries]. rewrite <- !app_assoc, He. do 2 f_equal. destruct px as [[q x]|]; done.
  - destruct (E_or_not t') as [->|Hne]; [rewrite Hn0 by done; by destruct fuel|].
    apply (IH t' ts' pre'); try done.
    + apply Hsub; [left|done].
    + apply Forall_forall. intros u Hu. apply Hsub; [by right|]. by eapply pending_not_E.
    + rewrite <- Hlo. cbn in Hf. rewrite !length_app in Hf |- *. lia.
Qed.

(** ** [PATRICIA_WALK] and its clients *)
Lemma walk_spec W t ext st : rep W t ext st → PATRICIA_WALK st = Ok (e_node <$> entries t, st).
Proof.
  intros R. unfold PATRICIA_WALK. rewrite (st_bind_Ok st_get _ st st st eq_refl), (rep_head _ _ _ _ R).
  etrans; [apply (walk_loop_spec W t ext st t [] (node_fuel st) [] R); try done|].
  - by exists [].
  - apply R.
  - rewrite (rep_fuel _ _ _ _ R), app_nil_r. lia.
  - by rewrite app_nil_r.
Qed.

(** The node of an entry. *)
Lemma rep_entry_node W t ext st e : rep W t ext st → e ∈ entries t →
  ∃ n, t_nodes st !! e_node e = Some n ∧ n_prefix n = Some (e_q e) ∧ n_data n = e_d e.
Proof.
  intros R He. destruct (entry_focus _ _ He) as (c & s & l & r & ->).
  eexists. split; [eapply rep_focus; exact R|]. done.
Qed.

(** [patricia_process] calls back with the prefix and the data of every entry. *)
Lemma process_spec W t ext st :
  rep W t ext st → patricia_process st = Ok ((λ e, (e_x e, e_d e)) <$> entries t, st).
Proof.
  intros R. unfold patricia_process. rewrite (st_bind_Ok _ _ _ _ _ (walk_spec _ _ _ _ R)).
  assert (Hsub : ∀ e, e ∈ entries t → e ∈ entries t) by done. revert Hsub.
  generalize (entries t) at 1 3 4 as es. induction es as [|e es IH]; intros Hsub; [done|].
  assert (He : e ∈ entries t) by (apply Hsub; left).
  cbn [fmap list_fmap]. destruct (rep_entry_node _ _ _ _ e R He) as (n & Hn & Hp & Hd).
  rewrite (st_bind_Ok _ _ _ _ _ (get_node_Ok _ _ _ Hn)), Hp.
  rewrite (st_bind_Ok (deref (Some (e_q e))) _ st (e_q e) st eq_refl).
  rewrite (st_bind_Ok _ _ _ _ _ (get_prefix_Ok _ _ _ (rep_entry_prefix _ _ _ _ _ R He))).
  rewrite (st_bind_Ok _ _ _ _ _ (IH (λ e' H, Hsub e' (list_elem_of_further _ _ _ H)))). by rewrite Hd.
Qed.

(** Entries in the order of the keys: the left subtree, the node, the right subtree. *)
Fixpoint inorder (t : ptree T) : list (entry T) :=
  match t with E => [] | N p _ px d l r => inorder l ++ own p px d ++ inorder r end.

Lemma inorder_entries t : inorder t ≡ₚ entries t.
Proof.
  induction t as [|p s px d l IHl r IHr]; [done|]. cbn. rewrite IHl, IHr. solve_Permutation.
Qed.

Lemma walk_inorder_spec W t0 ext st t p fuel :
  rep W t0 ext st → subtree t0 t → root t = Some p → length (locs t) ≤ fuel →
  patricia_walk_inorder fuel p st = Ok ((length (inorder t), e_node <$> inorder t), st).
Proof.
  intros R. revert p fuel. induction t as [|p0 s px d l IHl r IHr]; intros p fuel Ht Hr Hf; [done|].
  injection Hr as ->. cbn [locs length] in Hf. rewrite length_app in Hf.
  destruct fuel as [|fuel]; [lia|]. cbn [patricia_walk_inorder].
  destruct Ht as [c Hc].
  rewrite (st_bind_Ok _ _ _ _ _ (get_node_Ok st p (mk_node (cpar c) s px d (root l) (root r))
    ltac:(eapply rep_focus; rewrite Hc; exact R))). cbn [mk_node n_l n_r n_prefix].
  assert (Hl : match root l with Some l' => patricia_walk_inorder fuel l' | None => mret (0, []) end st =
    Ok ((length (inorder l), e_node <$> inorder l), st)).
  { destruct (root l) as [pl|] eqn:El; [|by destruct l]. apply IHl; [|done|lia].
    eapply subtree_l. by exists c. }
  assert (Hrr : match root r with Some r' => patricia_walk_inorder fuel r' | None => mret (0, []) end st =
    Ok ((length (inorder r), e_node <$> inorder r), st)).
  { destruct (root r) as [pr|] eqn:Er; [|by destruct r]. apply IHr; [|done|lia].
    eapply subtree_r. by exists c. }
  rewrite (st_bind_Ok _ _ _ _ _ Hl), (st_bind_Ok _ _ _ _ _ Hrr). cbn [mret st_ret fst snd inorder].
  rewrite !fmap_app, !length_app, Nat.add_assoc. by destruct px as [[q x]|].
Qed.
(** ** Clearing *)

(** The nodes of [t] are in the store, whatever their parent pointers say (the parents
    are freed before their children). *)
Fixpoint holds (m : gmap loc (patricia_node_t T)) (t : ptree T) : Prop :=
  match t with
  | E => True
  | N p s px d l r =>
      (∃ par, m !! p = Some (mk_node par s px d (root l) (root r))) ∧ holds m l ∧ holds m r ∧
      (px = None → d = None)
  end.

Lemma holds_delete m t p : p ∉ locs t → holds m t → holds (delete p m) t.
Proof.
  induction t as [|p0 s px d l IHl r IHr]; [done|]. cbn. rewrite not_elem_of_cons, not_elem_of_app.
  intros (? & ? & ?) ((par & Hp) & Hl & Hr & Hd). rewrite lookup_delete_ne by done. eauto 10.
Qed.

Lemma rep_holds W t ext st : rep W t ext st → holds (t_nodes st) t.
Proof.
  intros R. cut (∀ u, subtree t u → (∃ pre, wf W pre u) → holds (t_nodes st) u).
  { intros H. apply H; [by exists []|]. exists []. apply R. }
  induction u as [|p s px d l IHl r IHr]; intros Hu (pre & Hw); [done|]. cbn.
  destruct Hw as (_ & _ & Hn & Hl & Hr). destruct Hu as [c Hc]. split_and!.
  - eexists. eapply rep_focus. rewrite Hc. exact R.
  - apply IHl; [|by eexists]. eapply subtree_l. by exists c.
  - apply IHr; [|by eexists]. eapply subtree_r. by exists c.
  - intros ->. apply Hn.
Qed.

(** The prefix store after one reference to each prefix of [es] is dropped. *)
Definition drop_refs (es : list (entry T)) (m : gmap loc prefix_t) : gmap loc prefix_t :=
  foldl (λ m e, deref_ext (e_q e) (e_x e) (delete (e_q e) m)) m es.

Lemma drop_refs_app es1 es2 m : drop_refs (es1 ++ es2) m = drop_refs es2 (drop_refs es1 m).
Proof. apply foldl_app. Qed.

Record clearing (W : nat) (ts : list (ptree T)) (st : patricia_tree_t T) : Prop := {
  cl_holds : Forall (holds (t_nodes st)) ts;
  cl_dom : ∀ i, is_Some (t_nodes st !! i) → i ∈ all_locs ts;
  cl_nd : NoDup (all_locs ts);
  cl_px : ∀ e, e ∈ all_entries ts → t_prefixes st !! e_q e = Some (e_x e) ∧ (0 < px_ref_count (e_x e))%Z;
  cl_pnd : NoDup (e_q <$> all_entries ts)
}.

Lemma lookup_deref_ext_ne q x m i : q ≠ i → deref_ext q x (delete q m) !! i = m !! i.
Proof.
  intros H. unfold deref_ext. destruct (_ =? _)%Z; rewrite ?lookup_insert_ne by done; by apply lookup_delete_ne.
Qed.

(** One iteration of the loop: the node's prefix and the node are released. *)
Definition freed (p : loc) (es : list (entry T)) st : patricia_tree_t T :=
  PTree T (delete p (t_nodes st)) (drop_refs es (t_prefixes st)) (t_head st) (t_maxbits st)
    (t_num_active st + -1).

Lemma clear_step W p s px d l r ts st n {B} (K : ST (patricia_tree_t T) B) :
  clearing W (N p s px d l r :: ts) st → t_nodes st !! p = Some n →
  n_prefix n = (fst <$> px) → n_data n = d →
  (match n_prefix n with
   | Some _ => Deref_Prefix (n_prefix n)
   | None => assertm (bool_decide (n_data n = None))
   end;; Delete_node p;; add_active (-1);; K) st = K (freed p (own p px d) st).
Proof.
  intros [Hh _ _ Hpx _] Hn Hp Hd. rewrite Hp, Hd. destruct px as [[q x]|]; cbn [fmap option_fmap option_map fst].
  - destruct (Hpx (Entry p q x d)) as [Hq Hrc]; [cbn; set_solver|].
    rewrite (st_bind_Ok _ _ _ _ _ (Deref_Prefix_Ok _ _ _ Hq Hrc)).
    erewrite (st_bind_Ok (Delete_node p)); [|unfold Delete_node; cbn; rewrite Hn; reflexivity].
    reflexivity.
  - apply Forall_cons in Hh as [(_ & _ & _ & Hd0) _]. rewrite (Hd0 eq_refl).
    rewrite assertm_true by done.
    erewrite (st_bind_Ok (Delete_node p)); [|unfold Delete_node; rewrite Hn; reflexivity].
    reflexivity.
Qed.

Lemma clearing_next W p s px d l r ts st t' ts' :
  clearing W (N p s px d l r :: ts) st →
  entries l ++ entries r ++ all_entries ts = entries t' ++ all_entries ts' →
  locs l ++ locs r ++ all_locs ts = locs t' ++ all_locs ts' →
  (∀ u, u ∈ t' :: ts' → u = E ∨ u = l ∨ u = r ∨ u ∈ ts) →
  clearing W (t' :: ts') (freed p (own p px d) st).
Proof.
  intros [Hh Hdom Hnd Hpx Hpnd] He Hl Hin.
  change (all_locs (N p s px d l r :: ts)) with (p :: (locs l ++ locs r) ++ all_locs ts) in *.
  rewrite <- app_assoc in Hnd, Hdom.
  apply NoDup_cons in Hnd as [Hnp Hnd]. apply Forall_cons in Hh as [(_ & Hhl & Hhr & _) Hh].
  assert (Hsplit : all_entries (N p s px d l r :: ts) = own p px d ++ all_entries (t' :: ts')).
  { change ((own p px d ++ entries l ++ entries r) ++ all_entries ts =
      own p px d ++ entries t' ++ all_entries ts'). rewrite <- !app_assoc. by rewrite He. }
  rewrite Hsplit, fmap_app in Hpnd. apply NoDup_app in Hpnd as (_ & Hpd & Hpnd).
  constructor; cbn [freed t_nodes t_prefixes].
  - apply Forall_forall. intros u Hu. apply holds_delete.
    + intros Hp. apply Hnp. rewrite Hl. change (p ∈ all_locs (t' :: ts')). apply list_elem_of_bind. eauto.
    + destruct (Hin u Hu) as [->|[->|[->|Hu']]]; [done..|]. rewrite Forall_forall in Hh. auto.
  - intros i. rewrite lookup_delete. case_decide; [by intros [? ?]|]. intros Hi.
    change (i ∈ locs t' ++ all_locs ts'). rewrite <- Hl. specialize (Hdom i Hi). set_solver.
  - change (NoDup (locs t' ++ all_locs ts')). by rewrite <- Hl.
  - intros e He'. destruct (Hpx e) as [Hq Hrc]; [rewrite Hsplit; set_solver|]. split; [|done].
    destruct px as [[q x]|]; [|done]. cbn. rewrite lookup_deref_ext_ne; [done|].
    intros Eq. apply (Hpd q); [cbn; set_solver|]. rewrite Eq. apply list_elem_of_fmap. eauto.
  - done.
Qed.

Lemma clear_loop_spec W t ts st fuel pre :
  W ≤ PATRICIA_MAXBITS → clearing W (t :: ts) st → 
  wf W pre t → length ts ≤ length pre → pending W ts → (t = E → ts = []) →
  length (locs t ++ all_locs ts) ≤ fuel →
  ∃ st', clear_loop fuel (root t) (roots ts) st = Ok (tt, st') ∧ t_nodes st' = ∅ ∧
    t_prefixes st' = drop_refs (entries t ++ all_entries ts) (t_prefixes st) ∧
    t_num_active st' = (t_num_active st - Z.of_nat (length (locs t ++ all_locs ts)))%Z.
Proof.
  intros HW. revert t ts st pre. induction fuel as [|fuel IH];
    intros t ts st pre HC Hwf Hlen HP HE Hf;
    (destruct t as [|p s px d l r];
     [rewrite (HE eq_refl) in *; exists st; split_and!; try done;
      [apply map_empty; intros i; apply eq_None_not_Some; intros Hi;
       apply (cl_dom _ _ _ HC) in Hi; set_solver|cbn; lia]|]); [cbn in Hf; lia|].
  cbn [clear_loop root]. pose proof (cl_holds _ _ _ HC) as Hh.
  apply Forall_cons in Hh as [((par & Hp) & _) _].
  rewrite (st_bind_Ok _ _ _ _ _ (get_node_Ok _ _ _ Hp)).
  rewrite (clear_step W p s px d l r ts st _ _ HC Hp eq_refl eq_refl). cbn [mk_node n_l n_r].
  pose proof (walk_next_spec W pre p s px d l r ts HW Hwf Hlen HP) as HN.
  assert (Hn0 := λ t' ts', next_trees_E W l r ts t' ts' HP).
  destruct (next_trees l r ts) as [t' ts']. destruct HN as (-> & (pre' & Hw' & Hl') & HP' & He & Hlo & Hin).
  specialize (Hn0 t' ts' eq_refl). rewrite st_lift_bind.
  assert (Hlen' : length (locs (N p s px d l r) ++ all_locs ts) = S (length (locs t' ++ all_locs ts'))).
  { rewrite <- Hlo. cbn. by rewrite <- app_assoc. }
  destruct (IH t' ts' (freed p (own p px d) st) pre') as (st' & H1 & H2 & H3 & H4); try done.
  { by eapply clearing_next. }
  { lia. }
  exists st'. split_and!; try done.
  - rewrite H3. cbn [freed t_prefixes entries]. rewrite <- drop_refs_app, <- He.
    by rewrite <- !app_assoc.
  - rewrite H4, Hlen'. cbn [freed t_num_active]. lia.
Qed.

Lemma drop_refs_last m es ext : Forall (λ e, px_ref_count (e_x e) = 1%Z) es →
  drop_refs es (m ∪ ext) = foldl (λ m e, delete (e_q e) m) (m ∪ ext) es.
Proof.
  generalize (m ∪ ext) as m'. induction es as [|e es IH]; intros m' HF; [done|].
  apply Forall_cons in HF as [He HF]. cbn. unfold deref_ext at 2. rewrite He. by apply IH.
Qed.

Lemma foldl_delete_lookup (es : list (entry T)) (m : gmap loc prefix_t) i :
  foldl (λ m e, delete (e_q e) m) m es !! i = if decide (i ∈ e_q <$> es) then None else m !! i.
Proof.
  revert m. induction es as [|e es IH]; intros m; cbn; [done|]. rewrite IH.
  rewrite lookup_delete. repeat case_decide; set_solver.
Qed.

Lemma plocs_entries t : plocs t ≡ₚ e_q <$> entries t.
Proof.
  induction t as [|p s px d l IHl r IHr]; [done|]. cbn. rewrite !fmap_app, IHl, IHr.
  by destruct px as [[q x]|].
Qed.

(** [Clear_Patricia] frees every node; with one reference to each prefix of the tree it
    frees these as well and leaves the caller's prefixes. *)
Lemma clear_spec W t ext st :
  rep W t ext st → Forall (λ e, (0 < px_ref_count (e_x e))%Z) (entries t) →
  ∃ st', Clear_Patricia st = Ok (tt, st') ∧ t_nodes st' = ∅ ∧ t_num_active st' = 0%Z ∧
    t_prefixes st' = drop_refs (entries t) (t_prefixes st).
Proof.
  intros R Hrc. unfold Clear_Patricia. rewrite (st_bind_Ok st_get _ st st st eq_refl), (rep_head _ _ _ _ R).
  destruct (clear_loop_spec W t [] st (node_fuel st) []) as (st' & H1 & H2 & H3 & H4); try done.
  - etrans; apply R.
  - constructor; cbn; rewrite ?app_nil_r; try apply R.
    + apply Forall_singleton. by eapply rep_holds.
    + intros i [n Hi]. rewrite (rep_nodes _ _ _ _ R) in Hi. by eapply flat_Some_in.
    + intros e He. split; [by eapply rep_entry_prefix|]. rewrite Forall_forall in Hrc. auto.
    + rewrite <- plocs_entries. apply R.
  - apply R.
  - rewrite (rep_fuel _ _ _ _ R), app_nil_r. lia.
  - exists st'. cbn [all_locs all_entries mbind list_bind] in *. rewrite app_nil_r in *.
    rewrite (rep_active _ _ _ _ R), Z.sub_diag in H4. split_and!; try done.
    rewrite (st_bind_Ok _ _ st tt st').
    + rewrite (st_bind_Ok st_get _ st' st' st' eq_refl), H4. done.
    + destruct (root t) eqn:Hr; [exact H1|]. destruct t; [|done]. by destruct (node_fuel st).
Qed.

Lemma drop_all W t ext st :
  rep W t ext st → Forall (λ e, px_ref_count (e_x e) = 1%Z) (entries t) →
  drop_refs (entries t) (t_prefixes st) = ext.
Proof.
  intros R Hrc. rewrite (rep_prefixes _ _ _ _ R), drop_refs_last by done.
  apply map_eq. intros i. rewrite foldl_delete_lookup, lookup_union.
  pose proof (rep_ext _ _ _ _ R) as Hd.
  case_decide as Hi; rewrite <- plocs_entries in Hi.
  - destruct (pflat_is_Some _ _ Hi) as [x Hx]. symmetry. by eapply map_disjoint_Some_l.
  - rewrite pflat_dom by done. by destruct (ext !! i).
Qed.

(** ** Updates in place *)

(** Exactly one entry of [t] is replaced: [e] by [e']. *)
Definition replaces t e t' e' : Prop :=
  ∃ es, entries t ≡ₚ e :: es ∧ entries t' ≡ₚ e' :: es.

Lemma rep_update W t ext st e x' d' st' :
  rep W t ext st → e ∈ entries t → px_family x' = px_family (e_x e) →
  px_bitlen x' = px_bitlen (e_x e) → px_add x' = px_add (e_x e) →
  (∀ n, t_nodes st !! e_node e = Some n → t_nodes st' =
     <[e_node e := PNode T (n_bit n) (n_prefix n) (n_l n) (n_r n) (n_parent n) d']> (t_nodes st)) →
  t_prefixes st' = <[e_q e := x']> (t_prefixes st) →
  t_head st' = t_head st → t_num_active st' = t_num_active st → t_maxbits st' = t_maxbits st →
  ∃ t', rep W t' ext st' ∧ replaces t e t' (Entry (e_node e) (e_q e) x' d').
Proof.
  intros R He Hf Hb Ha Hn Hp Hh Hact Hm. destruct (entry_focus _ _ He) as (c & s & l & r & ->).
  destruct e as [p q x d]. cbn [e_node e_q e_x e_d] in *.
  exists (plug c (N p s (Some (q, x')) d' l r)). split.
  2:{ exists (entries l ++ entries r ++ centries c). rewrite !entries_plug. cbn. by rewrite <- !app_assoc. }
  pose proof (rep_focus _ _ _ _ _ _ _ _ _ _ R) as Hfoc. specialize (Hn _ Hfoc).
  pose proof (rep_nd _ _ _ _ R) as ND. pose proof (rep_pnd _ _ _ _ R) as PND.
  pose proof ND as ND'. apply NoDup_plug in ND' as (_ & _ & NDc).
  pose proof PND as PND'. apply NoDup_pplug in PND' as (_ & _ & PNDc).
  assert (ND2 : NoDup (locs (plug c (N p s (Some (q, x')) d' l r)))).
  { rewrite locs_plug in *. exact ND. }
  assert (PND2 : NoDup (plocs (plug c (N p s (Some (q, x')) d' l r)))).
  { rewrite plocs_plug in *. exact PND. }
  assert (Hpp : pflat (plug c (N p s (Some (q, x')) d' l r)) =
                <[q:=x']> (pflat (plug c (N p s (Some (q, x)) d l r)))).
  { rewrite !pflat_plug by done. cbn [pflat put_px]. assert (q ∉ cplocs c) by (apply PNDc; cbn; set_solver).
    pmap_eq. }
  constructor; try done.
  - rewrite Hn, (rep_nodes _ _ _ _ R), !flat_plug by done. cbn [root flat mk_node n_bit n_l n_r n_parent n_prefix].
    assert (p ∉ clocs c) by (apply NDc; left). pmap_eq.
  - rewrite Hp, (rep_prefixes _ _ _ _ R), Hpp. by rewrite <- insert_union_l.
  - rewrite Hh, (rep_head _ _ _ _ R). by apply root_plug.
  - rewrite Hact, (rep_active _ _ _ _ R), !locs_plug. done.
  - pose proof (rep_wf _ _ _ _ R) as Hw. apply wf_plug in Hw as (Hc & (W1 & W2 & (W3 & W4) & W5) & Hne).
    apply wf_plug. split; [done|]. split; [|by destruct c].
    cbn. unfold key_of, pfx_ok in *. rewrite Hb, Ha. done.
  - rewrite Hpp. apply map_disjoint_insert_l. split; [|apply R].
    eapply map_disjoint_Some_l; [apply R|]. rewrite pflat_plug by done.
    rewrite lookup_union_r by (apply cpflat_dom, PNDc; cbn; set_solver). cbn. apply lookup_insert_eq.
  - rewrite Hm. apply R.
  - rewrite Hm. apply R.
Qed.

(** [node->data = d]. *)
Lemma set_data_spec W t ext st e d' :
  rep W t ext st → e ∈ entries t →
  ∃ t' st', set_data (e_node e) d' st = Ok (tt, st') ∧ rep W t' ext st' ∧
    t_maxbits st' = t_maxbits st ∧ replaces t e t' (Entry (e_node e) (e_q e) (e_x e) d').
Proof.
  intros R He. destruct (rep_entry_node _ _ _ _ _ R He) as (n & Hn & _ & _).
  rewrite (set_data_Ok _ _ _ _ Hn).
  set (st' := set_nodes _ st). destruct (rep_update W t ext st e (e_x e) d' st') as (t' & R' & Ht'); try done.
  - intros n' Hn'. simplify_eq. done.
  - cbn. symmetry. apply insert_id. by eapply rep_entry_prefix.
  - exists t', st'. done.
Qed.

(** A reference to the prefix of an entry is dropped, but not the last one. *)
Lemma deref_entry_spec W t ext st e :
  rep W t ext st → e ∈ entries t → (1 < px_ref_count (e_x e))%Z →
  ∃ t' st', Deref_Prefix (Some (e_q e)) st = Ok (tt, st') ∧ rep W t' ext st' ∧
    t_maxbits st' = t_maxbits st ∧
    replaces t e t' (Entry (e_node e) (e_q e) (set_ref_count (px_ref_count (e_x e) - 1) (e_x e)) (e_d e)).
Proof.
  intros R He Hrc. pose proof (rep_entry_prefix _ _ _ _ _ R He) as Hq.
  rewrite (Deref_Prefix_Ok _ _ _ Hq) by lia. unfold deref_ext.
  destruct (Z.eqb_spec (px_ref_count (e_x e)) 1); [lia|]. rewrite insert_delete_eq.
  set (x' := set_ref_count (px_ref_count (e_x e) - 1) (e_x e)).
  set (st' := set_prefixes (<[e_q e := x']> (t_prefixes st)) st).
  destruct (rep_entry_node _ _ _ _ _ R He) as (n0 & Hn0 & _ & Hd0).
  destruct (rep_update W t ext st e x' (e_d e) st') as (t' & R' & Ht'); try done.
  - intros n' Hn'. rewrite Hn0 in Hn'. injection Hn' as <-. cbn. symmetry. apply insert_id.
    rewrite Hn0, <- Hd0. by destruct n0.
  - exists t', st'. done.
Qed.

(** ** The caller's own prefixes *)
Lemma rep_ext_insert W t ext st q x :
  rep W t ext st → t_prefixes st !! q = None →
  rep W t (<[q:=x]> ext) (set_prefixes (<[q:=x]> (t_prefixes st)) st).
Proof.
  intros R Hq. rewrite (rep_prefixes _ _ _ _ R) in Hq. apply lookup_union_None in Hq as [Hq1 Hq2].
  constructor; try apply R; cbn.
  - rewrite (rep_prefixes _ _ _ _ R). by apply insert_union_r.
  - apply map_disjoint_insert_r. split; [done|apply R].
Qed.

Lemma rep_ext_delete W t ext st q x :
  rep W t ext st → ext !! q = Some x →
  rep W t (delete q ext) (set_prefixes (delete q (t_prefixes st)) st).
Proof.
  intros R Hq. assert (Hq1 : pflat t !! q = None) by (eapply map_disjoint_Some_r; [apply R|done]).
  constructor; try apply R; cbn.
  - rewrite (rep_prefixes _ _ _ _ R), delete_union. f_equal. by apply delete_id.
  - eapply map_disjoint_weaken_r; [apply R|apply delete_subseteq].
Qed.

(** [New_Prefix] followed by [Deref_Prefix] of the same prefix is neutral. *)
Lemma deref_ext_spec W t ext st q x :
  rep W t ext st → ext !! q = Some x → px_ref_count x = 1%Z →
  ∃ st', Deref_Prefix (Some q) st = Ok (tt, st') ∧ rep W t (delete q ext) st' ∧
    t_maxbits st' = t_maxbits st.
Proof.
  intros R Hq Hrc. rewrite (Deref_Prefix_Ok _ _ _ (rep_ext_prefix _ _ _ _ _ _ R Hq)) by lia.
  unfold deref_ext. rewrite Hrc. eexists. split; [done|]. split; [|done]. by eapply rep_ext_delete.
Qed.
End Walk.
