(* ===== verification/IpAddr.v ===== *)
(** * IP prefixes (common/cpp/src/lib/ip_addr.cpp, include/p4p/ip_addr.h)

    [IPPrefix] is a family, a union of 16 address bytes and a 16-bit length.  The
    constructors normalise it (the bits past the length are zero), so that
    [compare_dst], which looks at raw bytes, orders and identifies prefixes.  The name
    services [getaddrinfo] and [getnameinfo] are parameters. *)
From S2P Require Import Prelude Patricia PatriciaBits.
From Stdlib Require Import Ascii.

Record IPPrefix := MkIPPrefix {
  family_ : Z;
  address_ : list Z;       (* the 16 bytes of the union *)
  length_ : Z              (* unsigned short *)
}.

Definition sizeof_Address : nat := 16.
Definition sizeof_addr4 : nat := 4.
Definition sizeof_addr6 : nat := 16.

(** ** Masking *)
Definition mask_bits (buf : list Z) (len bits : nat) : list Z :=
  let i := bits / 8 in
  if len <=? i then buf
  else
    take i buf ++
    [u8 (Z.land (default 0%Z (buf !! i)) (Z.shiftl 255 (Z.of_nat (8 - bits `mod` 8))))] ++
    replicate (len - (i + 1)) 0%Z ++ drop len buf.

Definition get_addr_size (family : Z) : Z :=
  if (family =? AF_UNSPEC)%Z then 0
  else if (family =? AF_INET)%Z then Z.of_nat sizeof_addr4
  else if (family =? AF_INET6)%Z then Z.of_nat sizeof_addr6
  else USHRT_MAX.

Definition IPPrefix_INVALID : IPPrefix := MkIPPrefix AF_UNSPEC (replicate sizeof_Address 0%Z) 0.

Definition normalize (p : IPPrefix) : IPPrefix :=
  if (family_ p =? AF_INET)%Z then
    MkIPPrefix (family_ p) (mask_bits (address_ p) sizeof_addr4 (Z.to_nat (length_ p))) (length_ p)
  else if (family_ p =? AF_INET6)%Z then
    MkIPPrefix (family_ p) (mask_bits (address_ p) sizeof_addr6 (Z.to_nat (length_ p))) (length_ p)
  else p.

(** [memcpy (&address_, src, n)] onto the union. *)
Definition copy_address (old src : list Z) (n : nat) : outcome (list Z) :=
  b ← memcpy src n; mret (b ++ drop n old).

(** [IPPrefix (family, address, length)]; the address is a pointer that may be null. *)
Definition IPPrefix_raw (family : Z) (address : option (list Z)) (len : Z) : outcome IPPrefix :=
  let addr_size := get_addr_size family in
  if (addr_size =? USHRT_MAX)%Z then Fault (Throw "Invalid address family")
  else
    let length_ := Z.min len (u16 (addr_size * 8)) in
    let zero := replicate sizeof_Address 0%Z in
    match address with
    | None => mret (MkIPPrefix family zero length_)
    | Some a =>
        bytes ← copy_address zero a (Z.to_nat addr_size);
        mret (normalize (MkIPPrefix family bytes length_))
    end.

(** ** Comparison *)

(** The sign of [memcmp]. *)
Fixpoint memcmp (a b : list Z) : Z :=
  match a, b with
  | x :: a', y :: b' => if (x <? y)%Z then -1 else if (y <? x)%Z then 1 else memcmp a' b'
  | _, _ => 0
  end.

Definition compare_dst (p rhs : IPPrefix) : Z :=
  if negb (family_ p =? family_ rhs)%Z then (family_ p - family_ rhs)%Z
  else if negb (length_ p =? length_ rhs)%Z then (length_ p - length_ rhs)%Z
  else memcmp (address_ p) (address_ rhs).

Definition IPPrefix_lt (p rhs : IPPrefix) : bool := (compare_dst p rhs <? 0)%Z.
Definition IPPrefix_eq (p rhs : IPPrefix) : bool := (compare_dst p rhs =? 0)%Z.

(** ** Text *)
Definition text := list ascii.
Definition slash : ascii := "/"%char.

(** [rfind ('/')] with the text before and after the last slash. *)
Fixpoint rsplit (c : ascii) (s : text) : option (text * text) :=
  match s with
  | [] => None
  | a :: s' =>
      match rsplit c s' with
      | Some (b, rest) => Some (a :: b, rest)
      | None => if decide (a = c) then Some ([], s') else None
      end
  end.

Definition is_space (c : ascii) : bool :=
  let n := nat_of_ascii c in (n =? 32) || ((9 <=? n) && (n <=? 13)).
Definition digit_of (c : ascii) : option Z :=
  let n := nat_of_ascii c in
  if (48 <=? n) && (n <=? 57) then Some (Z.of_nat n - 48)%Z else None.

Fixpoint skip_space (s : text) : text :=
  match s with c :: s' => if is_space c then skip_space s' else s | [] => [] end.

(** The digits at the front: their number and what follows. *)
Fixpoint digits (acc : Z) (s : text) : Z * text :=
  match s with
  | c :: s' => match digit_of c with Some d => digits (acc * 10 + d) s' | None => (acc, s) end
  | [] => (acc, [])
  end.

(** [strtoul (s, &errptr, 10)] with a 64-bit [unsigned long]. *)
Definition strtoul (s : text) : Z * text :=
  let s1 := skip_space s in
  let '(neg, s2) := match s1 with
                    | c :: s' => if decide (c = "-"%char) then (true, s')
                                 else if decide (c = "+"%char) then (false, s') else (false, s1)
                    | [] => (false, s1)
                    end in
  match s2 with
  | c :: _ => match digit_of c with
              | Some _ =>
                  let '(v, rest) := digits 0 s2 in
                  let v' := Z.min v (2 ^ 64 - 1)%Z in
                  (if neg && (v <? 2 ^ 64)%Z then u64 (- v') else v', rest)
              | None => (0%Z, s)
              end
  | [] => (0%Z, s)
  end.

Section Text.
(** [getaddrinfo] with [AI_NUMERICHOST]: the family and the address bytes of the first
    result; [getnameinfo] with [NI_NUMERICHOST]: the text of an address. *)
Variable getaddrinfo : text → option (Z * list Z).
Variable getnameinfo : Z → list Z → option text.

(** [IPPrefix (const std::string&, length)].  The constructor does not initialise
    [address_]: [old] are the bytes that the object's memory held before. *)
Definition IPPrefix_string (old : list Z) (address : text) (len : Z) : outcome IPPrefix :=
  let cont (addrpart : text) (len : Z) :=
    match getaddrinfo addrpart with
    | None => mret IPPrefix_INVALID
    | Some (fam, bytes) =>
        if (fam =? AF_INET)%Z || (fam =? AF_INET6)%Z then
          a ← copy_address old bytes (if (fam =? AF_INET)%Z then sizeof_addr4 else sizeof_addr6);
          mret (normalize (MkIPPrefix fam a (Z.min len (u16 (get_addr_size fam * 8)))))
        else mret IPPrefix_INVALID
    end in
  match rsplit slash address with
  | None => cont address len
  | Some (addrpart, rest) =>
      match rest with
      | [] => cont addrpart USHRT_MAX
      | _ => let '(v, err) := strtoul rest in
             match err with [] => cont addrpart (u16 v) | _ => mret IPPrefix_INVALID end
      end
  end.

Definition get_address_text (p : IPPrefix) : outcome text :=
  if (family_ p =? AF_INET)%Z || (family_ p =? AF_INET6)%Z then
    let n := if (family_ p =? AF_INET)%Z then sizeof_addr4 else sizeof_addr6 in
    match getnameinfo (family_ p) (take n (address_ p)) with
    | Some s => Ok s
    | None => Fault (Throw "illegal state: failed to convert address to text")
    end
  else Fault (Throw "attempted to convert invalid address to string").

(** Decimal digits of a number below [10 ^ fuel]. *)
Fixpoint decimal (fuel : nat) (z : Z) : text :=
  match fuel with
  | 0 => []
  | S k => if (z <? 10)%Z then [ascii_of_nat (48 + Z.to_nat z)]
           else decimal k (z / 10) ++ [ascii_of_nat (48 + Z.to_nat (z mod 10))]
  end.
Definition print_ushort (z : Z) : text := decimal 5 z.

(** [os << prefix] *)
Definition IPPrefix_print (p : IPPrefix) : outcome text :=
  s ← get_address_text p;
  mret (if (length_ p <? get_addr_size (family_ p) * 8)%Z then s ++ [slash] ++ print_ushort (length_ p)
        else s).
End Text.

(** ** Masking *)
Lemma length_mask_bits buf len bits :
  len ≤ length buf → length (mask_bits buf len bits) = length buf.
Proof.
  intros H. unfold mask_bits. destruct (Nat.leb_spec len (bits / 8)); [done|].
  rewrite !length_app, length_take, length_replicate, length_drop. cbn [length].
  generalize dependent (bits / 8). lia.
Qed.

Lemma testbit_mask b k j : (0 ≤ b < 256)%Z → k ≤ 8 → j < 8 →
  Z.testbit (u8 (Z.land b (Z.shiftl 255 (Z.of_nat (8 - k))))) (7 - Z.of_nat j) =
  Z.testbit b (7 - Z.of_nat j) && (j <? k).
Proof.
  intros Hb Hk Hj. unfold u8. rewrite Z.mod_pow2_bits_low by lia.
  rewrite Z.land_spec. f_equal. rewrite Z.shiftl_spec by lia.
  change 255%Z with (Z.ones 8). destruct (Nat.ltb_spec j k).
  - rewrite Z.ones_spec_low by lia. done.
  - rewrite Z.testbit_neg_r by lia. done.
Qed.

(** [mask_bits] keeps the first [bits] bits and clears the others up to [len] bytes. *)
Lemma abit_mask buf len bits i :
  bytes_ok buf → len ≤ length buf → i < 8 * len →
  abit (mask_bits buf len bits) i = abit buf i && (i <? bits).
Proof.
  intros Hok Hlen Hi. unfold mask_bits, abit.
  pose proof (Nat.div_mod_eq i 8). pose proof (mod8_lt i).
  pose proof (Nat.div_mod_eq bits 8). pose proof (mod8_lt bits).
  assert (Hd : i / 8 < len) by (apply Nat.Div0.div_lt_upper_bound; lia).
  destruct (Nat.leb_spec len (bits / 8)) as [Hle|Hlt].
  { destruct (Nat.ltb_spec i bits); [by rewrite andb_true_r|]. lia. }
  set (n := bits / 8) in *. set (m := i / 8) in *.
  assert (Lt : length (take n buf) = n) by (rewrite length_take; lia).
  destruct (lt_eq_lt_dec m n) as [[Hlt'|Heq]|Hgt].
  - rewrite lookup_app_l, lookup_take_lt by lia.
    destruct (Nat.ltb_spec i bits); [by rewrite andb_true_r|lia].
  - rewrite lookup_app_r, Lt, Heq, Nat.sub_diag by lia. cbn [lookup list_lookup app default].
    destruct (lookup_lt_is_Some_2 buf n ltac:(lia)) as [b Hb]. rewrite Hb. cbn [default].
    unfold id. rewrite testbit_mask by (try (apply (Forall_lookup_1 _ _ _ _ Hok Hb)); lia).
    f_equal. destruct (Nat.ltb_spec (i `mod` 8) (bits `mod` 8)), (Nat.ltb_spec i bits); lia || done.
  - rewrite lookup_app_r, Lt by lia. rewrite lookup_app_r by (cbn [length]; lia). cbn [length].
    rewrite lookup_app_l by (rewrite length_replicate; lia).
    rewrite lookup_replicate_2 by lia. cbn [default]. rewrite Z.testbit_0_l.
    destruct (Nat.ltb_spec i bits); [lia|]. by rewrite andb_false_r.
Qed.

(** ** Well-formed prefixes: what every constructor returns *)
Definition addr_bytes (family : Z) : nat :=
  if (family =? AF_INET)%Z then sizeof_addr4
  else if (family =? AF_INET6)%Z then sizeof_addr6 else 0.

Record ip_ok (p : IPPrefix) : Prop := {
  ip_family : family_ p = AF_INET ∨ family_ p = AF_INET6;
  ip_bytes : bytes_ok (address_ p);
  ip_size : length (address_ p) = sizeof_Address;
  ip_len : (0 ≤ length_ p ≤ 8 * Z.of_nat (addr_bytes (family_ p)))%Z;
  ip_norm : ∀ i, Z.to_nat (length_ p) ≤ i < 8 * addr_bytes (family_ p) → abit (address_ p) i = false;
  ip_tail : ∀ i, addr_bytes (family_ p) ≤ i < sizeof_Address → address_ p !! i = Some 0%Z
}.

(** The bits a prefix stands for. *)
Definition ip_key (p : IPPrefix) : list bool := abits (address_ p) (Z.to_nat (length_ p)).

Lemma bytes_ok_app a b : bytes_ok (a ++ b) ↔ bytes_ok a ∧ bytes_ok b.
Proof. apply Forall_app. Qed.

Lemma bytes_ok_mask buf len bits : bytes_ok buf → bytes_ok (mask_bits buf len bits).
Proof.
  intros H. unfold mask_bits. destruct (_ <=? _); [done|].
  apply bytes_ok_app. split; [by apply Forall_take|]. apply bytes_ok_app. split.
  - apply Forall_singleton. apply Z.mod_pos_bound. lia.
  - apply bytes_ok_app. split; [by apply Forall_replicate|by apply Forall_drop].
Qed.

Lemma lookup_mask_tail buf len bits i :
  len ≤ length buf → len ≤ i → mask_bits buf len bits !! i = buf !! i.
Proof.
  intros Hl Hi. unfold mask_bits. destruct (Nat.leb_spec len (bits / 8)) as [|H]; [done|].
  set (n := bits / 8) in *. rewrite lookup_app_r; rewrite length_take; [|lia].
  rewrite lookup_app_r by (cbn [length]; lia).
  rewrite lookup_app_r by (rewrite length_replicate; cbn [length]; lia).
  rewrite lookup_drop, length_replicate. f_equal. cbn [length]. lia.
Qed.

Lemma normalize_ok fam bytes len :
  fam = AF_INET ∨ fam = AF_INET6 → bytes_ok bytes → length bytes = sizeof_Address →
  (0 ≤ len ≤ 8 * Z.of_nat (addr_bytes fam))%Z →
  (∀ i, addr_bytes fam ≤ i < sizeof_Address → bytes !! i = Some 0%Z) →
  ip_ok (normalize (MkIPPrefix fam bytes len)) ∧
  ip_key (normalize (MkIPPrefix fam bytes len)) = abits bytes (Z.to_nat len).
Proof.
  intros Hf Hb Hs Hl Ht.
  assert (E : normalize (MkIPPrefix fam bytes len) =
              MkIPPrefix fam (mask_bits bytes (addr_bytes fam) (Z.to_nat len)) len).
  { destruct Hf as [->| ->]; reflexivity. }
  assert (Hn : addr_bytes fam ≤ length bytes) by (rewrite Hs; destruct Hf as [->| ->]; cbv; lia).
  rewrite E. split.
  - constructor; cbn [family_ address_ length_]; auto.
    + by apply bytes_ok_mask.
    + by rewrite length_mask_bits.
    + intros i [H1 H2]. rewrite abit_mask by done.
      destruct (Nat.ltb_spec i (Z.to_nat len)); [lia|]. apply andb_false_r.
    + intros i [H1 H2]. rewrite lookup_mask_tail by done. by apply Ht.
  - unfold ip_key. cbn [address_ length_]. apply abits_eq_iff. intros i Hi.
    rewrite abit_mask by (done || lia). destruct (Nat.ltb_spec i (Z.to_nat len)); [|lia].
    apply andb_true_r.
Qed.

Lemma lookup_replicate0 n i : i < n → replicate n 0%Z !! i = Some 0%Z.
Proof. intros H. by apply lookup_replicate_2. Qed.

(** The raw constructor returns a well-formed prefix with the bits of the address, its
    length cut to the family's. *)
Lemma IPPrefix_raw_spec fam a len :
  fam = AF_INET ∨ fam = AF_INET6 → bytes_ok a → addr_bytes fam ≤ length a → (0 ≤ len ≤ USHRT_MAX)%Z →
  ∃ p, IPPrefix_raw fam (Some a) len = Ok p ∧ ip_ok p ∧ family_ p = fam ∧
    length_ p = Z.min len (8 * Z.of_nat (addr_bytes fam)) ∧
    ip_key p = abits a (Z.to_nat (length_ p)).
Proof.
  intros Hf Hb Hl Hlen. unfold IPPrefix_raw.
  assert (E1 : get_addr_size fam = Z.of_nat (addr_bytes fam)) by (destruct Hf as [->| ->]; done).
  rewrite E1. destruct (Z.eqb_spec (Z.of_nat (addr_bytes fam)) USHRT_MAX) as [E2|_];
    [destruct Hf as [->| ->]; done|].
  rewrite Nat2Z.id. unfold copy_address, memcpy. destruct (Nat.leb_spec (addr_bytes fam) (length a)); [|lia].
  cbn [mbind outcome_bind mret outcome_ret].
  set (bytes := take (addr_bytes fam) a ++ drop (addr_bytes fam) (replicate sizeof_Address 0%Z)).
  assert (Hw : u16 (Z.of_nat (addr_bytes fam) * 8) = (8 * Z.of_nat (addr_bytes fam))%Z)
    by (destruct Hf as [->| ->]; done).
  rewrite Hw. set (len' := Z.min len (8 * Z.of_nat (addr_bytes fam))).
  assert (Hsz : addr_bytes fam ≤ sizeof_Address) by (destruct Hf as [->| ->]; cbv; lia).
  destruct (normalize_ok fam bytes len') as [H1 H2]; try done.
  - apply bytes_ok_app. split; [by apply Forall_take|]. by apply Forall_drop, Forall_replicate.
  - unfold bytes. rewrite length_app, length_take, length_drop, length_replicate. lia.
  - unfold len'. lia.
  - intros i Hi. unfold bytes. rewrite lookup_app_r by (rewrite length_take; lia).
    rewrite length_take, Nat.min_l, lookup_drop by lia. apply lookup_replicate0. lia.
  - eexists. split; [done|]. split; [done|].
    assert (Ef : family_ (normalize (MkIPPrefix fam bytes len')) = fam) by (destruct Hf as [->| ->]; done).
    assert (El : length_ (normalize (MkIPPrefix fam bytes len')) = len') by (destruct Hf as [->| ->]; done).
    split; [done|]. split; [done|]. rewrite H2, El. apply abits_eq_iff. intros i Hi.
    unfold abit, bytes. rewrite lookup_app_l.
    + rewrite lookup_take_lt; [done|]. apply Nat.Div0.div_lt_upper_bound. unfold len' in Hi. lia.
    + rewrite length_take. assert (i / 8 < addr_bytes fam); [|lia].
      apply Nat.Div0.div_lt_upper_bound. unfold len' in Hi. lia.
Qed.

(** ** The order *)
Lemma memcmp_refl a : memcmp a a = 0%Z.
Proof. induction a as [|x a IH]; cbn; [done|]. by rewrite !Z.ltb_irrefl. Qed.

Lemma memcmp_eq a b : length a = length b → memcmp a b = 0%Z → a = b.
Proof.
  revert b. induction a as [|x a IH]; intros [|y b]; cbn; try done. intros Hl.
  destruct (Z.ltb_spec x y); [done|]. destruct (Z.ltb_spec y x); [done|].
  intros H1. f_equal; [lia|]. apply IH; [lia|done].
Qed.

Lemma memcmp_range a b : (-1 ≤ memcmp a b ≤ 1)%Z.
Proof.
  revert b. induction a as [|x a IH]; intros [|y b]; cbn; try lia.
  destruct (x <? y)%Z; [lia|]. destruct (y <? x)%Z; [lia|]. apply IH.
Qed.

Lemma memcmp_antisym a b : memcmp b a = (- memcmp a b)%Z.
Proof.
  revert b. induction a as [|x a IH]; intros [|y b]; cbn; try done.
  destruct (Z.ltb_spec x y), (Z.ltb_spec y x); try lia. apply IH.
Qed.

Lemma memcmp_trans a b c :
  length a = length b → length b = length c →
  (memcmp a b < 0)%Z → (memcmp b c < 0)%Z → (memcmp a c < 0)%Z.
Proof.
  revert b c. induction a as [|x a IH]; intros [|y b] [|z c]; cbn; try lia. intros H1 H2.
  destruct (Z.ltb_spec x y), (Z.ltb_spec y x), (Z.ltb_spec y z), (Z.ltb_spec z y),
    (Z.ltb_spec x z), (Z.ltb_spec z x); try lia.
  apply IH; lia.
Qed.

Lemma compare_dst_eq p q :
  length (address_ p) = length (address_ q) → compare_dst p q = 0%Z ↔ p = q.
Proof.
  intros Hl. unfold compare_dst. split.
  - destruct (Z.eqb_spec (family_ p) (family_ q)) as [E1|]; cbn; [|lia].
    destruct (Z.eqb_spec (length_ p) (length_ q)) as [E2|]; cbn; [|lia].
    intros H%memcmp_eq; [|done]. destruct p, q; cbn in *; congruence.
  - intros ->. rewrite !Z.eqb_refl. cbn. apply memcmp_refl.
Qed.

Lemma compare_dst_antisym p q : compare_dst q p = (- compare_dst p q)%Z.
Proof.
  unfold compare_dst. rewrite (Z.eqb_sym (family_ q)), (Z.eqb_sym (length_ q)).
  destruct (_ =? _)%Z; cbn; [|lia]. destruct (_ =? _)%Z; cbn; [|lia]. apply memcmp_antisym.
Qed.

Lemma compare_dst_trans p q r :
  length (address_ p) = length (address_ q) → length (address_ q) = length (address_ r) →
  (compare_dst p q < 0)%Z → (compare_dst q r < 0)%Z → (compare_dst p r < 0)%Z.
Proof.
  intros H1 H2. unfold compare_dst.
  destruct (Z.eqb_spec (family_ p) (family_ q)), (Z.eqb_spec (family_ q) (family_ r)),
    (Z.eqb_spec (family_ p) (family_ r)); cbn; try lia.
  destruct (Z.eqb_spec (length_ p) (length_ q)), (Z.eqb_spec (length_ q) (length_ r)),
    (Z.eqb_spec (length_ p) (length_ r)); cbn; try lia.
  by apply memcmp_trans.
Qed.

(** Bytes are determined by their bits. *)
Lemma byte_bits_eq x y : (0 ≤ x < 256)%Z → (0 ≤ y < 256)%Z →
  (∀ j, j < 8 → Z.testbit x (7 - Z.of_nat j) = Z.testbit y (7 - Z.of_nat j)) → x = y.
Proof.
  intros Hx Hy H. apply Z.bits_inj'. intros n Hn. destruct (Z.lt_ge_cases n 8).
  - specialize (H (Z.to_nat (7 - n)) ltac:(lia)). rewrite Z2Nat.id in H by lia.
    by replace (7 - (7 - n))%Z with n in H by lia.
  - rewrite <- (Z.mod_small x (2 ^ 8)), <- (Z.mod_small y (2 ^ 8)) by (change (2 ^ 8)%Z with 256%Z; lia).
    by rewrite !Z.mod_pow2_bits_high by lia.
Qed.

Lemma bytes_bits_eq a b : length a = length b → bytes_ok a → bytes_ok b →
  (∀ i, i < 8 * length a → abit a i = abit b i) → a = b.
Proof.
  intros Hl Ha Hb H. apply list_eq. intros i. destruct (decide (i < length a)) as [Hi|Hi].
  - destruct (lookup_lt_is_Some_2 a i Hi) as [x Hx].
    destruct (lookup_lt_is_Some_2 b i ltac:(lia)) as [y Hy]. rewrite Hx, Hy. f_equal.
    apply byte_bits_eq; [apply (Forall_lookup_1 _ _ _ _ Ha Hx)|apply (Forall_lookup_1 _ _ _ _ Hb Hy)|].
    intros j Hj. specialize (H (8 * i + j) ltac:(lia)). unfold abit in H.
    assert (E1 : (8 * i + j) / 8 = i) by (symmetry; apply Nat.div_unique with j; lia).
    assert (E2 : (8 * i + j) `mod` 8 = j) by (symmetry; apply Nat.mod_unique with i; lia).
    by rewrite E1, E2, Hx, Hy in H.
  - rewrite !lookup_ge_None_2 by lia. done.
Qed.

(** Well-formed prefixes are equal as soon as they have the same family and bits:
    comparing raw bytes is comparing prefixes. *)
Lemma ip_key_inj p q : ip_ok p → ip_ok q → family_ p = family_ q → ip_key p = ip_key q → p = q.
Proof.
  intros Hp Hq Hf Hk. assert (El : length_ p = length_ q).
  { apply (f_equal length) in Hk. unfold ip_key in Hk. rewrite !length_abits in Hk.
    pose proof (ip_len _ Hp). pose proof (ip_len _ Hq). lia. }
  assert (Ea : address_ p = address_ q).
  { apply bytes_bits_eq; [by rewrite (ip_size _ Hp), (ip_size _ Hq)|apply Hp|apply Hq|].
    intros i Hi. rewrite (ip_size _ Hp) in Hi.
    destruct (decide (i < Z.to_nat (length_ p))) as [H1|H1].
    - unfold ip_key in Hk. rewrite <- El in Hk. by apply (proj1 (abits_eq_iff _ _ _) Hk).
    - destruct (decide (i < 8 * addr_bytes (family_ p))) as [H2|H2].
      + rewrite (ip_norm _ Hp), (ip_norm _ Hq) by (rewrite <- ?El, <- ?Hf; lia). done.
      + unfold abit. assert (Hr : addr_bytes (family_ p) ≤ i / 8 < sizeof_Address).
        { split; [apply Nat.div_le_lower_bound; lia|]. apply Nat.Div0.div_lt_upper_bound. lia. }
        rewrite (ip_tail _ Hp), (ip_tail _ Hq) by (rewrite <- ?Hf; lia). done. }
  destruct p, q; cbn in *; congruence.
Qed.

(** ** Text round trip *)
Definition digit_char (z : Z) : ascii := ascii_of_nat (48 + Z.to_nat z).

Lemma digit_of_char z : (0 ≤ z < 10)%Z → digit_of (digit_char z) = Some z.
Proof.
  intros H. unfold digit_of, digit_char. rewrite nat_ascii_embedding by lia.
  destruct (Nat.leb_spec 48 (48 + Z.to_nat z)); [|lia].
  destruct (Nat.leb_spec (48 + Z.to_nat z) 57); [|lia]. cbn [andb]. f_equal. lia.
Qed.

Lemma digits_snoc acc l c v d :
  digits acc l = (v, []) → digit_of c = Some d → digits acc (l ++ [c]) = ((v * 10 + d)%Z, []).
Proof.
  intros H Hc. revert acc H. induction l as [|a l IH]; intros acc; cbn.
  - intros [= ->]. by rewrite Hc.
  - destruct (digit_of a); [apply IH|done].
Qed.

Lemma digits_decimal k z : (0 ≤ z < 10 ^ Z.of_nat k)%Z → digits 0 (decimal k z) = (z, []).
Proof.
  revert z. induction k as [|k IH]; intros z Hz.
  - change (10 ^ Z.of_nat 0)%Z with 1%Z in Hz. by replace z with 0%Z by lia.
  - cbn [decimal]. destruct (Z.ltb_spec z 10).
    + cbn [digits]. fold (digit_char z). rewrite digit_of_char by lia. f_equal.
    + fold (digit_char (z mod 10)). pose proof (Z.div_mod z 10). pose proof (Z.mod_pos_bound z 10).
      rewrite (digits_snoc _ _ _ (z / 10) (z mod 10)).
      * f_equal. lia.
      * apply IH. split; [apply Z.div_pos; lia|]. apply Z.div_lt_upper_bound; [lia|].
        rewrite Nat2Z.inj_succ, Z.pow_succ_r in Hz by lia. lia.
      * apply digit_of_char. lia.
Qed.

Lemma decimal_digits k z : (0 ≤ z)%Z → Forall (λ c, is_Some (digit_of c)) (decimal k z).
Proof.
  revert z. induction k as [|k IH]; intros z Hz; cbn [decimal]; [constructor|].
  destruct (Z.ltb_spec z 10).
  - apply Forall_singleton. fold (digit_char z). rewrite digit_of_char by lia. by eexists.
  - apply Forall_app. split; [apply IH, Z.div_pos; lia|]. apply Forall_singleton.
    fold (digit_char (z mod 10)). pose proof (Z.mod_pos_bound z 10). rewrite digit_of_char by lia.
    by eexists.
Qed.

Lemma decimal_nonempty k z : decimal (S k) z ≠ [].
Proof. cbn [decimal]. destruct (z <? 10)%Z; [done|]. apply app_cons_not_nil || (by destruct (decimal k _)). Qed.

Lemma digit_range c d : digit_of c = Some d → 48 ≤ nat_of_ascii c ≤ 57.
Proof.
  unfold digit_of. destruct (Nat.leb_spec 48 (nat_of_ascii c)), (Nat.leb_spec (nat_of_ascii c) 57); done.
Qed.

Lemma strtoul_print z : (0 ≤ z < 10 ^ 5)%Z → strtoul (print_ushort z) = (z, []).
Proof.
  intros Hz. unfold print_ushort. pose proof (digits_decimal 5 z Hz) as HD.
  pose proof (decimal_digits 5 z ltac:(lia)) as HF. pose proof (decimal_nonempty 4 z) as HN.
  destruct (decimal 5 z) as [|c s]; [done|]. apply Forall_cons in HF as [[d Hd] _].
  pose proof (digit_range _ _ Hd) as Hr. unfold strtoul. cbn [skip_space].
  assert (Hsp : is_space c = false).
  { unfold is_space. destruct (Nat.eqb_spec (nat_of_ascii c) 32); [lia|].
    destruct (Nat.leb_spec (nat_of_ascii c) 13); [lia|]. apply andb_false_r. }
  rewrite Hsp. rewrite decide_False by (intros ->; cbv in Hr; lia).
  rewrite decide_False by (intros ->; cbv in Hr; lia). rewrite Hd, HD. cbn [andb]. f_equal. lia.
Qed.

Lemma rsplit_None c s : c ∉ s → rsplit c s = None.
Proof.
  induction s as [|a s IH]; cbn; [done|]. rewrite not_elem_of_cons. intros [H1 H2].
  rewrite IH by done. by rewrite decide_False.
Qed.

Lemma rsplit_app c s t : c ∉ t → rsplit c (s ++ c :: t) = Some (s, t).
Proof.
  intros Ht. induction s as [|a s IH]; cbn; [|by rewrite IH].
  rewrite rsplit_None by done. by rewrite decide_True.
Qed.

Lemma slash_not_digit z : (0 ≤ z)%Z → slash ∉ print_ushort z.
Proof.
  intros Hz Hin. pose proof (decimal_digits 5 z Hz) as HF. rewrite Forall_forall in HF.
  destruct (HF _ Hin) as [d Hd]. apply digit_range in Hd. cbv in Hd. lia.
Qed.

Section RoundTrip.
Variable getaddrinfo : text → option (Z * list Z).
Variable getnameinfo : Z → list Z → option text.
(** Numeric host names: every address has a text without a slash, and it is read back. *)
Hypothesis gni_total : ∀ fam bytes, fam = AF_INET ∨ fam = AF_INET6 → length bytes = addr_bytes fam →
  bytes_ok bytes → is_Some (getnameinfo fam bytes).
Hypothesis gni_slash : ∀ fam bytes s, getnameinfo fam bytes = Some s → slash ∉ s.
Hypothesis gai_gni : ∀ fam bytes s, getnameinfo fam bytes = Some s → getaddrinfo s = Some (fam, bytes).

(** What the string constructor does with an address text [s] and a length, once the
    length has been split off. *)
Lemma print_text p : ip_ok p →
  ∃ s, get_address_text getnameinfo p = Ok s ∧ slash ∉ s ∧
    getaddrinfo s = Some (family_ p, take (addr_bytes (family_ p)) (address_ p)).
Proof.
  intros Hp. pose proof (ip_family _ Hp) as Hf.
  destruct (gni_total (family_ p) (take (addr_bytes (family_ p)) (address_ p)) Hf) as [s Hs].
  { rewrite length_take, (ip_size _ Hp). destruct Hf as [->| ->]; reflexivity. }
  { apply Forall_take, Hp. }
  exists s. split; [|eauto]. unfold get_address_text.
  destruct Hf as [E|E]; rewrite E in *; cbn in *; by rewrite Hs.
Qed.

(** The bytes a parsed prefix ends up with: those of [p] and, beyond the family's
    address, the previous contents of the object. *)
Definition overlay (p : IPPrefix) (old : list Z) : IPPrefix :=
  MkIPPrefix (family_ p) (take (addr_bytes (family_ p)) (address_ p) ++ drop (addr_bytes (family_ p)) old)
    (length_ p).

Lemma mask_id buf len bits : bytes_ok buf → len ≤ length buf →
  (∀ i, bits ≤ i < 8 * len → abit buf i = false) → mask_bits buf len bits = buf.
Proof.
  intros Hb Hl H. apply bytes_bits_eq; [by rewrite length_mask_bits|by apply bytes_ok_mask|done|].
  rewrite length_mask_bits by done. intros i Hi. destruct (decide (i < 8 * len)) as [Hi'|Hi'].
  - rewrite abit_mask by done. destruct (Nat.ltb_spec i bits); [by rewrite andb_true_r|].
    rewrite H by lia. done.
  - unfold abit. rewrite lookup_mask_tail; [done|done|]. apply Nat.div_le_lower_bound; lia.
Qed.

Lemma normalize_overlay p old : ip_ok p → bytes_ok old → length old = sizeof_Address →
  normalize (overlay p old) = overlay p old.
Proof.
  intros Hp Hb Ho. pose proof (ip_family _ Hp) as Hf. pose proof (ip_size _ Hp) as Hs.
  set (n := addr_bytes (family_ p)).
  assert (Hn : n ≤ sizeof_Address) by (subst n; destruct Hf as [->| ->]; cbv; lia).
  assert (E : normalize (overlay p old) = MkIPPrefix (family_ p)
      (mask_bits (address_ (overlay p old)) n (Z.to_nat (length_ p))) (length_ p)).
  { unfold normalize, overlay. cbn [family_ address_ length_]. subst n.
    destruct Hf as [E|E]; rewrite E; reflexivity. }
  rewrite E. unfold overlay at 2. cbn [overlay address_]. fold n. f_equal. apply mask_id.
  - apply bytes_ok_app. split; [apply Forall_take, Hp|by apply Forall_drop].
  - rewrite length_app, length_take, length_drop. lia.
  - intros i Hi. rewrite <- (ip_norm _ Hp i) by (fold n; lia). unfold abit.
    assert (i / 8 < n) by (apply Nat.Div0.div_lt_upper_bound; lia).
    rewrite lookup_app_l by (rewrite length_take; lia). by rewrite lookup_take_lt.
Qed.

Lemma parse_print p old : ip_ok p → bytes_ok old → length old = sizeof_Address →
  ∃ s, IPPrefix_print getnameinfo p = Ok s ∧
    IPPrefix_string getaddrinfo old s USHRT_MAX = Ok (overlay p old).
Proof.
  intros Hp Hb Ho. destruct (print_text p Hp) as (s & Hs & Hsl & Hg).
  pose proof (ip_family _ Hp) as Hf. pose proof (ip_len _ Hp) as Hl. pose proof (ip_size _ Hp) as Hsz.
  set (n := addr_bytes (family_ p)) in *.
  assert (Hsize : get_addr_size (family_ p) = Z.of_nat n) by (subst n; destruct Hf as [->| ->]; done).
  assert (Hn : n = 4 ∨ n = 16) by (subst n; destruct Hf as [->| ->]; [by left|by right]).
  assert (Hcont : ∀ len, Z.min len (8 * Z.of_nat n) = length_ p →
    match getaddrinfo s with
    | None => mret IPPrefix_INVALID
    | Some (fam, bytes) =>
        if (fam =? AF_INET)%Z || (fam =? AF_INET6)%Z then
          a ← copy_address old bytes (if (fam =? AF_INET)%Z then sizeof_addr4 else sizeof_addr6);
          mret (normalize (MkIPPrefix fam a (Z.min len (u16 (get_addr_size fam * 8)))))
        else mret IPPrefix_INVALID
    end = Ok (overlay p old)).
  { intros len Hlen. rewrite Hg, Hsize.
    assert (Hfam : (family_ p =? AF_INET)%Z || (family_ p =? AF_INET6)%Z = true)
      by (destruct Hf as [->| ->]; done).
    assert (Hnb : (if (family_ p =? AF_INET)%Z then sizeof_addr4 else sizeof_addr6) = n)
      by (subst n; destruct Hf as [->| ->]; done).
    rewrite Hfam, Hnb. unfold copy_address, memcpy. rewrite length_take, Hsz.
    destruct (Nat.leb_spec n (n `min` sizeof_Address)) as [_|Hx]; [|cbv [sizeof_Address] in Hx; lia].
    cbn [mbind outcome_bind mret outcome_ret]. rewrite take_take, Nat.min_id.
    unfold u16. rewrite Z.mod_small by lia. rewrite (Z.mul_comm (Z.of_nat n) 8), Hlen.
    f_equal. by apply normalize_overlay. }
  unfold IPPrefix_print. rewrite Hs. cbn [mbind outcome_bind mret outcome_ret]. rewrite Hsize.
  destruct (Z.ltb_spec (length_ p) (Z.of_nat n * 8)) as [Hlt|Hge].
  - eexists. split; [reflexivity|]. unfold IPPrefix_string.
    cbn [app]. rewrite (rsplit_app slash s (print_ushort (length_ p))) by (apply slash_not_digit; lia).
    pose proof (decimal_nonempty 4 (length_ p)) as Hne. fold (print_ushort (length_ p)) in Hne.
    destruct (print_ushort (length_ p)) as [|c u] eqn:Eu; [done|]. rewrite <- Eu.
    rewrite strtoul_print by lia. rewrite u16_small by lia. apply Hcont. lia.
  - eexists. split; [reflexivity|]. unfold IPPrefix_string. rewrite rsplit_None by done.
    apply Hcont. unfold USHRT_MAX. lia.
Qed.
End RoundTrip.
