(* ===== verification/PatriciaTrie.v ===== *)
(** * The prefix trie with values (common/cpp/src/include/p4p/detail/patricia_trie.h)

    [PatriciaTrie<T>] stores a value for each prefix.  The values live once in
    [val_cache_], a [std::map<T, unsigned int>] with a reference count, and the nodes of
    the tree point to the keys of that map.  A data pointer is modelled by the key it
    points to: reading it is undefined once the key has been erased. *)
From S2P Require Import Prelude StdMap Patricia PatriciaBits PatriciaTree PatriciaSearch.
From S2P Require Import PatriciaInsert PatriciaRemove PatriciaWalk IpAddr.

Definition MAX_PREFIX_BITLEN : nat := 128.

Record PatriciaTrie {T : Type} := Trie {
  tree_ : patricia_tree_t T;
  val_cache_ : list (T * Z)
}.
Arguments PatriciaTrie T : clear implicits.

Section Trie.
Context {T : Type} `{EqDecision T} (ltb : T → T → bool).
Abbreviation M := (ST (PatriciaTrie T)).

(** A computation on the tree of the object. *)
Definition on_tree {A} (m : ST (patricia_tree_t T) A) : M A := λ tr,
  match m (tree_ tr) with
  | Ok (a, t') => Ok (a, Trie T t' (val_cache_ tr))
  | Fault e => Fault e
  end.
Definition get_cache : M (list (T * Z)) := λ tr, Ok (val_cache_ tr, tr).
Definition put_cache (c : list (T * Z)) : M unit := λ tr, Ok (tt, Trie T (tree_ tr) c).
Definition put_tree (t : patricia_tree_t T) : M unit := λ tr, Ok (tt, Trie T t (val_cache_ tr)).

(** [*(const T* )node->data] *)
Definition read_data (cache : list (T * Z)) (d : option T) : outcome T :=
  match d with
  | Some v => match map_find ltb v cache with Some _ => Ok v | None => Fault UB end
  | None => Fault UB
  end.

(** [New_Prefix (prefix.get_family (), prefix.get_address (), prefix.get_length ())]; the
    callers pass the result to functions that assert that it is not null. *)
Definition new_prefix (p : IPPrefix) : M loc :=
  q ← on_tree (New_Prefix (family_ p) (address_ p) (length_ p));
  st_lift (from_option_or AssertFail q).

(** [val_cache_.insert (make_pair (val, 0))] followed by the increment of the count. *)
Definition cache_ref (val : T) (c : list (T * Z)) : list (T * Z) :=
  let c' := map_insert ltb val 0%Z c in
  map_set ltb val (u32 (default 0%Z (map_find ltb val c') + 1)) c'.

(** The constructor. *)
Definition trie_new : outcome (PatriciaTrie T) :=
  t ← New_Patricia MAX_PREFIX_BITLEN; mret (Trie T t []).

Definition trie_add (prefix : IPPrefix) (val : T) : M bool :=
  p ← new_prefix prefix;
  node ← on_tree (patricia_search_exact p);
  match node with
  | Some node =>
      n ← on_tree (get_node node);
      cache ← get_cache;
      v ← st_lift (read_data cache (n_data n));
      on_tree (Deref_Prefix (Some p));;
      mret (bool_decide (val = v))
  | None =>
      node ← on_tree (patricia_lookup p);
      on_tree (Deref_Prefix (Some p));;
      cache ← get_cache;
      put_cache (cache_ref val cache);;
      on_tree (set_data node (Some val));;
      mret true
  end.

Definition trie_remove (prefix : IPPrefix) (val : T) : M bool :=
  p ← new_prefix prefix;
  node ← on_tree (patricia_search_exact p);
  on_tree (Deref_Prefix (Some p));;
  match node with
  | None => mret false
  | Some node =>
      n ← on_tree (get_node node);
      cache ← get_cache;
      v ← st_lift (read_data cache (n_data n));
      if bool_decide (v ≠ val) then mret false
      else
        on_tree (patricia_remove node);;
        match map_find ltb val cache with
        | None => st_fail UB
        | Some c =>
            let c' := u32 (c - 1) in
            put_cache (if (c' =? 0)%Z then map_erase ltb val cache else map_set ltb val c' cache);;
            mret true
        end
  end.

(** The nodes of [PATRICIA_WALK] that satisfy a test on the node. *)
Fixpoint filter_nodes (P : patricia_node_t T → outcome bool) (ns : list loc) : M (list loc) :=
  match ns with
  | [] => mret []
  | node :: ns =>
      n ← on_tree (get_node node);
      b ← st_lift (P n);
      rest ← filter_nodes P ns;
      mret (if b : bool then node :: rest else rest)
  end.

Definition trie_remove_val (val : T) : M bool :=
  cache ← get_cache;
  match map_find ltb val cache with
  | None => mret false
  | Some _ =>
      ns ← on_tree PATRICIA_WALK;
      removed ← filter_nodes (λ n, mret (bool_decide (n_data n = Some val))) ns;
      st_iter (λ node, on_tree (patricia_remove node)) removed;;
      put_cache (map_erase ltb val cache);;
      mret true
  end.

Definition trie_clear : M unit :=
  on_tree Destroy_Patricia;;
  t ← st_lift (New_Patricia MAX_PREFIX_BITLEN);
  put_tree t;;
  put_cache [].

(** [lookup (address, prefix)] with a non-null second argument: the value and the prefix
    that matched. *)
Definition trie_lookup (address : IPPrefix) : M (option (T * IPPrefix)) :=
  p ← new_prefix address;
  node ← on_tree (patricia_search_best p);
  on_tree (Deref_Prefix (Some p));;
  match node with
  | None => mret None
  | Some node =>
      n ← on_tree (get_node node);
      q ← on_tree (deref (n_prefix n));
      x ← on_tree (get_prefix q);
      ip ← st_lift (IPPrefix_raw (px_family x) (Some (px_add x)) (Z.of_nat (px_bitlen x)));
      cache ← get_cache;
      v ← st_lift (read_data cache (n_data n));
      mret (Some (v, ip))
  end.

Definition trie_has_prefixes (val : T) : M bool :=
  cache ← get_cache;
  mret (bool_decide (is_Some (map_find ltb val cache))).

(** The body of the walks of [get_prefixes] and [enumerate]: the prefix of a node, if its
    family is known. *)
Definition node_prefix (n : patricia_node_t T) : M (option IPPrefix) :=
  q ← on_tree (deref (n_prefix n));
  x ← on_tree (get_prefix q);
  if (px_family x =? AF_INET)%Z || (px_family x =? AF_INET6)%Z then
    ip ← st_lift (IPPrefix_raw (px_family x) (Some (px_add x)) (Z.of_nat (px_bitlen x)));
    mret (Some ip)
  else mret None.

Fixpoint collect_prefixes (val : T) (ns : list loc) : M (list IPPrefix) :=
  match ns with
  | [] => mret []
  | node :: ns =>
      n ← on_tree (get_node node);
      cache ← get_cache;
      v ← st_lift (read_data cache (n_data n));
      ip ← (if bool_decide (v ≠ val) then mret None else node_prefix n);
      rest ← collect_prefixes val ns;
      mret (match ip with Some p => p :: rest | None => rest end)
  end.

Definition trie_get_prefixes (val : T) : M (list IPPrefix) :=
  ns ← on_tree PATRICIA_WALK; collect_prefixes val ns.

(** [enumerate]: [result] is the vector passed in; when it is empty it is filled with
    the values of the cache.  [val_to_idx] maps a value to its last position. *)
Fixpoint val_to_idx (i : nat) (vals : list T) (acc : list (T * nat)) : list (T * nat) :=
  match vals with
  | [] => acc
  | v :: vals => val_to_idx (S i) vals (map_set ltb v i acc)
  end.

Fixpoint enumerate_walk (idx : list (T * nat)) (ns : list loc)
    (result : list (T * list IPPrefix)) : M (list (T * list IPPrefix)) :=
  match ns with
  | [] => mret result
  | node :: ns =>
      n ← on_tree (get_node node);
      cache ← get_cache;
      v ← st_lift (read_data cache (n_data n));
      match map_find ltb v idx with
      | None => enumerate_walk idx ns result
      | Some i =>
          ip ← node_prefix n;
          match ip with
          | None => enumerate_walk idx ns result
          | Some p =>
              match result !! i with
              | None => st_fail UB
              | Some (w, ps) => enumerate_walk idx ns (<[i := (w, ps ++ [p])]> result)
              end
          end
      end
  end.

Definition trie_enumerate (result : list (T * list IPPrefix)) : M (list (T * list IPPrefix)) :=
  cache ← get_cache;
  let result' := match result with [] => (λ kv, (kv.1, [])) <$> cache | _ => result end in
  let idx := val_to_idx 0 result'.*1 [] in
  ns ← on_tree PATRICIA_WALK;
  enumerate_walk idx ns result'.

Definition trie_enumerate_values : M (list T) :=
  cache ← get_cache; mret cache.*1.

(** [copy_from (rhs)]: the entries of [rhs] are inserted into the emptied tree. *)
Fixpoint copy_entries (rhs : PatriciaTrie T) (ns : list loc) : M unit :=
  match ns with
  | [] => mret tt
  | node :: ns =>
      '(x, d) ← st_lift (from_option_or UB (n ← t_nodes (tree_ rhs) !! node; q ← n_prefix n;
                           x ← t_prefixes (tree_ rhs) !! q; mret (x, n_data n)));
      p ← on_tree (New_Prefix (px_family x) (px_add x) (Z.of_nat (px_bitlen x)));
      p ← st_lift (from_option_or AssertFail p);
      ins_node ← on_tree (patricia_lookup p);
      v ← st_lift (read_data (val_cache_ rhs) d);
      cache ← get_cache;
      put_cache (cache_ref v cache);;
      on_tree (set_data ins_node (Some v));;
      on_tree (Deref_Prefix (Some p));;
      copy_entries rhs ns
  end.

Definition trie_copy_from (rhs : PatriciaTrie T) : M unit :=
  trie_clear;;
  '(ns, _) ← st_lift (PATRICIA_WALK (tree_ rhs));
  copy_entries rhs ns.
End Trie.
