(* ===== verification/PatriciaTrieSpec.v ===== *)
(** * What the prefix trie promises

    [trie_rep fam C tr]: the trie [tr] holds the finite map [C] from prefixes (their
    bits) of one address family to values, and [val_cache_] counts the prefixes of each
    value.  Every operation of PatriciaTrie.v is the corresponding operation on [C];
    [lookup] of a full address is the longest-prefix match.  The trie never compares
    families: the last section shows what happens when IPv4 and IPv6 prefixes meet. *)
From S2P Require Import Prelude StdMap Patricia PatriciaBits PatriciaTree PatriciaSearch.
From S2P Require Import PatriciaInsert PatriciaRemove PatriciaWalk IpAddr PatriciaTrie.

Section TrieSpec.
Context {T : Type} `{EqDecision T} (ltb : T → T → bool) `{!StrictTotal ltb}.
Implicit Types (C : gmap (list bool) T) (tr : PatriciaTrie T).

Definition width (fam : Z) : nat := 8 * addr_bytes fam.

(** The number of prefixes of a value. *)
Definition count (v : T) C : nat := length (filter (λ kv, kv.2 = v) (map_to_list C)).

Definition cache_ok C (c : list (T * Z)) : Prop :=
  map_sorted ltb c ∧
  ∀ v, map_find ltb v c = if count v C =? 0 then None else Some (Z.of_nat (count v C)).

Definition contents_of (t : ptree T) : list (list bool * option T) :=
  (λ e, (e_key e, e_d e)) <$> entries t.
Definition assoc C : list (list bool * option T) := (λ kv, (kv.1, Some kv.2)) <$> map_to_list C.

Definition entry_ok (fam : Z) (e : entry T) : Prop :=
  px_family (e_x e) = fam ∧ px_ref_count (e_x e) = 1%Z.

Record tree_rep (fam : Z) C (t : ptree T) (ext : gmap loc prefix_t) (st : patricia_tree_t T) : Prop := {
  tr_rep : rep (width fam) t ext st;
  tr_max : t_maxbits st = MAX_PREFIX_BITLEN;
  tr_ok : Forall (entry_ok fam) (entries t);
  tr_contents : contents_of t ≡ₚ assoc C
}.

Definition trie_rep (fam : Z) C tr : Prop :=
  (∃ t, tree_rep fam C t ∅ (tree_ tr)) ∧ cache_ok C (val_cache_ tr).

(** ** Counting *)
Lemma map_to_list_extract C k v : C !! k = Some v →
  map_to_list C ≡ₚ (k, v) :: map_to_list (delete k C).
Proof.
  intros H. rewrite <- (insert_delete_id C k v H) at 1. apply map_to_list_insert. apply lookup_delete_eq.
Qed.

Lemma filter_snd_perm v (l1 l2 : list (list bool * T)) : l1 ≡ₚ l2 →
  length (filter (λ kv, kv.2 = v) l1) = length (filter (λ kv, kv.2 = v) l2).
Proof. intros H. by rewrite H. Qed.

Lemma count_insert C k v w : C !! k = None →
  count w (<[k:=v]> C) = if decide (v = w) then S (count w C) else count w C.
Proof.
  intros H. unfold count. rewrite (filter_snd_perm _ _ _ (map_to_list_insert C k v H)).
  rewrite filter_cons. cbn. by case_decide.
Qed.

Lemma count_delete C k v w : C !! k = Some v →
  count w C = if decide (v = w) then S (count w (delete k C)) else count w (delete k C).
Proof.
  intros H. unfold count. rewrite (filter_snd_perm _ _ _ (map_to_list_extract C k v H)).
  rewrite filter_cons. cbn. by case_decide.
Qed.

Lemma count_le C v : count v C ≤ size C.
Proof. unfold count. rewrite <- length_map_to_list. apply length_filter. Qed.

Lemma count_pos C k v : C !! k = Some v → 0 < count v C.
Proof. intros H. rewrite (count_delete C k v v H), decide_True by done. lia. Qed.

Lemma count_zero C v : count v C = 0 ↔ ∀ k, C !! k ≠ Some v.
Proof.
  split.
  - intros H k Hk. apply count_pos in Hk. lia.
  - intros H. unfold count. destruct (filter _ _) as [|[k w] l] eqn:E; [done|].
    assert (Hin : (k, w) ∈ filter (λ kv, kv.2 = v) (map_to_list C)) by (rewrite E; left).
    apply list_elem_of_filter in Hin as [Hv Hin]. apply elem_of_map_to_list in Hin. cbn in Hv. subst.
    by destruct (H k).
Qed.

(** ** The cache *)
Lemma cache_ref_ok C c k val : cache_ok C c → C !! k = None → (Z.of_nat (size C) < UINT_MAX)%Z →
  cache_ok (<[k:=val]> C) (cache_ref ltb val c).
Proof.
  intros [HS HF] Hk Hsz. pose proof (count_le C val) as Hle. unfold UINT_MAX in Hsz.
  assert (HS' : map_sorted ltb (map_insert ltb val 0%Z c)) by by apply map_insert_sorted.
  assert (Hd : default 0%Z (map_find ltb val (map_insert ltb val 0%Z c)) = Z.of_nat (count val C)).
  { unfold map_insert. destruct (map_find ltb val c) as [n|] eqn:E.
    - rewrite E. rewrite HF in E. destruct (count val C =? 0); [done|]. by injection E.
    - rewrite map_find_set_eq by done. rewrite HF in E.
      destruct (Nat.eqb_spec (count val C) 0) as [->|]; done. }
  unfold cache_ref. rewrite Hd, u32_small by lia. split; [by apply map_set_sorted|].
  intros v. rewrite (count_insert C k val v Hk). case_decide as E.
  - subst. rewrite map_find_set_eq by done. cbn [Nat.eqb]. f_equal. lia.
  - rewrite map_find_set_ne by done. rewrite <- HF. unfold map_insert.
    destruct (map_find ltb val c); [done|]. by apply map_find_set_ne.
Qed.

Definition cache_unref (val : T) (n : Z) (c : list (T * Z)) : list (T * Z) :=
  if (u32 (n - 1) =? 0)%Z then map_erase ltb val c else map_set ltb val (u32 (n - 1)) c.

Lemma cache_unref_ok C c k val : cache_ok C c → C !! k = Some val → (Z.of_nat (size C) ≤ UINT_MAX)%Z →
  ∃ n, map_find ltb val c = Some n ∧ cache_ok (delete k C) (cache_unref val n c).
Proof.
  intros [HS HF] Hk Hsz. pose proof (count_le C val) as Hle. unfold UINT_MAX in Hsz.
  pose proof (count_delete C k val val Hk) as HC. rewrite decide_True in HC by done.
  exists (Z.of_nat (count val C)). rewrite HF, HC. cbn [Nat.eqb]. split; [done|].
  unfold cache_unref. rewrite u32_small by lia.
  replace (Z.of_nat (S (count val (delete k C))) - 1)%Z with (Z.of_nat (count val (delete k C))) by lia.
  destruct (Z.eqb_spec (Z.of_nat (count val (delete k C))) 0) as [E|E].
  - split; [by apply map_erase_sorted|]. intros v. destruct (decide (val = v)) as [<-|Hne].
    + rewrite map_find_erase_eq by done. by destruct (Nat.eqb_spec (count val (delete k C)) 0); [|lia].
    + rewrite map_find_erase_ne, HF by done. rewrite (count_delete C k val v Hk). by rewrite decide_False.
  - split; [by apply map_set_sorted|]. intros v. destruct (decide (val = v)) as [<-|Hne].
    + rewrite map_find_set_eq by done. by destruct (Nat.eqb_spec (count val (delete k C)) 0); [lia|].
    + rewrite map_find_set_ne, HF by done. rewrite (count_delete C k val v Hk). by rewrite decide_False.
Qed.

Lemma cache_read C c k v : cache_ok C c → C !! k = Some v → read_data ltb c (Some v) = Ok v.
Proof.
  intros [_ HF] Hk. unfold read_data. rewrite HF. apply count_pos in Hk.
  by destruct (Nat.eqb_spec (count v C) 0); [lia|].
Qed.

(** ** Contents *)
Lemma contents_elem C t k d : contents_of t ≡ₚ assoc C →
  (∃ e, e ∈ entries t ∧ e_key e = k ∧ e_d e = d) ↔ ∃ v, d = Some v ∧ C !! k = Some v.
Proof.
  intros H. transitivity ((k, d) ∈ contents_of t).
  - unfold contents_of. rewrite list_elem_of_fmap. naive_solver.
  - rewrite H. unfold assoc. rewrite list_elem_of_fmap. split.
    + intros ([k' v] & [= -> ->] & Hin%elem_of_map_to_list). eauto.
    + intros (v & -> & Hk). exists (k, v). split; [done|]. by apply elem_of_map_to_list.
Qed.

Lemma entry_lookup C t e : contents_of t ≡ₚ assoc C → e ∈ entries t →
  ∃ v, e_d e = Some v ∧ C !! e_key e = Some v.
Proof. intros H He. apply (contents_elem C t (e_key e) (e_d e) H). eauto. Qed.

Lemma lookup_entry C t k v : contents_of t ≡ₚ assoc C → C !! k = Some v →
  ∃ e, e ∈ entries t ∧ e_key e = k ∧ e_d e = Some v.
Proof. intros H He. apply (contents_elem C t k (Some v) H). eauto. Qed.

Lemma find_key_contents W C t k : wf W [] t → contents_of t ≡ₚ assoc C →
  match find_key k (entries t) with
  | Some e => e ∈ entries t ∧ e_key e = k ∧ ∃ v, e_d e = Some v ∧ C !! k = Some v
  | None => C !! k = None
  end.
Proof.
  intros Hw H. destruct (find_key k (entries t)) as [e|] eqn:F.
  - apply find_key_Some in F as [F1 F2]. split; [done|]. split; [done|].
    rewrite <- F2. by apply (entry_lookup C t).
  - apply eq_None_not_Some. intros [v Hv]. destruct (lookup_entry C t k v H Hv) as (e & He & Hk & _).
    by apply (find_key_None _ _ _ F He).
Qed.

(** ** Running tree operations *)
Lemma on_tree_Ok {A} (m : ST (patricia_tree_t T) A) tr a t' :
  m (tree_ tr) = Ok (a, t') → on_tree m tr = Ok (a, Trie T t' (val_cache_ tr)).
Proof. intros H. unfold on_tree. by rewrite H. Qed.

Lemma width_le fam : fam = AF_INET ∨ fam = AF_INET6 → width fam ≤ MAX_PREFIX_BITLEN.
Proof. intros [->| ->]; cbv; lia. Qed.

(** The object [New_Prefix] makes of a well-formed prefix. *)
Definition px_of (p : IPPrefix) : prefix_t :=
  Prefix (family_ p) (Z.to_nat (length_ p)) 1 (take (addr_bytes (family_ p)) (address_ p)).

Lemma px_of_ok p : ip_ok p → pfx_ok (width (family_ p)) (px_of p) ∧ key_of (px_of p) = ip_key p.
Proof.
  intros Hp. pose proof (ip_len _ Hp) as Hl. pose proof (ip_size _ Hp) as Hs.
  assert (Hn : addr_bytes (family_ p) ≤ sizeof_Address) by (destruct (ip_family _ Hp) as [->| ->]; cbv; lia).
  assert (Hlt : length (take (addr_bytes (family_ p)) (address_ p)) = addr_bytes (family_ p))
    by (rewrite length_take; lia).
  split.
  - unfold pfx_ok, width, px_of. cbn [px_add px_bitlen]. rewrite Hlt. split_and!; [apply Forall_take, Hp|done|lia].
  - unfold key_of, ip_key, px_of. cbn [px_add px_bitlen]. apply abits_eq_iff. intros i Hi. unfold abit.
    rewrite lookup_take_lt; [done|]. apply Nat.Div0.div_lt_upper_bound. lia.
Qed.

Lemma New_Prefix_px p (st : patricia_tree_t T) : ip_ok p →
  let q := fresh_loc (t_prefixes st) in
  New_Prefix (family_ p) (address_ p) (length_ p) st =
  Ok (Some q, set_prefixes (<[q := px_of p]> (t_prefixes st)) st).
Proof.
  intros Hp q. pose proof (ip_len _ Hp) as Hl. pose proof (ip_size _ Hp) as Hs.
  unfold New_Prefix, New_Prefix2, px_of. destruct (ip_family _ Hp) as [E|E]; rewrite E in *.
  all: change (addr_bytes AF_INET) with 4 in *; change (addr_bytes AF_INET6) with 16 in *.
  all: cbn [Z.eqb AF_INET AF_INET6 Pos.eqb]; unfold memcpy; rewrite Hs; cbn [Nat.leb sizeof_Address].
  all: rewrite st_lift_bind; destruct (Z.leb_spec 0 (length_ p)); [|lia].
  all: rewrite u16_small by lia; reflexivity.
Qed.

Lemma new_prefix_spec fam C t tr p : tree_rep fam C t ∅ (tree_ tr) → ip_ok p → family_ p = fam →
  ∃ q st, new_prefix p tr = Ok (q, Trie T st (val_cache_ tr)) ∧
    tree_rep fam C t {[q := px_of p]} st.
Proof.
  intros [R Hm Hok Hc] Hp Hf. eexists _, _. split.
  - unfold new_prefix. rewrite (st_bind_Ok _ _ _ _ _ (on_tree_Ok _ _ _ _ (New_Prefix_px p _ Hp))).
    reflexivity.
  - constructor; try done. rewrite <- insert_empty. apply (rep_ext_insert _ _ ∅); [done|].
    apply fresh_loc_None.
Qed.

Lemma deref_new_prefix fam C t st q p : tree_rep fam C t {[q := px_of p]} st →
  ∃ st', Deref_Prefix (Some q) st = Ok (tt, st') ∧ tree_rep fam C t ∅ st'.
Proof.
  intros [R Hm Hok Hc].
  destruct (deref_ext_spec _ _ _ _ q (px_of p) R) as (st' & H1 & H2 & H3); [apply lookup_singleton_eq|done|].
  exists st'. split; [done|]. rewrite delete_singleton_eq in H2. constructor; try done. by rewrite H3.
Qed.

Lemma search_exact_C fam C t st q p : tree_rep fam C t {[q := px_of p]} st → ip_ok p → family_ p = fam →
  patricia_search_exact q st = Ok (e_node <$> find_key (ip_key p) (entries t), st).
Proof.
  intros [R Hm Hok Hc] Hp <-. destruct (px_of_ok p Hp) as [H1 <-].
  eapply search_exact_spec; [exact R|apply lookup_singleton_eq|done].
Qed.

(** ** [add] *)
Lemma insert_new fam C t st q p val : tree_rep fam C t {[q := px_of p]} st → ip_ok p → family_ p = fam →
  find_key (ip_key p) (entries t) = None →
  ∃ node t1 st1, patricia_lookup q st = Ok (node, st1) ∧
    (∃ t2 st2, Deref_Prefix (Some q) st1 = Ok (tt, st2) ∧
     ∃ t3 st3, set_data node (Some val) st2 = Ok (tt, st3) ∧ rep (width fam) t2 ∅ st2 ∧
       tree_rep fam (<[ip_key p := val]> C) t3 ∅ st3) ∧
    rep (width fam) t1 ∅ st1.
Proof.
  intros [R Hm Hok Hc] Hp <- Hfind. destruct (px_of_ok p Hp) as [Hx Hk].
  pose proof (find_key_contents _ C t (ip_key p) (rep_wf _ _ _ _ R) Hc) as HC. rewrite Hfind in HC.
  pose proof (lookup_spec (width (family_ p)) _ st q (px_of p) (lookup_singleton_eq q (px_of p)) Hx
    ltac:(done) t R) as HL.
  unfold inserted in HL. rewrite Hk, Hfind in HL. destruct HL as (node & t1 & st1 & H1 & R1 & M1 & E1).
  rewrite delete_singleton_eq in R1. exists node, t1, st1. split; [done|]. split; [|done].
  set (e1 := Entry node q (set_ref_count (px_ref_count (px_of p) + 1) (px_of p)) None) in *.
  assert (He1 : e1 ∈ entries t1) by (rewrite E1; left).
  destruct (deref_entry_spec _ _ _ _ e1 R1 He1 ltac:(done)) as (t2 & st2 & H2 & R2 & M2 & es & P1 & P2).
  exists t2, st2. split; [done|]. set (e2 := Entry _ _ _ _) in P2.
  assert (He2 : e2 ∈ entries t2) by (rewrite P2; left).
  destruct (set_data_spec _ _ _ _ e2 (Some val) R2 He2) as (t3 & st3 & H3 & R3 & M3 & es' & P3 & P4).
  exists t3, st3. split; [done|]. split; [done|].
  assert (Ees : es ≡ₚ entries t) by (rewrite E1 in P1; by apply Permutation_cons_inv in P1).
  assert (Ees' : es' ≡ₚ es) by (rewrite P2 in P3; by apply Permutation_cons_inv in P3).
  constructor; [done|by rewrite M3, M2, M1| |].
  - rewrite P4, Ees', Ees. apply Forall_cons. split; [done|done].
  - unfold contents_of. rewrite P4, Ees', Ees. cbn [fmap list_fmap]. unfold assoc.
    rewrite (map_to_list_insert C _ _ HC). cbn [fmap list_fmap]. f_equiv; [|exact Hc].
    cbn. f_equal. unfold e_key. cbn. exact Hk.
Qed.

Lemma trie_add_spec fam C tr p val :
  trie_rep fam C tr → ip_ok p → family_ p = fam → (Z.of_nat (size C) < UINT_MAX)%Z →
  ∃ tr', trie_add ltb p val tr =
           Ok (match C !! ip_key p with Some v => bool_decide (val = v) | None => true end, tr') ∧
         trie_rep fam (match C !! ip_key p with Some _ => C | None => <[ip_key p := val]> C end) tr'.
Proof.
  intros [[t TR] HCa] Hp Hf Hsz. destruct (new_prefix_spec fam C t tr p TR Hp Hf) as (q & st & HN & TR1).
  unfold trie_add. rewrite (st_bind_Ok _ _ _ _ _ HN).
  rewrite (st_bind_Ok _ _ _ _ _ (on_tree_Ok _ (Trie T st _) _ _ (search_exact_C fam C t st q p TR1 Hp Hf))).
  pose proof (find_key_contents _ C t (ip_key p) (rep_wf _ _ _ _ (tr_rep _ _ _ _ _ TR1))
    (tr_contents _ _ _ _ _ TR1)) as HF.
  destruct (find_key (ip_key p) (entries t)) as [e|] eqn:F; cbn [fmap option_fmap option_map].
  - destruct HF as (He & Hk & v & Hd & HC). rewrite HC.
    destruct (rep_entry_node _ _ _ _ e (tr_rep _ _ _ _ _ TR1) He) as (n & Hn & _ & Hnd).
    rewrite (st_bind_Ok _ _ _ _ _ (on_tree_Ok _ (Trie T st _) _ _ (get_node_Ok _ _ _ Hn))).
    rewrite (st_bind_Ok get_cache _ _ _ _ eq_refl). cbn [val_cache_].
    rewrite Hnd, Hd, (cache_read C _ (ip_key p)) by done. rewrite st_lift_bind.
    destruct (deref_new_prefix fam C t st q p TR1) as (st' & HD & TR2).
    rewrite (st_bind_Ok _ _ _ _ _ (on_tree_Ok _ (Trie T st _) _ _ HD)).
    eexists. split; [reflexivity|]. split; [|exact HCa]. eauto.
  - rewrite HF. destruct (insert_new fam C t st q p val TR1 Hp Hf F)
      as (node & t1 & st1 & H1 & (t2 & st2 & H2 & t3 & st3 & H3 & _ & TR3) & _).
    rewrite (st_bind_Ok _ _ _ _ _ (on_tree_Ok _ (Trie T st _) _ _ H1)).
    rewrite (st_bind_Ok _ _ _ _ _ (on_tree_Ok _ (Trie T st1 _) _ _ H2)).
    rewrite (st_bind_Ok get_cache _ _ _ _ eq_refl).
    erewrite (st_bind_Ok (put_cache _)); [|reflexivity]. cbn [tree_ val_cache_].
    erewrite st_bind_Ok; [|apply on_tree_Ok; exact H3].
    eexists. split; [reflexivity|]. split; [eauto|]. cbn. by apply cache_ref_ok.
Qed.

(** ** [remove (prefix, val)] *)
Lemma remove_entry fam C t st e : tree_rep fam C t ∅ st → e ∈ entries t →
  ∃ t' st', patricia_remove (e_node e) st = Ok (tt, st') ∧ tree_rep fam (delete (e_key e) C) t' ∅ st' ∧
    entries t ≡ₚ e :: entries t'.
Proof.
  intros [R Hm Hok Hc] He. pose proof Hok as Hok'. rewrite Forall_forall in Hok'.
  destruct (Hok' e He) as [_ Hrc].
  destruct (remove_spec _ _ _ _ e R He ltac:(lia)) as (t' & st' & H1 & R' & M' & E').
  unfold deref_ext in R'. rewrite Hrc in R'. exists t', st'. split; [done|]. split; [|done].
  destruct (entry_lookup C t e Hc He) as (v & Hd & HC).
  constructor; [done|by rewrite M'| |].
  - rewrite E' in Hok. by apply Forall_cons in Hok as [_ Hok].
  - unfold contents_of, assoc in *. rewrite E' in Hc.
    rewrite (map_to_list_extract C _ _ HC) in Hc. cbn [fmap list_fmap] in Hc. rewrite Hd in Hc.
    by apply Permutation_cons_inv in Hc.
Qed.

Lemma trie_remove_spec fam C tr p val :
  trie_rep fam C tr → ip_ok p → family_ p = fam → (Z.of_nat (size C) ≤ UINT_MAX)%Z →
  ∃ tr', trie_remove ltb p val tr = Ok (bool_decide (C !! ip_key p = Some val), tr') ∧
    trie_rep fam (if bool_decide (C !! ip_key p = Some val) then delete (ip_key p) C else C) tr'.
Proof.
  intros [[t TR] HCa] Hp Hf Hsz. destruct (new_prefix_spec fam C t tr p TR Hp Hf) as (q & st & HN & TR1).
  unfold trie_remove. rewrite (st_bind_Ok _ _ _ _ _ HN).
  rewrite (st_bind_Ok _ _ _ _ _ (on_tree_Ok _ (Trie T st _) _ _ (search_exact_C fam C t st q p TR1 Hp Hf))).
  destruct (deref_new_prefix fam C t st q p TR1) as (st' & HD & TR2). cbn [tree_ val_cache_].
  rewrite (st_bind_Ok _ _ _ _ _ (on_tree_Ok _ (Trie T st _) _ _ HD)). cbn [tree_ val_cache_].
  pose proof (find_key_contents _ C t (ip_key p) (rep_wf _ _ _ _ (tr_rep _ _ _ _ _ TR1))
    (tr_contents _ _ _ _ _ TR1)) as HF.
  destruct (find_key (ip_key p) (entries t)) as [e|] eqn:F; cbn [fmap option_fmap option_map].
  2:{ rewrite HF. eexists. split; [reflexivity|]. split; [eauto|done]. }
  destruct HF as (He & Hk & v & Hd & HC).
  destruct (rep_entry_node _ _ _ _ e (tr_rep _ _ _ _ _ TR2) He) as (n & Hn & _ & Hnd).
  rewrite (st_bind_Ok _ _ _ _ _ (on_tree_Ok _ (Trie T st' _) _ _ (get_node_Ok _ _ _ Hn))).
  rewrite (st_bind_Ok get_cache _ _ _ _ eq_refl). cbn [val_cache_].
  rewrite Hnd, Hd, (cache_read C _ (ip_key p)) by done. rewrite st_lift_bind, HC.
  destruct (decide (v = val)) as [->|Hne].
  - rewrite (bool_decide_eq_false_2 (val ≠ val)), (bool_decide_eq_true_2 (Some val = Some val)) by naive_solver.
    destruct (remove_entry fam C t st' e TR2 He) as (t' & st2 & H2 & TR3 & _).
    rewrite (st_bind_Ok _ _ _ _ _ (on_tree_Ok _ (Trie T st' _) _ _ H2)).
    destruct (cache_unref_ok C _ (ip_key p) val HCa HC Hsz) as (c & Hc & HCa').
    rewrite Hc. eexists. split; [reflexivity|]. rewrite Hk in TR3. split; [eauto|exact HCa'].
  - rewrite (bool_decide_eq_true_2 (v ≠ val)), bool_decide_eq_false_2 by (done || congruence).
    eexists. split; [reflexivity|]. split; [eauto|done].
Qed.

(** ** [remove (val)] *)
Lemma filter_nodes_spec fam C t tr (val : T) es :
  tree_rep fam C t ∅ (tree_ tr) → (∀ e, e ∈ es → e ∈ entries t) →
  filter_nodes (λ n, mret (bool_decide (n_data n = Some val))) (e_node <$> es) tr =
  Ok (e_node <$> filter (λ e, e_d e = Some val) es, tr).
Proof.
  intros TR. induction es as [|e es IH]; intros Hsub; [done|]. cbn [fmap list_fmap filter_nodes].
  destruct (rep_entry_node _ _ _ _ e (tr_rep _ _ _ _ _ TR) (Hsub e ltac:(left))) as (n & Hn & _ & Hd).
  rewrite (st_bind_Ok _ _ _ _ _ (on_tree_Ok _ tr _ _ (get_node_Ok _ _ _ Hn))).
  replace (Trie T (tree_ tr) (val_cache_ tr)) with tr by by destruct tr.
  rewrite st_lift_bind. cbn [mret outcome_ret].
  rewrite (st_bind_Ok _ _ _ _ _ (IH (λ e' H, Hsub e' (list_elem_of_further _ _ _ H)))).
  rewrite Hd, filter_cons. case_bool_decide; case_decide; done.
Qed.

Definition delete_keys C (es : list (entry T)) := foldl (λ C e, delete (e_key e) C) C es.

Lemma remove_list fam C t st c es :
  tree_rep fam C t ∅ st → NoDup es → (∀ e, e ∈ es → e ∈ entries t) →
  ∃ t' st', st_iter (λ node, on_tree (patricia_remove node)) (e_node <$> es) (Trie T st c) =
      Ok (tt, Trie T st' c) ∧ tree_rep fam (delete_keys C es) t' ∅ st'.
Proof.
  revert C t st. induction es as [|e es IH]; intros C t st TR ND Hsub; [by exists t, st|].
  apply NoDup_cons in ND as [Hne ND].
  destruct (remove_entry fam C t st e TR (Hsub e ltac:(left))) as (t1 & st1 & H1 & TR1 & P).
  destruct (IH _ t1 st1 TR1 ND) as (t' & st' & H2 & TR').
  { intros e' He'. specialize (Hsub e' ltac:(by right)). rewrite P in Hsub.
    apply elem_of_cons in Hsub as [->|?]; done. }
  exists t', st'. split; [|done]. cbn [fmap list_fmap].
  rewrite (st_iter_cons _ _ _ _ (Trie T st1 c)); [exact H2|]. by apply on_tree_Ok.
Qed.

Lemma lookup_delete_keys C es k :
  delete_keys C es !! k = if decide (k ∈ e_key <$> es) then None else C !! k.
Proof.
  revert C. induction es as [|e es IH]; intros C; cbn; [done|].
  unfold delete_keys in IH. rewrite IH, lookup_delete. repeat case_decide; set_solver.
Qed.

Lemma count_delete_keys C es v w : v ≠ w → NoDup (e_key <$> es) →
  (∀ e, e ∈ es → C !! e_key e = Some v) → count w (delete_keys C es) = count w C.
Proof.
  intros Hne. revert C. induction es as [|e es IH]; intros C ND HC; [done|].
  cbn in ND. apply NoDup_cons in ND as [Hn ND]. cbn. unfold delete_keys in IH. rewrite IH; [|done|].
  - rewrite (count_delete C (e_key e) v w (HC e ltac:(left))). by rewrite decide_False.
  - intros e' He'. rewrite lookup_delete_ne; [apply HC; by right|].
    intros E. apply Hn. rewrite E. apply list_elem_of_fmap. eauto.
Qed.

Lemma NoDup_fmap_filter {A B} (f : A → B) (P : A → Prop) `{∀ a, Decision (P a)} l :
  NoDup (f <$> l) → NoDup (f <$> filter P l).
Proof.
  induction l as [|a l IH]; [done|]. cbn [fmap list_fmap]. intros [Hn ND]%NoDup_cons.
  rewrite filter_cons. case_decide; [|by apply IH]. cbn [fmap list_fmap].
  apply NoDup_cons. split; [|by apply IH]. rewrite !list_elem_of_fmap in *.
  intros (x & E & [_ Hx]%list_elem_of_filter). apply Hn. eauto.
Qed.

(** The map without the prefixes of a value. *)
Definition without (val : T) C : gmap (list bool) T := filter (λ kv, kv.2 ≠ val) C.

Lemma delete_val C t val : contents_of t ≡ₚ assoc C →
  delete_keys C (filter (λ e, e_d e = Some val) (entries t)) = without val C.
Proof.
  intros H. apply map_eq. intros k. rewrite lookup_delete_keys. unfold without.
  symmetry. case_decide as Hk.
  - apply list_elem_of_fmap in Hk as (e & -> & [Hd He]%list_elem_of_filter).
    destruct (entry_lookup C t e H He) as (v & Hv & HC). apply map_lookup_filter_None. right.
    intros v' Hv'. cbn. intros Hx. apply Hx. congruence.
  - destruct (C !! k) as [v|] eqn:HC; [|apply map_lookup_filter_None; by left].
    apply map_lookup_filter_Some. split; [done|]. cbn. intros ->. apply Hk.
    destruct (lookup_entry C t k val H HC) as (e & He & <- & Hd).
    apply list_elem_of_fmap. exists e. split; [done|]. by apply list_elem_of_filter.
Qed.

Lemma cache_without C t c val : cache_ok C c → contents_of t ≡ₚ assoc C →
  NoDup (e_key <$> entries t) → cache_ok (without val C) (map_erase ltb val c).
Proof.
  intros [HS HF] H ND. split; [by apply map_erase_sorted|]. intros v.
  destruct (decide (val = v)) as [<-|Hne].
  - rewrite map_find_erase_eq by done. replace (count val (without val C)) with 0; [done|].
    symmetry. apply count_zero. intros k [_ Hk]%map_lookup_filter_Some. by apply Hk.
  - rewrite map_find_erase_ne, HF by done. rewrite <- (delete_val C t val H).
    rewrite (count_delete_keys C _ val v); try done.
    + by apply NoDup_fmap_filter.
    + intros e [Hd He]%list_elem_of_filter. destruct (entry_lookup C t e H He) as (w & Hw & HC). congruence.
Qed.

Lemma tree_rep_keys fam C t ext st : tree_rep fam C t ext st → NoDup (e_key <$> entries t).
Proof. intros TR. eapply wf_NoDup_keys. apply (tr_rep _ _ _ _ _ TR). Qed.

Lemma trie_remove_val_spec fam C tr val :
  trie_rep fam C tr →
  ∃ tr', trie_remove_val ltb val tr = Ok (negb (count val C =? 0), tr') ∧
    trie_rep fam (without val C) tr'.
Proof.
  intros [[t TR] HCa]. unfold trie_remove_val. rewrite (st_bind_Ok get_cache _ _ _ _ eq_refl).
  pose proof (tree_rep_keys _ _ _ _ _ TR) as ND. pose proof (tr_contents _ _ _ _ _ TR) as Hc.
  rewrite (proj2 HCa val). destruct (Nat.eqb_spec (count val C) 0) as [E|E].
  - exists tr. split; [done|]. replace (without val C) with C; [by split; eauto|].
    symmetry. apply map_filter_id. intros k v Hk. cbn. intros ->. by apply (proj1 (count_zero C val) E k).
  - rewrite (st_bind_Ok _ _ _ _ _ (on_tree_Ok _ tr _ _ (walk_spec _ _ _ _ (tr_rep _ _ _ _ _ TR)))).
    replace (Trie T (tree_ tr) (val_cache_ tr)) with tr by by destruct tr.
    rewrite (st_bind_Ok _ _ _ _ _ (filter_nodes_spec fam C t tr val _ TR (λ e H, H))).
    destruct (remove_list fam C t (tree_ tr) (val_cache_ tr) (filter (λ e, e_d e = Some val) (entries t)) TR)
      as (t' & st' & H1 & TR').
    { apply NoDup_filter. by eapply NoDup_fmap_1. }
    { intros e [_ He]%list_elem_of_filter. done. }
    replace (Trie T (tree_ tr) (val_cache_ tr)) with tr in H1 by by destruct tr.
    rewrite (st_bind_Ok _ _ _ _ _ H1). eexists. split; [reflexivity|].
    rewrite (delete_val C t val Hc) in TR'. split; [eauto|]. cbn. by eapply cache_without.
Qed.

(** ** [clear] *)
Definition known_family (fam : Z) : Prop := fam = AF_INET ∨ fam = AF_INET6.

Lemma empty_rep fam : known_family fam →
  trie_rep fam ∅ (Trie T (PTree T ∅ ∅ None MAX_PREFIX_BITLEN 0) []).
Proof.
  intros Hf. split; [|by split; [constructor|]].
  exists E. constructor; try done. constructor; try done; cbn.
  - constructor.
  - constructor.
  - by apply width_le.
Qed.

Lemma trie_new_spec fam : known_family fam → ∃ tr, trie_new = Ok tr ∧ trie_rep fam ∅ tr.
Proof. intros Hf. eexists. split; [reflexivity|]. by apply empty_rep. Qed.

Lemma trie_clear_spec fam C tr : known_family fam → trie_rep fam C tr →
  ∃ tr', trie_clear tr = Ok (tt, tr') ∧ trie_rep fam ∅ tr'.
Proof.
  intros Hf [[t TR] HCa]. unfold trie_clear.
  destruct (clear_spec _ _ _ _ (tr_rep _ _ _ _ _ TR)) as (st' & H1 & _).
  { eapply Forall_impl; [apply (tr_ok _ _ _ _ _ TR)|]. intros e [_ ->]. done. }
  unfold Destroy_Patricia. rewrite (st_bind_Ok _ _ _ _ _ (on_tree_Ok _ tr _ _ H1)).
  eexists. split; [reflexivity|]. by apply empty_rep.
Qed.

(** ** Reading an entry *)
Lemma px_to_ip fam x : known_family fam → px_family x = fam → pfx_ok (width fam) x →
  ∃ ip, IPPrefix_raw (px_family x) (Some (px_add x)) (Z.of_nat (px_bitlen x)) = Ok ip ∧
    ip_ok ip ∧ family_ ip = fam ∧ ip_key ip = key_of x.
Proof.
  intros Hf <- (Hb & Hl & Hw). unfold width in *.
  assert (Hs : addr_bytes (px_family x) ≤ 16) by (destruct Hf as [->| ->]; cbv; lia).
  destruct (IPPrefix_raw_spec (px_family x) (px_add x) (Z.of_nat (px_bitlen x)) Hf Hb) as
    (ip & H1 & H2 & H3 & H4 & H5); [lia|unfold USHRT_MAX; lia|].
  exists ip. split_and!; try done. rewrite H5, H4. unfold key_of. f_equal. lia.
Qed.

Lemma entry_ip fam C t ext st e : known_family fam → tree_rep fam C t ext st → e ∈ entries t →
  ∃ ip, IPPrefix_raw (px_family (e_x e)) (Some (px_add (e_x e))) (Z.of_nat (px_bitlen (e_x e))) = Ok ip ∧
    ip_ok ip ∧ family_ ip = fam ∧ ip_key ip = e_key e.
Proof.
  intros Hf TR He. apply px_to_ip; [done| |].
  - pose proof (tr_ok _ _ _ _ _ TR) as Hok. rewrite Forall_forall in Hok. apply (Hok e He).
  - eapply wf_entries; [apply (tr_rep _ _ _ _ _ TR)|done].
Qed.

(** ** [lookup] *)

(** [r] is the longest-prefix match of the address bits [k] in [C]. *)
Definition lpm (fam : Z) C (k : list bool) (r : option (T * IPPrefix)) : Prop :=
  match r with
  | None => ∀ k' v, C !! k' = Some v → ¬ k' `prefix_of` k
  | Some (v, ip) => ip_ok ip ∧ family_ ip = fam ∧ C !! ip_key ip = Some v ∧ ip_key ip `prefix_of` k ∧
      ∀ k' v', C !! k' = Some v' → k' `prefix_of` k → length k' ≤ length (ip_key ip)
  end.

Lemma lpm_entries fam C t st k : tree_rep fam C t ∅ st →
  match best_match k k t with
  | Some e => e ∈ entries t ∧ ∃ v, e_d e = Some v ∧ C !! e_key e = Some v ∧ e_key e `prefix_of` k ∧
      ∀ k' v', C !! k' = Some v' → k' `prefix_of` k → length k' ≤ length (e_key e)
  | None => ∀ k' v, C !! k' = Some v → ¬ k' `prefix_of` k
  end.
Proof.
  intros TR. pose proof (best_match_full _ t k (rep_wf _ _ _ _ (tr_rep _ _ _ _ _ TR))) as HB.
  pose proof (tr_contents _ _ _ _ _ TR) as Hc. destruct (best_match k k t) as [e|].
  - destruct HB as (He & Hp & Hmax). split; [done|].
    destruct (entry_lookup C t e Hc He) as (v & Hd & HC). exists v. split_and!; try done.
    intros k' v' HC' Hp'. destruct (lookup_entry C t k' v' Hc HC') as (e' & He' & <- & _). by apply Hmax.
  - intros k' v HC Hp. destruct (lookup_entry C t k' v Hc HC) as (e & He & <- & _). by apply (HB e).
Qed.

Lemma trie_lookup_spec fam C tr a :
  trie_rep fam C tr → ip_ok a → family_ a = fam → length_ a = Z.of_nat (width fam) →
  ∃ r tr', trie_lookup ltb a tr = Ok (r, tr') ∧ lpm fam C (ip_key a) r ∧ trie_rep fam C tr'.
Proof.
  intros [[t TR] HCa] Hp Hf Hlen. assert (Hkf : known_family fam) by (rewrite <- Hf; apply Hp).
  destruct (new_prefix_spec fam C t tr a TR Hp Hf) as (q & st & HN & TR1).
  unfold trie_lookup. rewrite (st_bind_Ok _ _ _ _ _ HN).
  pose proof (px_of_ok a Hp) as [Hx Hk]. rewrite Hf in Hx.
  assert (Hfull : abits (px_add (px_of a)) (width fam) = ip_key a).
  { rewrite <- Hk. unfold key_of, px_of. cbn [px_add px_bitlen]. by rewrite Hlen, Nat2Z.id. }
  pose proof (search_best2_spec _ _ _ _ q (px_of a) true (tr_rep _ _ _ _ _ TR1)
    (lookup_singleton_eq _ _) Hx) as HS. rewrite Hfull, Hk in HS. fold (candidates (ip_key a) t) in HS.
  fold (best_match (ip_key a) (ip_key a) t) in HS. unfold patricia_search_best.
  rewrite (st_bind_Ok _ _ _ _ _ (on_tree_Ok _ (Trie T st _) _ _ HS)). cbn [val_cache_].
  destruct (deref_new_prefix fam C t st q a TR1) as (st' & HD & TR2).
  rewrite (st_bind_Ok _ _ _ _ _ (on_tree_Ok _ (Trie T st _) _ _ HD)). cbn [val_cache_].
  pose proof (lpm_entries fam C t st' (ip_key a) TR2) as HL.
  destruct (best_match (ip_key a) (ip_key a) t) as [e|]; cbn [fmap option_fmap option_map].
  2:{ eexists None, _. split; [reflexivity|]. split; [done|]. split; [eauto|done]. }
  destruct HL as (He & v & Hd & HC & Hpre & Hmax).
  destruct (rep_entry_node _ _ _ _ e (tr_rep _ _ _ _ _ TR2) He) as (n & Hn & Hnp & Hnd).
  destruct (entry_ip fam C t _ _ e Hkf TR2 He) as (ip & Hip & Hok & Hfam & Hik).
  rewrite (st_bind_Ok _ _ _ _ _ (on_tree_Ok _ (Trie T st' _) _ _ (get_node_Ok _ _ _ Hn))), Hnp.
  erewrite (st_bind_Ok (on_tree (deref _))); [|by apply on_tree_Ok]. cbn [tree_ val_cache_].
  rewrite (st_bind_Ok _ _ _ _ _ (on_tree_Ok _ (Trie T st' _) _ _
    (get_prefix_Ok _ _ _ (rep_entry_prefix _ _ _ _ _ (tr_rep _ _ _ _ _ TR2) He)))).
  rewrite Hip, st_lift_bind. erewrite (st_bind_Ok get_cache); [|reflexivity]. cbn [val_cache_].
  rewrite Hnd, Hd, (cache_read C _ (e_key e)) by done. rewrite st_lift_bind.
  eexists (Some (v, ip)), _. split; [reflexivity|]. split; [|split; [eauto|done]].
  unfold lpm. rewrite Hik. done.
Qed.

(** ** [has_prefixes], [enumerate_values] *)
Lemma cache_find_iff C c v : cache_ok C c → is_Some (map_find ltb v c) ↔ ∃ k, C !! k = Some v.
Proof.
  intros [_ HF]. rewrite HF. destruct (Nat.eqb_spec (count v C) 0) as [E|E].
  - rewrite is_Some_alt. split; [done|]. intros [k Hk]. by apply (proj1 (count_zero C v) E k).
  - split; [intros _|by eexists]. 
    destruct (filter (λ kv : list bool * T, kv.2 = v) (map_to_list C)) as [|[k w] l] eqn:EF.
    { unfold count in E. by rewrite EF in E. }
    assert (Hin : (k, w) ∈ filter (λ kv, kv.2 = v) (map_to_list C)) by (rewrite EF; left).
    apply list_elem_of_filter in Hin as [Hv Hin]. cbn in Hv. subst. exists k. by apply elem_of_map_to_list.
Qed.

Lemma trie_has_prefixes_spec fam C tr val : trie_rep fam C tr →
  ∃ b, trie_has_prefixes ltb val tr = Ok (b, tr) ∧ (b = true ↔ ∃ k, C !! k = Some val).
Proof.
  intros [_ HC]. eexists. split; [reflexivity|]. rewrite bool_decide_eq_true.
  by apply cache_find_iff.
Qed.

Lemma trie_enumerate_values_spec fam C tr : trie_rep fam C tr →
  ∃ vs, trie_enumerate_values tr = Ok (vs, tr) ∧ StronglySorted (λ a b, ltb a b = true) vs ∧
    ∀ v, v ∈ vs ↔ ∃ k, C !! k = Some v.
Proof.
  intros [_ HC]. eexists. split; [reflexivity|]. split.
  - destruct HC as [HS _]. induction (val_cache_ tr) as [|[v n] c IH]; [constructor|].
    apply StronglySorted_inv in HS as [HS HF]. constructor; [by apply IH|].
    apply Forall_forall. intros w (p & -> & Hp)%list_elem_of_fmap.
    rewrite Forall_forall in HF. by apply (HF p).
  - intros v. rewrite <- (cache_find_iff C _ v HC). split.
    + intros ([v' n] & -> & Hp)%list_elem_of_fmap. exists n. apply map_find_elem; [done|apply HC|done].
    + intros [n Hn]. apply map_find_elem in Hn; [|done|apply HC]. apply list_elem_of_fmap. by exists (v, n).
Qed.

(** ** [get_prefixes] *)
Lemma node_prefix_spec fam C t tr e n : known_family fam → tree_rep fam C t ∅ (tree_ tr) →
  e ∈ entries t → n_prefix n = Some (e_q e) →
  ∃ ip, node_prefix n tr = Ok (Some ip, tr) ∧ ip_ok ip ∧ family_ ip = fam ∧ ip_key ip = e_key e.
Proof.
  intros Hkf TR He Hn. destruct (entry_ip fam C t _ _ e Hkf TR He) as (ip & Hip & Hok).
  exists ip. split; [|done]. unfold node_prefix. rewrite Hn.
  assert (Etr : Trie T (tree_ tr) (val_cache_ tr) = tr) by by destruct tr.
  erewrite (st_bind_Ok (on_tree (deref _))); [|by apply on_tree_Ok]. rewrite Etr.
  rewrite (st_bind_Ok _ _ _ _ _ (on_tree_Ok _ tr _ _
    (get_prefix_Ok _ _ _ (rep_entry_prefix _ _ _ _ _ (tr_rep _ _ _ _ _ TR) He)))), Etr.
  assert (Hfam : px_family (e_x e) = fam).
  { pose proof (tr_ok _ _ _ _ _ TR) as Ho. rewrite Forall_forall in Ho. apply (Ho e He). }
  assert (Hb : (px_family (e_x e) =? AF_INET)%Z || (px_family (e_x e) =? AF_INET6)%Z = true)
    by (rewrite Hfam; by destruct Hkf as [->| ->]).
  rewrite Hb, Hip, st_lift_bind. done.
Qed.

Lemma collect_spec fam C t tr val es : known_family fam → tree_rep fam C t ∅ (tree_ tr) →
  cache_ok C (val_cache_ tr) → (∀ e, e ∈ es → e ∈ entries t) →
  ∃ ips, collect_prefixes ltb val (e_node <$> es) tr = Ok (ips, tr) ∧
    Forall (λ ip, ip_ok ip ∧ family_ ip = fam) ips ∧
    (ip_key <$> ips) = (e_key <$> filter (λ e, e_d e = Some val) es).
Proof.
  intros Hkf TR HC. induction es as [|e es IH]; intros Hsub; [by exists []|].
  assert (He : e ∈ entries t) by (apply Hsub; left).
  destruct IH as (ips & HI & HF & HK); [intros; apply Hsub; by right|].
  cbn [fmap list_fmap collect_prefixes].
  destruct (rep_entry_node _ _ _ _ e (tr_rep _ _ _ _ _ TR) He) as (n & Hn & Hnp & Hnd).
  assert (Etr : Trie T (tree_ tr) (val_cache_ tr) = tr) by by destruct tr.
  rewrite (st_bind_Ok _ _ _ _ _ (on_tree_Ok _ tr _ _ (get_node_Ok _ _ _ Hn))), Etr.
  rewrite (st_bind_Ok get_cache _ _ _ _ eq_refl).
  destruct (entry_lookup C t e (tr_contents _ _ _ _ _ TR) He) as (v & Hd & HCk).
  rewrite Hnd, Hd, (cache_read C _ (e_key e)), st_lift_bind by done.
  rewrite filter_cons, Hd. destruct (decide (v = val)) as [->|Hne].
  - rewrite bool_decide_eq_false_2 by naive_solver.
    destruct (node_prefix_spec fam C t tr e n Hkf TR He Hnp) as (ip & Hip & Hok & Hfam & Hik).
    rewrite (st_bind_Ok _ _ _ _ _ Hip), (st_bind_Ok _ _ _ _ _ HI). exists (ip :: ips).
    rewrite decide_True by done. split; [done|]. split; [by apply Forall_cons|]. cbn. by rewrite Hik, HK.
  - rewrite bool_decide_eq_true_2 by done. rewrite (st_bind_Ok (mret None) _ tr None tr eq_refl).
    rewrite (st_bind_Ok _ _ _ _ _ HI). exists ips. rewrite decide_False by congruence. done.
Qed.

(** The prefixes of a value, each once. *)
Definition prefixes_of (fam : Z) C (val : T) (ips : list IPPrefix) : Prop :=
  NoDup ips ∧ ∀ ip, ip ∈ ips ↔ ip_ok ip ∧ family_ ip = fam ∧ C !! ip_key ip = Some val.

Lemma prefixes_of_intro fam C t ext st val ips : tree_rep fam C t ext st →
  Forall (λ ip, ip_ok ip ∧ family_ ip = fam) ips →
  ip_key <$> ips ≡ₚ e_key <$> filter (λ e, e_d e = Some val) (entries t) → prefixes_of fam C val ips.
Proof.
  intros TR HF HK. pose proof (tr_contents _ _ _ _ _ TR) as Hc. rewrite Forall_forall in HF. split.
  - apply (NoDup_fmap_1 ip_key). rewrite HK. apply NoDup_fmap_filter. by eapply tree_rep_keys.
  - intros ip. split.
    + intros Hin. destruct (HF ip Hin) as [H1 H2]. split_and!; try done.
      assert (Hk : ip_key ip ∈ ip_key <$> ips) by (apply list_elem_of_fmap; eauto).
      rewrite HK in Hk. apply list_elem_of_fmap in Hk as (e & -> & [Hd He]%list_elem_of_filter).
      destruct (entry_lookup C t e Hc He) as (v & Hv & HCk). congruence.
    + intros (H1 & H2 & H3). destruct (lookup_entry C t _ _ Hc H3) as (e & He & Hk & Hd).
      assert (Hin : ip_key ip ∈ ip_key <$> ips).
      { rewrite HK, <- Hk. apply list_elem_of_fmap. exists e. split; [done|]. by apply list_elem_of_filter. }
      apply list_elem_of_fmap in Hin as (ip' & E & Hin). destruct (HF ip' Hin) as [H4 H5].
      rewrite (ip_key_inj ip ip'); try done. congruence.
Qed.

Lemma trie_get_prefixes_spec fam C tr val : known_family fam → trie_rep fam C tr →
  ∃ ips, trie_get_prefixes ltb val tr = Ok (ips, tr) ∧ prefixes_of fam C val ips.
Proof.
  intros Hkf [[t TR] HC]. unfold trie_get_prefixes.
  rewrite (st_bind_Ok _ _ _ _ _ (on_tree_Ok _ tr _ _ (walk_spec _ _ _ _ (tr_rep _ _ _ _ _ TR)))).
  replace (Trie T (tree_ tr) (val_cache_ tr)) with tr by by destruct tr.
  destruct (collect_spec fam C t tr val (entries t) Hkf TR HC (λ e H, H)) as (ips & H1 & H2 & H3).
  exists ips. split; [done|]. eapply prefixes_of_intro; [exact TR|done|by rewrite H3].
Qed.

(** ** [copy_from] *)

(** The insertion of [copy_from]: the data is set before the caller's reference is
    dropped. *)
Lemma insert_copy fam C t st q x val : tree_rep fam C t {[q := x]} st →
  pfx_ok (width fam) x → px_family x = fam → px_ref_count x = 1%Z → C !! key_of x = None →
  ∃ node st1 st2 st3 t3, patricia_lookup q st = Ok (node, st1) ∧
    set_data node (Some val) st1 = Ok (tt, st2) ∧ Deref_Prefix (Some q) st2 = Ok (tt, st3) ∧
    tree_rep fam (<[key_of x := val]> C) t3 ∅ st3.
Proof.
  intros [R Hm Hok Hc] Hx Hf Hrc HC.
  assert (Hfind : find_key (key_of x) (entries t) = None).
  { pose proof (find_key_contents _ C t (key_of x) (rep_wf _ _ _ _ R) Hc) as HF.
    destruct (find_key _ _); [|done]. destruct HF as (_ & _ & v & _ & HC'). congruence. }
  pose proof (lookup_spec (width fam) _ st q x (lookup_singleton_eq q x) Hx ltac:(lia) t R) as HL.
  unfold inserted in HL. rewrite Hfind in HL. destruct HL as (node & t1 & st1 & H1 & R1 & M1 & E1).
  rewrite delete_singleton_eq in R1.
  set (e1 := Entry node q (set_ref_count (px_ref_count x + 1) x) None) in *.
  assert (He1 : e1 ∈ entries t1) by (rewrite E1; left).
  destruct (set_data_spec _ _ _ _ e1 (Some val) R1 He1) as (t2 & st2 & H2 & R2 & M2 & es & P1 & P2).
  set (e2 := Entry _ _ _ _) in P2. assert (He2 : e2 ∈ entries t2) by (rewrite P2; left).
  destruct (deref_entry_spec _ _ _ _ e2 R2 He2) as (t3 & st3 & H3 & R3 & M3 & es' & P3 & P4).
  { cbn. lia. }
  exists node, st1, st2, st3, t3. split_and!; try done.
  assert (Ees : es ≡ₚ entries t) by (rewrite E1 in P1; by apply Permutation_cons_inv in P1).
  assert (Ees' : es' ≡ₚ es) by (rewrite P2 in P3; by apply Permutation_cons_inv in P3).
  constructor; [done|by rewrite M3, M2, M1| |].
  - rewrite P4, Ees', Ees. apply Forall_cons. split; [|done]. split; [done|]. cbn. lia.
  - unfold contents_of. rewrite P4, Ees', Ees. cbn [fmap list_fmap]. unfold assoc.
    rewrite (map_to_list_insert C _ _ HC). cbn [fmap list_fmap]. f_equiv. exact Hc.
Qed.

Lemma New_Prefix_copy fam x (st : patricia_tree_t T) : known_family fam → pfx_ok (width fam) x →
  px_family x = fam → px_ref_count x = 1%Z →
  let q := fresh_loc (t_prefixes st) in
  New_Prefix (px_family x) (px_add x) (Z.of_nat (px_bitlen x)) st =
  Ok (Some q, set_prefixes (<[q := x]> (t_prefixes st)) st).
Proof.
  intros Hf (Hb & Hl & Hw) Hfam Hrc q. unfold width in *. destruct x as [f n rc a]. cbn in *. subst f rc.
  unfold New_Prefix, New_Prefix2, memcpy.
  assert (Hlen : length a = addr_bytes fam) by lia.
  destruct Hf as [->| ->]; cbn in Hlen, Hw |- *.
  all: rewrite Hlen; cbn [Nat.leb sizeof_addr4 sizeof_addr6]; rewrite st_lift_bind.
  all: destruct (Z.leb_spec 0 (Z.of_nat n)); [|lia]; rewrite u16_small by (cbv [sizeof_addr4 sizeof_addr6] in *; lia).
  all: rewrite Nat2Z.id, take_ge by (rewrite Hlen; done); reflexivity.
Qed.

Section CopyLoop.
Context (fam : Z) (Cr : gmap (list bool) T) (t : ptree T) (rhs : PatriciaTrie T).
Hypothesis Hkf : known_family fam.
Hypothesis TRr : tree_rep fam Cr t ∅ (tree_ rhs).
Hypothesis HCr : cache_ok Cr (val_cache_ rhs).
Hypothesis Hsz : (Z.of_nat (size Cr) ≤ UINT_MAX)%Z.

(** One iteration of the loop. *)
Lemma copy_step e v C tr ns : e ∈ entries t → Cr !! e_key e = Some v → C !! e_key e = None →
  (Z.of_nat (size C) < UINT_MAX)%Z → trie_rep fam C tr →
  ∃ tr', copy_entries ltb rhs (e_node e :: ns) tr = copy_entries ltb rhs ns tr' ∧
    trie_rep fam (<[e_key e := v]> C) tr'.
Proof.
  intros He HCv Hfree HszC [[t0 TR] HCa]. cbn [copy_entries].
  destruct (rep_entry_node _ _ _ _ e (tr_rep _ _ _ _ _ TRr) He) as (n & Hn & Hnp & Hnd).
  rewrite Hn. cbn [mbind option_bind]. rewrite Hnp. cbn [mbind option_bind].
  rewrite (rep_entry_prefix _ _ _ _ _ (tr_rep _ _ _ _ _ TRr) He). cbn [mbind option_bind].
  change (from_option_or UB (mret (e_x e, n_data n))) with (Ok (e_x e, n_data n)).
  rewrite st_lift_bind. cbv beta iota.
  destruct (entry_lookup Cr t e (tr_contents _ _ _ _ _ TRr) He) as (v' & Hd & HCv').
  assert (v' = v) by congruence. subst v'.
  pose proof (tr_ok _ _ _ _ _ TRr) as Ho. rewrite Forall_forall in Ho. destruct (Ho e He) as [Hfam Hrc].
  destruct (wf_entries _ _ _ _ (rep_wf _ _ _ _ (tr_rep _ _ _ _ _ TRr)) He) as [_ Hpx].
  rewrite (st_bind_Ok _ _ _ _ _ (on_tree_Ok _ tr _ _ (New_Prefix_copy fam (e_x e) (tree_ tr) Hkf Hpx Hfam Hrc))).
  cbn [from_option_or]. rewrite st_lift_bind. set (q := fresh_loc _). set (st0 := set_prefixes _ _).
  assert (TR0 : tree_rep fam C t0 {[q := e_x e]} st0).
  { destruct TR as [R Hm Hok Hc]. constructor; try done. rewrite <- insert_empty.
    apply (rep_ext_insert _ _ ∅); [done|]. apply fresh_loc_None. }
  destruct (insert_copy fam C t0 st0 q (e_x e) v TR0 Hpx Hfam Hrc Hfree)
    as (node & st1 & st2 & st3 & t3 & H1 & H2 & H3 & TR3).
  rewrite (st_bind_Ok _ _ _ _ _ (on_tree_Ok _ (Trie T st0 _) _ _ H1)). cbn [val_cache_].
  rewrite Hnd, Hd, (cache_read Cr _ (e_key e)), st_lift_bind by done.
  erewrite (st_bind_Ok get_cache); [|reflexivity]. erewrite (st_bind_Ok (put_cache _)); [|reflexivity].
  cbn [tree_ val_cache_]. rewrite (st_bind_Ok _ _ _ _ _ (on_tree_Ok _ (Trie T st1 _) _ _ H2)). cbn [val_cache_].
  rewrite (st_bind_Ok _ _ _ _ _ (on_tree_Ok _ (Trie T st2 _) _ _ H3)). cbn [val_cache_].
  eexists. split; [reflexivity|]. split; [by eexists|]. cbn. by apply cache_ref_ok.
Qed.

Lemma copy_entries_spec es : ∀ C tr,
  trie_rep fam C tr → NoDup (e_key <$> es) → (∀ e, e ∈ es → e ∈ entries t) →
  (∀ e, e ∈ es → C !! e_key e = None) → C ⊆ Cr →
  ∃ C' tr', copy_entries ltb rhs (e_node <$> es) tr = Ok (tt, tr') ∧ trie_rep fam C' tr' ∧ C' ⊆ Cr ∧
    C ⊆ C' ∧ ∀ e, e ∈ es → C' !! e_key e = Cr !! e_key e.
Proof.
  induction es as [|e es IH]; intros C tr HTR ND Hsub Hfree HCC.
  { exists C, tr. split_and!; try done. set_solver. }
  cbn in ND. apply NoDup_cons in ND as [Hnk ND]. assert (He : e ∈ entries t) by (apply Hsub; left).
  destruct (entry_lookup Cr t e (tr_contents _ _ _ _ _ TRr) He) as (v & Hd & HCv).
  assert (Hne : C !! e_key e = None) by (apply Hfree; left).
  assert (HCC' : <[e_key e := v]> C ⊆ Cr) by (by apply insert_subseteq_l).
  assert (Hlt : size C < size Cr).
  { apply map_subseteq_size in HCC'. rewrite map_size_insert_None in HCC' by done. lia. }
  destruct (copy_step e v C tr (e_node <$> es) He HCv Hne ltac:(lia) HTR) as (tr1 & H1 & HTR1).
  destruct (IH _ tr1 HTR1 ND) as (C' & tr' & H2 & H3 & H4 & H5 & H6); try done.
  { intros e' He'. apply Hsub. by right. }
  { intros e' He'. rewrite lookup_insert_ne; [apply Hfree; by right|].
    intros E. apply Hnk. rewrite E. apply list_elem_of_fmap. eauto. }
  exists C', tr'. split; [by cbn [fmap list_fmap]; rewrite H1|]. split_and!; try done.
  - etrans; [|exact H5]. by apply insert_subseteq.
  - intros e' [->|He']%elem_of_cons; [|by apply H6]. rewrite HCv.
    eapply lookup_weaken; [|exact H5]. apply lookup_insert_eq.
Qed.
End CopyLoop.

Lemma trie_copy_from_spec fam fam' C Cr tr rhs : known_family fam → known_family fam' →
  trie_rep fam' C tr → trie_rep fam Cr rhs → (Z.of_nat (size Cr) ≤ UINT_MAX)%Z →
  ∃ tr', trie_copy_from ltb rhs tr = Ok (tt, tr') ∧ trie_rep fam Cr tr'.
Proof.
  intros Hkf Hkf' [[t TR] HCa] [[tr0 TRr] HCr] Hsz. unfold trie_copy_from, trie_clear.
  destruct (clear_spec _ _ _ _ (tr_rep _ _ _ _ _ TR)) as (st' & H1 & _).
  { eapply Forall_impl; [apply (tr_ok _ _ _ _ _ TR)|]. intros e [_ ->]. done. }
  erewrite (st_bind_Ok (_ ;; _)).
  2:{ unfold Destroy_Patricia. rewrite (st_bind_Ok _ _ _ _ _ (on_tree_Ok _ tr _ _ H1)). reflexivity. }
  rewrite (walk_spec _ _ _ _ (tr_rep _ _ _ _ _ TRr)), st_lift_bind.
  destruct (copy_entries_spec fam Cr tr0 rhs Hkf TRr HCr Hsz (entries tr0) ∅ _ (empty_rep fam Hkf))
    as (C' & tr' & H2 & H3 & H4 & H5 & H6); try done.
  { by eapply tree_rep_keys. }
  { apply map_empty_subseteq. }
  exists tr'. split; [exact H2|]. replace Cr with C'; [done|]. apply map_eq. intros k.
  destruct (Cr !! k) as [v|] eqn:Ek.
  - destruct (lookup_entry Cr tr0 k v (tr_contents _ _ _ _ _ TRr) Ek) as (e & He & <- & _).
    by rewrite H6.
  - apply eq_None_not_Some. intros [v Hv]. eapply lookup_weaken in Hv; [|exact H4]. congruence.
Qed.

(** ** [enumerate] *)
Lemma val_to_idx_spec vals : NoDup vals → ∀ i acc, map_sorted ltb acc →
  (∀ j v, vals !! j = Some v → map_find ltb v (val_to_idx ltb i vals acc) = Some (i + j)) ∧
  (∀ v, v ∉ vals → map_find ltb v (val_to_idx ltb i vals acc) = map_find ltb v acc).
Proof.
  induction vals as [|w vals IH]; intros ND i acc HS; [done|].
  apply NoDup_cons in ND as [Hn ND]. cbn [val_to_idx].
  destruct (IH ND (S i) (map_set ltb w i acc)) as [H1 H2]; [by apply map_set_sorted|]. split.
  - intros [|j] v; cbn.
    + intros [= ->]. rewrite H2, map_find_set_eq by done. f_equal. lia.
    + intros Hj. rewrite (H1 j v Hj). f_equal. lia.
  - intros v [Hv1 Hv2]%not_elem_of_cons. rewrite H2 by done. by rewrite map_find_set_ne.
Qed.

(** Each position [i] of the vector gains the prefixes of its value. *)
Definition gains (fam : Z) (es : list (entry T)) (r r' : list (T * list IPPrefix)) : Prop :=
  ∀ i v ps, r !! i = Some (v, ps) → ∃ ips, r' !! i = Some (v, ps ++ ips) ∧
    Forall (λ ip, ip_ok ip ∧ family_ ip = fam) ips ∧
    ip_key <$> ips = e_key <$> filter (λ e, e_d e = Some v) es.

Lemma gains_step fam e v es i (ps : list IPPrefix) ip r r' :
  e_d e = Some v → r !! i = Some (v, ps) → NoDup r.*1 →
  ip_ok ip → family_ ip = fam → ip_key ip = e_key e →
  gains fam es (<[i := (v, ps ++ [ip])]> r) r' → gains fam (e :: es) r r'.
Proof.
  intros Hd Hi ND Hok Hf Hk HG j w qs Hj. destruct (decide (j = i)) as [->|Hne].
  - assert (E : (w, qs) = (v, ps)) by congruence. injection E as -> ->.
    destruct (HG i v (ps ++ [ip])) as (ips & H1 & H2 & H3).
    { apply list_lookup_insert_eq. by eapply lookup_lt_Some. }
    exists (ip :: ips). rewrite H1, <- app_assoc. split; [done|]. split; [by apply Forall_cons|].
    rewrite filter_cons, decide_True by done. cbn. by rewrite Hk, H3.
  - destruct (HG j w qs) as (ips & H1 & H2 & H3); [by rewrite list_lookup_insert_ne by done|].
    exists ips. split; [done|]. split; [done|]. rewrite filter_cons, decide_False; [done|].
    rewrite Hd. intros [= ->]. apply Hne. eapply (NoDup_lookup r.*1); [done| |].
    + rewrite list_lookup_fmap, Hj. done.
    + rewrite list_lookup_fmap, Hi. done.
Qed.

Lemma enumerate_walk_spec fam C t tr idx : known_family fam → tree_rep fam C t ∅ (tree_ tr) →
  cache_ok C (val_cache_ tr) → ∀ es r, (∀ e, e ∈ es → e ∈ entries t) → NoDup r.*1 →
  (∀ v k, C !! k = Some v → ∃ i ps, map_find ltb v idx = Some i ∧ r !! i = Some (v, ps)) →
  ∃ r', enumerate_walk ltb idx (e_node <$> es) r tr = Ok (r', tr) ∧ gains fam es r r' ∧ r'.*1 = r.*1.
Proof.
  intros Hkf TR HC. induction es as [|e es IH]; intros r Hsub ND Hidx.
  { exists r. split; [done|]. split; [|done]. intros i v ps Hi. exists []. rewrite app_nil_r. auto. }
  assert (He : e ∈ entries t) by (apply Hsub; left). cbn [fmap list_fmap enumerate_walk].
  destruct (rep_entry_node _ _ _ _ e (tr_rep _ _ _ _ _ TR) He) as (n & Hn & Hnp & Hnd).
  assert (Etr : Trie T (tree_ tr) (val_cache_ tr) = tr) by by destruct tr.
  rewrite (st_bind_Ok _ _ _ _ _ (on_tree_Ok _ tr _ _ (get_node_Ok _ _ _ Hn))), Etr.
  rewrite (st_bind_Ok get_cache _ _ _ _ eq_refl).
  destruct (entry_lookup C t e (tr_contents _ _ _ _ _ TR) He) as (v & Hd & HCk).
  rewrite Hnd, Hd, (cache_read C _ (e_key e)), st_lift_bind by done.
  destruct (Hidx v _ HCk) as (i & ps & Hi & Hri). rewrite Hi.
  destruct (node_prefix_spec fam C t tr e n Hkf TR He Hnp) as (ip & Hip & Hok & Hfam & Hik).
  rewrite (st_bind_Ok _ _ _ _ _ Hip), Hri.
  assert (Hfst : (<[i := (v, ps ++ [ip])]> r).*1 = r.*1).
  { rewrite list_fmap_insert. apply list_insert_id. by rewrite list_lookup_fmap, Hri. }
  destruct (IH (<[i := (v, ps ++ [ip])]> r)) as (r' & H1 & H2 & H3).
  { intros e' He'. apply Hsub. by right. }
  { by rewrite Hfst. }
  { intros w k Hk. destruct (Hidx w k Hk) as (j & qs & Hj & Hrj). destruct (decide (i = j)) as [<-|Hne].
    - exists i, (ps ++ [ip]). split; [done|]. assert (E : (w, qs) = (v, ps)) by congruence. injection E as -> _.
      apply list_lookup_insert_eq. by eapply lookup_lt_Some.
    - exists j, qs. split; [done|]. by rewrite list_lookup_insert_ne. }
  exists r'. split; [exact H1|]. split; [by eapply gains_step|]. by rewrite H3.
Qed.

Lemma cache_keys_NoDup (c : list (T * Z)) : map_sorted ltb c → NoDup c.*1.
Proof.
  intros HS. induction c as [|[v n] c IH]; [constructor|]. apply StronglySorted_inv in HS as [HS HF].
  cbn. apply NoDup_cons. split; [|by apply IH]. intros (p & E & Hp)%list_elem_of_fmap.
  rewrite Forall_forall in HF. specialize (HF p Hp). cbn in HF. rewrite <- E in HF.
  by rewrite (lt_irrefl (ltb := ltb)) in HF.
Qed.

(** Called with an empty vector: the values in order, each with all its prefixes. *)
Lemma trie_enumerate_spec fam C tr : known_family fam → trie_rep fam C tr →
  ∃ r, trie_enumerate ltb [] tr = Ok (r, tr) ∧
    StronglySorted (λ a b, ltb a b = true) r.*1 ∧ (∀ v, v ∈ r.*1 ↔ ∃ k, C !! k = Some v) ∧
    ∀ v ips, (v, ips) ∈ r → prefixes_of fam C v ips.
Proof.
  intros Hkf HTR. destruct (trie_enumerate_values_spec fam C tr HTR) as (vs & Hvs & HSt & Hin).
  injection Hvs as <-. destruct HTR as [[t TR] HC]. unfold trie_enumerate.
  rewrite (st_bind_Ok get_cache _ _ _ _ eq_refl). cbv zeta.
  rewrite (st_bind_Ok _ _ _ _ _ (on_tree_Ok _ tr _ _ (walk_spec _ _ _ _ (tr_rep _ _ _ _ _ TR)))).
  replace (Trie T (tree_ tr) (val_cache_ tr)) with tr by by destruct tr.
  set (r0 := (λ kv : T * Z, (kv.1, [])) <$> val_cache_ tr).
  assert (Hr0 : r0.*1 = (val_cache_ tr).*1) by (unfold r0; by rewrite <- list_fmap_compose).
  assert (ND : NoDup r0.*1) by (rewrite Hr0; apply cache_keys_NoDup, HC).
  destruct (val_to_idx_spec r0.*1 ND 0 [] ltac:(constructor)) as [HI _].
  destruct (enumerate_walk_spec fam C t tr (val_to_idx ltb 0 r0.*1 []) Hkf TR HC (entries t) r0)
    as (r' & H1 & H2 & H3); try done.
  { intros v k Hk. assert (Hv : v ∈ (val_cache_ tr).*1) by (apply Hin; eauto).
    rewrite <- Hr0 in Hv. apply list_elem_of_lookup in Hv as [i Hi]. pose proof (HI i v Hi) as Hf.
    rewrite list_lookup_fmap in Hi. destruct (r0 !! i) as [[w ps]|] eqn:E; [|done]. injection Hi as ->.
    exists i, ps. split; [exact Hf|done]. }
  exists r'. split; [exact H1|]. rewrite H3, Hr0. split; [done|]. split; [done|].
  intros v ips Hv. apply list_elem_of_lookup in Hv as [i Hi].
  assert (Hi0 : r0 !! i = Some (v, [])).
  { assert (E : r'.*1 !! i = Some v) by (rewrite list_lookup_fmap, Hi; done).
    rewrite H3, list_lookup_fmap in E. destruct (r0 !! i) as [[w ps]|] eqn:E0; [|done].
    injection E as ->. unfold r0 in E0. rewrite list_lookup_fmap in E0.
    destruct (val_cache_ tr !! i); [|done]. cbn in E0. congruence. }
  destruct (H2 i v [] Hi0) as (ips' & H4 & H5 & H6). rewrite Hi in H4. injection H4 as ->.
  eapply prefixes_of_intro; [exact TR|done|]. by rewrite H6.
Qed.
End TrieSpec.
