(* ===== verification/TrieProperties.v ===== *)
(** * Properties of the patricia tree and of the prefix trie

    The theorems about common/cpp/src/lib/detail/patricia.cpp and
    include/p4p/detail/patricia_trie.h, with their witnesses. *)
From S2P Require Import Prelude StdMap Patricia PatriciaBits PatriciaTree PatriciaSearch.
From S2P Require Import PatriciaInsert PatriciaRemove PatriciaWalk IpAddr PatriciaTrie.
From S2P Require Import PatriciaTrieSpec.

(** ** Histories of operations of a trie *)
Section History.
Context {T : Type} `{EqDecision T} (ltb : T → T → bool) `{!StrictTotal ltb}.

Inductive trie_op :=
  | OpAdd (p : IPPrefix) (v : T)
  | OpRemove (p : IPPrefix) (v : T)
  | OpRemoveVal (v : T)
  | OpClear
  | OpLookup (a : IPPrefix)
  | OpHasPrefixes (v : T).

Inductive trie_res :=
  | RBool (b : bool)
  | RUnit
  | RFound (r : option (T * IPPrefix)).

Definition trie_exec (o : trie_op) : ST (PatriciaTrie T) trie_res :=
  match o with
  | OpAdd p v => b ← trie_add ltb p v; mret (RBool b)
  | OpRemove p v => b ← trie_remove ltb p v; mret (RBool b)
  | OpRemoveVal v => b ← trie_remove_val ltb v; mret (RBool b)
  | OpClear => trie_clear;; mret RUnit
  | OpLookup a => r ← trie_lookup ltb a; mret (RFound r)
  | OpHasPrefixes v => b ← trie_has_prefixes ltb v; mret (RBool b)
  end.

Fixpoint trie_run (os : list trie_op) : ST (PatriciaTrie T) (list trie_res) :=
  match os with
  | [] => mret []
  | o :: os => r ← trie_exec o; rs ← trie_run os; mret (r :: rs)
  end.

(** What an operation does to, and reads from, the map of prefixes. *)
Inductive map_step (fam : Z) (C : gmap (list bool) T) : trie_op → trie_res → gmap (list bool) T → Prop :=
  | step_add_new p v : C !! ip_key p = None →
      map_step fam C (OpAdd p v) (RBool true) (<[ip_key p := v]> C)
  | step_add_old p v w : C !! ip_key p = Some w →
      map_step fam C (OpAdd p v) (RBool (bool_decide (v = w))) C
  | step_remove_hit p v : C !! ip_key p = Some v →
      map_step fam C (OpRemove p v) (RBool true) (delete (ip_key p) C)
  | step_remove_miss p v : C !! ip_key p ≠ Some v →
      map_step fam C (OpRemove p v) (RBool false) C
  | step_remove_val v b : (b = true ↔ ∃ k, C !! k = Some v) →
      map_step fam C (OpRemoveVal v) (RBool b) (filter (λ kv, kv.2 ≠ v) C)
  | step_clear : map_step fam C OpClear RUnit ∅
  | step_lookup a r : lpm fam C (ip_key a) r → map_step fam C (OpLookup a) (RFound r) C
  | step_has v b : (b = true ↔ ∃ k, C !! k = Some v) → map_step fam C (OpHasPrefixes v) (RBool b) C.

Inductive map_steps (fam : Z) : gmap (list bool) T → list trie_op → list trie_res → gmap (list bool) T → Prop :=
  | steps_nil C : map_steps fam C [] [] C
  | steps_cons C o r C' os rs C'' :
      map_step fam C o r C' → map_steps fam C' os rs C'' → map_steps fam C (o :: os) (r :: rs) C''.

(** Prefixes of the family of the trie; lookups of whole addresses. *)
Definition op_ok (fam : Z) (o : trie_op) : Prop :=
  match o with
  | OpAdd p _ | OpRemove p _ => ip_ok p ∧ family_ p = fam
  | OpLookup a => ip_ok a ∧ family_ a = fam ∧ length_ a = Z.of_nat (width fam)
  | OpRemoveVal _ | OpClear | OpHasPrefixes _ => True
  end.

Lemma count_occurs (v : T) (C : gmap (list bool) T) : negb (count v C =? 0) = true ↔ ∃ k, C !! k = Some v.
Proof.
  unfold count. rewrite negb_true_iff, Nat.eqb_neq. split.
  - intros Hn. destruct (filter _ _) as [|[k w] l] eqn:E; [done|].
    assert (Hin : (k, w) ∈ filter (λ kv : list bool * T, kv.2 = v) (map_to_list C)) by (rewrite E; left).
    apply list_elem_of_filter in Hin as [<- Hin%elem_of_map_to_list]. eauto.
  - intros [k Hk] E. apply length_zero_iff_nil in E.
    assert (Hin : (k, v) ∈ filter (λ kv : list bool * T, kv.2 = v) (map_to_list C)).
    { apply list_elem_of_filter. split; [done|]. by apply elem_of_map_to_list. }
    rewrite E in Hin. by apply elem_of_nil in Hin.
Qed.

(** One operation refines one step of the map; the map grows by at most one. *)
Lemma trie_exec_refines fam C tr o : known_family fam → trie_rep ltb fam C tr → op_ok fam o →
  (Z.of_nat (size C) < UINT_MAX)%Z →
  ∃ r tr' C', trie_exec o tr = Ok (r, tr') ∧ map_step fam C o r C' ∧ trie_rep ltb fam C' tr' ∧ size C' ≤ S (size C).
Proof.
  intros Hf R Ho Hsz. destruct o as [p v|p v|v| |a|v]; cbn [trie_exec op_ok] in *.
  - destruct Ho as [Hp Hpf]. destruct (trie_add_spec ltb _ _ _ p v R Hp Hpf Hsz) as (tr' & E & R').
    rewrite (st_bind_Ok _ _ _ _ _ E). destruct (C !! ip_key p) eqn:F; eexists _, _, _; (split; [reflexivity|]).
    + split; [by eapply step_add_old|]. eauto with lia.
    + split; [by eapply step_add_new|]. split; [done|]. rewrite map_size_insert_None by done. lia.
  - destruct Ho as [Hp Hpf]. destruct (trie_remove_spec ltb _ _ _ p v R Hp Hpf ltac:(lia)) as (tr' & E & R').
    rewrite (st_bind_Ok _ _ _ _ _ E). case_bool_decide as F; eexists _, _, _; (split; [reflexivity|]).
    + split; [by eapply step_remove_hit|]. split; [done|]. rewrite map_size_delete, F. lia.
    + split; [by eapply step_remove_miss|]. eauto with lia.
  - destruct (trie_remove_val_spec ltb _ _ _ v R) as (tr' & E & R').
    rewrite (st_bind_Ok _ _ _ _ _ E). eexists _, _, _. split; [reflexivity|].
    split; [eapply step_remove_val, count_occurs|]. split; [exact R'|].
    pose proof (map_size_filter (λ kv : list bool * T, kv.2 ≠ v) C). lia.
  - destruct (trie_clear_spec ltb _ _ _ Hf R) as (tr' & E & R').
    rewrite (st_bind_Ok _ _ _ _ _ E). eexists _, _, ∅. split; [reflexivity|].
    split; [constructor|]. split; [done|]. rewrite map_size_empty. lia.
  - destruct Ho as (Ha & Haf & Hl). destruct (trie_lookup_spec ltb _ _ _ a R Ha Haf Hl) as (r & tr' & E & HL & R').
    rewrite (st_bind_Ok _ _ _ _ _ E). eexists _, _, _. split; [reflexivity|].
    split; [by constructor|]. eauto with lia.
  - destruct (trie_has_prefixes_spec ltb _ _ _ v R) as (b & E & Hb).
    rewrite (st_bind_Ok _ _ _ _ _ E). eexists _, _, _. split; [reflexivity|].
    split; [by constructor|]. eauto with lia.
Qed.

Lemma trie_run_refines fam os : known_family fam → ∀ C tr, trie_rep ltb fam C tr → Forall (op_ok fam) os →
  (Z.of_nat (size C + length os) ≤ UINT_MAX)%Z →
  ∃ rs tr' C', trie_run os tr = Ok (rs, tr') ∧ map_steps fam C os rs C' ∧ trie_rep ltb fam C' tr'.
Proof.
  intros Hf. induction os as [|o os IH]; intros C tr R HF Hsz.
  { eexists _, _, _. split; [reflexivity|]. split; [constructor|done]. }
  apply Forall_cons in HF as [Ho HF]. cbn [length] in Hsz.
  destruct (trie_exec_refines fam C tr o Hf R Ho) as (r & tr1 & C1 & E1 & S1 & R1 & L1); [lia|].
  destruct (IH C1 tr1 R1 HF) as (rs & tr2 & C2 & E2 & S2 & R2); [lia|].
  exists (r :: rs), tr2, C2. cbn [trie_run]. rewrite (st_bind_Ok _ _ _ _ _ E1), (st_bind_Ok _ _ _ _ _ E2).
  split; [done|]. split; [by econstructor|done].
Qed.

(** C1. A prefix trie refines a finite map from prefixes to values: any sequence of
    [add], [remove], [remove] of a value, [clear], [has_prefixes] and [lookup] of full
    addresses on a new trie, over prefixes of one address family, terminates without a
    memory error or a failed assertion and returns what the same sequence returns on the
    map, where [lookup] of an address (32 bits for IPv4, 128 for IPv6) returns the value of
    its longest matching prefix, and at the end the trie still represents the map.
    A lookup of a shorter prefix is not such an operation: see
    [short_query_finds_more_specific]. *)
Theorem trie_refines_map (fam : Z) (os : list trie_op) :
  known_family fam → Forall (op_ok fam) os → (Z.of_nat (length os) ≤ UINT_MAX)%Z →
  ∃ tr0 rs tr C, trie_new = Ok tr0 ∧ trie_run os tr0 = Ok (rs, tr) ∧
    map_steps fam ∅ os rs C ∧ trie_rep ltb fam C tr.
Proof.
  intros Hf Ho Hsz. destruct (trie_new_spec ltb fam Hf) as (tr0 & E0 & R0).
  destruct (trie_run_refines fam os Hf ∅ tr0 R0 Ho) as (rs & tr & C & H1 & H2 & H3).
  { rewrite map_size_empty. lia. }
  by exists tr0, rs, tr, C.
Qed.
End History.
Arguments trie_op T : clear implicits.
Arguments trie_res T : clear implicits.

(** ** Concrete tries with integer values *)
(** The IPv4 prefix [a.b.c.d/len], normalised. *)
Definition ip4 (a b c d len : Z) : IPPrefix :=
  normalize (MkIPPrefix AF_INET ([a; b; c; d] ++ replicate 12 0%Z) len).

Lemma ip4_ok a b c d len : bytes_ok [a; b; c; d] → (0 ≤ len ≤ 32)%Z →
  ip_ok (ip4 a b c d len) ∧ family_ (ip4 a b c d len) = AF_INET ∧ length_ (ip4 a b c d len) = len.
Proof.
  intros Hb Hl. destruct (IPPrefix_raw_spec AF_INET [a; b; c; d] len) as (p & E & Hp & Hf & Hlen & _);
    [by left|done|done|unfold USHRT_MAX; lia|].
  assert (p = ip4 a b c d len) as <-.
  { unfold ip4. cbn in E. injection E as <-. do 2 f_equal.
    change (u16 (get_addr_size AF_INET * 8)) with 32%Z. lia. }
  split_and!; [done..|]. rewrite Hlen.
  change (8 * Z.of_nat (addr_bytes AF_INET))%Z with 32%Z. lia.
Qed.

Ltac ip4_auto := apply ip4_ok; [by repeat constructor|lia].

Definition demo_ops : list (trie_op Z) :=
  [OpAdd (ip4 10 0 0 0 8) 1; OpAdd (ip4 10 1 0 0 16) 2; OpLookup (ip4 10 1 2 3 32);
   OpLookup (ip4 10 2 0 1 32); OpRemove (ip4 10 1 0 0 16) 2; OpLookup (ip4 10 1 2 3 32);
   OpRemoveVal 1; OpHasPrefixes 1; OpLookup (ip4 10 1 2 3 32)]%Z.

Lemma demo_ops_ok : Forall (op_ok AF_INET) demo_ops.
Proof.
  unfold demo_ops. repeat (apply Forall_cons; split); try apply Forall_nil; cbn [op_ok];
  repeat match goal with
  | |- True => exact I
  | |- ip_ok _ => ip4_auto
  | |- family_ _ = _ => reflexivity
  | |- length_ _ = _ => reflexivity
  | |- _ ∧ _ => split
  end.
Qed.

Lemma trie_refines_map_witness :
  ∃ tr0 rs tr C, trie_new = Ok tr0 ∧ trie_run Z.ltb demo_ops tr0 = Ok (rs, tr) ∧
    map_steps AF_INET ∅ demo_ops rs C ∧ trie_rep Z.ltb AF_INET C tr.
Proof.
  apply (trie_refines_map Z.ltb AF_INET demo_ops); [by left|apply demo_ops_ok|].
  vm_compute. discriminate.
Defined.

(** ** More operations of the trie *)
Section TrieClaims.
Context {T : Type} `{EqDecision T} (ltb : T → T → bool) `{!StrictTotal ltb}.

(** [enumerate] partitions the prefixes by value: on an empty result vector it
    returns the values that have a prefix, each once and in the order of [operator<],
    every value with exactly its prefixes, and leaves the trie unchanged. *)
Theorem trie_enumerate_partition (fam : Z) (C : gmap (list bool) T) tr :
  known_family fam → trie_rep ltb fam C tr →
  ∃ r, trie_enumerate ltb [] tr = Ok (r, tr) ∧
    StronglySorted (λ a b, ltb a b = true) r.*1 ∧ (∀ v, v ∈ r.*1 ↔ ∃ k, C !! k = Some v) ∧
    ∀ v ips, (v, ips) ∈ r → prefixes_of fam C v ips.
Proof. apply trie_enumerate_spec; done. Qed.

(** [get_prefixes (val)] returns exactly the prefixes of [val], each once. *)
Theorem trie_get_prefixes_exact (fam : Z) (C : gmap (list bool) T) tr (val : T) :
  known_family fam → trie_rep ltb fam C tr →
  ∃ ips, trie_get_prefixes ltb val tr = Ok (ips, tr) ∧ NoDup ips ∧
    ∀ ip, ip ∈ ips ↔ ip_ok ip ∧ family_ ip = fam ∧ C !! ip_key ip = Some val.
Proof. apply trie_get_prefixes_spec; done. Qed.

(** [copy_from (rhs)] makes the trie represent the map of [rhs], whatever it held
    before, with its own nodes, prefixes and value counts, and does not touch [rhs]. *)
Theorem trie_copy_from_copies (fam fam' : Z) (C Cr : gmap (list bool) T) tr rhs :
  known_family fam → known_family fam' → trie_rep ltb fam' C tr → trie_rep ltb fam Cr rhs →
  (Z.of_nat (size Cr) ≤ UINT_MAX)%Z →
  ∃ tr', trie_copy_from ltb rhs tr = Ok (tt, tr') ∧ trie_rep ltb fam Cr tr'.
Proof. apply trie_copy_from_spec; done. Qed.
End TrieClaims.

Definition demo_map : gmap (list bool) Z :=
  <[ip_key (ip4 10 1 0 0 16) := 2%Z]> {[ip_key (ip4 10 0 0 0 8) := 1%Z]}.

(** A trie with [10.0.0.0/8] and [10.1.0.0/16]. *)
Lemma demo_trie : ∃ tr, trie_rep Z.ltb AF_INET demo_map tr.
Proof.
  destruct (trie_new_spec Z.ltb AF_INET ltac:(by left)) as (tr0 & _ & R0).
  destruct (trie_add_spec Z.ltb AF_INET ∅ tr0 (ip4 10 0 0 0 8) 1%Z R0) as (tr1 & _ & R1);
    [ip4_auto|done|done|].
  destruct (trie_add_spec Z.ltb AF_INET _ tr1 (ip4 10 1 0 0 16) 2%Z R1) as (tr2 & _ & R2);
    [ip4_auto|done|done|]. by exists tr2.
Qed.

Lemma trie_enumerate_partition_witness :
  ∃ tr r, trie_rep Z.ltb AF_INET demo_map tr ∧ trie_enumerate Z.ltb [] tr = Ok (r, tr) ∧
    ∀ v, v ∈ r.*1 ↔ ∃ k, demo_map !! k = Some v.
Proof.
  destruct demo_trie as [tr R].
  destruct (trie_enumerate_partition Z.ltb AF_INET demo_map tr ltac:(by left) R) as (r & H1 & _ & H2 & _).
  exists tr, r. by split_and!.
Defined.

Lemma trie_get_prefixes_exact_witness :
  ∃ tr ips, trie_rep Z.ltb AF_INET demo_map tr ∧ trie_get_prefixes Z.ltb 2%Z tr = Ok (ips, tr) ∧
    ip4 10 1 0 0 16 ∈ ips.
Proof.
  destruct demo_trie as [tr R].
  destruct (trie_get_prefixes_exact Z.ltb AF_INET demo_map tr 2%Z ltac:(by left) R) as (ips & H1 & _ & H2).
  exists tr, ips. split_and!; [done..|]. apply H2. split; [ip4_auto|]. by split.
Defined.

Lemma trie_copy_from_copies_witness :
  ∃ tr tr0 tr', trie_rep Z.ltb AF_INET demo_map tr ∧ trie_copy_from Z.ltb tr tr0 = Ok (tt, tr') ∧
    trie_rep Z.ltb AF_INET demo_map tr'.
Proof.
  destruct demo_trie as [tr R]. destruct (trie_new_spec Z.ltb AF_INET ltac:(by left)) as (tr0 & _ & R0).
  destruct (trie_copy_from_copies Z.ltb AF_INET AF_INET ∅ demo_map tr0 tr ltac:(by left) ltac:(by left) R0 R)
    as (tr' & H1 & H2); [by vm_compute|]. by exists tr, tr0, tr'.
Defined.

(** ** The patricia tree *)
Section PatriciaClaims.
Context {T : Type}.
Implicit Types (t : ptree T) (st : patricia_tree_t T).

(** C22. The searches of the patricia tree: [patricia_search_exact] returns the node of
    the entry with the prefix, or null if there is none; [patricia_search_best] with a
    prefix of the whole width returns the node of the longest entry that is a prefix of
    it, or null if no entry is.  Neither changes the tree. *)
Theorem patricia_searches W t ext st q x :
  rep W t ext st → ext !! q = Some x → pfx_ok W x →
  (∃ r, patricia_search_exact q st = Ok (r, st) ∧
     match r with
     | Some p => ∃ e, e ∈ entries t ∧ e_node e = p ∧ e_key e = key_of x
     | None => ∀ e, e ∈ entries t → e_key e ≠ key_of x
     end) ∧
  (px_bitlen x = W → ∃ r, patricia_search_best q st = Ok (r, st) ∧
     match r with
     | Some p => ∃ e, is_best (key_of x) (entries t) e ∧ e_node e = p
     | None => ∀ e, e ∈ entries t → ¬ e_key e `prefix_of` key_of x
     end).
Proof.
  intros R Hq Hx. split.
  - eexists. split; [by eapply search_exact_spec|]. destruct (find_key _ _) as [e|] eqn:F; cbn.
    + apply find_key_Some in F as [F1 F2]. eauto.
    + intros e He. by eapply find_key_None.
  - intros Hl. unfold patricia_search_best. pose proof (search_best2_spec W t ext st q x true R Hq Hx) as HS.
    assert (HK : abits (px_add x) W = key_of x) by (unfold key_of; by rewrite Hl). rewrite HK in HS.
    pose proof (best_match_full W t (key_of x) (rep_wf _ _ _ _ R)) as HB.
    eexists. split; [exact HS|]. unfold best_match, candidates in HB.
    destruct (List.find _ _) as [e|]; cbn; [eauto|done].
Qed.

(** C20. [patricia_lookup] inserts: for a prefix that is in the tree it returns its node
    and changes nothing; otherwise it takes a reference to the prefix and returns a new
    node for it, and the entries of the tree are the old ones and the new one, in a tree
    that is again well-formed. *)
Theorem patricia_lookup_inserts W t ext st q x :
  rep W t ext st → ext !! q = Some x → pfx_ok W x → (px_ref_count x ≠ 0)%Z →
  match find_key (key_of x) (entries t) with
  | Some e => patricia_lookup q st = Ok (e_node e, st)
  | None => ∃ p t' st', patricia_lookup q st = Ok (p, st') ∧ rep W t' (delete q ext) st' ∧
      entries t' ≡ₚ Entry p q (set_ref_count (px_ref_count x + 1) x) None :: entries t
  end.
Proof.
  intros R Hq Hx Hrc. pose proof (lookup_spec W ext st q x Hq Hx Hrc t R) as H. unfold inserted in H.
  destruct (find_key _ _); [done|]. destruct H as (p & t' & st' & H1 & H2 & _ & H3). by exists p, t', st'.
Qed.

(** C21. [patricia_remove] of the node of an entry drops the tree's reference to its prefix
    (which frees it with the last one) and leaves a well-formed tree with exactly the
    other entries. *)
Theorem patricia_remove_removes W t ext st e :
  rep W t ext st → e ∈ entries t → (0 < px_ref_count (e_x e))%Z →
  ∃ t' st', patricia_remove (e_node e) st = Ok (tt, st') ∧ rep W t' (deref_ext (e_q e) (e_x e) ext) st' ∧
    entries t ≡ₚ e :: entries t'.
Proof.
  intros R He Hrc. destruct (remove_spec W t ext st e R He Hrc) as (t' & st' & H1 & H2 & _ & H3).
  by exists t', st'.
Qed.

(** The walk macro and [patricia_process] visit every entry of the tree, each exactly
    once, and [Clear_Patricia] frees every node and drops one reference of every prefix. *)
Theorem patricia_walk_and_clear W t ext st :
  rep W t ext st → Forall (λ e, (0 < px_ref_count (e_x e))%Z) (entries t) →
  NoDup (entries t) ∧
  patricia_process st = Ok ((λ e, (e_x e, e_d e)) <$> entries t, st) ∧
  ∃ st', Clear_Patricia st = Ok (tt, st') ∧ t_nodes st' = ∅ ∧ t_num_active st' = 0%Z ∧
    t_prefixes st' = drop_refs (entries t) (t_prefixes st).
Proof.
  intros R Hrc. split; [|split; [by eapply process_spec|by eapply clear_spec]].
  eapply (NoDup_fmap_1 e_q). rewrite <- plocs_entries. apply R.
Qed.
End PatriciaClaims.

(** The tree of an IPv4 table after [10.0.0.0/8], and a second prefix. *)
Definition px1 : prefix_t := Prefix AF_INET 8 1 [10; 0; 0; 0]%Z.
Definition px2 : prefix_t := Prefix AF_INET 32 1 [10; 1; 2; 3]%Z.
Definition demo_ext : gmap loc prefix_t := {[1%positive := px1; 2%positive := px2]}.
Definition demo_store : patricia_tree_t Z := PTree Z ∅ demo_ext None 128 0.

Lemma demo_store_rep : rep 32 E demo_ext demo_store.
Proof.
  split; try done; try (constructor; done).
  - apply map_disjoint_empty_l.
  - cbn. lia.
Qed.

Lemma demo_ext_delete : delete 1%positive demo_ext = {[2%positive := px2]}.
Proof. by vm_compute. Qed.

Lemma px1_ok : pfx_ok 32 px1.
Proof. split_and!; [by repeat constructor|done|cbn; lia]. Qed.
Lemma px2_ok : pfx_ok 32 px2.
Proof. split_and!; [by repeat constructor|done|cbn; lia]. Qed.

Lemma demo_tree : ∃ p t st, rep 32 t {[2%positive := px2]} st ∧
  entries t ≡ₚ [Entry p 1%positive (set_ref_count 2 px1) (None : option Z)].
Proof.
  pose proof (lookup_spec 32 demo_ext demo_store 1 px1 eq_refl px1_ok ltac:(done) E demo_store_rep) as H.
  destruct H as (p & t & st & _ & R & _ & HE). exists p, t, st. split; [|done].
  by rewrite demo_ext_delete in R.
Qed.

Lemma patricia_searches_witness : ∃ p t (st : patricia_tree_t Z),
  rep 32 t {[2%positive := px2]} st ∧ patricia_search_exact 2 st = Ok (None, st) ∧
  patricia_search_best 2 st = Ok (Some p, st).
Proof.
  destruct demo_tree as (p & t & st & R & HE). exists p, t, st. split; [done|].
  destruct (patricia_searches 32 t _ st 2 px2 R eq_refl px2_ok) as [(r1 & H1 & K1) H2].
  destruct (H2 eq_refl) as (r2 & H3 & K2). clear H2. split.
  - destruct r1 as [p1|]; [|done]. destruct K1 as (e & He & _ & Hk). rewrite HE in He.
    apply list_elem_of_singleton in He as ->. by vm_compute in Hk.
  - rewrite H3. destruct r2 as [p2|].
    + destruct K2 as (e & [He _] & <-). rewrite HE in He. by apply list_elem_of_singleton in He as ->.
    + exfalso. eapply K2; [rewrite HE; left|]. cbn. exists (drop 8 (key_of px2)). by vm_compute.
Defined.

Lemma patricia_lookup_inserts_witness : ∃ p t (st : patricia_tree_t Z),
  patricia_lookup 1 demo_store = Ok (p, st) ∧ rep 32 t {[2%positive := px2]} st.
Proof.
  destruct (patricia_lookup_inserts 32 E demo_ext demo_store 1 px1 demo_store_rep eq_refl px1_ok ltac:(done))
    as (p & t & st & H1 & R & _).
  exists p, t, st. split; [done|].
  by rewrite demo_ext_delete in R.
Defined.

Lemma patricia_remove_removes_witness : ∃ p t (st st' : patricia_tree_t Z) t',
  rep 32 t {[2%positive := px2]} st ∧ patricia_remove p st = Ok (tt, st') ∧
  rep 32 t' demo_ext st' ∧ entries t' = [].
Proof.
  destruct demo_tree as (p & t & st & R & HE). set (e := Entry p 1%positive (set_ref_count 2 px1) (None : option Z)).
  destruct (patricia_remove_removes 32 t _ st e R) as (t' & st' & H1 & R' & HE').
  { rewrite HE. left. }
  { done. }
  exists p, t, st, st', t'. split_and!; [done..|]. rewrite HE in HE'.
  apply Permutation_cons_inv in HE'. by apply Permutation_nil.
Defined.

Lemma patricia_walk_and_clear_witness : ∃ t (st st' : patricia_tree_t Z),
  rep 32 t {[2%positive := px2]} st ∧ patricia_process st = Ok ([(set_ref_count 2 px1, None)], st) ∧
  Clear_Patricia st = Ok (tt, st') ∧ t_nodes st' = ∅.
Proof.
  destruct demo_tree as (p & t & st & R & HE).
  destruct (patricia_walk_and_clear 32 t _ st R) as (_ & H2 & st' & H3 & H4 & _).
  { rewrite HE. by repeat constructor. }
  exists t, st, st'. split_and!; [done| |done..]. apply Permutation_singleton_r in HE. by rewrite HE in H2.
Defined.

(** ** Two behaviours the code does not intend *)

(** A query shorter than the whole width may be answered with a more specific
    prefix: after adding [10.0.0.0/16] only, the lookup of [10.0.0.0/8], which no stored
    prefix contains, finds [10.0.0.0/16], because the search compares as many bits as the
    stored prefix has, past the length of the query. *)
Theorem short_query_finds_more_specific :
  ∃ tr0 rs tr, trie_new = Ok tr0 ∧
    trie_run Z.ltb [OpAdd (ip4 10 0 0 0 16) 7; OpLookup (ip4 10 0 0 0 8)]%Z tr0 = Ok (rs, tr) ∧
    rs = [RBool true; RFound (Some (7%Z, ip4 10 0 0 0 16))].
Proof.
  eexists _, _, _. split; [reflexivity|]. split; [vm_compute; reflexivity|]. vm_compute. reflexivity.
Qed.

(** The IPv6 prefix whose address starts with the bytes [hi], normalised. *)
Definition ip6 (hi : list Z) (len : Z) : IPPrefix :=
  normalize (MkIPPrefix AF_INET6 (hi ++ replicate (16 - length hi) 0%Z) len).

(** IPv4 and IPv6 prefixes share one tree that does not compare families: once
    [32.1.0.0/16] is stored, [2001::/16], which has the same first bits, cannot be added
    with another value, and the IPv6 address [2001::] is resolved to the IPv4 prefix. *)
Theorem families_collide :
  ∃ tr0 rs tr, trie_new = Ok tr0 ∧
    trie_run Z.ltb [OpAdd (ip4 32 1 0 0 16) 4; OpAdd (ip6 [32; 1] 16) 6; OpLookup (ip6 [32; 1] 128)]%Z tr0
      = Ok (rs, tr) ∧
    rs = [RBool true; RBool false; RFound (Some (4%Z, ip4 32 1 0 0 16))].
Proof.
  eexists _, _, _. split; [reflexivity|]. split; [vm_compute; reflexivity|]. vm_compute. reflexivity.
Qed.

(** ** Comparing addresses *)

(** C33. The byte-wise comparisons of patricia.cpp agree with their definitions on bits:
    [comp_with_mask] tells whether the first [mask] bits of two addresses are equal, and
    the search for the first differing bit of [patricia_lookup] (exclusive or of bytes,
    first set bit, limited to [chk] bits) finds the length of the common prefix of the two
    bit strings. *)
Theorem byte_comparisons_are_bitwise (a b : list Z) (mask chk : nat) : bytes_ok a → bytes_ok b →
  mask ≤ 8 * length a → mask ≤ 8 * length b → chk ≤ 8 * length a → chk ≤ 8 * length b →
  comp_with_mask a b mask = Ok (bool_decide (abits a mask = abits b mask)) ∧
  first_differ_bit a b chk = Ok (lcp (abits a chk) (abits b chk)).
Proof. intros. split; [by apply comp_with_mask_Ok|by apply first_differ_bit_Ok]. Qed.

Lemma byte_comparisons_are_bitwise_witness :
  comp_with_mask [10; 7; 0; 0]%Z [10; 5; 0; 0]%Z 14 = Ok true ∧ first_differ_bit [10; 7; 0; 0]%Z [10; 5; 0; 0]%Z 32 = Ok 14.
Proof.
  destruct (byte_comparisons_are_bitwise [10; 7; 0; 0]%Z [10; 5; 0; 0]%Z 14 32) as [H1 H2].
  - unfold bytes_ok. repeat constructor; lia.
  - unfold bytes_ok. repeat constructor; lia.
  - cbn. lia.
  - cbn. lia.
  - cbn. lia.
  - cbn. lia.
  - split; [rewrite H1; vm_compute; reflexivity|rewrite H2; vm_compute; reflexivity].
Defined.
