(* ===== verification/Pid.v ===== *)
(** * PIDs (common/cpp/src/include/p4p/pid.h, lib/pid.cpp)

    A PID is an ISP identifier, a number and an 'external' flag, ordered by
    [operator<], printed as [num.i.isp] or [num.e.isp] and read back by [operator>>].
    An input stream is the text that is left; extraction that sets [failbit] is [None]. *)
From S2P Require Import Prelude StdMap IpAddr.
From Stdlib Require Import Ascii.

Definition ISPID := text.

Record PID := MkPID { isp_ : ISPID; num_ : Z; external_ : bool }.

#[global] Instance PID_eq_dec : EqDecision PID.
Proof. solve_decision. Defined.

Definition PID_INVALID : PID := MkPID (String.list_ascii_of_string "invalid.p4p") 0 true.
Definition PID_DEFAULT : PID := MkPID (String.list_ascii_of_string "pid.p4p") 0 false.

Definition is_default (p : PID) : bool := bool_decide (p = PID_DEFAULT).
Definition is_invalid (p : PID) : bool := bool_decide (p = PID_INVALID).

(** [operator<] of [std::string]: lexicographic on unsigned characters. *)
Fixpoint text_ltb (a b : text) : bool :=
  match a, b with
  | [], [] => false
  | [], _ :: _ => true
  | _ :: _, [] => false
  | x :: a', y :: b' =>
      (nat_of_ascii x <? nat_of_ascii y) ||
      ((nat_of_ascii x =? nat_of_ascii y) && text_ltb a' b')
  end.

(** [operator<] of [PID]. *)
Definition PID_ltb (p rhs : PID) : bool :=
  if negb (Bool.eqb (external_ p) (external_ rhs)) then negb (external_ p) && external_ rhs
  else (num_ p <? num_ rhs)%Z || ((num_ p =? num_ rhs)%Z && text_ltb (isp_ p) (isp_ rhs)).

(** [operator==] of [PID]. *)
Definition PID_eqb (p rhs : PID) : bool :=
  Bool.eqb (external_ p) (external_ rhs) && (num_ p =? num_ rhs)%Z && bool_decide (isp_ p = isp_ rhs).

Definition hash_value (p : PID) : Z := num_ p.

(** ** Text *)
Definition dot : ascii := "."%char.

Definition PID_print (p : PID) : text :=
  decimal 10 (num_ p) ++ [dot; (if external_ p then "e" else "i")%char; dot] ++ isp_ p.

(** [is >> num] for an [unsigned int]. *)
Definition read_uint (s : text) : option (Z * text) :=
  let s1 := skip_space s in
  let '(neg, s2) := match s1 with
                    | c :: s' => if decide (c = "-"%char) then (true, s')
                                 else if decide (c = "+"%char) then (false, s') else (false, s1)
                    | [] => (false, s1)
                    end in
  match s2 with
  | c :: _ =>
      match digit_of c with
      | Some _ => let '(v, rest) := digits 0 s2 in
                  if (v <=? UINT_MAX)%Z then Some (if neg : bool then u32 (- v) else v, rest) else None
      | None => None
      end
  | [] => None
  end.

(** [is.getline (ext_buf, 2, '.')]: at most one character, up to a dot that is
    extracted; it fails when nothing is extracted or the line does not fit. *)
Definition getline2 (s : text) : option (text * text) :=
  match s with
  | [] => None
  | c :: s' =>
      if decide (c = dot) then Some ([], s')
      else match s' with
           | [] => Some ([c], [])
           | c' :: s'' => if decide (c' = dot) then Some ([c], s'') else None
           end
  end.

(** [is >> isp] for a [std::string]: the characters up to white space, at least one. *)
Fixpoint read_word (s : text) : text * text :=
  match s with
  | [] => ([], [])
  | c :: s' => if is_space c then ([], s) else let '(w, rest) := read_word s' in (c :: w, rest)
  end.
Definition read_token (s : text) : option (text * text) :=
  match read_word (skip_space s) with ([], _) => None | wr => Some wr end.

(** [operator>>] *)
Definition PID_parse (s : text) : option (PID * text) :=
  '(num, s1) ← read_uint s;
  match s1 with
  | [] => None
  | c :: s2 =>
      if decide (c = dot) then
        '(ext, s3) ← getline2 s2;
        external ← (if decide (ext = ["i"%char]) then Some false
                    else if decide (ext = ["e"%char]) then Some true else None);
        '(isp, s4) ← read_token s3;
        Some (MkPID isp num external, s4)
      else None
  end.

(** ** The order *)
#[global] Instance text_order : StrictTotal text_ltb.
Proof.
  split.
  - intros a. induction a as [|x a IH]; cbn [text_ltb]; [done|].
    by rewrite Nat.ltb_irrefl, Nat.eqb_refl, IH.
  - intros a. induction a as [|x a IH]; intros [|y b] [|z c]; cbn [text_ltb]; try done.
    destruct (Nat.ltb_spec (nat_of_ascii x) (nat_of_ascii y)),
      (Nat.ltb_spec (nat_of_ascii y) (nat_of_ascii z)),
      (Nat.ltb_spec (nat_of_ascii x) (nat_of_ascii z)),
      (Nat.eqb_spec (nat_of_ascii x) (nat_of_ascii y)),
      (Nat.eqb_spec (nat_of_ascii y) (nat_of_ascii z)),
      (Nat.eqb_spec (nat_of_ascii x) (nat_of_ascii z)); cbn; try done; try lia. apply IH.
  - intros a. induction a as [|x a IH]; intros [|y b]; cbn [text_ltb]; try done.
    destruct (Nat.ltb_spec (nat_of_ascii x) (nat_of_ascii y)),
      (Nat.ltb_spec (nat_of_ascii y) (nat_of_ascii x)); cbn; try done.
    rewrite (Nat.eqb_sym (nat_of_ascii y)). destruct (Nat.eqb_spec (nat_of_ascii x) (nat_of_ascii y)) as [E|]; [|lia].
    cbn. intros H1 H2. f_equal; [|by apply IH].
    rewrite <- (ascii_nat_embedding x), E. apply ascii_nat_embedding.
Qed.

#[global] Instance PID_order : StrictTotal PID_ltb.
Proof.
  split.
  - intros [i n e]. unfold PID_ltb. cbn. rewrite Bool.eqb_reflx, Z.ltb_irrefl, Z.eqb_refl. cbn.
    apply (lt_irrefl (ltb := text_ltb)).
  - intros [i1 n1 e1] [i2 n2 e2] [i3 n3 e3]. unfold PID_ltb. cbn.
    destruct e1, e2, e3; cbn; try done.
    all: destruct (Z.ltb_spec n1 n2), (Z.ltb_spec n2 n3), (Z.ltb_spec n1 n3),
      (Z.eqb_spec n1 n2), (Z.eqb_spec n2 n3), (Z.eqb_spec n1 n3); cbn; try done; try lia.
    all: apply (lt_trans (ltb := text_ltb)).
  - intros [i1 n1 e1] [i2 n2 e2]. unfold PID_ltb. cbn.
    destruct e1, e2; cbn; try done.
    all: destruct (Z.ltb_spec n1 n2), (Z.ltb_spec n2 n1); cbn; try done.
    all: rewrite (Z.eqb_sym n2); destruct (Z.eqb_spec n1 n2) as [E|]; [|lia]; cbn; intros H1 H2.
    all: by rewrite E, (lt_total (ltb := text_ltb) i1 i2).
Qed.

Lemma PID_eqb_eq p q : PID_eqb p q = true ↔ p = q.
Proof.
  unfold PID_eqb. rewrite !andb_true_iff, Bool.eqb_true_iff, Z.eqb_eq, bool_decide_eq_true.
  destruct p, q; cbn. naive_solver.
Qed.

(** ** Text round trip *)
Lemma digits_app acc l rest :
  Forall (λ c, is_Some (digit_of c)) l → (match rest with c :: _ => digit_of c = None | [] => True end) →
  digits acc (l ++ rest) = ((digits acc l).1, rest).
Proof.
  intros HF Hr. revert acc. induction l as [|c l IH]; intros acc; cbn.
  - destruct rest as [|c rest]; cbn; [done|]. by rewrite Hr.
  - apply Forall_cons in HF as [[d Hd] HF]. rewrite Hd. by apply IH.
Qed.

Lemma digit_not_special c d : digit_of c = Some d →
  is_space c = false ∧ c ≠ "-"%char ∧ c ≠ "+"%char.
Proof.
  intros Hd. pose proof (digit_range _ _ Hd) as Hr. split_and!.
  - unfold is_space. destruct (Nat.eqb_spec (nat_of_ascii c) 32); [lia|].
    destruct (Nat.leb_spec (nat_of_ascii c) 13); [lia|]. apply andb_false_r.
  - intros ->. cbv in Hr. lia.
  - intros ->. cbv in Hr. lia.
Qed.

Lemma read_uint_decimal z rest :
  (0 ≤ z ≤ UINT_MAX)%Z → (match rest with c :: _ => digit_of c = None | [] => True end) →
  read_uint (decimal 10 z ++ rest) = Some (z, rest).
Proof.
  intros Hz Hr. assert (H10 : (0 ≤ z < 10 ^ Z.of_nat 10)%Z) by (unfold UINT_MAX in Hz; lia).
  pose proof (digits_decimal 10 z H10) as HD. pose proof (decimal_digits 10 z ltac:(lia)) as HF.
  pose proof (decimal_nonempty 9 z) as HN. pose proof (digits_app 0 _ rest HF Hr) as HA.
  rewrite HD in HA. destruct (decimal 10 z) as [|c s]; [done|]. apply Forall_cons in HF as [[d Hd] _].
  destruct (digit_not_special c d Hd) as (H1 & H2 & H3). unfold read_uint. cbn [app skip_space] in *.
  rewrite H1, !decide_False by done. rewrite Hd, HA. cbn [fst].
  destruct (Z.leb_spec z UINT_MAX); [done|lia].
Qed.

(** A word that a stream gives back: not empty and without white space. *)
Definition word (s : text) : Prop := s ≠ [] ∧ Forall (λ c, is_space c = false) s.

Lemma read_token_word s rest :
  word s → (match rest with c :: _ => is_space c = true | [] => True end) →
  read_token (s ++ rest) = Some (s, rest).
Proof.
  intros [Hne HF] Hr. unfold read_token.
  assert (Hs : skip_space (s ++ rest) = s ++ rest).
  { destruct s as [|c s]; [done|]. apply Forall_cons in HF as [Hc _]. cbn. by rewrite Hc. }
  assert (Hw : read_word (s ++ rest) = (s, rest)).
  { clear Hne Hs. induction s as [|c s IH]; cbn.
    - destruct rest as [|c rest]; [done|]. cbn. by rewrite Hr.
    - apply Forall_cons in HF as [Hc HF]. by rewrite Hc, IH. }
  rewrite Hs, Hw. by destruct s.
Qed.

Lemma PID_parse_print p rest :
  (0 ≤ num_ p ≤ UINT_MAX)%Z → word (isp_ p) →
  (match rest with c :: _ => is_space c = true | [] => True end) →
  PID_parse (PID_print p ++ rest) = Some (p, rest).
Proof.
  intros Hn Hw Hr. unfold PID_parse, PID_print. rewrite <- app_assoc.
  rewrite read_uint_decimal by (done || reflexivity). cbn [mbind option_bind app].
  rewrite decide_True by done. destruct p as [isp num ext]; cbn [external_ isp_ num_] in *.
  set (c := if ext then "e"%char else "i"%char).
  change (getline2 (c :: dot :: isp ++ rest)) with
    (if decide (c = dot) then Some ([], dot :: isp ++ rest) else Some ([c], isp ++ rest)).
  rewrite decide_False by (unfold c; by destruct ext). cbn [mbind option_bind].
  assert (Hext : (if decide ([c] = ["i"%char]) then Some false
                  else if decide ([c] = ["e"%char]) then Some true else None) = Some ext).
  { unfold c. by destruct ext. }
  rewrite Hext. cbn [mbind option_bind]. by rewrite read_token_word.
Qed.
