(* ===== verification/AddressProperties.v ===== *)
(** * Properties of addresses and PIDs

    The theorems about common/cpp/src/lib/ip_addr.cpp and pid.cpp, with their witnesses. *)
From S2P Require Import Prelude StdMap Patricia PatriciaBits IpAddr Pid.
From Stdlib Require Import Ascii.

(** C34. [operator<] and [operator==] of [IPPrefix] are a strict total order and its
    equality on objects with whole addresses: exactly one of [p < q], [p == q] and
    [q < p] holds, [p == q] means that every field is equal, and [<] is transitive. *)
Theorem ip_prefix_order (p q r : IPPrefix) :
  length (address_ p) = sizeof_Address → length (address_ q) = sizeof_Address →
  length (address_ r) = sizeof_Address →
  (IPPrefix_eq p q = true ↔ p = q) ∧
  (IPPrefix_lt p q = true ∧ IPPrefix_eq p q = false ∧ IPPrefix_lt q p = false ∨
   IPPrefix_lt p q = false ∧ IPPrefix_eq p q = true ∧ IPPrefix_lt q p = false ∨
   IPPrefix_lt p q = false ∧ IPPrefix_eq p q = false ∧ IPPrefix_lt q p = true) ∧
  (IPPrefix_lt p q = true → IPPrefix_lt q r = true → IPPrefix_lt p r = true).
Proof.
  intros Hp Hq Hr. unfold IPPrefix_eq, IPPrefix_lt. split_and!.
  - rewrite Z.eqb_eq. apply compare_dst_eq. congruence.
  - rewrite (compare_dst_antisym p q).
    destruct (Z.ltb_spec (compare_dst p q) 0), (Z.eqb_spec (compare_dst p q) 0),
      (Z.ltb_spec (- compare_dst p q) 0); try lia; auto.
  - rewrite !Z.ltb_lt. apply compare_dst_trans; congruence.
Qed.

Definition zero16 : list Z := replicate 16 0%Z.

Lemma ip_prefix_order_witness :
  IPPrefix_lt (MkIPPrefix AF_INET zero16 8) (MkIPPrefix AF_INET zero16 24) = true.
Proof.
  pose proof (ip_prefix_order (MkIPPrefix AF_INET zero16 8) (MkIPPrefix AF_INET zero16 16)
    (MkIPPrefix AF_INET zero16 24) eq_refl eq_refl eq_refl) as (_ & _ & H). by apply H.
Defined.

(** The constructor of [IPPrefix] from raw bytes normalises: it clamps the length to
    the width of the family and clears the bits past it, so that two prefixes of a family
    made from any bytes with one length are equal exactly when the first [length] bits
    agree. *)
Theorem raw_prefix_canonical (fam : Z) (a b : list Z) (len : Z) :
  fam = AF_INET ∨ fam = AF_INET6 → bytes_ok a → bytes_ok b → addr_bytes fam ≤ length a →
  addr_bytes fam ≤ length b → (0 ≤ len ≤ USHRT_MAX)%Z →
  ∃ p q, IPPrefix_raw fam (Some a) len = Ok p ∧ IPPrefix_raw fam (Some b) len = Ok q ∧
    length_ p = Z.min len (8 * Z.of_nat (addr_bytes fam)) ∧
    (∀ i, Z.to_nat (length_ p) ≤ i < 8 * addr_bytes fam → abit (address_ p) i = false) ∧
    (IPPrefix_eq p q = true ↔ abits a (Z.to_nat (length_ p)) = abits b (Z.to_nat (length_ p))).
Proof.
  intros Hf Ha Hb La Lb Hl.
  destruct (IPPrefix_raw_spec fam a len Hf Ha La Hl) as (p & E1 & P1 & F1 & L1 & K1).
  destruct (IPPrefix_raw_spec fam b len Hf Hb Lb Hl) as (q & E2 & P2 & F2 & L2 & K2).
  exists p, q. split_and!; [done..| |].
  - intros i Hi. apply (ip_norm _ P1). by rewrite F1.
  - rewrite <- K1. replace (Z.to_nat (length_ p)) with (Z.to_nat (length_ q)) by congruence. rewrite <- K2.
    unfold IPPrefix_eq. rewrite Z.eqb_eq, compare_dst_eq by (rewrite (ip_size _ P1), (ip_size _ P2); done).
    split; [by intros ->|]. intros E. apply ip_key_inj; [done..|congruence|done].
Qed.

Lemma raw_prefix_canonical_witness :
  ∃ p q, IPPrefix_raw AF_INET (Some [10; 1; 2; 3]%Z) 16 = Ok p ∧
    IPPrefix_raw AF_INET (Some [10; 1; 9; 9]%Z) 16 = Ok q ∧ IPPrefix_eq p q = true.
Proof.
  destruct (raw_prefix_canonical AF_INET [10; 1; 2; 3]%Z [10; 1; 9; 9]%Z 16) as (p & q & H1 & H2 & L & _ & H).
  - by left.
  - by repeat constructor.
  - by repeat constructor.
  - done.
  - done.
  - unfold USHRT_MAX. lia.
  - exists p, q. split_and!; [done..|]. apply H. rewrite L. by vm_compute.
Defined.

Section Text.
Variable getaddrinfo : text → option (Z * list Z).
Variable getnameinfo : Z → list Z → option text.

(** C31. Text round trip of prefixes: a normalised prefix is printed, and the printed text
    is parsed back to it in the bytes of its family; the bytes of the object beyond an
    IPv4 address keep what the memory held before, so the result is the same object
    exactly when those bytes were zero.  [getaddrinfo] and [getnameinfo] are assumed to
    convert numeric addresses to text without a slash and back. *)
Theorem ip_prefix_text_round_trip (p : IPPrefix) (old : list Z) :
  (∀ fam bytes, fam = AF_INET ∨ fam = AF_INET6 → length bytes = addr_bytes fam → bytes_ok bytes →
     is_Some (getnameinfo fam bytes)) →
  (∀ fam bytes s, getnameinfo fam bytes = Some s → slash ∉ s) →
  (∀ fam bytes s, getnameinfo fam bytes = Some s → getaddrinfo s = Some (fam, bytes)) →
  ip_ok p → bytes_ok old → length old = sizeof_Address →
  ∃ s q, IPPrefix_print getnameinfo p = Ok s ∧ IPPrefix_string getaddrinfo old s USHRT_MAX = Ok q ∧
    family_ q = family_ p ∧ length_ q = length_ p ∧
    take (addr_bytes (family_ p)) (address_ q) = take (addr_bytes (family_ p)) (address_ p) ∧
    (q = p ↔ drop (addr_bytes (family_ p)) old = drop (addr_bytes (family_ p)) (address_ p)).
Proof.
  intros H1 H2 H3 Hp Hb Hl. destruct (parse_print getaddrinfo getnameinfo H1 H2 H3 p old Hp Hb Hl) as (s & E1 & E2).
  exists s, (overlay p old). split_and!; [done..| |].
  - unfold overlay. cbn [address_]. rewrite take_app_le, take_take, Nat.min_id; [done|].
    rewrite length_take, (ip_size _ Hp). destruct (ip_family _ Hp) as [->| ->]; cbv; lia.
  - unfold overlay. split.
    + intros E. apply (f_equal address_) in E. cbn in E. rewrite <- E. rewrite drop_app_ge, length_take, (ip_size _ Hp).
      * rewrite drop_drop. f_equal. destruct (ip_family _ Hp) as [->| ->]; cbv; lia.
      * rewrite length_take, (ip_size _ Hp). destruct (ip_family _ Hp) as [->| ->]; cbv; lia.
    + intros ->. rewrite take_drop. by destruct p.
Qed.
End Text.

(** A numeric resolver: two letters for every byte, after one for the family. *)
Definition nibble (z : Z) : ascii := ascii_of_nat (97 + Z.to_nat z).
Definition nibble_val (c : ascii) : Z := Z.of_nat (nat_of_ascii c - 97).
Fixpoint demo_encode (bytes : list Z) : text :=
  match bytes with [] => [] | b :: bs => nibble (b / 16) :: nibble (b `mod` 16) :: demo_encode bs end.
Fixpoint demo_decode (s : text) : list Z :=
  match s with c1 :: c2 :: s' => (16 * nibble_val c1 + nibble_val c2)%Z :: demo_decode s' | _ => [] end.
Definition demo_getnameinfo (fam : Z) (bytes : list Z) : option text :=
  if decide ((fam = AF_INET ∨ fam = AF_INET6) ∧ bytes_ok bytes) then Some (nibble fam :: demo_encode bytes) else None.
Definition demo_getaddrinfo (s : text) : option (Z * list Z) :=
  match s with [] => None | c :: s' => Some (nibble_val c, demo_decode s') end.

Lemma nibble_round z : (0 ≤ z < 16)%Z → nibble_val (nibble z) = z.
Proof.
  intros Hz. unfold nibble_val, nibble. rewrite nat_ascii_embedding by lia. lia.
Qed.

Lemma nibble_not_slash z : (0 ≤ z < 16)%Z → nibble z ≠ slash.
Proof.
  intros Hz E. apply (f_equal nat_of_ascii) in E. unfold nibble in E. rewrite nat_ascii_embedding in E by lia.
  cbv in E. lia.
Qed.

Lemma demo_decode_encode bytes : bytes_ok bytes → demo_decode (demo_encode bytes) = bytes ∧ slash ∉ demo_encode bytes.
Proof.
  induction bytes as [|b bs IH]; cbn; [split; [done|set_solver]|]. intros [Hb HF]%Forall_cons.
  destruct (IH HF) as [-> IH2].
  assert (0 ≤ b / 16 < 16)%Z by (split; [apply Z.div_pos; lia|apply Z.div_lt_upper_bound; lia]).
  pose proof (Z.mod_pos_bound b 16 ltac:(lia)). rewrite !nibble_round by done. split.
  - f_equal. pose proof (Z.div_mod b 16). lia.
  - rewrite !not_elem_of_cons. split_and!; [|..|done]; apply not_eq_sym; by apply nibble_not_slash.
Qed.

Lemma demo_resolver fam bytes s : demo_getnameinfo fam bytes = Some s →
  slash ∉ s ∧ demo_getaddrinfo s = Some (fam, bytes).
Proof.
  unfold demo_getnameinfo. case_decide as Hd; [|done]. destruct Hd as [Hf Hb]. intros [= <-].
  destruct (demo_decode_encode _ Hb) as [H1 H2].
  assert (0 ≤ fam < 16)%Z by (destruct Hf as [->| ->]; cbv; split; congruence || done).
  split; [|cbn; by rewrite H1, nibble_round].
  rewrite not_elem_of_cons. split; [|done]. apply not_eq_sym. by apply nibble_not_slash.
Qed.

Definition ip10 : IPPrefix := MkIPPrefix AF_INET ([10; 0; 0; 0] ++ replicate 12 0)%Z 8.

Lemma ip10_ok : ip_ok ip10.
Proof.
  destruct (IPPrefix_raw_spec AF_INET [10; 0; 0; 0]%Z 8) as (p & E & Hp & _);
    [by left|by repeat constructor|done|unfold USHRT_MAX; lia|].
  by injection E as <-.
Qed.

Lemma ip_prefix_text_round_trip_witness :
  ∃ s, IPPrefix_print demo_getnameinfo ip10 = Ok s ∧
    IPPrefix_string demo_getaddrinfo zero16 s USHRT_MAX = Ok ip10.
Proof.
  destruct (ip_prefix_text_round_trip demo_getaddrinfo demo_getnameinfo ip10 zero16)
    as (s & q & H1 & H2 & _ & _ & _ & H3).
  - intros fam bytes Hf _ Hb. unfold demo_getnameinfo. rewrite decide_True by done. eauto.
  - intros fam bytes s Hs. by apply demo_resolver in Hs as [? _].
  - intros fam bytes s Hs. by apply demo_resolver in Hs as [_ ?].
  - apply ip10_ok.
  - by repeat constructor.
  - done.
  - exists s. split; [done|]. rewrite H2. f_equal. by apply H3.
Defined.

(** The constructor from text leaves the bytes beyond an IPv4 address as the memory
    held them, and the comparison reads all sixteen: the same text parsed into objects
    whose memory differs there gives prefixes that are not equal. *)
Theorem parsed_prefixes_differ :
  ∃ p q, IPPrefix_string demo_getaddrinfo zero16 (nibble AF_INET :: demo_encode [10; 0; 0; 1]%Z) USHRT_MAX = Ok p ∧
    IPPrefix_string demo_getaddrinfo (replicate 16 255%Z) (nibble AF_INET :: demo_encode [10; 0; 0; 1]%Z) USHRT_MAX = Ok q ∧
    IPPrefix_eq p q = false.
Proof. eexists _, _. split; [vm_compute; reflexivity|]. split; [vm_compute; reflexivity|]. by vm_compute. Qed.

(** ** PIDs *)

(** Text round trip of PIDs: a PID whose ISP is a word is read back from its printed
    form, and the stream is left behind it. *)
Theorem pid_text_round_trip (p : PID) (rest : text) :
  (0 ≤ num_ p ≤ UINT_MAX)%Z → word (isp_ p) →
  (match rest with c :: _ => is_space c = true | [] => True end) →
  PID_parse (PID_print p ++ rest) = Some (p, rest).
Proof. apply PID_parse_print. Qed.

Lemma pid_text_round_trip_witness :
  PID_parse (PID_print (MkPID ["y"%char] 42 true) ++ [" "%char]) = Some (MkPID ["y"%char] 42 true, [" "%char]).
Proof.
  apply (pid_text_round_trip (MkPID ["y"%char] 42 true) [" "%char]); cbn.
  - unfold UINT_MAX. lia.
  - split; [done|]. by repeat constructor.
  - done.
Defined.

(** [operator<] of [PID] is a strict total order whose equivalence is [operator==], as
    [std::set<PID>] and [std::map<PID, ...>] need: internal PIDs come before external
    ones, and PIDs are then ordered by number and by ISP. *)
Theorem pid_order (p q r : PID) :
  (PID_eqb p q = true ↔ PID_ltb p q = false ∧ PID_ltb q p = false) ∧
  (PID_ltb p q = true → PID_ltb q p = false) ∧
  (PID_ltb p q = true → PID_ltb q r = true → PID_ltb p r = true) ∧
  (external_ p = false → external_ q = true → PID_ltb p q = true).
Proof.
  split_and!.
  - rewrite PID_eqb_eq. split.
    + intros ->. by rewrite (lt_irrefl (ltb := PID_ltb)).
    + intros [H1 H2]. by apply (lt_total (ltb := PID_ltb)).
  - apply (lt_asym PID_ltb).
  - apply (lt_trans (ltb := PID_ltb)).
  - intros E1 E2. unfold PID_ltb. by rewrite E1, E2.
Qed.
