(* ===== verification/Locking.v ===== *)
(** * Object locking (common-server/src/include/p4pserver/locking.h, local_obj.h,
    lib/local_obj.cpp)

    Every shared object of the server carries a [boost::shared_mutex] and is read and
    written under lock objects.  The mutex is an interface with Boost's documented
    contract; the lock classes are the operations that construct and destroy them, in
    builds without [DEBUG] (where [check_read] and [check_write] do nothing).

    [construct], [destroy] and [changed] are these operations as one thread executes them
    when no other thread uses the object in between; the models of single-threaded code
    call them.  Concurrent threads interleave at every access to the mutex and to the plain
    members of the object: the machine of [step] takes each of these as a step of its own,
    and the operations are shown to be its undisturbed runs. *)
From S2P Require Import Prelude.

(** ** The mutex: Boost's documented contract *)
Class SharedMutex (M : Type) := {
  fresh_mutex : M;
  shared_owners : M → nat;
  upgrade_owned : M → bool;
  exclusive_owned : M → bool;
  (* [None]: the caller would wait *)
  lock_shared : M → option M;
  unlock_shared : M → M;
  lock_upgrade : M → option M;
  unlock_upgrade : M → M;
  unlock_upgrade_and_lock : M → option M;
  unlock_and_lock_upgrade : M → M
}.

Definition owners {M} `{SharedMutex M} (m : M) : nat * bool * bool :=
  (shared_owners m, upgrade_owned m, exclusive_owned m).

Class SharedMutexLaws (M : Type) `{SharedMutex M} : Prop := {
  fresh_law : owners fresh_mutex = (0, false, false);
  lock_shared_law m : lock_shared m =
    None ↔ exclusive_owned m = true;
  lock_shared_owners m m' : lock_shared m = Some m' →
    owners m' = (S (shared_owners m), upgrade_owned m, exclusive_owned m);
  unlock_shared_owners m : owners (unlock_shared m) =
    (pred (shared_owners m), upgrade_owned m, exclusive_owned m);
  lock_upgrade_law m : lock_upgrade m = None ↔ exclusive_owned m = true ∨ upgrade_owned m = true;
  lock_upgrade_owners m m' : lock_upgrade m = Some m' →
    owners m' = (shared_owners m, true, exclusive_owned m);
  unlock_upgrade_owners m : owners (unlock_upgrade m) = (shared_owners m, false, exclusive_owned m);
  to_unique_law m : upgrade_owned m = true →
    (unlock_upgrade_and_lock m = None ↔ shared_owners m ≠ 0);
  to_unique_owners m m' : upgrade_owned m = true → unlock_upgrade_and_lock m = Some m' →
    owners m' = (shared_owners m, false, true);
  to_upgrade_owners m : owners (unlock_and_lock_upgrade m) = (shared_owners m, true, false)
}.

(** A mutex that satisfies the contract. *)
Record counting_mutex := CMutex { cm_shared : nat; cm_upgrade : bool; cm_exclusive : bool }.
#[global] Instance counting_mutex_ops : SharedMutex counting_mutex := {
  fresh_mutex := CMutex 0 false false;
  shared_owners := cm_shared;
  upgrade_owned := cm_upgrade;
  exclusive_owned := cm_exclusive;
  lock_shared m := if cm_exclusive m then None
                   else Some (CMutex (S (cm_shared m)) (cm_upgrade m) (cm_exclusive m));
  unlock_shared m := CMutex (pred (cm_shared m)) (cm_upgrade m) (cm_exclusive m);
  lock_upgrade m := if cm_exclusive m || cm_upgrade m then None
                    else Some (CMutex (cm_shared m) true (cm_exclusive m));
  unlock_upgrade m := CMutex (cm_shared m) false (cm_exclusive m);
  unlock_upgrade_and_lock m := if cm_shared m =? 0 then Some (CMutex (cm_shared m) false true) else None;
  unlock_and_lock_upgrade m := CMutex (cm_shared m) true false
}.

#[global] Instance counting_mutex_laws : SharedMutexLaws counting_mutex.
Proof.
  split; try done; cbn.
  - intros m. by destruct (cm_exclusive m).
  - intros m m'. destruct (cm_exclusive m) eqn:E; [done|]. intros [= <-]. unfold owners. cbn. by rewrite ?E.
  - intros m. destruct (cm_exclusive m), (cm_upgrade m); cbn; naive_solver.
  - intros m m'. destruct (cm_exclusive m) eqn:E, (cm_upgrade m); cbn; try done. intros [= <-].
    unfold owners. cbn. by rewrite ?E.
  - intros m _. by destruct (Nat.eqb_spec (cm_shared m) 0).
  - intros m m' _. destruct (cm_shared m =? 0); [|done]. by intros [= <-].
Qed.

Section Locking.
Context {M : Type} `{SharedMutexLaws M}.

(** ** [LocalObject] *)
Record LocalObject := LObj {
  mutex_ : M;
  writing_ : bool;
  changed_fired_ : bool;
  version_ : Z
}.

(** The constructor; it does not initialise [version_]. *)
Definition LocalObject_new (v0 : Z) : LocalObject := LObj fresh_mutex false false v0.

Definition with_mutex (m : M) (o : LocalObject) : LocalObject :=
  LObj m (writing_ o) (changed_fired_ o) (version_ o).

Definition begin_write (o : LocalObject) : outcome LocalObject :=
  if writing_ o then Fault (Throw "illegal state: object write already started")
  else Ok (LObj (mutex_ o) true false (version_ o)).

Definition end_write (o : LocalObject) : outcome LocalObject :=
  if negb (writing_ o) then Fault (Throw "illegal state: object write never started")
  else Ok (LObj (mutex_ o) false false (version_ o)).

(** [++version_] on an [unsigned int]. *)
Definition on_changed (o : LocalObject) : LocalObject :=
  LObj (mutex_ o) (writing_ o) (changed_fired_ o) (u32 (version_ o + 1)).

Definition changed (o : LocalObject) : outcome LocalObject :=
  if negb (writing_ o) then Fault (Throw "illegal state: object changed without being in writing state")
  else if changed_fired_ o then Ok o
  else let o' := on_changed o in Ok (LObj (mutex_ o') (writing_ o') true (version_ o')).

(** ** The lock classes *)
Inductive lock_kind := BlockReadLock | TryReadLock | UpgradableReadLock | UpgradedWriteLock | BlockWriteLock.

#[global] Instance lock_kind_eq_dec : EqDecision lock_kind.
Proof. solve_decision. Defined.

(** What constructing a lock does if no other thread interferes: it waits, it throws (its members are then destroyed
    again), or it returns with the lock held. *)
Inductive acquired := Waits | Throws (e : fault) (o : LocalObject) | Holds (o : LocalObject).

Definition construct (k : lock_kind) (o : LocalObject) : acquired :=
  match k with
  | BlockReadLock =>
      match lock_shared (mutex_ o) with Some m => Holds (with_mutex m o) | None => Waits end
  | TryReadLock =>
      match lock_shared (mutex_ o) with
      | Some m => Holds (with_mutex m o)
      | None => Throws (Throw "TryLockFailed") o
      end
  | UpgradableReadLock =>
      match lock_upgrade (mutex_ o) with Some m => Holds (with_mutex m o) | None => Waits end
  | UpgradedWriteLock =>
      (* from an [UpgradableReadLock] of the same thread *)
      match unlock_upgrade_and_lock (mutex_ o) with
      | None => Waits
      | Some m =>
          match begin_write (with_mutex m o) with
          | Ok o' => Holds o'
          | Fault e => Throws e (with_mutex (unlock_and_lock_upgrade m) o)
          end
      end
  | BlockWriteLock =>
      (* the member is a [boost::shared_lock] *)
      match lock_shared (mutex_ o) with
      | None => Waits
      | Some m =>
          match begin_write (with_mutex m o) with
          | Ok o' => Holds o'
          | Fault e => Throws e (with_mutex (unlock_shared m) o)
          end
      end
  end.

(** The destructors. *)
Definition destroy (k : lock_kind) (o : LocalObject) : outcome LocalObject :=
  match k with
  | BlockReadLock | TryReadLock => Ok (with_mutex (unlock_shared (mutex_ o)) o)
  | UpgradableReadLock => Ok (with_mutex (unlock_upgrade (mutex_ o)) o)
  | UpgradedWriteLock =>
      o' ← end_write o; mret (with_mutex (unlock_and_lock_upgrade (mutex_ o')) o')
  | BlockWriteLock => o' ← end_write o; mret (with_mutex (unlock_shared (mutex_ o')) o')
  end.

(** ** Threads *)
Definition tid := nat.

(** Where a lock object is in its constructor, its destructor or a call of [changed]; the
    access that comes next gives its name. *)
Inductive phase :=
  | BeginTest | BeginStore | BeginReset                                 (* [begin_write] *)
  | Held
  | ChangeTest | ChangeFired | ChangeLoad | ChangeStore (v : Z) | ChangeMark  (* [changed] *)
  | EndTest | EndStore | EndReset                                       (* [end_write] *)
  | Release (thrown : bool).                   (* the member is destroyed; after an exception *)

Definition is_write (k : lock_kind) : bool :=
  match k with UpgradedWriteLock | BlockWriteLock => true | _ => false end.

(** The constructor of the member [lock_]; [None]: it waits, or fails for a [TryReadLock]. *)
Definition acquire (k : lock_kind) (m : M) : option M :=
  match k with
  | UpgradableReadLock => lock_upgrade m
  | UpgradedWriteLock => unlock_upgrade_and_lock m
  | BlockReadLock | TryReadLock | BlockWriteLock => lock_shared m
  end.
(** Its destructor. *)
Definition give_back (k : lock_kind) (m : M) : M :=
  match k with
  | UpgradableReadLock => unlock_upgrade m
  | UpgradedWriteLock => unlock_and_lock_upgrade m
  | BlockReadLock | TryReadLock | BlockWriteLock => unlock_shared m
  end.

(** The phase after the member was constructed, and that in which the destructor starts. *)
Definition constructed (k : lock_kind) : phase := if is_write k then BeginTest else Held.
Definition destructing (k : lock_kind) : phase := if is_write k then EndTest else Release false.

Definition with_writing (b : bool) (o : LocalObject) : LocalObject := LObj (mutex_ o) b (changed_fired_ o) (version_ o).
Definition with_fired (b : bool) (o : LocalObject) : LocalObject := LObj (mutex_ o) (writing_ o) b (version_ o).
Definition with_version (v : Z) (o : LocalObject) : LocalObject := LObj (mutex_ o) (writing_ o) (changed_fired_ o) v.

(** The next access; [None]: the lock object is gone.  A test that fails throws: out of a
    constructor or a destructor the member is destroyed still, out of [changed] the lock
    object stays. *)
Definition advance (k : lock_kind) (ph : phase) (o : LocalObject) : LocalObject * option phase :=
  match ph with
  | BeginTest => (o, Some (if writing_ o then Release true else BeginStore))
  | BeginStore => (with_writing true o, Some BeginReset)
  | BeginReset => (with_fired false o, Some Held)
  | Held => (o, Some Held)
  | ChangeTest => (o, Some (if writing_ o then ChangeFired else Held))
  | ChangeFired => (o, Some (if changed_fired_ o then Held else ChangeLoad))
  | ChangeLoad => (o, Some (ChangeStore (version_ o)))
  | ChangeStore v => (with_version (u32 (v + 1)) o, Some ChangeMark)
  | ChangeMark => (with_fired true o, Some Held)
  | EndTest => (o, Some (if writing_ o then EndStore else Release true))
  | EndStore => (with_writing false o, Some EndReset)
  | EndReset => (with_fired false o, Some (Release false))
  | Release _ => (with_mutex (give_back k (mutex_ o)) o, None)
  end.

(** The lock objects of one object, with their threads. *)
Definition lock_object : Type := tid * lock_kind * phase.
Definition held_locks := list lock_object.

(** A thread starts to construct a lock object (an [UpgradedWriteLock] only from an
    [UpgradableReadLock] of its own, which stays alive while it exists), starts to destroy
    one or calls [changed] under one, or continues what it started. *)
Inductive step : LocalObject * held_locks → LocalObject * held_locks → Prop :=
  | step_acquire o m held t k :
      acquire k (mutex_ o) = Some m →
      (k = UpgradedWriteLock → (t, UpgradableReadLock, Held) ∈ held ∧ (t, UpgradedWriteLock) ∉ held.*1) →
      step (o, held) (with_mutex m o, (t, k, constructed k) :: held)
  | step_destroy o held held' t k :
      held ≡ₚ (t, k, Held) :: held' → (k = UpgradableReadLock → (t, UpgradedWriteLock) ∉ held'.*1) →
      step (o, held) (o, (t, k, destructing k) :: held')
  | step_changed o held held' t k :
      held ≡ₚ (t, k, Held) :: held' → is_write k = true →
      step (o, held) (o, (t, k, ChangeTest) :: held')
  | step_advance o o' held held' t k ph next :
      held ≡ₚ (t, k, ph) :: held' → ph ≠ Held → advance k ph o = (o', next) →
      step (o, held) (o', match next with Some ph' => (t, k, ph') :: held' | None => held' end).

Inductive reachable (v0 : Z) : LocalObject * held_locks → Prop :=
  | reach_init : reachable v0 (LocalObject_new v0, [])
  | reach_step s s' : reachable v0 s → step s s' → reachable v0 s'.

Lemma reachable_run v0 s s' : reachable v0 s → rtc step s s' → reachable v0 s'.
Proof. intros R HR. induction HR; [done|]. eauto using reach_step. Qed.

(** ** The operations are undisturbed runs *)
Lemma run_advance o o' held t k ph ph' s : ph ≠ Held → advance k ph o = (o', Some ph') →
  rtc step (o', (t, k, ph') :: held) s → rtc step (o, (t, k, ph) :: held) s.
Proof. intros Hph HA HR. eapply rtc_l; [|exact HR]. by apply (step_advance o o' _ held t k ph (Some ph')). Qed.

Lemma run_release o held t k b : rtc step (o, (t, k, Release b) :: held) (with_mutex (give_back k (mutex_ o)) o, held).
Proof. apply rtc_once. by apply (step_advance _ _ _ held t k (Release b) None). Qed.

(** The next access of a run, when the result of its test is known. *)
Ltac run Hw := eapply run_advance; [done|cbn [advance with_mutex writing_ changed_fired_]; rewrite ?Hw; reflexivity|].

Lemma begin_write_runs o t k held : is_write k = true →
  match begin_write o with
  | Ok o' => rtc step (o, (t, k, BeginTest) :: held) (o', (t, k, Held) :: held)
  | Fault _ => rtc step (o, (t, k, BeginTest) :: held) (with_mutex (give_back k (mutex_ o)) o, held)
  end.
Proof.
  intros Hk. unfold begin_write. destruct (writing_ o) eqn:Hw.
  - run Hw. apply run_release.
  - do 3 run Hw. apply rtc_refl.
Qed.

Lemma construct_runs k o held t :
  (k = UpgradedWriteLock → (t, UpgradableReadLock, Held) ∈ held ∧ (t, UpgradedWriteLock) ∉ held.*1) →
  match construct k o with
  | Holds o' => rtc step (o, held) (o', (t, k, Held) :: held)
  | Throws _ o' => rtc step (o, held) (o', held)
  | Waits => acquire k (mutex_ o) = None
  end.
Proof.
  intros HU. assert (HA : ∀ m, acquire k (mutex_ o) = Some m → step (o, held) (with_mutex m o, (t, k, constructed k) :: held))
    by (intros m Hm; by apply step_acquire).
  destruct k; cbn [construct acquire constructed is_write] in *.
  - destruct (lock_shared (mutex_ o)); [by apply rtc_once, HA|done].
  - destruct (lock_shared (mutex_ o)); [by apply rtc_once, HA|apply rtc_refl].
  - destruct (lock_upgrade (mutex_ o)); [by apply rtc_once, HA|done].
  - destruct (unlock_upgrade_and_lock (mutex_ o)) as [m|]; [|done].
    pose proof (begin_write_runs (with_mutex m o) t UpgradedWriteLock held eq_refl) as HB.
    destruct (begin_write (with_mutex m o)); (eapply rtc_l; [by apply HA|exact HB]).
  - destruct (lock_shared (mutex_ o)) as [m|]; [|done].
    pose proof (begin_write_runs (with_mutex m o) t BlockWriteLock held eq_refl) as HB.
    destruct (begin_write (with_mutex m o)); (eapply rtc_l; [by apply HA|exact HB]).
Qed.

Lemma destroy_runs k o o' held t : (k = UpgradableReadLock → (t, UpgradedWriteLock) ∉ held.*1) →
  destroy k o = Ok o' → rtc step (o, (t, k, Held) :: held) (o', held).
Proof.
  intros HU HD. eapply rtc_l; [by apply (step_destroy o _ held t k)|]. unfold destructing.
  destruct k; cbn [destroy is_write] in *; try (injection HD as <-; apply run_release).
  all: unfold end_write in HD; destruct (writing_ o) eqn:Hw; [|done]; injection HD as <-; do 3 run Hw; apply run_release.
Qed.

Lemma changed_runs k o o' held t : is_write k = true → changed o = Ok o' →
  rtc step (o, (t, k, Held) :: held) (o', (t, k, Held) :: held).
Proof.
  intros Hk HC. eapply rtc_l; [by apply (step_changed o _ held t k)|]. unfold changed in HC.
  destruct (writing_ o) eqn:Hw; [|done]. run Hw. destruct (changed_fired_ o) eqn:Hf; injection HC as <-.
  - run Hf. apply rtc_refl.
  - do 4 run Hf. destruct o. cbn in *. subst. apply rtc_refl.
Qed.

(** ** What the mutex knows about the lock objects *)
Definition nkind (k : lock_kind) (held : list (tid * lock_kind)) : nat :=
  length (filter (λ p, p.2 = k) held).

Record mutex_inv (m : M) (held : list (tid * lock_kind)) : Prop := {
  inv_shared : shared_owners m = nkind BlockReadLock held + nkind TryReadLock held + nkind BlockWriteLock held;
  inv_exclusive : exclusive_owned m = bool_decide (nkind UpgradedWriteLock held = 1);
  inv_upgrade : (if upgrade_owned m then 1 else 0) + nkind UpgradedWriteLock held = nkind UpgradableReadLock held;
  inv_one_upgrade : nkind UpgradableReadLock held ≤ 1;
  inv_alone : nkind UpgradedWriteLock held = 1 → shared_owners m = 0;
  inv_pair : ∀ t, (t, UpgradedWriteLock) ∈ held → (t, UpgradableReadLock) ∈ held
}.

Lemma nkind_cons k p (held : list (tid * lock_kind)) : nkind k (p :: held) = (if decide (p.2 = k) then 1 else 0) + nkind k held.
Proof. unfold nkind. rewrite filter_cons. by case_decide. Qed.

Lemma nkind_cons_eq t k held : nkind k ((t, k) :: held) = S (nkind k held).
Proof. rewrite nkind_cons. cbn. by rewrite decide_True. Qed.

Lemma nkind_cons_ne t k k' held : k' ≠ k → nkind k ((t, k') :: held) = nkind k held.
Proof. intros Hk. rewrite nkind_cons. cbn. by rewrite decide_False. Qed.

Lemma nkind_perm k h1 h2 : h1 ≡ₚ h2 → nkind k h1 = nkind k h2.
Proof. intros E. unfold nkind. by rewrite E. Qed.

Lemma nkind_elem t k held : (t, k) ∈ held → 1 ≤ nkind k held.
Proof.
  intros E. apply elem_of_Permutation in E as [l E]. rewrite (nkind_perm k _ _ E), nkind_cons.
  cbn. rewrite decide_True by done. lia.
Qed.

Lemma nkind_pos k held : 1 ≤ nkind k held → ∃ t, (t, k) ∈ held.
Proof.
  unfold nkind. destruct (filter _ held) as [|[t k'] l] eqn:E; cbn; [lia|]. intros _. exists t.
  assert (Hin : (t, k') ∈ filter (λ p, p.2 = k) held) by (rewrite E; left).
  apply list_elem_of_filter in Hin as [Hk Hin]. cbn in Hk. by subst.
Qed.

Lemma nkind_unique k held t t' : nkind k held ≤ 1 → (t, k) ∈ held → (t', k) ∈ held → t = t'.
Proof.
  intros Hle [l E]%elem_of_Permutation Hin. rewrite E in Hin. rewrite (nkind_perm k _ _ E), nkind_cons in Hle.
  cbn in Hle. rewrite decide_True in Hle by done. apply elem_of_cons in Hin as [[= ->]|Hin]; [done|].
  apply nkind_elem in Hin. lia.
Qed.

Lemma owners_fields m s u e : owners m = (s, u, e) →
  shared_owners m = s ∧ upgrade_owned m = u ∧ exclusive_owned m = e.
Proof. unfold owners. by intros [= <- <- <-]. Qed.

Ltac lock_arith :=
  repeat match goal with
  | |- context [bool_decide ?P] => case_bool_decide
  | H : context [bool_decide ?P] |- _ => case_bool_decide
  end; repeat match goal with H : context [if ?b then _ else _] |- _ => destruct b eqn:? end;
  repeat match goal with |- context [if ?b then _ else _] => destruct b eqn:? end;
  try congruence; try lia; try set_solver.

Lemma not_exclusive m m' : lock_shared m = Some m' → exclusive_owned m = false.
Proof.
  intros E. destruct (exclusive_owned m) eqn:X; [|done]. apply lock_shared_law in X. congruence.
Qed.

Lemma not_upgraded m m' : lock_upgrade m = Some m' → exclusive_owned m = false ∧ upgrade_owned m = false.
Proof.
  intros E. pose proof (lock_upgrade_law m) as X. rewrite E in X.
  destruct (exclusive_owned m), (upgrade_owned m); naive_solver.
Qed.

Lemma to_unique_alone m m' : upgrade_owned m = true → unlock_upgrade_and_lock m = Some m' →
  shared_owners m = 0.
Proof.
  intros U E. pose proof (to_unique_law m U) as X. rewrite E in X.
  destruct (decide (shared_owners m = 0)); naive_solver.
Qed.

(** A thread that may upgrade its lock: there is no upgraded one, and the mutex has an
    upgrade owner. *)
Lemma may_upgrade m held t : mutex_inv m held → (t, UpgradableReadLock) ∈ held → (t, UpgradedWriteLock) ∉ held →
  nkind UpgradedWriteLock held = 0 ∧ upgrade_owned m = true.
Proof.
  intros I Hin Hnin. pose proof (nkind_elem _ _ _ Hin) as H1.
  assert (Hno : nkind UpgradedWriteLock held = 0).
  { destruct (nkind UpgradedWriteLock held) eqn:E; [done|]. destruct (nkind_pos UpgradedWriteLock held) as [t' Ht']; [lia|].
    destruct Hnin. assert (t = t') as ->; [|done]. eapply nkind_unique; [apply I|exact Hin|]. by apply (inv_pair _ _ I). }
  split; [done|]. pose proof (inv_upgrade _ _ I). destruct (upgrade_owned m); [done|lia].
Qed.

Lemma mutex_inv_acquire k m m' held t : mutex_inv m held → acquire k m = Some m' →
  (k = UpgradedWriteLock → (t, UpgradableReadLock) ∈ held ∧ (t, UpgradedWriteLock) ∉ held) →
  mutex_inv m' ((t, k) :: held).
Proof.
  intros I HA HU. destruct (decide (k = UpgradedWriteLock)) as [->|Hk].
  - destruct (HU eq_refl) as [Hin Hnin]. destruct (may_upgrade m held t I Hin Hnin) as [Hno Hu]. destruct I as [I1 I2 I3 I4 I5 I7].
    cbn in HA. pose proof (to_unique_alone _ _ Hu HA) as Ha. rewrite Hu in I3.
    pose proof (owners_fields _ _ _ _ (to_unique_owners _ _ Hu HA)) as (O1 & O2 & O3).
    constructor; rewrite ?nkind_cons; cbn; rewrite ?O1, ?O2, ?O3; lock_arith.
  - destruct (decide (k = UpgradableReadLock)) as [->|Hk']; destruct I as [I1 I2 I3 I4 I5 I7].
    + cbn in HA. pose proof (not_upgraded _ _ HA) as [Hx Hu].
      pose proof (owners_fields _ _ _ _ (lock_upgrade_owners _ _ HA)) as (O1 & O2 & O3).
      constructor; rewrite ?nkind_cons; cbn; rewrite ?O1, ?O2, ?O3 in *; lock_arith.
    + assert (HS : lock_shared m = Some m') by (by destruct k). pose proof (not_exclusive _ _ HS) as Hx.
      pose proof (owners_fields _ _ _ _ (lock_shared_owners _ _ HS)) as (O1 & O2 & O3).
      destruct k; try done; constructor; rewrite ?nkind_cons; cbn; rewrite ?O1, ?O2, ?O3 in *; lock_arith.
Qed.

#[local] Instance mutex_inv_perm m : Proper ((≡ₚ) ==> iff) (mutex_inv m).
Proof.
  assert (HP : ∀ h1 h2, h1 ≡ₚ h2 → mutex_inv m h1 → mutex_inv m h2); [|intros h1 h2 E; split; by apply HP].
  intros h1 h2 E [I1 I2 I3 I4 I5 I7]. constructor; rewrite <- ?(nkind_perm _ _ _ E); try done.
  intros t Ht. rewrite <- E in Ht |- *. by apply I7.
Qed.

Lemma mutex_inv_give_back k m held t : mutex_inv m ((t, k) :: held) →
  (∀ t0, (t0, UpgradedWriteLock) ∈ held → (t0, UpgradableReadLock) ∈ held) → mutex_inv (give_back k m) held.
Proof.
  intros [I1 I2 I3 I4 I5 _] I7.
  pose proof (owners_fields _ _ _ _ (unlock_shared_owners m)) as (S1 & S2 & S3).
  pose proof (owners_fields _ _ _ _ (unlock_upgrade_owners m)) as (U1 & U2 & U3).
  pose proof (owners_fields _ _ _ _ (to_upgrade_owners m)) as (X1 & X2 & X3).
  destruct k; cbn [give_back]; rewrite ?nkind_cons_eq, ?nkind_cons_ne in * by done.
  1,2,5: constructor; rewrite ?S1, ?S2, ?S3; try done; lia.
  - assert (HW : nkind UpgradedWriteLock held = 0).
    { destruct (nkind UpgradedWriteLock held) eqn:E; [done|].
      destruct (nkind_pos UpgradedWriteLock held) as [t' Ht']; [lia|]. apply I7, nkind_elem in Ht'. lia. }
    rewrite HW in *. constructor; rewrite ?U1, ?U2, ?U3, ?HW; try done; lia.
  - constructor; rewrite ?X1, ?X2, ?X3; try done; try lia; lock_arith.
Qed.

(** While there is an upgraded lock object, the others are its own upgradable one. *)
Lemma upgraded_alone m held held' t t' k : mutex_inv m held → held ≡ₚ (t, UpgradedWriteLock) :: held' →
  (t', k) ∈ held' → t' = t ∧ k = UpgradableReadLock.
Proof.
  intros I E Hin. rewrite E in I. destruct I as [I1 I2 I3 I4 I5 I7].
  rewrite ?nkind_cons_eq, ?nkind_cons_ne in * by done. pose proof (nkind_elem _ _ _ Hin) as Hn.
  assert (HU : nkind UpgradedWriteLock held' = 0) by lia. specialize (I5 ltac:(lia)).
  destruct k; try lia. split; [|done]. symmetry. eapply nkind_unique; [exact I4| |exact Hin].
  specialize (I7 t ltac:(left)). apply elem_of_cons in I7 as [[=]|]; done.
Qed.

(** ** What the object knows *)

(** Whether a write lock in this phase has set [writing_] and not reset it. *)
Definition marked (ph : phase) : bool :=
  match ph with BeginTest | BeginStore | EndReset | Release _ => false | _ => true end.

Record lock_inv (s : LocalObject * held_locks) : Prop := {
  li_mutex : mutex_inv (mutex_ s.1) s.2.*1;
  li_pair : ∀ t ph, (t, UpgradedWriteLock, ph) ∈ s.2 → (t, UpgradableReadLock, Held) ∈ s.2;
  li_read : ∀ t k ph, (t, k, ph) ∈ s.2 → is_write k = false → ph = Held ∨ ph = Release false;
  li_marked : writing_ s.1 = true → ∃ t k ph, (t, k, ph) ∈ s.2 ∧ is_write k = true ∧ marked ph = true;
  li_upgraded : ∀ t ph, (t, UpgradedWriteLock, ph) ∈ s.2 → writing_ s.1 = marked ph ∧ ph ≠ Release true
}.

#[local] Instance lock_inv_perm o : Proper ((≡ₚ) ==> iff) (λ h, lock_inv (o, h)).
Proof.
  assert (HP : ∀ h1 h2, h1 ≡ₚ h2 → lock_inv (o, h1) → lock_inv (o, h2)); [|intros h1 h2 E; split; by apply HP].
  intros h1 h2 E [I1 I2 I3 I4 I5]. cbn [fst snd] in *. constructor; cbn [fst snd].
  - by rewrite <- E.
  - intros t ph. rewrite <- E. apply I2.
  - intros t k ph. rewrite <- E. apply I3.
  - intros Hw. setoid_rewrite <- E. auto.
  - intros t ph. rewrite <- E. apply I5.
Qed.

Lemma inv_init v0 : lock_inv (LocalObject_new v0, []).
Proof.
  destruct (owners_fields _ _ _ _ fresh_law) as (E1 & E2 & E3). constructor; cbn; try set_solver.
  constructor; cbn; rewrite ?E1, ?E2, ?E3; first [done|lia|set_solver].
Qed.

Lemma elem_fst (held : held_locks) t k : (t, k) ∈ held.*1 ↔ ∃ ph, (t, k, ph) ∈ held.
Proof.
  rewrite list_elem_of_fmap. split.
  - intros ([p ph] & E & Hin). cbn in E. subst p. eauto.
  - intros (ph & Hin). by exists (t, k, ph).
Qed.

Lemma inv_acquire o m held t k : lock_inv (o, held) → acquire k (mutex_ o) = Some m →
  (k = UpgradedWriteLock → (t, UpgradableReadLock, Held) ∈ held ∧ (t, UpgradedWriteLock) ∉ held.*1) →
  lock_inv (with_mutex m o, (t, k, constructed k) :: held).
Proof.
  intros [I1 I2 I3 I4 I5] HA HU. cbn [fst snd] in *.
  assert (HM : k = UpgradedWriteLock → (t, UpgradableReadLock) ∈ held.*1 ∧ (t, UpgradedWriteLock) ∉ held.*1).
  { intros Hk. destruct (HU Hk). split; [apply elem_fst; eauto|done]. }
  constructor; cbn [fst snd with_mutex mutex_ writing_ fmap list_fmap].
  - by apply (mutex_inv_acquire k (mutex_ o)).
  - intros t' ph. rewrite !elem_of_cons. intros [[= -> <- _]|Hin]; right; [by apply HU|by eapply I2].
  - intros t' k' ph. rewrite elem_of_cons. intros [[= -> -> ->]|Hin] Hk; [|by eapply I3]. unfold constructed. rewrite Hk. by left.
  - intros Hw. destruct (I4 Hw) as (t' & k' & ph & Hin & Hwm). exists t', k', ph. split; [by right|done].
  - intros t' ph. rewrite elem_of_cons. intros [[= -> <- ->]|Hin]; [|by eapply I5]. split; [|done]. cbn.
    destruct (writing_ o) eqn:Hw; [exfalso|done]. destruct (I4 eq_refl) as (t' & k' & ph & Hin & Hk & _).
    destruct (HM eq_refl) as [H1 H2]. destruct (may_upgrade _ _ _ I1 H1 H2) as [Hno Hu].
    pose proof (to_unique_alone _ _ Hu HA) as Ha. pose proof (inv_shared _ _ I1) as HS. rewrite Ha in HS.
    assert (Hk' : (t', k') ∈ held.*1) by (apply elem_fst; eauto). apply nkind_elem in Hk'. destruct k'; try done; lia.
Qed.

(** What an access does to [writing_]. *)
Lemma advance_writing k ph o o' ph' : advance k ph o = (o', Some ph') →
  mutex_ o' = mutex_ o ∧
  (writing_ o' = true → marked ph' = true ∨ writing_ o = true ∧ marked ph = false) ∧
  (writing_ o = marked ph → writing_ o' = marked ph' ∧ ph' ≠ Release true).
Proof.
  intros HA. destruct ph; cbn in HA; try done; injection HA as <- <-; cbn; split_and!; try done;
    repeat case_match; try done; auto.
Qed.

(** A step that changes the phase of a write lock, and [writing_] accordingly. *)
Lemma inv_phase o o' held t k ph ph' : lock_inv (o, (t, k, ph) :: held) → is_write k = true →
  mutex_ o' = mutex_ o →
  (writing_ o' = true → marked ph' = true ∨ writing_ o = true ∧ marked ph = false) →
  (writing_ o = marked ph → writing_ o' = marked ph' ∧ ph' ≠ Release true) →
  lock_inv (o', (t, k, ph') :: held).
Proof.
  intros [I1 I2 I3 I4 I5] Hk HM HW HV. cbn [fst snd fmap list_fmap] in *.
  assert (HK : ∀ t0 ph0 q, (t0, UpgradableReadLock, Held) ∈ (t, k, ph0) :: held → (t0, UpgradableReadLock, Held) ∈ (t, k, q) :: held).
  { intros t0 ph0 q. rewrite !elem_of_cons. intros [[= -> <- _]|]; [done|by right]. }
  constructor; cbn [fst snd fmap list_fmap].
  - by rewrite HM.
  - intros t0 ph0. rewrite elem_of_cons. intros [[= -> <- ->]|Hin]; apply (HK _ ph); eapply I2; [left|by right].
  - intros t0 k0 ph0. rewrite elem_of_cons. intros [[= -> -> ->]|Hin] Hk0; [congruence|]. apply (I3 t0 k0); [by right|done].
  - intros Hw. destruct (HW Hw) as [Hm|[Hw0 Hm]]; [exists t, k, ph'; split; [left|done]|].
    destruct (I4 Hw0) as (t0 & k0 & ph0 & Hin & Hk0 & Hm0). exists t0, k0, ph0. split; [|done].
    apply elem_of_cons in Hin as [[= -> -> ->]|Hin]; [congruence|by right].
  - intros t0 ph0. rewrite elem_of_cons. intros [[= -> <- ->]|Hin].
    + apply HV. by apply (I5 t ph ltac:(left)).
    + exfalso. assert (Hin' : (t0, UpgradedWriteLock) ∈ held.*1) by (apply elem_fst; eauto).
      pose proof Hin' as [l El]%elem_of_Permutation.
      destruct (upgraded_alone _ _ ((t, k) :: l) t0 t k I1) as [_ ->]; [rewrite El; constructor|left|done].
Qed.

Lemma inv_destroy o held t k : lock_inv (o, (t, k, Held) :: held) → (k = UpgradableReadLock → (t, UpgradedWriteLock) ∉ held.*1) →
  lock_inv (o, (t, k, destructing k) :: held).
Proof.
  intros I HU. destruct (is_write k) eqn:Hk.
  - unfold destructing. rewrite Hk. eapply inv_phase; [exact I|done|done|by auto|done].
  - unfold destructing. rewrite Hk. destruct I as [I1 I2 I3 I4 I5]. cbn [fst snd fmap list_fmap] in *. constructor; cbn [fst snd fmap list_fmap].
    + done.
    + intros t0 ph. rewrite !elem_of_cons. intros [[= -> <- _]|Hin]; [done|]. right.
      specialize (I2 t0 ph ltac:(by right)). apply elem_of_cons in I2 as [[= -> <-]|]; [|done].
      destruct (HU eq_refl). apply elem_fst. eauto.
    + intros t0 k0 ph0. rewrite elem_of_cons. intros [[= -> -> ->]|Hin] Hk0; [by right|]. apply (I3 t0 k0); [by right|done].
    + intros Hw. destruct (I4 Hw) as (t0 & k0 & ph0 & Hin & Hk0 & Hm0). exists t0, k0, ph0. split; [|done].
      apply elem_of_cons in Hin as [[= -> -> ->]|Hin]; [congruence|by right].
    + intros t0 ph0. rewrite elem_of_cons. intros [[= -> <- ->]|Hin]; [done|]. apply (I5 t0). by right.
Qed.

Lemma inv_release o held t k b : lock_inv (o, (t, k, Release b) :: held) →
  lock_inv (with_mutex (give_back k (mutex_ o)) o, held).
Proof.
  intros [I1 I2 I3 I4 I5]. cbn [fst snd fmap list_fmap] in *.
  assert (I2' : ∀ t0 ph, (t0, UpgradedWriteLock, ph) ∈ held → (t0, UpgradableReadLock, Held) ∈ held).
  { intros t0 ph Hin. specialize (I2 t0 ph ltac:(by right)). apply elem_of_cons in I2 as [[=]|]; done. }
  constructor; cbn [fst snd with_mutex mutex_ writing_].
  - apply (mutex_inv_give_back k _ _ t); [done|]. intros t0. rewrite !elem_fst. intros (ph & Hin). eauto.
  - done.
  - intros t0 k0 ph0 Hin. apply (I3 t0). by right.
  - intros Hw. destruct (I4 Hw) as (t0 & k0 & ph0 & Hin & Hk0 & Hm0). exists t0, k0, ph0. split; [|done].
    apply elem_of_cons in Hin as [[= -> -> ->]|Hin]; done.
  - intros t0 ph0 Hin. apply (I5 t0). by right.
Qed.

Lemma inv_step s s' : lock_inv s → step s s' → lock_inv s'.
Proof.
  intros I HS. destruct HS as [o m held t k HA HU|o held held' t k E HU|o held held' t k E Hk|o o' held held' t k ph next E Hph HA].
  - by apply inv_acquire.
  - rewrite (lock_inv_perm o _ _ E) in I. by apply inv_destroy.
  - rewrite (lock_inv_perm o _ _ E) in I. eapply inv_phase; [exact I|done|done|by auto|done].
  - rewrite (lock_inv_perm o _ _ E) in I. destruct next as [ph'|].
    + destruct (advance_writing _ _ _ _ _ HA) as (H1 & H2 & H3). destruct (is_write k) eqn:Hk; [by eapply inv_phase|].
      exfalso. destruct (li_read _ I t k ph ltac:(left) Hk) as [->| ->]; [done|]. by cbn in HA.
    + destruct ph; cbn in HA; try done; injection HA as <-. by eapply inv_release.
Qed.

Lemma inv_reachable v0 s : reachable v0 s → lock_inv s.
Proof. induction 1; [apply inv_init|by eapply inv_step]. Qed.
End Locking.
