(* ===== verification/PrefixTable.v ===== *)
(** * The contract of the prefix table

    What [PatriciaTrie<T>] promises to the classes that hold one (the server's [PIDMap],
    the client's [ISPPIDMap]): an interface of operations with an abstraction relation
    to finite maps, and its laws.  The clients' theorems are proved against the laws;
    PatriciaTrieSpec.v discharges them. *)
From S2P Require Import Prelude StdMap Patricia PatriciaBits PatriciaTree PatriciaSearch.
From S2P Require Import PatriciaInsert PatriciaRemove PatriciaWalk IpAddr PatriciaTrie.
From S2P Require Import PatriciaTrieSpec.

Class PrefixTable (T D : Type) := {
  pt_new : outcome D;
  pt_add : IPPrefix → T → ST D bool;
  pt_remove : IPPrefix → T → ST D bool;
  pt_remove_val : T → ST D bool;
  pt_clear : ST D unit;
  pt_lookup : IPPrefix → ST D (option (T * IPPrefix));
  pt_has_prefixes : T → ST D bool;
  pt_get_prefixes : T → ST D (list IPPrefix);
  pt_enumerate : list (T * list IPPrefix) → ST D (list (T * list IPPrefix));
  pt_enumerate_values : ST D (list T);
  pt_copy_from : D → ST D unit;
  (* [pt_holds fam C d]: [d] holds the map [C] of prefixes of the family [fam] *)
  pt_holds : Z → gmap (list bool) T → D → Prop
}.

Class PrefixTableLaws (T D : Type) `{EqDecision T} `{PrefixTable T D} : Prop := {
  law_new fam : known_family fam → ∃ d, pt_new = Ok d ∧ pt_holds fam ∅ d;
  law_add fam C d p val : pt_holds fam C d → ip_ok p → family_ p = fam →
    (Z.of_nat (size C) < UINT_MAX)%Z →
    ∃ d', pt_add p val d =
        Ok (match C !! ip_key p with Some v => bool_decide (val = v) | None => true end, d') ∧
      pt_holds fam (match C !! ip_key p with Some _ => C | None => <[ip_key p := val]> C end) d';
  law_remove fam C d p val : pt_holds fam C d → ip_ok p → family_ p = fam →
    (Z.of_nat (size C) ≤ UINT_MAX)%Z →
    ∃ d', pt_remove p val d = Ok (bool_decide (C !! ip_key p = Some val), d') ∧
      pt_holds fam (if bool_decide (C !! ip_key p = Some val) then delete (ip_key p) C else C) d';
  law_remove_val fam C d val : pt_holds fam C d →
    ∃ d', pt_remove_val val d = Ok (negb (count val C =? 0), d') ∧ pt_holds fam (without val C) d';
  law_clear fam C d : known_family fam → pt_holds fam C d →
    ∃ d', pt_clear d = Ok (tt, d') ∧ pt_holds fam ∅ d';
  law_lookup fam C d a : pt_holds fam C d → ip_ok a → family_ a = fam →
    length_ a = Z.of_nat (width fam) →
    ∃ r d', pt_lookup a d = Ok (r, d') ∧ lpm fam C (ip_key a) r ∧ pt_holds fam C d';
  law_has fam C d val : pt_holds fam C d →
    ∃ b, pt_has_prefixes val d = Ok (b, d) ∧ (b = true ↔ ∃ k, C !! k = Some val);
  law_get fam C d val : known_family fam → pt_holds fam C d →
    ∃ ips, pt_get_prefixes val d = Ok (ips, d) ∧ prefixes_of fam C val ips;
  law_copy fam fam' C Cr d rhs : known_family fam → known_family fam' →
    pt_holds fam' C d → pt_holds fam Cr rhs → (Z.of_nat (size Cr) ≤ UINT_MAX)%Z →
    ∃ d', pt_copy_from rhs d = Ok (tt, d') ∧ pt_holds fam Cr d'
}.

(** ** The trie is a prefix table *)
Section Instance_.
Context {T : Type} `{EqDecision T} (ltb : T → T → bool) `{!StrictTotal ltb}.

Definition trie_table : PrefixTable T (PatriciaTrie T) := {|
  pt_new := trie_new;
  pt_add := trie_add ltb;
  pt_remove := trie_remove ltb;
  pt_remove_val := trie_remove_val ltb;
  pt_clear := trie_clear;
  pt_lookup := trie_lookup ltb;
  pt_has_prefixes := trie_has_prefixes ltb;
  pt_get_prefixes := trie_get_prefixes ltb;
  pt_enumerate := trie_enumerate ltb;
  pt_enumerate_values := trie_enumerate_values;
  pt_copy_from := trie_copy_from ltb;
  pt_holds := trie_rep ltb
|}.

Lemma trie_table_laws : PrefixTableLaws T (PatriciaTrie T) (H := trie_table).
Proof.
  split; cbn.
  - apply (trie_new_spec ltb).
  - apply (trie_add_spec ltb).
  - apply (trie_remove_spec ltb).
  - apply (trie_remove_val_spec ltb).
  - apply (trie_clear_spec ltb).
  - apply (trie_lookup_spec ltb).
  - apply (trie_has_prefixes_spec ltb).
  - apply (trie_get_prefixes_spec ltb).
  - apply (trie_copy_from_spec ltb).
Qed.
End Instance_.
