(* ===== verification/ServerObject.v ===== *)
(** * Shared objects of the server (common-server/src/lib/local_obj.cpp)

    The server's data classes derive from [LocalObject]: a class is its lock state and
    its own data.  Operations that change the data call [changed], which advances the
    version of the object at most once for every write lock and throws when the object
    is not under one. *)
From S2P Require Import Prelude Locking.

Section ServerObject.
Context {M : Type} `{SharedMutex M} {D : Type}.

Record Server := MkServer { so_object : LocalObject (M := M); so_data : D }.

(** Run an operation of the data. *)
Definition on_data {A} (m : ST D A) : ST Server A := λ s,
  match m (so_data s) with
  | Ok (a, d) => Ok (a, MkServer (so_object s) d)
  | Fault e => Fault e
  end.
Definition so_get : ST Server D := λ s, Ok (so_data s, s).
Definition so_put (d : D) : ST Server unit := λ s, Ok (tt, MkServer (so_object s) d).

(** [changed (lock)] *)
Definition so_changed : ST Server unit := λ s,
  match changed (so_object s) with
  | Ok o => Ok (tt, MkServer o (so_data s))
  | Fault e => Fault e
  end.

(** [if (res) changed (lock); return res;] *)
Definition so_report (res : bool) : ST Server bool :=
  (if res : bool then so_changed else mret tt);; mret res.

(** The lock state after an operation that did or did not report a change. *)
Definition bumped (b : bool) (o o' : LocalObject (M := M)) : Prop :=
  writing_ o' = writing_ o ∧
  if b then changed_fired_ o' = true ∧
            version_ o' = if changed_fired_ o then version_ o else u32 (version_ o + 1)
  else o' = o.

Lemma on_data_Ok {A} (m : ST D A) s a d :
  m (so_data s) = Ok (a, d) → on_data m s = Ok (a, MkServer (so_object s) d).
Proof. intros E. unfold on_data. by rewrite E. Qed.

Lemma so_changed_Ok s : writing_ (so_object s) = true →
  ∃ o, so_changed s = Ok (tt, MkServer o (so_data s)) ∧ bumped true (so_object s) o.
Proof.
  intros Hw. unfold so_changed, changed. rewrite Hw. cbn [negb].
  destruct (changed_fired_ (so_object s)) eqn:E.
  - eexists. split; [reflexivity|]. unfold bumped. by rewrite E.
  - eexists. split; [reflexivity|]. unfold bumped. cbn. by rewrite E.
Qed.

Lemma so_report_Ok (b : bool) s : writing_ (so_object s) = true →
  ∃ o, so_report b s = Ok (b, MkServer o (so_data s)) ∧ bumped b (so_object s) o.
Proof.
  intros Hw. unfold so_report. destruct b.
  - destruct (so_changed_Ok s Hw) as (o & H1 & H2). rewrite (st_bind_Ok _ _ _ _ _ H1). by eexists.
  - exists (so_object s). split; [by destruct s|]. by split.
Qed.

(** A change outside of a write lock throws. *)
Lemma so_changed_unlocked s : writing_ (so_object s) = false →
  so_changed s = Fault (Throw "illegal state: object changed without being in writing state").
Proof. intros Hw. unfold so_changed, changed. by rewrite Hw. Qed.

Lemma bumped_writing b o o' : bumped b o o' → writing_ o' = writing_ o.
Proof. by intros [? _]. Qed.

(** Two changes under one write lock advance the version once. *)
Lemma bumped_trans b1 b2 o1 o2 o3 :
  bumped b1 o1 o2 → bumped b2 o2 o3 → bumped (b1 || b2) o1 o3.
Proof.
  unfold bumped. intros [W1 H1] [W2 H2]. split; [congruence|].
  destruct b1, b2; cbn in *.
  - destruct H1 as [F1 V1], H2 as [F2 V2]. rewrite F1 in V2. by rewrite V2.
  - by subst.
  - by subst.
  - by subst.
Qed.
End ServerObject.
Arguments Server M D : clear implicits.
