(* ===== verification/PidMap.v ===== *)
(** * The server's PID map (common-server/src/lib/pid_map.cpp, include/p4pserver/pid_map.h)

    [PIDMap] is a locked object around a [PatriciaTrie<PID>]: every operation that
    changes the trie reports the change, which advances the object's version once per
    write lock.  The class is modelled over the interface of PrefixTable.v. *)
From S2P Require Import Prelude StdMap Patricia PatriciaBits IpAddr Pid Locking PatriciaTrie.
From S2P Require Import PatriciaTrieSpec PrefixTable ServerObject.

Section PIDMap.
Context {M : Type} `{SharedMutex M} {D : Type} `{PrefixTable PID D}.
Variable getaddrinfo : text → option (Z * list Z).

Definition PIDMap : Type := Server M D.
Abbreviation P := (ST PIDMap).

Definition PIDMap_new (v0 : Z) : outcome PIDMap :=
  d ← pt_new; mret (MkServer (LocalObject_new v0) d).

Definition PIDMap_add (address : IPPrefix) (pid : PID) : P bool :=
  res ← on_data (pt_add address pid);
  so_report res.

(** [add (const std::string&, unsigned int, ...)]: the length is narrowed to
    [unsigned short] by the constructor of the prefix. *)
Definition PIDMap_add_text (old : list Z) (address : text) (prefix_length : Z) (pid : PID) : P bool :=
  prefix ← st_lift (IPPrefix_string getaddrinfo old address (u16 prefix_length));
  if IPPrefix_eq prefix IPPrefix_INVALID then mret false
  else PIDMap_add prefix pid.

Definition PIDMap_remove (address : IPPrefix) (pid : PID) : P bool :=
  res ← on_data (pt_remove address pid);
  so_report res.

Definition PIDMap_remove_text (old : list Z) (address : text) (prefix_length : Z) (pid : PID) : P bool :=
  prefix ← st_lift (IPPrefix_string getaddrinfo old address (u16 prefix_length));
  if IPPrefix_eq prefix IPPrefix_INVALID then mret false
  else PIDMap_remove prefix pid.

Definition PIDMap_clear : P unit := on_data pt_clear;; so_changed.

Definition PIDMap_remove_pid (pid : PID) : P bool :=
  res ← on_data (pt_remove_val pid);
  so_report res.

(** The three [lookup]s; the last one takes the raw address. *)
Definition PIDMap_lookup (address : IPPrefix) : P (option PID) :=
  r ← on_data (pt_lookup address); mret (fst <$> r).

Definition PIDMap_lookup_text (old : list Z) (address : text) : P (option PID) :=
  prefix ← st_lift (IPPrefix_string getaddrinfo old address USHRT_MAX);
  if IPPrefix_eq prefix IPPrefix_INVALID then mret None
  else PIDMap_lookup prefix.

Definition PIDMap_lookup_raw (addr_family : Z) (addr_struct : option (list Z)) (prefix_length : Z)
  : P (option PID) :=
  prefix ← st_lift (IPPrefix_raw addr_family addr_struct (u16 prefix_length));
  PIDMap_lookup prefix.

Definition PIDMap_has_prefixes (pid : PID) : P bool := on_data (pt_has_prefixes pid).
Definition PIDMap_get_prefixes (pid : PID) : P (list IPPrefix) := on_data (pt_get_prefixes pid).
Definition PIDMap_enumerate (r : list (PID * list IPPrefix)) : P (list (PID * list IPPrefix)) :=
  on_data (pt_enumerate r).
Definition PIDMap_enumerate_pids : P (list PID) := on_data pt_enumerate_values.

(** [do_copy_properties] *)
Definition PIDMap_copy (v0 : Z) (s : PIDMap) : outcome PIDMap :=
  new_obj ← PIDMap_new v0;
  '(_, d) ← pt_copy_from (so_data s) (so_data new_obj);
  mret (MkServer (so_object new_obj) d).

(** ** Refinement *)
Context `{!PrefixTableLaws PID D}.

(** The object is under a write lock and holds [C]. *)
Definition pm_holds (fam : Z) (C : gmap (list bool) PID) (s : PIDMap) : Prop :=
  pt_holds fam C (so_data s) ∧ writing_ (so_object s) = true.

Lemma pm_report_Ok (b : bool) (s : PIDMap) d fam C : writing_ (so_object s) = true → pt_holds fam C d →
  ∃ s', so_report b (MkServer (so_object s) d) = Ok (b, s') ∧
    pm_holds fam C s' ∧ bumped b (so_object s) (so_object s').
Proof.
  intros Hw Hd. destruct (so_report_Ok b (MkServer (so_object s) d) Hw) as (o & H1 & H2).
  eexists. split; [exact H1|]. split; [|done]. split; [done|]. cbn. by rewrite (bumped_writing _ _ _ H2).
Qed.

Lemma PIDMap_add_Ok fam C s p pid :
  pm_holds fam C s → ip_ok p → family_ p = fam → (Z.of_nat (size C) < UINT_MAX)%Z →
  let b := match C !! ip_key p with Some v => bool_decide (pid = v) | None => true end in
  ∃ s', PIDMap_add p pid s = Ok (b, s') ∧ bumped b (so_object s) (so_object s') ∧
    pm_holds fam (match C !! ip_key p with Some _ => C | None => <[ip_key p := pid]> C end) s'.
Proof.
  intros [Hd Hw] Hp Hf Hsz. destruct (law_add fam C _ p pid Hd Hp Hf Hsz) as (d' & H1 & H2). cbv zeta.
  unfold PIDMap_add. rewrite (st_bind_Ok _ _ _ _ _ (on_data_Ok _ _ _ _ H1)).
  destruct (pm_report_Ok (match C !! ip_key p with Some v => bool_decide (pid = v) | None => true end) s d'
    fam _ Hw H2) as (s' & H3 & H4 & H5). eauto.
Qed.

Lemma PIDMap_remove_Ok fam C s p pid :
  pm_holds fam C s → ip_ok p → family_ p = fam → (Z.of_nat (size C) ≤ UINT_MAX)%Z →
  let b := bool_decide (C !! ip_key p = Some pid) in
  ∃ s', PIDMap_remove p pid s = Ok (b, s') ∧ bumped b (so_object s) (so_object s') ∧
    pm_holds fam (if b then delete (ip_key p) C else C) s'.
Proof.
  intros [Hd Hw] Hp Hf Hsz. destruct (law_remove fam C _ p pid Hd Hp Hf Hsz) as (d' & H1 & H2). cbv zeta.
  unfold PIDMap_remove. rewrite (st_bind_Ok _ _ _ _ _ (on_data_Ok _ _ _ _ H1)).
  destruct (pm_report_Ok (bool_decide (C !! ip_key p = Some pid)) s d' fam _ Hw H2) as (s' & H3 & H4 & H5). eauto.
Qed.

Lemma PIDMap_remove_pid_Ok fam C s pid :
  pm_holds fam C s →
  ∃ s', PIDMap_remove_pid pid s = Ok (negb (count pid C =? 0), s') ∧ pm_holds fam (without pid C) s' ∧
    bumped (negb (count pid C =? 0)) (so_object s) (so_object s').
Proof.
  intros [Hd Hw]. destruct (law_remove_val fam C _ pid Hd) as (d' & H1 & H2).
  unfold PIDMap_remove_pid. rewrite (st_bind_Ok _ _ _ _ _ (on_data_Ok _ _ _ _ H1)).
  by apply pm_report_Ok.
Qed.

Lemma PIDMap_lookup_Ok fam C s a :
  pm_holds fam C s → ip_ok a → family_ a = fam → length_ a = Z.of_nat (width fam) →
  ∃ r s', PIDMap_lookup a s = Ok (fst <$> r, s') ∧ lpm fam C (ip_key a) r ∧ pm_holds fam C s'.
Proof.
  intros [Hd Hw] Ha Hf Hl. destruct (law_lookup fam C _ a Hd Ha Hf Hl) as (r & d' & H1 & H2 & H3).
  unfold PIDMap_lookup. rewrite (st_bind_Ok _ _ _ _ _ (on_data_Ok _ _ _ _ H1)).
  eexists _, _. split; [reflexivity|]. by split.
Qed.

(** The copy is a new, unlocked object with the same map. *)
Lemma PIDMap_copy_Ok fam C v0 s :
  known_family fam → pt_holds fam C (so_data s) → (Z.of_nat (size C) ≤ UINT_MAX)%Z →
  ∃ s', PIDMap_copy v0 s = Ok s' ∧ pt_holds fam C (so_data s') ∧ so_object s' = LocalObject_new v0.
Proof.
  intros Hf Hd Hsz. destruct (law_new (T := PID) (D := D) fam Hf) as (d0 & E0 & H0').
  destruct (law_copy fam fam ∅ C d0 (so_data s) Hf Hf H0' Hd Hsz) as (d' & H1 & H2).
  unfold PIDMap_copy, PIDMap_new. rewrite E0. cbn. rewrite H1. cbn. eauto.
Qed.
End PIDMap.
