(* ===== verification/IspPidMap.v ===== *)
(** * The client's PID map of an ISP (common/cpp/src/lib/isp_pidmap.cpp,
    include/p4p/isp_pidmap.h)

    [ISPPIDMap] loads the PID map of an ISP from a portal server or a file, numbers the
    PIDs in the order of the response and answers which PID index an address belongs
    to.  The portal protocol and the file reader are parameters; the trie is the
    interface of PrefixTable.v with integer values. *)
From S2P Require Import Prelude StdMap Patricia PatriciaBits IpAddr Pid PatriciaTrie.
From S2P Require Import PatriciaTrieSpec PrefixTable.

Definition ERR_UNKNOWN_PID : Z := -1.
Definition ERR_CONNECTION_FAILURE : Z := -3.
Definition ERR_PROTOCOL_FAILURE : Z := -4.
Definition ERR_FILE_OPEN_FAILED : Z := -5.
Definition ERR_FILE_READ_FAILED : Z := -6.

Definition DEFAULT_TTL : Z := (2 * 24 * 60 * 60)%Z.

(** [PIDPrefixes]: a PID and its [std::set] of prefixes, in the set's order. *)
Definition PIDPrefixes : Type := PID * list IPPrefix.

(** What the portal and the file reader deliver. *)
Inductive portal_reply :=
  | PortalOk (prefixes : list PIDPrefixes) (ttl : Z) (version : text)
  | PortalConnectionError
  | PortalProtocolError.
Inductive file_reply := FileOk (prefixes : list PIDPrefixes) | FileOpenFailed | FileReadFailed.

Section ISPPIDMap.
Context {D : Type} `{PrefixTable Z D}.
Variable get_pidmap : text * Z → portal_reply.
Variable read_file : text → file_reply.

Record ISPPIDMap := MkISPPIDMap {
  m_proto : option (text * Z);      (* host and port of the portal server *)
  m_filename : text;
  m_trie : D;
  m_pids : list PID;
  m_intraisp_pids : Z;
  m_lastUpdate : Z;
  m_ttl : Z;
  m_version : text
}.

(** The constructor without a data source; [m_intraisp_pids] is not initialised. *)
Definition ISPPIDMap_new (junk : Z) : outcome ISPPIDMap :=
  d ← pt_new; mret (MkISPPIDMap None [] d [] junk 0 DEFAULT_TTL []).

Definition setDataSourceServer (addr : text) (port : Z) (s : ISPPIDMap) : ISPPIDMap :=
  MkISPPIDMap (Some (addr, port)) [] (m_trie s) (m_pids s) (m_intraisp_pids s) (m_lastUpdate s)
    (m_ttl s) (m_version s).

Definition setDataSourceFile (filename : text) (s : ISPPIDMap) : ISPPIDMap :=
  MkISPPIDMap None filename (m_trie s) (m_pids s) (m_intraisp_pids s) (m_lastUpdate s)
    (m_ttl s) (m_version s).

Definition getPortalAddr (s : ISPPIDMap) : text := match m_proto s with Some (h, _) => h | None => [] end.
Definition getPortalPort (s : ISPPIDMap) : Z := match m_proto s with Some (_, p) => p | None => 0%Z end.

(** [lookup]: the PID index, and the prefix that matched. *)
Definition ISPPIDMap_lookup (addr : IPPrefix) : ST ISPPIDMap (Z * option IPPrefix) := λ s,
  match pt_lookup addr (m_trie s) with
  | Ok (r, d) =>
      Ok (match r with Some (pid, ip) => (pid, Some ip) | None => (ERR_UNKNOWN_PID, None) end,
          MkISPPIDMap (m_proto s) (m_filename s) d (m_pids s) (m_intraisp_pids s) (m_lastUpdate s)
            (m_ttl s) (m_version s))
  | Fault e => Fault e
  end.

Definition getPIDInfo (pid : Z) (s : ISPPIDMap) : PID :=
  if (pid <? 0)%Z || (Z.of_nat (length (m_pids s)) <=? pid)%Z then PID_INVALID
  else default PID_INVALID (m_pids s !! Z.to_nat pid).

Fixpoint find_index (pid : PID) (i : nat) (l : list PID) : Z :=
  match l with
  | [] => ERR_UNKNOWN_PID
  | p :: l' => if PID_eqb p pid then Z.of_nat i else find_index pid (S i) l'
  end.
Definition getPIDIndex (pid : PID) (s : ISPPIDMap) : Z := find_index pid 0 (m_pids s).

Definition listPIDs (s : ISPPIDMap) : list PID := m_pids s.
Definition getNumPIDs (s : ISPPIDMap) : Z * Z := (m_intraisp_pids s, Z.of_nat (length (m_pids s))).

(** The loop of [loadP4PInfo] over the prefixes of the PID with index [i] and then over
    the PIDs. *)
Fixpoint add_prefixes (i : Z) (ps : list IPPrefix) : ST D unit :=
  match ps with
  | [] => mret tt
  | p :: ps => pt_add p i;; add_prefixes i ps
  end.

Fixpoint build (i : nat) (prefixes : list PIDPrefixes) (pids : list PID) (intra : Z)
  : ST D (list PID * Z) :=
  match prefixes with
  | [] => mret (pids, intra)
  | (pid, ps) :: rest =>
      let intra' := if negb (external_ pid) then (intra + 1)%Z else intra in
      add_prefixes (Z.of_nat i) ps;;
      build (S i) rest (pids ++ [pid]) intra'
  end.

(** [loadP4PInfo] at time [now]: the return code and the new state. *)
Definition loadP4PInfo (now : Z) (s : ISPPIDMap) : outcome (Z * ISPPIDMap) :=
  let install (prefixes : list PIDPrefixes) (ttl : Z) (version : text) :=
    new_trie ← pt_new;
    '(pids, intra, d) ← build 0 prefixes [] 0 new_trie;
    mret (0%Z, MkISPPIDMap (m_proto s) (m_filename s) d pids intra now ttl version) in
  match m_proto s with
  | Some src =>
      match get_pidmap src with
      | PortalConnectionError => mret (ERR_CONNECTION_FAILURE, s)
      | PortalProtocolError => mret (ERR_PROTOCOL_FAILURE, s)
      | PortalOk prefixes ttl version => install prefixes ttl version
      end
  | None =>
      match read_file (m_filename s) with
      | FileOpenFailed => mret (ERR_FILE_OPEN_FAILED, s)
      | FileReadFailed => mret (ERR_FILE_READ_FAILED, s)
      | FileOk prefixes => install prefixes DEFAULT_TTL []
      end
  end.

(** ** What a load installs *)

(** A prefix belongs to the first PID of the response that lists it. *)
Definition put_first (i : Z) (C : gmap (list bool) Z) (p : IPPrefix) : gmap (list bool) Z :=
  match C !! ip_key p with Some _ => C | None => <[ip_key p := i]> C end.

Fixpoint table (i : nat) (prefixes : list PIDPrefixes) (C : gmap (list bool) Z) : gmap (list bool) Z :=
  match prefixes with
  | [] => C
  | (_, ps) :: rest => table (S i) rest (foldl (put_first (Z.of_nat i)) C ps)
  end.

Definition all_prefixes (prefixes : list PIDPrefixes) : list IPPrefix := prefixes ≫= snd.

Context `{!PrefixTableLaws Z D}.

Definition usable (fam : Z) (ps : list IPPrefix) : Prop := Forall (λ p, ip_ok p ∧ family_ p = fam) ps.

Lemma put_first_size i C p : size (put_first i C p) ≤ S (size C).
Proof.
  unfold put_first. destruct (C !! ip_key p) eqn:E; [lia|]. rewrite map_size_insert_None by done. lia.
Qed.

Lemma add_prefixes_Ok fam i ps : ∀ C d, pt_holds fam C d → usable fam ps →
  (Z.of_nat (size C + length ps) ≤ UINT_MAX)%Z →
  ∃ d', add_prefixes i ps d = Ok (tt, d') ∧ pt_holds fam (foldl (put_first i) C ps) d' ∧
    size (foldl (put_first i) C ps) ≤ size C + length ps.
Proof.
  induction ps as [|p ps IH]; intros C d Hd Hu Hsz; cbn [foldl length] in *.
  { exists d. split; [done|]. split; [done|lia]. }
  apply Forall_cons in Hu as [[Hp Hf] Hu]. pose proof (put_first_size i C p) as Hs.
  destruct (law_add fam C d p i Hd Hp Hf ltac:(lia)) as (d1 & H1 & H2).
  cbn [add_prefixes]. rewrite (st_bind_Ok _ _ _ _ _ H1). fold (put_first i C p) in H2.
  destruct (IH _ d1 H2 Hu) as (d' & H3 & H4 & H5); [lia|]. exists d'. split; [done|]. split; [done|lia].
Qed.

Lemma build_Ok fam prefixes : ∀ i pids intra C d, pt_holds fam C d → usable fam (all_prefixes prefixes) →
  (Z.of_nat (size C + length (all_prefixes prefixes)) ≤ UINT_MAX)%Z →
  ∃ d', build i prefixes pids intra d =
      Ok ((pids ++ prefixes.*1,
           intra + Z.of_nat (length (filter (λ q, external_ q.1 = false) prefixes)))%Z, d') ∧
    pt_holds fam (table i prefixes C) d'.
Proof.
  induction prefixes as [|[pid ps] rest IH]; intros i pids intra C d Hd Hu Hsz; cbn [build table].
  { exists d. split; [|done]. cbn. by rewrite app_nil_r, Z.add_0_r. }
  change (all_prefixes ((pid, ps) :: rest)) with (ps ++ all_prefixes rest) in *.
  apply Forall_app in Hu as [Hu1 Hu2]. rewrite length_app in Hsz. cbv zeta.
  destruct (add_prefixes_Ok fam (Z.of_nat i) ps C d Hd Hu1 ltac:(lia)) as (d1 & H1 & H2 & H3).
  rewrite (st_bind_Ok _ _ _ _ _ H1).
  destruct (IH (S i) (pids ++ [pid]) (if negb (external_ pid) then (intra + 1)%Z else intra) _ d1 H2 Hu2
    ltac:(lia)) as (d' & H4 & H5).
  exists d'. rewrite H4. split; [|done]. rewrite filter_cons. cbn [fst fmap list_fmap].
  rewrite <- app_assoc. destruct (external_ pid); cbn [negb].
  - rewrite decide_False by done. done.
  - rewrite decide_True by done. cbn [length].
    by rewrite Nat2Z.inj_succ, <- Z.add_assoc, <- Z.add_1_l.
Qed.

(** A prefix of the response maps to the first index that lists it. *)
Lemma foldl_put_first i ps : ∀ C k,
  foldl (put_first i) C ps !! k =
  match C !! k with
  | Some j => Some j
  | None => if decide (k ∈ ip_key <$> ps) then Some i else None
  end.
Proof.
  induction ps as [|p ps IH]; intros C k; cbn [foldl fmap list_fmap].
  { destruct (C !! k); [done|]. by rewrite decide_False by set_solver. }
  rewrite IH. unfold put_first. destruct (C !! ip_key p) as [j|] eqn:E.
  - destruct (C !! k) as [j'|] eqn:E2; [done|].
    assert (k ≠ ip_key p) by congruence. repeat case_decide; set_solver.
  - rewrite lookup_insert. case_decide as Hk.
    + subst. rewrite E. by rewrite decide_True by set_solver.
    + destruct (C !! k); [done|]. repeat case_decide; set_solver.
Qed.

Definition lists (k : list bool) (q : PIDPrefixes) : Prop := k ∈ ip_key <$> q.2.
#[global] Instance lists_dec k q : Decision (lists k q).
Proof. unfold lists. apply _. Defined.

Lemma table_lookup prefixes : ∀ i C k,
  table i prefixes C !! k =
  match C !! k with
  | Some j => Some j
  | None => (λ x, Z.of_nat (i + x.1)) <$> list_find (lists k) prefixes
  end.
Proof.
  induction prefixes as [|[pid ps] rest IH]; intros i C k; cbn [table list_find].
  { by destruct (C !! k). }
  rewrite IH, foldl_put_first. destruct (C !! k); [done|].
  destruct (decide (k ∈ ip_key <$> ps)) as [H1|H1].
  - rewrite decide_True by done. cbn. by rewrite Nat.add_0_r.
  - rewrite decide_False by done. destruct (list_find (lists k) rest) as [[j q]|]; [|done].
    cbn. do 2 f_equal. lia.
Qed.
End ISPPIDMap.
