(* ===== verification/Heap.v ===== *)
(** * Containers with deletion (common/cpp/src/include/p4p/detail/random_access_set.h,
    heap_with_delete.h)

    [RandomAccessSet] is a vector without duplicates with a map from elements to their
    indices; [MaxHeapWithDelete] is a binary heap on top of it.  The first comparator
    identifies elements: it is given by a key and a total order on keys.  The second one
    orders the heap.  Reading the vector past its end is the fault [UB]. *)
From S2P Require Import Prelude StdMap.

Section Containers.
Context {T K : Type} (key : T → K) (ltb : K → K → bool) (larger : T → T → bool).

Record RandomAccessSet := MkRAS { m_vec : list T; m_vec_index : list (K * nat) }.

(** ** RandomAccessSet *)
Definition ras_empty : RandomAccessSet := MkRAS [] [].

(** [None] is [npos]. *)
Definition ras_find (value : T) (s : RandomAccessSet) : option nat :=
  map_find ltb (key value) (m_vec_index s).
Definition ras_size (s : RandomAccessSet) : nat := length (m_vec s).
Definition ras_get (idx : nat) (s : RandomAccessSet) : outcome T :=
  from_option_or UB (m_vec s !! idx).

Definition ras_push_back (value : T) (s : RandomAccessSet) : bool * RandomAccessSet :=
  match ras_find value s with
  | Some _ => (false, s)
  | None =>
      let v := m_vec s ++ [value] in
      (true, MkRAS v (map_set ltb (key value) (length v - 1) (m_vec_index s)))
  end.

Definition ras_pop_back (s : RandomAccessSet) : RandomAccessSet :=
  match last (m_vec s) with
  | None => s
  | Some x => MkRAS (take (length (m_vec s) - 1) (m_vec s)) (map_erase ltb (key x) (m_vec_index s))
  end.

Definition ras_swap (idx1 idx2 : nat) (s : RandomAccessSet) : outcome RandomAccessSet :=
  x1 ← ras_get idx1 s;
  x2 ← ras_get idx2 s;
  let index := map_set ltb (key x2) idx1 (map_set ltb (key x1) idx2 (m_vec_index s)) in
  mret (MkRAS (<[idx2 := x1]> (<[idx1 := x2]> (m_vec s))) index).

Definition ras_erase (value : T) (s : RandomAccessSet) : outcome (bool * RandomAccessSet) :=
  match ras_find value s with
  | None => mret (false, s)
  | Some idx => s' ← ras_swap idx (ras_size s - 1) s; mret (true, ras_pop_back s')
  end.

(** ** MaxHeapWithDelete *)
Definition parent (idx : nat) : nat := (idx + 1) / 2 - 1.
Definition left_child (idx : nat) : nat := 2 * (idx + 1) - 1.
Definition right_child (idx : nat) : nat := 2 * (idx + 1) + 1 - 1.

Definition is_larger (idx1 idx2 : nat) (s : RandomAccessSet) : outcome bool :=
  a ← ras_get idx1 s; b ← ras_get idx2 s; mret (larger a b).

(** [idx < size () && is_larger (idx, other)] *)
Definition in_and_larger (idx other : nat) (s : RandomAccessSet) : outcome bool :=
  if idx <? ras_size s then is_larger idx other s else mret false.

Fixpoint percolateDown (fuel idx : nat) (s : RandomAccessSet) : outcome (bool * RandomAccessSet) :=
  match fuel with
  | 0 => Fault NoFuel
  | S fuel =>
      let left := left_child idx in
      let right := right_child idx in
      bl ← in_and_larger left idx s;
      let largest := if bl : bool then left else idx in
      br ← in_and_larger right largest s;
      let largest := if br : bool then right else largest in
      if negb (largest =? idx) then
        s' ← ras_swap largest idx s;
        '(_, s'') ← percolateDown fuel largest s';
        mret (true, s'')
      else mret (false, s)
  end.

Fixpoint percolateUp_loop (fuel idx : nat) (moved : bool) (s : RandomAccessSet)
  : outcome (bool * RandomAccessSet) :=
  match fuel with
  | 0 => Fault NoFuel
  | S fuel =>
      if 0 <? idx then
        b ← is_larger idx (parent idx) s;
        if b : bool then
          s' ← ras_swap idx (parent idx) s;
          percolateUp_loop fuel (parent idx) true s'
        else mret (moved, s)
      else mret (moved, s)
  end.
Definition percolateUp (idx : nat) (s : RandomAccessSet) : outcome (bool * RandomAccessSet) :=
  percolateUp_loop (S idx) idx false s.

Definition heap_push (value : T) (s : RandomAccessSet) : outcome (bool * RandomAccessSet) :=
  match ras_find value s with
  | Some _ => mret (false, s)
  | None =>
      let s1 := (ras_push_back value s).2 in
      '(_, s2) ← percolateUp (ras_size s1 - 1) s1;
      mret (true, s2)
  end.

Definition heap_empty (s : RandomAccessSet) : bool := ras_size s =? 0.

Definition heap_pop (s : RandomAccessSet) : outcome (bool * RandomAccessSet) :=
  if heap_empty s then mret (false, s)
  else
    s1 ← ras_swap 0 (ras_size s - 1) s;
    let s2 := ras_pop_back s1 in
    '(_, s3) ← percolateDown (S (ras_size s2)) 0 s2;
    mret (true, s3).

Definition heap_top (s : RandomAccessSet) : outcome T := ras_get 0 s.

Definition heap_erase (value : T) (s : RandomAccessSet) : outcome (bool * RandomAccessSet) :=
  match ras_find value s with
  | None => mret (false, s)
  | Some idx =>
      s1 ← ras_swap idx (ras_size s - 1) s;
      let s2 := ras_pop_back s1 in
      '(up, s3) ← percolateUp idx s2;
      if up : bool then mret (true, s3)
      else '(_, s4) ← percolateDown (S (ras_size s3)) idx s3; mret (true, s4)
  end.

Definition heap_find (value : T) (s : RandomAccessSet) : outcome (option T) :=
  match ras_find value s with
  | None => mret None
  | Some idx => x ← ras_get idx s; mret (Some x)
  end.

(** ** The invariant of the set *)
Context `{!StrictTotal ltb} `{EqDecision K}.

(** The index map is exact: it sends the key of each element to its position. *)
Record ras_inv (s : RandomAccessSet) : Prop := {
  ras_sorted : map_sorted ltb (m_vec_index s);
  ras_index : ∀ k i, map_find ltb k (m_vec_index s) = Some i ↔ ∃ x, m_vec s !! i = Some x ∧ key x = k
}.

Lemma ras_key_inj s i j x y : ras_inv s → m_vec s !! i = Some x → m_vec s !! j = Some y →
  key x = key y → i = j.
Proof.
  intros I Hx Hy E. assert (H1 : map_find ltb (key x) (m_vec_index s) = Some i) by (apply I; eauto).
  assert (H2 : map_find ltb (key x) (m_vec_index s) = Some j) by (apply I; eauto). congruence.
Qed.

Lemma ras_empty_inv : ras_inv ras_empty.
Proof. split; [constructor|]. intros k i. cbn. split; [done|]. by intros (x & H & _). Qed.

Lemma ras_find_Some s v i : ras_inv s →
  ras_find v s = Some i ↔ ∃ x, m_vec s !! i = Some x ∧ key x = key v.
Proof. intros I. apply I. Qed.

Lemma ras_find_None s v x : ras_inv s → ras_find v s = None → x ∈ m_vec s → key x ≠ key v.
Proof.
  intros I Hf [i Hi]%list_elem_of_lookup E.
  assert (H : ras_find v s = Some i) by (apply ras_find_Some; eauto). congruence.
Qed.

Lemma ras_push_back_inv v s : ras_inv s → ras_find v s = None →
  ras_inv (ras_push_back v s).2 ∧ m_vec (ras_push_back v s).2 = m_vec s ++ [v].
Proof.
  intros I Hf. unfold ras_push_back. rewrite Hf. cbn [snd m_vec]. split; [|done].
  split; cbn [m_vec m_vec_index]; [apply map_set_sorted; [done|apply I]|].
  intros k i. rewrite length_app, Nat.add_sub. destruct (decide (key v = k)) as [<-|Hne].
  - rewrite map_find_set_eq by (done || apply I). split.
    + intros [= <-]. exists v. split; [|done]. by apply list_lookup_middle.
    + intros (x & Hx & Hk). apply lookup_app_Some in Hx as [Hx|[Hle Hx]].
      * by destruct (ras_find_None s v x I Hf (list_elem_of_lookup_2 _ _ _ Hx)).
      * apply list_lookup_singleton_Some in Hx as [Hi _]. f_equal. lia.
  - rewrite map_find_set_ne by (done || apply I). rewrite (ras_index s I). split.
    + intros (x & Hx & Hk). exists x. split; [|done]. by apply lookup_app_l_Some.
    + intros (x & Hx & Hk). exists x. split; [|done].
      apply lookup_app_Some in Hx as [Hx|[Hle Hx]]; [done|].
      apply list_lookup_singleton_Some in Hx as [_ ->]. done.
Qed.

Lemma take_last {A} (l : list A) x : last l = Some x → l = take (length l - 1) l ++ [x].
Proof.
  intros [l' ->]%last_Some. rewrite length_app, Nat.add_sub. by rewrite take_app_length.
Qed.

Lemma ras_pop_back_inv s x l : ras_inv s → m_vec s = l ++ [x] →
  ras_inv (ras_pop_back s) ∧ m_vec (ras_pop_back s) = l.
Proof.
  intros I E. unfold ras_pop_back. rewrite E, last_snoc, length_app, Nat.add_sub, take_app_length.
  cbn [m_vec]. split; [|done]. split; cbn [m_vec m_vec_index]; [apply map_erase_sorted, I|].
  assert (Hx : m_vec s !! length l = Some x) by (rewrite E; by apply list_lookup_middle).
  intros k i. destruct (decide (key x = k)) as [<-|Hne].
  - rewrite map_find_erase_eq by (done || apply I). split; [done|]. intros (y & Hy & Hk).
    assert (Hy' : m_vec s !! i = Some y) by (rewrite E; by apply lookup_app_l_Some).
    pose proof (ras_key_inj s _ _ _ _ I Hy' Hx Hk) as ->. apply lookup_lt_Some in Hy. lia.
  - rewrite map_find_erase_ne by (done || apply I). rewrite (ras_index s I), E. split.
    + intros (y & Hy & Hk). exists y. split; [|done].
      apply lookup_app_Some in Hy as [Hy|[_ Hy]]; [done|].
      apply list_lookup_singleton_Some in Hy as [_ ->]. done.
    + intros (y & Hy & Hk). exists y. split; [|done]. by apply lookup_app_l_Some.
Qed.

(** The swapped vector. *)
Definition swapped (i j : nat) (x y : T) (l : list T) : list T := <[j := x]> (<[i := y]> l).

Lemma lookup_swapped i j x y l n : l !! i = Some x → l !! j = Some y →
  swapped i j x y l !! n = if decide (n = j) then Some x else if decide (n = i) then Some y else l !! n.
Proof.
  intros Hi Hj. unfold swapped. apply lookup_lt_Some in Hi as Li. apply lookup_lt_Some in Hj as Lj.
  destruct (decide (n = j)) as [->|Hnj].
  - rewrite list_lookup_insert_eq by (rewrite length_insert; done). done.
  - rewrite list_lookup_insert_ne by done. destruct (decide (n = i)) as [->|Hni].
    + by rewrite list_lookup_insert_eq.
    + by rewrite list_lookup_insert_ne.
Qed.

Lemma swapped_perm i j x y l : l !! i = Some x → l !! j = Some y → swapped i j x y l ≡ₚ l.
Proof. apply Permutation_insert_swap. Qed.

Lemma length_swapped i j x y l : length (swapped i j x y l) = length l.
Proof. unfold swapped. by rewrite !length_insert. Qed.

Lemma ras_swap_Ok i j s x y : ras_inv s → m_vec s !! i = Some x → m_vec s !! j = Some y →
  ∃ s', ras_swap i j s = Ok s' ∧ ras_inv s' ∧ m_vec s' = swapped i j x y (m_vec s).
Proof.
  intros I Hi Hj. unfold ras_swap, ras_get. rewrite Hi, Hj. cbn [from_option_or mbind outcome_bind mret outcome_ret].
  eexists. split; [reflexivity|]. split; [|done].
  assert (S1 : map_sorted ltb (map_set ltb (key x) j (m_vec_index s))) by (apply map_set_sorted; [done|apply I]).
  split; cbn [m_vec m_vec_index]; [by apply map_set_sorted|]. fold (swapped i j x y (m_vec s)).
  intros k n. rewrite (lookup_swapped _ _ _ _ _ _ Hi Hj). destruct (decide (key y = k)) as [<-|Hky].
  - rewrite map_find_set_eq by done. split.
    + intros [= <-]. destruct (decide (i = j)) as [E|E]; [|by rewrite decide_True; eauto].
      exists x. split; [done|]. congruence.
    + intros (z & Hz & Hk). destruct (decide (n = j)) as [->|Hnj].
      * injection Hz as <-. f_equal. by apply (ras_key_inj s _ _ _ _ I Hi Hj).
      * destruct (decide (n = i)) as [->|Hni]; [done|].
        destruct (Hnj (ras_key_inj s _ _ _ _ I Hz Hj Hk)).
  - rewrite map_find_set_ne by done. destruct (decide (key x = k)) as [<-|Hkx].
    + rewrite map_find_set_eq by (done || apply I). split.
      * intros [= <-]. rewrite decide_True by done. eauto.
      * intros (z & Hz & Hk). destruct (decide (n = j)) as [->|Hnj]; [done|].
        destruct (decide (n = i)) as [->|Hni]; [congruence|].
        destruct (Hni (ras_key_inj s _ _ _ _ I Hz Hi Hk)).
    + rewrite map_find_set_ne by (done || apply I). rewrite (ras_index s I). split.
      * intros (z & Hz & Hk). exists z. split; [|done].
        rewrite !decide_False; [done|intros ->; congruence..].
      * intros (z & Hz & Hk). exists z. split; [|done].
        destruct (decide (n = j)); [congruence|]. destruct (decide (n = i)); [congruence|]. done.
Qed.

(** Swap with the last element and drop it: the last element [y] moves to position [i]. *)
Lemma swap_pop i s x : ras_inv s → m_vec s !! i = Some x →
  ∃ s1 y, ras_swap i (ras_size s - 1) s = Ok s1 ∧ ras_inv (ras_pop_back s1) ∧
    m_vec s !! (ras_size s - 1) = Some y ∧
    m_vec s ≡ₚ x :: m_vec (ras_pop_back s1) ∧ ras_size (ras_pop_back s1) = ras_size s - 1 ∧
    ∀ n, n < ras_size s - 1 →
      m_vec (ras_pop_back s1) !! n = if decide (n = i) then Some y else m_vec s !! n.
Proof.
  intros I Hx. destruct (last (m_vec s)) as [y|] eqn:L; [|apply last_None in L; by rewrite L in Hx].
  rewrite last_lookup in L. replace (pred (length (m_vec s))) with (ras_size s - 1) in L by (unfold ras_size; lia).
  destruct (ras_swap_Ok i (ras_size s - 1) s x y I Hx L) as (s1 & H1 & I1 & E1). exists s1, y.
  assert (Hn : 0 < ras_size s) by (unfold ras_size; apply lookup_lt_Some in Hx; lia).
  assert (Hlast : m_vec s1 = take (ras_size s - 1) (m_vec s1) ++ [x]).
  { assert (Ll : length (m_vec s1) = ras_size s) by (by rewrite E1, length_swapped).
    rewrite <- Ll. apply take_last. rewrite last_lookup.
    replace (pred (length (m_vec s1))) with (ras_size s - 1) by lia.
    rewrite E1, (lookup_swapped _ _ _ _ _ _ Hx L). by rewrite decide_True. }
  destruct (ras_pop_back_inv s1 x _ I1 Hlast) as [I2 E2]. split_and!; try done.
  - rewrite E2. rewrite <- (swapped_perm _ _ _ _ _ Hx L), <- E1. rewrite Hlast at 1.
    by rewrite Permutation_app_comm.
  - unfold ras_size at 1. rewrite E2, length_take, E1, length_swapped. unfold ras_size. lia.
  - intros n Hlt. rewrite E2, lookup_take_lt by done. rewrite E1, (lookup_swapped _ _ _ _ _ _ Hx L).
    rewrite decide_False by lia. done.
Qed.

(** [erase] of the set removes exactly that element, for every position. *)
Lemma ras_erase_Ok v s : ras_inv s →
  ∃ b s', ras_erase v s = Ok (b, s') ∧ ras_inv s' ∧
    (b = true → ∃ x, key x = key v ∧ m_vec s ≡ₚ x :: m_vec s') ∧
    (b = false → s' = s ∧ ∀ x, x ∈ m_vec s → key x ≠ key v).
Proof.
  intros I. unfold ras_erase. destruct (ras_find v s) as [i|] eqn:F.
  2:{ exists false, s. split_and!; try done. intros _. split; [done|]. intros x. by eapply ras_find_None. }
  apply ras_find_Some in F as (x & Hx & Hk); [|done].
  destruct (swap_pop i s x I Hx) as (s1 & y & -> & I2 & _ & HP & _). cbn.
  exists true, (ras_pop_back s1). split_and!; try done. eauto.
Qed.

(** ** The heap order *)
Class StrictWeak : Prop := {
  larger_irrefl a : larger a a = false;
  larger_trans a b c : larger a b = true → larger b c = true → larger a c = true;
  larger_negtrans a b c : larger a b = false → larger b c = false → larger a c = false
}.
Context `{!StrictWeak}.

Lemma larger_asym a b : larger a b = true → larger b a = false.
Proof.
  intros Hab. destruct (larger b a) eqn:E; [|done]. pose proof (larger_trans _ _ _ Hab E) as X.
  by rewrite larger_irrefl in X.
Qed.

(** Position [j] respects its parent. *)
Definition above (v : list T) (p c : nat) : Prop :=
  ∀ a b, v !! p = Some a → v !! c = Some b → larger b a = false.
Definition heap_ok (v : list T) : Prop := ∀ j, 0 < j → above v (parent j) j.

Lemma parent_lt j : 0 < j → parent j < j.
Proof. intros Hj. unfold parent. pose proof (Nat.div_mod_eq (j + 1) 2). lia. Qed.

Lemma parent_child i j : 0 < j → parent j = i ↔ j = left_child i ∨ j = right_child i.
Proof.
  intros Hj. unfold parent, left_child, right_child.
  pose proof (Nat.div_mod_eq (j + 1) 2). pose proof (Nat.mod_upper_bound (j + 1) 2). lia.
Qed.

Lemma child_gt i : i < left_child i ∧ i < right_child i.
Proof. unfold left_child, right_child. lia. Qed.

Lemma heap_top_max v a : heap_ok v → v !! 0 = Some a → ∀ j b, v !! j = Some b → larger b a = false.
Proof.
  intros HO Ha j. induction (lt_wf j) as [j _ IH]. intros b Hb.
  destruct (decide (j = 0)) as [->|Hj]; [assert (a = b) as -> by congruence; apply larger_irrefl|].
  pose proof (parent_lt j ltac:(lia)) as Hp.
  destruct (lookup_lt_is_Some_2 v (parent j)) as [c Hc]; [apply lookup_lt_Some in Hb; lia|].
  eapply larger_negtrans; [apply (HO j ltac:(lia) c b Hc Hb)|by apply (IH _ Hp)].
Qed.

(** The order holds except around [i]: the children of [i] respect the parent of [i]. *)
Record heap_except (v : list T) (i : nat) : Prop := {
  he_other : ∀ j, 0 < j → j ≠ i → parent j ≠ i → above v (parent j) j;
  he_skip : ∀ j, 0 < i → 0 < j → parent j = i → above v (parent i) j
}.

Lemma heap_except_of v i : heap_ok v → heap_except v i.
Proof.
  intros HO. split; [auto|]. intros j Hi Hj <- a b Ha Hb. 
  destruct (lookup_lt_is_Some_2 v (parent j)) as [c Hc].
  { apply lookup_lt_Some in Hb. pose proof (parent_lt j Hj). lia. }
  eapply larger_negtrans; [apply (HO j Hj c b Hc Hb)|apply (HO (parent j) Hi a c Ha Hc)].
Qed.

Lemma is_larger_Ok i j s a b : m_vec s !! i = Some a → m_vec s !! j = Some b →
  is_larger i j s = Ok (larger a b).
Proof. intros Ha Hb. unfold is_larger, ras_get. by rewrite Ha, Hb. Qed.

Definition children_ok (v : list T) (i : nat) : Prop := ∀ j, 0 < j → parent j = i → above v i j.

Lemma heap_ok_intro v i : heap_except v i → children_ok v i → (0 < i → above v (parent i) i) → heap_ok v.
Proof.
  intros HE HC HU j Hj. destruct (decide (j = i)) as [->|Hne]; [auto|].
  destruct (decide (parent j = i)) as [E|E]; [rewrite E; by apply HC|]. by apply HE.
Qed.

(** One step up. *)
Lemma up_step v i x y : heap_except v i → 0 < i → v !! i = Some x → v !! parent i = Some y →
  larger x y = true →
  heap_except (swapped i (parent i) x y v) (parent i) ∧ children_ok (swapped i (parent i) x y v) (parent i).
Proof.
  intros HE Hi Hx Hy HL. pose proof (parent_lt i Hi) as Hp. set (p := parent i) in *.
  assert (HV := λ n, lookup_swapped i p x y v n Hx Hy).
  assert (Hyx : larger y x = false) by by apply larger_asym.
  split; [split|].
  - intros j Hj Hjp Hpj a b. rewrite !HV.
    assert (j ≠ i) by (intros ->; done). rewrite (decide_False (P := j = p)), (decide_False (P := j = i)) by done.
    rewrite (decide_False (P := parent j = p)) by done.
    destruct (decide (parent j = i)) as [E|E]; [|by apply HE].
    intros [= <-] Hb. apply (he_skip _ _ HE j Hi Hj E y b Hy Hb).
  - intros j Hp0 Hj Hpj a b. rewrite !HV. pose proof (parent_lt p Hp0) as Hpp.
    rewrite (decide_False (P := parent p = p)), (decide_False (P := parent p = i)) by lia.
    assert (j ≠ p) by (pose proof (parent_lt j Hj); lia).
    rewrite (decide_False (P := j = p)) by done. intros Ha.
    assert (Hya : larger y a = false) by (apply (he_other _ _ HE p Hp0 ltac:(lia) ltac:(lia) a y Ha Hy)).
    destruct (decide (j = i)) as [->|Hji]; [by intros [= <-]|]. intros Hb.
    eapply larger_negtrans; [|exact Hya].
    apply (he_other _ _ HE j Hj Hji ltac:(lia) y b); [by rewrite Hpj|done].
  - intros j Hj Hpj a b. rewrite !HV. rewrite (decide_True (P := p = p)) by done. intros [= <-].
    assert (j ≠ p) by (pose proof (parent_lt j Hj); lia).
    rewrite (decide_False (P := j = p)) by done.
    destruct (decide (j = i)) as [->|Hji]; [by intros [= <-]|]. intros Hb.
    eapply larger_negtrans; [|exact Hyx].
    apply (he_other _ _ HE j Hj Hji ltac:(lia) y b); [by rewrite Hpj|done].
Qed.

(** The loop, once it has moved. *)
Lemma up_loop_moved fuel : ∀ i s, ras_inv s → i < ras_size s → i < fuel →
  heap_except (m_vec s) i → children_ok (m_vec s) i →
  ∃ s', percolateUp_loop fuel i true s = Ok (true, s') ∧ ras_inv s' ∧ heap_ok (m_vec s') ∧
    m_vec s' ≡ₚ m_vec s.
Proof.
  induction fuel as [|fuel IH]; intros i s I Hi Hf HE HC; [lia|]. cbn [percolateUp_loop].
  destruct (Nat.ltb_spec 0 i) as [Hpos|Hz].
  2:{ exists s. split_and!; try done. apply (heap_ok_intro _ i); [done..|lia]. }
  pose proof (parent_lt i Hpos) as Hp.
  destruct (lookup_lt_is_Some_2 (m_vec s) i Hi) as [x Hx].
  destruct (lookup_lt_is_Some_2 (m_vec s) (parent i)) as [y Hy]; [unfold ras_size in Hi; lia|].
  rewrite (is_larger_Ok _ _ _ _ _ Hx Hy). cbn [mbind outcome_bind]. destruct (larger x y) eqn:HL.
  - destruct (ras_swap_Ok _ _ _ _ _ I Hx Hy) as (s1 & -> & I1 & E1). cbn [mbind outcome_bind].
    destruct (up_step _ _ _ _ HE Hpos Hx Hy HL) as [HE1 HC1]. rewrite <- E1 in HE1, HC1.
    destruct (IH (parent i) s1 I1) as (s' & H1 & H2 & H3 & H4); try done; try lia.
    { unfold ras_size in *. rewrite E1, length_swapped. lia. }
    exists s'. split_and!; try done. rewrite H4, E1. by apply swapped_perm.
  - exists s. split_and!; try done. apply (heap_ok_intro _ i); [done..|].
    intros _ a b Ha Hb. congruence.
Qed.

(** [percolateUp]: either the element moves and the heap is restored, or nothing
    changes and the element respects its parent. *)
Lemma percolateUp_Ok i s : ras_inv s → i < ras_size s → heap_except (m_vec s) i →
  ∃ b s', percolateUp i s = Ok (b, s') ∧ ras_inv s' ∧ m_vec s' ≡ₚ m_vec s ∧
    if b : bool then heap_ok (m_vec s') else s' = s ∧ (0 < i → above (m_vec s) (parent i) i).
Proof.
  intros I Hi HE. unfold percolateUp. cbn [percolateUp_loop].
  destruct (Nat.ltb_spec 0 i) as [Hpos|Hz].
  2:{ exists false, s. split_and!; try done. lia. }
  pose proof (parent_lt i Hpos) as Hp.
  destruct (lookup_lt_is_Some_2 (m_vec s) i Hi) as [x Hx].
  destruct (lookup_lt_is_Some_2 (m_vec s) (parent i)) as [y Hy]; [unfold ras_size in Hi; lia|].
  rewrite (is_larger_Ok _ _ _ _ _ Hx Hy). cbn [mbind outcome_bind]. destruct (larger x y) eqn:HL.
  - destruct (ras_swap_Ok _ _ _ _ _ I Hx Hy) as (s1 & -> & I1 & E1). cbn [mbind outcome_bind].
    destruct (up_step _ _ _ _ HE Hpos Hx Hy HL) as [HE1 HC1]. rewrite <- E1 in HE1, HC1.
    destruct (up_loop_moved i (parent i) s1 I1) as (s' & H1 & H2 & H3 & H4); try done.
    { unfold ras_size in *. rewrite E1, length_swapped. lia. }
    exists true, s'. split_and!; try done. rewrite H4, E1. by apply swapped_perm.
  - exists false, s. split_and!; try done. intros _ a b Ha Hb. congruence.
Qed.

(** One step down: [c] is the larger child, above the other one. *)
Lemma down_step v i c x z : heap_except v i → (0 < i → above v (parent i) i) →
  0 < c → parent c = i → v !! i = Some x → v !! c = Some z → larger z x = true →
  (∀ j w, 0 < j → parent j = i → j ≠ c → v !! j = Some w → larger w z = false) →
  heap_except (swapped c i z x v) c ∧ above (swapped c i z x v) i c.
Proof.
  intros HE HU Hc Hpc Hx Hz HL Hmax. pose proof (parent_lt c Hc) as Hlt. rewrite Hpc in Hlt.
  assert (HV := λ n, lookup_swapped c i z x v n Hz Hx).
  split; [split|].
  - intros j Hj Hjc Hpj a b. rewrite !HV. rewrite (decide_False (P := parent j = c)) by done.
    rewrite (decide_False (P := j = c)) by done.
    destruct (decide (j = i)) as [->|Hji].
    + pose proof (parent_lt i Hj). rewrite (decide_False (P := parent i = i)) by lia.
      intros Ha [= <-]. apply (he_skip _ _ HE c Hj Hc Hpc a z Ha Hz).
    + destruct (decide (parent j = i)) as [E|E].
      * intros [= <-] Hb. by apply (Hmax j b).
      * by apply HE.
  - intros j _ Hj Hpj a b. rewrite !HV, Hpc. rewrite (decide_True (P := i = i)) by done. intros [= <-].
    pose proof (parent_lt j Hj). rewrite (decide_False (P := j = i)), (decide_False (P := j = c)) by lia.
    intros Hb. apply (he_other _ _ HE j Hj ltac:(lia) ltac:(lia) z b); [by rewrite Hpj|done].
  - intros a b. rewrite !HV. rewrite (decide_True (P := i = i)), (decide_False (P := c = i)) by lia.
    rewrite (decide_True (P := c = c)) by done. intros [= <-] [= <-]. by apply larger_asym.
Qed.

(** The child the comparison selects, if any. *)
Definition pick (i : nat) (s : RandomAccessSet) : outcome nat :=
  bl ← in_and_larger (left_child i) i s;
  br ← in_and_larger (right_child i) (if bl : bool then left_child i else i) s;
  mret (if br : bool then right_child i else if bl : bool then left_child i else i).

Lemma in_and_larger_Ok i j s b : m_vec s !! j = Some b →
  in_and_larger i j s = Ok (match m_vec s !! i with Some a => larger a b | None => false end).
Proof.
  intros Hb. unfold in_and_larger, ras_size. destruct (Nat.ltb_spec i (length (m_vec s))) as [Hlt|Hge].
  - destruct (lookup_lt_is_Some_2 _ _ Hlt) as [a Ha]. rewrite Ha. by apply is_larger_Ok.
  - by rewrite lookup_ge_None_2.
Qed.

Lemma pick_Ok i s x : m_vec s !! i = Some x →
  ∃ c, pick i s = Ok c ∧
    ((c = i ∧ children_ok (m_vec s) i) ∨
     (0 < c ∧ parent c = i ∧ ∃ z, m_vec s !! c = Some z ∧ larger z x = true ∧
        ∀ j w, 0 < j → parent j = i → j ≠ c → m_vec s !! j = Some w → larger w z = false)).
Proof.
  intros Hx. pose proof (child_gt i) as [Hl Hr]. unfold pick. rewrite (in_and_larger_Ok _ _ _ _ Hx).
  cbn [mbind outcome_bind]. set (l := left_child i) in *. set (r := right_child i) in *.
  assert (Hpl : parent l = i) by (apply parent_child; [lia|by left]).
  assert (Hpr : parent r = i) by (apply parent_child; [lia|by right]).
  assert (Hch : ∀ j, 0 < j → parent j = i → j = l ∨ j = r) by (intros j Hj; by apply parent_child).
  destruct (m_vec s !! l) as [a|] eqn:Ea; [destruct (larger a x) eqn:La|].
  - rewrite (in_and_larger_Ok _ _ _ _ Ea). cbn [mbind outcome_bind mret outcome_ret].
    destruct (m_vec s !! r) as [b|] eqn:Eb; [destruct (larger b a) eqn:Lb|]; eexists; (split; [reflexivity|]); right.
    + split; [lia|]. split; [done|]. exists b. split; [done|]. split; [by eapply larger_trans|].
      intros j w Hj Hpj Hjr Hw. destruct (Hch j Hj Hpj) as [->| ->]; [|done].
      assert (w = a) as -> by congruence. by apply larger_asym.
    + split; [lia|]. split; [done|]. exists a. split; [done|]. split; [done|].
      intros j w Hj Hpj Hjr Hw. destruct (Hch j Hj Hpj) as [->| ->]; [done|]. congruence.
    + split; [lia|]. split; [done|]. exists a. split; [done|]. split; [done|].
      intros j w Hj Hpj Hjr Hw. destruct (Hch j Hj Hpj) as [->| ->]; [done|]. congruence.
  - rewrite (in_and_larger_Ok _ _ _ _ Hx). cbn [mbind outcome_bind mret outcome_ret].
    destruct (m_vec s !! r) as [b|] eqn:Eb; [destruct (larger b x) eqn:Lb|]; eexists; (split; [reflexivity|]).
    + right. split; [lia|]. split; [done|]. exists b. split; [done|]. split; [done|].
      intros j w Hj Hpj Hjr Hw. destruct (Hch j Hj Hpj) as [->| ->]; [|done].
      assert (w = a) as -> by congruence. eapply larger_negtrans; [exact La|by apply larger_asym].
    + left. split; [done|]. intros j Hj Hpj c d Hc Hd. destruct (Hch j Hj Hpj) as [->| ->]; congruence.
    + left. split; [done|]. intros j Hj Hpj c d Hc Hd. destruct (Hch j Hj Hpj) as [->| ->]; congruence.
  - rewrite (in_and_larger_Ok _ _ _ _ Hx). cbn [mbind outcome_bind mret outcome_ret].
    destruct (m_vec s !! r) as [b|] eqn:Eb; [destruct (larger b x) eqn:Lb|]; eexists; (split; [reflexivity|]).
    + right. split; [lia|]. split; [done|]. exists b. split; [done|]. split; [done|].
      intros j w Hj Hpj Hjr Hw. destruct (Hch j Hj Hpj) as [->| ->]; congruence.
    + left. split; [done|]. intros j Hj Hpj c d Hc Hd. destruct (Hch j Hj Hpj) as [->| ->]; congruence.
    + left. split; [done|]. intros j Hj Hpj c d Hc Hd. destruct (Hch j Hj Hpj) as [->| ->]; congruence.
Qed.

Definition sink (fuel i c : nat) (s : RandomAccessSet) : outcome (bool * RandomAccessSet) :=
  if negb (c =? i) then
    s' ← ras_swap c i s;
    '(_, s'') ← percolateDown fuel c s';
    mret (true, s'')
  else mret (false, s).

Lemma percolateDown_unfold fuel i s :
  percolateDown (S fuel) i s = match pick i s with Ok c => sink fuel i c s | Fault e => Fault e end.
Proof.
  cbn [percolateDown]. unfold pick. destruct (in_and_larger (left_child i) i s) as [bl|]; [|done].
  cbn [mbind outcome_bind]. destruct (in_and_larger (right_child i) _ s) as [br|]; done.
Qed.

Lemma percolateDown_Ok fuel : ∀ i s, ras_inv s → i < ras_size s → ras_size s - i ≤ fuel →
  heap_except (m_vec s) i → (0 < i → above (m_vec s) (parent i) i) →
  ∃ b s', percolateDown fuel i s = Ok (b, s') ∧ ras_inv s' ∧ heap_ok (m_vec s') ∧ m_vec s' ≡ₚ m_vec s.
Proof.
  induction fuel as [|fuel IH]; intros i s I Hi Hf HE HU; [lia|]. rewrite percolateDown_unfold.
  destruct (lookup_lt_is_Some_2 (m_vec s) i Hi) as [x Hx].
  destruct (pick_Ok i s x Hx) as (c & -> & [[-> HC]|(Hc & Hpc & z & Hz & HL & Hmax)]).
  - unfold sink. rewrite Nat.eqb_refl. exists false, s. split_and!; try done. by apply (heap_ok_intro _ i).
  - pose proof (parent_lt c Hc). unfold sink. destruct (Nat.eqb_spec c i); [lia|]. cbn [negb].
    destruct (ras_swap_Ok _ _ _ _ _ I Hz Hx) as (s1 & -> & I1 & E1). cbn [mbind outcome_bind].
    destruct (down_step _ _ _ _ _ HE HU Hc Hpc Hx Hz HL Hmax) as [HE1 HU1]. rewrite <- E1 in HE1, HU1.
    assert (Hs1 : ras_size s1 = ras_size s) by (unfold ras_size; by rewrite E1, length_swapped).
    destruct (IH c s1 I1) as (b & s' & -> & H2 & H3 & H4); try done; try lia.
    { rewrite Hs1. unfold ras_size. by apply lookup_lt_Some in Hz. }
    { intros _. by rewrite Hpc. }
    exists true, s'. split_and!; try done. rewrite H4, E1. by apply swapped_perm.
Qed.

(** ** The operations *)
Definition heap_inv (s : RandomAccessSet) : Prop := ras_inv s ∧ heap_ok (m_vec s).

Lemma heap_empty_inv : heap_inv ras_empty.
Proof. split; [apply ras_empty_inv|]. intros j _ a b Ha. done. Qed.

Lemma heap_except_snoc v x : heap_ok v → heap_except (v ++ [x]) (length v).
Proof.
  intros HO. split.
  - intros j Hj Hne _ a b Ha Hb. pose proof (parent_lt j Hj) as Hp.
    apply lookup_lt_Some in Hb as Hl. rewrite length_app in Hl. cbn [length] in Hl.
    rewrite lookup_app_l in Ha, Hb by lia. by apply (HO j Hj).
  - intros j _ Hj Hpj a b _ Hb. pose proof (parent_lt j Hj) as Hp.
    apply lookup_lt_Some in Hb. rewrite length_app in Hb. cbn [length] in Hb. lia.
Qed.

Lemma heap_push_Ok x s : heap_inv s →
  ∃ b s', heap_push x s = Ok (b, s') ∧ heap_inv s' ∧
    if b : bool then m_vec s' ≡ₚ x :: m_vec s else s' = s ∧ ∃ y, y ∈ m_vec s ∧ key y = key x.
Proof.
  intros [I HO]. unfold heap_push. destruct (ras_find x s) as [i|] eqn:F.
  { exists false, s. split_and!; try done. apply ras_find_Some in F as (y & Hy & Hk); [|done].
    exists y. split; [|done]. by eapply list_elem_of_lookup_2. }
  destruct (ras_push_back_inv x s I F) as [I1 E1]. set (s1 := (ras_push_back x s).2) in *.
  assert (Hsz : ras_size s1 - 1 = length (m_vec s)) by (unfold ras_size; rewrite E1, length_app; cbn [length]; lia).
  rewrite Hsz. pose proof (heap_except_snoc _ x HO) as HE. rewrite <- E1 in HE.
  destruct (percolateUp_Ok (length (m_vec s)) s1 I1 ltac:(unfold ras_size; rewrite E1, length_app; cbn [length]; lia) HE)
    as (b & s2 & -> & I2 & P2 & Hb). cbn. exists true, s2. split; [done|].
  split; [|by rewrite P2, E1, Permutation_app_comm]. split; [done|]. destruct b; [done|].
  destruct Hb as [-> HU]. apply (heap_ok_intro _ (length (m_vec s))); [done| |done].
  intros j Hj Hpj a c _ Hc. pose proof (parent_lt j Hj). apply lookup_lt_Some in Hc.
  rewrite E1, length_app in Hc. cbn [length] in Hc. lia.
Qed.

(** Removing position [i] and putting the last element there breaks the order only
    around [i]. *)
Lemma heap_except_moved v v' i y : heap_ok v →
  (∀ n, n < length v' → v' !! n = if decide (n = i) then Some y else v !! n) → heap_except v' i.
Proof.
  intros HO HV. pose proof (heap_except_of v i HO) as HE.
  assert (HV' : ∀ n a, v' !! n = Some a → n ≠ i → v !! n = Some a).
  { intros n a Hn Hne. rewrite HV in Hn by (by eapply lookup_lt_Some). by rewrite decide_False in Hn. }
  split.
  - intros j Hj Hji Hpj a b Ha Hb. apply HV' in Ha; [|done]. apply HV' in Hb; [|done]. by apply (HO j Hj).
  - intros j Hi Hj Hpj a b Ha Hb. pose proof (parent_lt i Hi). pose proof (parent_lt j Hj).
    apply HV' in Ha; [|lia]. apply HV' in Hb; [|lia]. by apply (he_skip _ _ HE j).
Qed.

Lemma down_empty fuel i s : ras_size s = 0 → percolateDown (S fuel) i s = Ok (false, s).
Proof. intros E. cbn [percolateDown]. unfold in_and_larger. rewrite E. cbn. by rewrite Nat.eqb_refl. Qed.

Lemma heap_pop_Ok s x : heap_inv s → m_vec s !! 0 = Some x →
  ∃ s', heap_pop s = Ok (true, s') ∧ heap_inv s' ∧ m_vec s ≡ₚ x :: m_vec s' ∧
    ∀ y, y ∈ m_vec s → larger y x = false.
Proof.
  intros [I HO] Hx. unfold heap_pop, heap_empty. apply lookup_lt_Some in Hx as Hl.
  destruct (Nat.eqb_spec (ras_size s) 0) as [?|?]; [unfold ras_size in *; lia|].
  destruct (swap_pop 0 s x I Hx) as (s1 & y & -> & I1 & _ & P1 & S1 & V1). cbn [mbind outcome_bind].
  set (s2 := ras_pop_back s1) in *.
  assert (Hmax : ∀ z, z ∈ m_vec s → larger z x = false).
  { intros z [j Hj]%list_elem_of_lookup. by eapply heap_top_max. }
  assert (HE : heap_except (m_vec s2) 0).
  { apply (heap_except_moved (m_vec s) _ 0 y HO). intros m Hm. apply V1. unfold ras_size in *. lia. }
  destruct (decide (ras_size s2 = 0)) as [Hz|Hz].
  - rewrite down_empty by done. cbn. exists s2. split_and!; try done. split; [done|].
    intros j _ a b Ha. apply lookup_lt_Some in Ha. unfold ras_size in Hz. lia.
  - destruct (percolateDown_Ok (S (ras_size s2)) 0 s2 I1) as (b & s3 & -> & I3 & O3 & P3); try done; try lia.
    cbn. exists s3. split_and!; try done. by rewrite P1, P3.
Qed.

(** [erase] of an element that is not the last of the vector (or of the only one). *)
Lemma heap_erase_Ok v s i : heap_inv s → ras_find v s = Some i → i = 0 ∨ i < ras_size s - 1 →
  ∃ s' x, heap_erase v s = Ok (true, s') ∧ heap_inv s' ∧ key x = key v ∧ m_vec s ≡ₚ x :: m_vec s'.
Proof.
  intros [I HO] F Hi. unfold heap_erase. rewrite F. apply ras_find_Some in F as (x & Hx & Hk); [|done].
  destruct (swap_pop i s x I Hx) as (s1 & y & -> & I1 & _ & P1 & S1 & V1). cbn [mbind outcome_bind].
  set (s2 := ras_pop_back s1) in *.
  assert (HE : heap_except (m_vec s2) i).
  { apply (heap_except_moved (m_vec s) _ i y HO). intros n Hn. apply V1. unfold ras_size in *. lia. }
  destruct (decide (i < ras_size s2)) as [Hlt|Hge].
  - destruct (percolateUp_Ok i s2 I1 Hlt HE) as (b & s3 & -> & I3 & P3 & Hb). cbn [mbind outcome_bind].
    destruct b.
    + exists s3, x. split_and!; try done. by rewrite P1, P3.
    + destruct Hb as [-> HU].
      destruct (percolateDown_Ok (S (ras_size s2)) i s2 I1 Hlt ltac:(lia) HE HU) as (b & s4 & -> & I4 & O4 & P4).
      cbn. exists s4, x. split_and!; try done. by rewrite P1, P4.
  - assert (i = 0 ∧ ras_size s2 = 0) as [-> Hz] by lia.
    change (percolateUp 0 s2) with (Ok (false, s2)). cbn [mbind outcome_bind]. rewrite down_empty by done.
    cbn. exists s2, x. split_and!; try done. split; [done|].
    intros j _ a b Ha. apply lookup_lt_Some in Ha. unfold ras_size in Hz. lia.
Qed.

(** [erase] of the last element of a vector with at least two reads past the end. *)
Lemma heap_erase_last v s i : ras_inv s → ras_find v s = Some i → i = ras_size s - 1 → 0 < i →
  heap_erase v s = Fault UB.
Proof.
  intros I F Hi Hpos. unfold heap_erase. rewrite F. apply ras_find_Some in F as (x & Hx & Hk); [|done].
  destruct (swap_pop i s x I Hx) as (s1 & y & -> & I1 & _ & P1 & S1 & V1). cbn [mbind outcome_bind].
  unfold percolateUp. cbn [percolateUp_loop]. destruct (Nat.ltb_spec 0 i); [|lia].
  assert (E : is_larger i (parent i) (ras_pop_back s1) = Fault UB).
  { unfold is_larger, ras_get. rewrite (lookup_ge_None_2 _ i); [done|]. unfold ras_size in *. lia. }
  by rewrite E.
Qed.
End Containers.
