(* ===== verification/HeapProperties.v ===== *)
(** * Properties of the heap with deletion

    The theorems about common/cpp/src/include/p4p/detail/heap_with_delete.h and
    random_access_set.h, with their witnesses. *)
From S2P Require Import Prelude StdMap Heap.

Section HeapClaims.
Context {T K : Type} (key : T → K) (ltb : K → K → bool) (larger : T → T → bool).
Context `{!StrictTotal ltb} `{EqDecision K} `{!StrictWeak larger}.

(** Push the elements of a list; take the top and pop, [n] times. *)
Definition heap_pushes (xs : list T) (s : RandomAccessSet) : outcome RandomAccessSet :=
  ofold (λ x s, '(_, s') ← heap_push key ltb larger x s; mret s') xs s.
Fixpoint heap_drain (n : nat) (s : RandomAccessSet) : outcome (list T) :=
  match n with
  | 0 => mret []
  | S n =>
      x ← heap_top s;
      '(_, s') ← heap_pop key ltb larger s;
      rest ← heap_drain n s';
      mret (x :: rest)
  end.

Lemma heap_pushes_Ok xs : NoDup (key <$> xs) →
  ∃ s, heap_pushes xs ras_empty = Ok s ∧ heap_inv key ltb larger s ∧ m_vec s ≡ₚ xs.
Proof.
  intros HN. unfold heap_pushes.
  assert (H : ∀ xs s, NoDup (key <$> xs) → heap_inv key ltb larger s → (∀ x y, x ∈ xs → y ∈ m_vec s → key y ≠ key x) →
    ∃ s', ofold (λ x s, '(_, s') ← heap_push key ltb larger x s; mret s') xs s = Ok s' ∧
      heap_inv key ltb larger s' ∧ m_vec s' ≡ₚ xs ++ m_vec s).
  { clear xs HN. induction xs as [|x xs IH]; intros s HN I HD; [by exists s|]. cbn [ofold].
    apply NoDup_cons in HN as [Hx HN].
    destruct (heap_push_Ok key ltb larger x s I) as (b & s1 & -> & I1 & Hb). cbn.
    destruct b; [|destruct Hb as [_ (y & Hy & Hk)]; by destruct (HD x y ltac:(left) Hy)].
    destruct (IH s1 HN I1) as (s2 & E2 & I2 & P2).
    - intros z y Hz Hy. rewrite Hb in Hy. apply elem_of_cons in Hy as [->|Hy]; [|apply HD; [by right|done]].
      intros E. apply Hx. rewrite E. by apply list_elem_of_fmap_2.
    - exists s2. split_and!; [done..|]. rewrite P2, Hb. by rewrite Permutation_middle. }
  destruct (H xs ras_empty HN) as (s & E & I & P).
  - apply heap_empty_inv.
  - intros x y _ Hy. by apply elem_of_nil in Hy.
  - exists s. split_and!; [done..|]. by rewrite P, app_nil_r.
Qed.

Lemma heap_drain_Ok n : ∀ s, heap_inv key ltb larger s → length (m_vec s) = n →
  ∃ ys, heap_drain n s = Ok ys ∧ ys ≡ₚ m_vec s ∧ StronglySorted (λ a b, larger b a = false) ys.
Proof.
  induction n as [|n IH]; intros s I Hl.
  { exists []. apply length_zero_iff_nil in Hl as ->. split_and!; [done..|constructor]. }
  destruct (m_vec s !! 0) as [x|] eqn:Hx; [|apply lookup_ge_None in Hx; lia].
  destruct (heap_pop_Ok key ltb larger s x I Hx) as (s1 & E1 & I1 & P1 & Hmax).
  destruct (IH s1 I1) as (ys & E2 & P2 & S2).
  { pose proof (Permutation_length P1) as L. cbn in L. lia. }
  exists (x :: ys). cbn [heap_drain]. unfold heap_top, ras_get. rewrite Hx, E1. cbn. rewrite E2. cbn.
  split_and!; [done|by rewrite P2, P1|]. constructor; [done|]. apply Forall_forall. intros y Hy.
  apply Hmax. rewrite P1. right. by rewrite <- P2.
Qed.

(** C24. The heap is a priority queue: pushing elements with distinct keys and then taking
    the top and popping until the heap is empty returns exactly these elements, largest
    first. *)
Theorem heap_sorts (xs : list T) : NoDup (key <$> xs) →
  ∃ s ys, heap_pushes xs ras_empty = Ok s ∧ heap_drain (length xs) s = Ok ys ∧ ys ≡ₚ xs ∧
    StronglySorted (λ a b, larger b a = false) ys.
Proof.
  intros HN. destruct (heap_pushes_Ok xs HN) as (s & E1 & I & P).
  destruct (heap_drain_Ok (length xs) s I) as (ys & E2 & P2 & S2); [by rewrite P|].
  exists s, ys. split_and!; [done..|by rewrite P2|done].
Qed.

(** [erase] keeps the heap: erasing an element that is at the top or not at the last
    position removes exactly the element with that key and the result is again a heap
    whose index of positions is exact. *)
Theorem heap_erase_keeps_heap (v : T) (s : RandomAccessSet) (i : nat) :
  heap_inv key ltb larger s → ras_find key ltb v s = Some i → i = 0 ∨ i < ras_size s - 1 →
  ∃ s' x, heap_erase key ltb larger v s = Ok (true, s') ∧ heap_inv key ltb larger s' ∧
    key x = key v ∧ m_vec s ≡ₚ x :: m_vec s'.
Proof. apply heap_erase_Ok; done. Qed.

(** [erase] of the element at the last position of a heap with more than one element
    reads past the end of the vector: after the element has been popped, [percolateUp] is
    called with its position. *)
Theorem heap_erase_last_out_of_range (v : T) (s : RandomAccessSet) (i : nat) :
  heap_inv key ltb larger s → ras_find key ltb v s = Some i → i = ras_size s - 1 → 0 < i →
  heap_erase key ltb larger v s = Fault UB.
Proof. intros [I _]. by apply heap_erase_last. Qed.
End HeapClaims.

(** ** Witnesses: a heap of integers *)
#[global] Instance Z_larger : StrictWeak Z.gtb.
Proof.
  split; intros *; rewrite ?Z.gtb_ltb, ?Z.ltb_lt, ?Z.ltb_ge; try lia.
Qed.

Lemma heap_sorts_witness : ∃ s ys,
  heap_pushes id Z.ltb Z.gtb [3; 1; 4; 15; 9; 2; 6]%Z ras_empty = Ok s ∧
  heap_drain id Z.ltb Z.gtb 7 s = Ok ys ∧ ys ≡ₚ [3; 1; 4; 15; 9; 2; 6]%Z.
Proof.
  destruct (heap_sorts id Z.ltb Z.gtb [3; 1; 4; 15; 9; 2; 6]%Z) as (s & ys & H1 & H2 & H3 & _).
  - by apply (bool_decide_unpack (NoDup _)).
  - by exists s, ys.
Defined.

(** The heap with 3, 2 and 1. *)
Definition heap321 : RandomAccessSet := MkRAS [3; 2; 1]%Z [(1%Z, 2); (2%Z, 1); (3%Z, 0)].

Lemma heap321_inv : heap_inv id Z.ltb Z.gtb heap321.
Proof.
  destruct (heap_pushes_Ok id Z.ltb Z.gtb [3; 2; 1]%Z) as (s & E & I & _).
  - by apply (bool_decide_unpack (NoDup _)).
  - vm_compute in E. by injection E as <-.
Qed.

Lemma heap_erase_keeps_heap_witness : ∃ s',
  heap_erase id Z.ltb Z.gtb 2%Z heap321 = Ok (true, s') ∧ heap_inv id Z.ltb Z.gtb s'.
Proof.
  destruct (heap_erase_keeps_heap id Z.ltb Z.gtb 2%Z heap321 1 heap321_inv eq_refl ltac:(right; cbn; lia))
    as (s' & x & H1 & H2 & _). by exists s'.
Defined.

Lemma heap_erase_last_out_of_range_witness : heap_erase id Z.ltb Z.gtb 1%Z heap321 = Fault UB.
Proof.
  apply (heap_erase_last_out_of_range id Z.ltb Z.gtb 1%Z heap321 2 heap321_inv eq_refl eq_refl). lia.
Defined.
