(* ===== verification/PidMatrix.v ===== *)
(** * Matrices indexed by PIDs (common-server/src/include/p4pserver/pid_matrix.h)

    [PIDMatrixBase] keeps a square matrix of costs and the PIDs of its rows; a cost that
    is not set is NaN.  The two matrix types of the code, uBLAS's dense [matrix<VCost>]
    and [mapped_matrix<VCost>], have the same documented behaviour, an element that was
    not assigned reads as [VCost()], which is NaN, so one record stands for both; an
    index past the size is undefined behaviour.  The container of PIDs is the sequence
    of its random-access index; its ordered index refuses a PID that is there.  Doubles
    are the numbers of SpecFloat. *)
From S2P Require Import Prelude StdMap Double Pid Locking ServerObject.

(** [VCost()] *)
Definition VCost_new : double := S754_nan.

Record IndexedPID := MkIndexedPID { ip_pid : PID; index_ : nat }.

(** ** The matrix *)
Record matrix := MkMatrix { size1 : nat; size2 : nat; elements : gmap (nat * nat) double }.

(** [resize (n, n, false)] of a new matrix *)
Definition matrix_resized (n : nat) : matrix := MkMatrix n n ∅.

Definition elem (m : matrix) (i j : nat) : double := default VCost_new (elements m !! (i, j)).

(** [m (i, j)] *)
Definition at_ (m : matrix) (i j : nat) : outcome double :=
  if (i <? size1 m) && (j <? size2 m) then Ok (elem m i j) else Fault UB.

(** [m (i, j) = v] *)
Definition assign (i j : nat) (v : double) (m : matrix) : outcome matrix :=
  if (i <? size1 m) && (j <? size2 m) then Ok (MkMatrix (size1 m) (size2 m) (<[(i, j) := v]> (elements m)))
  else Fault UB.

(** ** The PIDs *)
Abbreviation PIDMatrixPIDs := (list IndexedPID).

Fixpoint find_pid (pid : PID) (l : PIDMatrixPIDs) : option IndexedPID :=
  match l with
  | [] => None
  | x :: l' => if PID_eqb (ip_pid x) pid then Some x else find_pid pid l'
  end.

Definition push_back (x : IndexedPID) (l : PIDMatrixPIDs) : PIDMatrixPIDs :=
  match find_pid (ip_pid x) l with Some _ => l | None => l ++ [x] end.

Definition pids_of (l : PIDMatrixPIDs) : list PID := ip_pid <$> l.

Record PIDMatrixData := MkPIDMatrix { pids_ : PIDMatrixPIDs; matrix_ : matrix }.

(** The constructor. *)
Definition PIDMatrix_empty : PIDMatrixData := MkPIDMatrix [] (MkMatrix 0 0 ∅).

(** The loop of [set_pids] that numbers the PIDs. *)
Definition index_pids (locs : list PID) : PIDMatrixPIDs :=
  fold_left (λ l pid, push_back (MkIndexedPID pid (length l)) l) locs [].

(** One cell of the loop of [set_pids] that copies the data. *)
Definition copy_cell (old : PIDMatrixData) (new_pids : PIDMatrixPIDs) (ij : nat * nat) (new_matrix : matrix)
  : outcome matrix :=
  let '(i, j) := ij in
  p ← at_ (matrix_ old) i j;
  if isnan p then mret new_matrix
  else
    pi ← from_option_or (Throw "out_of_range") (pids_ old !! i);
    match find_pid (ip_pid pi) new_pids with
    | None => mret new_matrix
    | Some new_i =>
        pj ← from_option_or (Throw "out_of_range") (pids_ old !! j);
        match find_pid (ip_pid pj) new_pids with
        | None => mret new_matrix
        | Some new_j => assign (index_ new_i) (index_ new_j) p new_matrix
        end
    end.

Definition set_pids_data (locs : list PID) (old : PIDMatrixData) : outcome PIDMatrixData :=
  let new_pids := index_pids locs in
  let n := size1 (matrix_ old) in
  new_matrix ← ofold (copy_cell old new_pids) (list_prod (seq 0 n) (seq 0 n)) (matrix_resized (length locs));
  mret (MkPIDMatrix new_pids new_matrix).

Section PIDMatrix.
Context {M : Type} `{SharedMutex M}.

Definition PIDMatrix : Type := Server M PIDMatrixData.
Definition PIDMatrix_new (v0 : Z) : PIDMatrix := MkServer (LocalObject_new v0) PIDMatrix_empty.

Definition set_pids (locs : list PID) : ST PIDMatrix unit :=
  old ← so_get; new ← st_lift (set_pids_data locs old); so_put new;; so_changed.

(** [set_pids (const PIDVector&)] *)
Definition set_pids_vector (locs : list PID) : ST PIDMatrix unit :=
  set_pids (set_inserts PID_ltb locs []).

Definition add_pid (pid : PID) : ST PIDMatrix bool :=
  d ← so_get;
  match find_pid pid (pids_ d) with
  | Some _ => mret false
  | None =>
      set_pids (set_insert PID_ltb pid (set_inserts PID_ltb (pids_of (pids_ d)) []));;
      mret true
  end.

(** [add_pids (const PIDSet&)]; the existing PIDs are read through the random-access
    index. *)
Definition add_pids (pids : list PID) : ST PIDMatrix unit :=
  d ← so_get;
  let new_pids := set_inserts PID_ltb (set_difference PID_ltb pids (pids_of (pids_ d))) [] in
  match new_pids with
  | [] => mret tt
  | _ => set_pids (set_inserts PID_ltb (set_union PID_ltb (pids_of (pids_ d)) new_pids) [])
  end.

Definition add_pids_vector (pids : list PID) : ST PIDMatrix unit :=
  add_pids (set_inserts PID_ltb pids []).

Definition remove_pid (pid : PID) : ST PIDMatrix bool :=
  d ← so_get;
  match find_pid pid (pids_ d) with
  | None => mret false
  | Some _ =>
      set_pids (set_erase PID_ltb pid (set_inserts PID_ltb (pids_of (pids_ d)) []));;
      mret true
  end.

Definition get (src dst : IndexedPID) (dflt : double) : ST PIDMatrix double :=
  d ← so_get;
  result ← st_lift (at_ (matrix_ d) (index_ src) (index_ dst));
  mret (if isnan result then dflt else result).

Definition get_by_pid (src dst : PID) (dflt : double) : ST PIDMatrix double :=
  d ← so_get;
  match find_pid src (pids_ d) with
  | None => mret dflt
  | Some src_i =>
      match find_pid dst (pids_ d) with
      | None => mret dflt
      | Some dst_i => get src_i dst_i dflt
      end
  end.

Definition set_ (src dst : IndexedPID) (value : double) : ST PIDMatrix unit :=
  d ← so_get;
  m ← st_lift (assign (index_ src) (index_ dst) value (matrix_ d));
  so_put (MkPIDMatrix (pids_ d) m);; so_changed.

Definition set_by_pid (src dst : PID) (value : double) : ST PIDMatrix bool :=
  d ← so_get;
  match find_pid src (pids_ d) with
  | None => mret false
  | Some src_i =>
      match find_pid dst (pids_ d) with
      | None => mret false
      | Some dst_i => set_ src_i dst_i value;; mret true
      end
  end.

Definition get_num_rows (s : PIDMatrix) : nat := size1 (matrix_ (so_data s)).
Definition get_num_cols (s : PIDMatrix) : nat := size2 (matrix_ (so_data s)).

(** [do_copy_properties] *)
Definition PIDMatrix_copy (v0 : Z) (s : PIDMatrix) : PIDMatrix :=
  MkServer (LocalObject_new v0) (MkPIDMatrix (pids_ (so_data s)) (matrix_ (so_data s))).
End PIDMatrix.

(** ** Well-formedness and the abstract matrix *)
Record matrix_ok (d : PIDMatrixData) : Prop := {
  mo_index i x : pids_ d !! i = Some x → index_ x = i;
  mo_sorted : set_sorted PID_ltb (pids_of (pids_ d));
  mo_size1 : size1 (matrix_ d) = length (pids_ d);
  mo_size2 : size2 (matrix_ d) = length (pids_ d)
}.

(** The cost between two PIDs: NaN when it is not set or one of them is not there. *)
Definition cost (d : PIDMatrixData) (a b : PID) : double :=
  match find_pid a (pids_ d), find_pid b (pids_ d) with
  | Some i, Some j => elem (matrix_ d) (index_ i) (index_ j)
  | _, _ => VCost_new
  end.

Lemma find_pid_Some a l x : find_pid a l = Some x → x ∈ l ∧ ip_pid x = a.
Proof.
  induction l as [|y l IH]; cbn; [done|]. destruct (PID_eqb (ip_pid y) a) eqn:E.
  - intros [= <-]. apply PID_eqb_eq in E. split; [left|done].
  - intros [H1 H2]%IH. split; [by right|done].
Qed.

Lemma find_pid_None a l : find_pid a l = None ↔ a ∉ pids_of l.
Proof.
  unfold pids_of. induction l as [|y l IH]; cbn; [set_solver|]. destruct (PID_eqb (ip_pid y) a) eqn:E.
  - apply PID_eqb_eq in E as <-. set_solver.
  - assert (ip_pid y ≠ a) by (intros X%PID_eqb_eq; congruence). rewrite IH. set_solver.
Qed.

(** In a numbered list a PID is found with its position. *)
Lemma find_pid_iff a l i : (∀ j x, l !! j = Some x → index_ x = j) → NoDup (pids_of l) →
  find_pid a l = Some (MkIndexedPID a i) ↔ l !! i = Some (MkIndexedPID a i).
Proof.
  intros HI HN. split.
  - intros [H1 _]%find_pid_Some. apply list_elem_of_lookup in H1 as [j Hj].
    pose proof (HI _ _ Hj) as E. cbn in E. by subst.
  - intros Hl. destruct (find_pid a l) as [x|] eqn:E.
    + pose proof (find_pid_Some _ _ _ E) as [[j Hj]%list_elem_of_lookup Hx].
      assert (j = i) as ->; [|congruence].
      apply (NoDup_lookup _ j i a HN); unfold pids_of; rewrite list_lookup_fmap; [by rewrite Hj; cbn; rewrite Hx|].
      by rewrite Hl.
    + apply find_pid_None in E. destruct E. unfold pids_of. apply list_elem_of_fmap.
      exists (MkIndexedPID a i). split; [done|]. by eapply list_elem_of_lookup_2.
Qed.

Lemma find_pid_shape a l x : (∀ j x, l !! j = Some x → index_ x = j) → find_pid a l = Some x →
  ∃ i, x = MkIndexedPID a i ∧ l !! i = Some x ∧ i < length l.
Proof.
  intros HI H. pose proof (find_pid_Some _ _ _ H) as [[j Hj]%list_elem_of_lookup Hx].
  pose proof (HI _ _ Hj). exists j. destruct x; cbn in *; subst. split_and!; [done..|].
  by eapply lookup_lt_Some.
Qed.

(** ** Numbering *)
Lemma index_pids_spec locs : NoDup locs →
  pids_of (index_pids locs) = locs ∧ length (index_pids locs) = length locs ∧
  ∀ i x, index_pids locs !! i = Some x → index_ x = i.
Proof.
  unfold index_pids. induction locs as [|a locs IH] using rev_ind; [done|]. intros HN.
  apply NoDup_app in HN as (H1 & H2 & _). destruct (IH H1) as (E1 & E2 & E3).
  rewrite fold_left_app. cbn [fold_left].
  set (l0 := fold_left _ locs []) in *. clearbody l0. unfold push_back. cbn [ip_pid].
  destruct (find_pid a _) as [y|] eqn:F.
  { destruct (find_pid_Some _ _ _ F) as [HY <-]. exfalso. eapply H2; [|left].
    rewrite <- E1. by apply list_elem_of_fmap_2. }
  split_and!.
  - unfold pids_of in *. rewrite fmap_app. cbn. by f_equal.
  - rewrite !length_app. cbn. lia.
  - intros i x. rewrite lookup_app_Some. intros [Hi|[Hle Hi]]; [by apply E3|].
    apply list_lookup_singleton_Some in Hi as [? <-]. cbn. lia.
Qed.

Lemma index_pids_find locs a : NoDup locs → find_pid a (index_pids locs) = None ↔ a ∉ locs.
Proof. intros HN. rewrite find_pid_None. by destruct (index_pids_spec locs HN) as (-> & _). Qed.

(** ** Copying the data *)
Section copy.
Context (old : PIDMatrixData) (locs : list PID) (HO : matrix_ok old) (HL : NoDup locs).
Let np := index_pids locs.

(** After the cells [cs] the new matrix has the costs of [cs]. *)
Definition copied (cs : list (nat * nat)) (m : matrix) : Prop :=
  size1 m = length locs ∧ size2 m = length locs ∧
  ∀ a b x y, find_pid a np = Some x → find_pid b np = Some y →
    elem m (index_ x) (index_ y) =
      match find_pid a (pids_ old), find_pid b (pids_ old) with
      | Some i, Some j => if decide ((index_ i, index_ j) ∈ cs) then elem (matrix_ old) (index_ i) (index_ j)
                          else VCost_new
      | _, _ => VCost_new
      end.

Lemma copied_nil : copied [] (matrix_resized (length locs)).
Proof.
  split_and!; [done..|]. intros a b x y _ _. unfold elem. cbn. rewrite lookup_empty. cbn.
  repeat (case_match; try done).
Qed.

Lemma np_index i x : np !! i = Some x → index_ x = i.
Proof. by apply (index_pids_spec locs HL). Qed.

Lemma np_lt a x : find_pid a np = Some x → index_ x < length locs.
Proof.
  intros (i & -> & _ & Hi)%(find_pid_shape _ _ _ np_index). cbn.
  destruct (index_pids_spec locs HL) as (_ & E & _). unfold np in Hi. lia.
Qed.

Lemma old_nodup : NoDup (pids_of (pids_ old)).
Proof. apply (set_sorted_nodup PID_ltb), (mo_sorted _ HO). Qed.

(** A cell that copies nothing. *)
Lemma copied_skip cs m i j pi pj :
  copied cs m → pids_ old !! i = Some pi → pids_ old !! j = Some pj →
  (isnan (elem (matrix_ old) i j) = true ∨ find_pid (ip_pid pi) np = None ∨ find_pid (ip_pid pj) np = None) →
  copied (cs ++ [(i, j)]) m.
Proof.
  intros (S1 & S2 & HC) Hi Hj Hs. split_and!; [done..|]. intros a b x y Hx Hy.
  rewrite (HC a b x y Hx Hy).
  destruct (find_pid a (pids_ old)) as [u|] eqn:Ea; [|done].
  destruct (find_pid b (pids_ old)) as [v|] eqn:Eb; [|done].
  destruct (find_pid_shape _ _ _ (mo_index _ HO) Ea) as (iu & -> & Hu & _).
  destruct (find_pid_shape _ _ _ (mo_index _ HO) Eb) as (iv & -> & Hv & _). cbn.
  destruct (decide ((iu, iv) = (i, j))) as [[= -> ->]|Hne].
  - rewrite Hi in Hu. rewrite Hj in Hv. injection Hu as ->. injection Hv as ->. cbn in Hs.
    rewrite (decide_True (P := _ ∈ _ ++ _)) by set_solver.
    destruct Hs as [Hs|[Hs|Hs]]; [|congruence..]. case_decide; [done|].
    destruct (elem (matrix_ old) i j) eqn:E; by cbn in Hs.
  - case_decide; [by rewrite decide_True by set_solver|]. by rewrite decide_False by set_solver.
Qed.

Lemma copied_assign cs m i j pi pj ni nj :
  copied cs m → pids_ old !! i = Some pi → pids_ old !! j = Some pj →
  find_pid (ip_pid pi) np = Some ni → find_pid (ip_pid pj) np = Some nj →
  ∃ m', assign (index_ ni) (index_ nj) (elem (matrix_ old) i j) m = Ok m' ∧ copied (cs ++ [(i, j)]) m'.
Proof.
  intros (S1 & S2 & HC) Hi Hj Fi Fj. unfold assign. rewrite S1, S2.
  pose proof (np_lt _ _ Fi) as Li. pose proof (np_lt _ _ Fj) as Lj.
  apply Nat.ltb_lt in Li, Lj. rewrite Li, Lj. cbn [andb]. eexists. split; [reflexivity|].
  split_and!; [done..|]. intros a b x y Hx Hy. unfold elem at 1. cbn [elements].
  assert (HF : ∀ c p k, pids_ old !! k = Some p → ip_pid p = c → find_pid c (pids_ old) = Some p).
  { intros c p k Hk <-. pose proof (mo_index _ HO _ _ Hk) as E. destruct p; cbn in *; subst.
    by apply find_pid_iff; [apply HO|apply old_nodup|]. }
  destruct (find_pid_shape _ _ _ np_index Hx) as (ix & -> & Nx & _).
  destruct (find_pid_shape _ _ _ np_index Hy) as (iy & -> & Ny & _).
  destruct (find_pid_shape _ _ _ np_index Fi) as (ii & -> & Ni & _).
  destruct (find_pid_shape _ _ _ np_index Fj) as (ij & -> & Nj & _). cbn [index_].
  destruct (decide ((ii, ij) = (ix, iy))) as [[= -> ->]|Hne].
  - rewrite lookup_insert_eq. cbn. rewrite Ni in Nx. rewrite Nj in Ny.
    injection Nx as <-. injection Ny as <-.
    rewrite (HF _ _ _ Hi eq_refl), (HF _ _ _ Hj eq_refl), (mo_index _ HO _ _ Hi), (mo_index _ HO _ _ Hj).
    by rewrite decide_True by set_solver.
  - rewrite lookup_insert_ne by done. fold (elem m ix iy). pose proof (HC a b _ _ Hx Hy) as HE.
    cbn [index_] in HE. rewrite HE.
    destruct (find_pid a (pids_ old)) as [u|] eqn:Ea; [|done].
    destruct (find_pid b (pids_ old)) as [v|] eqn:Eb; [|done].
    destruct (find_pid_shape _ _ _ (mo_index _ HO) Ea) as (iu & -> & Hu & _).
    destruct (find_pid_shape _ _ _ (mo_index _ HO) Eb) as (iv & -> & Hv & _). cbn [index_].
    assert ((iu, iv) ≠ (i, j)).
    { intros [= -> ->]. apply Hne. rewrite Hi in Hu. rewrite Hj in Hv.
      injection Hu as ->. injection Hv as ->. cbn in *. congruence. }
    destruct (decide ((iu, iv) ∈ cs)).
    + rewrite decide_True; [done|]. apply elem_of_app. by left.
    + rewrite decide_False; [done|]. rewrite elem_of_app, list_elem_of_singleton. tauto.
Qed.

Lemma copy_cell_spec cs i j m : i < length (pids_ old) → j < length (pids_ old) → copied cs m →
  ∃ m', copy_cell old np (i, j) m = Ok m' ∧ copied (cs ++ [(i, j)]) m'.
Proof.
  intros [pi Hi]%lookup_lt_is_Some [pj Hj]%lookup_lt_is_Some HC. unfold copy_cell, at_.
  rewrite (mo_size1 _ HO), (mo_size2 _ HO).
  pose proof (lookup_lt_Some _ _ _ Hi) as Li. pose proof (lookup_lt_Some _ _ _ Hj) as Lj.
  apply Nat.ltb_lt in Li, Lj. rewrite Li, Lj. cbn. destruct (isnan _) eqn:E.
  { eexists. split; [reflexivity|]. eapply copied_skip; eauto. }
  rewrite Hi. cbn. destruct (find_pid (ip_pid pi) np) eqn:Fi;
    [|eexists; split; [reflexivity|]; eapply copied_skip; eauto].
  rewrite Hj. cbn. destruct (find_pid (ip_pid pj) np) eqn:Fj;
    [|eexists; split; [reflexivity|]; eapply copied_skip; eauto].
  by eapply copied_assign.
Qed.

Lemma set_pids_data_spec : set_sorted PID_ltb locs →
  ∃ new, set_pids_data locs old = Ok new ∧ matrix_ok new ∧ pids_of (pids_ new) = locs ∧
    ∀ a b, cost new a b = if decide (a ∈ locs ∧ b ∈ locs) then cost old a b else VCost_new.
Proof.
  intros HS. unfold set_pids_data. fold np. rewrite (mo_size1 _ HO). set (n := length (pids_ old)).
  destruct (ofold_inv copied (copy_cell old np) (list_prod (seq 0 n) (seq 0 n)) (matrix_resized (length locs)))
    as (m & Hm & S1 & S2 & HC).
  { apply copied_nil. }
  { intros cs [i j] m HC Hin. apply copy_cell_spec; [..|done];
      apply list_elem_of_In, in_prod_iff in Hin as [H1%in_seq H2%in_seq]; lia. }
  rewrite Hm. cbn. destruct (index_pids_spec locs HL) as (E1 & E2 & E3). eexists. split; [reflexivity|].
  split_and!; [split; cbn [pids_ matrix_]; [done|by unfold np; rewrite E1|unfold np; lia..]|done|].
  intros a b. unfold cost. cbn [pids_ matrix_].
  destruct (find_pid a np) as [x|] eqn:Fa.
  2: { rewrite decide_False; [done|]. apply (index_pids_find _ _ HL) in Fa. tauto. }
  destruct (find_pid b np) as [y|] eqn:Fb.
  2: { rewrite decide_False; [done|]. apply (index_pids_find _ _ HL) in Fb. tauto. }
  rewrite decide_True.
  2: { split; apply dec_stable; intros X; apply (index_pids_find _ _ HL) in X; unfold np in *; congruence. }
  rewrite (HC a b x y Fa Fb). destruct (find_pid a (pids_ old)) as [u|] eqn:Ea; [|done].
  destruct (find_pid b (pids_ old)) as [v|] eqn:Eb; [|done]. rewrite decide_True; [done|].
  destruct (find_pid_shape _ _ _ (mo_index _ HO) Ea) as (iu & -> & _ & Hu).
  destruct (find_pid_shape _ _ _ (mo_index _ HO) Eb) as (iv & -> & _ & Hv).
  apply list_elem_of_In, in_prod_iff. rewrite !in_seq. cbn. lia.
Qed.
End copy.

(** ** The operations *)
Section ops.
Context {M : Type} `{SharedMutex M}.
Implicit Types s : PIDMatrix (M := M).

(** The object is under a write lock and well-formed. *)
Definition matrix_locked s : Prop := matrix_ok (so_data s) ∧ writing_ (so_object s) = true.

(** [s'] has the PIDs [P] and keeps the costs between them; a change was reported. *)
Definition resized s (P : list PID) s' : Prop :=
  matrix_locked s' ∧ bumped true (so_object s) (so_object s') ∧
  pids_of (pids_ (so_data s')) = P ∧
  ∀ a b, cost (so_data s') a b = if decide (a ∈ P ∧ b ∈ P) then cost (so_data s) a b else VCost_new.

Lemma set_pids_Ok s locs : matrix_locked s → set_sorted PID_ltb locs →
  ∃ s', set_pids locs s = Ok (tt, s') ∧ resized s locs s'.
Proof.
  intros [HO Hw] HS.
  destruct (set_pids_data_spec _ locs HO (set_sorted_nodup _ _ HS) HS) as (new & H1 & H2 & H3 & H4).
  unfold set_pids. rewrite st_bind_eq. cbn [so_get]. rewrite st_lift_bind, H1.
  rewrite st_bind_eq. cbn [so_put].
  destruct (so_changed_Ok (MkServer (so_object s) new) Hw) as (o & -> & Hb).
  eexists. split; [reflexivity|]. split_and!; [split; [done|]|done..].
  cbn. by rewrite (bumped_writing _ _ _ Hb).
Qed.

Lemma cost_outside d a b : ¬ (a ∈ pids_of (pids_ d) ∧ b ∈ pids_of (pids_ d)) → cost d a b = VCost_new.
Proof.
  intros Hn. unfold cost. destruct (find_pid a _) eqn:Ea; [|done].
  destruct (find_pid b _) eqn:Eb; [|done]. destruct Hn.
  split; apply dec_stable; rewrite <- find_pid_None; congruence.
Qed.

(** Widening the set of PIDs keeps every cost. *)
Lemma resized_widen s P s' : resized s P s' → (∀ x, x ∈ pids_of (pids_ (so_data s)) → x ∈ P) →
  ∀ a b, cost (so_data s') a b = cost (so_data s) a b.
Proof.
  intros (_ & _ & _ & HC) HP a b. rewrite HC. case_decide; [done|]. symmetry.
  apply cost_outside. naive_solver.
Qed.

Lemma set_inserts_self P : set_sorted PID_ltb P → set_inserts PID_ltb P [] = P.
Proof.
  intros HS. apply (set_sorted_ext PID_ltb); [|done|].
  - apply (set_inserts_sorted PID_ltb). constructor.
  - intros x. rewrite (set_inserts_elem PID_ltb). set_solver.
Qed.

Lemma add_pid_Ok s pid : matrix_locked s →
  let P := pids_of (pids_ (so_data s)) in
  if decide (pid ∈ P) then add_pid pid s = Ok (false, s)
  else ∃ s', add_pid pid s = Ok (true, s') ∧ resized s (set_insert PID_ltb pid P) s'.
Proof.
  intros HL P. unfold add_pid. rewrite st_bind_eq. cbn [so_get].
  pose proof (mo_sorted _ (proj1 HL)) as HS. fold P in HS.
  destruct (find_pid pid _) eqn:E.
  - rewrite decide_True; [done|]. apply dec_stable. unfold P. rewrite <- find_pid_None. congruence.
  - rewrite decide_False by (by apply find_pid_None). fold P. rewrite set_inserts_self by done.
    destruct (set_pids_Ok s _ HL (set_insert_sorted PID_ltb pid P HS)) as (s' & H1 & H2).
    rewrite (st_bind_Ok _ _ _ _ _ H1). eauto.
Qed.

Lemma remove_pid_Ok s pid : matrix_locked s →
  let P := pids_of (pids_ (so_data s)) in
  if decide (pid ∈ P) then ∃ s', remove_pid pid s = Ok (true, s') ∧ resized s (set_erase PID_ltb pid P) s'
  else remove_pid pid s = Ok (false, s).
Proof.
  intros HL P. unfold remove_pid. rewrite st_bind_eq. cbn [so_get].
  pose proof (mo_sorted _ (proj1 HL)) as HS. fold P in HS.
  destruct (find_pid pid _) eqn:E.
  - rewrite decide_True by (apply dec_stable; unfold P; rewrite <- find_pid_None; congruence).
    fold P. rewrite set_inserts_self by done.
    destruct (set_pids_Ok s _ HL (set_erase_sorted PID_ltb pid P HS)) as (s' & H1 & H2).
    rewrite (st_bind_Ok _ _ _ _ _ H1). eauto.
  - by rewrite decide_False by (by apply find_pid_None).
Qed.

(** The merge loops of [add_pids] add what is missing. *)
Lemma add_pids_Ok s pids : matrix_locked s → set_sorted PID_ltb pids →
  let P := pids_of (pids_ (so_data s)) in
  if decide (Forall (λ x, x ∈ P) pids) then add_pids pids s = Ok (tt, s)
  else ∃ s', add_pids pids s = Ok (tt, s') ∧ resized s (set_inserts PID_ltb pids P) s'.
Proof.
  intros HL HP P. unfold add_pids. rewrite st_bind_eq. cbn [so_get]. fold P.
  pose proof (mo_sorted _ (proj1 HL)) as HS. fold P in HS.
  set (new := set_inserts PID_ltb (set_difference PID_ltb pids P) []).
  assert (HN : ∀ x, x ∈ new ↔ x ∈ pids ∧ x ∉ P).
  { intros x. unfold new. rewrite (set_inserts_elem PID_ltb), (set_difference_elem PID_ltb) by done. set_solver. }
  destruct new as [|n new'] eqn:En.
  - rewrite decide_True; [done|]. apply Forall_forall. intros x Hx. apply dec_stable. intros Hn.
    by apply (not_elem_of_nil x), HN.
  - rewrite decide_False by (rewrite Forall_forall; intros X; destruct (HN n) as [[H1 H2] _]; [left|]; auto).
    replace (set_inserts PID_ltb (set_union PID_ltb P (n :: new')) []) with (set_inserts PID_ltb pids P).
    { apply set_pids_Ok; [done|]. by apply (set_inserts_sorted PID_ltb). }
    apply (set_sorted_ext PID_ltb); [by apply (set_inserts_sorted PID_ltb)|
      apply (set_inserts_sorted PID_ltb); constructor|].
    intros x. rewrite !(set_inserts_elem PID_ltb), (set_union_elem PID_ltb), HN, elem_of_nil.
    destruct (decide (x ∈ P)); tauto.
Qed.

Lemma get_by_pid_Ok s a b dflt : matrix_ok (so_data s) →
  get_by_pid a b dflt s = Ok (if isnan (cost (so_data s) a b) then dflt else cost (so_data s) a b, s).
Proof.
  intros HO. unfold get_by_pid. rewrite st_bind_eq. cbn [so_get]. unfold cost.
  destruct (find_pid a _) as [x|] eqn:Ea; [|done]. destruct (find_pid b _) as [y|] eqn:Eb; [|done].
  destruct (find_pid_shape _ _ _ (mo_index _ HO) Ea) as (i & -> & _ & Hi).
  destruct (find_pid_shape _ _ _ (mo_index _ HO) Eb) as (j & -> & _ & Hj).
  unfold get. rewrite st_bind_eq. cbn [so_get]. rewrite st_lift_bind. unfold at_. cbn [index_].
  rewrite (mo_size1 _ HO), (mo_size2 _ HO). apply Nat.ltb_lt in Hi, Hj. rewrite Hi, Hj. done.
Qed.

Lemma set_by_pid_Ok s a b v : matrix_locked s →
  let P := pids_of (pids_ (so_data s)) in
  if decide (a ∈ P ∧ b ∈ P) then
    ∃ s', set_by_pid a b v s = Ok (true, s') ∧ matrix_locked s' ∧ bumped true (so_object s) (so_object s') ∧
      pids_of (pids_ (so_data s')) = P ∧
      ∀ x y, cost (so_data s') x y = if decide (x = a ∧ y = b) then v else cost (so_data s) x y
  else set_by_pid a b v s = Ok (false, s).
Proof.
  intros [HO Hw] P. unfold set_by_pid. rewrite st_bind_eq. cbn [so_get].
  destruct (find_pid a _) as [x|] eqn:Ea.
  2: { apply find_pid_None in Ea. by rewrite decide_False by naive_solver. }
  destruct (find_pid b _) as [y|] eqn:Eb.
  2: { apply find_pid_None in Eb. by rewrite decide_False by naive_solver. }
  rewrite decide_True by (split; apply dec_stable; unfold P; rewrite <- find_pid_None; congruence).
  destruct (find_pid_shape _ _ _ (mo_index _ HO) Ea) as (i & -> & Li & Hi).
  destruct (find_pid_shape _ _ _ (mo_index _ HO) Eb) as (j & -> & Lj & Hj).
  rewrite st_bind_eq. unfold set_. rewrite st_bind_eq. cbn [so_get]. rewrite st_lift_bind.
  unfold assign. cbn [index_].
  rewrite (mo_size1 _ HO), (mo_size2 _ HO). apply Nat.ltb_lt in Hi, Hj. rewrite Hi, Hj. cbn [andb].
  rewrite st_bind_eq. cbn [so_put].
  match goal with |- context [so_changed ?s0] => destruct (so_changed_Ok s0 Hw) as (o & -> & Hb) end.
  eexists. split; [reflexivity|]. split_and!; [|done..|].
  { split; [|cbn; by rewrite (bumped_writing _ _ _ Hb)]. split; cbn; first [done|apply HO]. }
  intros u w. cbn [so_data]. unfold cost. cbn [pids_ matrix_].
  destruct (find_pid u _) as [iu|] eqn:Eu; [|rewrite decide_False; [done|intros [-> _]; congruence]].
  destruct (find_pid w _) as [iw|] eqn:Ew; [|rewrite decide_False; [done|intros [_ ->]; congruence]].
  destruct (find_pid_shape _ _ _ (mo_index _ HO) Eu) as (ku & -> & Lu & _).
  destruct (find_pid_shape _ _ _ (mo_index _ HO) Ew) as (kw & -> & Lw & _).
  unfold elem. cbn [elements index_]. rewrite lookup_insert. case_decide as E1; case_decide as E2; try done.
  - injection E1 as -> ->. destruct E2. split; congruence.
  - destruct E2 as [-> ->]. destruct E1. congruence.
Qed.
End ops.
