(* ===== verification/PidAggregation.v ===== *)
(** * PID aggregation (common-server/src/lib/pid_aggregation.cpp,
    include/p4pserver/pid_aggregation.h)

    [PIDAggregation] names the PIDs of a view, records the network vertices that each
    PID stands for and names links between PIDs.  The Boost multi-index containers are
    modelled by the list of their records in the order of insertion, which is the order
    in which an index that is not unique keeps equal keys; insertion into a container
    with unique indices is refused when one of the keys is there. *)
From S2P Require Import Prelude StdMap IpAddr Pid Locking ServerObject.

Definition NetVertexName := text.
(** [std::set<NetVertexName>] *)
Definition NetVertexNameSet : Type := list NetVertexName.
Definition PIDLinkName := text.

Record PIDRecord := MkPIDRecord { pr_name : text; pr_pid : PID; pr_vertices : NetVertexNameSet }.
Record LinkRecord := MkLinkRecord { lr_name : PIDLinkName; lr_src : PID; lr_dst : PID }.

Record AggregationData := MkAggregation { pid_records_ : list PIDRecord; link_records_ : list LinkRecord }.

(** ** The indices *)
Definition by_pid (pid : PID) (l : list PIDRecord) : option PIDRecord :=
  snd <$> list_find (λ r, pr_pid r = pid) l.
Definition by_name (name : text) (l : list PIDRecord) : option PIDRecord :=
  snd <$> list_find (λ r, pr_name r = name) l.
Definition link_by_name (name : PIDLinkName) (l : list LinkRecord) : option LinkRecord :=
  snd <$> list_find (λ r, lr_name r = name) l.

(** [pid_records_.insert] and [link_records_.insert] *)
Definition insert_record (r : PIDRecord) (l : list PIDRecord) : list PIDRecord :=
  match by_name (pr_name r) l, by_pid (pr_pid r) l with
  | None, None => l ++ [r]
  | _, _ => l
  end.
Definition insert_link (r : LinkRecord) (l : list LinkRecord) : list LinkRecord :=
  match link_by_name (lr_name r) l with None => l ++ [r] | Some _ => l end.

Definition erase_pid (pid : PID) (l : list PIDRecord) : list PIDRecord := filter (λ r, pr_pid r ≠ pid) l.
Definition erase_src (pid : PID) (l : list LinkRecord) : list LinkRecord := filter (λ r, lr_src r ≠ pid) l.
Definition erase_dst (pid : PID) (l : list LinkRecord) : list LinkRecord := filter (λ r, lr_dst r ≠ pid) l.
Definition erase_link (name : PIDLinkName) (l : list LinkRecord) : list LinkRecord :=
  filter (λ r, lr_name r ≠ name) l.

Section PIDAggregation.
Context {M : Type} `{SharedMutex M}.

Definition PIDAggregation : Type := Server M AggregationData.
Abbreviation A := (ST PIDAggregation).

Definition PIDAggregation_new (v0 : Z) : PIDAggregation := MkServer (LocalObject_new v0) (MkAggregation [] []).

Definition has_pid (pid : PID) : A bool :=
  d ← so_get; mret (match by_pid pid (pid_records_ d) with Some _ => true | None => false end).
Definition has_name (name : text) : A bool :=
  d ← so_get; mret (match by_name name (pid_records_ d) with Some _ => true | None => false end).

(** [lookup]: the PID of a name, or [PID::INVALID]. *)
Definition agg_lookup (name : text) : A PID :=
  d ← so_get; mret (match by_name name (pid_records_ d) with Some r => pr_pid r | None => PID_INVALID end).

Definition reverse_lookup (pid : PID) : A (option text) :=
  d ← so_get; mret (pr_name <$> by_pid pid (pid_records_ d)).

Definition agg_add (name : text) (pid : PID) (vertices : NetVertexNameSet) : A bool :=
  b ← has_pid pid;
  if b : bool then mret false
  else
    b ← has_name name;
    if b : bool then mret false
    else
      d ← so_get;
      so_put (MkAggregation (insert_record (MkPIDRecord name pid vertices) (pid_records_ d)) (link_records_ d));;
      so_changed;;
      mret true.

Definition agg_remove (pid : PID) : A bool :=
  d ← so_get;
  match by_pid pid (pid_records_ d) with
  | None => mret false
  | Some _ =>
      so_put (MkAggregation (erase_pid pid (pid_records_ d))
                (erase_dst pid (erase_src pid (link_records_ d))));;
      so_changed;;
      mret true
  end.

Definition get_vertices (pid : PID) : A (option NetVertexNameSet) :=
  d ← so_get; mret (pr_vertices <$> by_pid pid (pid_records_ d)).

(** The common shape of the four updates of the vertices of a PID: the record is
    replaced by one with the vertices [f]. *)
Definition update_vertices (f : NetVertexNameSet → NetVertexNameSet) (pid : PID) : A bool :=
  d ← so_get;
  match by_pid pid (pid_records_ d) with
  | None => mret false
  | Some itr =>
      let r := MkPIDRecord (pr_name itr) (pr_pid itr) (f (pr_vertices itr)) in
      so_put (MkAggregation (insert_record r (erase_pid pid (pid_records_ d))) (link_records_ d));;
      so_changed;;
      mret true
  end.

Definition set_vertices (pid : PID) (vertices : NetVertexNameSet) : A bool :=
  update_vertices (λ _, vertices) pid.
Definition add_vertices (pid : PID) (vertices : NetVertexNameSet) : A bool :=
  update_vertices (λ vs, set_inserts text_ltb vertices vs) pid.
Definition remove_vertices (pid : PID) (vertices : NetVertexNameSet) : A bool :=
  update_vertices (λ vs, fold_left (λ vs v, set_erase text_ltb v vs) vertices vs) pid.
Definition clear_vertices (pid : PID) : A bool := update_vertices (λ _, []) pid.

Definition define_link (name : PIDLinkName) (src dst : PID) : A bool :=
  d ← so_get;
  match link_by_name name (link_records_ d) with
  | Some _ => mret false
  | None =>
      so_put (MkAggregation (pid_records_ d) (insert_link (MkLinkRecord name src dst) (link_records_ d)));;
      so_changed;;
      mret true
  end.

Definition undefine_link (name : PIDLinkName) : A bool :=
  d ← so_get;
  match link_by_name name (link_records_ d) with
  | None => mret false
  | Some _ =>
      so_put (MkAggregation (pid_records_ d) (erase_link name (link_records_ d)));;
      so_changed;;
      mret true
  end.

(** The three [get_link]s: by name with PIDs, by name with the names of the PIDs, and by
    the end points (the first in the range of the source). *)
Definition get_link (name : PIDLinkName) : A (option (PID * PID)) :=
  d ← so_get; mret ((λ r, (lr_src r, lr_dst r)) <$> link_by_name name (link_records_ d)).

Definition get_link_names (name : PIDLinkName) : A (option (text * text)) :=
  l ← get_link name;
  match l with
  | None => mret None
  | Some (src_pid, dst_pid) =>
      s ← reverse_lookup src_pid;
      match s with
      | None => mret None
      | Some src =>
          d ← reverse_lookup dst_pid;
          match d with None => mret None | Some dst => mret (Some (src, dst)) end
      end
  end.

Definition get_link_between (src dst : PID) : A (option PIDLinkName) :=
  d ← so_get;
  mret ((λ r : nat * LinkRecord, lr_name (snd r)) <$>
    list_find (λ r, lr_dst r = dst) (filter (λ r, lr_src r = src) (link_records_ d))).

(** [do_copy_properties]: the PIDs only. *)
Definition PIDAggregation_copy (v0 : Z) (s : PIDAggregation) : PIDAggregation :=
  MkServer (LocalObject_new v0) (MkAggregation (pid_records_ (so_data s)) []).

(** ** Invariant: names and PIDs are unique, link names are unique *)
Record agg_ok (d : AggregationData) : Prop := {
  ao_names : NoDup (pr_name <$> pid_records_ d);
  ao_pids : NoDup (pr_pid <$> pid_records_ d);
  ao_links : NoDup (lr_name <$> link_records_ d)
}.
Definition agg_locked (s : PIDAggregation) : Prop := agg_ok (so_data s) ∧ writing_ (so_object s) = true.

Section find.
Context {R K : Type} `{EqDecision K} (key : R → K).

Lemma record_key_Some k r l : snd <$> list_find (λ r, key r = k) l = Some r → r ∈ l ∧ key r = k.
Proof.
  intros ([i r'] & F & ->)%fmap_Some. apply list_find_Some in F as (F1 & F2 & _).
  split; [by eapply list_elem_of_lookup_2|done].
Qed.
Lemma record_key_None k l : snd <$> list_find (λ r, key r = k) l = None ↔ k ∉ key <$> l.
Proof.
  rewrite fmap_None, list_find_None, Forall_forall, list_elem_of_fmap. naive_solver.
Qed.
Lemma find_key_elem k l r : NoDup (key <$> l) → r ∈ l → key r = k →
  snd <$> list_find (λ r, key r = k) l = Some r.
Proof.
  intros HN Hr <-. destruct (snd <$> list_find (λ r0, key r0 = key r) l) as [r'|] eqn:E.
  - apply record_key_Some in E as [H1 H2]. f_equal.
    apply list_elem_of_lookup in H1 as [i Hi]. apply list_elem_of_lookup in Hr as [j Hj].
    assert (i = j) as ->; [|congruence]. apply (NoDup_lookup _ i j (key r) HN).
    + by rewrite list_lookup_fmap, Hi; cbn; rewrite H2.
    + by rewrite list_lookup_fmap, Hj.
  - apply record_key_None in E. destruct E. by apply list_elem_of_fmap_2.
Qed.
Lemma nodup_filter_key (P : R → Prop) `{∀ x, Decision (P x)} l : NoDup (key <$> l) → NoDup (key <$> filter P l).
Proof. intros HN. eapply sublist_NoDup; [exact HN|]. apply fmap_sublist, sublist_filter. Qed.
Lemma nodup_snoc_key l r : NoDup (key <$> l) → key r ∉ key <$> l → NoDup (key <$> l ++ [r]).
Proof.
  intros HN Hn. rewrite fmap_app. apply NoDup_app. split_and!; [done| |apply NoDup_singleton].
  set_solver.
Qed.
End find.

Lemma find_filter_ne {R K} `{EqDecision K} (key : R → K) (k k' : K) l : k ≠ k' →
  snd <$> list_find (λ r, key r = k) (filter (λ r, key r ≠ k') l) = snd <$> list_find (λ r, key r = k) l.
Proof.
  intros Hne. induction l as [|r l IH]; [done|]. rewrite filter_cons. cbn [list_find].
  destruct (decide (key r = k')) as [E|E].
  - rewrite decide_False by tauto. rewrite decide_False by congruence. rewrite IH.
    by destruct (list_find _ l) as [[]|].
  - rewrite decide_True by done. cbn [list_find]. destruct (decide (key r = k)); [done|].
    destruct (list_find _ (filter _ l)) as [[]|], (list_find _ l) as [[]|]; cbn in *; congruence.
Qed.

Lemma find_snoc {R K} `{EqDecision K} (key : R → K) (k : K) l r :
  snd <$> list_find (λ r, key r = k) (l ++ [r]) =
    match snd <$> list_find (λ r, key r = k) l with
    | Some x => Some x
    | None => if decide (key r = k) then Some r else None
    end.
Proof.
  induction l as [|x l IH]; cbn [app list_find]; [by destruct (decide (key r = k))|].
  destruct (decide (key x = k)); [done|].
  destruct (list_find _ (l ++ [r])) as [[]|], (list_find _ l) as [[]|]; cbn in *; try congruence.
Qed.

Implicit Types s : PIDAggregation.

(** Storing new records under the write lock. *)
Lemma store_Ok s d' (b : bool) : writing_ (so_object s) = true →
  ∃ s', (so_put d';; so_changed;; mret b) s = Ok (b, s') ∧ so_data s' = d' ∧
    writing_ (so_object s') = true ∧ bumped true (so_object s) (so_object s').
Proof.
  intros Hw. rewrite st_bind_eq. cbn [so_put].
  destruct (so_changed_Ok (MkServer (so_object s) d') Hw) as (o & H1 & H2).
  rewrite (st_bind_Ok _ _ _ _ _ H1). eexists. split; [reflexivity|]. split_and!; [done| |done].
  cbn. by rewrite (bumped_writing _ _ _ H2).
Qed.

Lemma agg_add_Ok s name pid vs : agg_locked s →
  let R := pid_records_ (so_data s) in
  if decide (name ∈ pr_name <$> R ∨ pid ∈ pr_pid <$> R) then agg_add name pid vs s = Ok (false, s)
  else ∃ s', agg_add name pid vs s = Ok (true, s') ∧ agg_locked s' ∧
    pid_records_ (so_data s') = R ++ [MkPIDRecord name pid vs] ∧
    link_records_ (so_data s') = link_records_ (so_data s) ∧ bumped true (so_object s) (so_object s').
Proof.
  intros [[H1 H2 H3] Hw] R. unfold agg_add, has_pid, has_name, so_get. rewrite !st_bind_eq.
  destruct (by_pid pid R) eqn:Ep; unfold R in Ep; rewrite Ep.
  { apply (record_key_Some pr_pid) in Ep as [Hp <-]. rewrite decide_True; [done|].
    right. by apply list_elem_of_fmap_2. }
  apply (record_key_None pr_pid) in Ep as Np. cbn [mret st_ret]. rewrite !st_bind_eq.
  destruct (by_name name R) eqn:En; unfold R in En; rewrite En.
  { apply (record_key_Some pr_name) in En as [Hp <-]. rewrite decide_True; [done|].
    left. by apply list_elem_of_fmap_2. }
  apply (record_key_None pr_name) in En as Nn. cbn [mret st_ret].
  rewrite decide_False by (unfold R; tauto).
  rewrite st_bind_eq. unfold insert_record. cbn [pr_name pr_pid]. rewrite En, Ep.
  match goal with |- context [so_put ?d] => destruct (store_Ok s d true Hw) as (s' & E & Hd & Hw' & Hb) end.
  exists s'. split; [exact E|]. split_and!; [|by rewrite Hd..|done]. split; [|done].
  rewrite Hd. split; cbn; [by apply nodup_snoc_key..|done].
Qed.

Lemma agg_remove_Ok s pid : agg_locked s →
  let R := pid_records_ (so_data s) in
  if decide (pid ∈ pr_pid <$> R) then
    ∃ s', agg_remove pid s = Ok (true, s') ∧ agg_locked s' ∧
      pid_records_ (so_data s') = filter (λ r, pr_pid r ≠ pid) R ∧
      link_records_ (so_data s') = filter (λ r, lr_dst r ≠ pid) (filter (λ r, lr_src r ≠ pid) (link_records_ (so_data s))) ∧
      bumped true (so_object s) (so_object s')
  else agg_remove pid s = Ok (false, s).
Proof.
  intros [[H1 H2 H3] Hw] R. unfold agg_remove, so_get. rewrite st_bind_eq.
  destruct (by_pid pid (pid_records_ (so_data s))) as [r|] eqn:Ep.
  2: { apply (record_key_None pr_pid) in Ep. by rewrite decide_False. }
  apply (record_key_Some pr_pid) in Ep as [Hp <-]. rewrite decide_True by (by apply list_elem_of_fmap_2).
  match goal with |- context [so_put ?d] => destruct (store_Ok s d true Hw) as (s' & E & Hd & Hw' & Hb) end.
  exists s'. split; [exact E|]. split_and!; [|by rewrite Hd..|done]. split; [|done].
  rewrite Hd. split; cbn; [by apply nodup_filter_key..|]. by do 2 apply nodup_filter_key.
Qed.

(** Replacing the vertices of a PID. *)
Lemma update_vertices_Ok s f pid : agg_locked s →
  match by_pid pid (pid_records_ (so_data s)) with
  | Some r =>
      ∃ s', update_vertices f pid s = Ok (true, s') ∧ agg_locked s' ∧
        link_records_ (so_data s') = link_records_ (so_data s) ∧ bumped true (so_object s) (so_object s') ∧
        by_pid pid (pid_records_ (so_data s')) = Some (MkPIDRecord (pr_name r) pid (f (pr_vertices r))) ∧
        ∀ pid', pid' ≠ pid → by_pid pid' (pid_records_ (so_data s')) = by_pid pid' (pid_records_ (so_data s))
  | None => update_vertices f pid s = Ok (false, s)
  end.
Proof.
  intros [[H1 H2 H3] Hw]. unfold update_vertices, so_get. rewrite st_bind_eq.
  destruct (by_pid pid (pid_records_ (so_data s))) as [r|] eqn:Ep; [|done].
  pose proof (record_key_Some pr_pid _ _ _ Ep) as [Hp <-]. unfold insert_record. cbn [pr_name pr_pid].
  set (R' := erase_pid (pr_pid r) (pid_records_ (so_data s))).
  assert (Np : pr_pid r ∉ pr_pid <$> R').
  { intros (x & Hx & Hin)%list_elem_of_fmap. unfold R', erase_pid in Hin.
    apply list_elem_of_filter in Hin as [? _]. congruence. }
  assert (Nn : pr_name r ∉ pr_name <$> R').
  { intros (x & Hx & Hin)%list_elem_of_fmap. unfold R', erase_pid in Hin.
    apply list_elem_of_filter in Hin as [Hne Hin].
    pose proof (find_key_elem pr_name _ _ _ H1 Hin (eq_sym Hx)) as F1.
    rewrite (find_key_elem pr_name _ _ _ H1 Hp eq_refl) in F1. congruence. }
  pose proof (proj2 (record_key_None pr_pid _ R') Np) as Fp.
  pose proof (proj2 (record_key_None pr_name _ R') Nn) as Fn.
  fold (by_name (pr_name r) R') in Fn. fold (by_pid (pr_pid r) R') in Fp. rewrite Fn, Fp.
  match goal with |- context [so_put ?d] => destruct (store_Ok s d true Hw) as (s' & E & Hd & Hw' & Hb) end.
  exists s'. split; [exact E|]. split_and!; [|by rewrite Hd|done|..].
  - split; [|done]. rewrite Hd. split; cbn; [..|done]; apply nodup_snoc_key; try done; by apply nodup_filter_key.
  - rewrite Hd. cbn. unfold by_pid. rewrite find_snoc. fold (by_pid (pr_pid r) R'). rewrite Fp. cbn.
    by rewrite decide_True.
  - intros pid' Hne. rewrite Hd. cbn. unfold by_pid. rewrite find_snoc. cbn.
    unfold R', erase_pid. rewrite find_filter_ne by done. rewrite decide_False by congruence.
    by destruct (snd <$> _).
Qed.

Lemma define_link_Ok s name src dst : agg_locked s →
  let L := link_records_ (so_data s) in
  if decide (name ∈ lr_name <$> L) then define_link name src dst s = Ok (false, s)
  else ∃ s', define_link name src dst s = Ok (true, s') ∧ agg_locked s' ∧
    pid_records_ (so_data s') = pid_records_ (so_data s) ∧
    link_records_ (so_data s') = L ++ [MkLinkRecord name src dst] ∧ bumped true (so_object s) (so_object s').
Proof.
  intros [[H1 H2 H3] Hw] L. unfold define_link, so_get. rewrite st_bind_eq.
  destruct (link_by_name name (link_records_ (so_data s))) as [r|] eqn:El.
  - apply (record_key_Some lr_name) in El as [Hp <-]. rewrite decide_True; [done|]. by apply list_elem_of_fmap_2.
  - pose proof (proj1 (record_key_None lr_name _ _) El) as Nl. rewrite decide_False by done.
    unfold insert_link. cbn [lr_name]. rewrite El.
    match goal with |- context [so_put ?d] => destruct (store_Ok s d true Hw) as (s' & E & Hd & Hw' & Hb) end.
    exists s'. split; [exact E|]. split_and!; [|by rewrite Hd..|done]. split; [|done].
    rewrite Hd. split; cbn; [done..|by apply nodup_snoc_key].
Qed.

Lemma undefine_link_Ok s name : agg_locked s →
  let L := link_records_ (so_data s) in
  if decide (name ∈ lr_name <$> L) then
    ∃ s', undefine_link name s = Ok (true, s') ∧ agg_locked s' ∧
      pid_records_ (so_data s') = pid_records_ (so_data s) ∧
      link_records_ (so_data s') = filter (λ r, lr_name r ≠ name) L ∧ bumped true (so_object s) (so_object s')
  else undefine_link name s = Ok (false, s).
Proof.
  intros [[H1 H2 H3] Hw] L. unfold undefine_link, so_get. rewrite st_bind_eq.
  destruct (link_by_name name (link_records_ (so_data s))) as [r|] eqn:El.
  - apply (record_key_Some lr_name) in El as [Hp <-]. rewrite decide_True by (by apply list_elem_of_fmap_2).
    match goal with |- context [so_put ?d] => destruct (store_Ok s d true Hw) as (s' & E & Hd & Hw' & Hb) end.
    exists s'. split; [exact E|]. split_and!; [|by rewrite Hd..|done]. split; [|done].
    rewrite Hd. split; cbn; [done..|by apply nodup_filter_key].
  - pose proof (proj1 (record_key_None lr_name _ _) El) as Nl. by rewrite decide_False.
Qed.

(** The name of a link between two PIDs. *)
Lemma get_link_between_Ok s src dst :
  ∃ o, get_link_between src dst s = Ok (o, s) ∧
    match o with
    | Some n => ∃ r, r ∈ link_records_ (so_data s) ∧ lr_name r = n ∧ lr_src r = src ∧ lr_dst r = dst
    | None => ∀ r, r ∈ link_records_ (so_data s) → lr_src r = src → lr_dst r ≠ dst
    end.
Proof.
  eexists. split; [reflexivity|]. destruct (list_find _ _) as [[i r]|] eqn:E; cbn.
  - apply list_find_Some in E as (E1 & E2 & _). apply list_elem_of_lookup_2 in E1.
    apply list_elem_of_filter in E1 as [? ?]. eauto.
  - apply list_find_None in E. rewrite Forall_forall in E. intros r Hr Hs. apply E.
    by apply list_elem_of_filter.
Qed.
End PIDAggregation.
