(* ===== verification/NetState.v ===== *)
(** * Network state (common-server/src/lib/net_state.cpp, include/p4pserver/net_state.h)

    [NetState] is a directed graph (a Boost [adjacency_list] with [listS] vertices and
    [setS] edge lists) with maps from names to vertices and edges.  A vertex descriptor
    is the address of the vertex, an edge descriptor holds its end points and the address
    of its properties; both dangle after the removal, and their use is then undefined
    behaviour.  Vertices and edges are kept in the order of their creation; the in- and
    out-edges of a vertex and the sets of vertices are visited in the order of addresses.
    Which addresses are handed out is the parameter [new_addr].  Boost's
    [dijkstra_shortest_paths] is not modelled. *)
From S2P Require Import Prelude StdMap Double IpAddr Pid Locking ServerObject PidAggregation.

Definition NetVertex := positive.
Definition NetEdgeName := text.

Record vprops := MkVProps { v_external : bool; v_name : NetVertexName; v_pid : PID }.
Record eprops := MkEProps { e_name : NetEdgeName; e_traffic : double; e_capacity : double }.
Record NetEdge := MkNetEdge { e_src : NetVertex; e_dst : NetVertex; e_prop : positive }.

Definition vprops_default : vprops := MkVProps false [] (MkPID [] 0 false).
Definition eprops_default : eprops := MkEProps [] dzero dzero.

#[global] Instance NetEdge_eq_dec : EqDecision NetEdge.
Proof. solve_decision. Defined.

Record NetGraph := MkNetGraph { g_vertices : list (NetVertex * vprops); g_edges : list (NetEdge * eprops) }.

(** ** The graph library *)
Definition vertices (g : NetGraph) : list NetVertex := fst <$> g_vertices g.
Definition edges (g : NetGraph) : list NetEdge := fst <$> g_edges g.

(** [get (property, v)] and [put (property, v, value)] *)
Definition vprop (v : NetVertex) (g : NetGraph) : outcome vprops :=
  from_option_or UB ((λ r, snd (snd r)) <$> list_find (λ r, fst r = v) (g_vertices g)).
Definition eprop (e : NetEdge) (g : NetGraph) : outcome eprops :=
  from_option_or UB ((λ r, snd (snd r)) <$> list_find (λ r, e_prop (fst r) = e_prop e) (g_edges g)).
Definition put_vprop (v : NetVertex) (f : vprops → vprops) (g : NetGraph) : outcome NetGraph :=
  if decide (v ∈ vertices g) then
    Ok (MkNetGraph ((λ r, (fst r, if decide (fst r = v) then f (snd r) else snd r)) <$> g_vertices g) (g_edges g))
  else Fault UB.
Definition put_eprop (e : NetEdge) (f : eprops → eprops) (g : NetGraph) : outcome NetGraph :=
  if decide (e_prop e ∈ e_prop <$> edges g) then
    Ok (MkNetGraph (g_vertices g)
          ((λ r, (fst r, if decide (e_prop (fst r) = e_prop e) then f (snd r) else snd r)) <$> g_edges g))
  else Fault UB.

(** [edge (src, dst, g)] *)
Definition edge (src dst : NetVertex) (g : NetGraph) : option NetEdge :=
  snd <$> list_find (λ e, e_src e = src ∧ e_dst e = dst) (edges g).

Section graph.
Variable new_addr : list positive → positive.

Definition add_vertex (g : NetGraph) : NetVertex * NetGraph :=
  let v := new_addr (vertices g) in (v, MkNetGraph (g_vertices g ++ [(v, vprops_default)]) (g_edges g)).

(** [boost::add_edge]: the edge, and whether it is new. *)
Definition graph_add_edge (src dst : NetVertex) (g : NetGraph) : outcome (NetEdge * bool * NetGraph) :=
  if decide (src ∈ vertices g ∧ dst ∈ vertices g) then
    match edge src dst g with
    | Some e => Ok (e, false, g)
    | None =>
        let e := MkNetEdge src dst (new_addr (e_prop <$> edges g)) in
        Ok (e, true, MkNetGraph (g_vertices g) (g_edges g ++ [(e, eprops_default)]))
    end
  else Fault UB.

Definition graph_remove_edge (e : NetEdge) (g : NetGraph) : outcome NetGraph :=
  if decide (e ∈ edges g) then Ok (MkNetGraph (g_vertices g) (filter (λ r, fst r ≠ e) (g_edges g)))
  else Fault UB.

(** [clear_vertex] and [remove_vertex] *)
Definition clear_vertex (v : NetVertex) (g : NetGraph) : outcome NetGraph :=
  if decide (v ∈ vertices g) then
    Ok (MkNetGraph (g_vertices g) (filter (λ r, e_src (fst r) ≠ v ∧ e_dst (fst r) ≠ v) (g_edges g)))
  else Fault UB.
Definition remove_vertex (v : NetVertex) (g : NetGraph) : outcome NetGraph :=
  if decide (v ∈ vertices g) then Ok (MkNetGraph (filter (λ r, fst r ≠ v) (g_vertices g)) (g_edges g))
  else Fault UB.

Definition src_order (a b : NetEdge) : Prop := (e_src a ≤ e_src b)%positive.
Definition dst_order (a b : NetEdge) : Prop := (e_dst a ≤ e_dst b)%positive.
#[global] Instance src_order_dec : RelDecision src_order.
Proof. intros a b. unfold src_order. solve_decision. Defined.
#[global] Instance dst_order_dec : RelDecision dst_order.
Proof. intros a b. unfold dst_order. solve_decision. Defined.

Definition in_edges (v : NetVertex) (g : NetGraph) : list NetEdge :=
  merge_sort src_order (filter (λ e, e_dst e = v) (edges g)).
Definition out_edges (v : NetVertex) (g : NetGraph) : list NetEdge :=
  merge_sort dst_order (filter (λ e, e_src e = v) (edges g)).

(** Assignment of a graph: new vertices and edges, in the same order. *)
Definition copy_vertices (g : NetGraph) : NetGraph * list (NetVertex * NetVertex) :=
  fold_left (λ '(g', ren) '(v, p),
      let v' := new_addr (vertices g') in
      (MkNetGraph (g_vertices g' ++ [(v', p)]) (g_edges g'), ren ++ [(v, v')]))
    (g_vertices g) (MkNetGraph [] [], []).
Definition renamed (ren : list (NetVertex * NetVertex)) (v : NetVertex) : NetVertex :=
  default v (snd ∘ snd <$> list_find (λ p, fst p = v) ren).
Definition copy_graph (g : NetGraph) : NetGraph :=
  let '(g0, ren) := copy_vertices g in
  fold_left (λ g' '(e, p),
      let e' := MkNetEdge (renamed ren (e_src e)) (renamed ren (e_dst e)) (new_addr (e_prop <$> edges g')) in
      MkNetGraph (g_vertices g') (g_edges g' ++ [(e', p)]))
    (g_edges g) g0.

(** ** [NetState] *)
Record NetData := MkNetData {
  graph_ : NetGraph;
  name_vert_map_ : list (NetVertexName * NetVertex);
  name_edge_map_ : list (NetEdgeName * NetEdge)
}.

Context {M : Type} `{SharedMutex M}.
Definition NetState : Type := Server M NetData.
Abbreviation N := (ST NetState).

Definition NetState_new (v0 : Z) : NetState := MkServer (LocalObject_new v0) (MkNetData (MkNetGraph [] []) [] []).

Definition with_graph (g : NetGraph) (d : NetData) : NetData := MkNetData g (name_vert_map_ d) (name_edge_map_ d).
Definition with_names (vm : list (NetVertexName * NetVertex)) (d : NetData) : NetData :=
  MkNetData (graph_ d) vm (name_edge_map_ d).
Definition with_edge_names (em : list (NetEdgeName * NetEdge)) (d : NetData) : NetData :=
  MkNetData (graph_ d) (name_vert_map_ d) em.

(** Read and update the graph. *)
Definition read_graph {A} (f : NetGraph → outcome A) : N A := d ← so_get; st_lift (f (graph_ d)).
Definition on_graph (f : NetGraph → outcome NetGraph) : N unit :=
  d ← so_get; g ← st_lift (f (graph_ d)); so_put (with_graph g d).
Definition on_names f : N unit := d ← so_get; so_put (with_names (f (name_vert_map_ d)) d).
Definition on_edge_names f : N unit := d ← so_get; so_put (with_edge_names (f (name_edge_map_ d)) d).

Definition get_node (name : NetVertexName) : N (option NetVertex) :=
  d ← so_get; mret (map_find text_ltb name (name_vert_map_ d)).

(** [add_node]: the result and the vertex of the name. *)
Definition add_node (name : NetVertexName) : N (bool * NetVertex) :=
  r ← get_node name;
  match r with
  | Some v => mret (false, v)
  | None =>
      d ← so_get;
      let '(v, g) := add_vertex (graph_ d) in
      so_put (with_graph g d);;
      on_names (map_insert text_ltb name v);;
      on_graph (put_vprop v (λ p, MkVProps (v_external p) name (v_pid p)));;
      so_changed;;
      mret (true, v)
  end.

Definition get_name (v : NetVertex) : N NetVertexName := p ← read_graph (vprop v); mret (v_name p).
Definition get_edge_name (e : NetEdge) : N NetEdgeName := p ← read_graph (eprop e); mret (e_name p).

(** The two [set_name]s. *)
Definition set_name (v : NetVertex) (value : NetVertexName) : N unit :=
  old ← get_name v;
  on_names (map_erase text_ltb old);;
  on_graph (put_vprop v (λ p, MkVProps (v_external p) value (v_pid p)));;
  on_names (map_insert text_ltb value v);;
  so_changed.
Definition set_edge_name (e : NetEdge) (value : NetEdgeName) : N unit :=
  old ← get_edge_name e;
  on_edge_names (map_erase text_ltb old);;
  on_graph (put_eprop e (λ p, MkEProps value (e_traffic p) (e_capacity p)));;
  on_edge_names (map_insert text_ltb value e);;
  so_changed.

Definition get_external (v : NetVertex) : N bool := p ← read_graph (vprop v); mret (v_external p).
Definition set_external (v : NetVertex) (value : bool) : N unit :=
  on_graph (put_vprop v (λ p, MkVProps value (v_name p) (v_pid p)));; so_changed.
Definition get_pid (v : NetVertex) : N PID := p ← read_graph (vprop v); mret (v_pid p).
Definition set_pid (v : NetVertex) (value : PID) : N unit :=
  on_graph (put_vprop v (λ p, MkVProps (v_external p) (v_name p) value));; so_changed.
Definition get_traffic (e : NetEdge) : N double := p ← read_graph (eprop e); mret (e_traffic p).
Definition set_traffic (e : NetEdge) (value : double) : N unit :=
  on_graph (put_eprop e (λ p, MkEProps (e_name p) value (e_capacity p)));; so_changed.
Definition get_capacity (e : NetEdge) : N double := p ← read_graph (eprop e); mret (e_capacity p).
Definition set_capacity (e : NetEdge) (value : double) : N unit :=
  on_graph (put_eprop e (λ p, MkEProps (e_name p) (e_traffic p) value));; so_changed.

Definition get_num_nodes (s : NetState) : nat := length (g_vertices (graph_ (so_data s))).
Definition get_num_edges (s : NetState) : nat := length (g_edges (graph_ (so_data s))).

(** The three [get_edge]s: by name, by the names of the end points, by the end points. *)
Definition get_edge_by_name (name : NetEdgeName) : N (option NetEdge) :=
  d ← so_get; mret (map_find text_ltb name (name_edge_map_ d)).
Definition get_edge (src dst : NetVertex) : N (option NetEdge) := d ← so_get; mret (edge src dst (graph_ d)).
Definition get_edge_names (src dst : NetVertexName) : N (option NetEdge) :=
  v_src ← get_node src;
  match v_src with
  | None => mret None
  | Some v_src =>
      v_dst ← get_node dst;
      match v_dst with None => mret None | Some v_dst => get_edge v_src v_dst end
  end.

(** [remove_node (const NetVertex&)] and [remove_node (const NetVertexName&)] *)
Definition remove_node (v : NetVertex) : N unit :=
  name ← get_name v;
  on_graph (clear_vertex v);;
  on_graph (remove_vertex v);;
  on_names (map_erase text_ltb name);;
  so_changed.
Definition remove_node_name (name : NetVertexName) : N bool :=
  r ← get_node name;
  match r with None => mret false | Some v => remove_node v;; mret true end.

(** [add_edge] by end points and by names; [None] is the result [false]. *)
Definition add_edge (src dst : NetVertex) : N (option NetEdge) :=
  d ← so_get;
  '(e, fresh, g) ← st_lift (graph_add_edge src dst (graph_ d));
  so_put (with_graph g d);;
  if negb fresh then mret None
  else
    set_traffic e dzero;;
    set_capacity e done_;;
    so_changed;;
    mret (Some e).
Definition add_edge_names (src dst : NetVertexName) : N (option NetEdge) :=
  v_src ← get_node src;
  match v_src with
  | None => mret None
  | Some v_src =>
      v_dst ← get_node dst;
      match v_dst with None => mret None | Some v_dst => add_edge v_src v_dst end
  end.

(** [remove_edge]; it does not report a change. *)
Definition remove_edge (e : NetEdge) : N unit := on_graph (graph_remove_edge e).
Definition remove_edge_names (src dst : NetVertexName) : N bool :=
  e ← get_edge_names src dst;
  match e with None => mret false | Some e => remove_edge e;; mret true end.

(** The bodies of the two loops of [aggregate_node]: an edge [e] is copied to (or added
    to) the one from [src] to [dst]. *)
Definition copy_edge (e : NetEdge) (src dst : NetVertex) : N unit :=
  d ← so_get;
  '(e_new, fresh, g) ← st_lift (graph_add_edge src dst (graph_ d));
  so_put (with_graph g d);;
  if fresh : bool then
    t ← get_traffic e; set_traffic e_new t;;
    c ← get_capacity e; set_capacity e_new c
  else
    t0 ← get_traffic e_new; t ← get_traffic e; set_traffic e_new (dadd t0 t);;
    c0 ← get_capacity e_new; c ← get_capacity e; set_capacity e_new (dadd c0 c).

Definition copy_in (vs : list NetVertex) (result : NetVertex) (e : NetEdge) : N unit :=
  if decide (e_src e ∈ vs) then mret tt else copy_edge e (e_src e) result.
Definition copy_out (vs : list NetVertex) (result : NetVertex) (e : NetEdge) : N unit :=
  if decide (e_dst e ∈ vs) then mret tt else copy_edge e result (e_dst e).

Definition aggregate_edges (vs : list NetVertex) (result v : NetVertex) : N unit :=
  ins ← read_graph (λ g, Ok (in_edges v g));
  st_iter (copy_in vs result) ins;;
  outs ← read_graph (λ g, Ok (out_edges v g));
  st_iter (copy_out vs result) outs.

(** [aggregate_node (vertices, name, result)] *)
Definition aggregate_node (vs : list NetVertex) (name : NetVertexName) : N (bool * NetVertex) :=
  match vs with
  | [v] => set_name v name;; mret (true, v)
  | _ =>
      '(b, result) ← add_node name;
      if negb b then mret (false, result)
      else
        st_iter (aggregate_edges vs result) vs;;
        st_iter remove_node vs;;
        mret (true, result)
  end.

(** [refresh_names]; [name_edge_map_] is not cleared. *)
Definition refresh_names : N unit :=
  d ← so_get;
  on_names (λ _, fold_left (λ m '(v, p), map_set text_ltb (v_name p) v m) (g_vertices (graph_ d)) []);;
  on_edge_names (λ em, fold_left (λ m '(e, p), map_set text_ltb (e_name p) e m) (g_edges (graph_ d)) em);;
  so_changed.

(** [do_copy_properties]: [refresh_names] runs under a [BlockWriteLock] of the copy. *)
Definition NetState_copy (v0 : Z) (s : NetState) : outcome NetState :=
  let o := LocalObject_new (M := M) v0 in
  match construct BlockWriteLock o with
  | Holds o1 =>
      '(_, s1) ← refresh_names (MkServer o1 (MkNetData (copy_graph (graph_ (so_data s))) [] []));
      o2 ← destroy BlockWriteLock (so_object s1);
      mret (MkServer o2 (so_data s1))
  | Throws e _ => Fault e
  | Waits => Fault (Throw "deadlock")
  end.
End graph.
