(* ===== verification/NetStateSpec.v ===== *)
(** * The network state: invariants and specifications

    A well-formed graph has one vertex for every address, one edge for every pair of end
    points, and edges between its vertices; in a well-formed network state the names of
    the vertices are the keys of [name_vert_map_]. *)
From S2P Require Import Prelude StdMap Double IpAddr Pid Locking ServerObject PidAggregation.
From S2P Require Import NetState.

(** ** Graphs *)
Record graph_ok (g : NetGraph) : Prop := {
  go_vertices : NoDup (vertices g);
  go_props : NoDup (e_prop <$> edges g);
  go_pairs : NoDup ((λ e, (e_src e, e_dst e)) <$> edges g);
  go_ends e : e ∈ edges g → e_src e ∈ vertices g ∧ e_dst e ∈ vertices g
}.

(** The properties of a vertex and of the edge between two vertices. *)
Definition vp (g : NetGraph) (v : NetVertex) : option vprops :=
  (λ r, snd (snd r)) <$> list_find (λ r, fst r = v) (g_vertices g).
Definition ep (g : NetGraph) (x y : NetVertex) : option eprops :=
  (λ r, snd (snd r)) <$> list_find (λ r, e_src (fst r) = x ∧ e_dst (fst r) = y) (g_edges g).

Section keyed.
Context {R V K : Type} (key : R → K).
Lemma keyed_unique (l : list (R * V)) a b : NoDup (key ∘ fst <$> l) → a ∈ l → b ∈ l →
  key (fst a) = key (fst b) → a = b.
Proof.
  intros HN [i Hi]%list_elem_of_lookup [j Hj]%list_elem_of_lookup E.
  assert (i = j) as ->; [|congruence]. apply (NoDup_lookup _ i j (key (fst a)) HN).
  - by rewrite list_lookup_fmap, Hi.
  - by rewrite list_lookup_fmap, Hj; cbn; rewrite E.
Qed.
End keyed.

Lemma edges_key {K} (key : NetEdge → K) g : key <$> edges g = key ∘ fst <$> g_edges g.
Proof. unfold edges. by rewrite list_fmap_compose. Qed.

Lemma elem_edges g e : e ∈ edges g ↔ ∃ p, (e, p) ∈ g_edges g.
Proof. unfold edges. rewrite list_elem_of_fmap. split; [intros ([e' p] & -> & ?); eauto|intros [p ?]; by exists (e, p)]. Qed.
Lemma elem_vertices g v : v ∈ vertices g ↔ ∃ p, (v, p) ∈ g_vertices g.
Proof. unfold vertices. rewrite list_elem_of_fmap. split; [intros ([e' p] & -> & ?); eauto|intros [p ?]; by exists (v, p)]. Qed.

Lemma vp_Some g v p : graph_ok g → vp g v = Some p ↔ (v, p) ∈ g_vertices g.
Proof.
  intros G. unfold vp. split.
  - intros ([i [v' p']] & F & ->)%fmap_Some. apply list_find_Some in F as (F1 & F2 & _). cbn in *. subst.
    by eapply list_elem_of_lookup_2.
  - intros H. destruct (list_find (λ r, fst r = v) (g_vertices g)) as [[i [v' p']]|] eqn:F; cbn.
    + apply list_find_Some in F as (F1 & F2 & _). cbn in F2. subst v'.
      apply list_elem_of_lookup_2 in F1. f_equal.
      pose proof (go_vertices g G) as HN. unfold vertices in HN.
      by pose proof (keyed_unique id (g_vertices g) _ _ HN F1 H eq_refl) as [= ->].
    + apply list_find_None in F. rewrite Forall_forall in F. by specialize (F _ H).
Qed.

Lemma vp_None g v : vp g v = None ↔ v ∉ vertices g.
Proof.
  unfold vp. rewrite fmap_None, list_find_None, Forall_forall, elem_vertices. split.
  - intros F [p Hp]. by apply (F _ Hp).
  - intros F [v' p] Hin. cbn. intros ->. eauto.
Qed.

Lemma edge_unique g e e' p p' : graph_ok g → (e, p) ∈ g_edges g → (e', p') ∈ g_edges g →
  e_src e = e_src e' → e_dst e = e_dst e' → e = e' ∧ p = p'.
Proof.
  intros G H1 H2 E1 E2. pose proof (go_pairs g G) as HN. rewrite edges_key in HN.
  pose proof (keyed_unique (λ e, (e_src e, e_dst e)) _ _ _ HN H1 H2) as E. cbn in E.
  rewrite E1, E2 in E. by injection (E eq_refl).
Qed.

Lemma prop_unique g e e' p p' : graph_ok g → (e, p) ∈ g_edges g → (e', p') ∈ g_edges g →
  e_prop e = e_prop e' → e = e' ∧ p = p'.
Proof.
  intros G H1 H2 E1. pose proof (go_props g G) as HN. rewrite edges_key in HN.
  pose proof (keyed_unique e_prop _ _ _ HN H1 H2 E1) as E. by injection E.
Qed.

Lemma ep_Some g x y p : graph_ok g →
  ep g x y = Some p ↔ ∃ e, (e, p) ∈ g_edges g ∧ e_src e = x ∧ e_dst e = y.
Proof.
  intros G. unfold ep. split.
  - intros ([i [e p']] & F & ->)%fmap_Some. apply list_find_Some in F as (F1 & F2 & _).
    exists e. split; [by eapply list_elem_of_lookup_2|done].
  - intros (e & H & E1 & E2).
    destruct (list_find (λ r, e_src (fst r) = x ∧ e_dst (fst r) = y) (g_edges g)) as [[i [e' p']]|] eqn:F; cbn.
    + apply list_find_Some in F as (F1 & [F2 F3] & _). apply list_elem_of_lookup_2 in F1. cbn in *.
      by destruct (edge_unique g e' e p' p G F1 H) as [_ ->]; [congruence..|].
    + apply list_find_None in F. rewrite Forall_forall in F. by destruct (F _ H).
Qed.

Lemma ep_None g x y : graph_ok g → ep g x y = None ↔ ∀ e, e ∈ edges g → e_src e = x → e_dst e ≠ y.
Proof.
  intros G. split.
  - intros F e [p Hp]%elem_edges E1 E2. assert (ep g x y = Some p) by (apply ep_Some; eauto). congruence.
  - intros F. destruct (ep g x y) as [p|] eqn:E; [|done]. apply ep_Some in E as (e & H & E1 & E2); [|done].
    exfalso. eapply F; [|done..]. apply elem_edges. eauto.
Qed.

Lemma edge_Some g x y e : edge x y g = Some e → e ∈ edges g ∧ e_src e = x ∧ e_dst e = y.
Proof.
  unfold edge. intros ([i e'] & F & ->)%fmap_Some. apply list_find_Some in F as (F1 & F2 & _).
  split; [by eapply list_elem_of_lookup_2|done].
Qed.
Lemma edge_None g x y : edge x y g = None ↔ ∀ e, e ∈ edges g → e_src e = x → e_dst e ≠ y.
Proof.
  unfold edge. rewrite fmap_None, list_find_None, Forall_forall. naive_solver.
Qed.

Lemma vprop_Ok g v p : vp g v = Some p → vprop v g = Ok p.
Proof. unfold vprop, vp. by intros ->. Qed.

Lemma eprop_Ok g e p : graph_ok g → (e, p) ∈ g_edges g → eprop e g = Ok p.
Proof.
  intros G H. unfold eprop.
  destruct (list_find (λ r, e_prop (fst r) = e_prop e) (g_edges g)) as [[i [e' p']]|] eqn:F; cbn.
  - apply list_find_Some in F as (F1 & F2 & _). apply list_elem_of_lookup_2 in F1. cbn in F2.
    by destruct (prop_unique g e' e p' p G F1 H F2) as [_ ->].
  - apply list_find_None in F. rewrite Forall_forall in F. by specialize (F _ H).
Qed.

(** ** Updates of the graph *)
Lemma put_eprop_Ok g e f : graph_ok g → e ∈ edges g →
  ∃ g', put_eprop e f g = Ok g' ∧ graph_ok g' ∧ g_vertices g' = g_vertices g ∧ edges g' = edges g ∧
    ∀ x y, ep g' x y = if decide (x = e_src e ∧ y = e_dst e) then f <$> ep g x y else ep g x y.
Proof.
  intros G He. unfold put_eprop. rewrite decide_True by (by apply list_elem_of_fmap_2).
  eexists. split; [reflexivity|].
  set (h := λ r : NetEdge * eprops, (fst r, if decide (e_prop (fst r) = e_prop e) then f (snd r) else snd r)).
  set (g' := MkNetGraph (g_vertices g) (h <$> g_edges g)).
  assert (EE : edges g' = edges g).
  { unfold edges, g'. cbn. rewrite <- list_fmap_compose. apply list_fmap_ext. by intros ? []. }
  assert (G' : graph_ok g').
  { destruct G as [G1 G2 G3 G4]. split; [done|by rewrite EE..]. }
  split_and!; [done..|]. intros x y. apply option_eq. intros p. rewrite ep_Some by done.
  assert (HM : ∀ e' p', (e', p') ∈ g_edges g' ↔ ∃ q, (e', q) ∈ g_edges g ∧
    p' = if decide (e_prop e' = e_prop e) then f q else q).
  { intros e' p'. unfold g'. cbn. rewrite list_elem_of_fmap. split.
    - intros ([e1 q] & [= -> ->] & H). eauto.
    - intros (q & H & ->). by exists (e', q). }
  pose proof He as [q0 Hq0]%elem_edges. case_decide as Hxy.
  - destruct Hxy as [-> ->]. split.
    + intros (e' & (q & H1 & ->)%HM & E1 & E2). destruct (edge_unique g e' e q q0 G H1 Hq0 E1 E2) as [-> ->].
      rewrite decide_True by done. apply fmap_Some. exists q0. split; [|done]. apply ep_Some; eauto.
    + intros (q & (e' & H1 & E1 & E2)%ep_Some & ->)%fmap_Some; [|done].
      destruct (edge_unique g e' e q q0 G H1 Hq0 E1 E2) as [-> ->]. exists e. split; [|done].
      apply HM. exists q0. by rewrite decide_True.
  - rewrite ep_Some by done. split.
    + intros (e' & (q & H1 & ->)%HM & E1 & E2). exists e'. split; [|done].
      rewrite decide_False; [done|]. intros E. destruct (prop_unique g e' e q q0 G H1 Hq0 E). naive_solver.
    + intros (e' & H1 & E1 & E2). exists e'. split; [|done]. apply HM. exists p. split; [done|].
      rewrite decide_False; [done|]. intros E. destruct (prop_unique g e' e p q0 G H1 Hq0 E). naive_solver.
Qed.

Lemma put_vprop_Ok g v f : graph_ok g → v ∈ vertices g →
  ∃ g', put_vprop v f g = Ok g' ∧ graph_ok g' ∧ vertices g' = vertices g ∧ g_edges g' = g_edges g ∧
    ∀ x, vp g' x = if decide (x = v) then f <$> vp g x else vp g x.
Proof.
  intros G Hv. unfold put_vprop. rewrite decide_True by done. eexists. split; [reflexivity|].
  set (h := λ r : NetVertex * vprops, (fst r, if decide (fst r = v) then f (snd r) else snd r)).
  set (g' := MkNetGraph (h <$> g_vertices g) (g_edges g)).
  assert (EE : vertices g' = vertices g).
  { unfold vertices, g'. cbn. rewrite <- list_fmap_compose. apply list_fmap_ext. by intros ? []. }
  assert (G' : graph_ok g').
  { destruct G as [G1 G2 G3 G4]. split; [by rewrite EE|done..|]. intros e H. rewrite EE. by apply G4. }
  split_and!; [done..|]. intros x. apply option_eq. intros p. rewrite vp_Some by done.
  assert (HM : (x, p) ∈ g_vertices g' ↔ ∃ q, (x, q) ∈ g_vertices g ∧ p = if decide (x = v) then f q else q).
  { unfold g'. cbn. rewrite list_elem_of_fmap. split.
    - intros ([e1 q] & [= -> ->] & H). eauto.
    - intros (q & H & ->). by exists (x, q). }
  rewrite HM. case_decide.
  - subst. rewrite fmap_Some. split; intros (q & H1 & H2); exists q; (split; [|done]); by apply vp_Some.
  - rewrite vp_Some by done. naive_solver.
Qed.

Lemma clear_remove_Ok g v : graph_ok g → v ∈ vertices g →
  ∃ g1 g2, clear_vertex v g = Ok g1 ∧ remove_vertex v g1 = Ok g2 ∧ graph_ok g2 ∧
    g_vertices g2 = filter (λ r, fst r ≠ v) (g_vertices g) ∧
    ∀ x y, ep g2 x y = if decide (x = v ∨ y = v) then None else ep g x y.
Proof.
  intros G Hv. unfold clear_vertex, remove_vertex. rewrite decide_True by done.
  eexists _, _. split; [reflexivity|]. rewrite decide_True by done. split; [reflexivity|].
  match goal with |- graph_ok ?g ∧ _ => set (g2 := g) end.
  assert (ME : ∀ e p, (e, p) ∈ g_edges g2 ↔ (e, p) ∈ g_edges g ∧ e_src e ≠ v ∧ e_dst e ≠ v).
  { intros e p. unfold g2. cbn. rewrite list_elem_of_filter. cbn. tauto. }
  assert (MV : ∀ x, x ∈ vertices g2 ↔ x ∈ vertices g ∧ x ≠ v).
  { intros x. rewrite !elem_vertices. unfold g2. cbn. setoid_rewrite list_elem_of_filter. cbn. naive_solver. }
  assert (G2 : graph_ok g2).
  { split.
    - unfold vertices, g2. cbn. eapply sublist_NoDup; [apply G|]. apply fmap_sublist, sublist_filter.
    - rewrite edges_key. eapply sublist_NoDup; [pose proof (go_props g G) as X; rewrite edges_key in X; exact X|].
      apply fmap_sublist, sublist_filter.
    - rewrite edges_key. eapply sublist_NoDup; [pose proof (go_pairs g G) as X; rewrite edges_key in X; exact X|].
      apply fmap_sublist, sublist_filter.
    - intros e [p (H1 & H2 & H3)%ME]%elem_edges. rewrite !MV.
      destruct (go_ends g G e); [apply elem_edges; eauto|]. auto. }
  split_and!; [done..|]. intros x y. apply option_eq. intros p. rewrite ep_Some by done. case_decide as E.
  - split; [|done]. intros (e & (H1 & H2 & H3)%ME & H4 & H5). naive_solver.
  - rewrite ep_Some by done. setoid_rewrite ME. naive_solver.
Qed.

Section spec.
Variable new_addr : list positive → positive.
Hypothesis new_addr_fresh : ∀ l, new_addr l ∉ l.

Lemma add_vertex_Ok g : graph_ok g →
  let '(v, g') := add_vertex new_addr g in
  v ∉ vertices g ∧ graph_ok g' ∧ g_vertices g' = g_vertices g ++ [(v, vprops_default)] ∧ g_edges g' = g_edges g.
Proof.
  intros [G1 G2 G3 G4]. cbn. pose proof (new_addr_fresh (vertices g)) as Hf. split_and!; [done| |done..].
  assert (EV : vertices (MkNetGraph (g_vertices g ++ [(new_addr (vertices g), vprops_default)]) (g_edges g))
    = vertices g ++ [new_addr (vertices g)]) by (unfold vertices; cbn; by rewrite fmap_app).
  split; [|done..|].
  - rewrite EV. apply NoDup_app. split_and!; [done|set_solver|apply NoDup_singleton].
  - intros e He. rewrite EV. destruct (G4 e He). set_solver.
Qed.

Lemma graph_add_edge_Ok g src dst : graph_ok g → src ∈ vertices g → dst ∈ vertices g →
  ∃ e g', graph_add_edge new_addr src dst g = Ok (e, bool_decide (ep g src dst = None), g') ∧
    graph_ok g' ∧ g_vertices g' = g_vertices g ∧
    e ∈ edges g' ∧ e_src e = src ∧ e_dst e = dst ∧ (∀ e', e' ∈ edges g → e' ∈ edges g') ∧
    (ep g src dst ≠ None → g' = g) ∧
    ∀ x y, ep g' x y = if decide (x = src ∧ y = dst) then Some (default eprops_default (ep g x y)) else ep g x y.
Proof.
  intros G Hs Hd. unfold graph_add_edge. rewrite decide_True by done. destruct (edge src dst g) as [e|] eqn:E.
  - apply edge_Some in E as (H1 & H2 & H3). pose proof H1 as [p Hp]%elem_edges.
    assert (HE : ep g src dst = Some p) by (apply ep_Some; eauto).
    exists e, g. rewrite bool_decide_eq_false_2 by congruence. split_and!; try done.
    intros x y. case_decide as Hxy; [|done]. destruct Hxy as [-> ->]. by rewrite HE.
  - pose proof (proj1 (edge_None _ _ _) E) as HN. set (e := MkNetEdge src dst _).
    assert (HE : ep g src dst = None) by (by apply ep_None).
    set (g' := MkNetGraph (g_vertices g) (g_edges g ++ [(e, eprops_default)])).
    assert (EE : edges g' = edges g ++ [e]) by (unfold edges, g'; cbn; by rewrite fmap_app).
    exists e, g'. rewrite bool_decide_eq_true_2 by done. split; [done|].
    assert (G' : graph_ok g').
    { destruct G as [G1 G2 G3 G4]. split; rewrite ?EE, ?fmap_app; [done| | |].
      - apply NoDup_app. split_and!; [done| |apply NoDup_singleton].
        intros x Hx Hx'. apply list_elem_of_singleton in Hx' as ->. by apply (new_addr_fresh (e_prop <$> edges g)).
      - apply NoDup_app. split_and!; [done| |apply NoDup_singleton].
        intros x Hx ->%list_elem_of_singleton. apply list_elem_of_fmap in Hx as (e' & [= E1 E2] & He').
        by apply (HN e' He').
      - intros e' [He'|He']%elem_of_app; [by apply G4|]. apply list_elem_of_singleton in He' as ->. done. }
    split_and!; try done; [rewrite EE; set_solver|intros e' ?; rewrite EE; set_solver|].
    intros x y. apply option_eq. intros p. rewrite ep_Some by done.
    assert (HM : ∀ e' p', (e', p') ∈ g_edges g' ↔ (e', p') ∈ g_edges g ∨ e' = e ∧ p' = eprops_default).
    { intros e' p'. unfold g'. cbn. rewrite elem_of_app, list_elem_of_singleton. naive_solver. }
    setoid_rewrite HM. case_decide as Hxy.
    + destruct Hxy as [-> ->]. rewrite HE. cbn. split.
      * intros (e' & [H1|[-> ->]] & E1 & E2); [|done].
        exfalso. eapply HN; [|exact E1|exact E2]. apply elem_edges. eauto.
      * intros [= <-]. exists e. auto.
    + rewrite ep_Some by done. split.
      * intros (e' & [H1|[-> ->]] & E1 & E2); [eauto|]. cbn in *. naive_solver.
      * naive_solver.
Qed.

Context {M : Type} `{SharedMutex M}.
Implicit Types s : NetState (M := M).
Abbreviation G s := (graph_ (so_data s)).

(** ** The steps of the operations *)

(** [s'] is [s] with another graph, still under the write lock. *)
Definition regraph s (g : NetGraph) s' : Prop :=
  writing_ (so_object s') = true ∧ so_data s' = with_graph g (so_data s).

Lemma regraph_trans s1 g1 s2 g2 s3 : regraph s1 g1 s2 → regraph s2 g2 s3 → regraph s1 g2 s3.
Proof. intros [W1 E1] [W2 E2]. split; [done|]. by rewrite E2, E1. Qed.

Lemma read_graph_Ok {A} (f : NetGraph → outcome A) s a : f (G s) = Ok a → read_graph f s = Ok (a, s).
Proof. intros E. unfold read_graph. rewrite st_bind_eq. cbn [so_get]. unfold st_lift. by rewrite E. Qed.

Lemma on_graph_Ok f s g : f (G s) = Ok g →
  on_graph f s = Ok (tt, MkServer (so_object s) (with_graph g (so_data s))).
Proof.
  intros E. unfold on_graph. rewrite st_bind_eq. cbn [so_get]. by rewrite st_lift_bind, E.
Qed.

Lemma graph_changed_Ok f s g : writing_ (so_object s) = true → f (G s) = Ok g →
  ∃ s', (on_graph f;; so_changed) s = Ok (tt, s') ∧ regraph s g s'.
Proof.
  intros Hw E. rewrite (st_bind_Ok _ _ _ _ _ (on_graph_Ok _ _ _ E)).
  destruct (so_changed_Ok (MkServer (so_object s) (with_graph g (so_data s))) Hw) as (o & H1 & H2).
  eexists. split; [exact H1|]. split; [|done]. cbn. by rewrite (bumped_writing _ _ _ H2).
Qed.

(** Reading the properties of an edge. *)
Lemma get_eprop_Ok s e p : graph_ok (G s) → (e, p) ∈ g_edges (G s) →
  get_traffic e s = Ok (e_traffic p, s) ∧ get_capacity e s = Ok (e_capacity p, s).
Proof.
  intros Gok He. pose proof (eprop_Ok _ _ _ Gok He) as E.
  unfold get_traffic, get_capacity. by rewrite !(st_bind_Ok _ _ _ _ _ (read_graph_Ok _ _ _ E)).
Qed.

(** Replacing the traffic and the capacity of an edge. *)
Lemma set_both_Ok s e t c : writing_ (so_object s) = true → graph_ok (G s) → e ∈ edges (G s) →
  ∃ g' s1 s2, set_traffic e t s = Ok (tt, s1) ∧ set_capacity e c s1 = Ok (tt, s2) ∧
    writing_ (so_object s1) = true ∧ graph_ok (G s1) ∧ edges (G s1) = edges (G s) ∧
    g_vertices (G s1) = g_vertices (G s) ∧
    (∀ x y, ep (G s1) x y = if decide (x = e_src e ∧ y = e_dst e)
       then (λ q, MkEProps (e_name q) t (e_capacity q)) <$> ep (G s) x y else ep (G s) x y) ∧
    regraph s g' s2 ∧ graph_ok g' ∧ g_vertices g' = g_vertices (G s) ∧ edges g' = edges (G s) ∧
    ∀ x y, ep g' x y = if decide (x = e_src e ∧ y = e_dst e)
      then (λ q, MkEProps (e_name q) t c) <$> ep (G s) x y else ep (G s) x y.
Proof.
  intros Hw Gok He.
  destruct (put_eprop_Ok _ e (λ p, MkEProps (e_name p) t (e_capacity p)) Gok He) as (g1 & P1 & G1 & V1 & E1 & X1).
  destruct (graph_changed_Ok _ s g1 Hw P1) as (s1 & R1 & W1 & D1).
  assert (EG : G s1 = g1) by by rewrite D1.
  destruct (put_eprop_Ok g1 e (λ p, MkEProps (e_name p) (e_traffic p) c) G1 ltac:(by rewrite E1))
    as (g2 & P2 & G2 & V2 & E2 & X2).
  rewrite <- EG in P2. destruct (graph_changed_Ok _ s1 g2 W1 P2) as (s2 & R2 & W2 & D2).
  exists g2, s1, s2. rewrite EG. split_and!; try done; try congruence.
  - split; [done|]. by rewrite D2, D1.
  - intros x y. rewrite X2, X1. case_decide; [|done]. by destruct (ep (G s) x y).
Qed.

(** What an edge that is copied onto another one adds to it. *)
Definition addp (q : option eprops) (p : eprops) : eprops :=
  match q with
  | None => MkEProps [] (e_traffic p) (e_capacity p)
  | Some q => MkEProps (e_name q) (dadd (e_traffic q) (e_traffic p)) (dadd (e_capacity q) (e_capacity p))
  end.

(** The state after an update of the edge from [src] to [dst] to [q]. *)
Definition edge_set s (src dst : NetVertex) (q : eprops) s' : Prop :=
  ∃ g', regraph s g' s' ∧ graph_ok g' ∧ g_vertices g' = g_vertices (G s) ∧
    (∀ e, e ∈ edges (G s) → e ∈ edges g') ∧
    ∀ x y, ep g' x y = if decide (x = src ∧ y = dst) then Some q else ep (G s) x y.

(** The tails of [copy_edge]: both branches, given the states in between. *)
Lemma copy_edge_Ok s e p src dst : writing_ (so_object s) = true → graph_ok (G s) → (e, p) ∈ g_edges (G s) →
  src ∈ vertices (G s) → dst ∈ vertices (G s) → ¬ (e_src e = src ∧ e_dst e = dst) →
  ∃ s', copy_edge new_addr e src dst s = Ok (tt, s') ∧ edge_set s src dst (addp (ep (G s) src dst) p) s'.
Proof.
  intros Hw Gok He Hs Hd Hne. unfold copy_edge. rewrite st_bind_eq. cbn [so_get]. rewrite st_lift_bind.
  destruct (graph_add_edge_Ok (G s) src dst Gok Hs Hd) as (en & g1 & E1 & G1 & V1 & I1 & S1 & D1 & M1 & Q1 & X1).
  rewrite E1. rewrite st_bind_eq. cbn [so_put].
  set (s0 := MkServer (so_object s) (with_graph g1 (so_data s))).
  assert (He1 : ∃ q, (e, q) ∈ g_edges g1) by (apply elem_edges, M1, elem_edges; eauto).
  destruct He1 as [q He1]. assert (q = p) as ->.
  { assert (A1 : ep g1 (e_src e) (e_dst e) = Some q) by (apply ep_Some; eauto).
    rewrite X1, decide_False in A1 by tauto.
    assert (A2 : ep (G s) (e_src e) (e_dst e) = Some p) by (apply ep_Some; eauto). congruence. }
  assert (Hen : ∃ q, (en, q) ∈ g_edges g1) by by apply elem_edges. destruct Hen as [qn Hen].
  assert (Hqn : ep g1 src dst = Some qn) by (apply ep_Some; eauto).
  pose proof Hqn as Hqn'. rewrite X1, decide_True in Hqn' by done. injection Hqn' as Hqn'.
  set (pt := if bool_decide (ep (G s) src dst = None) then e_traffic p else dadd (e_traffic qn) (e_traffic p)).
  set (pc := if bool_decide (ep (G s) src dst = None) then e_capacity p else dadd (e_capacity qn) (e_capacity p)).
  destruct (set_both_Ok s0 en pt pc Hw G1 I1) as (g2 & s1 & s2 & T1 & T2 & W1 & GG & EE & VV & XX & R2 & G2 & V2 & E2 & X2).
  assert (Hp1 : (e, p) ∈ g_edges (G s1)).
  { assert (e ∈ edges (G s1)) as [q Hq]%elem_edges by (rewrite EE; apply elem_edges; eauto).
    assert (A1 : ep (G s1) (e_src e) (e_dst e) = Some q) by (apply ep_Some; eauto).
    rewrite XX, decide_False in A1 by (rewrite S1, D1; tauto).
    assert (A2 : ep (G s0) (e_src e) (e_dst e) = Some p) by (apply ep_Some; eauto). congruence. }
  exists s2. split.
  - destruct (get_eprop_Ok s0 e p G1 He1) as [F1 _]. destruct (get_eprop_Ok s1 e p GG Hp1) as [_ F2].
    destruct (bool_decide (ep (G s) src dst = None)) eqn:B.
    + rewrite (st_bind_Ok _ _ _ _ _ F1), (st_bind_Ok _ _ _ _ _ T1), (st_bind_Ok _ _ _ _ _ F2). done.
    + destruct (get_eprop_Ok s0 en qn G1 Hen) as [F3 _].
      assert (Hn1 : ∃ q, (en, q) ∈ g_edges (G s1)) by (apply elem_edges; by rewrite EE).
      destruct Hn1 as [q1 Hn1]. destruct (get_eprop_Ok s1 en q1 GG Hn1) as [_ F4].
      assert (ep (G s1) src dst = Some q1) as Hq1 by (apply ep_Some; eauto).
      rewrite XX, decide_True in Hq1 by done. cbn in Hq1. rewrite Hqn in Hq1. injection Hq1 as <-.
      rewrite (st_bind_Ok _ _ _ _ _ F3), (st_bind_Ok _ _ _ _ _ F1), (st_bind_Ok _ _ _ _ _ T1),
        (st_bind_Ok _ _ _ _ _ F4), (st_bind_Ok _ _ _ _ _ F2). done.
  - exists g2. split_and!; [|done|..].
    + destruct R2 as [R2 R3]. split; [done|]. by rewrite R3.
    + by rewrite V2.
    + intros e' He'. rewrite E2. by apply M1.
    + intros x y. rewrite X2, S1, D1. cbn [so_data graph_ with_graph]. case_decide as Hxy; [|by rewrite X1, decide_False].
      destruct Hxy as [-> ->]. cbn in Hqn |- *. rewrite Hqn. cbn. unfold pt, pc. subst qn.
      destruct (ep (G s) src dst) as [q0|]; done.
Qed.

(** ** The loops of [aggregate_node]

    The two inner loops are the same up to the direction: [true] for the in-edges of a
    vertex, [false] for its out-edges. *)
Definition far (d : bool) (e : NetEdge) : NetVertex := if d then e_src e else e_dst e.
Definition near (d : bool) (e : NetEdge) : NetVertex := if d then e_dst e else e_src e.
Definition epd (d : bool) (g : NetGraph) (x v : NetVertex) : option eprops := if d then ep g x v else ep g v x.
Definition copy_dir (d : bool) (vs : list NetVertex) (res : NetVertex) (e : NetEdge) : ST (NetState (M := M)) unit :=
  if d then copy_in new_addr vs res e else copy_out new_addr vs res e.
Definition dir_edges (d : bool) (v : NetVertex) (g : NetGraph) : list NetEdge :=
  if d then in_edges v g else out_edges v g.

(** The edge to or from [x] after the vertex [v] was aggregated. *)
Definition ext (g : NetGraph) (vs : list NetVertex) (d : bool) (f : NetVertex → option eprops)
  (v x : NetVertex) : option eprops :=
  if decide (x ∈ vs) then f x else match epd d g x v with Some p => Some (addp (f x) p) | None => f x end.

(** The sum of the edges between [x] and the vertices [vs]. *)
Definition edge_sum (d : bool) (g : NetGraph) (x : NetVertex) (vs : list NetVertex) : option eprops :=
  fold_left (λ acc v, match epd d g x v with Some p => Some (addp acc p) | None => acc end) vs None.

Record agg_inv s0 (vs : list NetVertex) (res : NetVertex) (cur : bool → NetVertex → option eprops) s : Prop := {
  ai_write : writing_ (so_object s) = true;
  ai_data : so_data s = with_graph (G s) (so_data s0);
  ai_ok : graph_ok (G s);
  ai_vert : g_vertices (G s) = g_vertices (G s0);
  ai_cur d x : epd d (G s) x res = cur d x;
  ai_rest x y : x ≠ res → y ≠ res → ep (G s) x y = ep (G s0) x y;
  ai_none d x : x ∈ vs ∨ x = res → cur d x = None
}.

Lemma dir_edges_elem d v g e : e ∈ dir_edges d v g ↔ e ∈ edges g ∧ near d e = v.
Proof.
  destruct d; cbn; unfold in_edges, out_edges; rewrite (merge_sort_Permutation _ _), list_elem_of_filter; tauto.
Qed.

Lemma dir_edges_far d v g : graph_ok g → NoDup (far d <$> dir_edges d v g).
Proof.
  intros Gok. pose proof (go_pairs g Gok) as HN.
  assert (HN' : NoDup ((λ e, (e_src e, e_dst e)) <$> dir_edges d v g)).
  { destruct d; cbn; unfold in_edges, out_edges; rewrite (merge_sort_Permutation _ _);
      by apply nodup_filter_key. }
  apply NoDup_fmap_1 in HN' as HN2. apply NoDup_fmap_2_strong; [|done].
  intros e1 e2 H1 H2 E. pose proof H1 as [_ N1]%dir_edges_elem. pose proof H2 as [_ N2]%dir_edges_elem.
  apply list_elem_of_lookup in H1 as [i Hi]. apply list_elem_of_lookup in H2 as [j Hj].
  assert (i = j) as ->; [|congruence]. apply (NoDup_lookup _ i j (e_src e1, e_dst e1) HN').
  - by rewrite list_lookup_fmap, Hi.
  - rewrite list_lookup_fmap, Hj. cbn. destruct d; cbn in *; congruence.
Qed.

(** A step of the inner loop that copies an edge. *)
Lemma agg_copy s0 vs res cur s d e p : agg_inv s0 vs res cur s →
  e ∈ edges (G s) → near d e ∈ vs → res ∉ vs → far d e ∉ vs → res ∈ vertices (G s0) →
  epd d (G s0) (far d e) (near d e) = Some p →
  ∃ s', copy_dir d vs res e s = Ok (tt, s') ∧
    (∀ e', e' ∈ edges (G s) → e' ∈ edges (G s')) ∧
    agg_inv s0 vs res (λ d' x, if decide (d' = d ∧ x = far d e) then Some (addp (cur d x) p) else cur d' x) s'.
Proof.
  intros I He Hv Hr Hf Hres Hp. pose proof I as [Hw Hd Gok HV HC HR HN].
  assert (Hnr : near d e ≠ res) by (intros E; rewrite E in Hv; done).
  assert (Hfr : far d e ≠ res).
  { intros E. pose proof (HC (negb d) (near d e)) as X. rewrite (HN (negb d) (near d e)) in X by auto.
    pose proof He as [q Hq]%elem_edges.
    assert (ep (G s) (e_src e) (e_dst e) = Some q) by (apply ep_Some; eauto).
    destruct d; cbn in *; congruence. }
  assert (Hin : (e, p) ∈ g_edges (G s)).
  { pose proof He as [q Hq]%elem_edges.
    assert (E : ep (G s) (e_src e) (e_dst e) = Some q) by (apply ep_Some; eauto).
    rewrite HR in E by (destruct d; done). destruct d; cbn in *; congruence. }
  assert (EV : vertices (G s) = vertices (G s0)) by (unfold vertices; by rewrite HV).
  set (src := if d then e_src e else res). set (dst := if d then res else e_dst e).
  destruct (copy_edge_Ok s e p src dst Hw Gok Hin) as (s' & R & g' & [W' D'] & G' & V' & E' & X').
  { unfold src. destruct d; [by apply (go_ends _ Gok)|by rewrite EV]. }
  { unfold dst. destruct d; [by rewrite EV|by apply (go_ends _ Gok)]. }
  { unfold src, dst. destruct d; cbn in *; tauto. }
  assert (EG : G s' = g') by by rewrite D'. exists s'. split_and!.
  { unfold copy_dir, copy_in, copy_out. destruct d; cbn in *; by rewrite decide_False. }
  { intros e' H'. rewrite EG. by apply E'. }
  split; rewrite ?EG; [done|..].
  - by rewrite D', Hd.
  - done.
  - by rewrite V'.
  - intros d' x. unfold epd. rewrite !X'. unfold src, dst. pose proof (HC d' x) as C1.
    pose proof (HC d (far d e)) as C2. unfold epd in C1, C2.
    destruct d, d'; cbn in *; repeat case_decide; try congruence; naive_solver congruence.
  - intros x y Hx Hy. rewrite X', decide_False; [by apply HR|]. unfold src, dst. destruct d; naive_solver.
  - intros d' x Hx. rewrite decide_False; [by apply HN|]. intros [-> ->]. naive_solver.
Qed.

(** The invariant with another, equal account of the edges of [res]. *)
Lemma agg_inv_ext s0 vs res cur cur' s : agg_inv s0 vs res cur s → (∀ d x, cur d x = cur' d x) →
  agg_inv s0 vs res cur' s.
Proof. intros [] E. split; try done; intros; rewrite <- E; auto. Qed.

(** An edge between [v] and another vertex is the one of the start. *)
Lemma agg_old s0 vs res cur s d v x : agg_inv s0 vs res cur s → v ∈ vs → res ∉ vs → x ≠ res →
  epd d (G s) x v = epd d (G s0) x v.
Proof.
  intros I Hv Hr Hx. assert (v ≠ res) by congruence. unfold epd. destruct d; by apply (ai_rest _ _ _ _ _ I).
Qed.

Lemma agg_far s0 vs res cur s d e : agg_inv s0 vs res cur s → e ∈ edges (G s) → near d e ∈ vs → res ∉ vs →
  far d e ≠ res ∧ ∃ p, epd d (G s0) (far d e) (near d e) = Some p.
Proof.
  intros I He Hv Hr. pose proof He as [q Hq]%elem_edges.
  assert (E : epd d (G s) (far d e) (near d e) = Some q) by (unfold epd; destruct d; apply ep_Some; eauto; apply I).
  assert (far d e ≠ res).
  { intros X. pose proof (ai_cur _ _ _ _ _ I (negb d) (near d e)) as C.
    rewrite (ai_none _ _ _ _ _ I) in C by auto. rewrite X in E. destruct d; cbn in *; congruence. }
  split; [done|]. rewrite (agg_old _ _ _ _ _ _ _ _ I) in E by done. eauto.
Qed.

(** The account of [res] after the edges [dn] of [v] were visited. *)
Definition visited (g : NetGraph) (vs : list NetVertex) (d : bool) (v : NetVertex) (cur : bool → NetVertex → option eprops) (dn : list NetEdge)
  (d' : bool) (x : NetVertex) : option eprops :=
  if decide (d' = d ∧ x ∈ far d <$> dn) then ext g vs d (cur d) v x else cur d' x.

Lemma visited_snoc g vs d v cur dn e d' x :
  visited g vs d v cur (dn ++ [e]) d' x =
    if decide (d' = d ∧ x = far d e) then ext g vs d (cur d) v x else visited g vs d v cur dn d' x.
Proof.
  unfold visited. rewrite fmap_app. destruct (decide (d' = d ∧ x = far d e)).
  - by rewrite decide_True by set_solver.
  - destruct (decide (d' = d ∧ x ∈ far d <$> dn));
      [rewrite decide_True by set_solver|rewrite decide_False by set_solver]; done.
Qed.

(** One step of an inner loop. *)
Lemma agg_step s0 vs res cur s d v dn e :
  agg_inv s0 vs res (visited (G s0) vs d v cur dn) s → e ∈ edges (G s) → near d e = v → v ∈ vs →
  res ∉ vs → res ∈ vertices (G s0) → far d e ∉ far d <$> dn →
  ∃ s', copy_dir d vs res e s = Ok (tt, s') ∧ (∀ e', e' ∈ edges (G s) → e' ∈ edges (G s')) ∧
    agg_inv s0 vs res (visited (G s0) vs d v cur (dn ++ [e])) s'.
Proof.
  intros I He <- Hv Hr Hres Hnew. destruct (agg_far _ _ _ _ _ d e I He Hv Hr) as [Hfr [p Hp]].
  destruct (decide (far d e ∈ vs)) as [Hvs|Hvs].
  - exists s. split; [unfold copy_dir, copy_in, copy_out; destruct d; cbn in *; by rewrite decide_True|].
    split; [done|]. eapply agg_inv_ext; [exact I|]. intros d' x. rewrite visited_snoc.
    case_decide as E; [|done]. destruct E as [-> ->]. unfold visited. rewrite decide_False by tauto.
    unfold ext. by rewrite decide_True.
  - destruct (agg_copy _ _ _ _ s d e p I He Hv Hr Hvs Hres Hp) as (s2 & R2 & E2 & I2).
    exists s2. split_and!; [done..|]. eapply agg_inv_ext; [exact I2|]. intros d' x. rewrite visited_snoc. cbn.
    case_decide as E; [|done]. destruct E as [-> ->]. unfold visited. rewrite decide_False by tauto.
    unfold ext. rewrite decide_False by done. by rewrite Hp.
Qed.

(** One inner loop. *)
Lemma agg_dir s0 vs res cur s d v : agg_inv s0 vs res cur s → v ∈ vs → res ∉ vs → res ∈ vertices (G s0) →
  (∀ d x, epd d (G s0) res x = None) →
  ∃ s', st_iter (copy_dir d vs res) (dir_edges d v (G s)) s = Ok (tt, s') ∧
    agg_inv s0 vs res (λ d' x, if decide (d' = d) then ext (G s0) vs d (cur d) v x else cur d' x) s'.
Proof.
  intros I Hv Hr Hres Hiso. set (l := dir_edges d v (G s)).
  assert (HF : NoDup (far d <$> l)) by apply dir_edges_far, I.
  assert (HL : ∀ e, e ∈ l → e ∈ edges (G s) ∧ near d e = v) by (intros e; unfold l; by rewrite dir_edges_elem).
  destruct (st_iter_inv (λ dn s1, (∀ e, e ∈ l → e ∈ edges (G s1)) ∧
      agg_inv s0 vs res (visited (G s0) vs d v cur dn) s1) (copy_dir d vs res) l s) as (s' & R & _ & I').
  - split; [by intros e [? _]%HL|]. eapply agg_inv_ext; [exact I|]. intros d' x. unfold visited.
    rewrite decide_False; [done|]. intros [_ ?%elem_of_nil]. done.
  - intros dn e rest s1 El [Hin I1]. assert (Hel : e ∈ l) by (rewrite El; set_solver).
    assert (Hnew : far d e ∉ far d <$> dn).
    { rewrite El, fmap_app, fmap_cons, NoDup_app in HF. destruct HF as (_ & HF & _).
      intros X. apply (HF _ X). left. }
    destruct (HL e Hel) as [_ Hnear].
    destruct (agg_step _ _ _ _ _ _ _ _ e I1 (Hin e Hel) Hnear Hv Hr Hres Hnew) as (s2 & R2 & E2 & I2). eauto 8.
  - exists s'. split; [done|]. eapply agg_inv_ext; [exact I'|]. intros d' x. unfold visited.
    destruct (decide (d' = d)) as [->|]; [|by rewrite decide_False by tauto].
    destruct (decide (x ∈ far d <$> l)) as [Hx|Hx]; [by rewrite decide_True by tauto|].
    rewrite decide_False by tauto. unfold ext. case_decide; [done|].
    destruct (epd d (G s0) x v) as [p|] eqn:Ex; [|done]. exfalso. apply Hx.
    assert (Hxr : x ≠ res) by (intros ->; by rewrite Hiso in Ex).
    rewrite <- (agg_old _ _ _ _ _ _ _ _ I Hv Hr Hxr) in Ex. pose proof (ai_ok _ _ _ _ _ I) as Gok.
    assert (∃ e, e ∈ edges (G s) ∧ far d e = x ∧ near d e = v) as (e & He & Ef & En).
    { unfold epd in Ex. destruct d; apply (ep_Some _ _ _ _ Gok) in Ex as (e & He & E1 & E2); exists e;
        (split; [apply elem_edges; eauto|done]). }
    apply list_elem_of_fmap. exists e. split; [done|]. by apply dir_edges_elem.
Qed.

(** The outer loop. *)
Definition sums (g : NetGraph) (vs dn : list NetVertex) (d : bool) (x : NetVertex) : option eprops :=
  if decide (x ∈ vs) then None else edge_sum d g x dn.

Lemma sums_snoc g vs dn v d x : sums g vs (dn ++ [v]) d x = ext g vs d (sums g vs dn d) v x.
Proof.
  unfold sums, ext, edge_sum. rewrite fold_left_app. cbn. case_decide; [done|]. by destruct (epd d g x v).
Qed.

Lemma edge_sum_isolated d g x vs : (∀ v, epd d g x v = None) → edge_sum d g x vs = None.
Proof.
  intros H0. unfold edge_sum. induction vs as [|v vs IH] using rev_ind; [done|].
  rewrite fold_left_app. cbn. by rewrite H0.
Qed.

Lemma aggregate_edges_Ok s0 vs res : writing_ (so_object s0) = true → graph_ok (G s0) →
  res ∉ vs → res ∈ vertices (G s0) → (∀ d x, epd d (G s0) res x = None) →
  ∃ s', st_iter (aggregate_edges new_addr vs res) vs s0 = Ok (tt, s') ∧ agg_inv s0 vs res (sums (G s0) vs vs) s'.
Proof.
  intros Hw Gok Hr Hres Hiso.
  apply (st_iter_inv (λ dn s, agg_inv s0 vs res (sums (G s0) vs dn) s)).
  - split; try done.
    + by destruct (so_data s0).
    + intros d x. unfold sums. replace (edge_sum d (G s0) x []) with (None (A := eprops)) by done.
      destruct (decide (x ∈ vs)); pose proof (Hiso (negb d) x) as X; destruct d; cbn in *; done.
    + intros d x [Hx| ->]; unfold sums; by case_decide.
  - intros dn v rest s El I. assert (Hv : v ∈ vs) by (rewrite El; set_solver).
    destruct (agg_dir _ _ _ _ s true v I Hv Hr Hres Hiso) as (s1 & R1 & I1).
    destruct (agg_dir _ _ _ _ s1 false v I1 Hv Hr Hres Hiso) as (s2 & R2 & I2).
    exists s2. split.
    + unfold aggregate_edges.
      rewrite (st_bind_Ok _ _ _ _ _ (read_graph_Ok (λ g, Ok (in_edges v g)) s _ eq_refl)).
      rewrite (st_bind_Ok _ _ _ _ _ R1).
      rewrite (st_bind_Ok _ _ _ _ _ (read_graph_Ok (λ g, Ok (out_edges v g)) s1 _ eq_refl)). exact R2.
    + eapply agg_inv_ext; [exact I2|]. intros [] x; cbn; by rewrite sums_snoc.
Qed.

(** Symbolic execution of an update of the graph that succeeds by [E], and of the report
    of a change under the write lock [Hw]. *)
Ltac graph_step E :=
  match goal with |- context [(on_graph ?f;; ?k) ?s1] =>
    rewrite (st_bind_Ok _ _ _ _ _ (on_graph_Ok f s1 _ E)) end.
Ltac changed_step Hw o Hb :=
  match goal with |- context [so_changed ?s0] => destruct (so_changed_Ok s0 Hw) as (o & -> & Hb) end.

(** ** The invariant of the network state *)
Record net_ok (d : NetData) : Prop := {
  no_graph : graph_ok (graph_ d);
  no_sorted : map_sorted text_ltb (name_vert_map_ d);
  no_names n v : map_find text_ltb n (name_vert_map_ d) = Some v ↔
                 ∃ p, vp (graph_ d) v = Some p ∧ v_name p = n
}.
Definition net_locked s : Prop := net_ok (so_data s) ∧ writing_ (so_object s) = true.

Lemma net_ok_regraph d g : net_ok d → graph_ok g → (∀ v, vp g v = vp (graph_ d) v) → net_ok (with_graph g d).
Proof. intros [N1 N2 N3] Gok HV. split; [done..|]. intros n v. cbn. rewrite HV. apply N3. Qed.

Lemma vp_g_vertices g g' v : g_vertices g = g_vertices g' → vp g v = vp g' v.
Proof. unfold vp. by intros ->. Qed.

Lemma get_name_Ok s v p : vp (G s) v = Some p → get_name v s = Ok (v_name p, s).
Proof. intros E. unfold get_name. by rewrite (st_bind_Ok _ _ _ _ _ (read_graph_Ok _ _ _ (vprop_Ok _ _ _ E))). Qed.

Lemma net_get_node_Ok s n : get_node n s = Ok (map_find text_ltb n (name_vert_map_ (so_data s)), s).
Proof. done. Qed.

(** Two names for one vertex, or two vertices of one name, are the same. *)
Lemma names_inj d v w p q : net_ok d → vp (graph_ d) v = Some p → vp (graph_ d) w = Some q →
  v_name p = v_name q → v = w.
Proof.
  intros N Hv Hw E. assert (H1 : map_find text_ltb (v_name p) (name_vert_map_ d) = Some v) by (apply N; eauto).
  assert (H2 : map_find text_ltb (v_name p) (name_vert_map_ d) = Some w) by (apply N; eauto). congruence.
Qed.

Lemma remove_node_Ok s v : net_locked s → v ∈ vertices (G s) →
  ∃ s', remove_node v s = Ok (tt, s') ∧ net_locked s' ∧
    (∀ x, vp (G s') x = if decide (x = v) then None else vp (G s) x) ∧
    (∀ x y, ep (G s') x y = if decide (x = v ∨ y = v) then None else ep (G s) x y) ∧
    name_edge_map_ (so_data s') = name_edge_map_ (so_data s).
Proof.
  intros [N Hw] Hv. destruct (clear_remove_Ok _ v (no_graph _ N) Hv) as (g1 & g2 & C1 & C2 & G2 & V2 & X2).
  destruct (vp (G s) v) as [p|] eqn:Ep; [|by apply vp_None in Ep].
  unfold remove_node. rewrite (st_bind_Ok _ _ _ _ _ (get_name_Ok _ _ _ Ep)).
  graph_step C1. graph_step C2.
  unfold on_names. rewrite st_bind_eq. rewrite st_bind_eq. cbn [so_get so_put].
  changed_step Hw o Hb.
  assert (HV : ∀ x, vp g2 x = if decide (x = v) then None else vp (G s) x).
  { intros x. apply option_eq. intros q. rewrite vp_Some by done. rewrite V2, list_elem_of_filter. cbn.
    pose proof (vp_Some (G s) x q (no_graph _ N)). case_decide; naive_solver. }
  eexists. split; [reflexivity|]. split_and!; [|done..]. split; [|cbn; by rewrite (bumped_writing _ _ _ Hb)].
  cbn. split; cbn; [done|apply (map_erase_sorted text_ltb), N|]. intros n x.
  destruct (decide (v_name p = n)) as [<-|Hn].
  - rewrite (map_find_erase_eq text_ltb) by apply N. split; [done|].
    intros (q & Hq & E). rewrite HV in Hq. case_decide as Hx; [done|]. destruct Hx. symmetry. by eapply names_inj.
  - rewrite (map_find_erase_ne text_ltb) by (done || apply N). rewrite (no_names _ N). setoid_rewrite HV.
    split; intros (q & Hq & E); exists q; (split; [|done]); case_decide; naive_solver congruence.
Qed.

(** ** Adding and renaming *)
Definition named (name : NetVertexName) (p : vprops) : vprops := MkVProps (v_external p) name (v_pid p).

Lemma vp_app g v p x : graph_ok (MkNetGraph (g_vertices g ++ [(v, p)]) (g_edges g)) → graph_ok g →
  vp (MkNetGraph (g_vertices g ++ [(v, p)]) (g_edges g)) x = if decide (x = v) then Some p else vp g x.
Proof.
  intros G' Gok. apply option_eq. intros q. rewrite vp_Some by done. cbn. rewrite elem_of_app, list_elem_of_singleton.
  assert (v ∉ vertices g).
  { pose proof (go_vertices _ G') as X. unfold vertices in *. cbn in X. rewrite fmap_app in X.
    apply NoDup_app in X as (_ & X & _). intros Y. by apply (X _ Y), list_elem_of_singleton. }
  case_decide; subst.
  - split; [intros [X|X]; [|congruence]|naive_solver]. exfalso. apply H0, elem_vertices. eauto.
  - rewrite vp_Some by done. naive_solver.
Qed.

Lemma add_node_Ok s name : net_locked s →
  match map_find text_ltb name (name_vert_map_ (so_data s)) with
  | Some v => add_node new_addr name s = Ok ((false, v), s)
  | None =>
      ∃ v s', add_node new_addr name s = Ok ((true, v), s') ∧ net_locked s' ∧ v ∉ vertices (G s) ∧
        (∀ x, vp (G s') x = if decide (x = v) then Some (named name vprops_default) else vp (G s) x) ∧
        g_edges (G s') = g_edges (G s) ∧ name_edge_map_ (so_data s') = name_edge_map_ (so_data s)
  end.
Proof.
  intros [N Hw]. unfold add_node. rewrite (st_bind_Ok _ _ _ _ _ (net_get_node_Ok s name)).
  destruct (map_find text_ltb name (name_vert_map_ (so_data s))) as [v|] eqn:F; [done|].
  rewrite st_bind_eq. cbn [so_get]. pose proof (add_vertex_Ok _ (no_graph _ N)) as A.
  destruct (add_vertex new_addr (G s)) as [v g1] eqn:Ea. destruct A as (Hf & G1 & V1 & E1).
  rewrite st_bind_eq. cbn [so_put].
  unfold on_names. rewrite st_bind_eq. rewrite st_bind_eq. cbn [so_get so_put].
  assert (Hv : v ∈ vertices g1) by (unfold vertices; rewrite V1, fmap_app; set_solver).
  destruct (put_vprop_Ok g1 v (named name) G1 Hv) as (g2 & P2 & G2 & V2 & E2 & X2).
  graph_step P2.
  rewrite st_bind_eq.
  changed_step Hw o Hb.
  assert (HV : ∀ x, vp g2 x = if decide (x = v) then Some (named name vprops_default) else vp (G s) x).
  { intros x. rewrite X2. destruct g1 as [gv ge]. cbn in V1, E1. subst. rewrite vp_app by (done || apply N).
    by case_decide. }
  exists v. eexists. split; [reflexivity|]. split_and!; [|done..|cbn; congruence|done].
  split; [|cbn; by rewrite (bumped_writing _ _ _ Hb)]. cbn. unfold map_insert. rewrite F.
  split; cbn; [done|apply (map_set_sorted text_ltb), N|]. intros n x. destruct (decide (name = n)) as [<-|Hn].
  - rewrite (map_find_set_eq text_ltb) by apply N. setoid_rewrite HV. split.
    + intros [= <-]. rewrite decide_True by done. eauto.
    + intros (q & Hq & E). case_decide; [congruence|]. exfalso.
      assert (map_find text_ltb name (name_vert_map_ (so_data s)) = Some x) by (apply N; eauto). congruence.
  - rewrite (map_find_set_ne text_ltb) by (done || apply N). rewrite (no_names _ N). setoid_rewrite HV. split.
    + intros (q & Hq & E). exists q. split; [|done]. rewrite decide_False; [done|]. intros ->.
      apply Hf. apply dec_stable. rewrite <- vp_None. congruence.
    + intros (q & Hq & E). case_decide; [|eauto]. injection Hq as <-. done.
Qed.

(** What renaming does, whoever has the name: an entry of the name in the map stays. *)
Lemma set_name_runs s v p name : net_locked s → vp (G s) v = Some p →
  ∃ s', set_name v name s = Ok (tt, s') ∧ writing_ (so_object s') = true ∧ graph_ok (G s') ∧
    name_vert_map_ (so_data s') = map_insert text_ltb name v (map_erase text_ltb (v_name p) (name_vert_map_ (so_data s))) ∧
    (∀ x, vp (G s') x = if decide (x = v) then Some (named name p) else vp (G s) x) ∧
    g_edges (G s') = g_edges (G s).
Proof.
  intros [N Hw] Hp. unfold set_name. rewrite (st_bind_Ok _ _ _ _ _ (get_name_Ok _ _ _ Hp)).
  unfold on_names. rewrite st_bind_eq. rewrite st_bind_eq. cbn [so_get so_put].
  assert (Hv : v ∈ vertices (G s)) by (apply dec_stable; rewrite <- vp_None; congruence).
  destruct (put_vprop_Ok (G s) v (named name) (no_graph _ N) Hv) as (g2 & P2 & G2 & V2 & E2 & X2).
  graph_step P2.
  rewrite st_bind_eq. rewrite st_bind_eq. cbn [so_get so_put].
  changed_step Hw o Hb. eexists. split; [reflexivity|].
  split_and!; [cbn; by rewrite (bumped_writing _ _ _ Hb)|done|done| |done].
  intros x. cbn. rewrite X2. case_decide; [|done]. subst. by rewrite Hp.
Qed.

(** Renaming to a name that no other vertex has. *)
Lemma set_name_Ok s v p name : net_locked s → vp (G s) v = Some p →
  (∀ w, map_find text_ltb name (name_vert_map_ (so_data s)) = Some w → w = v) →
  ∃ s', set_name v name s = Ok (tt, s') ∧ net_locked s' ∧
    (∀ x, vp (G s') x = if decide (x = v) then Some (named name p) else vp (G s) x) ∧
    g_edges (G s') = g_edges (G s).
Proof.
  intros L Hp Hfree. destruct (set_name_runs s v p name L Hp) as (s' & E1 & Hw' & G2 & HM & HV & HE). destruct L as [N _].
  exists s'. split_and!; [done| |done..]. split; [|done].
  set (m := map_erase text_ltb (v_name p) (name_vert_map_ (so_data s))).
  assert (Sm : map_sorted text_ltb m) by (apply (map_erase_sorted text_ltb), N).
  assert (Fm : map_find text_ltb name m = None).
  { destruct (decide (v_name p = name)) as [<-|Hne]; [apply (map_find_erase_eq text_ltb), N|].
    unfold m. rewrite (map_find_erase_ne text_ltb) by (done || apply N).
    destruct (map_find _ name _) as [w|] eqn:E; [|done]. pose proof (Hfree w eq_refl) as ->.
    apply (no_names _ N) in E as (q & Hq & <-). congruence. }
  fold m in HM. unfold map_insert in HM. rewrite Fm in HM. split; rewrite ?HM; [done|by apply (map_set_sorted text_ltb)|]. intros n x.
  destruct (decide (name = n)) as [<-|Hn].
  - rewrite (map_find_set_eq text_ltb) by done. setoid_rewrite HV. split.
    + intros [= <-]. rewrite decide_True by done. eauto.
    + intros (q & Hq & E). case_decide; [congruence|]. symmetry. f_equal. apply Hfree, N. eauto.
  - rewrite (map_find_set_ne text_ltb) by done. unfold m.
    setoid_rewrite HV. destruct (decide (v_name p = n)) as [<-|Hn'].
    + rewrite (map_find_erase_eq text_ltb) by apply N. split; [done|]. intros (q & Hq & E).
      case_decide as Hx; [injection Hq as <-; done|]. destruct Hx. symmetry. by eapply names_inj.
    + rewrite (map_find_erase_ne text_ltb) by (done || apply N). rewrite (no_names _ N).
      split; intros (q & Hq & E).
      * exists q. split; [|done]. rewrite decide_False; [done|]. intros ->. congruence.
      * case_decide; [|eauto]. injection Hq as <-. done.
Qed.

(** Renaming to the name of another vertex: two vertices have the name and the map knows
    the other one. *)
Lemma set_name_clash s v p name w : net_locked s → vp (G s) v = Some p →
  map_find text_ltb name (name_vert_map_ (so_data s)) = Some w → w ≠ v →
  ∃ s', set_name v name s = Ok (tt, s') ∧ ¬ net_locked s' ∧ map_find text_ltb name (name_vert_map_ (so_data s')) = Some w ∧
    (∀ x, vp (G s') x = if decide (x = v) then Some (named name p) else vp (G s) x) ∧
    g_edges (G s') = g_edges (G s).
Proof.
  intros L Hp Hf Hne. destruct (set_name_runs s v p name L Hp) as (s' & E1 & _ & _ & HM & HV & HE). destruct L as [N _].
  assert (Hpn : v_name p ≠ name).
  { intros E. apply (no_names _ N) in Hf as (q & Hq & Eq). apply Hne. eapply names_inj; [exact N|exact Hq|exact Hp|congruence]. }
  assert (HF : map_find text_ltb name (name_vert_map_ (so_data s')) = Some w).
  { assert (Hm : map_find text_ltb name (map_erase text_ltb (v_name p) (name_vert_map_ (so_data s))) = Some w)
      by (rewrite (map_find_erase_ne text_ltb) by (done || apply N); done).
    rewrite HM. unfold map_insert. by rewrite Hm. }
  exists s'. split_and!; [done| |done..]. intros [N' _].
  assert (map_find text_ltb name (name_vert_map_ (so_data s')) = Some v); [|congruence].
  apply (no_names _ N'). exists (named name p). split; [|done]. change (vp (G s') v = Some (named name p)). by rewrite HV, decide_True.
Qed.

(** ** Edges *)
Lemma add_edge_Ok s src dst : net_locked s → src ∈ vertices (G s) → dst ∈ vertices (G s) →
  match ep (G s) src dst with
  | Some _ => add_edge new_addr src dst s = Ok (None, s)
  | None =>
      ∃ e s', add_edge new_addr src dst s = Ok (Some e, s') ∧ net_locked s' ∧
        e ∈ edges (G s') ∧ e_src e = src ∧ e_dst e = dst ∧
        (∀ x, vp (G s') x = vp (G s) x) ∧
        ∀ x y, ep (G s') x y = if decide (x = src ∧ y = dst) then Some (MkEProps [] dzero done_) else ep (G s) x y
  end.
Proof.
  intros [N Hw] Hs Hd. unfold add_edge. rewrite st_bind_eq. cbn [so_get]. rewrite st_lift_bind.
  destruct (graph_add_edge_Ok (G s) src dst (no_graph _ N) Hs Hd)
    as (e & g1 & E1 & G1 & V1 & I1 & S1 & D1 & M1 & Q1 & X1).
  rewrite E1. rewrite st_bind_eq. cbn [so_put]. destruct (ep (G s) src dst) eqn:Es.
  - rewrite bool_decide_eq_false_2 by done. cbn. rewrite Q1 by done. by destruct s as [? []].
  - rewrite bool_decide_eq_true_2 by done. cbn [negb].
    set (s0 := MkServer (so_object s) (with_graph g1 (so_data s))).
    destruct (set_both_Ok s0 e dzero done_ Hw G1 I1)
      as (g2 & s1 & s2 & T1 & T2 & W1 & _ & _ & _ & _ & [W2 R2] & G2 & V2 & E2 & X2).
    rewrite (st_bind_Ok _ _ _ _ _ T1), (st_bind_Ok _ _ _ _ _ T2). rewrite st_bind_eq.
    changed_step W2 o Hb.
    assert (HV : ∀ x, vp g2 x = vp (G s) x) by (intros x; apply vp_g_vertices; by rewrite V2).
    exists e. eexists. split; [reflexivity|]. cbn [so_data]. rewrite R2. cbn [graph_ with_graph]. split_and!.
    + split; [|cbn; by rewrite (bumped_writing _ _ _ Hb)]. cbn. by apply (net_ok_regraph (so_data s)).
    + by rewrite E2.
    + done.
    + done.
    + done.
    + intros x y. rewrite X2, S1, D1. cbn [s0 so_data graph_ with_graph]. rewrite X1.
      case_decide as Hxy; [|done]. destruct Hxy as [-> ->]. by rewrite Es.
Qed.

Lemma remove_edge_Ok s e : net_ok (so_data s) → e ∈ edges (G s) →
  ∃ s', remove_edge e s = Ok (tt, s') ∧ so_object s' = so_object s ∧ net_ok (so_data s') ∧
    (∀ x, vp (G s') x = vp (G s) x) ∧ name_edge_map_ (so_data s') = name_edge_map_ (so_data s) ∧
    e ∉ edges (G s') ∧
    ∀ x y, ep (G s') x y = if decide (x = e_src e ∧ y = e_dst e) then None else ep (G s) x y.
Proof.
  intros N He. unfold remove_edge. set (g' := MkNetGraph (g_vertices (G s)) (filter (λ r, fst r ≠ e) (g_edges (G s)))).
  assert (P : graph_remove_edge e (G s) = Ok g') by (unfold graph_remove_edge; by rewrite decide_True).
  rewrite (on_graph_Ok _ _ _ P). pose proof (no_graph _ N) as Gok.
  assert (ME : ∀ e' p, (e', p) ∈ g_edges g' ↔ (e', p) ∈ g_edges (G s) ∧ e' ≠ e).
  { intros e' p. unfold g'. cbn. rewrite list_elem_of_filter. cbn. tauto. }
  assert (G' : graph_ok g').
  { split.
    - apply Gok.
    - rewrite edges_key. pose proof (go_props _ Gok) as X. rewrite edges_key in X.
      eapply sublist_NoDup; [exact X|]. apply fmap_sublist, sublist_filter.
    - rewrite edges_key. pose proof (go_pairs _ Gok) as X. rewrite edges_key in X.
      eapply sublist_NoDup; [exact X|]. apply fmap_sublist, sublist_filter.
    - intros e' [p [H1 H2]%ME]%elem_edges. apply (go_ends _ Gok), elem_edges. eauto. }
  eexists. split; [reflexivity|]. split_and!; [done|by apply net_ok_regraph|done..| |].
  - intros [p [_ ?]%ME]%elem_edges. done.
  - intros x y. cbn [so_data graph_ with_graph]. apply option_eq. intros p. rewrite ep_Some by done.
    setoid_rewrite ME. pose proof He as [q Hq]%elem_edges. case_decide as Hxy.
    + destruct Hxy as [-> ->]. split; [|done]. intros (e' & [H1 H2] & E1 & E2).
      by destruct (edge_unique _ e' e p q Gok H1 Hq E1 E2).
    + rewrite ep_Some by done. naive_solver.
Qed.

(** ** [aggregate_node] *)
Lemma remove_nodes_Ok s vs : net_locked s → NoDup vs → (∀ v, v ∈ vs → v ∈ vertices (G s)) →
  ∃ s', st_iter remove_node vs s = Ok (tt, s') ∧ net_locked s' ∧
    (∀ x, vp (G s') x = if decide (x ∈ vs) then None else vp (G s) x) ∧
    (∀ x y, ep (G s') x y = if decide (x ∈ vs ∨ y ∈ vs) then None else ep (G s) x y).
Proof.
  intros L HN HV.
  set (P := λ (dn : list NetVertex) (s' : NetState (M := M)), net_locked s' ∧
    (∀ x, vp (G s') x = if decide (x ∈ dn) then None else vp (G s) x) ∧
    (∀ x y, ep (G s') x y = if decide (x ∈ dn ∨ y ∈ dn) then None else ep (G s) x y)).
  apply (st_iter_inv P).
  - split; [done|]. split.
    + intros x. by rewrite decide_False by set_solver.
    + intros x y. by rewrite decide_False by set_solver.
  - intros dn v rest s1 El (L1 & V1 & E1).
    assert (Hnew : v ∉ dn).
    { rewrite El, NoDup_app in HN. destruct HN as (_ & HN & _). intros X. apply (HN _ X). left. }
    destruct (remove_node_Ok s1 v L1) as (s2 & R2 & L2 & V2 & E2 & _).
    { apply dec_stable. rewrite <- vp_None, V1, decide_False by done. rewrite vp_None. intros X.
      apply X, HV. rewrite El. set_solver. }
    exists s2. split; [done|]. split; [done|]. split.
    + intros x. rewrite V2, V1. repeat case_decide; set_solver.
    + intros x y. rewrite E2, E1. repeat case_decide; set_solver.
Qed.

(** The vertices [vs] become one vertex [res] with a new name. *)
Definition aggregated (g g' : NetGraph) (vs : list NetVertex) (res : NetVertex) (name : NetVertexName) : Prop :=
  (∀ x, vp g' x = if decide (x ∈ vs) then None
                  else if decide (x = res) then Some (named name vprops_default) else vp g x) ∧
  (∀ x y, ep g' x y =
     if decide (x ∈ vs ∨ y ∈ vs) then None
     else if decide (y = res) then edge_sum true g x vs
     else if decide (x = res) then edge_sum false g y vs
     else ep g x y).

Lemma edge_sum_ext d g g' x vs : g_edges g = g_edges g' → edge_sum d g x vs = edge_sum d g' x vs.
Proof. intros E. unfold edge_sum, epd, ep. by rewrite E. Qed.

Lemma aggregate_node_Ok s vs name : net_locked s → NoDup vs → length vs ≠ 1 →
  (∀ v, v ∈ vs → v ∈ vertices (G s)) →
  map_find text_ltb name (name_vert_map_ (so_data s)) = None →
  ∃ res s', aggregate_node new_addr vs name s = Ok ((true, res), s') ∧ net_locked s' ∧
    res ∉ vertices (G s) ∧ aggregated (G s) (G s') vs res name.
Proof.
  intros L HN Hlen HV Hn. pose proof (add_node_Ok s name L) as A. rewrite Hn in A.
  destruct A as (res & s0 & R0 & L0 & Hf & V0 & E0 & _).
  assert (Hres : res ∈ vertices (G s0)).
  { apply dec_stable. rewrite <- vp_None, V0. by rewrite decide_True. }
  assert (Hr : res ∉ vs) by (intros X; by apply Hf, HV).
  assert (Hiso : ∀ d x, epd d (G s0) res x = None).
  { intros d x. assert (HE : ∀ a b, ep (G s0) a b = ep (G s) a b) by (intros; unfold ep; by rewrite E0).
    pose proof (no_graph _ (proj1 L)) as Gok. unfold epd. destruct d; rewrite HE; apply ep_None; try done;
      intros e He E1 E2; apply Hf; destruct (go_ends _ Gok e He); congruence. }
  destruct (aggregate_edges_Ok s0 vs res (proj2 L0) (no_graph _ (proj1 L0)) Hr Hres Hiso) as (s1 & R1 & I).
  assert (VV : ∀ x, vp (G s1) x = vp (G s0) x) by (intros; apply vp_g_vertices, I).
  assert (L1 : net_locked s1).
  { split; [|apply I]. rewrite (ai_data _ _ _ _ _ I). apply net_ok_regraph; [apply L0|apply I|done]. }
  destruct (remove_nodes_Ok s1 vs L1 HN) as (s2 & R2 & L2 & V2 & E2).
  { intros v Hv. apply dec_stable. rewrite <- vp_None, VV, V0. case_decide; [done|]. rewrite vp_None. auto. }
  exists res, s2. split_and!; [|done..|].
  - unfold aggregate_node. destruct vs as [|v [|w vs]]; [|done|];
      rewrite (st_bind_Ok _ _ _ _ _ R0); cbn [negb];
      by rewrite (st_bind_Ok _ _ _ _ _ R1), (st_bind_Ok _ _ _ _ _ R2).
  - split.
    + intros x. rewrite V2. case_decide; [done|]. by rewrite VV, V0.
    + intros x y. rewrite E2. case_decide as Hxy; [done|].
      destruct (decide (y = res)) as [->|Hy].
      { pose proof (ai_cur _ _ _ _ _ I true x) as C. cbn in C. rewrite C. unfold sums.
        rewrite decide_False by tauto. by apply edge_sum_ext. }
      destruct (decide (x = res)) as [->|Hx].
      { pose proof (ai_cur _ _ _ _ _ I false y) as C. cbn in C. rewrite C. unfold sums.
        rewrite decide_False by tauto. by apply edge_sum_ext. }
      rewrite (ai_rest _ _ _ _ _ I) by done. unfold ep. by rewrite E0.
Qed.
End spec.
