(* ===== verification/NetCopy.v ===== *)
(** * Copies of a network

    [NetState_copy] gives a network that is isomorphic to the original: its vertices and
    edges are new, a renaming of the vertices carries over their properties, the edges and
    the index of names. *)
From S2P Require Import Prelude StdMap Double IpAddr Pid Locking ServerObject PidAggregation.
From S2P Require Import NetState NetStateSpec.

(** [f] renames the vertices of [g] to those of [g']. *)
Record graph_iso (f : NetVertex → NetVertex) (g g' : NetGraph) : Prop := {
  gi_ok : graph_ok g';
  gi_vertices : vertices g' = f <$> vertices g;
  gi_inj v w : v ∈ vertices g → w ∈ vertices g → f v = f w → v = w;
  gi_vp v : v ∈ vertices g → vp g' (f v) = vp g v;
  gi_ep x y : x ∈ vertices g → y ∈ vertices g → ep g' (f x) (f y) = ep g x y
}.

Section copy.
Variable new_addr : list positive → positive.
Hypothesis new_addr_fresh : ∀ l, new_addr l ∉ l.

(** ** The vertices *)
Lemma renamed_elem ren v v' : NoDup ren.*1 → (v, v') ∈ ren → renamed ren v = v'.
Proof.
  intros HN Hin. unfold renamed. destruct (list_find (λ p, fst p = v) ren) as [[i [u u']]|] eqn:F; cbn.
  - apply list_find_Some in F as (F1 & F2 & _). cbn in F2. subst u. apply list_elem_of_lookup_2 in F1.
    pose proof (keyed_unique id ren _ _ HN F1 Hin eq_refl) as [= ->]. done.
  - apply list_find_None in F. rewrite Forall_forall in F. by destruct (F _ Hin).
Qed.

Definition copy_vertex : NetGraph * list (NetVertex * NetVertex) → NetVertex * vprops → NetGraph * list (NetVertex * NetVertex) :=
  λ '(g', ren) '(v, p), let v' := new_addr (vertices g') in
    (MkNetGraph (g_vertices g' ++ [(v', p)]) (g_edges g'), ren ++ [(v, v')]).

Lemma copy_vertices_fold vs : ∀ g' ren, g_edges g' = [] → NoDup (vertices g') → vertices g' = ren.*2 →
  let r := fold_left copy_vertex vs (g', ren) in
  ∃ new, g_edges r.1 = [] ∧ NoDup (vertices r.1) ∧ vertices r.1 = r.2.*2 ∧ r.2 = ren ++ zip vs.*1 new ∧
    length new = length vs ∧ g_vertices r.1 = g_vertices g' ++ zip new vs.*2.
Proof.
  induction vs as [|[v p] vs IH]; intros g' ren HE HN HR.
  { exists []. cbn. by rewrite !app_nil_r. }
  cbn [fold_left copy_vertex]. set (v' := new_addr (vertices g')).
  destruct (IH (MkNetGraph (g_vertices g' ++ [(v', p)]) (g_edges g')) (ren ++ [(v, v')])) as (new & H1 & H2 & H3 & H4 & H5 & H6).
  { done. }
  { unfold vertices. cbn. rewrite fmap_app. apply NoDup_app. split_and!; [done| |apply NoDup_singleton].
    intros x Hx Ex%list_elem_of_singleton. cbn in Ex. subst x. by apply (new_addr_fresh (vertices g')). }
  { unfold vertices in *. cbn. by rewrite !fmap_app, HR. }
  exists (v' :: new). split_and!; [done..| | |].
  - rewrite H4. cbn. by rewrite <- app_assoc.
  - cbn. by rewrite H5.
  - rewrite H6. cbn. by rewrite <- app_assoc.
Qed.

Lemma copy_vertices_Ok g : NoDup (vertices g) →
  let '(g0, ren) := copy_vertices new_addr g in let f := renamed ren in
  g_edges g0 = [] ∧ NoDup (vertices g0) ∧ g_vertices g0 = prod_map f id <$> g_vertices g ∧
  ∀ v w, v ∈ vertices g → w ∈ vertices g → f v = f w → v = w.
Proof.
  intros HN. pose proof (copy_vertices_fold (g_vertices g) (MkNetGraph [] []) [] eq_refl) as X.
  destruct X as (new & H1 & H2 & H3 & H4 & H5 & H6); [constructor|done|].
  change (fold_left copy_vertex (g_vertices g) (MkNetGraph [] [], [])) with (copy_vertices new_addr g) in *.
  destruct (copy_vertices new_addr g) as [g0 ren]. cbn [fst snd app g_vertices] in *.
  assert (Hren : ren.*1 = vertices g).
  { rewrite H4, fst_zip; [done|]. rewrite H5. unfold vertices. by rewrite !length_fmap. }
  assert (Hat : ∀ i v p, g_vertices g !! i = Some (v, p) → ∃ v', new !! i = Some v' ∧ renamed ren v = v').
  { intros i v p Hi. destruct (lookup_lt_is_Some_2 new i) as [v' Hv']; [rewrite H5; by eapply lookup_lt_Some|].
    exists v'. split; [done|]. apply renamed_elem; [by rewrite Hren|]. rewrite H4. apply list_elem_of_lookup_2 with i.
    apply lookup_zip_with_Some. exists v, v'. split_and!; [done| |done]. by rewrite list_lookup_fmap, Hi. }
  assert (Hgv : g_vertices g0 = prod_map (renamed ren) id <$> g_vertices g).
  { rewrite H6. apply list_eq. intros i. rewrite list_lookup_fmap. destruct (g_vertices g !! i) as [[v p]|] eqn:E; cbn.
    - destruct (Hat i v p E) as (v' & E1 & E2). apply lookup_zip_with_Some. exists v', p.
      split_and!; [by rewrite E2|done|]. by rewrite list_lookup_fmap, E.
    - apply lookup_ge_None. apply lookup_ge_None in E. rewrite length_zip_with. lia. }
  split_and!; [done..|]. intros v w Hv Hw Ef.
  assert (HV : vertices g0 = renamed ren <$> vertices g).
  { unfold vertices. rewrite Hgv, <- !list_fmap_compose. by apply list_fmap_ext. }
  rewrite HV in H2. apply list_elem_of_lookup in Hv as [i Hi], Hw as [j Hj].
  assert (i = j) as ->; [|congruence]. eapply NoDup_lookup; [exact H2|..]; by rewrite list_lookup_fmap, ?Hi, ?Hj; cbn; rewrite ?Ef.
Qed.

(** ** The edges *)
Definition copy_edge_to (f : NetVertex → NetVertex) : NetGraph → NetEdge * eprops → NetGraph :=
  λ g' '(e, p), let e' := MkNetEdge (f (e_src e)) (f (e_dst e)) (new_addr (e_prop <$> edges g')) in
    MkNetGraph (g_vertices g') (g_edges g' ++ [(e', p)]).

Definition ends (r : NetEdge * eprops) : NetVertex * NetVertex * eprops := (e_src r.1, e_dst r.1, r.2).

Lemma copy_edges_fold f es : ∀ g', NoDup (e_prop <$> edges g') →
  let g2 := fold_left (copy_edge_to f) es g' in
  g_vertices g2 = g_vertices g' ∧ NoDup (e_prop <$> edges g2) ∧
  ends <$> g_edges g2 = (ends <$> g_edges g') ++ (prod_map (prod_map f f) id ∘ ends <$> es).
Proof.
  induction es as [|[e p] es IH]; intros g' HN.
  { cbn. by rewrite app_nil_r. }
  cbn [fold_left copy_edge_to]. set (e' := MkNetEdge _ _ _).
  destruct (IH (MkNetGraph (g_vertices g') (g_edges g' ++ [(e', p)]))) as (H1 & H2 & H3).
  { unfold edges. cbn. rewrite !fmap_app. apply NoDup_app. split_and!; [done| |apply NoDup_singleton].
    intros x Hx Ex%list_elem_of_singleton. cbn in Ex. subst x. by apply (new_addr_fresh (e_prop <$> edges g')). }
  split_and!; [done..|]. rewrite H3. cbn [g_edges]. rewrite fmap_app, <- app_assoc. done.
Qed.

Lemma edges_ends {A} (h : NetVertex * NetVertex → A) g : (λ e, h (e_src e, e_dst e)) <$> edges g = h ∘ fst <$> (ends <$> g_edges g).
Proof. unfold edges. by rewrite <- !list_fmap_compose. Qed.

Lemma ep_ends g x y p : graph_ok g → ep g x y = Some p ↔ (x, y, p) ∈ ends <$> g_edges g.
Proof.
  intros Gok. rewrite ep_Some by done. rewrite list_elem_of_fmap. split.
  - intros (e & H1 & <- & <-). by exists (e, p).
  - intros ([e p'] & [= -> -> ->] & H1). eauto.
Qed.

Lemma copy_graph_iso g : graph_ok g → ∃ f, graph_iso f g (copy_graph new_addr g).
Proof.
  intros Gok. pose proof (copy_vertices_Ok g (go_vertices _ Gok)) as X. unfold copy_graph.
  destruct (copy_vertices new_addr g) as [g0 ren]. destruct X as (E0 & N0 & V0 & Inj). set (f := renamed ren) in *.
  destruct (copy_edges_fold f (g_edges g) g0) as (H1 & H2 & H3).
  { unfold edges. rewrite E0. constructor. }
  rewrite E0 in H3. cbn [fmap list_fmap app] in H3.
  change (fold_left _ (g_edges g) g0) with (fold_left (copy_edge_to f) (g_edges g) g0).
  set (g2 := fold_left (copy_edge_to f) (g_edges g) g0) in *. exists f.
  assert (HV : vertices g2 = f <$> vertices g).
  { unfold vertices. rewrite H1, V0, <- !list_fmap_compose. by apply list_fmap_ext. }
  assert (Hend : ∀ e, e ∈ edges g2 → ∃ e0, e0 ∈ edges g ∧ e_src e = f (e_src e0) ∧ e_dst e = f (e_dst e0)).
  { intros e [p He]%elem_edges. assert (Hin : ends (e, p) ∈ ends <$> g_edges g2) by by apply list_elem_of_fmap_2.
    rewrite H3 in Hin. apply list_elem_of_fmap in Hin as ([e0 p0] & [= -> -> ->] & H0). exists e0.
    split_and!; [apply elem_edges; eauto|done..]. }
  assert (Gok2 : graph_ok g2).
  { split.
    - unfold vertices. by rewrite H1.
    - done.
    - rewrite (edges_ends id), H3, <- list_fmap_compose.
      pose proof (go_pairs _ Gok) as HN. rewrite (edges_ends id), <- list_fmap_compose in HN.
      revert HN. assert (HE : ∀ r, r ∈ g_edges g → e_src r.1 ∈ vertices g ∧ e_dst r.1 ∈ vertices g).
      { intros [e p] He. apply (go_ends _ Gok). apply elem_edges. eauto. }
      intros HN. rewrite NoDup_alt in HN. apply NoDup_alt. intros i j x Hi Hj.
      rewrite list_lookup_fmap in Hi, Hj. apply fmap_Some in Hi as (r1 & R1 & Ex1), Hj as (r2 & R2 & Ex2).
      apply (HN i j (e_src r1.1, e_dst r1.1)); rewrite list_lookup_fmap, ?R1, ?R2; [done|]. cbn.
      destruct (HE r1) as [A1 A2], (HE r2) as [B1 B2]; [by eapply list_elem_of_lookup_2..|].
      rewrite Ex1 in Ex2. cbn in Ex2. injection Ex2 as X1 X2.
      by rewrite (Inj _ _ A1 B1 X1), (Inj _ _ A2 B2 X2).
    - intros e He. destruct (Hend e He) as (e0 & H0 & -> & ->). destruct (go_ends _ Gok e0 H0).
      rewrite HV. split; by apply list_elem_of_fmap_2. }
  split; [done..| |].
  - intros v Hv. apply option_eq. intros p. rewrite !vp_Some by done. rewrite H1, V0, list_elem_of_fmap. split.
    + intros ([v0 p0] & [= Ef ->] & H0). assert (v0 ∈ vertices g) by (apply elem_vertices; eauto).
      by rewrite (Inj v v0).
    + intros Hp. by exists (v, p).
  - intros x y Hx Hy. apply option_eq. intros p. rewrite !ep_ends by done. rewrite H3, list_elem_of_fmap.
    rewrite list_elem_of_fmap. split.
    + intros ([e0 p0] & [= X1 X2 ->] & H0). assert (He0 : e0 ∈ edges g) by (apply elem_edges; eauto).
      destruct (go_ends _ Gok e0 He0) as [A1 A2]. exists (e0, p0).
      split; [|done]. unfold ends. cbn. by rewrite (Inj _ _ Hx A1 X1), (Inj _ _ Hy A2 X2).
    + intros (r & E & Hr). exists r. split; [|done]. unfold compose. by rewrite <- E.
Qed.

(** ** The index of names *)
Lemma index_names_Ok (vs : list (NetVertex * vprops)) : ∀ m, map_sorted text_ltb m → NoDup (v_name ∘ snd <$> vs) →
  let m' := fold_left (λ m '(v, p), map_set text_ltb (v_name p) v m) vs m in
  map_sorted text_ltb m' ∧ ∀ n v, map_find text_ltb n m' = Some v ↔
    (∃ p, (v, p) ∈ vs ∧ v_name p = n) ∨ (n ∉ v_name ∘ snd <$> vs ∧ map_find text_ltb n m = Some v).
Proof.
  induction vs as [|[u p] vs IH]; intros m HS HN; [cbn; set_solver|]. cbn [fold_left].
  apply NoDup_cons in HN as [Hu HN]. cbn in Hu.
  destruct (IH (map_set text_ltb (v_name p) u m)) as [S1 F1]; [by apply (map_set_sorted text_ltb)|done|].
  split; [done|]. intros n v. rewrite F1, fmap_cons, not_elem_of_cons. cbn.
  destruct (decide (n = v_name p)) as [->|Hne].
  - rewrite (map_find_set_eq text_ltb) by done. split.
    + intros [(q & H1 & H2)|[_ [= <-]]]; left; [exists q|exists p]; set_solver.
    + intros [(q & [[= -> ->]|H1]%elem_of_cons & H2)|[[? _] _]]; [by right| |done].
      left. eauto.
  - rewrite (map_find_set_ne text_ltb) by done. split.
    + intros [(q & H1 & H2)|[H1 H2]]; [left; exists q; set_solver|right; naive_solver].
    + intros [(q & [[= -> ->]|H1]%elem_of_cons & H2)|[[_ H1] H2]]; [congruence|left; eauto|by right].
Qed.

Context {M : Type} `{SharedMutexLaws M}.
Implicit Types s : NetState (M := M).
Notation G s := (graph_ (so_data s)).
Notation names s := (name_vert_map_ (so_data s)).

(** A new object can be locked. *)
Lemma new_object_locks v0 : ∃ o, construct BlockWriteLock (LocalObject_new (M := M) v0) = Holds o ∧ writing_ o = true ∧
  exclusive_owned (mutex_ o) = false.
Proof.
  pose proof fresh_law as F. unfold owners in F. injection F as _ _ F.
  cbn. destruct (lock_shared fresh_mutex) as [m|] eqn:E; [|apply lock_shared_law in E; congruence].
  eexists. split_and!; [done..|]. cbn. apply lock_shared_owners in E. unfold owners in E. congruence.
Qed.

Record net_iso (f : NetVertex → NetVertex) s s' : Prop := {
  ni_ok : net_ok (so_data s');
  ni_graph : graph_iso f (G s) (G s');
  ni_names n : map_find text_ltb n (names s') = f <$> map_find text_ltb n (names s)
}.

Lemma names_nodup d : net_ok d → NoDup (v_name ∘ snd <$> g_vertices (graph_ d)).
Proof.
  intros N. pose proof (no_graph _ N) as Gok. pose proof (go_vertices _ Gok) as HN. rewrite NoDup_alt in HN.
  apply NoDup_alt. intros i j n. rewrite !list_lookup_fmap. intros ([v p] & Hi & En)%fmap_Some ([w q] & Hj & Em)%fmap_Some.
  cbn in *. apply (HN i j v); unfold vertices; rewrite list_lookup_fmap, ?Hi, ?Hj; [done|]. cbn. f_equal.
  apply (names_inj d w v q p); [done|apply vp_Some; [done|by eapply list_elem_of_lookup_2]..|congruence].
Qed.

Lemma so_changed_mutex {D} (s s' : Server M D) : so_changed s = Ok (tt, s') → mutex_ (so_object s') = mutex_ (so_object s).
Proof.
  unfold so_changed, changed. destruct (writing_ (so_object s)); [|done]. cbn [negb].
  by destruct (changed_fired_ (so_object s)); intros [= <-].
Qed.

(** [refresh_names] on a graph without names. *)
Lemma refresh_names_Ok s : writing_ (so_object s) = true → graph_ok (G s) → NoDup (v_name ∘ snd <$> g_vertices (G s)) →
  ∃ s', refresh_names s = Ok (tt, s') ∧ G s' = G s ∧ writing_ (so_object s') = true ∧
    mutex_ (so_object s') = mutex_ (so_object s) ∧ net_ok (so_data s').
Proof.
  intros Hw Gok HN. unfold refresh_names. rewrite st_bind_eq. cbn [so_get].
  set (m := fold_left _ (g_vertices (G s)) []).
  destruct (index_names_Ok (g_vertices (G s)) [] ltac:(constructor) HN) as [S1 F1]. fold m in S1, F1.
  set (em := fold_left (λ m '(e, p), map_set text_ltb (e_name p) e m) (g_edges (G s)) (name_edge_map_ (so_data s))).
  destruct (so_changed_Ok (MkServer (so_object s) (with_edge_names em (with_names m (so_data s)))) Hw) as (o & E & HB).
  exists (MkServer o (with_edge_names em (with_names m (so_data s)))). split; [exact E|]. cbn. split; [done|].
  rewrite (bumped_writing _ _ _ HB). split; [done|].
  split; [exact (so_changed_mutex _ _ E)|]. split; cbn; [done..|]. intros n v. rewrite F1. cbn.
  setoid_rewrite vp_Some; [|done]. naive_solver.
Qed.

Lemma NetState_copy_Ok v0 s : net_ok (so_data s) →
  ∃ f s', NetState_copy new_addr v0 s = Ok s' ∧ net_iso f s s' ∧ writing_ (so_object s') = false ∧
    exclusive_owned (mutex_ (so_object s')) = false.
Proof.
  intros N. destruct (copy_graph_iso (G s) (no_graph _ N)) as (f & I). unfold NetState_copy.
  destruct (new_object_locks v0) as (o1 & -> & Hw & Hx).
  assert (HV : g_vertices (copy_graph new_addr (G s)) = prod_map f id <$> g_vertices (G s)).
  { apply list_eq. intros i. rewrite list_lookup_fmap.
    pose proof (f_equal (.!! i) (gi_vertices _ _ _ I)) as Ei. unfold vertices in Ei. cbn beta in Ei. rewrite !list_lookup_fmap in Ei.
    destruct (g_vertices (G s) !! i) as [[v p]|] eqn:E1, (g_vertices (copy_graph new_addr (G s)) !! i) as [[v' p']|] eqn:E2;
      cbn in Ei; try done. injection Ei as ->. cbn. do 2 f_equal.
    apply list_elem_of_lookup_2 in E1, E2. apply vp_Some in E2; [|apply I]. rewrite (gi_vp _ _ _ I) in E2.
    - apply (vp_Some (G s)) in E1; [congruence|apply N].
    - apply elem_vertices. eauto. }
  destruct (refresh_names_Ok (MkServer o1 (MkNetData (copy_graph new_addr (G s)) [] []))) as (s1 & E & EG & W & Em & N1); [done|apply I| |].
  { cbn. rewrite HV, <- list_fmap_compose. rewrite (list_fmap_ext _ (v_name ∘ snd)); [by apply names_nodup|].
    by intros ? [? ?] _. }
  rewrite E. cbn. unfold end_write. rewrite W. cbn. eexists f, _. split; [reflexivity|]. cbn in EG, Em. cbn.
  assert (HX : exclusive_owned (unlock_shared (mutex_ (so_object s1))) = false).
  { rewrite Em. pose proof (unlock_shared_owners (mutex_ o1)) as X. unfold owners in X. congruence. }
  split; [|done]. split; cbn; [done|by rewrite EG|]. intros n. apply option_eq. intros v.
  rewrite (no_names _ N1), fmap_Some. rewrite EG. setoid_rewrite (no_names _ N). split.
  - intros (p & Hp & Hn). assert (Hv : v ∈ vertices (copy_graph new_addr (G s))) by (apply dec_stable; rewrite <- vp_None; congruence).
    rewrite (gi_vertices _ _ _ I) in Hv. apply list_elem_of_fmap in Hv as (v0' & -> & Hv0). exists v0'. split; [|done].
    exists p. by rewrite <- (gi_vp _ _ _ I).
  - intros (w & (p & Hp & Hn) & ->). exists p. rewrite (gi_vp _ _ _ I); [done|]. apply dec_stable. rewrite <- vp_None. congruence.
Qed.
End copy.
