(* ===== verification/PidRouting.v ===== *)
(** * PID routing (common-server/src/lib/pid_routing.cpp, include/p4pserver/pid_routing.h)

    [PIDRouting] gives the routes between the PIDs of a view: static routes that were
    configured, or shortest paths of the network for the configured weights of links.

    An iterator of [static_routes_] is the address of its node; [static_route_ptrs_] finds
    the static routes through a PID.  Nodes of other objects that are alive are the
    parameter [others]: an iterator can be dereferenced when its node is in this object or
    in [others].  A [std::multimap] keeps equal keys in the order of insertion and [find]
    returns the first of them; the order in which an [unordered_set] is visited is the
    parameter [visit].  Boost's [dijkstra_shortest_paths] is a parameter.  The scratch
    vectors of the context, which are cleared before every use, are local.  The [default]
    cases of the switches, which no value of the enumeration reaches, are left out. *)
From S2P Require Import Prelude StdMap KeyOrder Double IpAddr Pid Locking ServerObject PidMatrix.
From S2P Require Import PidAggregation NetState.

(** ** Pinned PIDs (net_state.h) *)
Record PinnedPID := MkPinnedPID { pp_pid : PID; v_set_ : list NetVertex }.
#[global] Instance PinnedPID_eq_dec : EqDecision PinnedPID.
Proof. solve_decision. Defined.

(** The two constructors. *)
Definition PinnedPID_vertex (l : PID) (v : NetVertex) : PinnedPID := MkPinnedPID l [v].
Definition PinnedPID_set (l : PID) (vs : list NetVertex) : outcome PinnedPID :=
  match vs with
  | [] => Fault (Throw "PinnedPID constructed with empty vertex set")
  | _ => Ok (MkPinnedPID l vs)
  end.

(** [*v_set_.begin ()] *)
Definition get_vertex (p : PinnedPID) : outcome NetVertex := from_option_or UB (head (v_set_ p)).

(** [PinnedPIDSet]: the elements in the order of insertion, unique by their PID. *)
Definition PinnedPIDSet : Type := list PinnedPID.
Definition find_pinned (pid : PID) (s : PinnedPIDSet) : option PinnedPID :=
  snd <$> list_find (λ p, pp_pid p = pid) s.
Definition insert_pinned (p : PinnedPID) (s : PinnedPIDSet) : PinnedPIDSet :=
  match find_pinned (pp_pid p) s with Some _ => s | None => s ++ [p] end.

(** ** Data *)
Definition NamedRoute : Type := list PID.
Definition RouteEndpoints : Type := PID * PID.
Definition endpoints_ltb : RouteEndpoints → RouteEndpoints → bool := lex_ltb PID_ltb PID_ltb.
Definition route_itr := positive.
Definition StaticRouteMap : Type := list (route_itr * (RouteEndpoints * NamedRoute)).
Definition PIDStaticRouteMap : Type := list (PID * route_itr).
Definition PinnedRoute : Type := list PinnedPID.

Inductive RouteMode := RM_STATIC | RM_WEIGHTS.
#[global] Instance RouteMode_eq_dec : EqDecision RouteMode.
Proof. solve_decision. Defined.

Record RouteComputationContext := MkContext {
  result_ : list (PID * PinnedRoute);
  vert_indexes_ : gmap NetVertex nat;
  edge_weights_ : gmap positive double;
  vert_preds_ : gmap NetVertex NetVertex
}.
Definition context_new : RouteComputationContext := MkContext [] ∅ ∅ ∅.

(** [multimap::insert]: after the entries whose key is not larger. *)
Fixpoint mm_insert {K E} (ltb : K → K → bool) (key : E → K) (e : E) (m : list E) : list E :=
  match m with
  | [] => [e]
  | x :: m' => if ltb (key e) (key x) then e :: m else x :: mm_insert ltb key e m'
  end.

Definition route_key (n : route_itr * (RouteEndpoints * NamedRoute)) : RouteEndpoints := fst (snd n).
Definition route_named (n : route_itr * (RouteEndpoints * NamedRoute)) : NamedRoute := snd (snd n).

Section PIDRouting.
Context {M : Type} `{SharedMutex M}.
Variable new_addr : list positive → positive.
Variable visit : PinnedPIDSet → list PinnedPID.
Variable dijkstra_shortest_paths :
  NetGraph → NetVertex → gmap NetVertex nat → gmap positive double → outcome (gmap NetVertex NetVertex).
(** The nodes of the route maps of other objects. *)
Variable others : StaticRouteMap.

Record RoutingData := MkRouting {
  default_weight_ : double;
  route_mode_ : RouteMode;
  static_routes_ : StaticRouteMap;
  static_route_ptrs_ : PIDStaticRouteMap;
  weights_ : PIDMatrix (M := M)
}.
Definition PIDRouting : Type := Server M RoutingData.
Abbreviation R := (ST PIDRouting).

(** The constructor takes a write lock of the new matrix, which the destructor releases. *)
Definition PIDRouting_new (v0 vw : Z) (default_weight : double) : outcome PIDRouting :=
  match construct BlockWriteLock (LocalObject_new (M := M) vw) with
  | Holds o => Ok (MkServer (LocalObject_new v0)
                     (MkRouting default_weight RM_WEIGHTS [] [] (MkServer o PIDMatrix_empty)))
  | Throws e _ => Fault e
  | Waits => Fault Deadlock
  end.

Definition with_routes (rs : StaticRouteMap) (ps : PIDStaticRouteMap) (d : RoutingData) : RoutingData :=
  MkRouting (default_weight_ d) (route_mode_ d) rs ps (weights_ d).
Definition with_mode (m : RouteMode) (d : RoutingData) : RoutingData :=
  MkRouting (default_weight_ d) m (static_routes_ d) (static_route_ptrs_ d) (weights_ d).
Definition with_weights (w : PIDMatrix (M := M)) (d : RoutingData) : RoutingData :=
  MkRouting (default_weight_ d) (route_mode_ d) (static_routes_ d) (static_route_ptrs_ d) w.

(** Run an operation of the matrix of weights. *)
Definition on_weights {A} (m : ST (PIDMatrix (M := M)) A) : R A :=
  d ← so_get; '(a, w) ← st_lift (m (weights_ d)); so_put (with_weights w d);; mret a.

(** [*r_itr] *)
Definition deref (i : route_itr) (d : RoutingData) : outcome (RouteEndpoints * NamedRoute) :=
  from_option_or UB (snd ∘ snd <$> list_find (λ n, fst n = i) (static_routes_ d ++ others)).

(** ** Static routes *)
Definition static_range (src dst : PID) (m : StaticRouteMap) : StaticRouteMap :=
  filter (λ n, route_key n = (src, dst)) m.

Definition get_static_routes : R StaticRouteMap := d ← so_get; mret (static_routes_ d).
Definition get_static_routes_between (src dst : PID) : R StaticRouteMap :=
  d ← so_get; mret (static_range src dst (static_routes_ d)).
Definition get_static_route (src dst : PID) : R (option NamedRoute) :=
  d ← so_get; mret (route_named <$> head (static_range src dst (static_routes_ d))).
Definition get_num_static_routes : R nat := d ← so_get; mret (length (static_routes_ d)).
Definition get_route_mode : R RouteMode := d ← so_get; mret (route_mode_ d).

(** The loops of [add_static_route_ptrs] and [remove_static_route_ptrs] over the hops. *)
Definition add_ptrs (i : route_itr) (route : NamedRoute) (ps : PIDStaticRouteMap) : PIDStaticRouteMap :=
  fold_left (λ ps pid, mm_insert PID_ltb fst (pid, i) ps) route ps.
Definition remove_ptrs (i : route_itr) (route : NamedRoute) (ps : PIDStaticRouteMap) : PIDStaticRouteMap :=
  fold_left (λ ps pid, filter (λ p, p ≠ (pid, i)) ps) route ps.

Definition add_static_route_ptrs (i : route_itr) : R unit :=
  d ← so_get;
  if decide (route_mode_ d ≠ RM_STATIC) then mret tt
  else n ← st_lift (deref i d); so_put (with_routes (static_routes_ d) (add_ptrs i n.2 (static_route_ptrs_ d)) d).
Definition remove_static_route_ptrs (i : route_itr) : R unit :=
  d ← so_get;
  if decide (route_mode_ d ≠ RM_STATIC) then mret tt
  else n ← st_lift (deref i d); so_put (with_routes (static_routes_ d) (remove_ptrs i n.2 (static_route_ptrs_ d)) d).
Definition remove_static_route_ptrs_set (is_ : list route_itr) : R unit :=
  d ← so_get;
  if decide (route_mode_ d ≠ RM_STATIC) then mret tt else st_iter remove_static_route_ptrs is_.

(** [append_static_route_ptrs] with an empty set *)
Definition append_static_route_ptrs (pid : PID) : R (list route_itr) :=
  d ← so_get;
  if decide (route_mode_ d ≠ RM_STATIC) then mret []
  else mret (set_inserts Pos.ltb (snd <$> filter (λ p, fst p = pid) (static_route_ptrs_ d)) []).

Definition add_static_route (value : NamedRoute) : R bool :=
  d ← so_get;
  if decide (route_mode_ d ≠ RM_STATIC) then mret false
  else
    match value, last value with
    | front :: _ :: _, Some back =>
        let i := new_addr (fst <$> (static_routes_ d ++ others)) in
        so_put (with_routes (mm_insert endpoints_ltb route_key (i, ((front, back), value)) (static_routes_ d))
                  (static_route_ptrs_ d) d);;
        add_static_route_ptrs i;;
        so_changed;;
        mret true
    | _, _ => mret false
    end.

Definition remove_static_route (route : NamedRoute) : R bool :=
  match route, last route with
  | front :: _ :: _, Some back =>
      routes ← get_static_routes_between front back;
      match snd <$> list_find (λ n, route_named n = route) routes with
      | None => mret false
      | Some n =>
          remove_static_route_ptrs (fst n);;
          d ← so_get;
          so_put (with_routes (filter (λ n', fst n' ≠ fst n) (static_routes_ d)) (static_route_ptrs_ d) d);;
          so_changed;;
          mret true
      end
  | _, _ => mret false
  end.

Definition clear_static_routes : R bool :=
  d ← so_get;
  if decide (route_mode_ d ≠ RM_STATIC) then mret false
  else so_put (with_routes [] [] d);; so_changed;; mret true.

Definition set_route_mode (value : RouteMode) : R unit :=
  d ← so_get;
  if decide (route_mode_ d = value) then mret tt
  else so_put (with_mode value d);; clear_static_routes;; so_changed.

(** ** Weights *)
Definition set_weight (src dst : PID) (value : double) : R bool :=
  res ← on_weights (set_by_pid src dst value); so_report res.
Definition get_weight (src dst : PID) : R double :=
  d ← so_get; on_weights (get_by_pid src dst (default_weight_ d)).

Definition routing_add_pid (pid : PID) : R unit :=
  d ← so_get;
  match route_mode_ d with
  | RM_STATIC => mret tt
  | RM_WEIGHTS => on_weights (add_pid pid);; mret tt
  end;;
  so_changed.

Definition routing_remove_pid (pid : PID) : R unit :=
  d ← so_get;
  match route_mode_ d with
  | RM_STATIC =>
      invalidated ← append_static_route_ptrs pid;
      remove_static_route_ptrs_set invalidated
  | RM_WEIGHTS => on_weights (remove_pid pid);; mret tt
  end;;
  so_changed.

(** [do_copy_properties]: the copy, with new nodes, and this object, to whose index the
    iterators of the copy are added. *)
Definition copy_routes (m : StaticRouteMap) : StaticRouteMap :=
  fold_left (λ new n, new ++ [(new_addr (fst <$> (m ++ others ++ new)), snd n)]) m [].
Definition PIDRouting_copy (v0 vw : Z) (s : PIDRouting) : outcome (PIDRouting * PIDRouting) :=
  let d := so_data s in
  let w := PIDMatrix_copy vw (weights_ d) in
  match construct BlockWriteLock (so_object w) with
  | Holds o =>
      let routes := match route_mode_ d with RM_STATIC => copy_routes (static_routes_ d) | RM_WEIGHTS => [] end in
      let new_obj := MkServer (LocalObject_new v0)
                       (MkRouting (default_weight_ d) (route_mode_ d) routes [] (MkServer o (so_data w))) in
      let ps := fold_left (λ ps n, add_ptrs (fst n) (route_named n) ps) routes (static_route_ptrs_ d) in
      Ok (new_obj, MkServer (so_object s) (with_routes (static_routes_ d) ps d))
  | Throws e _ => Fault e
  | Waits => Fault Deadlock
  end.

(** ** Routes from a source to all PIDs *)
(** Read an object that is not changed. *)
Definition peek {S A} (m : ST S A) (s : S) : outcome A := '(a, _) ← m s; mret a.

(** The hops of a static route as pinned PIDs; [None] when one of them is not there. *)
Fixpoint pin_hops (pids : PinnedPIDSet) (route : NamedRoute) : option PinnedRoute :=
  match route with
  | [] => Some []
  | hop :: rest =>
      match find_pinned hop pids with
      | None => None
      | Some p => match pin_hops pids rest with None => None | Some r => Some (p :: r) end
      end
  end.

(** The loop over the destinations [dsts]: the result, and what is returned. *)
Fixpoint static_loop (routing : PIDRouting) (src : PID) (pids : PinnedPIDSet) (dsts : list PinnedPID)
    (res : list (PID * PinnedRoute)) : outcome (bool * list (PID * PinnedRoute)) :=
  match dsts with
  | [] => Ok (true, res)
  | dst :: dsts' =>
      route ← peek (get_static_route src (pp_pid dst)) routing;
      match route with
      | None => static_loop routing src pids dsts' res
      | Some route =>
          match pin_hops pids route with
          | None => Ok (false, res)
          | Some r => static_loop routing src pids dsts' (map_set PID_ltb (pp_pid dst) r res)
          end
      end
  end.
Definition with_result (res : list (PID * PinnedRoute)) (c : RouteComputationContext) : RouteComputationContext :=
  MkContext res (vert_indexes_ c) (edge_weights_ c) (vert_preds_ c).
Definition get_routes_static (routing : PIDRouting) (src : PinnedPID) (pids : PinnedPIDSet)
    (c : RouteComputationContext) : outcome (bool * RouteComputationContext) :=
  '(b, res) ← static_loop routing (pp_pid src) pids (visit pids) [];
  mret (b, with_result res c).

(** The context for a network: an index for every vertex, a weight for every edge. *)
Definition index_vertices (vs : list NetVertex) : gmap NetVertex nat :=
  list_to_map (zip vs (seq 0 (length vs))).
Definition edge_weight (routing : PIDRouting) (state : NetState (M := M)) (e : NetEdge)
    (ws : gmap positive double) : outcome (gmap positive double) :=
  p_src ← peek (get_pid (e_src e)) state;
  p_dst ← peek (get_pid (e_dst e)) state;
  w ← peek (get_weight p_src p_dst) routing;
  mret (<[e_prop e := w]> ws).
Definition fill_context (routing : PIDRouting) (state : NetState (M := M)) (c : RouteComputationContext)
  : outcome RouteComputationContext :=
  if decide (vert_indexes_ c ≠ ∅) then Ok c
  else
    ws ← ofold (edge_weight routing state) (edges (graph_ (so_data state))) (edge_weights_ c);
    mret (MkContext (result_ c) (index_vertices (vertices (graph_ (so_data state)))) ws (vert_preds_ c)).

(** [NetState::compute_shortest_paths] *)
Definition compute_shortest_paths (state : NetState (M := M)) (src : NetVertex) (idxs : gmap NetVertex nat)
    (preds : gmap NetVertex NetVertex) (weights : gmap positive double) : outcome (gmap NetVertex NetVertex) :=
  new ← dijkstra_shortest_paths (graph_ (so_data state)) src idxs weights; mret (new ∪ preds).

(** The loop that traces a route back from [v] to the source; [rev] is [route_reverse_]
    read backwards. *)
Fixpoint trace_back (fuel : nat) (state : NetState (M := M)) (preds : gmap NetVertex NetVertex) (src v : NetVertex)
    (rev : PinnedRoute) : outcome PinnedRoute :=
  if decide (v = src) then Ok rev
  else
    match fuel with
    | O => Fault NoFuel
    | S fuel =>
        v' ← from_option_or UB (preds !! v);
        p ← peek (get_pid v') state;
        trace_back fuel state preds src v' (PinnedPID_vertex p v' :: rev)
    end.

(** The body of the loop over the destinations. *)
Definition weights_step (state : NetState (M := M)) (src : NetVertex) (preds : gmap NetVertex NetVertex)
    (pid : PinnedPID) (res : list (PID * PinnedRoute)) : outcome (list (PID * PinnedRoute)) :=
  v_dst ← get_vertex pid;
  v ← from_option_or UB (preds !! v_dst);
  if decide (v = v_dst) then mret res
  else
    p ← peek (get_pid v) state;
    route ← trace_back (get_num_nodes state) state preds src v
              [PinnedPID_vertex p v; PinnedPID_vertex (pp_pid pid) v_dst];
    mret (map_set PID_ltb (pp_pid pid) route res).
Definition get_routes_weights (routing : PIDRouting) (src : PinnedPID) (state : NetState (M := M))
    (pids : PinnedPIDSet) (c : RouteComputationContext) : outcome (bool * RouteComputationContext) :=
  c ← fill_context routing state c;
  v_src ← get_vertex src;
  preds ← compute_shortest_paths state v_src (vert_indexes_ c) (vert_preds_ c) (edge_weights_ c);
  res ← ofold (weights_step state v_src preds) (visit pids) [];
  mret (true, MkContext res (vert_indexes_ c) (edge_weights_ c) preds).

Definition get_routes (routing : PIDRouting) (src : PinnedPID) (state : NetState (M := M)) (pids : PinnedPIDSet)
    (c : RouteComputationContext) : outcome (bool * RouteComputationContext) :=
  match route_mode_ (so_data routing) with
  | RM_STATIC => get_routes_static routing src pids c
  | RM_WEIGHTS => get_routes_weights routing src state pids c
  end.
End PIDRouting.
Arguments RoutingData M : clear implicits.
Arguments PIDRouting M : clear implicits.
