(* ===== verification/PidRoutingSpec.v ===== *)
(** * PID routing: invariants and specifications

    The static routes are a multiset of routes with an index by PID whose iterators never
    dangle; every operation changes the multiset as its specification says.  With weights,
    the routes are the paths of the tree of shortest paths. *)
From S2P Require Import Prelude StdMap KeyOrder Double IpAddr Pid Locking ServerObject PidMatrix.
From S2P Require Import PidAggregation NetState NetStateSpec PidRouting.

(** ** Multimaps *)
Section multimap.
Context {K E : Type} (ltb : K → K → bool) `{!StrictTotal ltb} (key : E → K).
Implicit Types m : list E.

Definition mm_sorted m : Prop := StronglySorted (λ a b, ltb (key b) (key a) = false) m.

Lemma mm_insert_perm e m : mm_insert ltb key e m ≡ₚ e :: m.
Proof. induction m as [|x m IH]; cbn; [done|]. destruct (ltb _ _); [done|]. rewrite IH. constructor. Qed.

Lemma mm_le_trans a b c : ltb b a = false → ltb c b = false → ltb c a = false.
Proof.
  intros H1 H2. destruct (ltb c a) eqn:E3; [|done]. destruct (ltb a b) eqn:E4.
  - by rewrite (lt_trans _ _ _ E3 E4) in H2.
  - rewrite (lt_total _ _ E4 H1) in E3. congruence.
Qed.

Lemma mm_insert_sorted e m : mm_sorted m → mm_sorted (mm_insert ltb key e m).
Proof.
  unfold mm_sorted. induction m as [|x m IH]; cbn; intros HS; [by repeat constructor|].
  apply StronglySorted_inv in HS as [HS HF]. destruct (ltb (key e) (key x)) eqn:E1.
  - constructor; [by constructor|]. constructor; [by apply (lt_asym ltb)|].
    eapply Forall_impl; [exact HF|]. cbn. intros y Hy. eapply mm_le_trans; [|exact Hy]. by apply (lt_asym ltb).
  - constructor; [auto|]. rewrite mm_insert_perm. by constructor.
Qed.

Lemma mm_filter_sorted (P : E → Prop) `{∀ x, Decision (P x)} m : mm_sorted m → mm_sorted (filter P m).
Proof.
  unfold mm_sorted. induction 1 as [|x m HS IH HF]; [constructor|]. rewrite filter_cons. case_decide; [|done].
  constructor; [done|]. rewrite Forall_forall in *. intros y [_ Hy]%list_elem_of_filter. auto.
Qed.

(** An insertion comes last in the range of its key. *)
Lemma mm_insert_range `{EqDecision K} e m k : mm_sorted m →
  filter (λ x, key x = k) (mm_insert ltb key e m) =
    filter (λ x, key x = k) m ++ (if decide (key e = k) then [e] else []).
Proof.
  unfold mm_sorted. induction m as [|x m IH]; cbn [mm_insert]; intros HS.
  { rewrite filter_cons, filter_nil. by case_decide. }
  apply StronglySorted_inv in HS as [HS HF]. destruct (ltb (key e) (key x)) eqn:E1.
  - rewrite (filter_cons _ e). destruct (decide (key e = k)) as [<-|]; [|by rewrite app_nil_r].
    assert (filter (λ y, key y = key e) (x :: m) = []) as ->; [|done].
    rewrite filter_cons. rewrite decide_False by (intros Hx; rewrite Hx, (lt_irrefl (key e)) in E1; done).
    clear -HF E1. induction HF as [|y m Hy HF IHm]; [done|]. rewrite filter_cons, decide_False; [done|].
    intros Hk. rewrite Hk in Hy. congruence.
  - rewrite !filter_cons, IH by done. by destruct (decide (key x = k)).
Qed.
End multimap.

(** Erasing the element of a key. *)
Lemma erase_key_perm {E K} `{EqDecision K} (key : E → K) l n : NoDup (key <$> l) → n ∈ l →
  l ≡ₚ n :: filter (λ x, key x ≠ key n) l.
Proof.
  induction l as [|x l IH]; [by intros _ ?%not_elem_of_nil|]. rewrite fmap_cons, NoDup_cons. intros [HN1 HN2].
  rewrite filter_cons. intros [->|Hn]%elem_of_cons.
  - rewrite decide_False by tauto. constructor. clear IH HN2.
    induction l as [|y l IH]; [done|]. rewrite filter_cons, decide_True by set_solver.
    constructor. apply IH. set_solver.
  - rewrite decide_True by (intros E1; apply HN1; rewrite E1; by apply list_elem_of_fmap_2).
    rewrite (IH HN2 Hn) at 1. constructor.
Qed.

(** ** Static routes *)
Section static.
Context {M : Type} `{SharedMutex M}.
Variable new_addr : list positive → positive.
Hypothesis new_addr_fresh : ∀ l, new_addr l ∉ l.
Implicit Types (s : PIDRouting M) (d : RoutingData M).

(** A route of at least two hops and its end points. *)
Definition route_ends (r : NamedRoute) (k : RouteEndpoints) : Prop :=
  2 ≤ length r ∧ head r = Some k.1 ∧ last r = Some k.2.

Record routing_ok d : Prop := {
  ro_nodes : NoDup (static_routes_ d).*1;
  ro_sorted : mm_sorted endpoints_ltb route_key (static_routes_ d);
  ro_ends n : n ∈ static_routes_ d → route_ends (route_named n) (route_key n);
  ro_ptrs p i : route_mode_ d = RM_STATIC → (p, i) ∈ static_route_ptrs_ d →
    ∃ n, n ∈ static_routes_ d ∧ n.1 = i ∧ p ∈ route_named n;
  ro_weights : matrix_locked (weights_ d)
}.
Definition routing_locked s : Prop := routing_ok (so_data s) ∧ writing_ (so_object s) = true.

(** The configured routes. *)
Definition routes_of d : list NamedRoute := route_named <$> static_routes_ d.

(** Every hop of every route is in the index. *)
Definition index_complete d : Prop :=
  ∀ n p, n ∈ static_routes_ d → p ∈ route_named n → (p, n.1) ∈ static_route_ptrs_ d.

Lemma add_ptrs_elem i r ps x : x ∈ add_ptrs i r ps ↔ x ∈ ps ∨ (x.2 = i ∧ x.1 ∈ r).
Proof.
  unfold add_ptrs. revert ps. induction r as [|p r IH]; intros ps; cbn [fold_left]; [set_solver|].
  rewrite IH, (mm_insert_perm PID_ltb fst). destruct x as [q j]. set_solver.
Qed.

Lemma remove_ptrs_elem i r ps x : x ∈ remove_ptrs i r ps ↔ x ∈ ps ∧ ¬ (x.2 = i ∧ x.1 ∈ r).
Proof.
  unfold remove_ptrs. revert ps. induction r as [|p r IH]; intros ps; cbn [fold_left]; [set_solver|].
  rewrite IH, list_elem_of_filter. destruct x as [q j]. set_solver.
Qed.

(** Own nodes can be dereferenced. *)
Lemma deref_own d n : routing_ok d → n ∈ static_routes_ d → deref [] n.1 d = Ok n.2.
Proof.
  intros O Hn. unfold deref. rewrite app_nil_r.
  pose proof (find_key_elem fst n.1 _ n (ro_nodes _ O) Hn eq_refl) as E.
  apply fmap_Some in E as ([k m] & E & Em). cbn in Em. subst m. by rewrite E.
Qed.

Lemma routing_put_changed s d' {A} (a : A) : routing_ok d' → writing_ (so_object s) = true →
  ∃ s', (so_put d';; so_changed;; mret a) s = Ok (a, s') ∧ routing_locked s' ∧ so_data s' = d' ∧
    bumped true (so_object s) (so_object s').
Proof.
  intros O Hw. rewrite st_bind_eq. cbn [so_put].
  destruct (so_changed_Ok (MkServer (so_object s) d') Hw) as (o & H1 & H2).
  rewrite (st_bind_Ok _ _ _ _ _ H1). eexists. split; [reflexivity|]. split_and!; [|done..].
  split; [done|]. cbn. by rewrite (bumped_writing _ _ _ H2).
Qed.

(** What the index becomes. *)
Lemma add_static_route_ptrs_Ok s n : routing_ok (so_data s) → n ∈ static_routes_ (so_data s) →
  route_mode_ (so_data s) = RM_STATIC →
  add_static_route_ptrs [] n.1 s =
    Ok (tt, MkServer (so_object s) (with_routes (static_routes_ (so_data s))
              (add_ptrs n.1 (route_named n) (static_route_ptrs_ (so_data s))) (so_data s))).
Proof.
  intros O Hn Hm. unfold add_static_route_ptrs. rewrite st_bind_eq. cbn [so_get].
  rewrite decide_False by (rewrite Hm; naive_solver). by rewrite st_lift_bind, (deref_own _ _ O Hn).
Qed.

Lemma remove_static_route_ptrs_Ok s n : routing_ok (so_data s) → n ∈ static_routes_ (so_data s) →
  remove_static_route_ptrs [] n.1 s =
    Ok (tt, MkServer (so_object s) (with_routes (static_routes_ (so_data s))
              (if decide (route_mode_ (so_data s) = RM_STATIC)
               then remove_ptrs n.1 (route_named n) (static_route_ptrs_ (so_data s))
               else static_route_ptrs_ (so_data s)) (so_data s))).
Proof.
  intros O Hn. unfold remove_static_route_ptrs. rewrite st_bind_eq. cbn [so_get].
  destruct (decide (route_mode_ (so_data s) = RM_STATIC)) as [Hm|Hm].
  - rewrite decide_False by tauto. by rewrite st_lift_bind, (deref_own _ _ O Hn).
  - rewrite decide_True by tauto. destruct s as [o [? ? ? ? ?]]. done.
Qed.

Lemma routing_ok_routes d rs ps : routing_ok d → NoDup rs.*1 → mm_sorted endpoints_ltb route_key rs →
  (∀ n, n ∈ rs → route_ends (route_named n) (route_key n)) →
  (∀ p i, route_mode_ d = RM_STATIC → (p, i) ∈ ps → ∃ n, n ∈ rs ∧ n.1 = i ∧ p ∈ route_named n) →
  routing_ok (with_routes rs ps d).
Proof. intros O H1 H2 H3 H4. split; cbn; [done..|apply O]. Qed.

(** ** The operations *)
Lemma add_static_route_Ok s r : routing_locked s →
  if decide (route_mode_ (so_data s) = RM_STATIC ∧ 2 ≤ length r) then
    ∃ s', add_static_route new_addr [] r s = Ok (true, s') ∧ routing_locked s' ∧
      route_mode_ (so_data s') = RM_STATIC ∧ weights_ (so_data s') = weights_ (so_data s) ∧
      routes_of (so_data s') ≡ₚ r :: routes_of (so_data s) ∧
      (∀ a b, static_range a b (static_routes_ (so_data s')) =
         static_range a b (static_routes_ (so_data s)) ++
         (if decide (head r = Some a ∧ last r = Some b)
          then [(new_addr (static_routes_ (so_data s)).*1, ((a, b), r))] else [])) ∧
      (index_complete (so_data s) → index_complete (so_data s')) ∧ bumped true (so_object s) (so_object s')
  else add_static_route new_addr [] r s = Ok (false, s).
Proof.
  intros [O Hw]. unfold add_static_route. rewrite st_bind_eq. cbn [so_get].
  destruct (decide (route_mode_ (so_data s) = RM_STATIC)) as [Hm|Hm].
  2: { rewrite (decide_False (P := _ ∧ _)) by tauto. by rewrite decide_True. }
  rewrite (decide_False (P := _ ≠ _)) by tauto.
  destruct (decide (2 ≤ length r)) as [Hl|Hl].
  2: { rewrite decide_False by tauto. destruct r as [|a [|b r']]; cbn in *; [done..|lia]. }
  rewrite decide_True by done. destruct r as [|a [|b r']]; [cbn in Hl; lia..|].
  destruct (last (a :: b :: r')) as [z|] eqn:Ez; [|by apply last_None in Ez].
  rewrite app_nil_r. set (r := a :: b :: r') in *. set (d := so_data s). set (i := new_addr (static_routes_ d).*1).
  set (n := (i, ((a, z), r))). set (rs := mm_insert endpoints_ltb route_key n (static_routes_ d)).
  pose proof (mm_insert_perm endpoints_ltb route_key n (static_routes_ d)) as HP. fold rs in HP.
  assert (Hin : n ∈ rs) by (rewrite HP; left).
  assert (O1 : routing_ok (with_routes rs (static_route_ptrs_ d) d)).
  { apply routing_ok_routes; [done|..].
    - rewrite HP. cbn. constructor; [apply new_addr_fresh|apply O].
    - apply (mm_insert_sorted endpoints_ltb route_key); apply O.
    - intros m. rewrite HP. intros [->|Hm']%elem_of_cons; [|by apply O]. split_and!; done.
    - intros p j _ Hp. destruct (ro_ptrs _ O p j Hm Hp) as (m & H1 & H2). exists m. by rewrite HP, elem_of_cons; auto. }
  rewrite st_bind_eq. cbn [so_put]. change i with n.1.
  rewrite (st_bind_Ok _ _ _ _ _ (add_static_route_ptrs_Ok (MkServer (so_object s) _) n O1 Hin Hm)). cbn [so_data so_object].
  set (d' := with_routes _ _ _).
  assert (O2 : routing_ok d').
  { apply routing_ok_routes; [apply O1..|]. intros p j _. rewrite add_ptrs_elem. cbn [static_route_ptrs_ with_routes].
    intros [Hp|[Hj Hp]]; cbn in *; [by apply (ro_ptrs _ O1)|]. exists n. by subst. }
  destruct (so_changed_Ok (MkServer (so_object s) d') Hw) as (o & H1 & H2).
  rewrite (st_bind_Ok _ _ _ _ _ H1). eexists. split; [reflexivity|].
  split; [split; [done|]; cbn; by rewrite (bumped_writing _ _ _ H2)|]. split_and!; [done..| | | |done].
  - unfold routes_of. cbn. by rewrite HP.
  - intros x y. change (static_routes_ (so_data (MkServer o (so_data (MkServer (so_object s) d'))))) with rs.
    unfold static_range, rs. etransitivity; [apply (mm_insert_range endpoints_ltb route_key), O|]. f_equal.
    unfold n, route_key. cbn [fst snd]. change (head r) with (Some a).
    case_decide as E1; case_decide as E2; [by destruct E2; simplify_eq| | |done].
    + destruct E2. split; congruence.
    + destruct E1. destruct E2. congruence.
  - intros IC m p Hm' Hp. change (m ∈ rs) in Hm'. rewrite HP in Hm'. apply add_ptrs_elem.
    apply elem_of_cons in Hm' as [->|Hm']; [by right|]. left. by apply IC.
Qed.

Lemma remove_static_route_Ok s r : routing_locked s →
  if decide (r ∈ routes_of (so_data s)) then
    ∃ s', remove_static_route [] r s = Ok (true, s') ∧ routing_locked s' ∧
      route_mode_ (so_data s') = route_mode_ (so_data s) ∧ weights_ (so_data s') = weights_ (so_data s) ∧
      routes_of (so_data s) ≡ₚ r :: routes_of (so_data s') ∧
      (index_complete (so_data s) → route_mode_ (so_data s) = RM_STATIC → index_complete (so_data s')) ∧
      bumped true (so_object s) (so_object s')
  else remove_static_route [] r s = Ok (false, s).
Proof.
  intros [O Hw]. set (d := so_data s) in *. unfold remove_static_route.
  destruct r as [|a [|b r']]; try (rewrite decide_False; [done|]; intros (n & E & Hn)%list_elem_of_fmap;
    destruct (ro_ends _ O n Hn) as [Hl _]; rewrite <- E in Hl; cbn in Hl; lia).
  destruct (last (a :: b :: r')) as [z|] eqn:Ez; [|by apply last_None in Ez].
  set (r := a :: b :: r') in *. unfold get_static_routes_between. rewrite !st_bind_eq. cbn [so_get mret st_ret].
  fold d. destruct (list_find _ _) as [[k n]|] eqn:F; cbn [fmap option_fmap option_map snd].
  2: { rewrite decide_False; [done|]. intros (n & E & Hn)%list_elem_of_fmap.
       apply list_find_None in F. rewrite Forall_forall in F. apply (F n); [|done].
       unfold static_range. apply list_elem_of_filter. split; [|done].
       destruct (ro_ends _ O n Hn) as (_ & H1 & H2). rewrite <- E, Ez in *. destruct (route_key n). cbn in *. congruence. }
  apply list_find_Some in F as (F & Er & _). apply list_elem_of_lookup_2 in F.
  unfold static_range in F. apply list_elem_of_filter in F as [_ Hn].
  rewrite decide_True by (unfold routes_of; rewrite <- Er; by apply list_elem_of_fmap_2).
  rewrite (st_bind_Ok _ _ _ _ _ (remove_static_route_ptrs_Ok s n O Hn)). rewrite st_bind_eq. cbn [so_get so_data static_routes_ with_routes].
  fold d. set (ps := if decide _ then _ else _). set (rs := filter _ _).
  assert (HP : static_routes_ d ≡ₚ n :: rs).
  { unfold rs. apply (erase_key_perm fst); [apply O|done]. }
  edestruct (routing_put_changed (MkServer (so_object s) (with_routes (static_routes_ d) ps d))
    (with_routes rs ps (with_routes (static_routes_ d) ps d)) true) as (s' & E & L & Hd & Hb); [|done|].
  { pose proof (ro_nodes _ O) as HN. fold d in HN. rewrite HP in HN. cbn in HN. apply NoDup_cons in HN as [HN1 HN2].
    split; cbn; [done|apply mm_filter_sorted, O| | |apply O].
    - intros m Hm. apply O. fold d. rewrite HP. by right.
    - intros p j Hm Hp. unfold ps in Hp. rewrite decide_True in Hp by done.
      apply remove_ptrs_elem in Hp as [Hp Hne]. cbn in Hne. destruct (ro_ptrs _ O p j Hm Hp) as (m & H1 & H2 & H3).
      fold d in H1. rewrite HP in H1. apply elem_of_cons in H1 as [->|H1]; [by destruct Hne|eauto]. }
  exists s'. split; [exact E|]. split; [done|]. rewrite Hd. split_and!; [done..| | |done].
  - unfold routes_of. cbn. etransitivity; [apply fmap_Permutation, HP|]. cbn. by rewrite Er.
  - intros IC Hm m p Hm' Hp. cbn in *. unfold ps. rewrite decide_True by done. apply remove_ptrs_elem. cbn.
    split; [apply IC; [|done]; rewrite HP; by right|]. intros [E1 _].
    pose proof (ro_nodes _ O) as HN. fold d in HN. rewrite HP in HN. cbn in HN. apply NoDup_cons in HN as [HN1 _].
    apply HN1. rewrite <- E1. by apply list_elem_of_fmap_2.
Qed.

Lemma clear_static_routes_Ok s : routing_locked s →
  if decide (route_mode_ (so_data s) = RM_STATIC) then
    ∃ s', clear_static_routes s = Ok (true, s') ∧ routing_locked s' ∧ so_data s' = with_routes [] [] (so_data s) ∧
      bumped true (so_object s) (so_object s')
  else clear_static_routes s = Ok (false, s).
Proof.
  intros [O Hw]. unfold clear_static_routes. rewrite st_bind_eq. cbn [so_get].
  destruct (decide (route_mode_ (so_data s) = RM_STATIC)) as [Hm|Hm];
    [rewrite decide_False by tauto|by rewrite decide_True].
  apply routing_put_changed; [|done]. split; cbn; [constructor..|set_solver|set_solver|apply O].
Qed.

Lemma set_route_mode_Ok s m : routing_locked s →
  ∃ s', set_route_mode m s = Ok (tt, s') ∧ routing_locked s' ∧ route_mode_ (so_data s') = m ∧
    weights_ (so_data s') = weights_ (so_data s) ∧
    (routes_of (so_data s') = if decide (m = RM_STATIC ∧ route_mode_ (so_data s) ≠ m) then [] else routes_of (so_data s)) ∧
    (index_complete (so_data s) → index_complete (so_data s')) ∧
    bumped (bool_decide (route_mode_ (so_data s) ≠ m)) (so_object s) (so_object s').
Proof.
  intros [O Hw]. unfold set_route_mode. rewrite st_bind_eq. cbn [so_get].
  destruct (decide (route_mode_ (so_data s) = m)) as [Hm|Hm].
  { exists s. rewrite bool_decide_false by tauto. rewrite decide_False by tauto. by split_and!. }
  rewrite bool_decide_true by done. rewrite st_bind_eq. cbn [so_put].
  set (s1 := MkServer (so_object s) (with_mode m (so_data s))).
  destruct (decide (m = RM_STATIC)) as [->|Hn].
  - unfold clear_static_routes. rewrite !st_bind_eq. cbn [so_get so_put so_data s1 with_mode route_mode_].
    rewrite decide_False by tauto. rewrite st_bind_eq. cbn [so_put so_object].
    set (d' := with_routes _ _ _).
    destruct (so_changed_Ok (MkServer (so_object s) d') Hw) as (o1 & H1 & B1). rewrite (st_bind_Ok _ _ _ _ _ H1).
    cbn [mret st_ret so_data so_object] in *. assert (Hw1 : writing_ o1 = true) by by rewrite (bumped_writing _ _ _ B1).
    destruct (so_changed_Ok (MkServer o1 d') Hw1) as (o2 & H2 & B2). rewrite H2. eexists. split; [reflexivity|].
    assert (O' : routing_ok d') by (split; cbn; [constructor..|set_solver|set_solver|apply O]).
    rewrite decide_True by done. split_and!; [|done..| |].
    + split; [done|]. cbn. by rewrite (bumped_writing _ _ _ B2).
    + intros _ n p Hin. cbn in Hin. set_solver.
    + apply (bumped_trans _ _ _ _ _ B1 B2).
  - assert (Hms : route_mode_ (so_data s1) ≠ RM_STATIC) by done.
    unfold clear_static_routes. rewrite !st_bind_eq. cbn [so_get]. rewrite decide_True by done. cbn [mret st_ret].
    destruct (so_changed_Ok s1 Hw) as (o & H1 & B1). rewrite H1. eexists. split; [reflexivity|].
    rewrite decide_False by tauto. split_and!; [|done..]. split; [|cbn; by rewrite (bumped_writing _ _ _ B1)].
    split; cbn; try apply O. intros p i E. by rewrite E in Hn.
Qed.

(** Removing the entries of routes from the index. *)
Lemma remove_ptrs_iter s is_ : routing_locked s → route_mode_ (so_data s) = RM_STATIC →
  (∀ i, i ∈ is_ → i ∈ (static_routes_ (so_data s)).*1) →
  ∃ s', st_iter (remove_static_route_ptrs []) is_ s = Ok (tt, s') ∧ routing_locked s' ∧ so_object s' = so_object s ∧
    ∃ ps, so_data s' = with_routes (static_routes_ (so_data s)) ps (so_data s) ∧
      ∀ x, x ∈ ps ↔ x ∈ static_route_ptrs_ (so_data s) ∧ x.2 ∉ is_.
Proof.
  intros [O Hw] Hm Hin.
  set (P := λ (dn : list route_itr) s', routing_locked s' ∧ so_object s' = so_object s ∧
    ∃ ps, so_data s' = with_routes (static_routes_ (so_data s)) ps (so_data s) ∧
      ∀ x, x ∈ ps ↔ x ∈ static_route_ptrs_ (so_data s) ∧ x.2 ∉ dn).
  apply (st_iter_inv P).
  - split_and!; [done..|]. exists (static_route_ptrs_ (so_data s)). split; [by destruct (so_data s)|]. set_solver.
  - intros dn i rest s1 El ([O1 Hw1] & Ho & ps & Hd & Hps).
    destruct (proj1 (list_elem_of_fmap _ _ _) (Hin i ltac:(rewrite El; set_solver))) as (n & -> & Hn).
    assert (Hn1 : n ∈ static_routes_ (so_data s1)) by by rewrite Hd.
    assert (Hm1 : route_mode_ (so_data s1) = RM_STATIC) by by rewrite Hd.
    eexists. split; [exact (remove_static_route_ptrs_Ok s1 n O1 Hn1)|]. rewrite decide_True by done.
    assert (Hrm : ∀ x, x ∈ remove_ptrs n.1 (route_named n) (static_route_ptrs_ (so_data s1)) ↔
                  x ∈ static_route_ptrs_ (so_data s) ∧ x.2 ∉ dn ++ [n.1]).
    { intros [p j]. rewrite remove_ptrs_elem, Hd. cbn. rewrite Hps. cbn. split; [|set_solver].
      intros [[H1 H2] H3]. split; [done|]. intros [?|E1%list_elem_of_singleton]%elem_of_app; [done|subst j].
      apply H3. split; [done|]. destruct (ro_ptrs _ O p n.1 Hm H1) as (n' & N1 & N2 & N3).
      pose proof (find_key_elem fst n.1 _ n (ro_nodes _ O) Hn eq_refl) as F1.
      rewrite (find_key_elem fst n.1 _ n' (ro_nodes _ O) N1 N2) in F1. by injection F1 as ->. }
    split_and!; [|done|].
    + split; [|done]. split; cbn; try apply O1. intros p j _ Hp. apply Hrm in Hp as [Hp _].
      rewrite Hd. by apply (ro_ptrs _ O).
    + eexists. split; [cbn [so_data]; by rewrite Hd|]. rewrite Hd in Hrm. exact Hrm.
Qed.

(** [remove_pid] with static routes: the PID leaves the index, the routes stay. *)
Lemma remove_pid_static_Ok s pid : routing_locked s → route_mode_ (so_data s) = RM_STATIC →
  ∃ s', routing_remove_pid [] pid s = Ok (tt, s') ∧ routing_locked s' ∧
    static_routes_ (so_data s') = static_routes_ (so_data s) ∧
    route_mode_ (so_data s') = RM_STATIC ∧ weights_ (so_data s') = weights_ (so_data s) ∧
    (∀ i, (pid, i) ∉ static_route_ptrs_ (so_data s')) ∧ bumped true (so_object s) (so_object s').
Proof.
  intros L Hm. unfold routing_remove_pid. rewrite st_bind_eq. cbn [so_get]. rewrite Hm.
  unfold append_static_route_ptrs. rewrite !st_bind_eq. cbn [so_get].
  rewrite decide_False by (rewrite Hm; tauto). cbn [mret st_ret].
  set (is_ := set_inserts Pos.ltb _ []).
  assert (His : ∀ i, i ∈ is_ ↔ (pid, i) ∈ static_route_ptrs_ (so_data s)).
  { intros i. unfold is_. rewrite (set_inserts_elem Pos.ltb), list_elem_of_fmap. split.
    - intros [([q j] & -> & [E1 Hq]%list_elem_of_filter)|?%not_elem_of_nil]; [|done]. cbn in *. by subst.
    - intros Hi. left. exists (pid, i). split; [done|]. by apply list_elem_of_filter. }
  unfold remove_static_route_ptrs_set. rewrite st_bind_eq. cbn [so_get].
  rewrite decide_False by (rewrite Hm; tauto).
  destruct (remove_ptrs_iter s is_ L Hm) as (s1 & R1 & [O1 Hw1] & Ho & ps & Hd & Hps).
  { intros i Hi. apply His in Hi. destruct (ro_ptrs _ (proj1 L) _ _ Hm Hi) as (n & N1 & N2 & _).
    rewrite <- N2. by apply list_elem_of_fmap_2. }
  rewrite R1. destruct (so_changed_Ok s1 Hw1) as (o & C1 & B1). rewrite C1. eexists. split; [reflexivity|].
  split; [split; [done|]; cbn; by rewrite (bumped_writing _ _ _ B1)|]. rewrite <- Ho.
  cbn [so_data so_object]. rewrite Hd. split_and!; [done..| |done].
  intros i Hi. cbn in Hi. apply Hps in Hi as [H1 H2]. by apply H2, His.
Qed.

(** The first configured route between two PIDs. *)
Lemma get_static_route_Ok s a b : routing_ok (so_data s) →
  ∃ r, get_static_route a b s = Ok (r, s) ∧
    match r with
    | Some r => r ∈ routes_of (so_data s) ∧ route_ends r (a, b)
    | None => ∀ r, r ∈ routes_of (so_data s) → ¬ route_ends r (a, b)
    end.
Proof.
  intros O. unfold get_static_route. rewrite st_bind_eq. cbn [so_get]. eexists. split; [reflexivity|].
  assert (HR : ∀ n, n ∈ static_range a b (static_routes_ (so_data s)) ↔
                 n ∈ static_routes_ (so_data s) ∧ route_key n = (a, b)).
  { intros n. unfold static_range. rewrite list_elem_of_filter. tauto. }
  destruct (static_range _ _ _) as [|n l] eqn:E; cbn [head fmap option_fmap option_map].
  - intros r (n & -> & Hn)%list_elem_of_fmap (_ & H1 & H2). apply (not_elem_of_nil n), HR. split; [done|].
    destruct (ro_ends _ O n Hn) as (_ & H3 & H4). destruct (route_key n). cbn in *. congruence.
  - destruct (proj1 (HR n)) as [Hn Hk]; [left|]. split; [by apply list_elem_of_fmap_2|]. rewrite <- Hk. by apply O.
Qed.

(** ** Weights *)
Lemma on_weights_Ok {A} (m : ST (PIDMatrix (M := M)) A) s a w : m (weights_ (so_data s)) = Ok (a, w) →
  on_weights m s = Ok (a, MkServer (so_object s) (with_weights w (so_data s))).
Proof. intros E. unfold on_weights. rewrite st_bind_eq. cbn [so_get]. by rewrite st_lift_bind, E. Qed.

Lemma routing_ok_weights d w : routing_ok d → matrix_locked w → routing_ok (with_weights w d).
Proof. intros O W. split; cbn; first [exact W|apply O]. Qed.

(** The weight of a link: the configured one, or the default. *)
Definition link_weight d (a b : PID) : double :=
  let w := cost (so_data (weights_ d)) a b in if isnan w then default_weight_ d else w.

Lemma with_weights_id d : with_weights (weights_ d) d = d.
Proof. by destruct d. Qed.

Lemma get_weight_Ok s a b : routing_ok (so_data s) →
  get_weight a b s = Ok (link_weight (so_data s) a b, s).
Proof.
  intros O. unfold get_weight. rewrite st_bind_eq. cbn [so_get].
  rewrite (on_weights_Ok _ _ _ _ (get_by_pid_Ok _ a b _ (proj1 (ro_weights _ O)))), with_weights_id. by destruct s.
Qed.

(** [set_weight], [add_pid] and [remove_pid] of the weights. *)
Definition reweighted s (w : PIDMatrix (M := M)) s' : Prop :=
  routing_locked s' ∧ so_data s' = with_weights w (so_data s) ∧ bumped true (so_object s) (so_object s').

Lemma reweighted_changed s w : routing_locked s → matrix_locked w →
  ∃ s', so_changed (MkServer (so_object s) (with_weights w (so_data s))) = Ok (tt, s') ∧ reweighted s w s'.
Proof.
  intros [O Hw] W. destruct (so_changed_Ok (MkServer (so_object s) (with_weights w (so_data s))) Hw) as (o & H1 & H2).
  eexists. split; [exact H1|]. split_and!; [|done..].
  split; [by apply routing_ok_weights|]. cbn. by rewrite (bumped_writing _ _ _ H2).
Qed.

Lemma set_weight_Ok s a b v : routing_locked s →
  let P := pids_of (pids_ (so_data (weights_ (so_data s)))) in
  if decide (a ∈ P ∧ b ∈ P) then
    ∃ s' w, set_weight a b v s = Ok (true, s') ∧ reweighted s w s' ∧
      pids_of (pids_ (so_data w)) = P ∧
      ∀ x y, cost (so_data w) x y = if decide (x = a ∧ y = b) then v else cost (so_data (weights_ (so_data s))) x y
  else set_weight a b v s = Ok (false, s).
Proof.
  intros L P. pose proof (set_by_pid_Ok _ a b v (ro_weights _ (proj1 L))) as X. cbn zeta in X. fold P in X.
  unfold set_weight. case_decide.
  - destruct X as (w & E & W & _ & HP & HC). rewrite (st_bind_Ok _ _ _ _ _ (on_weights_Ok _ _ _ _ E)).
    destruct (reweighted_changed s w L W) as (s' & E' & HR). exists s', w. split_and!; [|done..].
    unfold so_report. by rewrite (st_bind_Ok _ _ _ _ _ E').
  - rewrite (st_bind_Ok _ _ _ _ _ (on_weights_Ok _ _ _ _ X)), with_weights_id. by destruct s.
Qed.

Lemma remove_pid_weights_Ok s pid others : routing_locked s → route_mode_ (so_data s) = RM_WEIGHTS →
  ∃ s' w, routing_remove_pid others pid s = Ok (tt, s') ∧ reweighted s w s' ∧
    let P := pids_of (pids_ (so_data (weights_ (so_data s)))) in
    if decide (pid ∈ P) then resized (weights_ (so_data s)) (set_erase PID_ltb pid P) w
    else w = weights_ (so_data s).
Proof.
  intros L Hm. pose proof (remove_pid_Ok _ pid (ro_weights _ (proj1 L))) as X. cbn zeta in *.
  unfold routing_remove_pid. rewrite st_bind_eq. cbn [so_get]. rewrite Hm, st_bind_eq.
  case_decide as Hp.
  - destruct X as (w & E & HR). rewrite (st_bind_Ok _ _ _ _ _ (on_weights_Ok _ _ _ _ E)). cbn [mret st_ret].
    destruct (reweighted_changed s w L (proj1 HR)) as (s' & E' & HR').
    exists s', w. split_and!; [|done..]. exact E'.
  - rewrite (st_bind_Ok _ _ _ _ _ (on_weights_Ok _ _ _ _ X)). cbn [mret st_ret].
    destruct (reweighted_changed s _ L (ro_weights _ (proj1 L))) as (s' & E' & HR').
    exists s', (weights_ (so_data s)). split_and!; [|done..]. exact E'.
Qed.

Lemma add_pid_routing_Ok s pid : routing_locked s →
  ∃ s' w, routing_add_pid pid s = Ok (tt, s') ∧ reweighted s w s' ∧
    let P := pids_of (pids_ (so_data (weights_ (so_data s)))) in
    if decide (route_mode_ (so_data s) = RM_WEIGHTS ∧ pid ∉ P)
    then resized (weights_ (so_data s)) (set_insert PID_ltb pid P) w
    else w = weights_ (so_data s).
Proof.
  intros L. pose proof (add_pid_Ok _ pid (ro_weights _ (proj1 L))) as X. cbn zeta in *.
  assert (Hsame : ∃ s' w, so_changed s = Ok (tt, s') ∧ reweighted s w s' ∧ w = weights_ (so_data s)).
  { destruct (reweighted_changed s _ L (ro_weights _ (proj1 L))) as (s' & E' & HR').
    rewrite with_weights_id in E'. exists s', (weights_ (so_data s)). split_and!; [|done..]. by destruct s. }
  unfold routing_add_pid. rewrite st_bind_eq. cbn [so_get]. rewrite st_bind_eq.
  destruct (route_mode_ (so_data s)) eqn:Hm.
  { destruct Hsame as (s' & w & H1 & H2 & H3). exists s', w. by rewrite decide_False by naive_solver. }
  destruct (decide (pid ∈ pids_of (pids_ (so_data (weights_ (so_data s)))))) as [Hp|Hp].
  - rewrite (st_bind_Ok _ _ _ _ _ (on_weights_Ok _ _ _ _ X)), with_weights_id. cbn [mret st_ret].
    destruct Hsame as (s' & w & H1 & H2 & H3). exists s', w. rewrite decide_False by tauto. by destruct s.
  - destruct X as (w & E & HR). rewrite (st_bind_Ok _ _ _ _ _ (on_weights_Ok _ _ _ _ E)). cbn [mret st_ret].
    destruct (reweighted_changed s w L (proj1 HR)) as (s' & E' & HR').
    exists s', w. by rewrite decide_True.
Qed.
End static.

(** ** Shortest paths *)
Section paths.
Context (g : NetGraph) (w : NetEdge → double).

(** A path is the list of its vertices. *)
Inductive path (src : NetVertex) : NetVertex → list NetVertex → Prop :=
  | path_nil : src ∈ vertices g → path src src [src]
  | path_snoc u v p e : path src u p → e ∈ edges g → e_src e = u → e_dst e = v → path src v (p ++ [v]).

(** The sum of the weights of the edges, from the source on. *)
Fixpoint path_weight_from (acc : double) (u : NetVertex) (p : list NetVertex) : double :=
  match p with
  | [] => acc
  | v :: p' =>
      match edge u v g with
      | Some e => path_weight_from (dadd acc (w e)) v p'
      | None => S754_nan
      end
  end.
Definition path_weight (p : list NetVertex) : double :=
  match p with [] => dzero | u :: p' => path_weight_from dzero u p' end.

(** The path of a vertex in the tree that a predecessor map describes. *)
Inductive tree_path (preds : gmap NetVertex NetVertex) (src : NetVertex) : NetVertex → list NetVertex → Prop :=
  | tp_src : tree_path preds src src [src]
  | tp_step u v p : v ≠ src → preds !! v = Some u → tree_path preds src u p → tree_path preds src v (p ++ [v]).

(** What [dijkstra_shortest_paths] documents of the predecessor map: the source and the
    vertices that cannot be reached are their own predecessors, and the edges from the
    predecessors to the others form a tree of shortest paths. *)
Record shortest_path_tree (src : NetVertex) (preds : gmap NetVertex NetVertex) : Prop := {
  spt_dom v : v ∈ vertices g → is_Some (preds !! v);
  spt_src : preds !! src = Some src;
  spt_unreached v p : v ≠ src → preds !! v = Some v → ¬ path src v p;
  spt_reached v u : v ∈ vertices g → preds !! v = Some u → u ≠ v →
    ∃ p, tree_path preds src v p ∧ path src v p ∧ ∀ q, path src v q → dle (path_weight p) (path_weight q) = true
}.

Lemma path_vertices src v p x : graph_ok g → path src v p → x ∈ p → x ∈ vertices g.
Proof.
  intros Gok. induction 1 as [|u v p e H1 IH He _ Hv]; [by intros Ex%list_elem_of_singleton; subst|].
  intros [Hx|Ex%list_elem_of_singleton]%elem_of_app; [auto|]. rewrite Ex, <- Hv. by apply Gok.
Qed.

Lemma path_last src v p : path src v p → last p = Some v.
Proof. destruct 1; [done|]. by rewrite last_snoc. Qed.

Section tree.
Context (preds : gmap NetVertex NetVertex) (src : NetVertex).

Lemma tree_path_unique v p q : tree_path preds src v p → tree_path preds src v q → p = q.
Proof.
  intros Hp. revert q. induction Hp as [|u v p Hv E Hp IH]; intros q Hq; inversion Hq; try done.
  simplify_eq. f_equal. auto.
Qed.

Lemma tree_path_prefix v p x : tree_path preds src v p → x ∈ p → ∃ q, tree_path preds src x q ∧ length q ≤ length p.
Proof.
  induction 1 as [|u v p Hv E Hp IH].
  - intros Ex%list_elem_of_singleton. subst x. eexists. split; [constructor|done].
  - rewrite length_app. cbn. intros [Hx|Ex%list_elem_of_singleton]%elem_of_app; [|subst x].
    + destruct (IH Hx) as (q & H1 & H2). exists q. split; [done|lia].
    + exists (p ++ [v]). rewrite length_app. split; [by econstructor|done].
Qed.

Lemma tree_path_nodup v p : tree_path preds src v p → NoDup p.
Proof.
  induction 1 as [|u v p Hv E Hp IH]; [apply NoDup_singleton|].
  apply NoDup_app. split_and!; [done| |apply NoDup_singleton]. intros x Hx Ex%list_elem_of_singleton. subst x.
  destruct (tree_path_prefix _ _ _ Hp Hx) as (q & H1 & H2).
  assert (q = p ++ [v]) as -> by (eapply tree_path_unique; [done|by econstructor]).
  rewrite length_app in H2. cbn in H2. lia.
Qed.
End tree.

(** Entries of other vertices do not matter. *)
Lemma spt_union src new old : graph_ok g → shortest_path_tree src new → shortest_path_tree src (new ∪ old).
Proof.
  intros Gok [H1 H2 H3 H4].
  assert (HN : ∀ v u, v ∈ vertices g → (new ∪ old) !! v = Some u → new !! v = Some u).
  { intros v u Hv. destruct (H1 v Hv) as [x Hx]. by rewrite (lookup_union_Some_l _ _ _ _ Hx), Hx. }
  assert (HT : ∀ v p, tree_path new src v p → tree_path (new ∪ old) src v p).
  { induction 1; econstructor; eauto. by apply lookup_union_Some_l. }
  split.
  - intros v Hv. destruct (H1 v Hv) as [x Hx]. exists x. by apply lookup_union_Some_l.
  - by apply lookup_union_Some_l.
  - intros v p Hne Hv HP. assert (v ∈ vertices g).
    { eapply path_vertices; [done|exact HP|]. apply last_Some_elem_of. by eapply path_last. }
    by apply (H3 v p Hne); [apply HN|].
  - intros v u Hv Hu Hne. destruct (H4 v u Hv (HN _ _ Hv Hu) Hne) as (p & P1 & P2 & P3). eauto.
Qed.
End paths.

Section routes.
Context {M : Type} `{SharedMutex M}.
Variable visit : PinnedPIDSet → list PinnedPID.
Hypothesis visit_perm : ∀ l, visit l ≡ₚ l.
Variable dijkstra : NetGraph → NetVertex → gmap NetVertex nat → gmap positive double → outcome (gmap NetVertex NetVertex).
Implicit Types (routing : PIDRouting M) (state : NetState (M := M)).

Notation G s := (graph_ (so_data s)).

(** The PID of a vertex, and the vertices of a path with their PIDs. *)
Definition vertex_pid (g : NetGraph) (v : NetVertex) : PID := default PID_DEFAULT (v_pid <$> vp g v).
Definition pin (g : NetGraph) (p : list NetVertex) : PinnedRoute := (λ v, PinnedPID_vertex (vertex_pid g v) v) <$> p.

(** The weight that a routing gives to an edge. *)
Definition edge_cost routing state (e : NetEdge) : double :=
  link_weight (so_data routing) (vertex_pid (G state) (e_src e)) (vertex_pid (G state) (e_dst e)).

Lemma get_pid_Ok state v : v ∈ vertices (G state) → peek (get_pid v) state = Ok (vertex_pid (G state) v).
Proof.
  intros Hv. destruct (vp (G state) v) as [p|] eqn:E; [|by apply vp_None in E].
  unfold peek, get_pid, vertex_pid. by rewrite (st_bind_Ok _ _ _ _ _ (read_graph_Ok _ _ _ (vprop_Ok _ _ _ E))), E.
Qed.

Lemma trace_back_Ok state preds src v p rev fuel : graph_ok (G state) →
  tree_path preds src v p → (∀ x, x ∈ p → x ∈ vertices (G state)) → length p ≤ S fuel →
  ∃ q, p = q ++ [v] ∧ trace_back fuel state preds src v rev = Ok (pin (G state) q ++ rev).
Proof.
  intros Gok HT. revert rev fuel. induction HT as [|u v p Hv E HT IH]; intros rev fuel HV HL.
  - exists []. split; [done|]. destruct fuel; cbn [trace_back]; by rewrite decide_True.
  - rewrite length_app in HL. cbn in HL. assert (HL' : length p ≤ fuel) by lia.
    assert (Hp : p ≠ []) by (inversion HT as [|? ? p' _ _ _ E1 E2]; [done|by destruct p']).
    destruct fuel as [|fuel]; [destruct p; cbn in HL'; [done|lia]|]. cbn [trace_back]. rewrite decide_False by done.
    rewrite E. cbn.
    destruct (IH (PinnedPID_vertex (vertex_pid (G state) u) u :: rev) fuel) as (q & -> & R); [set_solver|lia|].
    rewrite get_pid_Ok by set_solver. cbn. exists (q ++ [u]). split; [done|]. rewrite R. unfold pin.
    by rewrite fmap_app, <- app_assoc.
Qed.

(** ** The context *)
Lemma edge_weights_Ok routing state c : routing_ok (so_data routing) → graph_ok (G state) →
  ∃ ws, ofold (edge_weight routing state) (edges (G state)) c = Ok ws ∧
    ∀ e, e ∈ edges (G state) → ws !! e_prop e = Some (edge_cost routing state e).
Proof.
  intros O Gok. apply (ofold_inv_split (λ dn ws, ∀ e, e ∈ dn → ws !! e_prop e = Some (edge_cost routing state e))).
  - set_solver.
  - intros dn e rest ws El HP. assert (He : e ∈ edges (G state)) by (rewrite El; set_solver).
    destruct (go_ends _ Gok e He) as [H1 H2]. unfold edge_weight. rewrite !get_pid_Ok by done. cbn.
    unfold peek at 1. rewrite get_weight_Ok by done. cbn. eexists. split; [reflexivity|].
    intros e' [He'|Ex%list_elem_of_singleton]%elem_of_app; [|subst; by rewrite lookup_insert_eq].
    rewrite lookup_insert_ne; [by apply HP|]. intros Ep.
    pose proof (go_props _ Gok) as HN. rewrite El, fmap_app in HN. apply NoDup_app in HN as (_ & HN & _).
    apply (HN (e_prop e)); [rewrite Ep; by apply list_elem_of_fmap_2|]. cbn. left.
Qed.

(** The context belongs to the routing and the network. *)
Definition context_ok routing state (c : RouteComputationContext) : Prop :=
  vert_indexes_ c = index_vertices (vertices (G state)) ∧
  ∀ e, e ∈ edges (G state) → edge_weights_ c !! e_prop e = Some (edge_cost routing state e).

Lemma fill_context_Ok routing state c : routing_ok (so_data routing) → graph_ok (G state) →
  vert_indexes_ c = ∅ ∨ context_ok routing state c →
  ∃ c', fill_context routing state c = Ok c' ∧ context_ok routing state c'.
Proof.
  intros O Gok HC. unfold fill_context. destruct (decide (vert_indexes_ c = ∅)) as [E|E].
  - rewrite decide_False by tauto. destruct (edge_weights_Ok routing state (edge_weights_ c) O Gok) as (ws & -> & HW).
    cbn. eexists. split; [reflexivity|]. by split.
  - rewrite decide_True by done. exists c. split; [done|]. tauto.
Qed.

(** A shortest path from [src] to the vertex [v] of the PID [dst], with the PIDs of its
    vertices. *)
Definition shortest_route routing state (src v : NetVertex) (dst : PID) (route : PinnedRoute) : Prop :=
  ∃ p, path (G state) src v (p ++ [v]) ∧ NoDup (p ++ [v]) ∧
    (∀ q, path (G state) src v q →
       dle (path_weight (G state) (edge_cost routing state) (p ++ [v]))
           (path_weight (G state) (edge_cost routing state) q) = true) ∧
    route = pin (G state) p ++ [PinnedPID_vertex dst v].

(** What [get_routes] returns for one destination. *)
Definition route_to routing state (src : NetVertex) (dst : PinnedPID) (r : option PinnedRoute) : Prop :=
  ∃ v, get_vertex dst = Ok v ∧
    match r with
    | Some route => v ≠ src ∧ shortest_route routing state src v (pp_pid dst) route
    | None => v = src ∨ ∀ p, ¬ path (G state) src v p
    end.

Definition pinned_in state (p : PinnedPID) : Prop := ∃ v, get_vertex p = Ok v ∧ v ∈ vertices (G state).

Lemma path_length g src v p : graph_ok g → path g src v p → NoDup p → length p ≤ length (g_vertices g).
Proof.
  intros Gok HP HN. pose proof (NoDup_submseteq p (vertices g) HN) as S.
  assert (p ⊆+ vertices g) as L%submseteq_length by (apply S; intros x; by eapply path_vertices).
  unfold vertices in L. by rewrite length_fmap in L.
Qed.

Lemma weights_step_Ok routing state src preds pid res : graph_ok (G state) →
  shortest_path_tree (G state) (edge_cost routing state) src preds → pinned_in state pid →
  ∃ r, weights_step state src preds pid res =
         Ok (match r with Some route => map_set PID_ltb (pp_pid pid) route res | None => res end) ∧
    route_to routing state src pid r.
Proof.
  intros Gok T (v & Ev & Hv). unfold weights_step. rewrite Ev. cbn. destruct (spt_dom _ _ _ _ T v Hv) as [u Hu].
  rewrite Hu. cbn. destruct (decide (u = v)) as [->|Hne].
  { exists None. split; [done|]. exists v. split; [done|]. destruct (decide (v = src)); [by left|right].
    intros p. by eapply spt_unreached. }
  assert (Hs : v ≠ src) by (intros ->; rewrite (spt_src _ _ _ _ T) in Hu; by simplify_eq).
  destruct (spt_reached _ _ _ _ T v u Hv Hu Hne) as (p & P1 & P2 & P3).
  pose proof (tree_path_nodup _ _ _ _ P1) as HN. pose proof (path_length _ _ _ _ Gok P2 HN) as HL.
  inversion P1 as [|u' v' p' _ Hu' P1' E1 E2]; [done|]. subst v' p. rewrite Hu in Hu'. injection Hu' as <-.
  assert (HV : ∀ x, x ∈ p' → x ∈ vertices (G state)) by (intros x Hx; eapply path_vertices; [done..|set_solver]).
  rewrite length_app in HL. cbn in HL. unfold get_num_nodes.
  destruct (trace_back_Ok state preds src u p' [PinnedPID_vertex (vertex_pid (G state) u) u; PinnedPID_vertex (pp_pid pid) v]
    (length (g_vertices (G state))) Gok P1' HV) as (q & Eq & R); [lia|].
  rewrite get_pid_Ok by (apply HV; rewrite Eq; set_solver). cbn. rewrite R. cbn.
  eexists (Some _). split; [reflexivity|]. exists v. split_and!; [done..|]. exists p'. split_and!; [done..|].
  rewrite Eq. unfold pin. by rewrite fmap_app, <- app_assoc.
Qed.

(** The contract of [dijkstra_shortest_paths] for one source. *)
Definition dijkstra_contract routing state (src : NetVertex) : Prop :=
  ∀ ws, (∀ e, e ∈ edges (G state) → ws !! e_prop e = Some (edge_cost routing state e)) →
  ∃ preds, dijkstra (G state) src (index_vertices (vertices (G state))) ws = Ok preds ∧
    shortest_path_tree (G state) (edge_cost routing state) src preds.

Lemma visit_nodup pids : NoDup (pp_pid <$> pids) → NoDup (pp_pid <$> visit pids).
Proof. intros HN. by rewrite visit_perm. Qed.

Lemma get_routes_weights_Ok routing src v_src state pids c : routing_ok (so_data routing) → graph_ok (G state) →
  get_vertex src = Ok v_src → NoDup (pp_pid <$> pids) → Forall (pinned_in state) pids →
  vert_indexes_ c = ∅ ∨ context_ok routing state c → dijkstra_contract routing state v_src →
  ∃ c', get_routes_weights visit dijkstra routing src state pids c = Ok (true, c') ∧ context_ok routing state c' ∧
    ∀ dst, dst ∈ pids → route_to routing state v_src dst (map_find PID_ltb (pp_pid dst) (result_ c')).
Proof.
  intros O Gok Es HN HP HC HD. unfold get_routes_weights.
  destruct (fill_context_Ok routing state c O Gok HC) as (c1 & -> & I1 & W1). cbn. rewrite Es. cbn.
  destruct (HD _ W1) as (preds & Ep & T). unfold compute_shortest_paths. rewrite I1, Ep. cbn.
  apply (spt_union _ _ _ _ (vert_preds_ c1) Gok) in T.
  destruct (ofold_inv_split (λ (dn : list PinnedPID) res, map_sorted PID_ltb res ∧
      ∀ dst, if decide (dst ∈ dn) then route_to routing state v_src dst (map_find PID_ltb (pp_pid dst) res)
             else pp_pid dst ∉ pp_pid <$> dn → map_find PID_ltb (pp_pid dst) res = None)
    (weights_step state v_src (preds ∪ vert_preds_ c1)) (visit pids) []) as (res & -> & HS & HR).
  - split; [constructor|]. intros dst. rewrite decide_False by set_solver. done.
  - intros dn pid rest res El [HS HR].
    assert (Hpid : pid ∈ visit pids) by (rewrite El; set_solver). rewrite visit_perm in Hpid.
    pose proof (visit_nodup _ HN) as HN'. rewrite El, fmap_app in HN'. apply NoDup_app in HN' as (_ & HN' & _).
    assert (Hnew : pp_pid pid ∉ pp_pid <$> dn) by (intros X; eapply HN'; [exact X|left]).
    assert (Hnone : map_find PID_ltb (pp_pid pid) res = None).
    { specialize (HR pid). rewrite decide_False in HR; [by apply HR|]. intros X. by apply Hnew, list_elem_of_fmap_2. }
    rewrite Forall_forall in HP.
    destruct (weights_step_Ok routing state v_src _ pid res Gok T (HP _ Hpid)) as (r & -> & Hr).
    eexists. split; [reflexivity|]. split; [destruct r; [by apply (map_set_sorted PID_ltb)|done]|].
    intros dst. specialize (HR dst). destruct (decide (dst ∈ dn)) as [Hd|Hd].
    + rewrite decide_True by set_solver. destruct r; [|done]. rewrite (map_find_set_ne PID_ltb); [done..|].
      intros Ed. apply Hnew. rewrite Ed. by apply list_elem_of_fmap_2.
    + destruct (decide (dst = pid)) as [->|Hne].
      * rewrite decide_True by set_solver. destruct r; [by rewrite (map_find_set_eq PID_ltb)|by rewrite Hnone].
      * rewrite decide_False by set_solver. rewrite fmap_app. intros Hn.
        destruct r; [|apply HR; set_solver]. rewrite (map_find_set_ne PID_ltb); [apply HR; set_solver|done|set_solver].
  - cbn. eexists. split; [reflexivity|]. split; [done|]. cbn. intros dst Hd. specialize (HR dst).
    rewrite decide_True in HR; [done|]. by rewrite visit_perm.
Qed.

(** ** Routes from the configuration *)
Definition first_route routing (src dst : PID) : option NamedRoute :=
  route_named <$> head (static_range src dst (static_routes_ (so_data routing))).

Lemma find_pinned_Some pids hop p : find_pinned hop pids = Some p → p ∈ pids ∧ pp_pid p = hop.
Proof. apply (record_key_Some pp_pid). Qed.
Lemma find_pinned_None pids hop : find_pinned hop pids = None ↔ hop ∉ pp_pid <$> pids.
Proof. apply (record_key_None pp_pid). Qed.

Lemma pin_hops_Some pids route : (∀ hop, hop ∈ route → hop ∈ pp_pid <$> pids) →
  ∃ r, pin_hops pids route = Some r ∧ pp_pid <$> r = route ∧ ∀ p, p ∈ r → p ∈ pids.
Proof.
  induction route as [|hop route IH]; intros HR; cbn; [exists []; set_solver|].
  destruct (find_pinned hop pids) as [p|] eqn:E.
  2: { apply find_pinned_None in E. destruct E. apply HR. left. }
  apply find_pinned_Some in E as [H1 H2]. destruct IH as (r & -> & H3 & H4); [set_solver|].
  exists (p :: r). split_and!; [done|cbn; by rewrite H2, H3|set_solver].
Qed.

Lemma get_routes_static_Ok routing src pids c : NoDup (pp_pid <$> pids) →
  (∀ dst route, dst ∈ pids → first_route routing (pp_pid src) (pp_pid dst) = Some route →
     ∀ hop, hop ∈ route → hop ∈ pp_pid <$> pids) →
  ∃ c', get_routes_static visit routing src pids c = Ok (true, c') ∧ vert_indexes_ c' = vert_indexes_ c ∧
    ∀ dst, dst ∈ pids → map_find PID_ltb (pp_pid dst) (result_ c') =
      match first_route routing (pp_pid src) (pp_pid dst) with Some route => pin_hops pids route | None => None end.
Proof.
  intros HN HR. unfold get_routes_static.
  assert (HL : ∀ dsts res, NoDup (pp_pid <$> dsts) → (∀ d, d ∈ dsts → d ∈ pids) → map_sorted PID_ltb res →
    (∀ d, d ∈ dsts → map_find PID_ltb (pp_pid d) res = None) →
    ∃ res', static_loop routing (pp_pid src) pids dsts res = Ok (true, res') ∧
      (∀ x, x ∉ pp_pid <$> dsts → map_find PID_ltb x res' = map_find PID_ltb x res) ∧
      ∀ d, d ∈ dsts → map_find PID_ltb (pp_pid d) res' =
        match first_route routing (pp_pid src) (pp_pid d) with Some route => pin_hops pids route | None => None end).
  { induction dsts as [|dst dsts IH]; intros res ND Hin HS Hnone; cbn [static_loop].
    - exists res. split_and!; [done..|]. set_solver.
    - rewrite fmap_cons, NoDup_cons in ND. destruct ND as [ND1 ND2].
      unfold peek, get_static_route. rewrite st_bind_eq. cbn [so_get mret st_ret outcome_ret mbind outcome_bind].
      fold (first_route routing (pp_pid src) (pp_pid dst)).
      destruct (first_route routing (pp_pid src) (pp_pid dst)) as [route|] eqn:F.
      + destruct (pin_hops_Some pids route) as (r & Er & _); [apply (HR dst); set_solver|]. rewrite Er.
        destruct (IH (map_set PID_ltb (pp_pid dst) r res)) as (res' & R & H1 & H2); [done|set_solver| | |].
        * by apply (map_set_sorted PID_ltb).
        * intros d Hd. rewrite (map_find_set_ne PID_ltb); [apply Hnone; set_solver|done|].
          intros E. apply ND1. rewrite E. by apply list_elem_of_fmap_2.
        * exists res'. split; [done|]. split.
          -- intros x Hx. rewrite H1 by set_solver. rewrite (map_find_set_ne PID_ltb); [done..|set_solver].
          -- intros d [->|Hd]%elem_of_cons; [|auto]. rewrite F, H1 by done. by rewrite (map_find_set_eq PID_ltb), Er.
      + destruct (IH res) as (res' & R & H1 & H2); [done|set_solver|done|set_solver|].
        exists res'. split; [done|]. split; [intros x Hx; apply H1; set_solver|].
        intros d [->|Hd]%elem_of_cons; [|auto]. rewrite F, H1 by done. apply Hnone. left. }
  destruct (HL (visit pids) []) as (res & -> & _ & H2).
  - by apply visit_nodup.
  - intros d. by rewrite visit_perm.
  - constructor.
  - done.
  - cbn. eexists. split; [reflexivity|]. split; [done|]. cbn. intros dst Hd. apply H2. by rewrite visit_perm.
Qed.
End routes.
