(* ===== verification/ViewUpdate.v ===== *)
(** * Updating the pDistances of a view (portal/server/src/view/view_update.h,
    view_update.cpp, view.h, pdist/plugin_base.h)

    [ViewUpdateBase::compute_result] copies the network, pins the PIDs of the view to its
    vertices, contracts the vertices of every PID into one, removes the other vertices or
    gives them temporary PIDs, checks the static routes, runs the optimisation plugin and
    fills the matrices of pDistances along the routes.  [do_update] installs the matrices
    in the view.

    What the update reads of a view is the record [View]; an optimisation plugin is a type
    with the operations of [OptPluginBase].  The locks of the view and of its children are
    held by the caller of [do_update]; the matrices and the copy of the network are under
    write locks of their own.  Logging is left out. *)
From S2P Require Import Prelude StdMap Double IpAddr Pid Locking ServerObject PidMatrix.
From S2P Require Import PidAggregation NetState PidRouting.

Inductive ExtraNodeAction := ENA_IGNORE | ENA_REMOVE.

(** The interface of optimisation plugins: [compute_pdistances] returns an error code,
    [edge_pdistances_] is the matrix of computed edge pDistances. *)
Class OptPluginBase (M P : Type) `{SharedMutex M} := {
  plugin_compute : NetState (M := M) → PinnedPIDSet → P → outcome (Z * P);
  edge_pdistances_ : P → PIDMatrix (M := M)
}.

Section View.
Context {M : Type} `{SharedMutex M} {P : Type} `{!OptPluginBase M P}.

(** The properties and children of a view that an update uses. *)
Record View := MkView {
  view_object : LocalObject (M := M);
  plugin_inst_ : option P;
  update_interval_ : Z;
  extra_node_action_ : ExtraNodeAction;
  default_intrapid_pdistance_ : double;
  default_interpid_pdistance_ : double;
  default_interdomain_pdistance_ : double;
  default_pidlink_pdistance_ : double;
  interdomain_includes_intradomain_ : bool;
  aggregation : PIDAggregation (M := M);
  intradomain_routing : PIDRouting M;
  link_pdistances : PIDMatrix (M := M);
  intradomain_pdistances : PIDMatrix (M := M);
  interdomain_pdistances : PIDMatrix (M := M)
}.

Definition set_matrices (o : LocalObject (M := M)) (pl : option P) (intra inter : PIDMatrix (M := M)) (v : View) : View :=
  MkView o pl (update_interval_ v) (extra_node_action_ v) (default_intrapid_pdistance_ v)
    (default_interpid_pdistance_ v) (default_interdomain_pdistance_ v) (default_pidlink_pdistance_ v)
    (interdomain_includes_intradomain_ v) (aggregation v) (intradomain_routing v) (link_pdistances v) intra inter.

Variable new_addr : list positive → positive.
Variable visit : PinnedPIDSet → list PinnedPID.
Variable dijkstra_shortest_paths :
  NetGraph → NetVertex → gmap NetVertex nat → gmap positive double → outcome (gmap NetVertex NetVertex).

Abbreviation N := (ST (NetState (M := M))).
Abbreviation Mx := (PIDMatrix (M := M)).

(** ** PIDs and their vertices *)
(** [get_pid_map]: the index by PID *)
Definition pid_order (a b : PIDRecord) : Prop := PID_ltb (pr_pid b) (pr_pid a) = false.
#[global] Instance pid_order_dec : RelDecision pid_order.
Proof. intros a b. unfold pid_order. solve_decision. Defined.
Definition get_pid_map (a : PIDAggregation (M := M)) : list PIDRecord :=
  merge_sort pid_order (pid_records_ (so_data a)).

Record PidSets := MkPidSets { pids_internal : list PID; pids_external : list PID; pids_all : list PID; pids : PinnedPIDSet }.

(** The loop over the names of the vertices of a PID: the vertices that exist, and whether
    they are internal. *)
Fixpoint find_vertices (names : NetVertexNameSet) (pid_verts : list NetVertex) (is_internal : bool)
  : N (list NetVertex * bool) :=
  match names with
  | [] => mret (pid_verts, is_internal)
  | v_name :: names' =>
      r ← get_node v_name;
      match r with
      | None => find_vertices names' pid_verts is_internal
      | Some v =>
          ext ← get_external v;
          find_vertices names' (set_insert Pos.ltb v pid_verts) (if ext : bool then false else is_internal)
      end
  end.

(** One PID of [find_pids]. *)
Definition find_pid_record (view_loc : PIDRecord) (ps : PidSets) : N PidSets :=
  '(pid_verts, is_internal) ← find_vertices (pr_vertices view_loc) [] true;
  let pid := MkPID (isp_ (pr_pid view_loc)) (num_ (pr_pid view_loc)) (negb is_internal) in
  let ps1 := MkPidSets
    (if external_ pid then pids_internal ps else set_insert PID_ltb pid (pids_internal ps))
    (if external_ pid then set_insert PID_ltb pid (pids_external ps) else pids_external ps)
    (set_insert PID_ltb pid (pids_all ps)) (pids ps) in
  st_iter (λ v, set_pid v pid) pid_verts;;
  p ← st_lift (PinnedPID_set pid pid_verts);
  mret (MkPidSets (pids_internal ps1) (pids_external ps1) (pids_all ps1) (insert_pinned p (pids ps1))).

(** A loop over a list that carries a value and may change the state. *)
Fixpoint st_fold {S A B} (f : B → A → ST S A) (l : list B) (a : A) : ST S A :=
  match l with [] => mret a | x :: l' => a' ← f x a; st_fold f l' a' end.

Definition find_pids (v : View) : N PidSets :=
  st_fold find_pid_record (get_pid_map (aggregation v)) (MkPidSets [] [] [] []).

(** The loop of [aggregate_topology]; [None] is the result [false]. *)
Fixpoint aggregate_loop (unagg : list PinnedPID) (agg : PinnedPIDSet) : N (option PinnedPIDSet) :=
  match unagg with
  | [] => mret (Some agg)
  | pid :: unagg' =>
      '(b, v) ← aggregate_node new_addr (v_set_ pid) (PID_print (pp_pid pid));
      if negb b then mret None
      else
        set_external v (external_ (pp_pid pid));;
        set_pid v (pp_pid pid);;
        aggregate_loop unagg' (insert_pinned (PinnedPID_vertex (pp_pid pid) v) agg)
  end.
Definition aggregate_topology (unagg_pids : PinnedPIDSet) : N (option PinnedPIDSet) :=
  aggregate_loop (visit unagg_pids) [].

(** One vertex of the loop of [handle_extra_nodes]; [remove_verts] and the next temporary
    PID are carried. *)
Definition temp_pid (n : Z) : PID := MkPID (String.list_ascii_of_string "temp.pid") n false.
Definition extra_node (action : ExtraNodeAction) (agg_verts : list NetVertex) (v : NetVertex)
    (a : PinnedPIDSet * list NetVertex * Z) : N (PinnedPIDSet * list NetVertex * Z) :=
  let '(pids, remove_verts, last_temp_pid) := a in
  if decide (v ∈ agg_verts) then mret a
  else
    ext ← get_external v;
    if ext : bool then mret (pids, remove_verts ++ [v], last_temp_pid)
    else
      match action with
      | ENA_REMOVE => mret (pids, remove_verts ++ [v], last_temp_pid)
      | ENA_IGNORE =>
          let tmp := temp_pid last_temp_pid in
          set_pid v tmp;;
          mret (insert_pinned (PinnedPID_vertex tmp v) pids, remove_verts, u32 (last_temp_pid + 1))
      end.
Definition handle_extra_nodes (view : View) (pids : PinnedPIDSet) : N PinnedPIDSet :=
  let agg_verts := concat (v_set_ <$> pids) in
  nodes ← read_graph (λ g, Ok (vertices g));
  '(pids', remove_verts, _) ← st_fold (extra_node (extra_node_action_ view) agg_verts) nodes (pids, [], 0%Z);
  st_iter remove_node remove_verts;;
  mret pids'.

(** [verify_static_routing]: the hops of a route, with the vertex of the previous hop. *)
Fixpoint verify_hops (pids : PinnedPIDSet) (prev : option NetVertex) (route : NamedRoute) : N bool :=
  match route with
  | [] => mret true
  | hop :: route' =>
      match find_pinned hop pids with
      | None => mret false
      | Some p =>
          match v_set_ p with
          | [cur] =>
              ok ← match prev with
                   | None => mret true
                   | Some prev => e ← get_edge cur prev; mret (match e with Some _ => true | None => false end)
                   end;
              if ok : bool then verify_hops pids (Some cur) route' else mret false
          | _ => st_fail (Throw "Illegal state: must be exactly one vertex per pid")
          end
      end
  end.
Fixpoint verify_routes (pids : PinnedPIDSet) (routes : StaticRouteMap) : N bool :=
  match routes with
  | [] => mret true
  | r :: routes' =>
      ok ← verify_hops pids None (route_named r);
      if ok : bool then verify_routes pids routes' else mret false
  end.
Definition verify_static_routing (view : View) (pids : PinnedPIDSet) : N bool :=
  verify_routes pids (static_routes_ (so_data (intradomain_routing view))).

(** ** pDistances *)
(** [find_interdomain_links] *)
Definition interdomain_link (state : NetState (M := M)) (e : NetEdge) (links : list (PID * PID)) : outcome (list (PID * PID)) :=
  l_src ← peek (get_pid (e_src e)) state;
  l_dst ← peek (get_pid (e_dst e)) state;
  if Bool.eqb (external_ l_src) (external_ l_dst) then mret links else mret (links ++ [(l_src, l_dst)]).
Definition find_interdomain_links (state : NetState (M := M)) : outcome (list (PID * PID)) :=
  ofold (interdomain_link state) (edges (graph_ (so_data state))) [].

(** The pDistance of a link: the static one, the dynamic one, or the default. *)
Definition link_pdistance (static dynamic : Mx) (src dst : PID) (dflt : double) : outcome double :=
  e_p ← peek (get_by_pid src dst VCost_new) static;
  if negb (isnan e_p) then mret e_p
  else
    e_p ← peek (get_by_pid src dst VCost_new) dynamic;
    if negb (isnan e_p) then mret e_p else mret dflt.

(** The body of the loop over the links between the domains. *)
Definition set_link (static dynamic : Mx) (dflt : double) (link : PID * PID) (inter : Mx) : outcome Mx :=
  p ← link_pdistance static dynamic (fst link) (snd link) dflt;
  '(_, inter') ← set_by_pid (fst link) (snd link) p inter;
  mret inter'.

(** The pDistance along a route. *)
Fixpoint trace_route (static dynamic : Mx) (dflt : double) (p : double) (prev : PinnedPID) (route : PinnedRoute)
  : outcome double :=
  match route with
  | [] => Ok p
  | hop :: route' =>
      e_p ← link_pdistance static dynamic (pp_pid prev) (pp_pid hop) dflt;
      trace_route static dynamic dflt (dadd p e_p) hop route'
  end.
Definition route_pdistance (static dynamic : Mx) (dflt : double) (route : PinnedRoute) : outcome double :=
  match route with [] => Ok dzero | first :: route' => trace_route static dynamic dflt dzero first route' end.

(** The pDistance between two internal PIDs. *)
Definition intra_cell (view : View) (dynamic : Mx) (routes : list (PID * PinnedRoute)) (l_src l_dst : IndexedPID)
    (intra : Mx) : outcome Mx :=
  p ← (if decide (index_ l_src = index_ l_dst) then mret (default_intrapid_pdistance_ view)
       else
         match map_find PID_ltb (ip_pid l_dst) routes with
         | None => mret (default_interpid_pdistance_ view)
         | Some route => route_pdistance (link_pdistances view) dynamic (default_pidlink_pdistance_ view) route
         end);
  '(_, intra') ← set_ l_src l_dst p intra;
  mret intra'.

(** The common shape of the two loops that fill the interdomain matrix: a cell that holds a
    pDistance already is left alone. *)
Definition fill_cell (l_src l_dst : PID) (pdistance : outcome double) (inter : Mx) : outcome Mx :=
  old ← peek (get_by_pid l_src l_dst VCost_new) inter;
  if negb (isnan old) then mret inter
  else p ← pdistance; '(_, inter') ← set_by_pid l_src l_dst p inter; mret inter'.

(** The pDistance from an internal PID to an external one: the egress is the last hop but
    one. *)
Definition egress_pdistance (view : View) (routes : list (PID * PinnedRoute)) (intra : Mx) (l_src l_inter : PID)
    (inter : Mx) : outcome double :=
  match map_find PID_ltb l_inter routes with
  | None => mret (default_interdomain_pdistance_ view)
  | Some route =>
      match rev route with
      | _ :: p_egress :: _ =>
          c ← peek (get_by_pid (pp_pid p_egress) l_inter VCost_new) inter;
          if interdomain_includes_intradomain_ view
          then d ← peek (get_by_pid l_src (pp_pid p_egress) VCost_new) intra; mret (dadd c d)
          else mret c
      | [_] => mret (default_interdomain_pdistance_ view)
      | [] => Fault UB
      end
  end.
Definition inter_cell_out (view : View) (routes : list (PID * PinnedRoute)) (intra : Mx) (l_src l_inter : PID)
    (inter : Mx) : outcome Mx :=
  fill_cell l_src l_inter (egress_pdistance view routes intra l_src l_inter inter) inter.

(** The pDistance from an external PID to an internal one: the egress is the second hop. *)
Definition ingress_pdistance (view : View) (routes : list (PID * PinnedRoute)) (intra : Mx) (l_src l_intra : PID)
    (inter : Mx) : outcome double :=
  match map_find PID_ltb l_intra routes with
  | None => mret (default_interdomain_pdistance_ view)
  | Some route =>
      match route with
      | _ :: p_egress :: _ =>
          c ← peek (get_by_pid l_src (pp_pid p_egress) VCost_new) inter;
          if interdomain_includes_intradomain_ view
          then d ← peek (get_by_pid (pp_pid p_egress) l_intra VCost_new) intra; mret (dadd c d)
          else mret c
      | [_] => mret (default_interdomain_pdistance_ view)
      | [] => Fault UB
      end
  end.
Definition inter_cell_in (view : View) (routes : list (PID * PinnedRoute)) (intra : Mx) (l_src l_intra : PID)
    (inter : Mx) : outcome Mx :=
  fill_cell l_src l_intra (ingress_pdistance view routes intra l_src l_intra inter) inter.

(** The routes from a PID: [get_routes] with the element of [pids] that is found, whose
    result is ignored. *)
Definition routes_from (view : View) (state : NetState (M := M)) (pids : PinnedPIDSet) (l_src : PID)
    (c : RouteComputationContext) : outcome RouteComputationContext :=
  src ← from_option_or UB (find_pinned l_src pids);
  '(_, c') ← get_routes visit dijkstra_shortest_paths (intradomain_routing view) src state pids c;
  mret c'.

(** The row of an internal PID: its pDistances to the internal and to the external PIDs. *)
Definition row_out (view : View) (state : NetState (M := M)) (pids : PinnedPIDSet) (external : list PID)
    (dynamic : Mx) (internal : list IndexedPID) (l_src : IndexedPID)
    (a : RouteComputationContext * Mx * Mx) : outcome (RouteComputationContext * Mx * Mx) :=
  let '(c, intra, inter) := a in
  c' ← routes_from view state pids (ip_pid l_src) c;
  intra' ← ofold (intra_cell view dynamic (result_ c') l_src) internal intra;
  inter' ← ofold (inter_cell_out view (result_ c') intra' (ip_pid l_src)) external inter;
  mret (c', intra', inter').

(** The row of an external PID. *)
Definition row_in (view : View) (state : NetState (M := M)) (pids : PinnedPIDSet) (intra : Mx)
    (internal : list IndexedPID) (l_src : IndexedPID)
    (a : RouteComputationContext * Mx) : outcome (RouteComputationContext * Mx) :=
  let '(c, inter) := a in
  if negb (external_ (ip_pid l_src)) then mret a
  else
    c' ← routes_from view state pids (ip_pid l_src) c;
    inter' ← ofold (inter_cell_in view (result_ c') intra (ip_pid l_src)) (ip_pid <$> internal) inter;
    mret (c', inter').

(** [compute_pdistances]: the two matrices; [dynamic] is the plugin's matrix. *)
Definition compute_pdistances (view : View) (state : NetState (M := M)) (dynamic : Mx) (pids : PinnedPIDSet)
    (external : list PID) (intra inter : Mx) : outcome (Mx * Mx) :=
  links ← find_interdomain_links state;
  inter1 ← ofold (set_link (link_pdistances view) dynamic (default_interdomain_pdistance_ view)) links inter;
  let internal := pids_ (so_data intra) in
  '(c, intra2, inter2) ← ofold (row_out view state pids external dynamic internal) internal (context_new, intra, inter1);
  '(_, inter3) ← ofold (row_in view state pids intra2 internal) (pids_ (so_data inter2)) (c, inter2);
  mret (intra2, inter3).

(** ** The update *)
(** An object under a new write lock. *)
Definition write_locked {D} (s : Server M D) : outcome (Server M D) :=
  match construct BlockWriteLock (so_object s) with
  | Holds o => Ok (MkServer o (so_data s))
  | Throws e _ => Fault e
  | Waits => Fault Deadlock
  end.

(** [compute_result] on the copy of the network; [None] is the result [false].  The plugin
    may have changed. *)
Definition compute_result_on (state0 : NetState (M := M)) (view : View) : outcome (option (Mx * Mx * option P)) :=
  '(ps, state1) ← find_pids view state0;
  '(agg, state2) ← aggregate_topology (pids ps) state1;
  match agg with
  | None => mret None
  | Some agg_pids =>
      '(pids', state3) ← handle_extra_nodes view agg_pids state2;
      '(ok, state4) ← verify_static_routing view pids' state3;
      if negb ok then mret None
      else
        plugin ← match plugin_inst_ view with
                 | None => mret None
                 | Some p => '(_, p') ← plugin_compute state4 pids' p; mret (Some p')
                 end;
        intra0 ← write_locked (PIDMatrix_new (M := M) 0);
        '(_, intra) ← set_pids (pids_internal ps) intra0;
        inter0 ← write_locked (PIDMatrix_new (M := M) 0);
        '(_, inter) ← set_pids (pids_all ps) inter0;
        let dynamic := match plugin with Some p => edge_pdistances_ p | None => PIDMatrix_new 0 end in
        '(intra', inter') ← compute_pdistances view state4 dynamic pids' (pids_external ps) intra inter;
        mret (Some (intra', inter', plugin))
  end.
Definition compute_result (net : NetState (M := M)) (view : View) : outcome (option (Mx * Mx * option P)) :=
  copy ← NetState_copy new_addr 0 net;
  state0 ← write_locked copy;
  compute_result_on state0 view.

(** [ViewUpdateDirect::do_update]: the view is under a write lock; [set_child] reports a
    change.  The write locks of the new matrices end with the update object. *)
Definition do_update (net : NetState (M := M)) (view : View) : outcome (Z * View) :=
  r ← compute_result net view;
  match r with
  | None => mret (0%Z, view)
  | Some (intra, inter, plugin) =>
      o1 ← changed (view_object view);
      o2 ← changed o1;
      mret (update_interval_ view, set_matrices o2 plugin intra inter view)
  end.
End View.
Arguments View M P : clear implicits.
