(* ===== verification/ViewUpdateSpec.v ===== *)
(** * The pDistances that an update computes

    [compute_pdistances] is proved against what it needs of the routes: [routes_ok] says
    that the routes from every PID can be computed and satisfy a specification [RS].  The
    matrices then hold, for every pair of PIDs, the cost that the pair's route has. *)
From S2P Require Import Prelude StdMap Double IpAddr Pid Locking ServerObject PidMatrix.
From S2P Require Import PidAggregation NetState NetStateSpec PidRouting PidRoutingSpec ViewUpdate.

(** ** Costs *)
Section costs.
Context {M : Type} `{SharedMutex M}.
Abbreviation Mx := (PIDMatrix (M := M)).

(** The pDistance of a link and of a route. *)
Definition link_cost (static dynamic : PIDMatrixData) (dflt : double) (a b : PID) : double :=
  if negb (isnan (cost static a b)) then cost static a b
  else if negb (isnan (cost dynamic a b)) then cost dynamic a b else dflt.
Fixpoint hops_cost (lc : PID → PID → double) (p : double) (prev : PinnedPID) (route : PinnedRoute) : double :=
  match route with
  | [] => p
  | hop :: route' => hops_cost lc (dadd p (lc (pp_pid prev) (pp_pid hop))) hop route'
  end.
Definition route_cost (lc : PID → PID → double) (route : PinnedRoute) : double :=
  match route with [] => dzero | first :: route' => hops_cost lc dzero first route' end.

Lemma nan_is_nan x : isnan x = true → x = S754_nan.
Proof. by destruct x. Qed.

(** Reading a cost with NaN as the default. *)
Lemma read_cost (m : Mx) a b : matrix_ok (so_data m) → peek (get_by_pid a b VCost_new) m = Ok (cost (so_data m) a b).
Proof.
  intros O. unfold peek. rewrite get_by_pid_Ok by done. cbn.
  destruct (isnan (cost _ a b)) eqn:E; [|done]. by rewrite (nan_is_nan _ E).
Qed.

Lemma link_pdistance_Ok (static dynamic : Mx) a b dflt : matrix_ok (so_data static) → matrix_ok (so_data dynamic) →
  link_pdistance static dynamic a b dflt = Ok (link_cost (so_data static) (so_data dynamic) dflt a b).
Proof.
  intros O1 O2. unfold link_pdistance, link_cost. rewrite (read_cost static) by done. cbn.
  destruct (isnan (cost (so_data static) a b)); cbn; [|done]. rewrite (read_cost dynamic) by done. cbn.
  by destruct (isnan (cost (so_data dynamic) a b)).
Qed.

Lemma route_pdistance_Ok (static dynamic : Mx) dflt route : matrix_ok (so_data static) → matrix_ok (so_data dynamic) →
  route_pdistance static dynamic dflt route = Ok (route_cost (link_cost (so_data static) (so_data dynamic) dflt) route).
Proof.
  intros O1 O2. destruct route as [|first route]; [done|]. cbn. generalize dzero as p.
  revert first. induction route as [|hop route IH]; intros first p; cbn; [done|].
  rewrite link_pdistance_Ok by done. cbn. apply IH.
Qed.

(** Assigning a cell. *)
Definition assigned (m : Mx) (a b : PID) (v : double) (m' : Mx) : Prop :=
  matrix_locked m' ∧ pids_ (so_data m') = pids_ (so_data m) ∧
  ∀ x y, cost (so_data m') x y = if decide (x = a ∧ y = b) then v else cost (so_data m) x y.

Lemma find_pid_self d z : matrix_ok d → z ∈ pids_ d → find_pid (ip_pid z) (pids_ d) = Some z.
Proof.
  intros O [i Hi]%list_elem_of_lookup. pose proof (mo_index _ O _ _ Hi) as E. destruct z as [p j]. cbn in *. subst j.
  apply find_pid_iff; [apply O|apply (set_sorted_nodup PID_ltb), O|done].
Qed.

Lemma set_Ok (m : Mx) x y v : matrix_locked m → x ∈ pids_ (so_data m) → y ∈ pids_ (so_data m) →
  ∃ m', set_ x y v m = Ok (tt, m') ∧ assigned m (ip_pid x) (ip_pid y) v m'.
Proof.
  intros [O Hw] Hx Hy.
  pose proof (set_by_pid_Ok m (ip_pid x) (ip_pid y) v (conj O Hw)) as S. cbn zeta in S.
  rewrite decide_True in S by (split; by apply list_elem_of_fmap_2).
  destruct S as (m' & E & L & _ & _ & HC). exists m'. unfold set_by_pid in E. rewrite st_bind_eq in E. cbn [so_get] in E.
  rewrite !find_pid_self in E by done. apply st_bind_inv in E as (u & m'' & E1 & E2). destruct u. injection E2 as ->.
  split; [done|]. split_and!; [done| |done].
  unfold set_ in E1. rewrite st_bind_eq in E1. cbn [so_get] in E1. rewrite st_lift_bind in E1.
  destruct (assign _ _ _ _) as [mm|] eqn:EA; [|done]. rewrite st_bind_eq in E1. cbn [so_put] in E1.
  match type of E1 with so_changed ?s0 = _ => destruct (so_changed_Ok s0 Hw) as (o & E3 & _); rewrite E3 in E1 end.
  by injection E1 as <-.
Qed.

Lemma set_by_pid_assigned (m : Mx) a b v : matrix_locked m →
  a ∈ pids_of (pids_ (so_data m)) → b ∈ pids_of (pids_ (so_data m)) →
  ∃ m', set_by_pid a b v m = Ok (true, m') ∧ assigned m a b v m'.
Proof.
  intros L (x & -> & Hx)%list_elem_of_fmap (y & -> & Hy)%list_elem_of_fmap.
  destruct (set_Ok m x y v L Hx Hy) as (m' & E & HA). exists m'. split; [|done].
  unfold set_by_pid. rewrite st_bind_eq. cbn [so_get]. rewrite !find_pid_self by (done || apply L).
  by rewrite (st_bind_Ok _ _ _ _ _ E).
Qed.

Lemma set_by_pid_absent (m : Mx) a b v : matrix_locked m →
  ¬ (a ∈ pids_of (pids_ (so_data m)) ∧ b ∈ pids_of (pids_ (so_data m))) → set_by_pid a b v m = Ok (false, m).
Proof. intros L Hn. pose proof (set_by_pid_Ok m a b v L) as S. cbn zeta in S. by rewrite decide_False in S. Qed.
End costs.

(** ** The matrices *)
Section pdistances.
Context {M : Type} `{SharedMutex M} {P : Type} `{!OptPluginBase M P}.
Abbreviation Mx := (PIDMatrix (M := M)).
Variable visit : PinnedPIDSet → list PinnedPID.
Variable dijkstra : NetGraph → NetVertex → gmap NetVertex nat → gmap positive double → outcome (gmap NetVertex NetVertex).
Context (view : View M P) (state : NetState (M := M)) (dynamic : Mx) (pids : PinnedPIDSet) (external : list PID).
(** What the routes between the PIDs satisfy, and the contexts in which they are computed. *)
Context (RS : PID → PID → option PinnedRoute → Prop) (ctx : RouteComputationContext → Prop).

Notation P_all := (pp_pid <$> pids).
Notation static := (link_pdistances view).

Definition routes_ok : Prop :=
  ctx context_new ∧
  ∀ src c, src ∈ P_all → ctx c →
  ∃ c', routes_from visit dijkstra view state pids src c = Ok c' ∧ ctx c' ∧
    ∀ dst, dst ∈ P_all → RS src dst (map_find PID_ltb dst (result_ c')).

Hypothesis HR : routes_ok.
Hypothesis Hstatic : matrix_ok (so_data static).
Hypothesis Hdynamic : matrix_ok (so_data dynamic).
Hypothesis Hgraph : graph_ok (graph_ (so_data state)).

(** The pDistance of a link inside of the domain and between domains. *)
Definition intra_link : PID → PID → double :=
  link_cost (so_data static) (so_data dynamic) (default_pidlink_pdistance_ view).
Definition inter_link : PID → PID → double :=
  link_cost (so_data static) (so_data dynamic) (default_interdomain_pdistance_ view).

(** The pDistance between two internal PIDs with the route [r] between them. *)
Definition intra_pdistance (a b : PID) (r : option PinnedRoute) : double :=
  if decide (a = b) then default_intrapid_pdistance_ view
  else match r with None => default_interpid_pdistance_ view | Some route => route_cost intra_link route end.

(** ** A row of the intradomain matrix *)
Lemma intra_cell_Ok routes (intra : Mx) x y : matrix_locked intra → x ∈ pids_ (so_data intra) → y ∈ pids_ (so_data intra) →
  ∃ intra', intra_cell view dynamic routes x y intra = Ok intra' ∧
    assigned intra (ip_pid x) (ip_pid y) (intra_pdistance (ip_pid x) (ip_pid y) (map_find PID_ltb (ip_pid y) routes)) intra'.
Proof.
  intros L Hx Hy. unfold intra_cell, intra_pdistance.
  assert (Hidx : index_ x = index_ y ↔ ip_pid x = ip_pid y).
  { destruct L as [O _]. split; intros E.
    - apply list_elem_of_lookup in Hx as [i Hi], Hy as [j Hj].
      rewrite (mo_index _ O _ _ Hi), (mo_index _ O _ _ Hj) in E. subst. rewrite Hi in Hj. by injection Hj as ->.
    - pose proof (find_pid_self _ _ O Hx) as F1. rewrite E, (find_pid_self _ _ O Hy) in F1. by injection F1 as ->. }
  match goal with |- context [mbind _ ?m] => assert (∃ p, m = Ok p ∧
     p = if decide (ip_pid x = ip_pid y) then default_intrapid_pdistance_ view
         else match map_find PID_ltb (ip_pid y) routes with None => default_interpid_pdistance_ view
              | Some route => route_cost intra_link route end) as (p & -> & ->) end.
  { eexists. split; [|reflexivity]. destruct (decide (index_ x = index_ y)) as [E|E].
    - by rewrite decide_True by tauto.
    - rewrite decide_False by tauto. destruct (map_find _ _ _); [|done]. by apply route_pdistance_Ok. }
  cbn. match goal with |- context [set_ x y ?p intra] => destruct (set_Ok intra x y p L Hx Hy) as (m' & -> & HA) end.
  cbn. eauto.
Qed.

Lemma intra_row_Ok routes (intra : Mx) x : matrix_locked intra → x ∈ pids_ (so_data intra) →
  ∃ intra', ofold (intra_cell view dynamic routes x) (pids_ (so_data intra)) intra = Ok intra' ∧
    matrix_locked intra' ∧ pids_ (so_data intra') = pids_ (so_data intra) ∧
    ∀ a b, cost (so_data intra') a b =
      if decide (a = ip_pid x ∧ b ∈ pids_of (pids_ (so_data intra)))
      then intra_pdistance a b (map_find PID_ltb b routes) else cost (so_data intra) a b.
Proof.
  intros L Hx. set (Q := λ (dn : list IndexedPID) (m : Mx), matrix_locked m ∧
    pids_ (so_data m) = pids_ (so_data intra) ∧
    ∀ a b, cost (so_data m) a b = if decide (a = ip_pid x ∧ b ∈ pids_of dn)
      then intra_pdistance a b (map_find PID_ltb b routes) else cost (so_data intra) a b).
  apply (ofold_inv Q).
  - split_and!; [done..|]. intros a b. by rewrite decide_False by set_solver.
  - intros dn y m (L1 & E1 & HC) Hy. destruct (intra_cell_Ok routes m x y L1) as (m' & -> & L2 & E2 & HC2); [by rewrite E1..|].
    eexists. split; [reflexivity|]. split_and!; [done|congruence|]. intros a b. rewrite HC2, HC. unfold pids_of. rewrite fmap_app.
    cbn [fmap list_fmap]. repeat case_decide; try done; set_solver.
Qed.

(** ** Links between domains *)
Notation GS := (graph_ (so_data state)).

(** The links of the network between PIDs, and those that leave the domain. *)
Definition graph_links : list (PID * PID) :=
  (λ e, (vertex_pid GS (e_src e), vertex_pid GS (e_dst e))) <$> edges GS.
Definition domain_link (a b : PID) : Prop := (a, b) ∈ graph_links ∧ external_ a ≠ external_ b.
#[local] Instance domain_link_dec a b : Decision (domain_link a b).
Proof. unfold domain_link. apply _. Defined.

Lemma find_interdomain_links_Ok :
  ∃ links, find_interdomain_links state = Ok links ∧ ∀ a b, (a, b) ∈ links ↔ domain_link a b.
Proof.
  unfold find_interdomain_links.
  destruct (ofold_inv_split (λ dn links, ∀ a b, (a, b) ∈ links ↔
      (a, b) ∈ (λ e, (vertex_pid GS (e_src e), vertex_pid GS (e_dst e))) <$> dn ∧ external_ a ≠ external_ b)
    (interdomain_link state) (edges GS) []) as (links & E & HL).
  - set_solver.
  - intros dn e rest links El HP. assert (He : e ∈ edges GS) by (rewrite El; set_solver).
    destruct (go_ends _ Hgraph e He) as [H1 H2]. unfold interdomain_link. rewrite !get_pid_Ok by done. cbn.
    set (ps := vertex_pid GS (e_src e)). set (pd := vertex_pid GS (e_dst e)).
    destruct (Bool.eqb (external_ ps) (external_ pd)) eqn:Eb; eexists; (split; [reflexivity|]);
      intros a b; rewrite fmap_app, ?elem_of_app, HP; cbn; rewrite !list_elem_of_singleton.
    + apply eqb_prop in Eb. fold ps pd. split; [set_solver|]. intros [[?|[= -> ->]] ?]; [set_solver|congruence].
    + apply eqb_false_iff in Eb. fold ps pd. split; [|set_solver]. intros [?|[= -> ->]]; set_solver.
  - exists links. split; [done|]. exact HL.
Qed.

Lemma set_links_Ok links (inter : Mx) : matrix_locked inter →
  ∃ inter', ofold (set_link static dynamic (default_interdomain_pdistance_ view)) links inter = Ok inter' ∧
    matrix_locked inter' ∧ pids_ (so_data inter') = pids_ (so_data inter) ∧
    ∀ a b, cost (so_data inter') a b =
      if decide ((a, b) ∈ links ∧ a ∈ pids_of (pids_ (so_data inter)) ∧ b ∈ pids_of (pids_ (so_data inter)))
      then inter_link a b else cost (so_data inter) a b.
Proof.
  intros L. set (Q := λ (dn : list (PID * PID)) (m : Mx), matrix_locked m ∧ pids_ (so_data m) = pids_ (so_data inter) ∧
    ∀ a b, cost (so_data m) a b =
      if decide ((a, b) ∈ dn ∧ a ∈ pids_of (pids_ (so_data inter)) ∧ b ∈ pids_of (pids_ (so_data inter)))
      then inter_link a b else cost (so_data inter) a b).
  apply (ofold_inv Q).
  - split_and!; [done..|]. intros a b. by rewrite decide_False by set_solver.
  - intros dn [a b] m (L1 & E1 & HC) _. unfold set_link. cbn [fst snd]. rewrite link_pdistance_Ok by done. cbn.
    fold (inter_link a b).
    destruct (decide (a ∈ pids_of (pids_ (so_data inter)) ∧ b ∈ pids_of (pids_ (so_data inter)))) as [[Ha Hb]|Hn].
    + destruct (set_by_pid_assigned m a b (inter_link a b) L1) as (m' & -> & L2 & E2 & HC2); [by rewrite E1..|]. cbn.
      eexists. split; [reflexivity|]. split_and!; [done|congruence|]. intros x y. rewrite HC2, HC.
      repeat case_decide; try done; set_solver.
    + rewrite set_by_pid_absent by (rewrite ?E1; done). cbn. eexists. split; [reflexivity|]. split_and!; [done..|].
      intros x y. rewrite HC. repeat case_decide; try done; set_solver.
Qed.

Lemma fill_cell_Ok (inter : Mx) a b o v : matrix_locked inter →
  a ∈ pids_of (pids_ (so_data inter)) → b ∈ pids_of (pids_ (so_data inter)) →
  (isnan (cost (so_data inter) a b) = true → o = Ok v) →
  ∃ inter', fill_cell a b o inter = Ok inter' ∧
    assigned inter a b (if isnan (cost (so_data inter) a b) then v else cost (so_data inter) a b) inter'.
Proof.
  intros L Ha Hb Ho. unfold fill_cell. rewrite read_cost by apply L. cbn.
  destruct (isnan (cost (so_data inter) a b)) eqn:En; cbn.
  - rewrite Ho by done. cbn. destruct (set_by_pid_assigned inter a b v L Ha Hb) as (m' & -> & HA). cbn. eauto.
  - eexists. split; [reflexivity|]. split_and!; [done..|]. intros x y. case_decide as E; [|done]. by destruct E as [-> ->].
Qed.

(** ** The interdomain matrix *)
(** A route from [a] to [b] along links of the network. *)
Record good_route (a b : PID) (r : list PinnedPID) : Prop := {
  gr_length : 2 ≤ length r;
  gr_head : pp_pid <$> head r = Some a;
  gr_last : pp_pid <$> last r = Some b;
  gr_links i p q : r !! i = Some p → r !! S i = Some q → (pp_pid p, pp_pid q) ∈ graph_links
}.

Lemma good_route_ingress a b r : good_route a b r →
  ∃ p q l, r = p :: q :: l ∧ (a, pp_pid q) ∈ graph_links.
Proof.
  intros [H1 H2 _ H4]. destruct r as [|p [|q l]]; cbn in *; [lia..|]. exists p, q, l. split; [done|].
  injection H2 as <-. by apply (H4 0).
Qed.

Lemma good_route_egress a b r : good_route a b r →
  ∃ p q l, rev r = p :: q :: l ∧ (pp_pid q, b) ∈ graph_links.
Proof.
  intros [H1 _ H3 H4]. assert (E : r = rev (rev r)) by by rewrite rev_involutive.
  destruct (rev r) as [|p [|q l]]; [subst; cbn in *; lia..|]. exists p, q, l. split; [done|].
  cbn in E. rewrite E, last_snoc in H3. injection H3 as <-. apply (H4 (length (rev l))).
  - rewrite E, <- app_assoc. cbn [app]. exact (list_lookup_middle (rev l) [p] q _ eq_refl).
  - rewrite E. rewrite lookup_app_r by (rewrite length_app; cbn; lia). rewrite length_app. cbn.
    by replace (S (length (rev l)) - (length (rev l) + 1)) with 0 by lia.
Qed.

Hypothesis RS_good : ∀ a b r, RS a b (Some r) → good_route a b r.
Hypothesis Hdflt : isnan (default_interdomain_pdistance_ view) = false.
Variable Pin : list PID.

Lemma inter_link_number a b : isnan (inter_link a b) = false.
Proof. unfold inter_link, link_cost. by destruct (isnan (cost _ a b)) eqn:E1, (isnan (cost (so_data dynamic) a b)) eqn:E2. Qed.

(** What a link between the domains costs; NaN for other pairs. *)
Definition border_cost (a b : PID) : double :=
  if decide (domain_link a b ∧ a ∈ Pin ∧ b ∈ Pin) then inter_link a b else S754_nan.
Definition with_intra (c d : double) : double := if interdomain_includes_intradomain_ view then dadd c d else c.

(** The pDistance from an internal PID [a] to an external one and back, with the route
    [r] between them. *)
Definition out_pdistance (intra : PIDMatrixData) (a x : PID) (r : option PinnedRoute) : double :=
  if decide (domain_link a x) then inter_link a x
  else
    match r with
    | Some route =>
        match rev route with
        | _ :: egress :: _ => with_intra (border_cost (pp_pid egress) x) (cost intra a (pp_pid egress))
        | _ => default_interdomain_pdistance_ view
        end
    | None => default_interdomain_pdistance_ view
    end.
Definition in_pdistance (intra : PIDMatrixData) (x b : PID) (r : option PinnedRoute) : double :=
  if decide (domain_link x b) then inter_link x b
  else
    match r with
    | Some (_ :: ingress :: _) => with_intra (border_cost x (pp_pid ingress)) (cost intra (pp_pid ingress) b)
    | _ => default_interdomain_pdistance_ view
    end.

(** The links are in place and pairs inside of a domain are empty. *)
Record inter_base (inter : Mx) : Prop := {
  ib_locked : matrix_locked inter;
  ib_pids : pids_of (pids_ (so_data inter)) = Pin;
  ib_links a b : (a, b) ∈ graph_links ∨ external_ a = external_ b → cost (so_data inter) a b = border_cost a b
}.

Lemma border_link a b : (a, b) ∈ graph_links → external_ a ≠ external_ b → a ∈ Pin → b ∈ Pin → border_cost a b = inter_link a b.
Proof. intros. unfold border_cost. by rewrite decide_True. Qed.

(** Filling the empty cells of a row. *)
Lemma fill_row (f : PID → Mx → outcome Mx) (o : PID → Mx → outcome double) (val : PID → double) a dsts (inter : Mx) :
  (∀ b m, f b m = fill_cell a b (o b m) m) →
  (∀ b m, b ∈ dsts → inter_base m → ¬ domain_link a b → o b m = Ok (val b)) →
  (∀ b, b ∈ dsts → domain_link a b → val b = inter_link a b) →
  inter_base inter → NoDup dsts → a ∈ Pin →
  (∀ b, b ∈ dsts → b ∈ Pin ∧ external_ a ≠ external_ b) →
  (∀ b, b ∈ dsts → ¬ domain_link a b → cost (so_data inter) a b = S754_nan) →
  ∃ inter', ofold f dsts inter = Ok inter' ∧ inter_base inter' ∧
    pids_ (so_data inter') = pids_ (so_data inter) ∧
    ∀ u w, cost (so_data inter') u w = if decide (u = a ∧ w ∈ dsts) then val w else cost (so_data inter) u w.
Proof.
  intros Hf Ho Hv HB HN Ha Hd Hnan.
  set (Q := λ (dn : list PID) (m : Mx), inter_base m ∧ pids_ (so_data m) = pids_ (so_data inter) ∧
    ∀ u w, cost (so_data m) u w = if decide (u = a ∧ w ∈ dn) then val w else cost (so_data inter) u w).
  apply (ofold_inv_split Q).
  - split_and!; [done..|]. intros u w. by rewrite decide_False by set_solver.
  - intros dn b rest m El (B & E & HC). assert (Hb : b ∈ dsts) by (rewrite El; set_solver).
    assert (Hnew : b ∉ dn) by (rewrite El, NoDup_app in HN; destruct HN as (_ & HN & _); intros X; apply (HN _ X); left).
    destruct (Hd b Hb) as [Hb1 Hb2].
    assert (HCb : cost (so_data m) a b = cost (so_data inter) a b) by (rewrite HC; by rewrite decide_False by tauto).
    rewrite Hf. destruct (fill_cell_Ok m a b (o b m) (val b) (ib_locked _ B)) as (m' & R & L' & E' & HC'); [by rewrite ib_pids..| |].
    { intros Hn. apply Ho; [done..|]. intros [Hl _]. rewrite (ib_links _ B) in Hn by auto.
      rewrite border_link in Hn by done. by rewrite inter_link_number in Hn. }
    exists m'. split; [done|].
    assert (HV : (if isnan (cost (so_data m) a b) then val b else cost (so_data m) a b) = val b).
    { destruct (decide (domain_link a b)) as [Hl|Hl].
      - rewrite (ib_links _ B) by (left; apply Hl). rewrite border_link by (done || apply Hl).
        by rewrite inter_link_number, Hv.
      - rewrite HCb, Hnan by done. done. }
    rewrite HV in HC'. split_and!; [|congruence|].
    + split; [done|by rewrite E', ib_pids|]. intros u w Huw. rewrite HC'. case_decide as Eq; [|by apply B].
      destruct Eq as [-> ->]. destruct Huw as [Hl|?]; [|done]. rewrite border_link by done. by apply Hv.
    + intros u w. rewrite HC', HC. clear. repeat case_decide; try done; set_solver.
Qed.

Lemma read_border (m : Mx) a b : inter_base m → (a, b) ∈ graph_links →
  peek (get_by_pid a b VCost_new) m = Ok (border_cost a b).
Proof. intros B Hl. rewrite read_cost by apply B. f_equal. apply (ib_links _ B). auto. Qed.

(** The pDistances from an internal PID to the external ones. *)
Lemma inter_row_out_Ok routes (intra inter : Mx) a : matrix_ok (so_data intra) → inter_base inter →
  a ∈ Pin → external_ a = false → NoDup external →
  (∀ x, x ∈ external → x ∈ Pin ∧ external_ x = true ∧ RS a x (map_find PID_ltb x routes)) →
  (∀ x, x ∈ external → ¬ domain_link a x → cost (so_data inter) a x = S754_nan) →
  ∃ inter', ofold (inter_cell_out view routes intra a) external inter = Ok inter' ∧ inter_base inter' ∧
    pids_ (so_data inter') = pids_ (so_data inter) ∧
    ∀ u w, cost (so_data inter') u w =
      if decide (u = a ∧ w ∈ external) then out_pdistance (so_data intra) a w (map_find PID_ltb w routes)
      else cost (so_data inter) u w.
Proof.
  intros Oi B Ha Hext HN HX Hnan.
  apply (fill_row _ (λ w, egress_pdistance view routes intra a w) (λ w, out_pdistance (so_data intra) a w (map_find PID_ltb w routes))); try done.
  - intros b m Hb Bm Hl. destruct (HX b Hb) as (_ & _ & HRS). unfold egress_pdistance, out_pdistance. rewrite decide_False by done.
    destruct (map_find PID_ltb b routes) as [route|]; [|done].
    destruct (good_route_egress _ _ _ (RS_good _ _ _ HRS)) as (p & q & l & -> & Hq).
    rewrite (read_border m _ _ Bm Hq). cbn. unfold with_intra. destruct (interdomain_includes_intradomain_ view); [|done].
    by rewrite read_cost.
  - intros b _ Hl. unfold out_pdistance. by rewrite decide_True.
  - intros b Hb. destruct (HX b Hb) as (? & E & _). split; [done|]. by rewrite E, Hext.
Qed.

(** The pDistances from an external PID to the internal ones. *)
Lemma inter_row_in_Ok routes (intra inter : Mx) x dsts : matrix_ok (so_data intra) → inter_base inter →
  x ∈ Pin → external_ x = true → NoDup dsts →
  (∀ b, b ∈ dsts → b ∈ Pin ∧ external_ b = false ∧ RS x b (map_find PID_ltb b routes)) →
  (∀ b, b ∈ dsts → ¬ domain_link x b → cost (so_data inter) x b = S754_nan) →
  ∃ inter', ofold (inter_cell_in view routes intra x) dsts inter = Ok inter' ∧ inter_base inter' ∧
    pids_ (so_data inter') = pids_ (so_data inter) ∧
    ∀ u w, cost (so_data inter') u w =
      if decide (u = x ∧ w ∈ dsts) then in_pdistance (so_data intra) x w (map_find PID_ltb w routes)
      else cost (so_data inter) u w.
Proof.
  intros Oi B Ha Hext HN HX Hnan.
  apply (fill_row _ (λ w, ingress_pdistance view routes intra x w) (λ w, in_pdistance (so_data intra) x w (map_find PID_ltb w routes))); try done.
  - intros b m Hb Bm Hl. destruct (HX b Hb) as (_ & _ & HRS). unfold ingress_pdistance, in_pdistance. rewrite decide_False by done.
    destruct (map_find PID_ltb b routes) as [route|]; [|done].
    destruct (good_route_ingress _ _ _ (RS_good _ _ _ HRS)) as (p & q & l & -> & Hq).
    rewrite (read_border m _ _ Bm Hq). cbn. unfold with_intra. destruct (interdomain_includes_intradomain_ view); [|done].
    by rewrite read_cost.
  - intros b _ Hl. unfold in_pdistance. by rewrite decide_True.
  - intros b Hb. destruct (HX b Hb) as (? & E & _). split; [done|]. by rewrite E, Hext.
Qed.

(** ** All rows *)
Variable internal : list IndexedPID.
Notation Pintra := (pids_of internal).
Hypothesis Hinternal : ∀ a, a ∈ Pintra → a ∈ P_all ∧ a ∈ Pin ∧ external_ a = false.
Hypothesis Hexternal : ∀ x, x ∈ external ↔ x ∈ Pin ∧ external_ x = true.
Hypothesis Hpinned : ∀ x, x ∈ Pin → x ∈ P_all.
Hypothesis Hnodup : NoDup external ∧ NoDup Pintra.

Record rows_inv (dn : list IndexedPID) (a : RouteComputationContext * Mx * Mx) : Prop := {
  ri_ctx : ctx a.1.1;
  ri_intra : matrix_locked a.1.2;
  ri_pids : pids_ (so_data a.1.2) = internal;
  ri_base : inter_base a.2;
  ri_intra_cost u w : u ∈ pids_of dn → w ∈ Pintra →
    ∃ r, RS u w r ∧ cost (so_data a.1.2) u w = intra_pdistance u w r;
  ri_inter_cost u w : u ∈ pids_of dn → w ∈ external →
    ∃ r, RS u w r ∧ cost (so_data a.2) u w = out_pdistance (so_data a.1.2) u w r;
  ri_rest u w : u ∉ pids_of dn → cost (so_data a.2) u w = border_cost u w
}.

Lemma out_pdistance_ext intra intra' u w r : (∀ y, cost intra' u y = cost intra u y) →
  out_pdistance intra' u w r = out_pdistance intra u w r.
Proof. intros E. unfold out_pdistance. case_decide; [done|]. repeat case_match; try done. by rewrite E. Qed.

Lemma row_out_Ok dn x a : x ∈ internal → ip_pid x ∉ pids_of dn → rows_inv dn a →
  ∃ a', row_out visit dijkstra view state pids external dynamic internal x a = Ok a' ∧ rows_inv (dn ++ [x]) a'.
Proof.
  intros Hx Hnew [I1 I2 I3 I4 I5 I6 I7]. destruct a as [[c intra] inter]. cbn [fst snd] in *. unfold row_out.
  assert (HxP : ip_pid x ∈ Pintra) by by apply list_elem_of_fmap_2.
  destruct (Hinternal _ HxP) as (X1 & X2 & X3). destruct HR as [_ HR']. destruct (HR' (ip_pid x) c X1 I1) as (c' & -> & C1 & C2).
  cbn. rewrite <- I3 in Hx. destruct (intra_row_Ok (result_ c') intra x I2 Hx) as (intra' & E1 & L1 & P1 & HC1).
  rewrite I3 in *. rewrite E1. cbn.
  destruct (inter_row_out_Ok (result_ c') intra' inter (ip_pid x)) as (inter' & E2 & B2 & _ & HC2);
    [apply L1|done..|apply Hnodup| | |].
  { intros y Hy. apply Hexternal in Hy as [Y1 Y2]. auto. }
  { intros y Hy Hl. rewrite I7 by done. unfold border_cost. by rewrite decide_False by tauto. }
  rewrite E2. cbn. eexists. split; [reflexivity|]. split; cbn [fst snd]; [done..| | |].
  - intros u w. unfold pids_of at 1. rewrite fmap_app. intros Hu Hw. rewrite HC1.
    destruct (decide (u = ip_pid x)) as [->|Hne].
    + rewrite decide_True by done. exists (map_find PID_ltb w (result_ c')). split; [|done]. apply C2. by apply Hinternal.
    + rewrite decide_False by tauto. apply I5; [set_solver|done].
  - intros u w. unfold pids_of at 1. rewrite fmap_app. intros Hu Hw. rewrite HC2.
    destruct (decide (u = ip_pid x)) as [->|Hne].
    + rewrite decide_True by done. exists (map_find PID_ltb w (result_ c')). split; [|done]. apply C2, Hpinned. by apply Hexternal.
    + rewrite decide_False by tauto. destruct (I6 u w) as (r & R1 & R2); [set_solver|done|]. exists r. split; [done|].
      rewrite R2. symmetry. apply out_pdistance_ext. intros y. rewrite HC1. by rewrite decide_False by tauto.
  - intros u w. unfold pids_of. rewrite fmap_app. intros Hu. rewrite HC2, decide_False by set_solver. apply I7. unfold pids_of. set_solver.
Qed.

Record cols_inv (intra2 inter2 : Mx) (dn : list IndexedPID) (a : RouteComputationContext * Mx) : Prop := {
  ci_ctx : ctx a.1;
  ci_base : inter_base a.2;
  ci_in u w : u ∈ pids_of dn → external_ u = true → w ∈ Pintra →
    ∃ r, RS u w r ∧ cost (so_data a.2) u w = in_pdistance (so_data intra2) u w r;
  ci_rest u w : external_ u = false ∨ u ∉ pids_of dn → cost (so_data a.2) u w = cost (so_data inter2) u w
}.

Lemma row_in_Ok intra2 inter2 dn x a : matrix_ok (so_data intra2) →
  (∀ u w, u ∉ Pintra → cost (so_data inter2) u w = border_cost u w) →
  ip_pid x ∈ Pin → ip_pid x ∉ pids_of dn → cols_inv intra2 inter2 dn a →
  ∃ a', row_in visit dijkstra view state pids intra2 internal x a = Ok a' ∧ cols_inv intra2 inter2 (dn ++ [x]) a'.
Proof.
  intros Oi HB Hx Hnew [I1 I2 I3 I4]. destruct a as [c inter]. cbn [fst snd] in *. unfold row_in.
  destruct (external_ (ip_pid x)) eqn:Ex; cbn [negb].
  2: { eexists. split; [reflexivity|]. split; cbn [fst snd]; [done..| |].
       - intros u w. unfold pids_of. rewrite fmap_app. intros Hu Eu. apply I3; [|done]. unfold pids_of.
         assert (u ≠ ip_pid x) by congruence. set_solver.
       - intros u w Hu. apply I4. revert Hu. unfold pids_of. rewrite fmap_app. set_solver. }
  destruct HR as [_ HR']. destruct (HR' (ip_pid x) c (Hpinned _ Hx) I1) as (c' & -> & C1 & C2). cbn.
  assert (HxP : ip_pid x ∉ Pintra) by (intros X; destruct (Hinternal _ X) as (_ & _ & ?); congruence).
  destruct (inter_row_in_Ok (result_ c') intra2 inter (ip_pid x) Pintra) as (inter' & E2 & B2 & _ & HC2);
    [done..|apply Hnodup| | |].
  { intros b Hb. destruct (Hinternal _ Hb) as (? & ? & ?). auto. }
  { intros b Hb Hl. rewrite I4 by auto. rewrite HB by done. unfold border_cost. by rewrite decide_False by tauto. }
  fold (pids_of internal). rewrite E2. cbn. eexists. split; [reflexivity|]. split; cbn [fst snd]; [done..| |].
  - intros u w Hu Eu Hw. rewrite HC2. destruct (decide (u = ip_pid x)) as [->|Hne].
    + rewrite decide_True by done. exists (map_find PID_ltb w (result_ c')). split; [|done]. apply C2. by apply Hinternal.
    + rewrite decide_False by tauto. apply I3; [|done..]. revert Hu. unfold pids_of. rewrite fmap_app. set_solver.
  - intros u w Hu. rewrite HC2, decide_False.
    + apply I4. revert Hu. unfold pids_of. rewrite fmap_app. set_solver.
    + intros [-> _]. revert Hu. unfold pids_of. rewrite fmap_app. destruct 1 as [?|Hu]; [congruence|set_solver].
Qed.

(** ** [compute_pdistances] *)
Lemma compute_pdistances_Ok (intra inter : Mx) : matrix_locked intra → matrix_locked inter →
  pids_ (so_data intra) = internal → pids_of (pids_ (so_data inter)) = Pin →
  (∀ a b, cost (so_data inter) a b = S754_nan) →
  ∃ intra' inter', compute_pdistances visit dijkstra view state dynamic pids external intra inter = Ok (intra', inter') ∧
    matrix_locked intra' ∧ pids_ (so_data intra') = internal ∧ inter_base inter' ∧
    (∀ a b, a ∈ Pintra → b ∈ Pintra → ∃ r, RS a b r ∧ cost (so_data intra') a b = intra_pdistance a b r) ∧
    (∀ a x, a ∈ Pintra → x ∈ external →
       ∃ r, RS a x r ∧ cost (so_data inter') a x = out_pdistance (so_data intra') a x r) ∧
    (∀ x a, x ∈ external → a ∈ Pintra →
       ∃ r, RS x a r ∧ cost (so_data inter') x a = in_pdistance (so_data intra') x a r).
Proof.
  intros L1 L2 E1 E2 Hnan. unfold compute_pdistances. rewrite E1.
  destruct find_interdomain_links_Ok as (links & -> & HL). cbn.
  destruct (set_links_Ok links inter L2) as (inter1 & -> & L3 & E3 & HC). cbn. rewrite E2 in HC.
  assert (HC1 : ∀ a b, cost (so_data inter1) a b = border_cost a b).
  { intros a b. rewrite HC, Hnan. unfold border_cost. specialize (HL a b).
    repeat case_decide; try done; tauto. }
  assert (B1 : inter_base inter1) by (split; [done|by rewrite E3|auto]).
  destruct (ofold_inv_split rows_inv (row_out visit dijkstra view state pids external dynamic internal) internal
    (context_new, intra, inter1)) as ([[c intra2] inter2] & -> & [I1 I2 I3 I4 I5 I6 I7]).
  { split; cbn [fst snd]; try done; [apply HR|set_solver..]. }
  { intros dn x rest a El HI. apply row_out_Ok; [rewrite El; set_solver| |done].
    destruct Hnodup as [_ HN]. rewrite El in HN. unfold pids_of in HN. rewrite fmap_app in HN.
    apply NoDup_app in HN as (_ & HN & _). intros X. eapply HN; [exact X|left]. }
  cbn [fst snd] in *. cbn -[row_in ofold].
  change (@pair RouteComputationContext (Server M PIDMatrixData) c inter2) with (@pair RouteComputationContext Mx c inter2).
  change (RouteComputationContext * Server M PIDMatrixData)%type with (RouteComputationContext * Mx)%type.
  destruct (ofold_inv_split (cols_inv intra2 inter2) (row_in visit dijkstra view state pids intra2 internal)
    (pids_ (so_data inter2)) (c, inter2)) as ([c3 inter3] & -> & [J1 J2 J3 J4]).
  { split; cbn [fst snd]; try done. set_solver. }
  { intros dn x rest a El HI. pose proof (ib_pids _ I4) as Ep. apply row_in_Ok; [apply I2|done| | |done].
    - rewrite <- Ep, El. unfold pids_of. rewrite fmap_app. set_solver.
    - pose proof (set_sorted_nodup PID_ltb _ (mo_sorted _ (proj1 (ib_locked _ I4)))) as HN. rewrite El in HN.
      unfold pids_of in HN. rewrite fmap_app in HN. apply NoDup_app in HN as (_ & HN & _). intros X. eapply HN; [exact X|left]. }
  cbn [fst snd] in *. cbn. eexists _, _. split; [reflexivity|]. split_and!; [done..| |].
  - intros a x Ha Hx. destruct (I6 a x Ha Hx) as (r & R1 & R2). exists r. split; [done|]. rewrite J4, R2; [done|].
    left. by apply Hinternal.
  - intros x a Hx Ha. apply Hexternal in Hx as [X1 X2]. apply J3; [|done..]. by rewrite ib_pids.
Qed.
End pdistances.

(** ** Routes by weights *)
Lemma path_head g src v l : path g src v l → head l = Some src.
Proof. induction 1 as [|u v p e Hp IH]; [done|]. destruct p; [done|]. exact IH. Qed.

Lemma path_steps g src v l i x y : path g src v l → l !! i = Some x → l !! S i = Some y →
  ∃ e, e ∈ edges g ∧ e_src e = x ∧ e_dst e = y.
Proof.
  intros HP. revert i x y. induction HP as [|u v p e Hp IH He Hs Hd]; intros i x y Hx Hy.
  { destruct i; done. }
  destruct (decide (S i < length p)) as [Hl|Hl].
  { rewrite lookup_app_l in Hx, Hy by lia. eauto. }
  assert (S i = length p) as El.
  { apply lookup_lt_Some in Hy. rewrite length_app in Hy. cbn in Hy. lia. }
  rewrite lookup_app_r in Hy by lia. rewrite El, Nat.sub_diag in Hy. injection Hy as <-.
  rewrite lookup_app_l in Hx by lia. exists e. split_and!; [done| |done].
  pose proof (path_last _ _ _ _ Hp) as E. rewrite last_lookup in E. rewrite <- El in E. cbn in E. congruence.
Qed.

Section weights.
Context {M : Type} `{SharedMutex M} {P : Type} `{!OptPluginBase M P}.
Variable visit : PinnedPIDSet → list PinnedPID.
Hypothesis visit_perm : ∀ l, visit l ≡ₚ l.
Variable dijkstra : NetGraph → NetVertex → gmap NetVertex nat → gmap positive double → outcome (gmap NetVertex NetVertex).
Context (view : View M P) (state : NetState (M := M)) (pids : PinnedPIDSet).
Notation GS := (graph_ (so_data state)).
Notation routing := (intradomain_routing view).

(** Every PID is pinned to a vertex of the network, which has this PID. *)
Definition pinned_ok (p : PinnedPID) : Prop :=
  ∃ v, v_set_ p = [v] ∧ v ∈ vertices GS ∧ vertex_pid GS v = pp_pid p.

(** The specification of the routes between two PIDs: a shortest path, or none. *)
Definition shortest_between (a b : PID) (r : option PinnedRoute) : Prop :=
  ∃ pa pb va, find_pinned a pids = Some pa ∧ find_pinned b pids = Some pb ∧ get_vertex pa = Ok va ∧
    route_to routing state va pb r.

Hypothesis Hmode : route_mode_ (so_data routing) = RM_WEIGHTS.
Hypothesis Hrouting : routing_ok (so_data routing).
Hypothesis Hgraph : graph_ok GS.
Hypothesis Hnodup : NoDup (pp_pid <$> pids).
Hypothesis Hpins : Forall pinned_ok pids.
Hypothesis Hdijkstra : ∀ v, v ∈ vertices GS → dijkstra_contract dijkstra routing state v.

Lemma find_pinned_elem p : p ∈ pids → find_pinned (pp_pid p) pids = Some p.
Proof. intros Hp. by apply (find_key_elem pp_pid). Qed.

Lemma pinned_vertex p : p ∈ pids → ∃ v, get_vertex p = Ok v ∧ v ∈ vertices GS ∧ vertex_pid GS v = pp_pid p.
Proof.
  intros Hp. rewrite Forall_forall in Hpins. destruct (Hpins p Hp) as (v & E & H1 & H2).
  exists v. unfold get_vertex. by rewrite E.
Qed.

Lemma weights_routes_ok : routes_ok visit dijkstra view state pids shortest_between
  (λ c, vert_indexes_ c = ∅ ∨ context_ok routing state c).
Proof.
  split; [by left|]. intros src c (ps & -> & Hps)%list_elem_of_fmap Hc.
  destruct (pinned_vertex ps Hps) as (vs & Ev & Hv & _).
  unfold routes_from, get_routes. rewrite (find_pinned_elem ps Hps), Hmode. cbn.
  destruct (get_routes_weights_Ok visit visit_perm dijkstra routing ps vs state pids c Hrouting Hgraph Ev Hnodup)
    as (c' & -> & C1 & C2); [|done|by apply Hdijkstra|].
  { rewrite Forall_forall. intros p Hp. destruct (pinned_vertex p Hp) as (v & E1 & E2 & _). by exists v. }
  cbn. exists c'. split_and!; [done|by right|]. intros dst (pd & -> & Hpd)%list_elem_of_fmap.
  exists ps, pd, vs. rewrite !find_pinned_elem by done. split_and!; [done..|]. by apply C2.
Qed.

Lemma weights_routes_good a b (r : list PinnedPID) : shortest_between a b (Some r) → good_route state a b r.
Proof.
  intros (pa & pb & va & Fa & Fb & Ea & vb & Eb & Hne & p & HP & HN & _ & Er).
  apply find_pinned_Some in Fa as [Ha <-]. apply find_pinned_Some in Fb as [Hb <-].
  destruct (pinned_vertex pa Ha) as (va' & Ea' & _ & Pa). rewrite Ea in Ea'. injection Ea' as <-.
  destruct (pinned_vertex pb Hb) as (vb' & Eb' & _ & Pb). rewrite Eb in Eb'. injection Eb' as <-.
  assert (Emap : pp_pid <$> r = vertex_pid GS <$> (p ++ [vb])).
  { rewrite Er. unfold pin. rewrite !fmap_app, <- list_fmap_compose. cbn. by rewrite Pb. }
  pose proof (path_head _ _ _ _ HP) as Hh. pose proof (path_last _ _ _ _ HP) as Hl.
  assert (Hlen : length r = length (p ++ [vb])) by (rewrite <- (length_fmap pp_pid), Emap; apply length_fmap).
  split.
  - rewrite Hlen, length_app. destruct p; cbn in *; [congruence|lia].
  - rewrite <- Pa. destruct r as [|x r], (p ++ [vb]) as [|u l]; try done. cbn in *. injection Hh as ->. congruence.
  - rewrite <- Pb, <- fmap_last, Emap. by rewrite fmap_last, Hl.
  - intros i x y Hx Hy.
    assert (HT : ∀ j z, r !! j = Some z → ∃ u, (p ++ [vb]) !! j = Some u ∧ vertex_pid GS u = pp_pid z).
    { intros j z Hz. assert (E : (pp_pid <$> r) !! j = Some (pp_pid z)) by (rewrite list_lookup_fmap; by rewrite Hz).
      rewrite Emap, list_lookup_fmap in E. apply fmap_Some in E as (u & E1 & E2). eauto. }
    destruct (HT _ _ Hx) as (u & U1 & <-), (HT _ _ Hy) as (w & W1 & <-).
    destruct (path_steps _ _ _ _ _ _ _ HP U1 W1) as (e & He & <- & <-).
    unfold graph_links. apply list_elem_of_fmap. eauto.
Qed.
End weights.
