(* ===== verification/ViewTopology.v ===== *)
(** * The topology that an update computes with

    The first stages of an update turn the network into one with a vertex for every PID:
    [find_pids] pins the PIDs of the view, [aggregate_topology] contracts the vertices of
    each of them, [handle_extra_nodes] removes or names the other vertices.  The lemmas
    say that the stages succeed, and how the vertices and edges of the result relate to
    those of the network. *)
From S2P Require Import Prelude StdMap Double IpAddr Pid Locking ServerObject PidMatrix.
From S2P Require Import PidAggregation NetState NetStateSpec PidRouting PidRoutingSpec ViewUpdate.
From S2P Require Import ViewUpdateSpec.

(** An invariant of a loop that carries a value and changes the state. *)
Lemma st_fold_inv {S A B} (I : list B → A → S → Prop) (f : B → A → ST S A) l a s : I [] a s →
  (∀ dn x rest a s, l = dn ++ x :: rest → I dn a s → ∃ a' s', f x a s = Ok (a', s') ∧ I (dn ++ [x]) a' s') →
  ∃ a' s', st_fold f l a s = Ok (a', s') ∧ I l a' s'.
Proof.
  intros H0 HS.
  assert (HG : ∀ rest dn a s, l = dn ++ rest → I dn a s → ∃ a' s', st_fold f rest a s = Ok (a', s') ∧ I l a' s').
  { induction rest as [|x rest IH]; intros dn a0 s0 El HI; cbn [st_fold].
    - rewrite app_nil_r in El. subst. eauto.
    - destruct (HS dn x rest a0 s0 El HI) as (a1 & s1 & E1 & H1). rewrite (st_bind_Ok _ _ _ _ _ E1).
      apply (IH (dn ++ [x])); [by rewrite <- app_assoc|done]. }
  by apply (HG l []).
Qed.

Section topology.
Context {M : Type} `{SharedMutex M}.
Variable new_addr : list positive → positive.
Hypothesis new_addr_fresh : ∀ l, new_addr l ∉ l.
Implicit Types s : NetState (M := M).
Notation G s := (graph_ (so_data s)).
Notation names s := (name_vert_map_ (so_data s)).

(** ** Properties of a vertex *)
Lemma update_vertex_Ok s v f : net_locked s → v ∈ vertices (G s) → (∀ p, v_name (f p) = v_name p) →
  ∃ s', (on_graph (put_vprop v f);; so_changed) s = Ok (tt, s') ∧ net_locked s' ∧
    g_edges (G s') = g_edges (G s) ∧ names s' = names s ∧
    ∀ x, vp (G s') x = if decide (x = v) then f <$> vp (G s) x else vp (G s) x.
Proof.
  intros [N Hw] Hv Hn. destruct (put_vprop_Ok (G s) v f (no_graph _ N) Hv) as (g' & P1 & G1 & _ & E1 & X1).
  destruct (graph_changed_Ok _ s g' Hw P1) as (s' & R & W & D). exists s'. split; [done|]. rewrite D. cbn.
  split_and!; [|done..]. split; [|done]. rewrite D. destruct N as [N1 N2 N3]. split; cbn; [done..|].
  intros n x. rewrite N3. setoid_rewrite X1. split.
  - intros (p & E & <-). case_decide; [exists (f p)|exists p]; by rewrite E.
  - intros (p & E & <-). case_decide; [|eauto]. apply fmap_Some in E as (q & E & ->). exists q. by rewrite Hn.
Qed.

(** The states differ in the PIDs of vertices only. *)
Record same_shape s s' : Prop := {
  ss_locked : net_locked s';
  ss_edges : g_edges (G s') = g_edges (G s);
  ss_names : names s' = names s;
  ss_props x : (λ p, (v_external p, v_name p)) <$> vp (G s') x = (λ p, (v_external p, v_name p)) <$> vp (G s) x
}.

Lemma same_shape_refl s : net_locked s → same_shape s s.
Proof. by split. Qed.

Lemma same_shape_trans s1 s2 s3 : same_shape s1 s2 → same_shape s2 s3 → same_shape s1 s3.
Proof. intros [A1 A2 A3 A4] [B1 B2 B3 B4]. split; [done|congruence..|]. intros x. by rewrite B4. Qed.

Lemma same_shape_vertices s s' x : same_shape s s' → x ∈ vertices (G s') ↔ x ∈ vertices (G s).
Proof.
  intros S. pose proof (ss_props _ _ S x) as E.
  assert (HN : ∀ g, x ∈ vertices g ↔ vp g x ≠ None) by (intros g; rewrite vp_None; split; [tauto|apply dec_stable]).
  rewrite !HN. destruct (vp (G s') x), (vp (G s) x); done.
Qed.

Lemma same_shape_ep s s' x y : same_shape s s' → ep (G s') x y = ep (G s) x y.
Proof. intros S. unfold ep. by rewrite (ss_edges _ _ S). Qed.

Lemma set_pid_Ok s v pid : net_locked s → v ∈ vertices (G s) →
  ∃ s', set_pid v pid s = Ok (tt, s') ∧ same_shape s s' ∧
    ∀ x, vertex_pid (G s') x = if decide (x = v) then pid else vertex_pid (G s) x.
Proof.
  intros L Hv. destruct (update_vertex_Ok s v (λ p, MkVProps (v_external p) (v_name p) pid) L Hv) as (s' & R & L' & E & Nn & V);
    [done|]. exists s'. split; [done|]. split.
  - split; [done..|]. intros x. rewrite V. case_decide; [|done]. by destruct (vp (G s) x).
  - intros x. unfold vertex_pid. rewrite V. case_decide; [|done]. subst. destruct (vp (G s) v) eqn:Ev; [done|].
    by apply vp_None in Ev.
Qed.

Lemma set_pids_iter s vs pid : net_locked s → (∀ v, v ∈ vs → v ∈ vertices (G s)) →
  ∃ s', st_iter (λ v, set_pid v pid) vs s = Ok (tt, s') ∧ same_shape s s'.
Proof.
  intros L HV. apply (st_iter_inv (λ _ s', same_shape s s')); [by apply same_shape_refl|].
  intros dn v rest s1 El S1. destruct (set_pid_Ok s1 v pid (ss_locked _ _ S1)) as (s2 & R2 & S2 & _).
  { apply (same_shape_vertices _ _ _ S1), HV. rewrite El. set_solver. }
  exists s2. split; [done|]. by eapply same_shape_trans.
Qed.

(** ** [find_pids] *)
(** The vertices that the names of a PID stand for, and whether all are internal. *)
Definition found s (ns : list NetVertexName) : list NetVertex := omap (λ n, map_find text_ltb n (names s)) ns.
Definition is_external s (v : NetVertex) : bool := default false (v_external <$> vp (G s) v).

Lemma found_vertices s ns v : net_ok (so_data s) → v ∈ found s ns → v ∈ vertices (G s).
Proof.
  intros N (n & _ & F)%list_elem_of_omap. apply (no_names _ N) in F as (p & E & _).
  apply dec_stable. rewrite <- vp_None. congruence.
Qed.

Lemma find_vertices_Ok s ns acc b : net_ok (so_data s) →
  find_vertices ns acc b s =
    Ok ((set_inserts Pos.ltb (found s ns) acc, b && forallb (λ v, negb (is_external s v)) (found s ns)), s).
Proof.
  intros N. revert acc b. induction ns as [|n ns IH]; intros acc b; cbn [find_vertices].
  { cbn. by rewrite andb_true_r. }
  rewrite (st_bind_Ok _ _ _ _ _ (net_get_node_Ok s n)). unfold found. cbn [omap list_omap].
  destruct (map_find text_ltb n (names s)) as [v|] eqn:F; [|apply IH].
  apply (no_names _ N) in F as (p & E & _). unfold get_external. rewrite st_bind_eq.
  rewrite (st_bind_Ok _ _ _ _ _ (read_graph_Ok _ _ _ (vprop_Ok _ _ _ E))). cbn [mret st_ret]. rewrite IH.
  cbn [forallb set_inserts fold_left]. unfold is_external at 2. rewrite E. cbn. fold (found s ns). f_equal. f_equal. f_equal.
  destruct b, (v_external p); done.
Qed.

Lemma same_shape_found s s' ns : same_shape s s' → found s' ns = found s ns.
Proof. intros S. unfold found. by rewrite (ss_names _ _ S). Qed.
Lemma same_shape_external s s' v : same_shape s s' → is_external s' v = is_external s v.
Proof.
  intros S. unfold is_external. pose proof (ss_props _ _ S v) as E.
  destruct (vp (G s') v), (vp (G s) v); try done. cbn in *. congruence.
Qed.

(** The PID of a record, external when one of its vertices is, pinned to its vertices. *)
Definition rec_pid s (r : PIDRecord) : PID :=
  MkPID (isp_ (pr_pid r)) (num_ (pr_pid r)) (negb (forallb (λ v, negb (is_external s v)) (found s (pr_vertices r)))).
Definition rec_pin s (r : PIDRecord) : PinnedPID :=
  MkPinnedPID (rec_pid s r) (set_inserts Pos.ltb (found s (pr_vertices r)) []).

Lemma same_shape_internal s s' l : same_shape s s' →
  forallb (λ v, negb (is_external s' v)) l = forallb (λ v, negb (is_external s v)) l.
Proof. intros S. induction l as [|v l IH]; [done|]. cbn. by rewrite IH, (same_shape_external _ _ _ S). Qed.

(** The sets of PIDs after the records [dn]. *)
Record sets_ok s (dn : list PIDRecord) (ps : PidSets) : Prop := {
  so_pins : pids ps = rec_pin s <$> dn;
  so_all : set_sorted PID_ltb (pids_all ps) ∧ ∀ x, x ∈ pids_all ps ↔ x ∈ rec_pid s <$> dn;
  so_int : set_sorted PID_ltb (pids_internal ps) ∧ ∀ x, x ∈ pids_internal ps ↔ x ∈ rec_pid s <$> dn ∧ external_ x = false;
  so_ext : set_sorted PID_ltb (pids_external ps) ∧ ∀ x, x ∈ pids_external ps ↔ x ∈ rec_pid s <$> dn ∧ external_ x = true
}.

Lemma set_insert_if (b : bool) pid l (Q : PID → Prop) (R : PID → Prop) :
  set_sorted PID_ltb l ∧ (∀ x, x ∈ l ↔ Q x) → (∀ x, R x ↔ Q x ∨ (b = true ∧ x = pid)) →
  set_sorted PID_ltb (if b then set_insert PID_ltb pid l else l) ∧
  ∀ x, x ∈ (if b then set_insert PID_ltb pid l else l) ↔ R x.
Proof.
  intros [HS HQ] HRQ. destruct b.
  - split; [by apply (set_insert_sorted PID_ltb)|]. intros x. rewrite (set_insert_elem PID_ltb), HRQ, HQ. tauto.
  - split; [done|]. intros x. rewrite HRQ, HQ. naive_solver.
Qed.

Lemma find_pid_record_Ok s0 s r dn ps : same_shape s0 s → found s0 (pr_vertices r) ≠ [] →
  rec_pid s0 r ∉ rec_pid s0 <$> dn → sets_ok s0 dn ps →
  ∃ ps' s', find_pid_record r ps s = Ok (ps', s') ∧ same_shape s0 s' ∧ sets_ok s0 (dn ++ [r]) ps'.
Proof.
  intros S Hne Hnew [P1 P2 P3 P4]. pose proof (ss_locked _ _ S) as L. unfold find_pid_record.
  rewrite (st_bind_Ok _ _ _ _ _ (find_vertices_Ok s (pr_vertices r) [] true (proj1 L))). cbn [andb].
  rewrite (same_shape_found _ _ _ S), (same_shape_internal _ _ _ S). cbv zeta.
  change (MkPID (isp_ (pr_pid r)) (num_ (pr_pid r)) (negb (forallb (λ v, negb (is_external s0 v)) (found s0 (pr_vertices r)))))
    with (rec_pid s0 r).
  set (pid := rec_pid s0 r) in *. set (vs := set_inserts Pos.ltb (found s0 (pr_vertices r)) []).
  destruct (set_pids_iter s vs pid L) as (s' & R & S').
  { intros v Hv. unfold vs in Hv. apply (set_inserts_elem Pos.ltb) in Hv as [Hv|?%not_elem_of_nil]; [|done].
    rewrite <- (same_shape_found _ _ _ S) in Hv. by apply found_vertices in Hv; [|apply L]. }
  rewrite (st_bind_Ok _ _ _ _ _ R). assert (Hvs : PinnedPID_set pid vs = Ok (MkPinnedPID pid vs)).
  { unfold PinnedPID_set. destruct vs as [|v vs'] eqn:E; [|done]. exfalso. destruct (found s0 (pr_vertices r)) as [|w l] eqn:F; [done|].
    assert (w ∈ vs) as Hw by (unfold vs; apply (set_inserts_elem Pos.ltb); left; left). rewrite E in Hw. by apply not_elem_of_nil in Hw. }
  rewrite st_lift_bind. change (PinnedPID_set pid _) with (PinnedPID_set pid vs). rewrite Hvs. eexists _, _. split; [reflexivity|]. split; [by eapply same_shape_trans|].
  assert (HF : ∀ x, x ∈ rec_pid s0 <$> dn ++ [r] ↔ x ∈ rec_pid s0 <$> dn ∨ x = pid).
  { intros x. rewrite fmap_app, elem_of_app. cbn. by rewrite list_elem_of_singleton. }
  split; cbn [pids pids_all pids_internal pids_external].
  - rewrite fmap_app, P1. unfold insert_pinned. cbn [pp_pid].
    destruct (find_pinned pid (rec_pin s0 <$> dn)) as [q|] eqn:F; [|done].
    apply find_pinned_Some in F as [(r' & -> & Hr')%list_elem_of_fmap E]. destruct Hnew. rewrite <- E. exact (list_elem_of_fmap_2 (rec_pid s0) _ _ Hr').
  - apply (set_insert_if true pid _ _ _ P2). intros x. rewrite HF. tauto.
  - pose proof (set_insert_if (negb (external_ pid)) pid _ _ (λ x, x ∈ rec_pid s0 <$> dn ++ [r] ∧ external_ x = false) P3) as X.
    destruct (external_ pid) eqn:Ee; apply X; intros x; rewrite HF; naive_solver congruence.
  - apply (set_insert_if (external_ pid) pid _ _ _ P4). intros x. rewrite HF. naive_solver congruence.
Qed.

Lemma find_pids_Ok {P} `{!OptPluginBase M P} s (view : View M P) : net_locked s →
  let rs := get_pid_map (aggregation view) in
  (∀ r, r ∈ rs → found s (pr_vertices r) ≠ []) → NoDup (rec_pid s <$> rs) →
  ∃ ps s', find_pids view s = Ok (ps, s') ∧ same_shape s s' ∧ sets_ok s rs ps.
Proof.
  intros L rs Hne HN. unfold find_pids. fold rs.
  destruct (st_fold_inv (λ dn ps s', same_shape s s' ∧ sets_ok s dn ps) find_pid_record rs (MkPidSets [] [] [] []) s)
    as (ps & s' & R & HS & HP); [| |eauto].
  - split; [by apply same_shape_refl|]. split; cbn; [done|..]; (split; [constructor|set_solver]).
  - intros dn r rest ps s1 El [S1 P1].
    destruct (find_pid_record_Ok s s1 r dn ps S1) as (ps' & s' & R & HP); [apply Hne; rewrite El; set_solver| |done|eauto].
    rewrite El, fmap_app in HN. apply NoDup_app in HN as (_ & HN & _). intros X. eapply HN; [exact X|left].
Qed.

(** ** [aggregate_topology] *)
Lemma vertex_iff g x : x ∈ vertices g ↔ vp g x ≠ None.
Proof. rewrite vp_None. split; [tauto|apply dec_stable]. Qed.

Lemma edge_sum_is_Some d g x vs : is_Some (edge_sum d g x vs) ↔ ∃ v, v ∈ vs ∧ is_Some (epd d g x v).
Proof.
  unfold edge_sum. assert (HG : ∀ acc, is_Some (fold_left (λ acc v, match epd d g x v with
      Some p => Some (addp acc p) | None => acc end) vs acc) ↔ is_Some acc ∨ ∃ v, v ∈ vs ∧ is_Some (epd d g x v)).
  { induction vs as [|v vs IH]; intros acc; cbn [fold_left]; [set_solver|]. rewrite IH.
    destruct (epd d g x v) as [p|] eqn:E.
    - split; [intros _; right; exists v; rewrite E; set_solver|intros _; left; eauto].
    - split; [set_solver|]. intros [?|(u & [->|Hu]%elem_of_cons & HS)]; [auto| |eauto].
      rewrite E in HS. by destruct HS. }
  rewrite HG. split; [intros [[? [=]]|?]; done|auto].
Qed.

(** Which vertices of the previous network a vertex stands for. *)
Definition cls1 (v : NetVertex) (vs : list NetVertex) (x : NetVertex) : list NetVertex := if decide (x = v) then vs else [x].

(** [s'] is [s] with the vertices [vs] contracted into [v], which gets the PID and the name. *)
Record contracted s (vs : list NetVertex) (pid : PID) (v : NetVertex) s' : Prop := {
  ct_locked : net_locked s';
  ct_new : vs = [v] ∨ v ∉ vertices (G s);
  ct_vertices x : x ∈ vertices (G s') ↔ x = v ∨ (x ∈ vertices (G s) ∧ x ∉ vs);
  ct_pid x : vertex_pid (G s') x = if decide (x = v) then pid else if decide (x ∈ vs) then PID_DEFAULT else vertex_pid (G s) x;
  ct_external x : x ∈ vertices (G s') → is_external s' x = if decide (x = v) then external_ pid else is_external s x;
  ct_names n : is_Some (map_find text_ltb n (names s')) → n = PID_print pid ∨ is_Some (map_find text_ltb n (names s));
  ct_edges x y : x ∈ vertices (G s') → y ∈ vertices (G s') → x ≠ y →
    is_Some (ep (G s') x y) ↔ ∃ x0 y0, x0 ∈ cls1 v vs x ∧ y0 ∈ cls1 v vs y ∧ is_Some (ep (G s) x0 y0)
}.

(** The result of [aggregate_node]. *)
Lemma aggregate_node_shape s vs name : net_locked s → vs ≠ [] → NoDup vs → (∀ v, v ∈ vs → v ∈ vertices (G s)) →
  map_find text_ltb name (names s) = None →
  ∃ v s', aggregate_node new_addr vs name s = Ok ((true, v), s') ∧ net_locked s' ∧
    (vs = [v] ∨ v ∉ vertices (G s)) ∧
    (∀ x, vp (G s') x = if decide (x = v) then named name <$> (if decide (vs = [v]) then vp (G s) v else Some vprops_default)
                        else if decide (x ∈ vs) then None else vp (G s) x) ∧
    (∀ x y, x ∈ vertices (G s') → y ∈ vertices (G s') → x ≠ y →
       is_Some (ep (G s') x y) ↔ ∃ x0 y0, x0 ∈ cls1 v vs x ∧ y0 ∈ cls1 v vs y ∧ is_Some (ep (G s) x0 y0)).
Proof.
  intros L Hne HN HV Hname. destruct (decide (length vs = 1)) as [Hl|Hl].
  - destruct vs as [|v [|? ?]]; cbn in Hl; [done| |lia]. clear Hl Hne HN.
    destruct (vp (G s) v) as [p|] eqn:Ev; [|apply vp_None in Ev; by destruct Ev; apply HV; left].
    destruct (set_name_Ok s v p name L Ev) as (s' & R & L' & V & E); [by rewrite Hname|].
    exists v, s'. split_and!; [|done|by left|..].
    + unfold aggregate_node. by rewrite (st_bind_Ok _ _ _ _ _ R).
    + intros x. rewrite V, Ev. repeat case_decide; try done; set_solver.
    + intros x y _ _ _. unfold ep. rewrite E. fold (ep (G s) x y). unfold cls1.
      repeat case_decide; subst; set_solver.
  - destruct (aggregate_node_Ok new_addr new_addr_fresh s vs name L HN Hl HV Hname) as (v & s' & R & L' & Hv & V & E).
    assert (Hv' : v ∉ vs) by (intros X; by apply Hv, HV).
    exists v, s'. split_and!; [done..|by right| |].
    + intros x. rewrite V. destruct (decide (x = v)) as [->|Hx].
      * rewrite (decide_False (P := v ∈ vs)) by done. rewrite decide_False by (intros ->; by apply Hl). done.
      * done.
    + intros x y Hx Hy Hxy. apply vertex_iff in Hx, Hy. rewrite V in Hx, Hy. rewrite E.
      assert (Hx' : x ∉ vs) by (intros X; rewrite decide_True in Hx; done).
      assert (Hy' : y ∉ vs) by (intros X; rewrite decide_True in Hy; done).
      rewrite decide_False by tauto. unfold cls1. repeat case_decide; subst; try done.
      * rewrite edge_sum_is_Some. cbn. set_solver.
      * rewrite edge_sum_is_Some. cbn. set_solver.
      * set_solver.
Qed.

Lemma net_name_iff s n : net_ok (so_data s) →
  is_Some (map_find text_ltb n (names s)) ↔ ∃ v p, vp (G s) v = Some p ∧ v_name p = n.
Proof. intros N. split; [intros [v F]; apply (no_names _ N) in F; eauto|]. intros (v & p & F). exists v. apply N. eauto. Qed.

Lemma contract_Ok s vs pid : net_locked s → vs ≠ [] → NoDup vs → (∀ v, v ∈ vs → v ∈ vertices (G s)) →
  map_find text_ltb (PID_print pid) (names s) = None →
  ∃ v s1 s2 s', aggregate_node new_addr vs (PID_print pid) s = Ok ((true, v), s1) ∧
    set_external v (external_ pid) s1 = Ok (tt, s2) ∧ set_pid v pid s2 = Ok (tt, s') ∧ contracted s vs pid v s'.
Proof.
  intros L Hne HN HV Hname.
  destruct (aggregate_node_shape s vs (PID_print pid) L Hne HN HV Hname) as (v & s1 & R1 & L1 & Hnew & V1 & E1).
  assert (Hv1 : v ∈ vertices (G s1)).
  { apply vertex_iff. rewrite V1, decide_True by done. case_decide as Ev; [|done]. subst.
    pose proof (proj1 (vertex_iff (G s) v) (HV v ltac:(left))). by destruct (vp (G s) v). }
  destruct (update_vertex_Ok s1 v (λ p, MkVProps (external_ pid) (v_name p) (v_pid p)) L1 Hv1) as (s2 & R2 & L2 & E2 & N2 & V2); [done|].
  assert (Hv2 : v ∈ vertices (G s2)).
  { apply vertex_iff. rewrite V2, decide_True by done. apply vertex_iff in Hv1. by destruct (vp (G s1) v). }
  destruct (update_vertex_Ok s2 v (λ p, MkVProps (v_external p) (v_name p) pid) L2 Hv2) as (s' & R3 & L3 & E3 & N3 & V3); [done|].
  exists v, s1, s2, s'. split_and!; [done..|].
  assert (HV' : ∀ x, vp (G s') x = if decide (x = v) then Some (MkVProps (external_ pid) (PID_print pid) pid)
                                   else if decide (x ∈ vs) then None else vp (G s) x).
  { intros x. rewrite V3, V2, V1. destruct (decide (x = v)) as [->|]; [|done].
    destruct (decide (vs = [v])) as [->|]; [|done].
    pose proof (proj1 (vertex_iff (G s) v) (HV v ltac:(left))). by destruct (vp (G s) v). }
  assert (HE : ∀ x y, ep (G s') x y = ep (G s1) x y) by (intros; unfold ep; by rewrite E3, E2).
  assert (HVx : ∀ x, x ∈ vertices (G s') ↔ x = v ∨ (x ∈ vertices (G s) ∧ x ∉ vs)).
  { intros x. rewrite !vertex_iff, HV'. repeat case_decide; naive_solver. }
  assert (HV1 : ∀ x, x ∈ vertices (G s') ↔ x ∈ vertices (G s1)).
  { intros x. rewrite !vertex_iff, HV', V1. destruct (decide (x = v)) as [->|]; [|done].
    apply vertex_iff in Hv1. rewrite V1, decide_True in Hv1 by done. done. }
  split; [done|done|done|..].
  - intros x. unfold vertex_pid. rewrite HV'. by repeat case_decide.
  - intros x [->|[Hx Hx']]%HVx; unfold is_external; rewrite HV'; [by rewrite !decide_True|].
    destruct (decide (x = v)); [done|]. by rewrite decide_False.
  - intros n (x & p & Hp & <-)%net_name_iff; [|apply L3]. rewrite HV' in Hp.
    destruct (decide (x = v)) as [->|]; [|destruct (decide (x ∈ vs)); [done|]].
    + injection Hp as <-. by left.
    + right. apply net_name_iff; [apply L|eauto].
  - intros x y Hx Hy Hxy. rewrite HE. apply E1; [by apply HV1..|done].
Qed.

(** The invariant of the loop: [cls] are the vertices of the network [s0] that a vertex
    stands for. *)
Record aggregating s0 (dn : list PinnedPID) (agg : list PinnedPID) (cls : NetVertex → list NetVertex) s : Prop := {
  ag_locked : net_locked s;
  ag_pins : Forall2 (λ p q, ∃ v, q = PinnedPID_vertex (pp_pid p) v ∧ v ∈ vertices (G s) ∧
              vertex_pid (G s) v = pp_pid p ∧ cls v = v_set_ p) dn agg;
  ag_vertices x : x ∈ vertices (G s) ↔ x ∈ concat (v_set_ <$> agg) ∨ (x ∈ vertices (G s0) ∧ x ∉ concat (v_set_ <$> dn));
  ag_nodup : NoDup (concat (v_set_ <$> agg));
  ag_old x : x ∈ concat (v_set_ <$> agg) → x ∉ vertices (G s0) ∨ x ∈ concat (v_set_ <$> dn);
  ag_rest x : x ∈ vertices (G s) → x ∉ concat (v_set_ <$> agg) → cls x = [x] ∧ is_external s x = is_external s0 x;
  ag_names n : is_Some (map_find text_ltb n (names s)) →
    n ∈ PID_print ∘ pp_pid <$> dn ∨ is_Some (map_find text_ltb n (names s0));
  ag_edges x y : x ∈ vertices (G s) → y ∈ vertices (G s) → x ≠ y →
    is_Some (ep (G s) x y) ↔ ∃ x0 y0, x0 ∈ cls x ∧ y0 ∈ cls y ∧ is_Some (ep (G s0) x0 y0)
}.

(** What the pins need: vertices of their own, and names that are free. *)
Record pins_ok s0 (pins : list PinnedPID) : Prop := {
  po_pids : NoDup (pp_pid <$> pins);
  po_prints : NoDup (PID_print ∘ pp_pid <$> pins);
  po_nonempty p : p ∈ pins → v_set_ p ≠ [];
  po_vertices p v : p ∈ pins → v ∈ v_set_ p → v ∈ vertices (G s0);
  po_disjoint : NoDup (concat (v_set_ <$> pins));
  po_names p : p ∈ pins → map_find text_ltb (PID_print (pp_pid p)) (names s0) = None
}.

Lemma elem_concat_sets (l : list PinnedPID) v : v ∈ concat (v_set_ <$> l) ↔ ∃ p, p ∈ l ∧ v ∈ v_set_ p.
Proof. rewrite list_elem_of_In, in_concat. setoid_rewrite <- list_elem_of_In. setoid_rewrite list_elem_of_fmap. naive_solver. Qed.

Lemma concat_sets_snoc (l : list PinnedPID) p : concat (v_set_ <$> l ++ [p]) = concat (v_set_ <$> l) ++ v_set_ p.
Proof. rewrite fmap_app, concat_app. cbn. by rewrite app_nil_r. Qed.

Lemma aggregating_pids s0 dn agg cls s : aggregating s0 dn agg cls s → pp_pid <$> agg = pp_pid <$> dn.
Proof.
  intros A. pose proof (ag_pins _ _ _ _ _ A) as F. clear A.
  induction F as [|p q dn' agg' (v & -> & _) _ IH]; [done|]. rewrite !fmap_cons, IH. done.
Qed.

Lemma aggregating_new s0 dn agg cls s p v : aggregating s0 dn agg cls s → v ∈ v_set_ p →
  v ∈ vertices (G s0) → v ∉ concat (v_set_ <$> dn) → v ∈ vertices (G s) ∧ v ∉ concat (v_set_ <$> agg).
Proof.
  intros A Hv H0 H1. split; [apply (ag_vertices _ _ _ _ _ A); auto|]. intros X.
  destruct (ag_old _ _ _ _ _ A v X); tauto.
Qed.

(** One more pin is contracted: the vertices [vs] of [p] are in the network and free. *)
Section step.
Context (s0 : NetState (M := M)) (dn agg : list PinnedPID) (cls : NetVertex → list NetVertex) (s s' : NetState (M := M)).
Context (p : PinnedPID) (v : NetVertex).
Hypothesis A : aggregating s0 dn agg cls s.
Hypothesis C : contracted s (v_set_ p) (pp_pid p) v s'.
Hypothesis Hvs : ∀ u, u ∈ v_set_ p → u ∈ vertices (G s) ∧ u ∉ concat (v_set_ <$> agg).
Notation vs := (v_set_ p).
Notation cls' := (λ x, if decide (x = v) then vs else cls x).

Lemma step_kept u : u ∈ concat (v_set_ <$> agg) → u ∈ vertices (G s) ∧ u ∉ vs ∧ u ≠ v.
Proof.
  intros Hu. assert (Hn : u ∉ vs) by (intros X; by apply (Hvs u)).
  assert (Hs : u ∈ vertices (G s)) by (apply (ag_vertices _ _ _ _ _ A); auto). split_and!; [done..|]. intros ->.
  destruct (ct_new _ _ _ _ _ C) as [E|E]; [|done]. rewrite E in Hn. set_solver.
Qed.

Lemma step_pins : Forall2 (λ p q, ∃ u, q = PinnedPID_vertex (pp_pid p) u ∧ u ∈ vertices (G s') ∧
  vertex_pid (G s') u = pp_pid p ∧ cls' u = v_set_ p) (dn ++ [p]) (agg ++ [PinnedPID_vertex (pp_pid p) v]).
Proof.
  apply Forall2_app.
  - assert (HF : Forall (λ q, ∀ u, v_set_ q = [u] → u ∈ vertices (G s) ∧ u ∉ vs ∧ u ≠ v) agg).
    { rewrite Forall_forall. intros q Hq u E. apply step_kept, elem_concat_sets. exists q. rewrite E. split; [done|left]. }
    pose proof (ag_pins _ _ _ _ _ A) as F. clear A Hvs. revert HF.
    induction F as [|p' q dn' agg' (u & -> & H1 & H2 & H3) F IH]; intros HF; constructor.
    + apply Forall_cons in HF as [HF _]. destruct (HF u eq_refl) as (K1 & K2 & K3). exists u.
      split_and!; [done|apply C; auto| |by rewrite decide_False].
      rewrite (ct_pid _ _ _ _ _ C), !decide_False by done. done.
    + apply IH. by apply Forall_cons in HF as [_ ?].
  - constructor; [|constructor]. exists v. split_and!; [done|apply C; auto| |by rewrite decide_True].
    by rewrite (ct_pid _ _ _ _ _ C), decide_True.
Qed.

(** The vertices that [u1] of the network before stands for are those of [u] after. *)
Lemma step_class u u0 : u = v ∨ (u ∈ vertices (G s) ∧ u ∉ vs) → u0 ∈ cls' u ↔ ∃ u1, u1 ∈ cls1 v vs u ∧ u0 ∈ cls u1.
Proof.
  intros Hu. unfold cls1. case_decide as Eu; [|set_solver].
  assert (HC : ∀ u1, u1 ∈ vs → cls u1 = [u1]) by (intros u1 Hu1; destruct (Hvs u1 Hu1); by apply (ag_rest _ _ _ _ _ A)).
  split; [intros Hu0; exists u0; rewrite HC by done; set_solver|]. intros (u1 & Hu1 & Hu0). rewrite HC in Hu0 by done. set_solver.
Qed.

Lemma step_edges x y : x ∈ vertices (G s') → y ∈ vertices (G s') → x ≠ y →
  is_Some (ep (G s') x y) ↔ ∃ x0 y0, x0 ∈ cls' x ∧ y0 ∈ cls' y ∧ is_Some (ep (G s0) x0 y0).
Proof.
  intros Hx Hy Hxy. rewrite (ct_edges _ _ _ _ _ C x y Hx Hy Hxy). apply (ct_vertices _ _ _ _ _ C) in Hx, Hy.
  assert (Hin : ∀ u u1, u = v ∨ (u ∈ vertices (G s) ∧ u ∉ vs) → u1 ∈ cls1 v vs u →
     u1 ∈ vertices (G s) ∧ (u1 ∈ vs ↔ u = v) ∧ (u ≠ v → u1 = u)).
  { intros u u1 Hu. unfold cls1. case_decide as Eu.
    - intros Hu1. destruct (Hvs u1 Hu1). tauto.
    - rewrite list_elem_of_singleton. intros ->. tauto. }
  assert (HE : ∀ x1 y1, x1 ∈ cls1 v vs x → y1 ∈ cls1 v vs y →
     is_Some (ep (G s) x1 y1) ↔ ∃ x0 y0, x0 ∈ cls x1 ∧ y0 ∈ cls y1 ∧ is_Some (ep (G s0) x0 y0)).
  { intros x1 y1 X1 Y1. destruct (Hin x x1 Hx X1) as (A1 & A2 & A3), (Hin y y1 Hy Y1) as (B1 & B2 & B3).
    apply (ag_edges _ _ _ _ _ A); [done..|]. intros ->.
    destruct (decide (x = v)), (decide (y = v)); [congruence|tauto..|]. apply Hxy. rewrite <- A3, <- B3 by done. done. }
  split.
  - intros (x1 & y1 & X1 & Y1 & H1). apply HE in H1 as (x0 & y0 & X0 & Y0 & H1); [|done..].
    exists x0, y0. split; [apply step_class; eauto|]. split; [apply step_class; eauto|done].
  - intros (x0 & y0 & (x1 & X1 & X0)%step_class & (y1 & Y1 & Y0)%step_class & H1); [|done..].
    exists x1, y1. split_and!; [done..|]. apply HE; eauto.
Qed.

Lemma aggregating_next : aggregating s0 (dn ++ [p]) (agg ++ [PinnedPID_vertex (pp_pid p) v]) cls' s'.
Proof.
  assert (Hvagg : v ∉ concat (v_set_ <$> agg)) by (intros X; destruct (step_kept v X) as (_ & _ & ?); done).
  split.
  - apply C.
  - apply step_pins.
  - intros x. rewrite (ct_vertices _ _ _ _ _ C), (ag_vertices _ _ _ _ _ A), !concat_sets_snoc, !elem_of_app. cbn.
    rewrite list_elem_of_singleton. pose proof (step_kept x). specialize (Hvs x). tauto.
  - rewrite concat_sets_snoc. cbn. apply NoDup_app. split_and!; [apply A| |apply NoDup_singleton].
    intros x Hx Ex%list_elem_of_singleton. by subst.
  - intros x. rewrite !concat_sets_snoc, !elem_of_app. cbn. rewrite list_elem_of_singleton.
    intros [Hx| ->]; [destruct (ag_old _ _ _ _ _ A x Hx); auto|]. destruct (ct_new _ _ _ _ _ C) as [E|E].
    + right. right. rewrite E. left.
    + rewrite (ag_vertices _ _ _ _ _ A) in E. destruct (decide (v ∈ vertices (G s0))), (decide (v ∈ concat (v_set_ <$> dn))); tauto.
  - intros x Hx. rewrite concat_sets_snoc, elem_of_app. cbn. rewrite list_elem_of_singleton. intros Hn.
    rewrite (ct_external _ _ _ _ _ C x Hx). apply (ct_vertices _ _ _ _ _ C) in Hx as [?|[Hx _]]; [tauto|].
    rewrite !decide_False by tauto. apply (ag_rest _ _ _ _ _ A); [done|tauto].
  - intros n Hn. rewrite fmap_app, elem_of_app. cbn. rewrite list_elem_of_singleton.
    destruct (ct_names _ _ _ _ _ C n Hn) as [->|Hn']; [auto|]. destruct (ag_names _ _ _ _ _ A n Hn'); auto.
  - apply step_edges.
Qed.
End step.

Lemma aggregate_step s0 dn p rest agg cls s : pins_ok s0 (dn ++ p :: rest) → aggregating s0 dn agg cls s →
  ∃ v s', aggregate_loop new_addr (p :: rest) agg s =
            aggregate_loop new_addr rest (agg ++ [PinnedPID_vertex (pp_pid p) v]) s' ∧
    aggregating s0 (dn ++ [p]) (agg ++ [PinnedPID_vertex (pp_pid p) v]) (λ x, if decide (x = v) then v_set_ p else cls x) s'.
Proof.
  intros O A. assert (Hp : p ∈ dn ++ p :: rest) by set_solver.
  assert (Hdis : NoDup (v_set_ p) ∧ ∀ v, v ∈ v_set_ p → v ∉ concat (v_set_ <$> dn)).
  { pose proof (po_disjoint _ _ O) as HN. rewrite fmap_app, concat_app in HN. cbn in HN.
    apply NoDup_app in HN as (_ & H1 & HN). apply NoDup_app in HN as (HN & _). split; [done|].
    intros v Hv X. eapply H1; [exact X|]. apply elem_of_app. by left. }
  assert (Hvs : ∀ v, v ∈ v_set_ p → v ∈ vertices (G s) ∧ v ∉ concat (v_set_ <$> agg)).
  { intros v Hv. eapply aggregating_new; [done|exact Hv|by eapply po_vertices|by apply Hdis]. }
  assert (Hname : map_find text_ltb (PID_print (pp_pid p)) (names s) = None).
  { destruct (map_find text_ltb (PID_print (pp_pid p)) (names s)) eqn:F; [|done]. exfalso.
    destruct (ag_names _ _ _ _ _ A (PID_print (pp_pid p))) as [X|X]; [by rewrite F| |].
    - pose proof (po_prints _ _ O) as HN. rewrite fmap_app in HN. apply NoDup_app in HN as (_ & HN & _).
      eapply HN; [exact X|]. cbn. left.
    - rewrite (po_names _ _ O p Hp) in X. by destruct X. }
  destruct (contract_Ok s (v_set_ p) (pp_pid p) (ag_locked _ _ _ _ _ A)) as (v & s1 & s2 & s' & R1 & R2 & R3 & C);
    [by apply (po_nonempty _ _ O)|apply Hdis|intros; by apply Hvs|done|].
  exists v, s'. split; [|by apply (aggregating_next s0 dn agg cls s)].
  cbn [aggregate_loop]. rewrite (st_bind_Ok _ _ _ _ _ R1). cbn [negb].
  rewrite (st_bind_Ok _ _ _ _ _ R2), (st_bind_Ok _ _ _ _ _ R3). unfold insert_pinned. cbn [pp_pid PinnedPID_vertex].
  assert (find_pinned (pp_pid p) agg = None) as ->; [|done]. apply find_pinned_None.
  rewrite (aggregating_pids _ _ _ _ _ A). pose proof (po_pids _ _ O) as HN. rewrite fmap_app in HN.
  apply NoDup_app in HN as (_ & HN & _). intros X. eapply HN; [exact X|left].
Qed.

Lemma aggregate_loop_Ok s0 rest : ∀ dn agg cls s, pins_ok s0 (dn ++ rest) → aggregating s0 dn agg cls s →
  ∃ agg' cls' s', aggregate_loop new_addr rest agg s = Ok (Some agg', s') ∧ aggregating s0 (dn ++ rest) agg' cls' s'.
Proof.
  induction rest as [|p rest IH]; intros dn agg cls s O A.
  { rewrite app_nil_r. cbn. eauto. }
  destruct (aggregate_step s0 dn p rest agg cls s O A) as (v & s' & -> & A').
  replace (dn ++ p :: rest) with ((dn ++ [p]) ++ rest) in * by (by rewrite <- app_assoc). eauto.
Qed.

Lemma aggregating_start s : net_locked s → aggregating s [] [] (λ x, [x]) s.
Proof.
  intros L. split; cbn; [done|constructor|set_solver|constructor|set_solver|done|auto|]. intros x y _ _ _.
  setoid_rewrite list_elem_of_singleton. naive_solver.
Qed.

(** ** [handle_extra_nodes] *)
(** The temporary pins of the vertices [l]. *)
Definition temp_pins (l : list NetVertex) : list PinnedPID :=
  imap (λ i v, PinnedPID_vertex (temp_pid (Z.of_nat i)) v) l.

Lemma temp_pins_snoc l v : temp_pins (l ++ [v]) = temp_pins l ++ [PinnedPID_vertex (temp_pid (Z.of_nat (length l))) v].
Proof. unfold temp_pins. rewrite imap_app. cbn. by rewrite Nat.add_0_r. Qed.

Lemma temp_pins_elem l p : p ∈ temp_pins l → ∃ i v, l !! i = Some v ∧ p = PinnedPID_vertex (temp_pid (Z.of_nat i)) v.
Proof. unfold temp_pins. rewrite elem_of_lookup_imap. naive_solver. Qed.

(** The vertices without a PID that stay, and those that go. *)
Definition keeps s (action : ExtraNodeAction) (v : NetVertex) : bool :=
  negb (is_external s v) && match action with ENA_IGNORE => true | ENA_REMOVE => false end.

Record extra_inv s (action : ExtraNodeAction) (agg : list PinnedPID) (dn : list NetVertex)
    (a : PinnedPIDSet * list NetVertex * Z) s' : Prop := {
  ei_shape : same_shape s s';
  ei_pids : let kept := filter (λ v, v ∉ concat (v_set_ <$> agg) ∧ keeps s action v = true) dn in
    a.1.1 = agg ++ temp_pins kept ∧ a.2 = Z.of_nat (length kept) ∧
    (∀ i v, kept !! i = Some v → vertex_pid (G s') v = temp_pid (Z.of_nat i));
  ei_removed : a.1.2 = filter (λ v, v ∉ concat (v_set_ <$> agg) ∧ keeps s action v = false) dn;
  ei_agg x : x ∈ concat (v_set_ <$> agg) → vertex_pid (G s') x = vertex_pid (G s) x
}.

Lemma extra_node_Ok s action agg dn v a s1 : net_locked s → v ∈ vertices (G s) → v ∉ dn →
  (∀ n, temp_pid n ∉ pp_pid <$> agg) → (Z.of_nat (length dn) + 1 < 2 ^ 32)%Z →
  extra_inv s action agg dn a s1 →
  ∃ a' s', extra_node action (concat (v_set_ <$> agg)) v a s1 = Ok (a', s') ∧ extra_inv s action agg (dn ++ [v]) a' s'.
Proof.
  intros L Hv Hnew Htmp Hlen [S1 (P1 & P2 & P3) R1 A1]. destruct a as [[ps rm] n]. cbn [fst snd] in *. subst ps rm n.
  set (kept := filter (λ x, x ∉ concat (v_set_ <$> agg) ∧ keeps s action x = true) dn) in *.
  unfold extra_node. destruct (decide (v ∈ concat (v_set_ <$> agg))) as [Ha|Ha].
  { eexists _, _. split; [reflexivity|]. split; cbn [fst snd]; [done|..]; rewrite ?filter_app, ?filter_cons, ?filter_nil.
    - rewrite decide_False by tauto. by rewrite app_nil_r.
    - rewrite decide_False by tauto. by rewrite app_nil_r.
    - done. }
  assert (Hext : get_external v s1 = Ok (is_external s v, s1)).
  { rewrite <- (same_shape_external _ _ v S1). apply (same_shape_vertices _ _ v S1), vertex_iff in Hv.
    unfold is_external, get_external. destruct (vp (G s1) v) as [p|] eqn:Ep; [|done].
    by rewrite (st_bind_Ok _ _ _ _ _ (read_graph_Ok _ _ _ (vprop_Ok _ _ _ Ep))). }
  rewrite (st_bind_Ok _ _ _ _ _ Hext).
  destruct (keeps s action v) eqn:Ek.
  - unfold keeps in Ek. apply andb_true_iff in Ek as [Ee Eact]. apply negb_true_iff in Ee. rewrite Ee.
    destruct action; [|done]. cbv zeta.
    destruct (set_pid_Ok s1 v (temp_pid (Z.of_nat (length kept))) (ss_locked _ _ S1)) as (s2 & R2 & S2 & V2).
    { by apply (same_shape_vertices _ _ v S1). }
    rewrite (st_bind_Ok _ _ _ _ _ R2). eexists _, _. split; [reflexivity|].
    assert (Hk : keeps s ENA_IGNORE v = true) by (unfold keeps; by rewrite Ee).
    assert (Hvk : v ∉ kept) by (unfold kept; intros [_ ?]%list_elem_of_filter; done).
    split; cbn [fst snd]; rewrite ?filter_app, ?filter_cons, ?filter_nil.
    + by eapply same_shape_trans.
    + rewrite decide_True by done. fold kept. rewrite temp_pins_snoc, length_app, app_assoc. cbn. split_and!.
      * unfold insert_pinned. cbn [pp_pid PinnedPID_vertex].
        assert (find_pinned (temp_pid (Z.of_nat (length kept))) (agg ++ temp_pins kept) = None) as ->; [|done].
        apply find_pinned_None. rewrite fmap_app. intros [X|(q & Eq & Hq)%list_elem_of_fmap]%elem_of_app; [by apply (Htmp _ X)|].
        apply temp_pins_elem in Hq as (i & w & Hi & ->). apply lookup_lt_Some in Hi. injection Eq as Eq. lia.
      * assert (length kept ≤ length dn) by apply length_filter. rewrite u32_small; lia.
      * intros i w Hi. rewrite V2. apply lookup_app_Some in Hi as [Hi|[Hge Hi]].
        -- rewrite decide_False; [by apply P3|]. intros ->. by apply Hvk, list_elem_of_lookup_2 with i.
        -- apply list_lookup_singleton_Some in Hi as [Hz <-]. rewrite decide_True by done. do 2 f_equal. lia.
    + rewrite decide_False by (rewrite Hk; naive_solver). by rewrite app_nil_r.
    + intros x Hx. rewrite V2, decide_False by (intros ->; done). by apply A1.
  - eexists (agg ++ temp_pins kept, _ ++ [v], Z.of_nat (length kept)), s1. split.
    { unfold keeps in Ek. destruct (is_external s v); [reflexivity|]. by destruct action. }
    split; cbn [fst snd]; [done|..]; rewrite ?filter_app, ?filter_cons, ?filter_nil.
    + rewrite decide_False by (rewrite Ek; naive_solver). by rewrite app_nil_r.
    + by rewrite decide_True.
    + done.
Qed.

Lemma handle_extra_nodes_Ok {P} (view : View M P) agg s : net_locked s →
  (∀ v, v ∈ concat (v_set_ <$> agg) → v ∈ vertices (G s)) → (∀ n, temp_pid n ∉ pp_pid <$> agg) →
  (Z.of_nat (length (vertices (G s))) < 2 ^ 32)%Z →
  ∃ kept s', handle_extra_nodes view agg s = Ok (agg ++ temp_pins kept, s') ∧ net_locked s' ∧ NoDup kept ∧
    (∀ v, v ∈ kept ↔ v ∈ vertices (G s) ∧ v ∉ concat (v_set_ <$> agg) ∧ keeps s (extra_node_action_ view) v = true) ∧
    (∀ x, x ∈ vertices (G s') ↔ x ∈ concat (v_set_ <$> agg) ∨ x ∈ kept) ∧
    (∀ i v, kept !! i = Some v → vertex_pid (G s') v = temp_pid (Z.of_nat i)) ∧
    (∀ x, x ∈ concat (v_set_ <$> agg) → vertex_pid (G s') x = vertex_pid (G s) x) ∧
    (∀ x y, x ∈ vertices (G s') → y ∈ vertices (G s') → ep (G s') x y = ep (G s) x y).
Proof.
  intros L Hin Htmp Hlen. pose proof (go_vertices _ (no_graph _ (proj1 L))) as HN. unfold handle_extra_nodes.
  rewrite (st_bind_Ok _ _ _ _ _ (read_graph_Ok (λ g, Ok (vertices g)) s _ eq_refl)).
  set (act := extra_node_action_ view). set (aggv := concat (v_set_ <$> agg)) in *.
  destruct (st_fold_inv (extra_inv s act agg) (extra_node act aggv) (vertices (G s)) (agg, [], 0%Z) s)
    as ([[ps rm] n] & s1 & R1 & [S1 (P1 & _ & P3) Rm A1]).
  { split; cbn; [by apply same_shape_refl|by rewrite app_nil_r|done|done]. }
  { intros dn v rest a s2 El HI. rewrite El in HN, Hlen. apply NoDup_app in HN as (_ & HN & _).
    rewrite length_app in Hlen. cbn in Hlen.
    apply extra_node_Ok; [done|rewrite El; set_solver|intros X; eapply HN; [exact X|left]|done|lia|done]. }
  cbn [fst snd] in *. rewrite (st_bind_Ok _ _ _ _ _ R1). set (kept := filter _ _) in *.
  assert (Hrm : ∀ v, v ∈ rm ↔ v ∈ vertices (G s) ∧ v ∉ aggv ∧ keeps s act v = false).
  { intros v. rewrite Rm, list_elem_of_filter. tauto. }
  assert (Hkept : ∀ v, v ∈ kept ↔ v ∈ vertices (G s) ∧ v ∉ aggv ∧ keeps s act v = true).
  { intros v. unfold kept. rewrite list_elem_of_filter. tauto. }
  destruct (remove_nodes_Ok new_addr new_addr_fresh s1 rm (ss_locked _ _ S1)) as (s' & R2 & L2 & V2 & E2).
  { rewrite Rm. by apply NoDup_filter. }
  { intros v Hv. apply (same_shape_vertices _ _ v S1). by apply Hrm. }
  rewrite (st_bind_Ok _ _ _ _ _ R2). exists kept, s'.
  assert (Hvx : ∀ x, x ∈ vertices (G s') ↔ x ∈ vertices (G s) ∧ x ∉ rm).
  { intros x. rewrite <- (same_shape_vertices _ _ x S1), !vertex_iff, V2. case_decide; naive_solver. }
  assert (Hpid : ∀ x, x ∉ rm → vertex_pid (G s') x = vertex_pid (G s1) x).
  { intros x Hx. unfold vertex_pid. by rewrite V2, decide_False. }
  assert (Hrm2 : ∀ x, x ∈ rm → x ∉ aggv ∧ x ∉ kept).
  { intros x Hx%Hrm. rewrite Hkept. destruct (keeps s act x); naive_solver. }
  split_and!; [by rewrite P1|done|unfold kept; by apply NoDup_filter|done| | | |].
  - intros x. rewrite Hvx, Hrm, Hkept. specialize (Hin x). destruct (decide (x ∈ aggv)), (keeps s act x); naive_solver.
  - intros i v Hi. rewrite Hpid; [by apply P3|]. intros X. apply (Hrm2 _ X). by eapply list_elem_of_lookup_2.
  - intros x Hx. rewrite Hpid; [by apply A1|]. intros X. by destruct (Hrm2 _ X).
  - intros x y Hx%Hvx Hy%Hvx. rewrite E2, decide_False by tauto. by apply same_shape_ep.
Qed.

(** ** The topology *)
Variable visit : PinnedPIDSet → list PinnedPID.
Hypothesis visit_perm : ∀ l, visit l ≡ₚ l.

Lemma concat_sets_perm (l1 l2 : list PinnedPID) : l1 ≡ₚ l2 → concat (v_set_ <$> l1) ≡ₚ concat (v_set_ <$> l2).
Proof.
  induction 1 as [| |x y l|]; cbn; [done|by apply Permutation_app| |by etransitivity].
  rewrite !app_assoc. apply Permutation_app_tail, Permutation_app_comm.
Qed.

Lemma pins_ok_perm s l1 l2 : l1 ≡ₚ l2 → pins_ok s l1 → pins_ok s l2.
Proof.
  intros E [H1 H2 H3 H4 H5 H6]. split.
  - by rewrite <- E.
  - by rewrite <- E.
  - intros p. rewrite <- E. auto.
  - intros p v. rewrite <- E. eauto.
  - by rewrite <- (concat_sets_perm _ _ E).
  - intros p. rewrite <- E. auto.
Qed.

Lemma pins_ok_shape s s' pins : same_shape s s' → pins_ok s pins → pins_ok s' pins.
Proof.
  intros S [H1 H2 H3 H4 H5 H6]. split; [done..| |done|].
  - intros p v Hp Hv. apply (same_shape_vertices _ _ v S). eauto.
  - intros p Hp. rewrite (ss_names _ _ S). auto.
Qed.

Lemma sets_length (l : list PinnedPID) : (∀ p, p ∈ l → v_set_ p ≠ []) → length l ≤ length (concat (v_set_ <$> l)).
Proof.
  induction l as [|p l IH]; intros Hne; [done|]. cbn. rewrite length_app.
  assert (v_set_ p ≠ []) by (apply Hne; left). destruct (v_set_ p); [done|]. cbn.
  specialize (IH ltac:(intros q Hq; apply Hne; by right)). lia.
Qed.

Lemma aggregating_length s0 dn agg cls s : aggregating s0 dn agg cls s → length (concat (v_set_ <$> agg)) = length dn.
Proof.
  intros A. pose proof (ag_pins _ _ _ _ _ A) as F. clear A.
  induction F as [|p q dn' agg' (v & -> & _) _ IH]; [done|]. cbn. by rewrite IH.
Qed.

(** Contracting does not add vertices. *)
Lemma aggregating_size s0 dn agg cls s : net_locked s0 → pins_ok s0 dn → aggregating s0 dn agg cls s →
  length (vertices (G s)) ≤ length (vertices (G s0)).
Proof.
  intros L O A. pose proof (go_vertices _ (no_graph _ (proj1 L))) as N0.
  pose proof (go_vertices _ (no_graph _ (proj1 (ag_locked _ _ _ _ _ A)))) as N1.
  set (rest := filter (.∉ concat (v_set_ <$> dn)) (vertices (G s0))).
  assert (E0 : vertices (G s0) ≡ₚ concat (v_set_ <$> dn) ++ rest).
  { apply NoDup_Permutation; [done| |].
    - apply NoDup_app. split_and!; [apply O| |by apply NoDup_filter].
      intros x Hx [? _]%list_elem_of_filter. done.
    - intros x. rewrite elem_of_app. unfold rest. rewrite list_elem_of_filter.
      destruct (decide (x ∈ concat (v_set_ <$> dn))) as [Hx|]; [|naive_solver]. split; [auto|]. intros _.
      apply elem_concat_sets in Hx as (p & Hp & Hx). by eapply po_vertices. }
  assert (E1 : vertices (G s) ≡ₚ concat (v_set_ <$> agg) ++ rest).
  { apply NoDup_Permutation; [done| |].
    - apply NoDup_app. split_and!; [apply A| |by apply NoDup_filter].
      intros x Hx [? ?]%list_elem_of_filter. destruct (ag_old _ _ _ _ _ A x Hx); done.
    - intros x. rewrite elem_of_app, (ag_vertices _ _ _ _ _ A). unfold rest. rewrite list_elem_of_filter. tauto. }
  rewrite E0, E1, !length_app, (aggregating_length _ _ _ _ _ A).
  pose proof (sets_length dn (po_nonempty _ _ O)). lia.
Qed.

(** The network of PIDs: every vertex is the vertex of one PID, which is one of the pins or
    stands for a single vertex of the network [s0] that the action keeps; two PIDs are
    linked when vertices that they stand for are. *)
Record pid_topology s0 (action : ExtraNodeAction) (pins pids : list PinnedPID) (cls : NetVertex → list NetVertex) s : Prop := {
  pt_locked : net_locked s;
  pt_nodup : NoDup (pp_pid <$> pids);
  pt_pins : Forall (pinned_ok s) pids;
  pt_all v : v ∈ vertices (G s) ↔ v ∈ concat (v_set_ <$> pids);
  pt_view p : p ∈ pins → ∃ v, PinnedPID_vertex (pp_pid p) v ∈ pids ∧ cls v = v_set_ p;
  pt_extra q : q ∈ pids → pp_pid q ∈ pp_pid <$> pins ∨
    ∃ v, v_set_ q = [v] ∧ cls v = [v] ∧ v ∈ vertices (G s0) ∧ v ∉ concat (v_set_ <$> pins) ∧ keeps s0 action v = true;
  pt_kept v : v ∈ vertices (G s0) → v ∉ concat (v_set_ <$> pins) → keeps s0 action v = true →
    v ∈ vertices (G s) ∧ cls v = [v];
  pt_edges x y : x ∈ vertices (G s) → y ∈ vertices (G s) → x ≠ y →
    is_Some (ep (G s) x y) ↔ ∃ x0 y0, x0 ∈ cls x ∧ y0 ∈ cls y ∧ is_Some (ep (G s0) x0 y0)
}.

Lemma concat_app_sets (l1 l2 : list PinnedPID) : concat (v_set_ <$> l1 ++ l2) = concat (v_set_ <$> l1) ++ concat (v_set_ <$> l2).
Proof. by rewrite fmap_app, concat_app. Qed.

Lemma temp_pins_sets l : concat (v_set_ <$> temp_pins l) = l.
Proof. induction l as [|v l IH] using rev_ind; [done|]. rewrite temp_pins_snoc, concat_sets_snoc, IH. done. Qed.

Lemma temp_pins_nodup l : NoDup (pp_pid <$> temp_pins l).
Proof.
  induction l as [|v l IH] using rev_ind; [constructor|]. rewrite temp_pins_snoc, fmap_app. apply NoDup_app.
  split_and!; [done| |apply NoDup_singleton]. intros x (q & -> & Hq)%list_elem_of_fmap.
  apply temp_pins_elem in Hq as (i & w & Hi & ->). apply lookup_lt_Some in Hi. cbn.
  rewrite list_elem_of_singleton. intros [=]. lia.
Qed.

Lemma keeps_external s s' action v : is_external s' v = is_external s v → keeps s' action v = keeps s action v.
Proof. intros E. unfold keeps. by rewrite E. Qed.

Lemma aggregating_pinned s0 dn agg cls s q : aggregating s0 dn agg cls s → q ∈ agg →
  ∃ p v, p ∈ dn ∧ q = PinnedPID_vertex (pp_pid p) v ∧ v ∈ vertices (G s) ∧ vertex_pid (G s) v = pp_pid p ∧ cls v = v_set_ p.
Proof.
  intros A Hq. apply list_elem_of_lookup in Hq as (i & Hi).
  destruct (Forall2_lookup_r _ _ _ _ _ (ag_pins _ _ _ _ _ A) Hi) as (p & Hp & v & E).
  exists p, v. split; [by eapply list_elem_of_lookup_2|tauto].
Qed.

(** The end of [handle_extra_nodes] on an aggregated network. *)
Lemma pid_topology_Ok {P} (view : View M P) s0 pins agg cls s : net_locked s0 → pins_ok s0 pins →
  aggregating s0 pins agg cls s → (∀ n, temp_pid n ∉ pp_pid <$> pins) → (Z.of_nat (length (vertices (G s0))) < 2 ^ 32)%Z →
  ∃ pids s', handle_extra_nodes view agg s = Ok (pids, s') ∧
    pid_topology s0 (extra_node_action_ view) pins pids cls s'.
Proof.
  intros L O A Htmp Hlen. pose proof (aggregating_pids _ _ _ _ _ A) as Ep. pose proof (aggregating_size _ _ _ _ _ L O A).
  destruct (handle_extra_nodes_Ok view agg s (ag_locked _ _ _ _ _ A)) as (kept & s' & R & L' & HN & Hk & HV & HT & HP & HE).
  { intros v Hv. apply (ag_vertices _ _ _ _ _ A). by left. }
  { by rewrite Ep. }
  { lia. }
  set (act := extra_node_action_ view) in *.
  assert (Hkept : ∀ v, v ∈ kept → cls v = [v] ∧ v ∈ vertices (G s0) ∧ v ∉ concat (v_set_ <$> pins) ∧ keeps s0 act v = true).
  { intros v (H1 & H2 & H3)%Hk. destruct (ag_rest _ _ _ _ _ A v H1 H2) as [C1 C2].
    apply (ag_vertices _ _ _ _ _ A) in H1 as [?|[? ?]]; [done|]. by rewrite <- (keeps_external _ _ _ _ C2). }
  exists (agg ++ temp_pins kept), s'. split; [done|]. split.
  - done.
  - rewrite fmap_app. apply NoDup_app. rewrite Ep. split_and!; [apply O| |apply temp_pins_nodup].
    intros x Hx (q & -> & Hq)%list_elem_of_fmap. apply temp_pins_elem in Hq as (i & w & _ & ->). by apply (Htmp _ Hx).
  - apply Forall_app. rewrite !Forall_forall. split.
    + intros q Hq. destruct (aggregating_pinned _ _ _ _ _ q A Hq) as (p & v & Hp & -> & Hv & Hpid & _).
      assert (v ∈ concat (v_set_ <$> agg)) by (apply elem_concat_sets; eexists; split; [exact Hq|left]).
      exists v. split_and!; [done|apply HV; by left|]. by rewrite HP.
    + intros q (i & w & Hi & ->)%temp_pins_elem. exists w. split_and!; [done|apply HV; right; by eapply list_elem_of_lookup_2|].
      by apply HT.
  - intros v. by rewrite HV, concat_app_sets, elem_of_app, temp_pins_sets.
  - intros p Hp. apply list_elem_of_lookup in Hp as (i & Hi).
    destruct (Forall2_lookup_l _ _ _ _ _ (ag_pins _ _ _ _ _ A) Hi) as (q & Hq & v & -> & _ & _ & Hc).
    exists v. split; [|done]. apply elem_of_app. left. by eapply list_elem_of_lookup_2.
  - intros q [Hq|(i & v & Hi & ->)%temp_pins_elem]%elem_of_app.
    + left. rewrite <- Ep. by apply list_elem_of_fmap_2.
    + right. exists v. split; [done|]. apply Hkept. by eapply list_elem_of_lookup_2.
  - intros v H1 H2 H3. assert (Hs : v ∈ vertices (G s)) by (apply (ag_vertices _ _ _ _ _ A); auto).
    assert (Hna : v ∉ concat (v_set_ <$> agg)) by (intros X; by destruct (ag_old _ _ _ _ _ A v X)).
    destruct (ag_rest _ _ _ _ _ A v Hs Hna) as [C1 C2]. split; [|done]. apply HV. right. apply Hk.
    by rewrite (keeps_external _ _ _ _ C2).
  - intros x y Hx Hy Hxy. rewrite HE by done.
    assert (Hin : ∀ u, u ∈ vertices (G s') → u ∈ vertices (G s)).
    { intros u [Hu|Hu]%HV; [apply (ag_vertices _ _ _ _ _ A); by left|by apply Hk]. }
    apply (ag_edges _ _ _ _ _ A); auto.
Qed.

Lemma pid_topology_shape s s1 action pins pids cls s' : same_shape s s1 →
  pid_topology s1 action pins pids cls s' → pid_topology s action pins pids cls s'.
Proof.
  intros S [H1 H2 H3 H4 H5 H6 H7 H8]. assert (HK : ∀ v, keeps s1 action v = keeps s action v).
  { intros v. apply keeps_external. by apply same_shape_external. }
  split; [done..| | |].
  - intros q Hq. destruct (H6 q Hq) as [?|(v & ?)]; [auto|]. right. exists v.
    by rewrite <- (same_shape_vertices _ _ v S), <- HK.
  - intros v Hv. rewrite <- HK. apply H7. by apply (same_shape_vertices _ _ v S).
  - intros x y Hx Hy Hxy. rewrite H8 by done. by setoid_rewrite (same_shape_ep _ _ _ _ S).
Qed.

(** The three stages: the sets of PIDs belong to the records of the view, the network is the
    network of PIDs. *)
Lemma topology_Ok {P} `{!OptPluginBase M P} (view : View M P) s : net_locked s →
  let rs := get_pid_map (aggregation view) in let pins := rec_pin s <$> rs in
  pins_ok s pins → (∀ n, temp_pid n ∉ pp_pid <$> pins) → (Z.of_nat (length (vertices (G s))) < 2 ^ 32)%Z →
  ∃ ps s1 agg s2 pids' s3 cls, find_pids view s = Ok (ps, s1) ∧
    aggregate_topology new_addr visit (pids ps) s1 = Ok (Some agg, s2) ∧
    handle_extra_nodes view agg s2 = Ok (pids', s3) ∧
    sets_ok s rs ps ∧ pid_topology s (extra_node_action_ view) pins pids' cls s3.
Proof.
  intros L rs pins O Htmp Hlen.
  destruct (find_pids_Ok s view L) as (ps & s1 & R1 & S1 & HS).
  { intros r Hr E. apply (po_nonempty _ _ O (rec_pin s r)); [by apply list_elem_of_fmap_2|]. cbn. by rewrite E. }
  { pose proof (po_pids _ _ O) as HN. unfold pins in HN. by rewrite <- list_fmap_compose in HN. }
  fold rs in HS. pose proof (so_pins _ _ _ HS) as Ep. fold pins in Ep.
  assert (Hv : visit pins ≡ₚ pins) by apply visit_perm.
  assert (O1 : pins_ok s1 (visit pins)) by (eapply pins_ok_perm; [symmetry; exact Hv|by eapply pins_ok_shape]).
  destruct (aggregate_loop_Ok s1 (visit pins) [] [] (λ x, [x]) s1 O1) as (agg & cls & s2 & R2 & A);
    [apply aggregating_start, S1|]. cbn [app] in A.
  assert (Hl1 : length (vertices (G s1)) ≤ length (vertices (G s))).
  { apply submseteq_length, NoDup_submseteq; [apply S1|]. intros x. by apply (same_shape_vertices _ _ x S1). }
  destruct (pid_topology_Ok view s1 (visit pins) agg cls s2 (ss_locked _ _ S1) O1 A) as (pids' & s3 & R3 & T).
  { intros n. by rewrite Hv. }
  { lia. }
  exists ps, s1, agg, s2, pids', s3, cls. split_and!; [done| |done|done|].
  { unfold aggregate_topology. by rewrite Ep. }
  apply (pid_topology_shape _ _ _ _ _ _ _ S1). destruct T as [T1 T2 T3 T4 T5 T6 T7 T8].
  pose proof (concat_sets_perm _ _ Hv) as Hc. split; [done..| | | |done].
  - intros p Hp. apply T5. by rewrite Hv.
  - intros q Hq. destruct (T6 q Hq) as [X|(v & X)]; [left; by rewrite Hv in X|right]. exists v. by rewrite <- Hc.
  - intros v. rewrite <- Hc. apply T7.
Qed.
End topology.
