(* ===== verification/ViewResult.v ===== *)
(** * The result of an update

    The stages of [compute_result_on] together: for a view whose routes are computed by
    weights, the update succeeds, the matrices are over the PIDs of the view, and their
    costs are those of shortest routes in the network of PIDs.  A plugin is used through
    [OptPluginLaws] alone. *)
From S2P Require Import Prelude StdMap Double IpAddr Pid Locking ServerObject PidMatrix.
From S2P Require Import PidAggregation NetState NetStateSpec NetCopy PidRouting PidRoutingSpec.
From S2P Require Import ViewUpdate ViewUpdateSpec ViewTopology.

(** What an update needs of a plugin: an invariant under which [compute_pdistances] returns
    (an error code is allowed) and the matrix can be read. *)
Class OptPluginLaws (M P : Type) `{OptPluginBase M P} := {
  plugin_ok : P → Prop;
  plugin_runs net pids p : net_ok (so_data net) → plugin_ok p →
    ∃ code p', plugin_compute net pids p = Ok (code, p') ∧ plugin_ok p';
  plugin_matrix p : plugin_ok p → matrix_ok (so_data (edge_pdistances_ p))
}.

(** One stage of the update. *)
Ltac update_step E := rewrite E;
  cbn -[find_pids aggregate_topology handle_extra_nodes verify_static_routing plugin_compute write_locked set_pids
        PIDMatrix_new compute_pdistances].

Section result.
Context {M : Type} `{SharedMutexLaws M} {P : Type} `{!OptPluginBase M P, !OptPluginLaws M P}.
Variable new_addr : list positive → positive.
Hypothesis new_addr_fresh : ∀ l, new_addr l ∉ l.
Variable visit : PinnedPIDSet → list PinnedPID.
Hypothesis visit_perm : ∀ l, visit l ≡ₚ l.
Variable dijkstra : NetGraph → NetVertex → gmap NetVertex nat → gmap positive double → outcome (gmap NetVertex NetVertex).
Implicit Types s : NetState (M := M).
Notation G s := (graph_ (so_data s)).
Notation Mx := (PIDMatrix (M := M)).

(** A new matrix under a write lock, with the PIDs [locs]. *)
Lemma new_matrix_Ok locs : set_sorted PID_ltb locs →
  ∃ m0 m, write_locked (PIDMatrix_new (M := M) 0) = Ok m0 ∧ set_pids locs m0 = Ok (tt, m) ∧ matrix_locked m ∧
    pids_of (pids_ (so_data m)) = locs ∧ ∀ a b, cost (so_data m) a b = S754_nan.
Proof.
  intros HS. assert (HW : ∃ m0, write_locked (PIDMatrix_new (M := M) 0) = Ok m0 ∧ so_data m0 = PIDMatrix_empty ∧
    writing_ (so_object m0) = true).
  { unfold write_locked, PIDMatrix_new. cbn [so_object so_data]. destruct (new_object_locks 0) as (o & -> & Hw & _). eauto. }
  destruct HW as (m0 & E0 & Ed & Hw). destruct (set_pids_Ok m0 locs) as (m & E1 & L & _ & Hp & Hc).
  { split; [|done]. rewrite Ed. split; [done|constructor|done|done]. }
  { done. }
  exists m0, m. split_and!; [done..|]. intros a b. rewrite Hc, Ed. by case_decide.
Qed.

(** ** What a view needs *)
(** The records of the view's aggregation: every PID has a vertex in the network, no name of
    a vertex is in two PIDs, and the names of the PIDs are free. *)
Record view_ok s (rs : list PIDRecord) : Prop := {
  vo_pids : NoDup (rec_pid s <$> rs);
  vo_prints : NoDup (PID_print ∘ rec_pid s <$> rs);
  vo_found r : r ∈ rs → ∃ n, n ∈ pr_vertices r ∧ is_Some (map_find text_ltb n (name_vert_map_ (so_data s)));
  vo_disjoint i j r1 r2 n : rs !! i = Some r1 → rs !! j = Some r2 → n ∈ pr_vertices r1 → n ∈ pr_vertices r2 → i = j;
  vo_names r : r ∈ rs → map_find text_ltb (PID_print (rec_pid s r)) (name_vert_map_ (so_data s)) = None;
  vo_temp n : temp_pid n ∉ rec_pid s <$> rs;
  vo_size : (Z.of_nat (length (vertices (G s))) < 2 ^ 32)%Z
}.

Lemma found_elem s ns v : v ∈ found s ns ↔ ∃ n, n ∈ ns ∧ map_find text_ltb n (name_vert_map_ (so_data s)) = Some v.
Proof. unfold found. apply list_elem_of_omap. Qed.

Lemma rec_pin_elem s r v : v ∈ v_set_ (rec_pin s r) ↔ v ∈ found s (pr_vertices r).
Proof. cbn. rewrite (set_inserts_elem Pos.ltb). set_solver. Qed.

Lemma rec_pin_nodup s r : NoDup (v_set_ (rec_pin s r)).
Proof. apply (set_sorted_nodup Pos.ltb), (set_inserts_sorted Pos.ltb). constructor. Qed.

Lemma found_inj s n1 n2 v : net_ok (so_data s) → map_find text_ltb n1 (name_vert_map_ (so_data s)) = Some v →
  map_find text_ltb n2 (name_vert_map_ (so_data s)) = Some v → n1 = n2.
Proof. intros N (p & E1 & <-)%(no_names _ N) (q & E2 & <-)%(no_names _ N). congruence. Qed.

Lemma NoDup_concat_sets (l : list PinnedPID) : (∀ p, p ∈ l → NoDup (v_set_ p)) →
  (∀ i j p q v, l !! i = Some p → l !! j = Some q → v ∈ v_set_ p → v ∈ v_set_ q → i = j) → NoDup (concat (v_set_ <$> l)).
Proof.
  induction l as [|p l IH]; intros HN HD; [constructor|]. cbn. apply NoDup_app. split_and!.
  - apply HN. left.
  - intros v Hv (q & Hq & Hv')%elem_concat_sets. apply list_elem_of_lookup in Hq as [j Hj].
    by specialize (HD 0 (S j) p q v eq_refl Hj Hv Hv').
  - apply IH; [intros q Hq; apply HN; by right|]. intros i j p1 q1 v H1 H2 H3 H4.
    assert (S i = S j) as [= ->] by (by eapply HD). done.
Qed.

Lemma view_pins_ok s rs : net_ok (so_data s) → view_ok s rs → pins_ok s (rec_pin s <$> rs).
Proof.
  intros N [V1 V2 V3 V4 V5 V6 V7]. split.
  - by rewrite <- list_fmap_compose.
  - by rewrite <- list_fmap_compose.
  - intros p (r & -> & Hr)%list_elem_of_fmap E. destruct (V3 r Hr) as (n & Hn & v & Hv).
    assert (X : v ∈ v_set_ (rec_pin s r)) by (apply rec_pin_elem, found_elem; eauto). rewrite E in X. set_solver.
  - intros p v (r & -> & Hr)%list_elem_of_fmap Hv%rec_pin_elem. by eapply found_vertices.
  - apply NoDup_concat_sets.
    + intros p (r & -> & _)%list_elem_of_fmap. apply rec_pin_nodup.
    + intros i j p q v. rewrite !list_lookup_fmap. intros (r1 & H1 & ->)%fmap_Some (r2 & H2 & ->)%fmap_Some.
      intros (n1 & N1 & F1)%rec_pin_elem%found_elem (n2 & N2 & F2)%rec_pin_elem%found_elem.
      rewrite (found_inj _ _ _ _ N F1 F2) in N1. by eapply V4.
  - intros p (r & -> & Hr)%list_elem_of_fmap. by apply V5.
Qed.

(** A view that fits a network fits its copies. *)
Lemma found_iso f s s' ns : net_iso f s s' → found s' ns = f <$> found s ns.
Proof.
  intros I. unfold found. induction ns as [|n ns IH]; [done|]. cbn. rewrite (ni_names _ _ _ I).
  destruct (map_find text_ltb n (name_vert_map_ (so_data s))); cbn; by rewrite IH.
Qed.

Lemma external_iso f s s' v : net_iso f s s' → v ∈ vertices (G s) → is_external s' (f v) = is_external s v.
Proof. intros I Hv. unfold is_external. by rewrite (gi_vp _ _ _ (ni_graph _ _ _ I)). Qed.

Lemma rec_pid_iso f s s' r : net_ok (so_data s) → net_iso f s s' → rec_pid s' r = rec_pid s r.
Proof.
  intros N I. unfold rec_pid. do 2 f_equal. rewrite (found_iso _ _ _ _ I).
  assert (HV : ∀ v, v ∈ found s (pr_vertices r) → v ∈ vertices (G s)) by (intros v; by apply found_vertices).
  induction (found s (pr_vertices r)) as [|v l IH]; [done|]. cbn. rewrite IH by set_solver.
  by rewrite (external_iso f s s' v I) by set_solver.
Qed.

Lemma view_ok_iso f s s' rs : net_ok (so_data s) → net_iso f s s' → view_ok s rs → view_ok s' rs.
Proof.
  intros N I [V1 V2 V3 V4 V5 V6 V7].
  assert (HE : rec_pid s' <$> rs = rec_pid s <$> rs) by (apply list_fmap_ext; intros; by eapply rec_pid_iso).
  split; rewrite ?HE; [done| |..|].
  - rewrite (list_fmap_ext _ (PID_print ∘ rec_pid s)); [done|]. intros _ r _. unfold compose. by rewrite (rec_pid_iso f s s').
  - intros r Hr. destruct (V3 r Hr) as (n & Hn & v & Hv). exists n. rewrite (ni_names _ _ _ I), Hv. eauto.
  - done.
  - intros r Hr. rewrite (rec_pid_iso f s s') by done. rewrite (ni_names _ _ _ I), V5 by done. done.
  - done.
  - by rewrite (gi_vertices _ _ _ (ni_graph _ _ _ I)), length_fmap.
Qed.

(** ** The update *)
Section weights.
Variable view : View M P.
Notation rs := (get_pid_map (aggregation view)).
Notation routing := (intradomain_routing view).

(** The routing of the view computes by weights and has no static routes; the matrix of
    static pDistances is well-formed, the default between domains is a number. *)
Record weights_view : Prop := {
  wv_mode : route_mode_ (so_data routing) = RM_WEIGHTS;
  wv_routing : routing_ok (so_data routing);
  wv_static : static_routes_ (so_data routing) = [];
  wv_links : matrix_ok (so_data (link_pdistances view));
  wv_default : isnan (default_interdomain_pdistance_ view) = false;
  wv_plugin p : plugin_inst_ view = Some p → plugin_ok p
}.

(** The matrix of the plugin; an empty one without a plugin. *)
Definition dynamic_of (plugin : option P) : Mx :=
  match plugin with Some p => edge_pdistances_ p | None => PIDMatrix_new 0 end.

(** What the matrices hold, given the network of PIDs [s3] that the update computed with. *)
Record result_ok s (pids' : PinnedPIDSet) s3 (intra inter : Mx) (plugin : option P) : Prop := {
  ro_intra_pids : matrix_ok (so_data intra) ∧ ∀ a, a ∈ pids_of (pids_ (so_data intra)) ↔ a ∈ rec_pid s <$> rs ∧ external_ a = false;
  ro_inter_pids : matrix_ok (so_data inter) ∧ ∀ a, a ∈ pids_of (pids_ (so_data inter)) ↔ a ∈ rec_pid s <$> rs;
  ro_intra a b : a ∈ pids_of (pids_ (so_data intra)) → b ∈ pids_of (pids_ (so_data intra)) →
    ∃ r, shortest_between view s3 pids' a b r ∧
      cost (so_data intra) a b = intra_pdistance view (dynamic_of plugin) a b r;
  ro_out a x : a ∈ pids_of (pids_ (so_data intra)) → x ∈ pids_of (pids_ (so_data inter)) → external_ x = true →
    ∃ r, shortest_between view s3 pids' a x r ∧
      cost (so_data inter) a x = out_pdistance view s3 (dynamic_of plugin) (pids_of (pids_ (so_data inter))) (so_data intra) a x r;
  ro_in x b : x ∈ pids_of (pids_ (so_data inter)) → external_ x = true → b ∈ pids_of (pids_ (so_data intra)) →
    ∃ r, shortest_between view s3 pids' x b r ∧
      cost (so_data inter) x b = in_pdistance view s3 (dynamic_of plugin) (pids_of (pids_ (so_data inter))) (so_data intra) x b r
}.

Lemma verify_no_routes pids s : static_routes_ (so_data routing) = [] → verify_static_routing view pids s = Ok (true, s).
Proof. unfold verify_static_routing. by intros ->. Qed.

Lemma run_plugin_Ok pids s : weights_view → net_ok (so_data s) →
  ∃ plugin, (match plugin_inst_ view with
             | None => mret None
             | Some p => '(_, p') ← plugin_compute s pids p; mret (Some p')
             end) = Ok plugin ∧ matrix_ok (so_data (dynamic_of plugin)).
Proof.
  intros W N. destruct (plugin_inst_ view) as [p|] eqn:E.
  - destruct (plugin_runs s pids p N) as (code & p' & -> & Hp); [by apply W|]. exists (Some p'). split; [done|].
    by apply plugin_matrix.
  - exists None. split; [done|]. split; [done|constructor|done|done].
Qed.

Lemma topology_pids s pids' cls s3 a : pid_topology s (extra_node_action_ view) (rec_pin s <$> rs) pids' cls s3 →
  a ∈ rec_pid s <$> rs → a ∈ pp_pid <$> pids'.
Proof.
  intros T (r & -> & Hr)%list_elem_of_fmap. destruct (pt_view _ _ _ _ _ _ T (rec_pin s r)) as (v & Hv & _).
  { by apply list_elem_of_fmap_2. }
  by apply (list_elem_of_fmap_2 pp_pid) in Hv.
Qed.

(** The stages before the plugin runs: the copy of the network under its lock, the PIDs of
    the view, and the network of PIDs. *)
Definition topology_on s : outcome (option (PidSets * PinnedPIDSet * NetState (M := M))) :=
  '(ps, s1) ← find_pids view s;
  '(agg, s2) ← aggregate_topology new_addr visit (pids ps) s1;
  match agg with
  | None => mret None
  | Some agg_pids => '(pids', s3) ← handle_extra_nodes view agg_pids s2; mret (Some (ps, pids', s3))
  end.
Definition topology (net : NetState (M := M)) : outcome (option (PidSets * PinnedPIDSet * NetState (M := M))) :=
  copy ← NetState_copy new_addr 0 net;
  s ← write_locked copy;
  topology_on s.

Lemma topology_on_Ok s : net_locked s → view_ok s rs →
  ∃ ps pids' s3 cls, topology_on s = Ok (Some (ps, pids', s3)) ∧ sets_ok s rs ps ∧
    pid_topology s (extra_node_action_ view) (rec_pin s <$> rs) pids' cls s3.
Proof.
  intros L V.
  destruct (topology_Ok new_addr new_addr_fresh visit visit_perm view s L (view_pins_ok _ _ (proj1 L) V))
    as (ps & s1 & agg & s2 & pids' & s3 & cls & R1 & R2 & R3 & HS & T).
  { intros n. rewrite <- list_fmap_compose. apply (vo_temp _ _ V). }
  { apply V. }
  exists ps, pids', s3, cls. split; [|done]. unfold topology_on. update_step R1. update_step R2. by update_step R3.
Qed.

Lemma compute_result_on_Ok s ps pids' s3 : weights_view → net_locked s → view_ok s rs →
  topology_on s = Ok (Some (ps, pids', s3)) →
  (∀ v, v ∈ vertices (G s3) → dijkstra_contract dijkstra routing s3 v) →
  ∃ intra inter plugin, compute_result_on new_addr visit dijkstra s view = Ok (Some (intra, inter, plugin)) ∧
    result_ok s pids' s3 intra inter plugin.
Proof.
  intros W L V HT HD. destruct (topology_on_Ok s L V) as (ps' & pids2 & s3' & cls & HT' & HS & T).
  rewrite HT in HT'. injection HT' as <- <- <-. destruct HS as [_ [S1 P1] [S2 P2] [S3 P3]].
  destruct (run_plugin_Ok pids' s3 W (proj1 (pt_locked _ _ _ _ _ _ T))) as (plugin & Epl & Hdyn).
  destruct (new_matrix_Ok (pids_internal ps) S2) as (m0 & intra0 & W0 & E0 & L0 & I0 & _).
  destruct (new_matrix_Ok (pids_all ps) S1) as (m1 & inter0 & W1 & E1 & L1 & I1 & C1).
  rewrite W0 in W1. injection W1 as <-.
  pose proof (pt_nodup _ _ _ _ _ _ T) as HN. pose proof (pt_pins _ _ _ _ _ _ T) as HP.
  pose proof (no_graph _ (proj1 (pt_locked _ _ _ _ _ _ T))) as Gok.
  destruct (compute_pdistances_Ok visit dijkstra view s3 (dynamic_of plugin) pids' (pids_external ps)
    (shortest_between view s3 pids') (λ c, vert_indexes_ c = ∅ ∨ context_ok routing s3 c)) with
    (Pin := pids_all ps) (internal := pids_ (so_data intra0)) (intra := intra0) (inter := inter0)
    as (intra & inter & Ec & LI & EI & BI & CI & CO & CN); try done.
  { by apply weights_routes_ok; [done|apply W..|done|done|done|done]. }
  { apply W. }
  { intros a b r. by eapply weights_routes_good. }
  { apply W. }
  { rewrite I0. intros a [Ha He]%P2. split_and!; [by eapply topology_pids|by apply P1|done]. }
  { intros x. rewrite P3, P1. done. }
  { intros x Hx%P1. by eapply topology_pids. }
  { split; [by apply (set_sorted_nodup PID_ltb)|]. rewrite I0. by apply (set_sorted_nodup PID_ltb). }
  exists intra, inter, plugin. split.
  { unfold topology_on in HT. unfold compute_result_on.
    destruct (find_pids view s) as [[ps0 s1]|] eqn:R1; [|done]. cbn -[aggregate_topology handle_extra_nodes] in HT.
    destruct (aggregate_topology new_addr visit (pids ps0) s1) as [[[agg|] s2]|] eqn:R2; [|done..]. cbn -[handle_extra_nodes] in HT.
    destruct (handle_extra_nodes view agg s2) as [[pids0 s4]|] eqn:R3; [|done]. injection HT as -> -> ->.
    cbn -[find_pids aggregate_topology handle_extra_nodes verify_static_routing plugin_compute write_locked set_pids
        PIDMatrix_new compute_pdistances]. update_step R2. update_step R3.
    update_step (verify_no_routes pids' s3 (wv_static W)). update_step Epl. update_step W0. update_step E0.
    update_step E1. unfold dynamic_of in Ec. by update_step Ec. }
  pose proof (ib_pids _ _ _ _ _ BI) as EB. rewrite I0 in CI, CO, CN. split.
  - split; [apply LI|]. rewrite EI, I0. intros a. rewrite P2. done.
  - split; [apply BI|]. rewrite EB. apply P1.
  - rewrite EI, I0. apply CI.
  - rewrite EI, I0, EB. intros a x Ha Hx He. apply CO; [done|]. apply P3. split; [by apply P1|done].
  - rewrite EI, I0, EB. intros x b Hx He Hb. apply CN; [|done]. apply P3. split; [by apply P1|done].
Qed.

(** The copy of a network can be locked. *)
Lemma locked_copy_Ok net : net_ok (so_data net) →
  ∃ f s, (copy ← NetState_copy new_addr 0 net; write_locked copy) = Ok s ∧ net_iso f net s ∧ net_locked s.
Proof.
  intros N. destruct (NetState_copy_Ok new_addr new_addr_fresh 0 net N) as (f & s' & E & I & Hw & Hx).
  assert (HL : ∃ s, write_locked s' = Ok s ∧ so_data s = so_data s' ∧ writing_ (so_object s) = true).
  { unfold write_locked. cbn. destruct (lock_shared _) as [m|] eqn:El; [|apply lock_shared_law in El; congruence].
    unfold begin_write. cbn. rewrite Hw. eexists. split; [reflexivity|done]. }
  destruct HL as (s & El & Ed & Hws).
  assert (I' : net_iso f net s) by (destruct I as [I1 I2 I3]; split; by rewrite Ed).
  exists f, s. rewrite E. split_and!; [by cbn -[write_locked]|done|]. split; [apply I'|done].
Qed.

Lemma topology_net_Ok net : net_ok (so_data net) → view_ok net rs →
  ∃ f s ps pids' s3 cls, topology net = Ok (Some (ps, pids', s3)) ∧ net_iso f net s ∧
    pid_topology s (extra_node_action_ view) (rec_pin s <$> rs) pids' cls s3.
Proof.
  intros N V. destruct (locked_copy_Ok net N) as (f & s & E & I & L).
  destruct (topology_on_Ok s L) as (ps & pids' & s3 & cls & HT & _ & T); [by eapply view_ok_iso|].
  exists f, s, ps, pids', s3, cls. split; [|done]. unfold topology.
  destruct (NetState_copy new_addr 0 net) as [copy|]; [|done]. cbn -[write_locked] in *. by rewrite E.
Qed.

Lemma result_ok_iso f net s pids' s3 intra inter plugin : net_ok (so_data net) → net_iso f net s →
  result_ok s pids' s3 intra inter plugin → result_ok net pids' s3 intra inter plugin.
Proof.
  intros N I [R1 R2 R3 R4 R5].
  assert (HE : rec_pid s <$> rs = rec_pid net <$> rs) by (apply list_fmap_ext; intros; by eapply rec_pid_iso).
  rewrite HE in R1, R2. by split.
Qed.

Lemma compute_result_Ok net ps pids' s3 : weights_view → net_ok (so_data net) → view_ok net rs →
  topology net = Ok (Some (ps, pids', s3)) →
  (∀ v, v ∈ vertices (G s3) → dijkstra_contract dijkstra routing s3 v) →
  ∃ intra inter plugin, compute_result new_addr visit dijkstra net view = Ok (Some (intra, inter, plugin)) ∧
    result_ok net pids' s3 intra inter plugin.
Proof.
  intros W N V HT HD. destruct (locked_copy_Ok net N) as (f & s & E & I & L).
  unfold topology, compute_result in *. destruct (NetState_copy new_addr 0 net) as [copy|]; [|done].
  cbn -[write_locked] in E, HT |- *. rewrite E in HT |- *.
  destruct (compute_result_on_Ok s ps pids' s3 W L) as (intra & inter & plugin & ER & HO); [by eapply view_ok_iso|done..|].
  exists intra, inter, plugin. split; [exact ER|]. by eapply result_ok_iso.
Qed.

Lemma do_update_Ok net ps pids' s3 : weights_view → net_ok (so_data net) → view_ok net rs →
  writing_ (view_object view) = true →
  topology net = Ok (Some (ps, pids', s3)) →
  (∀ v, v ∈ vertices (G s3) → dijkstra_contract dijkstra routing s3 v) →
  ∃ intra inter plugin o, do_update new_addr visit dijkstra net view =
      Ok (update_interval_ view, set_matrices o plugin intra inter view) ∧
    bumped true (view_object view) o ∧ result_ok net pids' s3 intra inter plugin.
Proof.
  intros W N V Hw HT HD. destruct (compute_result_Ok net ps pids' s3 W N V HT HD) as (intra & inter & plugin & E & HO).
  exists intra, inter, plugin. unfold do_update. rewrite E. cbn. unfold changed. rewrite Hw. cbn [negb].
  destruct (changed_fired_ (view_object view)) eqn:Ef; cbn.
  - rewrite Hw, Ef. cbn. exists (view_object view). split; [done|]. split; [|done]. split; [done|]. by rewrite Ef.
  - rewrite Hw. cbn. eexists. split; [reflexivity|]. split; [|done]. split; [done|]. by rewrite Ef.
Qed.
End weights.
End result.
