(* ===== verification/Mlu.v ===== *)
(** * The MLU plugin (portal/server/src/pdist/mlu/mlu.h, mlu.cpp, pdist/plugin_base.h,
    plugin_base.cpp)

    The plugin that minimises the maximum link utilisation.  [scaled_edge_pdistances_] and
    [scaling_] are under write locks that the plugin holds as members; the matrix of
    results is locked while it is written.  The only exception that can be thrown is the
    one of [set_edge_scaling], before the plugin changes: it ends [compute_pdistances] with
    the code -1.  Logging is left out. *)
From S2P Require Import Prelude StdMap Double IpAddr Pid Locking ServerObject PidMatrix.
From S2P Require Import PidAggregation NetState NetStateSpec PidRouting PidRoutingSpec ViewUpdate.
From S2P Require Import NetCopy ViewUpdateSpec ViewResult.

Definition INIT_PDISTANCE : double := dzero.
Definition INIT_SCALING : double := double_of_int 1.
Definition EPS : double := dlit 1 (10 ^ 12).

Section MLU.
Context {M : Type} `{SharedMutex M}.
Abbreviation Mx := (PIDMatrix (M := M)).
Implicit Types state : NetState (M := M).

Record MLUPlugin := MkMLU {
  mu_ : double;
  alpha_ : double;
  scaled_edge_pdistances_ : Mx;
  scaling_ : Mx;
  base_edge_pdistances_ : Mx
}.
Definition with_scaled (m : Mx) (p : MLUPlugin) : MLUPlugin := MkMLU (mu_ p) (alpha_ p) m (scaling_ p) (base_edge_pdistances_ p).
Definition with_scaling (m : Mx) (p : MLUPlugin) : MLUPlugin := MkMLU (mu_ p) (alpha_ p) (scaled_edge_pdistances_ p) m (base_edge_pdistances_ p).
Definition with_alpha (a : double) (p : MLUPlugin) : MLUPlugin := MkMLU (mu_ p) a (scaled_edge_pdistances_ p) (scaling_ p) (base_edge_pdistances_ p).
Definition with_edge_pdistances (m : Mx) (p : MLUPlugin) : MLUPlugin := MkMLU (mu_ p) (alpha_ p) (scaled_edge_pdistances_ p) (scaling_ p) m.

Definition MLUPlugin_new (mu : double) : outcome MLUPlugin :=
  m1 ← write_locked (PIDMatrix_new (M := M) 0);
  m2 ← write_locked (PIDMatrix_new (M := M) 0);
  mret (MkMLU mu dzero m1 m2 (PIDMatrix_new 0)).

Definition set_mu (mu : double) (p : MLUPlugin) : MLUPlugin :=
  MkMLU mu (alpha_ p) (scaled_edge_pdistances_ p) (scaling_ p) (base_edge_pdistances_ p).

(** The PIDs of the vertices of an edge. *)
Definition edge_pids state (e : NetEdge) : outcome (PID * PID) :=
  l_src ← peek (get_pid (e_src e)) state;
  l_dst ← peek (get_pid (e_dst e)) state;
  mret (l_src, l_dst).

Definition get_scaled_edge_pdistance state (e : NetEdge) (p : MLUPlugin) : outcome double :=
  '(l_src, l_dst) ← edge_pids state e;
  peek (get_by_pid l_src l_dst INIT_PDISTANCE) (scaled_edge_pdistances_ p).
Definition set_scaled_edge_pdistance state (e : NetEdge) (pdistance : double) (p : MLUPlugin) : outcome MLUPlugin :=
  '(l_src, l_dst) ← edge_pids state e;
  '(_, m) ← set_by_pid l_src l_dst pdistance (scaled_edge_pdistances_ p);
  mret (with_scaled m p).
Definition get_edge_scaling state (e : NetEdge) (p : MLUPlugin) : outcome double :=
  '(l_src, l_dst) ← edge_pids state e;
  peek (get_by_pid l_src l_dst INIT_SCALING) (scaling_ p).
Definition get_edge_pdistance state (e : NetEdge) (p : MLUPlugin) : outcome double :=
  a ← get_scaled_edge_pdistance state e p;
  b ← get_edge_scaling state e p;
  mret (ddiv a b).
Definition set_edge_scaling state (e : NetEdge) (scaling : double) (p : MLUPlugin) : outcome MLUPlugin :=
  if dlt scaling EPS then Fault (Throw "scaling factor must be greater than EPS")
  else
    d ← get_edge_pdistance state e p;
    p1 ← set_scaled_edge_pdistance state e (dmul d scaling) p;
    '(l_src, l_dst) ← edge_pids state e;
    '(_, m) ← set_by_pid l_src l_dst scaling (scaling_ p1);
    mret (with_scaling m p1).

(** The loop that sets up the scaling factors; [false] when an exception ends it. *)
Fixpoint set_scalings state (es : list NetEdge) (p : MLUPlugin) : outcome (bool * MLUPlugin) :=
  match es with
  | [] => Ok (true, p)
  | e :: es' =>
      c ← peek (get_capacity e) state;
      match set_edge_scaling state e c p with
      | Ok p' => set_scalings state es' p'
      | Fault (Throw _) => Ok (false, p)
      | Fault f => Fault f
      end
  end.

(** The utilisation of an edge. *)
Definition utilization state (e : NetEdge) : outcome double :=
  t_e ← peek (get_traffic e) state;
  c_e ← peek (get_capacity e) state;
  mret (ddiv t_e c_e).
Definition compute_mlu state : outcome double :=
  ofold (λ e mlu, LU_e ← utilization state e; mret (if dlt mlu LU_e then LU_e else mlu)) (edges (graph_ (so_data state))) dzero.

(** The super-gradient step and the projection, for one edge. *)
Definition supergradient state (mlu : double) (e : NetEdge) (a : MLUPlugin * double) : outcome (MLUPlugin * double) :=
  let '(p, sum_p_e) := a in
  p_e ← get_scaled_edge_pdistance state e p;
  LU_e ← utilization state e;
  let p_e := dadd p_e (dmul (mu_ p) (dsub LU_e mlu)) in
  let p_e := if dlt p_e dzero then dzero else p_e in
  p' ← set_scaled_edge_pdistance state e p_e p;
  mret (p', dadd sum_p_e p_e).
Definition projection state (sum_p_e : double) (num_edges : nat) (e : NetEdge) (p : MLUPlugin) : outcome MLUPlugin :=
  p_e ← get_scaled_edge_pdistance state e p;
  set_scaled_edge_pdistance state e
    (if dlt EPS sum_p_e then ddiv p_e sum_p_e else ddiv (double_of_int 1) (double_of_int (Z.of_nat num_edges))) p.

(** The pDistance of one edge in the matrix of results. *)
Definition put_result state (p : MLUPlugin) (e : NetEdge) (result : Mx) : outcome Mx :=
  '(l_src, l_dst) ← edge_pids state e;
  a ← peek (get_by_pid l_src l_dst VCost_new) (scaled_edge_pdistances_ p);
  b ← peek (get_by_pid l_src l_dst VCost_new) (scaling_ p);
  '(_, m) ← set_by_pid l_src l_dst (ddiv a b) result;
  mret m.

Definition update_scaled_edge_pdistance state (mlu : double) (p : MLUPlugin) : outcome MLUPlugin :=
  let es := edges (graph_ (so_data state)) in
  '(p1, sum_p_e) ← ofold (supergradient state mlu) es (p, dzero);
  p2 ← ofold (projection state sum_p_e (get_num_edges state)) es p1;
  result ← write_locked (base_edge_pdistances_ p2);
  result' ← ofold (put_result state p2) es result;
  o ← destroy BlockWriteLock (so_object result');
  mret (with_edge_pdistances (MkServer o (so_data result')) p2).

Definition compute_pdistances_mlu state (p : MLUPlugin) : outcome (Z * MLUPlugin) :=
  '(ok, p1) ← set_scalings state (edges (graph_ (so_data state))) p;
  if negb ok then mret (-1, p1)%Z
  else
    mlu ← compute_mlu state;
    p2 ← update_scaled_edge_pdistance state mlu (with_alpha mlu p1);
    mret (0%Z, p2).

#[global] Instance MLU_plugin : OptPluginBase M MLUPlugin := {
  plugin_compute := λ state _ p, compute_pdistances_mlu state p;
  edge_pdistances_ := base_edge_pdistances_
}.
End MLU.
Arguments MLUPlugin M : clear implicits.

(** ** The operations succeed *)
Section laws.
Context {M : Type} `{SharedMutexLaws M}.
Implicit Types state : NetState (M := M).
Implicit Types p : MLUPlugin M.
Notation G state := (graph_ (so_data state)).

(** The plugin holds the locks of its two matrices; the matrix of results is free. *)
Record mlu_ok p : Prop := {
  mk_scaled : matrix_locked (scaled_edge_pdistances_ p);
  mk_scaling : matrix_locked (scaling_ p);
  mk_result : matrix_ok (so_data (base_edge_pdistances_ p));
  mk_free : writing_ (so_object (base_edge_pdistances_ p)) = false;
  mk_shared : exclusive_owned (mutex_ (so_object (base_edge_pdistances_ p))) = false
}.

(** The PIDs of the three matrices. *)
Definition known p : list PID * list PID * list PID :=
  (pids_of (pids_ (so_data (scaled_edge_pdistances_ p))), pids_of (pids_ (so_data (scaling_ p))),
   pids_of (pids_ (so_data (base_edge_pdistances_ p)))).
Definition same_plugin p p' : Prop := mlu_ok p' ∧ known p' = known p ∧ mu_ p' = mu_ p ∧ alpha_ p' = alpha_ p.

Lemma same_plugin_refl p : mlu_ok p → same_plugin p p.
Proof. by split. Qed.
Lemma same_plugin_trans p1 p2 p3 : same_plugin p1 p2 → same_plugin p2 p3 → same_plugin p1 p3.
Proof. intros (A1 & A2 & A3 & A4) (B1 & B2 & B3 & B4). split; [done|]. split_and!; congruence. Qed.

(** Writing a matrix keeps its PIDs and the state of its mutex. *)
Definition rewritten (m m' : PIDMatrix (M := M)) : Prop :=
  matrix_locked m' ∧ pids_of (pids_ (so_data m')) = pids_of (pids_ (so_data m)) ∧
  mutex_ (so_object m') = mutex_ (so_object m).

Lemma set_by_pid_mutex x y v (m m' : PIDMatrix (M := M)) r : set_by_pid x y v m = Ok (r, m') →
  mutex_ (so_object m') = mutex_ (so_object m).
Proof.
  unfold set_by_pid. rewrite st_bind_eq. cbn [so_get].
  destruct (find_pid x _); [|by intros [= _ <-]]. destruct (find_pid y _); [|by intros [= _ <-]].
  unfold set_. rewrite st_bind_eq. rewrite st_bind_eq. cbn [so_get]. rewrite st_lift_bind.
  destruct (assign _ _ _ _) as [mm|]; [|done]. rewrite st_bind_eq. cbn [so_put].
  destruct (so_changed _) as [[[] m1]|] eqn:E; [|done]. intros [= _ <-]. exact (so_changed_mutex _ _ E).
Qed.

Lemma set_by_pid_total (m : PIDMatrix (M := M)) x y v : matrix_locked m →
  ∃ r m', set_by_pid x y v m = Ok (r, m') ∧ rewritten m m'.
Proof.
  intros L. pose proof (set_by_pid_Ok m x y v L) as X. cbn zeta in X. case_decide.
  - destruct X as (m' & E & L' & _ & P & _). exists true, m'. split; [done|]. split_and!; [done..|]. by eapply set_by_pid_mutex.
  - eexists _, _. split; [done|]. by split_and!.
Qed.

Section one_edge.
Context (state : NetState (M := M)) (e : NetEdge) (q : eprops).
Hypothesis Gok : graph_ok (G state).
Hypothesis He : (e, q) ∈ g_edges (G state).
Notation a := (vertex_pid (G state) (e_src e)).
Notation b := (vertex_pid (G state) (e_dst e)).

Lemma edge_pids_Ok : edge_pids state e = Ok (a, b).
Proof.
  destruct (go_ends _ Gok e) as [H1 H2]; [apply elem_edges; eauto|]. unfold edge_pids.
  rewrite get_pid_Ok by done. cbn -[get_pid]. by rewrite get_pid_Ok by done.
Qed.

Lemma get_capacity_Ok : peek (get_capacity e) state = Ok (e_capacity q).
Proof. unfold peek. by rewrite (proj2 (get_eprop_Ok state e q Gok He)). Qed.
Lemma utilization_Ok : utilization state e = Ok (ddiv (e_traffic q) (e_capacity q)).
Proof.
  unfold utilization. rewrite get_capacity_Ok. unfold peek.
  by rewrite (proj1 (get_eprop_Ok state e q Gok He)).
Qed.

Lemma get_scaled_Ok p : mlu_ok p → ∃ d, get_scaled_edge_pdistance state e p = Ok d.
Proof.
  intros O. unfold get_scaled_edge_pdistance. rewrite edge_pids_Ok. cbn. unfold peek.
  rewrite get_by_pid_Ok by apply O. cbn. eauto.
Qed.


Lemma set_scaled_Ok p d : mlu_ok p → ∃ p', set_scaled_edge_pdistance state e d p = Ok p' ∧ same_plugin p p'.
Proof.
  intros O. unfold set_scaled_edge_pdistance. rewrite edge_pids_Ok. cbn -[set_by_pid].
  destruct (set_by_pid_total _ a b d (mk_scaled _ O)) as (r & m' & -> & L & E & _). cbn. eexists. split; [reflexivity|].
  destruct O as [O1 O2 O3 O4 O5]. split; [by split|]. unfold known. cbn. by rewrite E.
Qed.

Lemma set_edge_scaling_Ok p c : mlu_ok p →
  if dlt c EPS then set_edge_scaling state e c p = Fault (Throw "scaling factor must be greater than EPS")
  else ∃ p', set_edge_scaling state e c p = Ok p' ∧ same_plugin p p'.
Proof.
  intros O. unfold set_edge_scaling. destruct (dlt c EPS) eqn:Ec; [done|].
  assert (∃ d, get_edge_pdistance state e p = Ok d) as [d ->].
  { unfold get_edge_pdistance. destruct (get_scaled_Ok p O) as [x ->]. cbn. unfold get_edge_scaling. rewrite edge_pids_Ok. cbn.
    unfold peek. rewrite get_by_pid_Ok by apply O. cbn. eauto. }
  cbn -[set_scaled_edge_pdistance]. destruct (set_scaled_Ok p (dmul d c) O) as (p1 & -> & S1). cbn -[set_by_pid edge_pids].
  rewrite edge_pids_Ok. cbn -[set_by_pid].
  destruct (set_by_pid_total _ a b c (mk_scaling _ (proj1 S1))) as (r & m' & -> & L & E & _). cbn. eexists. split; [reflexivity|].
  apply (same_plugin_trans _ _ _ S1). destruct (proj1 S1) as [O1 O2 O3 O4 O5]. split; [by split|]. unfold known. cbn. by rewrite E.
Qed.

Lemma put_result_Ok p m : mlu_ok p → matrix_locked m →
  ∃ m', put_result state p e m = Ok m' ∧ rewritten m m'.
Proof.
  intros O L. unfold put_result. rewrite edge_pids_Ok. cbn -[set_by_pid get_by_pid peek].
  rewrite (read_cost (scaled_edge_pdistances_ p)) by apply O. cbn -[set_by_pid get_by_pid peek].
  rewrite (read_cost (scaling_ p)) by apply O. cbn -[set_by_pid].
  destruct (set_by_pid_total m a b (ddiv (cost (so_data (scaled_edge_pdistances_ p)) a b) (cost (so_data (scaling_ p)) a b)) L)
    as (r & m' & E & HL). rewrite E. cbn. eauto.
Qed.
End one_edge.

(** ** The loops *)
Section loops.
Context (state : NetState (M := M)).
Hypothesis Gok : graph_ok (G state).

Lemma edge_props e : e ∈ edges (G state) → ∃ q, (e, q) ∈ g_edges (G state).
Proof. apply elem_edges. Qed.

(** The link whose capacity is too small is the first one that stops the loop. *)
Lemma set_scalings_Ok es : ∀ p, mlu_ok p → (∀ e, e ∈ es → e ∈ edges (G state)) →
  ∃ ok p', set_scalings state es p = Ok (ok, p') ∧ same_plugin p p' ∧
    (ok = true ↔ ∀ e q, e ∈ es → (e, q) ∈ g_edges (G state) → dlt (e_capacity q) EPS = false).
Proof.
  induction es as [|e es IH]; intros p O HE; cbn [set_scalings].
  { exists true, p. split_and!; [done|by apply same_plugin_refl|]. split; [set_solver|done]. }
  destruct (edge_props e) as (q & Hq); [set_solver|]. rewrite (get_capacity_Ok state e q Gok Hq). cbn -[set_edge_scaling].
  pose proof (set_edge_scaling_Ok state e q Gok Hq p (e_capacity q) O) as X. destruct (dlt (e_capacity q) EPS) eqn:Ec.
  - rewrite X. exists false, p. split_and!; [done|by apply same_plugin_refl|]. split; [done|].
    intros HF. rewrite (HF e q) in Ec; [done|left|done].
  - destruct X as (p1 & -> & S1). destruct (IH p1 (proj1 S1)) as (ok & p' & -> & S2 & HO); [set_solver|].
    exists ok, p'. split_and!; [done|by eapply same_plugin_trans|]. rewrite HO. split; [|set_solver].
    intros HF e' q' [->|He']%elem_of_cons Hq'; [|eauto].
    by destruct (prop_unique (G state) e e q q' Gok Hq Hq' eq_refl) as [_ <-].
Qed.

(** [compute_mlu]: the maximum of zero and the utilisations. *)
Lemma compute_mlu_Ok : ∃ mlu, compute_mlu state = Ok mlu ∧ isnan mlu = false ∧
  (mlu = dzero ∨ ∃ e q, (e, q) ∈ g_edges (G state) ∧ mlu = ddiv (e_traffic q) (e_capacity q)) ∧
  (∀ e q, (e, q) ∈ g_edges (G state) → isnan (ddiv (e_traffic q) (e_capacity q)) = false →
     dle (ddiv (e_traffic q) (e_capacity q)) mlu = true).
Proof.
  destruct (ofold_inv (λ dn mlu, isnan mlu = false ∧
      (mlu = dzero ∨ ∃ e q, (e, q) ∈ g_edges (G state) ∧ mlu = ddiv (e_traffic q) (e_capacity q)) ∧
      ∀ e q, e ∈ dn → (e, q) ∈ g_edges (G state) → isnan (ddiv (e_traffic q) (e_capacity q)) = false →
        dle (ddiv (e_traffic q) (e_capacity q)) mlu = true)
    (λ e mlu, LU_e ← utilization state e; mret (if dlt mlu LU_e then LU_e else mlu)) (edges (G state)) dzero)
    as (mlu & E & H1 & H2 & H3).
  - split_and!; [done|by left|set_solver].
  - intros dn e mlu (N1 & H1 & H2) He. destruct (edge_props e He) as (q & Hq).
    rewrite (utilization_Ok state e q Gok Hq). cbn. eexists. split; [reflexivity|].
    set (u := ddiv (e_traffic q) (e_capacity q)).
    assert (HU : ∀ e' q', e' ∈ dn ++ [e] → (e', q') ∈ g_edges (G state) → e' ∈ dn ∨ q' = q).
    { intros e' q' [?|Ex%list_elem_of_singleton]%elem_of_app Hq'; [by left|right]. subst e'.
      by destruct (prop_unique (G state) e e q q' Gok Hq Hq' eq_refl) as [_ <-]. }
    destruct (dlt mlu u) eqn:L.
    + apply dlt_dle in L as L'. assert (Nu : isnan u = false) by (apply dle_drank in L' as (? & ? & _ & Hu & _); apply isnan_drank; eauto).
      split_and!; [done|right; eauto|]. intros e' q' He' Hq' Nq. destruct (HU e' q' He' Hq') as [Hd| ->]; [|by apply dle_refl].
      exact (dle_trans _ _ _ (H2 e' q' Hd Hq' Nq) L').
    + split_and!; [done..|]. intros e' q' He' Hq' Nq. destruct (HU e' q' He' Hq') as [Hd| ->]; [by apply (H2 e')|]. by apply dle_total.
  - exists mlu. split_and!; [done..|]. intros e q Hq. apply (H3 e); [|done]. apply elem_edges. eauto.
Qed.

Lemma update_scaled_Ok mlu p : mlu_ok p → ∃ p', update_scaled_edge_pdistance state mlu p = Ok p' ∧ same_plugin p p'.
Proof.
  intros O. unfold update_scaled_edge_pdistance.
  destruct (ofold_inv (λ _ a, same_plugin p a.1) (supergradient state mlu) (edges (G state)) (p, dzero)) as ([p1 sum] & -> & S1).
  { by apply same_plugin_refl. }
  { intros dn e [p1 sum] S1 He. destruct (edge_props e He) as (q & Hq). cbn in S1. unfold supergradient.
    destruct (get_scaled_Ok state e q Gok Hq p1 (proj1 S1)) as [d ->]. rewrite (utilization_Ok state e q Gok Hq).
    cbn -[set_scaled_edge_pdistance]. set (d' := if dlt _ _ then _ else _).
    destruct (set_scaled_Ok state e q Gok Hq p1 d' (proj1 S1)) as (p2 & -> & S2). cbn. eexists. split; [reflexivity|].
    by eapply same_plugin_trans. }
  cbn [mbind outcome_bind fst]. cbn in S1.
  destruct (ofold_inv (λ _ p', same_plugin p p') (projection state sum (get_num_edges state)) (edges (G state)) p1) as (p2 & -> & S2); [done| |].
  { intros dn e p2 S2 He. destruct (edge_props e He) as (q & Hq). unfold projection.
    destruct (get_scaled_Ok state e q Gok Hq p2 (proj1 S2)) as [d ->]. cbn -[set_scaled_edge_pdistance].
    set (d' := if dlt _ _ then _ else _).
    destruct (set_scaled_Ok state e q Gok Hq p2 d' (proj1 S2)) as (p3 & -> & S3). eexists. split; [reflexivity|].
    by eapply same_plugin_trans. }
  destruct S2 as (O2 & K2 & Rest). set (res := base_edge_pdistances_ p2).
  assert (HL : ∃ m, write_locked res = Ok m ∧ so_data m = so_data res ∧ writing_ (so_object m) = true ∧
    exclusive_owned (mutex_ (so_object m)) = false).
  { unfold write_locked. cbn. destruct (lock_shared (mutex_ (so_object res))) as [mx|] eqn:El.
    2: { apply lock_shared_law in El. pose proof (mk_shared _ O2). unfold res in El. congruence. }
    unfold begin_write. cbn. unfold res at 1. rewrite (mk_free _ O2). eexists. split_and!; [reflexivity|done|done|]. cbn.
    apply lock_shared_owners in El. unfold owners in El. pose proof (mk_shared _ O2). unfold res in El. congruence. }
  destruct HL as (m & El & Ed & Hw & Hx). unfold res in El. cbn -[write_locked put_result]. rewrite El. cbn -[put_result].
  destruct (ofold_inv (λ _ m', rewritten m m') (put_result state p2) (edges (G state)) m) as (m' & -> & L' & P' & X').
  { split; [|done]. split; [|done]. rewrite Ed. apply O2. }
  { intros dn e m1 (L1 & P1 & X1) He. destruct (edge_props e He) as (q & Hq).
    destruct (put_result_Ok state e q Gok Hq p2 m1 O2 L1) as (m2 & -> & L2 & P2 & X2). eexists. split; [reflexivity|].
    split_and!; [done|congruence..]. }
  cbn. unfold end_write. rewrite (proj2 L'). cbn. eexists. split; [reflexivity|].
  split; [|unfold known in *; cbn; rewrite P', Ed; done].
  destruct O2 as [A1 A2 A3 A4 A5]. split; cbn; [done|done|apply L'|done|].
  rewrite X'. pose proof (unlock_shared_owners (mutex_ (so_object m))) as U. unfold owners in U. congruence.
Qed.

Lemma compute_pdistances_mlu_Ok p : mlu_ok p →
  ∃ code p', compute_pdistances_mlu state p = Ok (code, p') ∧ mlu_ok p' ∧ known p' = known p ∧
    (if decide (Forall (λ e, dlt (e_capacity e.2) EPS = false) (g_edges (G state)))
     then code = 0%Z ∧ compute_mlu state = Ok (alpha_ p') else code = (-1)%Z ∧ alpha_ p' = alpha_ p).
Proof.
  intros O. unfold compute_pdistances_mlu.
  destruct (set_scalings_Ok (edges (G state)) p O) as (ok & p1 & -> & S1 & HO); [done|]. cbn [mbind outcome_bind].
  assert (HC : ok = true ↔ Forall (λ e, dlt (e_capacity e.2) EPS = false) (g_edges (G state))).
  { rewrite HO, Forall_forall. split; [intros HF [e q] Hq; apply (HF e q); [apply elem_edges; eauto|done]|]. intros HF e q _ Hq. by apply (HF (e, q)). }
  destruct ok; cbn -[compute_mlu update_scaled_edge_pdistance].
  - destruct compute_mlu_Ok as (mlu & E & _). rewrite E. cbn -[update_scaled_edge_pdistance].
    assert (O1 : mlu_ok (with_alpha mlu p1)) by (destruct (proj1 S1); by split).
    destruct (update_scaled_Ok mlu (with_alpha mlu p1) O1) as (p2 & -> & O2 & K2 & _ & A2). eexists 0%Z, p2.
    split_and!; [done..| |].
    + rewrite K2. apply S1.
    + rewrite decide_True by (by apply HC). rewrite A2. done.
  - eexists (-1)%Z, p1. split_and!; [done|apply S1|apply S1|]. rewrite decide_False; [split; [done|apply S1]|].
    intros X%HC. done.
Qed.
End loops.

Lemma MLUPlugin_new_Ok mu : ∃ p, MLUPlugin_new (M := M) mu = Ok p ∧ mlu_ok p ∧ known p = ([], [], []).
Proof.
  unfold MLUPlugin_new. assert (HW : ∃ m, write_locked (PIDMatrix_new (M := M) 0) = Ok m ∧ so_data m = PIDMatrix_empty ∧
    writing_ (so_object m) = true).
  { unfold write_locked, PIDMatrix_new. cbn [so_object so_data]. destruct (new_object_locks (M := M) 0) as (o & -> & Hw & _). eauto. }
  destruct HW as (m & -> & Ed & Hw). cbn. eexists. split; [reflexivity|].
  assert (OE : matrix_ok PIDMatrix_empty) by (split; [done|constructor|done|done]).
  split; [|unfold known; cbn; by rewrite Ed].
  split; cbn; [by split; [rewrite Ed|]..|done|done|]. pose proof fresh_law as F. unfold owners in F. congruence.
Qed.

#[global] Instance MLU_laws : OptPluginLaws M (MLUPlugin M).
Proof.
  refine {| plugin_ok := mlu_ok |}.
  - intros net pids p N O. destruct (compute_pdistances_mlu_Ok net (no_graph _ N) p O) as (code & p' & E & O' & _). eauto.
  - intros p O. apply O.
Defined.
End laws.
