(* ===== verification/ServerProperties.v ===== *)
(** * Properties of the server's locks and maps

    The theorems about common-server/src/include/p4pserver/locking.h, lib/local_obj.cpp
    and lib/pid_map.cpp and about common/cpp/src/lib/isp_pidmap.cpp, with their
    witnesses. *)
From S2P Require Import Prelude StdMap Patricia PatriciaBits IpAddr Pid Locking PatriciaTrie.
From S2P Require Import PatriciaTrieSpec TrieProperties PrefixTable ServerObject PidMap IspPidMap.

(** ** Locks *)
Section LockClaims.
Context {M : Type} `{SharedMutexLaws M}.

(** C25. An [UpgradedWriteLock] gives exclusive access.  Threads construct and destroy lock
    objects of one object and report changes, interleaved at every access to the mutex and
    to the members of the object.  In every state that is reached, from the moment an
    [UpgradedWriteLock] has the mutex until it gives it back, the only other lock object is
    the [UpgradableReadLock] it was made from, [writing_] is what this write made of it, and
    its constructor and destructor do not throw.  There is at most one
    [UpgradableReadLock].  The object is in writing state only if some write lock has put
    it there. *)
Theorem lock_exclusion (v0 : Z) (o : LocalObject) (held : held_locks) :
  reachable v0 (o, held) →
  (∀ t ph held', held ≡ₚ (t, UpgradedWriteLock, ph) :: held' →
     held' = [(t, UpgradableReadLock, Held)] ∧ writing_ o = marked ph ∧ ph ≠ Release true) ∧
  nkind UpgradableReadLock held.*1 ≤ 1 ∧
  (writing_ o = true → ∃ t k ph, (t, k, ph) ∈ held ∧ is_write k = true ∧ marked ph = true).
Proof.
  intros I%inv_reachable. split_and!; [|apply (li_mutex _ I)|apply (li_marked _ I)].
  intros t ph held' E. assert (Hin : (t, UpgradedWriteLock, ph) ∈ held) by (rewrite E; left).
  split; [|by apply (li_upgraded _ I t)]. pose proof (li_pair _ I t ph Hin) as HP. cbn [snd] in HP.
  rewrite E in HP. apply elem_of_cons in HP as [[=]|[l El]%elem_of_Permutation].
  destruct l as [|[[t' k] ph'] l]; [by apply Permutation_singleton_r|]. exfalso.
  destruct (upgraded_alone _ _ held'.*1 t t' k (li_mutex _ I)) as [-> ->]; [cbn; by rewrite E|rewrite El; right; left|].
  pose proof (inv_one_upgrade _ _ (li_mutex _ I)) as Hle. cbn [snd] in Hle.
  rewrite El in E. rewrite (nkind_perm _ _ _ (fmap_Permutation fst _ _ E)) in Hle. cbn [fmap list_fmap fst] in Hle.
  rewrite nkind_cons_ne, !nkind_cons_eq in Hle by done. lia.
Qed.

(** Report a change [n] times. *)
Fixpoint changed_times (n : nat) (o : LocalObject (M := M)) : outcome LocalObject :=
  match n with 0 => Ok o | S n => o' ← changed o; changed_times n o' end.

Lemma changed_times_fired n o : writing_ o = true → changed_fired_ o = true → changed_times n o = Ok o.
Proof. intros Hw Hf. induction n as [|n IH]; [done|]. cbn. unfold changed at 1. by rewrite Hw, Hf. Qed.

(** A write advances the version of an object once: between the begin and the end of
    a write, any positive number of reported changes adds one to the version, modulo
    2^32, and no report leaves it as it was; the object is then out of the writing
    state. *)
Theorem write_bumps_version_once (n : nat) (o : LocalObject (M := M)) :
  writing_ o = false →
  ∃ o1 o2 o3, begin_write o = Ok o1 ∧ changed_times n o1 = Ok o2 ∧ end_write o2 = Ok o3 ∧
    writing_ o3 = false ∧ version_ o3 = (if n =? 0 then version_ o else u32 (version_ o + 1)).
Proof.
  intros Hw. unfold begin_write. rewrite Hw. destruct n as [|n].
  - by eexists _, _, _.
  - eexists _, _, _. split; [reflexivity|]. cbn [changed_times]. unfold changed. cbn [negb writing_ changed_fired_].
    cbn [mbind outcome_bind]. rewrite changed_times_fired by done. by split_and!.
Qed.
End LockClaims.

Definition demo_held : held_locks := [(1, UpgradedWriteLock, Held); (1, UpgradableReadLock, Held)].
Definition demo_object : LocalObject (M := counting_mutex) := LObj (CMutex 0 false true) true false 7.

Lemma demo_reachable : reachable 7 (demo_object, demo_held).
Proof.
  set (o := LObj (CMutex 0 true false) false false 7).
  pose proof (construct_runs (M := counting_mutex) UpgradableReadLock (LocalObject_new 7) [] 1 ltac:(done)) as R1.
  pose proof (construct_runs UpgradedWriteLock o [(1, UpgradableReadLock, Held)] 1 ltac:(set_solver)) as R2.
  eapply reachable_run; [eapply reachable_run; [apply reach_init|exact R1]|exact R2].
Qed.

Lemma lock_exclusion_witness : reachable 7 (demo_object, demo_held) ∧
  ∀ held', demo_held ≡ₚ (1, UpgradedWriteLock, Held) :: held' → held' = [(1, UpgradableReadLock, Held)].
Proof.
  destruct (lock_exclusion 7 demo_object demo_held demo_reachable) as [H _]. split; [apply demo_reachable|].
  intros held' E. apply (H 1 Held held' E).
Defined.

Lemma write_bumps_version_once_witness :
  ∃ o1 o2 o3, begin_write (LocalObject_new (M := counting_mutex) UINT_MAX) = Ok o1 ∧
    changed_times 3 o1 = Ok o2 ∧ end_write o2 = Ok o3 ∧ version_ o3 = 0%Z.
Proof.
  destruct (write_bumps_version_once 3 (LocalObject_new (M := counting_mutex) UINT_MAX) eq_refl)
    as (o1 & o2 & o3 & H1 & H2 & H3 & _ & H4). by exists o1, o2, o3.
Defined.

(** A [BlockWriteLock] does not exclude readers: its lock object is a
    [boost::shared_lock], so a state is reachable in which one thread holds a
    [BlockWriteLock] and another one a [BlockReadLock]. *)
Theorem block_write_lock_admits_readers :
  ∃ o : LocalObject (M := counting_mutex),
    reachable 0 (o, [(2, BlockReadLock, Held); (1, BlockWriteLock, Held)]) ∧ writing_ o = true.
Proof.
  exists (LObj (CMutex 2 false false) true false 0). split; [|reflexivity].
  set (o := LObj (CMutex 1 false false) true false 0).
  pose proof (construct_runs (M := counting_mutex) BlockWriteLock (LocalObject_new 0) [] 1 ltac:(done)) as R1.
  pose proof (construct_runs BlockReadLock o [(1, BlockWriteLock, Held)] 2 ltac:(done)) as R2.
  eapply reachable_run; [eapply reachable_run; [apply reach_init|exact R1]|exact R2].
Qed.

(** Nor other writers: [begin_write] tests [writing_] and then sets it, and the mutex is only
    shared, so two threads can both find it clear.  Both then hold a [BlockWriteLock], and
    after one of them is destroyed the destructor of the other throws. *)
Theorem block_write_locks_race :
  ∃ o o' : LocalObject (M := counting_mutex),
    reachable 0 (o, [(1, BlockWriteLock, Held); (2, BlockWriteLock, Held)]) ∧
    rtc step (o, [(1, BlockWriteLock, Held); (2, BlockWriteLock, Held)]) (o', [(2, BlockWriteLock, Release true)]).
Proof.
  set (obj n w := LObj (CMutex n false false) w false 0).
  exists (obj 2 true), (obj 1 false). split.
  - eapply reachable_run; [apply reach_init|].
    eapply rtc_l; [by apply (step_acquire _ (CMutex 1 false false) [] 1 BlockWriteLock)|].
    eapply rtc_l; [by apply (step_acquire _ (CMutex 2 false false) _ 2 BlockWriteLock)|].
    eapply rtc_l; [by eapply (step_advance _ (obj 2 false) _ _ 1 _ BeginTest (Some BeginStore)); [apply Permutation_swap|..]|].
    eapply rtc_l; [by eapply (step_advance _ (obj 2 false) _ _ 2 _ BeginTest (Some BeginStore)); [apply Permutation_swap|..]|].
    eapply run_advance; [done|reflexivity|]. eapply run_advance; [done|reflexivity|].
    eapply rtc_l; [by eapply (step_advance _ (obj 2 true) _ _ 1 _ BeginStore (Some BeginReset)); [apply Permutation_swap|..]|].
    eapply run_advance; [done|reflexivity|]. apply rtc_refl.
  - etrans; [by apply (destroy_runs BlockWriteLock _ (obj 1 false) _ 1)|].
    eapply rtc_l; [by apply (step_destroy _ _ [] 2 BlockWriteLock)|]. eapply run_advance; [done|reflexivity|]. apply rtc_refl.
Qed.

(** ** The server's PID map *)
Section PIDMapClaims.
Context {M : Type} `{SharedMutex M} {D : Type} `{PrefixTable PID D} `{!PrefixTableLaws PID D}.

End PIDMapClaims.

#[global] Instance pid_trie_table : PrefixTable PID (PatriciaTrie PID) := trie_table PID_ltb.
#[global] Instance pid_trie_laws : PrefixTableLaws PID (PatriciaTrie PID) := trie_table_laws PID_ltb.
#[global] Instance int_trie_table : PrefixTable Z (PatriciaTrie Z) := trie_table Z.ltb.
#[global] Instance int_trie_laws : PrefixTableLaws Z (PatriciaTrie Z) := trie_table_laws Z.ltb.


(** ** The client's PID map *)
Section ISPPIDMapClaims.
Context {D : Type} `{PrefixTable Z D} `{!PrefixTableLaws Z D}.
Variable get_pidmap : text * Z → portal_reply.
Variable read_file : text → file_reply.

(** What an index answers for an address: the index of the first PID that lists the
    longest prefix of the response that contains the address. *)
Definition resolves (fam : Z) (prefixes : list PIDPrefixes) (a : list bool) (r : Z * option IPPrefix) : Prop :=
  match r.2 with
  | None => r.1 = ERR_UNKNOWN_PID ∧ ∀ p, p ∈ all_prefixes prefixes → ¬ ip_key p `prefix_of` a
  | Some ip => ip_ok ip ∧ family_ ip = fam ∧ ip_key ip `prefix_of` a ∧
      (∀ p, p ∈ all_prefixes prefixes → ip_key p `prefix_of` a → length (ip_key p) ≤ length (ip_key ip)) ∧
      ∃ i pid ps, r.1 = Z.of_nat i ∧ prefixes !! i = Some (pid, ps) ∧ ip_key ip ∈ ip_key <$> ps ∧
        ∀ j q, j < i → prefixes !! j = Some q → ip_key ip ∉ ip_key <$> q.2
  end.

Lemma table_listed prefixes k v : table 0 prefixes ∅ !! k = Some v ↔
  ∃ i pid ps, v = Z.of_nat i ∧ prefixes !! i = Some (pid, ps) ∧ k ∈ ip_key <$> ps ∧
    ∀ j q, j < i → prefixes !! j = Some q → k ∉ ip_key <$> q.2.
Proof.
  rewrite table_lookup, lookup_empty, fmap_Some. split.
  - intros ([i [pid ps]] & F & ->). apply list_find_Some in F as (F1 & F2 & F3). exists i, pid, ps.
    split_and!; [done..|]. intros j q Hj Hq Hin. by apply (F3 j q Hq).
  - intros (i & pid & ps & -> & F1 & F2 & F3). exists (i, (pid, ps)). split; [|done].
    apply list_find_Some. split_and!; [done..|]. intros j q Hq Hj. by apply (F3 j q).
Qed.

Lemma table_all prefixes p : p ∈ all_prefixes prefixes → ∃ v, table 0 prefixes ∅ !! ip_key p = Some v.
Proof.
  intros (q & Hp & Hq)%list_elem_of_bind. rewrite table_lookup, lookup_empty.
  destruct (list_find_elem_of (lists (ip_key p)) prefixes q Hq) as [[i q'] E].
  { by apply list_elem_of_fmap_2. }
  rewrite E. eauto.
Qed.

Lemma listed_all prefixes i pid ps k : prefixes !! i = Some (pid, ps) → k ∈ ip_key <$> ps →
  ∃ p, p ∈ all_prefixes prefixes ∧ ip_key p = k.
Proof.
  intros Hi (p & -> & Hp)%list_elem_of_fmap. exists p. split; [|done].
  apply list_elem_of_bind. exists (pid, ps). split; [done|]. by eapply list_elem_of_lookup_2.
Qed.

Lemma lpm_resolves fam prefixes a r : lpm fam (table 0 prefixes ∅) a r →
  resolves fam prefixes a (match r with Some (pid, ip) => (pid, Some ip) | None => (ERR_UNKNOWN_PID, None) end).
Proof.
  destruct r as [[v ip]|]; unfold resolves; cbn.
  - intros (H1 & H2 & H3 & H4 & H5). apply table_listed in H3 as (i & pid & ps & E & F1 & F2 & F3).
    split_and!; [done..| |by exists i, pid, ps].
    intros p Hp Hpa. destruct (table_all _ _ Hp) as [v' Hv']. by eapply H5.
  - intros HN. split; [done|]. intros p Hp Hpa. destruct (table_all _ _ Hp) as [v Hv]. by eapply HN.
Qed.

(** Loading a PID map from the portal and using it: after a successful reply whose
    prefixes are of one family, the PIDs are numbered in the order of the reply, the
    number of internal PIDs is counted, and the lookup of an address returns the index of
    the first PID that lists the longest prefix containing the address, or
    [ERR_UNKNOWN_PID] when no prefix does; after a failed request the old map is kept
    and the error code returned. *)
Theorem isp_pid_map_load (fam : Z) (s : ISPPIDMap (D := D)) src now : m_proto s = Some src →
  match get_pidmap src with
  | PortalConnectionError => loadP4PInfo get_pidmap read_file now s = Ok (ERR_CONNECTION_FAILURE, s)
  | PortalProtocolError => loadP4PInfo get_pidmap read_file now s = Ok (ERR_PROTOCOL_FAILURE, s)
  | PortalOk prefixes ttl version =>
      known_family fam → usable fam (all_prefixes prefixes) →
      (Z.of_nat (length (all_prefixes prefixes)) ≤ UINT_MAX)%Z →
      ∃ s', loadP4PInfo get_pidmap read_file now s = Ok (0%Z, s') ∧
        m_pids s' = prefixes.*1 ∧ m_lastUpdate s' = now ∧ m_ttl s' = ttl ∧ m_version s' = version ∧
        m_intraisp_pids s' = Z.of_nat (length (filter (λ q, external_ q.1 = false) prefixes)) ∧
        ∀ a, ip_ok a → family_ a = fam → length_ a = Z.of_nat (width fam) →
          ∃ r s'', ISPPIDMap_lookup a s' = Ok (r, s'') ∧ resolves fam prefixes (ip_key a) r ∧
            m_pids s'' = m_pids s'
  end.
Proof.
  intros Hsrc. unfold loadP4PInfo. rewrite Hsrc. destruct (get_pidmap src) as [prefixes ttl version| |]; [|done..].
  intros Hf Hu Hsz. destruct (law_new (T := Z) (D := D) fam Hf) as (d0 & E0 & H0'). rewrite E0. cbn [mbind outcome_bind].
  destruct (build_Ok fam prefixes 0 [] 0 ∅ d0 H0' Hu) as (d & E1 & H1).
  { rewrite map_size_empty. lia. }
  rewrite E1. cbn [mbind outcome_bind mret outcome_ret app]. eexists. split; [reflexivity|].
  cbn [m_pids m_lastUpdate m_ttl m_version m_intraisp_pids m_trie]. split_and!; [done..|].
  intros a Ha Hfa Hl. destruct (law_lookup fam _ d a H1 Ha Hfa Hl) as (r & d' & E2 & H2 & _).
  unfold ISPPIDMap_lookup. cbn [m_trie]. rewrite E2. eexists _, _. split; [reflexivity|]. split; [|done].
  by apply lpm_resolves.
Qed.
End ISPPIDMapClaims.

Definition demo_reply : portal_reply :=
  PortalOk [(MkPID [] 1 false, [ip4 10 0 0 0 8]); (MkPID [] 2 true, [ip4 10 0 0 0 8; ip4 10 1 0 0 16])] 60 [].

Lemma isp_pid_map_load_witness : ∃ s s' : ISPPIDMap (D := PatriciaTrie Z),
  m_proto s = Some ([], 80%Z) ∧ loadP4PInfo (λ _, demo_reply) (λ _, FileReadFailed) 5 s = Ok (0%Z, s') ∧
  m_intraisp_pids s' = 1%Z.
Proof.
  destruct (law_new (T := Z) (D := PatriciaTrie Z) AF_INET ltac:(by left)) as (d & _ & _).
  set (s := MkISPPIDMap (Some ([], 80%Z)) [] d [] 0 0 0 [] : ISPPIDMap).
  destruct (isp_pid_map_load (λ _, demo_reply) (λ _, FileReadFailed) AF_INET s ([], 80%Z) 5 eq_refl)
    as (s' & H1 & _ & _ & _ & _ & H2 & _).
  - by left.
  - apply Forall_forall. intros p Hp. assert (p = ip4 10 0 0 0 8 ∨ p = ip4 10 1 0 0 16) as [->| ->] by set_solver.
    + split; [ip4_auto|done].
    + split; [ip4_auto|done].
  - unfold UINT_MAX. cbn. lia.
  - exists s, s'. split; [reflexivity|]. split; [exact H1|]. rewrite H2. reflexivity.
Defined.
