(* ===== verification/ViewProperties.v ===== *)
(** * Properties of the server's view data

    The theorems about common-server's pid_matrix.h, pid_aggregation.cpp and
    net_state.cpp, with their witnesses. *)
From S2P Require Import Prelude StdMap Double IpAddr Pid Locking ServerObject PidMatrix.
From S2P Require Import PidAggregation NetState NetStateSpec.
From Stdlib Require Import Ascii.

(** ** Matrices *)
Section MatrixClaims.
Context {M : Type} `{SharedMutex M}.

(** Changing the PIDs of a matrix keeps the costs: [set_pids] with a set of PIDs makes
    the matrix square over exactly these PIDs, in their order, keeps every cost between
    two PIDs that stay, and has no other cost. *)
Theorem matrix_set_pids_keeps_costs (s : PIDMatrix (M := M)) (locs : list PID) :
  matrix_locked s → set_sorted PID_ltb locs →
  ∃ s', set_pids locs s = Ok (tt, s') ∧ matrix_locked s' ∧ bumped true (so_object s) (so_object s') ∧
    get_num_rows s' = length locs ∧ get_num_cols s' = length locs ∧
    (∀ i x, pids_ (so_data s') !! i = Some x → index_ x = i ∧ locs !! i = Some (ip_pid x)) ∧
    ∀ a b dflt, get_by_pid a b dflt s' =
      if decide (a ∈ locs ∧ b ∈ locs) then '(c, _) ← get_by_pid a b dflt s; mret (c, s') else Ok (dflt, s').
Proof.
  intros HL HS. destruct (set_pids_Ok s locs HL HS) as (s' & E & HL' & HB & HP & HC). exists s'.
  pose proof (proj1 HL') as O'. assert (Hlen : length (pids_ (so_data s')) = length locs).
  { rewrite <- HP. unfold pids_of. by rewrite length_fmap. }
  split_and!; [done..| | | |].
  - unfold get_num_rows. by rewrite (mo_size1 _ O').
  - unfold get_num_cols. by rewrite (mo_size2 _ O').
  - intros i x Hi. split; [by apply (mo_index _ O')|]. rewrite <- HP. unfold pids_of.
    by rewrite list_lookup_fmap, Hi.
  - intros a b dflt. rewrite (get_by_pid_Ok s' a b dflt O'), (get_by_pid_Ok s a b dflt (proj1 HL)), HC.
    by case_decide.
Qed.

(** The operations that change one PID or one cost: [add_pid] adds a PID that is not
    there and changes no cost; [add_pids] adds the missing ones and changes no cost;
    [remove_pid] forgets exactly the costs of the removed PID; and [set_by_pid] of two
    PIDs that are there sets exactly their cost, which [get_by_pid] then returns. *)
Theorem matrix_updates (s : PIDMatrix (M := M)) : matrix_locked s →
  let P := pids_of (pids_ (so_data s)) in
  (∀ pid, ∃ s', add_pid pid s = Ok (bool_decide (pid ∉ P), s') ∧ matrix_locked s' ∧
     (∀ x, x ∈ pids_of (pids_ (so_data s')) ↔ x = pid ∨ x ∈ P) ∧
     ∀ a b, cost (so_data s') a b = cost (so_data s) a b) ∧
  (∀ pids, set_sorted PID_ltb pids → ∃ s', add_pids pids s = Ok (tt, s') ∧ matrix_locked s' ∧
     (∀ x, x ∈ pids_of (pids_ (so_data s')) ↔ x ∈ pids ∨ x ∈ P) ∧
     ∀ a b, cost (so_data s') a b = cost (so_data s) a b) ∧
  (∀ pid, ∃ s', remove_pid pid s = Ok (bool_decide (pid ∈ P), s') ∧ matrix_locked s' ∧
     (∀ x, x ∈ pids_of (pids_ (so_data s')) ↔ x ≠ pid ∧ x ∈ P) ∧
     ∀ a b, cost (so_data s') a b = if decide (a = pid ∨ b = pid) then VCost_new else cost (so_data s) a b) ∧
  (∀ a b v, a ∈ P → b ∈ P → isnan v = false → ∃ s', set_by_pid a b v s = Ok (true, s') ∧ matrix_locked s' ∧
     (∀ dflt, get_by_pid a b dflt s' = Ok (v, s')) ∧
     ∀ x y, ¬ (x = a ∧ y = b) → cost (so_data s') x y = cost (so_data s) x y).
Proof.
  intros HL P. pose proof (mo_sorted _ (proj1 HL)) as HS. fold P in HS. split_and!.
  - intros pid. pose proof (add_pid_Ok s pid HL) as A. cbv zeta in A. fold P in A.
    destruct (decide (pid ∈ P)) as [Hin|Hin].
    + exists s. rewrite bool_decide_eq_false_2 by tauto. split_and!; try done. intros x. fold P. naive_solver.
    + destruct A as (s' & E & R). exists s'. rewrite bool_decide_eq_true_2 by done.
      split; [done|]. split; [apply R|]. split.
      * intros x. destruct R as (_ & _ & -> & _). apply (set_insert_elem PID_ltb).
      * eapply resized_widen; [exact R|]. intros x Hx. apply (set_insert_elem PID_ltb). by right.
  - intros pids Hp. pose proof (add_pids_Ok s pids HL Hp) as A. cbv zeta in A. fold P in A.
    destruct (decide _) as [Hin|Hin].
    + exists s. split_and!; try done. rewrite Forall_forall in Hin. fold P. naive_solver.
    + destruct A as (s' & E & R). exists s'. split; [done|]. split; [apply R|]. split.
      * intros x. destruct R as (_ & _ & -> & _). apply (set_inserts_elem PID_ltb).
      * eapply resized_widen; [exact R|]. intros x Hx. apply (set_inserts_elem PID_ltb). by right.
  - intros pid. pose proof (remove_pid_Ok s pid HL) as A. cbv zeta in A. fold P in A.
    destruct (decide (pid ∈ P)) as [Hin|Hin].
    + destruct A as (s' & E & L' & _ & HP & HC). exists s'. rewrite bool_decide_eq_true_2 by done.
      split_and!; [done..| |].
      * intros x. rewrite HP. by apply (set_erase_elem PID_ltb).
      * intros a b. rewrite HC. destruct (decide (a = pid ∨ b = pid)) as [Hab|Hab].
        { rewrite decide_False; [done|]. rewrite !(set_erase_elem PID_ltb) by done. naive_solver. }
        destruct (decide (a ∈ P ∧ b ∈ P)).
        { rewrite decide_True; [done|]. rewrite !(set_erase_elem PID_ltb) by done. naive_solver. }
        rewrite decide_False by (rewrite !(set_erase_elem PID_ltb) by done; naive_solver).
        symmetry. by apply cost_outside.
    + exists s. rewrite bool_decide_eq_false_2 by done. split_and!; try done; [fold P; naive_solver|].
      intros a b. case_decide; [|done]. apply cost_outside. fold P. naive_solver.
  - intros a b v Ha Hb Hv. pose proof (set_by_pid_Ok s a b v HL) as A. cbv zeta in A. fold P in A.
    rewrite decide_True in A by done. destruct A as (s' & E & L' & _ & _ & HC). exists s'.
    split_and!; [done..| |].
    + intros dflt. rewrite (get_by_pid_Ok s' a b dflt (proj1 L')), HC, decide_True by done. by rewrite Hv.
    + intros x y Hxy. by rewrite HC, decide_False.
Qed.
End MatrixClaims.

(** A matrix object under a write lock. *)
Definition demo_lock : LocalObject (M := counting_mutex) := LObj (CMutex 1 false false) true false 0.
Definition pidA : PID := MkPID [] 1 false.
Definition pidB : PID := MkPID [] 2 false.
Definition demo_matrix : PIDMatrix (M := counting_mutex) := MkServer demo_lock PIDMatrix_empty.

Lemma demo_matrix_locked : matrix_locked demo_matrix.
Proof. split; [|done]. split; try done. constructor. Qed.

Lemma matrix_set_pids_keeps_costs_witness :
  ∃ s', set_pids [pidA; pidB] demo_matrix = Ok (tt, s') ∧ get_num_rows s' = 2.
Proof.
  destruct (matrix_set_pids_keeps_costs demo_matrix [pidA; pidB] demo_matrix_locked)
    as (s' & H1 & _ & _ & H2 & _).
  - by repeat constructor.
  - by exists s'.
Defined.

Lemma matrix_updates_witness :
  ∃ s', add_pid pidA demo_matrix = Ok (true, s') ∧ matrix_locked s'.
Proof.
  destruct (matrix_updates demo_matrix demo_matrix_locked) as (H & _).
  destruct (H pidA) as (s' & H1 & H2 & _). by exists s'.
Defined.

(** ** Aggregation *)
Section AggregationClaims.
Context {M : Type} `{SharedMutex M}.
Implicit Types s : PIDAggregation (M := M).

(** Names and PIDs of an aggregation are in bijection, and [add] extends it: a name
    looks up to a PID exactly when the PID looks up to the name, [add] succeeds exactly
    when neither the name nor the PID is in use, it then makes them look up to each
    other, with the given vertices, and it changes nothing for the others. *)
Theorem aggregation_add s name pid vs : agg_locked s →
  (∀ n p, (∃ r, by_name n (pid_records_ (so_data s)) = Some r ∧ pr_pid r = p) ↔
          reverse_lookup p s = Ok (Some n, s)) ∧
  ∃ b s', agg_add name pid vs s = Ok (b, s') ∧ agg_locked s' ∧ bumped b (so_object s) (so_object s') ∧
    (b = true ↔ has_pid pid s = Ok (false, s) ∧ has_name name s = Ok (false, s)) ∧
    (b = true → agg_lookup name s' = Ok (pid, s') ∧ reverse_lookup pid s' = Ok (Some name, s') ∧
       get_vertices pid s' = Ok (Some vs, s')) ∧
    (∀ p, b = false ∨ p ≠ pid → by_pid p (pid_records_ (so_data s')) = by_pid p (pid_records_ (so_data s))).
Proof.
  intros HL. pose proof HL as [[N1 N2 N3] Hw]. split.
  - intros n p. unfold reverse_lookup, so_get. rewrite st_bind_eq. cbn. split.
    + intros (r & F & <-). apply (record_key_Some pr_name) in F as [F1 <-].
      unfold by_pid. by rewrite (find_key_elem pr_pid _ _ r N2 F1 eq_refl).
    + destruct (by_pid p _) as [r|] eqn:F; [|done]. intros [= <-]. apply (record_key_Some pr_pid) in F as [F1 <-].
      exists r. split; [|done]. by apply (find_key_elem pr_name).
  - pose proof (agg_add_Ok s name pid vs HL) as A. cbv zeta in A.
    pose proof (record_key_None pr_pid pid (pid_records_ (so_data s))) as FP. fold (by_pid pid (pid_records_ (so_data s))) in FP.
    pose proof (record_key_None pr_name name (pid_records_ (so_data s))) as FN. fold (by_name name (pid_records_ (so_data s))) in FN.
    assert (HU : has_pid pid s = Ok (false, s) ∧ has_name name s = Ok (false, s) ↔
      ¬ (name ∈ pr_name <$> pid_records_ (so_data s) ∨ pid ∈ pr_pid <$> pid_records_ (so_data s))).
    { unfold has_pid, has_name, so_get. rewrite !st_bind_eq. cbn.
      destruct (by_pid pid _), (by_name name _); naive_solver. }
    destruct (decide _) as [Hin|Hin].
    + exists false, s. rewrite HU. split_and!; try done.
    + destruct A as (s' & E & L' & R' & _ & B'). exists true, s'. rewrite HU.
      assert (F1 : by_pid pid (pid_records_ (so_data s')) = Some (MkPIDRecord name pid vs)).
      { rewrite R'. unfold by_pid. rewrite find_snoc. fold (by_pid pid (pid_records_ (so_data s))).
        rewrite (proj2 FP) by tauto. cbn. by rewrite decide_True. }
      assert (F2 : by_name name (pid_records_ (so_data s')) = Some (MkPIDRecord name pid vs)).
      { rewrite R'. unfold by_name. rewrite find_snoc. fold (by_name name (pid_records_ (so_data s))).
        rewrite (proj2 FN) by tauto. cbn. by rewrite decide_True. }
      split_and!; try done.
      * intros _. unfold agg_lookup, reverse_lookup, get_vertices, so_get. rewrite !st_bind_eq. cbn.
        by rewrite F1, F2.
      * intros p [?|Hp]; [done|]. rewrite R'. unfold by_pid. rewrite find_snoc. cbn.
        rewrite decide_False by congruence. by destruct (snd <$> _).
Qed.

(** Removing a PID leaves nothing behind: after [remove] the PID has no record and no
    link starts or ends at it, and the other records and links are kept. *)
Theorem aggregation_remove s pid : agg_locked s →
  ∃ b s', agg_remove pid s = Ok (b, s') ∧ agg_locked s' ∧
    (b = true ↔ pid ∈ pr_pid <$> pid_records_ (so_data s)) ∧
    (b = true → by_pid pid (pid_records_ (so_data s')) = None ∧
       (∀ l, l ∈ link_records_ (so_data s') ↔
          l ∈ link_records_ (so_data s) ∧ lr_src l ≠ pid ∧ lr_dst l ≠ pid) ∧
       ∀ p, p ≠ pid → by_pid p (pid_records_ (so_data s')) = by_pid p (pid_records_ (so_data s))) ∧
    (b = false → s' = s).
Proof.
  intros HL. pose proof (agg_remove_Ok s pid HL) as A. cbv zeta in A. destruct (decide _) as [Hin|Hin].
  - destruct A as (s' & E & L' & R' & K' & _). exists true, s'. split_and!; [done..| |done].
    intros _. rewrite R', K'. split_and!.
    + apply (record_key_None pr_pid). intros (r & -> & [? _]%list_elem_of_filter)%list_elem_of_fmap. done.
    + intros l. rewrite !list_elem_of_filter. tauto.
    + intros p Hp. unfold by_pid. by rewrite find_filter_ne.
  - by exists false, s.
Qed.

(** The vertices of a PID: [set_vertices], [add_vertices], [remove_vertices] and
    [clear_vertices] of a PID that is there replace its set by the given one, the union,
    the difference and the empty set, keep the name of the PID, its links and all other
    PIDs, and report the change. *)
Theorem aggregation_vertices s pid r (vs : NetVertexNameSet) : agg_locked s →
  by_pid pid (pid_records_ (so_data s)) = Some r → set_sorted text_ltb (pr_vertices r) →
  ∃ s1 s2 s3 s4 u d,
    set_vertices pid vs s = Ok (true, s1) ∧ get_vertices pid s1 = Ok (Some vs, s1) ∧
    add_vertices pid vs s = Ok (true, s2) ∧ get_vertices pid s2 = Ok (Some u, s2) ∧
    (∀ x, x ∈ u ↔ x ∈ vs ∨ x ∈ pr_vertices r) ∧ set_sorted text_ltb u ∧
    remove_vertices pid vs s = Ok (true, s3) ∧ get_vertices pid s3 = Ok (Some d, s3) ∧
    (∀ x, x ∈ d ↔ x ∉ vs ∧ x ∈ pr_vertices r) ∧ set_sorted text_ltb d ∧
    clear_vertices pid s = Ok (true, s4) ∧ get_vertices pid s4 = Ok (Some [], s4) ∧
    ∀ s', s' ∈ [s1; s2; s3; s4] → agg_locked s' ∧ bumped true (so_object s) (so_object s') ∧
      link_records_ (so_data s') = link_records_ (so_data s) ∧ reverse_lookup pid s' = Ok (Some (pr_name r), s') ∧
      ∀ p, p ≠ pid → by_pid p (pid_records_ (so_data s')) = by_pid p (pid_records_ (so_data s)).
Proof.
  intros HL Hr HS.
  assert (U : ∀ f, ∃ s', update_vertices f pid s = Ok (true, s') ∧
    get_vertices pid s' = Ok (Some (f (pr_vertices r)), s') ∧ agg_locked s' ∧
    bumped true (so_object s) (so_object s') ∧ link_records_ (so_data s') = link_records_ (so_data s) ∧
    reverse_lookup pid s' = Ok (Some (pr_name r), s') ∧
    ∀ p, p ≠ pid → by_pid p (pid_records_ (so_data s')) = by_pid p (pid_records_ (so_data s))).
  { intros f. pose proof (update_vertices_Ok s f pid HL) as A. rewrite Hr in A.
    destruct A as (s' & E & L' & K' & B' & F' & O'). exists s'.
    unfold get_vertices, reverse_lookup, so_get. rewrite !st_bind_eq. cbn. by rewrite F'. }
  destruct (U (λ _, vs)) as (s1 & E1 & G1 & R1). destruct (U (λ x, set_inserts text_ltb vs x)) as (s2 & E2 & G2 & R2).
  destruct (U (λ x, fold_left (λ vs v, set_erase text_ltb v vs) vs x)) as (s3 & E3 & G3 & R3).
  destruct (U (λ _, [])) as (s4 & E4 & G4 & R4).
  assert (HD : ∀ l w, set_sorted text_ltb w → set_sorted text_ltb (fold_left (λ vs v, set_erase text_ltb v vs) l w) ∧
    ∀ x, x ∈ fold_left (λ vs v, set_erase text_ltb v vs) l w ↔ x ∉ l ∧ x ∈ w).
  { induction l as [|v l IH]; intros w Hw; cbn; [split; [done|set_solver]|].
    destruct (IH _ (set_erase_sorted text_ltb v w Hw)) as [H1 H2]. split; [done|].
    intros x. rewrite H2, (set_erase_elem text_ltb), not_elem_of_cons by done. tauto. }
  destruct (HD vs (pr_vertices r) HS) as [HD1 HD2].
  eexists s1, s2, s3, s4, _, _. split_and!; try done.
  - apply (set_inserts_elem text_ltb).
  - by apply (set_inserts_sorted text_ltb).
  - intros s'. rewrite !elem_of_cons, elem_of_nil. intros [->|[->|[->|[->|[]]]]]; done.
Qed.

(** Copying an aggregation loses the links: the copy has the same PIDs, names and
    vertices, but no link of the original. *)
Lemma aggregation_copy_drops_links v0 s name src dst :
  get_link name s = Ok (Some (src, dst), s) →
  pid_records_ (so_data (PIDAggregation_copy v0 s)) = pid_records_ (so_data s) ∧
  get_link name (PIDAggregation_copy v0 s) = Ok (None, PIDAggregation_copy v0 s).
Proof. done. Qed.
End AggregationClaims.

Definition demo_agg : PIDAggregation (M := counting_mutex) :=
  MkServer demo_lock (MkAggregation [MkPIDRecord [] pidA []] [MkLinkRecord [] pidA pidB]).

Lemma demo_agg_locked : agg_locked demo_agg.
Proof. split; [|done]. split; cbn; apply NoDup_singleton. Qed.

Lemma aggregation_add_witness :
  ∃ b s', agg_add [] pidB [] demo_agg = Ok (b, s') ∧ agg_locked s'.
Proof.
  destruct (aggregation_add demo_agg [] pidB [] demo_agg_locked) as (_ & b & s' & H1 & H2 & _).
  by exists b, s'.
Defined.

Lemma aggregation_remove_witness :
  ∃ s', agg_remove pidA demo_agg = Ok (true, s') ∧ link_records_ (so_data s') = [].
Proof.
  destruct (aggregation_remove demo_agg pidA demo_agg_locked) as (b & s' & H1 & _ & H2 & H3 & _).
  assert (b = true) as -> by (apply H2; left). exists s'. split; [done|].
  destruct (H3 eq_refl) as (_ & H4 & _). destruct (link_records_ (so_data s')) as [|l ls] eqn:E; [done|].
  destruct (proj1 (H4 l) ltac:(left)) as [[->|Hl]%elem_of_cons [H5 _]]; [done|]. by apply elem_of_nil in Hl.
Defined.

Lemma aggregation_vertices_witness :
  ∃ s1, set_vertices pidA [[]] demo_agg = Ok (true, s1) ∧ get_vertices pidA s1 = Ok (Some [[]], s1).
Proof.
  destruct (aggregation_vertices demo_agg pidA (MkPIDRecord [] pidA []) [[]] demo_agg_locked)
    as (s1 & s2 & s3 & s4 & u & d & H1 & H2 & _).
  - done.
  - constructor.
  - by exists s1.
Defined.

(** ** The network *)
Section NetClaims.
Variable new_addr : list positive → positive.
Context {M : Type} `{SharedMutex M}.
Implicit Types s : NetState (M := M).

(** Editing the network keeps it well-formed (distinct vertices and edges, edges
    between vertices, and a name for a vertex exactly when the map of names has it), for
    any allocator that returns unused addresses: [add_node] of a new name adds an isolated
    vertex and of a used name changes nothing; [remove_node] removes the vertex and its
    edges only; [add_edge] adds an edge without traffic and with capacity one, or changes
    nothing when there is one; renaming a vertex to a free name changes its name only. *)
Theorem network_edits s : (∀ l, new_addr l ∉ l) → net_locked s →
  (∀ name, ∃ b v s', add_node new_addr name s = Ok ((b, v), s') ∧ net_locked s' ∧
     map_find text_ltb name (name_vert_map_ (so_data s')) = Some v ∧
     (b = false → s' = s) ∧
     (b = true → v ∉ vertices (graph_ (so_data s)) ∧ g_edges (graph_ (so_data s')) = g_edges (graph_ (so_data s)) ∧
        ∀ x, x ≠ v → vp (graph_ (so_data s')) x = vp (graph_ (so_data s)) x)) ∧
  (∀ v, v ∈ vertices (graph_ (so_data s)) → ∃ s', remove_node v s = Ok (tt, s') ∧ net_locked s' ∧
     (∀ x, vp (graph_ (so_data s')) x = if decide (x = v) then None else vp (graph_ (so_data s)) x) ∧
     ∀ x y, ep (graph_ (so_data s')) x y =
       if decide (x = v ∨ y = v) then None else ep (graph_ (so_data s)) x y) ∧
  (∀ src dst, src ∈ vertices (graph_ (so_data s)) → dst ∈ vertices (graph_ (so_data s)) →
     ∃ r s', add_edge new_addr src dst s = Ok (r, s') ∧ net_locked s' ∧
       (r = None ↔ ep (graph_ (so_data s)) src dst ≠ None) ∧ (r = None → s' = s) ∧
       ∀ x y, ep (graph_ (so_data s')) x y =
         if decide (x = src ∧ y = dst ∧ ep (graph_ (so_data s)) src dst = None)
         then Some (MkEProps [] dzero done_) else ep (graph_ (so_data s)) x y) ∧
  (∀ v p name, vp (graph_ (so_data s)) v = Some p →
     map_find text_ltb name (name_vert_map_ (so_data s)) = None →
     ∃ s', set_name v name s = Ok (tt, s') ∧ net_locked s' ∧ g_edges (graph_ (so_data s')) = g_edges (graph_ (so_data s)) ∧
       ∀ x, vp (graph_ (so_data s')) x = if decide (x = v) then Some (named name p) else vp (graph_ (so_data s)) x).
Proof.
  intros Hna HL. split_and!.
  - intros name. pose proof (add_node_Ok new_addr Hna s name HL) as A.
    destruct (map_find text_ltb name (name_vert_map_ (so_data s))) as [v|] eqn:F.
    + by exists false, v, s.
    + destruct A as (v & s' & E & L' & Hf & V' & E' & _). exists true, v, s'. split_and!; try done.
      * apply (no_names _ (proj1 L')). eexists. rewrite V', decide_True by done. done.
      * intros _. split_and!; [done..|]. intros x Hx. by rewrite V', decide_False.
  - intros v Hv. destruct (remove_node_Ok s v HL Hv) as (s' & E & L' & V' & E' & _). by exists s'.
  - intros src dst Hs Hd. pose proof (add_edge_Ok new_addr Hna s src dst HL Hs Hd) as A.
    destruct (ep (graph_ (so_data s)) src dst) as [q|] eqn:Eq.
    + exists None, s. split_and!; try done. intros x y. by rewrite decide_False by naive_solver.
    + destruct A as (e & s' & E & L' & _ & _ & _ & _ & X'). exists (Some e), s'. split_and!; try done.
      intros x y. rewrite X'. repeat case_decide; naive_solver.
  - intros v p name Hp Hn. destruct (set_name_Ok s v p name HL Hp) as (s' & E & L' & V' & E').
    { intros w. by rewrite Hn. }
    by exists s'.
Qed.

(** C23. [aggregate_node] for a set of vertices of a well-formed network.  One vertex is
    only renamed: it is the result and no edge changes; the network stays well-formed
    unless another vertex has the name, which is not checked, so that two vertices have it
    then.  Otherwise nothing happens and the result is [false] if the name is in use; if
    it is not, a new vertex of that name takes the place of the given ones: every edge
    between the others is kept, for every other vertex the edge to (and from) the new
    vertex has the sum of the traffic and the sum of the capacity of its edges to (and
    from) the given vertices, in the order of the set, or does not exist when there was
    none, and the network stays well-formed. *)
Theorem network_aggregate s (vs : list NetVertex) (name : NetVertexName) : (∀ l, new_addr l ∉ l) →
  net_locked s → NoDup vs → (∀ v, v ∈ vs → v ∈ vertices (graph_ (so_data s))) →
  let used := map_find text_ltb name (name_vert_map_ (so_data s)) in
  match vs with
  | [v] => ∃ s', aggregate_node new_addr vs name s = Ok ((true, v), s') ∧
      (net_locked s' ↔ used = None ∨ used = Some v) ∧
      (∀ x, vp (graph_ (so_data s')) x =
         if decide (x = v) then named name <$> vp (graph_ (so_data s)) v else vp (graph_ (so_data s)) x) ∧
      g_edges (graph_ (so_data s')) = g_edges (graph_ (so_data s))
  | _ =>
      match used with
      | Some w => aggregate_node new_addr vs name s = Ok ((false, w), s)
      | None => ∃ res s', aggregate_node new_addr vs name s = Ok ((true, res), s') ∧ net_locked s' ∧
          res ∉ vertices (graph_ (so_data s)) ∧
          (∀ x, vp (graph_ (so_data s')) x =
             if decide (x ∈ vs) then None
             else if decide (x = res) then Some (named name vprops_default) else vp (graph_ (so_data s)) x) ∧
          (∀ x y, ep (graph_ (so_data s')) x y =
             if decide (x ∈ vs ∨ y ∈ vs) then None
             else if decide (y = res) then edge_sum true (graph_ (so_data s)) x vs
             else if decide (x = res) then edge_sum false (graph_ (so_data s)) y vs
             else ep (graph_ (so_data s)) x y)
      end
  end.
Proof.
  intros Hna HL HN HV. cbv zeta. destruct (decide (length vs = 1)) as [H1|Hl].
  - destruct vs as [|v [|? ?]]; try done. unfold aggregate_node.
    destruct (vp (graph_ (so_data s)) v) as [p|] eqn:Hp; [|apply vp_None in Hp; destruct Hp; apply HV; left].
    destruct (map_find text_ltb name (name_vert_map_ (so_data s))) as [w|] eqn:Hf; [destruct (decide (w = v)) as [->|Hne]|].
    + destruct (set_name_Ok s v p name HL Hp) as (s' & E & L' & V' & E'); [congruence|]. exists s'.
      rewrite (st_bind_Ok _ _ _ _ _ E). split_and!; try done. split; [by right|done].
    + destruct (set_name_clash s v p name w HL Hp Hf Hne) as (s' & E & L' & _ & V' & E'). exists s'.
      rewrite (st_bind_Ok _ _ _ _ _ E). split_and!; try done. split; [done|]. by intros [?|[= ?]].
    + destruct (set_name_Ok s v p name HL Hp) as (s' & E & L' & V' & E'); [congruence|]. exists s'.
      rewrite (st_bind_Ok _ _ _ _ _ E). split_and!; try done. split; [by left|done].
  - assert (HK : match map_find text_ltb name (name_vert_map_ (so_data s)) with
      | Some w => aggregate_node new_addr vs name s = Ok ((false, w), s)
      | None => ∃ res s', aggregate_node new_addr vs name s = Ok ((true, res), s') ∧ net_locked s' ∧
          res ∉ vertices (graph_ (so_data s)) ∧ aggregated (graph_ (so_data s)) (graph_ (so_data s')) vs res name end).
    { destruct (map_find text_ltb name (name_vert_map_ (so_data s))) as [w|] eqn:Hf; [|by apply aggregate_node_Ok].
      pose proof (add_node_Ok new_addr Hna s name HL) as A. rewrite Hf in A.
      destruct vs as [|v [|? ?]]; [|done|]; unfold aggregate_node; by rewrite (st_bind_Ok _ _ _ _ _ A). }
    by destruct vs as [|v [|? ?]].
Qed.

(** [remove_edge] removes the edge and nothing else, but does not report it: the lock
    state and the version of the object stay as they were, and the map of edge names
    keeps its entries. *)
Theorem network_remove_edge s e : net_locked s → e ∈ edges (graph_ (so_data s)) →
  ∃ s', remove_edge e s = Ok (tt, s') ∧ net_locked s' ∧
    (∀ x, vp (graph_ (so_data s')) x = vp (graph_ (so_data s)) x) ∧
    (∀ x y, ep (graph_ (so_data s')) x y =
       if decide (x = e_src e ∧ y = e_dst e) then None else ep (graph_ (so_data s)) x y) ∧
    so_object s' = so_object s ∧ name_edge_map_ (so_data s') = name_edge_map_ (so_data s).
Proof.
  intros [N Hw] He. destruct (remove_edge_Ok s e N He) as (s' & E & O' & N' & V' & M' & _ & X').
  exists s'. split_and!; try done. split; [done|]. by rewrite O'.
Qed.
End NetClaims.

(** The allocator that returns the successor of the largest address in use. *)
Definition next_addr (l : list positive) : positive := Pos.succ (foldr Pos.max 1%positive l).
Lemma next_addr_fresh l : next_addr l ∉ l.
Proof.
  assert (H : ∀ x, x ∈ l → (x ≤ foldr Pos.max 1 l)%positive).
  { induction l as [|y l IH]; [set_solver|]. intros x [->|Hx]%elem_of_cons; cbn; [lia|]. specialize (IH x Hx). lia. }
  intros Hin%H. unfold next_addr in Hin. lia.
Qed.

Definition name1 : text := ["a"%char].
Definition name2 : text := ["b"%char].
Definition demo_net : NetState (M := counting_mutex) :=
  MkServer demo_lock (MkNetData (MkNetGraph [] []) [] []).

Lemma demo_net_locked : net_locked demo_net.
Proof.
  split; [|done]. split; cbn.
  - split; cbn; try constructor. all: unfold edges in *; cbn in *; set_solver.
  - constructor.
  - intros n v. split; [done|]. by intros (p & ? & _).
Qed.

(** A network with two vertices. *)
Lemma demo_net2 : ∃ (s : NetState (M := counting_mutex)) v w, net_locked s ∧ v ≠ w ∧
  v ∈ vertices (graph_ (so_data s)) ∧ w ∈ vertices (graph_ (so_data s)) ∧
  map_find text_ltb [] (name_vert_map_ (so_data s)) = None.
Proof.
  pose proof (add_node_Ok next_addr next_addr_fresh demo_net name1 demo_net_locked) as A1. cbn in A1.
  destruct A1 as (v & s1 & E1 & L1 & H1 & V1 & _).
  pose proof (add_node_Ok next_addr next_addr_fresh s1 name2 L1) as A2.
  vm_compute in E1. injection E1 as <- <-.
  destruct A2 as (w & s2 & E2 & L2 & H2 & V2 & _). vm_compute in E2. injection E2 as <- <-.
  eexists _, 2%positive, 3%positive. split; [exact L2|]. split; [done|]. by vm_compute; set_solver.
Qed.

Lemma network_edits_witness : ∃ b v s', add_node next_addr name1 demo_net = Ok ((b, v), s') ∧ net_locked s'.
Proof.
  destruct (network_edits next_addr demo_net next_addr_fresh demo_net_locked) as (H & _).
  destruct (H name1) as (b & v & s' & H1 & H2 & _). by exists b, v, s'.
Defined.

Lemma network_aggregate_witness : ∃ (s s' : NetState (M := counting_mutex)) v w res,
  v ≠ w ∧ aggregate_node next_addr [v; w] [] s = Ok ((true, res), s') ∧ net_locked s' ∧
  vp (graph_ (so_data s')) v = None.
Proof.
  destruct demo_net2 as (s & v & w & HL & Hne & Hv & Hw & Hn).
  pose proof (network_aggregate next_addr s [v; w] [] next_addr_fresh HL) as HA. cbv zeta iota in HA. rewrite Hn in HA.
  destruct HA as (res & s' & H1 & H2 & _ & H3 & _).
  - apply NoDup_cons. split; [set_solver|apply NoDup_singleton].
  - set_solver.
  - exists s, s', v, w, res. split_and!; try done. rewrite H3, decide_True; [done|left].
Defined.

Lemma network_remove_edge_witness : ∃ (s s' : NetState (M := counting_mutex)) e,
  e ∈ edges (graph_ (so_data s)) ∧ remove_edge e s = Ok (tt, s') ∧ so_object s' = so_object s.
Proof.
  destruct demo_net2 as (s & v & w & HL & Hne & Hv & Hw & Hn).
  pose proof (add_edge_Ok next_addr next_addr_fresh s v w HL Hv Hw) as A.
  assert (∃ (s : NetState (M := counting_mutex)) e, net_locked s ∧ e ∈ edges (graph_ (so_data s))) as (s1 & e & L1 & He).
  { destruct (ep (graph_ (so_data s)) v w) as [p|] eqn:E.
    - apply ep_Some in E as (e & He & _); [|apply HL]. exists s, e. split; [done|]. apply elem_edges. eauto.
    - destruct A as (e & s1 & _ & L1 & He & _). by exists s1, e. }
  destruct (network_remove_edge s1 e L1 He) as (s' & H1 & _ & _ & _ & H2 & _). by exists s1, s', e.
Defined.

(** The name of a removed edge dangles: after an edge was named and removed,
    [get_edge] by its name still succeeds, and reading the capacity of the edge it returns
    is an access to freed memory. *)
Theorem removed_edge_name_dangles :
  ∃ (s : NetState (M := counting_mutex)) e,
    (add_node next_addr name1;; add_node next_addr name2;;
     r ← add_edge_names next_addr name1 name2;
     match r with
     | Some e => set_edge_name e name1;; remove_edge_names name1 name2;; mret (Some e)
     | None => mret None
     end) demo_net = Ok (Some e, s) ∧
    get_edge_by_name name1 s = Ok (Some e, s) ∧ get_capacity e s = Fault UB.
Proof. eexists _, _. split; [vm_compute; reflexivity|]. by vm_compute. Qed.
