(* ===== verification/RoutingProperties.v ===== *)
(** * Properties of routing and of the update of views

    The theorems about common-server's pid_routing.cpp, the portal server's view_update.h
    and the MLU plugin, with their witnesses. *)
From S2P Require Import Prelude StdMap Double IpAddr Pid Locking ServerObject PidMatrix.
From S2P Require Import PidAggregation NetState NetStateSpec NetCopy PidRouting PidRoutingSpec.
From S2P Require Import ViewUpdate ViewUpdateSpec ViewTopology ViewResult Mlu ViewProperties.

(** ** Static routes *)
(** The operations on static routes, and their specification: a mode and a multiset of
    routes. *)
Inductive route_op := AddRoute (r : NamedRoute) | RemoveRoute (r : NamedRoute) | ClearRoutes | SetMode (m : RouteMode).

Fixpoint remove_one (r : NamedRoute) (l : list NamedRoute) : list NamedRoute :=
  match l with [] => [] | x :: l' => if decide (x = r) then l' else x :: remove_one r l' end.

Definition spec_op (o : route_op) (a : RouteMode * list NamedRoute) : bool * (RouteMode * list NamedRoute) :=
  let '(mode, l) := a in
  match o with
  | AddRoute r => if decide (mode = RM_STATIC ∧ 2 ≤ length r) then (true, (mode, r :: l)) else (false, a)
  | RemoveRoute r => if decide (r ∈ l) then (true, (mode, remove_one r l)) else (false, a)
  | ClearRoutes => if decide (mode = RM_STATIC) then (true, (mode, [])) else (false, a)
  | SetMode m => (true, (m, if decide (m = RM_STATIC ∧ mode ≠ m) then [] else l))
  end.
Fixpoint spec_ops (os : list route_op) (a : RouteMode * list NamedRoute) : list bool * (RouteMode * list NamedRoute) :=
  match os with
  | [] => ([], a)
  | o :: os' => let '(b, a1) := spec_op o a in let '(bs, a2) := spec_ops os' a1 in (b :: bs, a2)
  end.

Lemma remove_one_perm r l : r ∈ l → r :: remove_one r l ≡ₚ l.
Proof.
  induction l as [|x l IH]; [intros ?%not_elem_of_nil; done|]. cbn. intros Hr. case_decide as E; [by subst|].
  rewrite Permutation_swap. apply Permutation_skip, IH. set_solver.
Qed.
Lemma remove_one_proper r l l' : l ≡ₚ l' → remove_one r l ≡ₚ remove_one r l'.
Proof.
  intros E. destruct (decide (r ∈ l)) as [Hr|Hr].
  - apply (Permutation_cons_inv (a := r)). rewrite !remove_one_perm by (rewrite <- ?E; done). done.
  - assert (HN : ∀ k, r ∉ k → remove_one r k = k).
    { induction k as [|x k IH]; [done|]. cbn. intros Hx. rewrite decide_False by set_solver. rewrite IH by set_solver. done. }
    rewrite !HN by (rewrite <- ?E; done). done.
Qed.

Section StaticClaims.
Context {M : Type} `{SharedMutex M}.
Variable new_addr : list positive → positive.
Implicit Types s : PIDRouting M.

Definition run_op (o : route_op) : ST (PIDRouting M) bool :=
  match o with
  | AddRoute r => add_static_route new_addr [] r
  | RemoveRoute r => remove_static_route [] r
  | ClearRoutes => clear_static_routes
  | SetMode m => set_route_mode m;; mret true
  end.
Fixpoint run_ops (os : list route_op) : ST (PIDRouting M) (list bool) :=
  match os with [] => mret [] | o :: os' => b ← run_op o; bs ← run_ops os'; mret (b :: bs) end.

Definition represents s (a : RouteMode * list NamedRoute) : Prop :=
  routing_locked s ∧ route_mode_ (so_data s) = a.1 ∧ routes_of (so_data s) ≡ₚ a.2.

Lemma run_op_spec o s a : (∀ l, new_addr l ∉ l) → represents s a →
  ∃ s', run_op o s = Ok ((spec_op o a).1, s') ∧ represents s' (spec_op o a).2.
Proof.
  intros F (L & Hm & Hr). destruct a as [mode l]. cbn in Hm, Hr. subst mode. destruct o as [r|r| |m]; cbn [run_op spec_op].
  - pose proof (add_static_route_Ok new_addr F s r L) as X. case_decide.
    + destruct X as (s' & E & L' & M' & _ & R' & _). exists s'. split; [done|]. split_and!; [done|cbn; rewrite M'; symmetry; tauto|].
      cbn. by rewrite R', Hr.
    + exists s. by split.
  - pose proof (remove_static_route_Ok new_addr F s r L) as X. destruct (decide (r ∈ l)) as [Hin|Hin].
    + rewrite decide_True in X by by rewrite Hr. destruct X as (s' & E & L' & M' & _ & R' & _). exists s'.
      split; [done|]. split_and!; [done..|]. cbn. apply (Permutation_cons_inv (a := r)). by rewrite <- R', remove_one_perm.
    + rewrite decide_False in X by by rewrite Hr. exists s. by split.
  - pose proof (clear_static_routes_Ok new_addr F s L) as X. case_decide as Hc.
    + destruct X as (s' & E & L' & D' & _). exists s'. split; [done|]. split_and!; [done|by rewrite D'|by rewrite D'].
    + exists s. by split.
  - destruct (set_route_mode_Ok new_addr F s m L) as (s' & E & L' & M' & _ & R' & _). exists s'.
    rewrite (st_bind_Ok _ _ _ _ _ E). split; [done|]. split_and!; [done..|]. cbn. rewrite R'. by case_decide.
Qed.

(** C15. The static routes of a [PIDRouting] refine a multiset of routes with a mode: for any
    sequence of [add_static_route], [remove_static_route], [clear_static_routes] and
    [set_route_mode], every operation returns what the specification returns, the routes
    that are left are those of the specification, the object stays well-formed, and
    [get_static_route] finds a route between two PIDs exactly when there is one. *)
Theorem static_routes_refine (os : list route_op) s : (∀ l, new_addr l ∉ l) → routing_locked s →
  let '(bs, (mode, routes)) := spec_ops os (route_mode_ (so_data s), routes_of (so_data s)) in
  ∃ s', run_ops os s = Ok (bs, s') ∧ routing_locked s' ∧ route_mode_ (so_data s') = mode ∧
    routes_of (so_data s') ≡ₚ routes ∧
    ∀ a b, ∃ r, get_static_route a b s' = Ok (r, s') ∧
      match r with
      | Some r => r ∈ routes ∧ route_ends r (a, b)
      | None => ∀ r, r ∈ routes → ¬ route_ends r (a, b)
      end.
Proof.
  intros F L. assert (HG : ∀ os s a, represents s a →
    ∃ s', run_ops os s = Ok ((spec_ops os a).1, s') ∧ represents s' (spec_ops os a).2).
  { clear os s L. induction os as [|o os IH]; intros s a R; [exists s; by split|]. cbn [run_ops spec_ops].
    destruct (run_op_spec o s a F R) as (s1 & E1 & R1). rewrite (st_bind_Ok _ _ _ _ _ E1).
    destruct (spec_op o a) as [b a1]. cbn [fst snd] in *. destruct (IH s1 a1 R1) as (s2 & E2 & R2).
    rewrite (st_bind_Ok _ _ _ _ _ E2). destruct (spec_ops os a1) as [bs a2]. exists s2. by split. }
  destruct (HG os s (route_mode_ (so_data s), routes_of (so_data s))) as (s' & E & L' & M' & R'); [by split|].
  destruct (spec_ops os _) as [bs [mode routes]]. cbn [fst snd] in *. exists s'. split_and!; [done..|].
  intros a b. destruct (get_static_route_Ok s' a b (proj1 L')) as (r & Er & Hr). exists r. split; [done|].
  destruct r; [by rewrite <- R'|]. intros r. rewrite <- R'. apply Hr.
Qed.
End StaticClaims.

(** ** The check of the static routes *)
Section CheckClaims.
Context {M : Type} `{SharedMutex M} {P : Type} `{!OptPluginBase M P}.

(** Whether the hops of a route are pinned and every hop has an edge to the one before. *)
Fixpoint hops_ok (g : NetGraph) (pids : PinnedPIDSet) (prev : option NetVertex) (route : NamedRoute) : bool :=
  match route with
  | [] => true
  | hop :: route' =>
      match find_pinned hop pids with
      | Some p =>
          match v_set_ p with
          | [cur] =>
              match prev with None => true | Some u => bool_decide (is_Some (edge cur u g)) end && hops_ok g pids (Some cur) route'
          | _ => false
          end
      | None => false
      end
  end.

Lemma verify_hops_Ok (pids : PinnedPIDSet) route : (∀ p, p ∈ pids → ∃ v, v_set_ p = [v]) →
  ∀ prev (s : NetState (M := M)), verify_hops pids prev route s = Ok (hops_ok (graph_ (so_data s)) pids prev route, s).
Proof.
  intros HP. induction route as [|hop route IH]; intros prev s; cbn [verify_hops hops_ok]; [done|].
  destruct (find_pinned hop pids) as [p|] eqn:E; [|done]. apply find_pinned_Some in E as [Hp _].
  destruct (HP p Hp) as [v ->]. destruct prev as [u|].
  - rewrite (st_bind_Ok _ _ _ (match edge v u (graph_ (so_data s)) with Some _ => true | None => false end) s) by done.
    by destruct (edge v u (graph_ (so_data s))).
  - rewrite st_bind_eq. cbn. by rewrite IH.
Qed.

Lemma hops_ok_iff g (pids : PinnedPIDSet) : NoDup (pp_pid <$> pids) → (∀ p, p ∈ pids → ∃ v, v_set_ p = [v]) → ∀ route prev,
  hops_ok g pids prev route = true ↔
    (∀ hop, hop ∈ route → hop ∈ pp_pid <$> pids) ∧
    (∀ a va u, head route = Some a → prev = Some u → PinnedPID_vertex a va ∈ pids → is_Some (edge va u g)) ∧
    (∀ i a b va vb, route !! i = Some a → route !! S i = Some b → PinnedPID_vertex a va ∈ pids → PinnedPID_vertex b vb ∈ pids →
       is_Some (edge vb va g)).
Proof.
  intros HN HP. assert (HF : ∀ a va, PinnedPID_vertex a va ∈ pids → find_pinned a pids = Some (PinnedPID_vertex a va)).
  { intros a va Hin. by apply (find_key_elem pp_pid _ _ _ HN Hin). }
  induction route as [|hop route IH]; intros prev; cbn [hops_ok].
  { split; [|done]. intros _. split_and!; [set_solver|by intros|by intros]. }
  destruct (find_pinned hop pids) as [p|] eqn:E.
  2: { split; [done|]. intros (HR & _). apply find_pinned_None in E. destruct E. apply HR. left. }
  apply find_pinned_Some in E as [Hp Eh]. destruct (HP p Hp) as [v Ev]. rewrite Ev.
  assert (Ep : p = PinnedPID_vertex hop v) by (destruct p; cbn in *; by subst). subst p. clear Eh Ev.
  rewrite andb_true_iff, IH. split.
  - intros (H1 & H2 & H3 & H4). split_and!.
    + intros h [->|Hh]%elem_of_cons; [exact (list_elem_of_fmap_2 pp_pid _ _ Hp)|auto].
    + cbn. intros a va u [= ->] -> Ha. apply HF in Hp, Ha. rewrite Hp in Ha. injection Ha as ->. by apply bool_decide_eq_true in H1.
    + intros [|i] a b va vb Ha Hb Pa Pb; [|exact (H4 i a b va vb Ha Hb Pa Pb)]. injection Ha as ->.
      apply HF in Hp, Pa. rewrite Hp in Pa. injection Pa as ->. apply (H3 b vb va); [by destruct route|done..].
  - intros (H1 & H2 & H3). split_and!.
    + destruct prev as [u|]; [|done]. apply bool_decide_eq_true. by apply (H2 hop v u).
    + set_solver.
    + intros a va u Ha [= <-] Pa. apply (H3 0 hop a v va); [done|by destruct route|done..].
    + intros i a b va vb. apply (H3 (S i)).
Qed.

(** [verify_static_routing] accepts the static routes of a view exactly when every hop
    of every route is a PID of the network and the network has an edge from every hop
    _back_ to the hop before it: the test looks up the edges against the direction of the
    routes. *)
Theorem static_check_reads_reversed_edges (view : View M P) (pids : PinnedPIDSet) (s : NetState (M := M)) :
  NoDup (pp_pid <$> pids) → (∀ p, p ∈ pids → ∃ v, v_set_ p = [v]) →
  ∃ b, verify_static_routing view pids s = Ok (b, s) ∧
    (b = true ↔ ∀ route, route ∈ routes_of (so_data (intradomain_routing view)) →
       (∀ hop, hop ∈ route → hop ∈ pp_pid <$> pids) ∧
       ∀ i prev cur v_prev v_cur, route !! i = Some prev → route !! S i = Some cur →
         PinnedPID_vertex prev v_prev ∈ pids → PinnedPID_vertex cur v_cur ∈ pids →
         is_Some (edge v_cur v_prev (graph_ (so_data s)))).
Proof.
  intros HN HP. unfold verify_static_routing, routes_of.
  induction (static_routes_ _) as [|n l (b & E & IH)]; cbn [verify_routes].
  { exists true. split; [done|]. split; [set_solver|done]. }
  rewrite (st_bind_Ok _ _ _ _ _ (verify_hops_Ok pids (route_named n) HP None s)).
  pose proof (hops_ok_iff (graph_ (so_data s)) pids HN HP (route_named n) None) as HO.
  destruct (hops_ok _ pids None (route_named n)).
  - exists b. split; [done|]. rewrite IH. destruct (proj1 HO eq_refl) as (H1 & _ & H3). split.
    + intros HR route [->|Hr]%elem_of_cons; [by split|by apply HR].
    + intros HR route Hr. apply HR. by right.
  - exists false. split; [done|]. split; [done|]. intros HR. apply HO. destruct (HR (route_named n)) as [H1 H2]; [left|].
    split_and!; [done| |done]. intros a va u _ [=].
Qed.
End CheckClaims.

(** ** PIDs that are removed *)
Section RemoveClaims.
Context {M : Type} `{SharedMutex M} {P : Type} `{!OptPluginBase M P}.

(** [remove_pid] of a routing with static routes leaves every route through the PID in
    place and only forgets it in the index; as long as the PID is not in the network the
    check of the static routes fails, so that no update of the view succeeds. *)
Theorem removed_pid_keeps_static_routes (new_addr : list positive → positive) (s : PIDRouting M) (pid : PID) (route : NamedRoute) :
  (∀ l, new_addr l ∉ l) → routing_locked s → route_mode_ (so_data s) = RM_STATIC →
  route ∈ routes_of (so_data s) → pid ∈ route →
  ∃ s', routing_remove_pid [] pid s = Ok (tt, s') ∧ routing_locked s' ∧ routes_of (so_data s') = routes_of (so_data s) ∧
    (∀ i, (pid, i) ∉ static_route_ptrs_ (so_data s')) ∧
    ∀ (view : View M P) (pids : PinnedPIDSet) (net : NetState (M := M)), intradomain_routing view = s' →
      NoDup (pp_pid <$> pids) → (∀ p, p ∈ pids → ∃ v, v_set_ p = [v]) → pid ∉ pp_pid <$> pids →
      verify_static_routing view pids net = Ok (false, net).
Proof.
  intros F L Hm Hr Hp. destruct (remove_pid_static_Ok new_addr F s pid L Hm) as (s' & E & L' & R' & _ & _ & I' & _).
  exists s'. unfold routes_of. rewrite R'. split_and!; [done..|]. intros view pids net Ev HN HP Hpid.
  unfold verify_static_routing. rewrite Ev, R'. unfold routes_of in Hr. clear -Hr Hp HN HP Hpid.
  induction (static_routes_ (so_data s)) as [|n l IH]; [by apply not_elem_of_nil in Hr|]. cbn [verify_routes].
  rewrite (st_bind_Ok _ _ _ _ _ (verify_hops_Ok pids (route_named n) HP None net)).
  destruct (hops_ok _ pids None (route_named n)) eqn:EO; [|done].
  apply (hops_ok_iff _ _ HN HP) in EO as (H1 & _). rewrite fmap_cons in Hr. apply elem_of_cons in Hr as [->|Hr].
  - by destruct Hpid; apply H1.
  - by apply IH.
Qed.
End RemoveClaims.

(** ** Routes by weights *)
Section WeightClaims.
Context {M : Type} `{SharedMutex M}.

(** C16. With weights, [get_routes] computes shortest routes: from a source to every pinned
    PID it returns a route exactly when there is a path, the route is the list of the PIDs
    of a path without repeated vertices from the source's vertex to the destination's, and
    no path has a smaller weight.  The trace back through the predecessor map ends within
    as many steps as there are vertices.  [dijkstra] satisfies the contract of
    [boost::dijkstra_shortest_paths] for the source. *)
Theorem weighted_routes_are_shortest (visit : PinnedPIDSet → list PinnedPID)
    (dijkstra : NetGraph → NetVertex → gmap NetVertex nat → gmap positive double → outcome (gmap NetVertex NetVertex))
    (routing : PIDRouting M) (state : NetState (M := M)) (pids : PinnedPIDSet) (src : PinnedPID) (v_src : NetVertex) :
  (∀ l, visit l ≡ₚ l) → routing_ok (so_data routing) → route_mode_ (so_data routing) = RM_WEIGHTS →
  graph_ok (graph_ (so_data state)) → NoDup (pp_pid <$> pids) → Forall (pinned_in state) pids →
  get_vertex src = Ok v_src → dijkstra_contract dijkstra routing state v_src →
  ∃ c, get_routes visit dijkstra routing src state pids context_new = Ok (true, c) ∧
    ∀ dst v_dst, dst ∈ pids → get_vertex dst = Ok v_dst →
      match map_find PID_ltb (pp_pid dst) (result_ c) with
      | Some route => v_dst ≠ v_src ∧ shortest_route routing state v_src v_dst (pp_pid dst) route
      | None => v_dst = v_src ∨ ∀ p, ¬ path (graph_ (so_data state)) v_src v_dst p
      end.
Proof.
  intros V O Hm G HN HP Es HD. unfold get_routes. rewrite Hm.
  destruct (get_routes_weights_Ok visit V dijkstra routing src v_src state pids context_new) as (c & E & _ & HC); [done..|by left|done|].
  exists c. split; [done|]. intros dst v Hd Ev. destruct (HC dst Hd) as (v' & Ev' & HR). rewrite Ev in Ev'. injection Ev' as <-.
  by destruct (map_find PID_ltb (pp_pid dst) (result_ c)).
Qed.
End WeightClaims.

(** ** The update of a view *)
Section UpdateClaims.
Context {M : Type} `{SharedMutexLaws M} {P : Type} `{!OptPluginBase M P, !OptPluginLaws M P}.

(** C5. The stages of an update that change the network succeed and give the network of
    PIDs: on a copy that is isomorphic to the network, the vertices of every PID of the
    view become one vertex of that PID, every other vertex that the view's action keeps
    stays with a PID of its own, there are no other vertices, and two PIDs are linked
    exactly when some of the vertices that they stand for are. *)
Theorem view_topology_is_quotient (new_addr : list positive → positive) (visit : PinnedPIDSet → list PinnedPID)
    (view : View M P) (net : NetState (M := M)) :
  (∀ l, new_addr l ∉ l) → (∀ l, visit l ≡ₚ l) → net_ok (so_data net) → view_ok net (get_pid_map (aggregation view)) →
  ∃ f copy ps pids' s3 cls, topology new_addr visit view net = Ok (Some (ps, pids', s3)) ∧ net_iso f net copy ∧
    pid_topology copy (extra_node_action_ view) (rec_pin copy <$> get_pid_map (aggregation view)) pids' cls s3.
Proof. intros F V N O. by apply topology_net_Ok. Qed.

(** C4. [do_update] of a view that routes by weights succeeds and installs matrices over the
    PIDs of the view: between internal PIDs the pDistance is the sum of the pDistances of
    the links of a shortest route (the static ones, then the plugin's, then the default),
    or the default when there is no route; to and from external PIDs it is the pDistance of
    the link, or that of the border link of a shortest route with, if the view asks for it,
    the pDistance inside of the domain.  The plugin is used through its interface only. *)
Theorem view_update_costs_shortest_routes (new_addr : list positive → positive) (visit : PinnedPIDSet → list PinnedPID)
    (dijkstra : NetGraph → NetVertex → gmap NetVertex nat → gmap positive double → outcome (gmap NetVertex NetVertex))
    (view : View M P) (net : NetState (M := M)) (ps : PidSets) (pids' : PinnedPIDSet) (s3 : NetState (M := M)) :
  (∀ l, new_addr l ∉ l) → (∀ l, visit l ≡ₚ l) → weights_view view → net_ok (so_data net) →
  view_ok net (get_pid_map (aggregation view)) → writing_ (view_object view) = true →
  topology new_addr visit view net = Ok (Some (ps, pids', s3)) →
  (∀ v, v ∈ vertices (graph_ (so_data s3)) → dijkstra_contract dijkstra (intradomain_routing view) s3 v) →
  ∃ view', do_update new_addr visit dijkstra net view = Ok (update_interval_ view, view') ∧
    bumped true (view_object view) (view_object view') ∧
    result_ok view net pids' s3 (intradomain_pdistances view') (interdomain_pdistances view') (plugin_inst_ view').
Proof.
  intros F V W N O Hw HT HD.
  destruct (do_update_Ok new_addr F visit V dijkstra view net ps pids' s3 W N O Hw HT HD) as (intra & inter & pl & o & E & B & R).
  exists (set_matrices o pl intra inter view). by split_and!.
Qed.
End UpdateClaims.

(** ** The MLU plugin *)
Section MluClaims.
Context {M : Type} `{SharedMutexLaws M}.
Implicit Types state : NetState (M := M).

(** [compute_pdistances] of the MLU plugin returns: with the code 0 when no capacity is
    below EPS, and then [alpha_] is the maximum of zero and the utilisations of the edges;
    with the code -1 and [alpha_] unchanged otherwise.  It keeps the plugin well-formed. *)
Theorem mlu_is_maximum_utilisation state (p : MLUPlugin M) : graph_ok (graph_ (so_data state)) → mlu_ok p →
  ∃ code p', compute_pdistances_mlu state p = Ok (code, p') ∧ mlu_ok p' ∧
    (code = 0%Z ↔ ∀ e q, (e, q) ∈ g_edges (graph_ (so_data state)) → dlt (e_capacity q) EPS = false) ∧
    (code ≠ 0%Z → code = (-1)%Z ∧ alpha_ p' = alpha_ p) ∧
    (code = 0%Z → isnan (alpha_ p') = false ∧
       (alpha_ p' = dzero ∨
        ∃ e q, (e, q) ∈ g_edges (graph_ (so_data state)) ∧ alpha_ p' = ddiv (e_traffic q) (e_capacity q)) ∧
       ∀ e q, (e, q) ∈ g_edges (graph_ (so_data state)) → isnan (ddiv (e_traffic q) (e_capacity q)) = false →
         dle (ddiv (e_traffic q) (e_capacity q)) (alpha_ p') = true).
Proof.
  intros G O. destruct (compute_pdistances_mlu_Ok state G p O) as (code & p' & E & O' & _ & HC). exists code, p'.
  split_and!; [done..| | |].
  - case_decide as HF; destruct HC as [-> _]; rewrite Forall_forall in HF.
    + split; [|done]. intros _ e q Hq. exact (HF (e, q) Hq).
    + split; [done|]. intros HX. destruct HF. intros [e q] Hq. by eapply HX.
  - case_decide; destruct HC as [-> ?]; [done|]. by intros _.
  - case_decide; destruct HC as [-> HA]; [|done]. intros _. destruct (compute_mlu_Ok state G) as (mlu & Em & X1 & X2 & X3).
    rewrite HA in Em. injection Em as <-. by split_and!.
Qed.

(** The plugin after updates with the given networks. *)
Fixpoint mlu_updates (states : list (NetState (M := M))) (p : MLUPlugin M) : outcome (MLUPlugin M) :=
  match states with [] => Ok p | st :: sts => '(_, p') ← compute_pdistances_mlu st p; mlu_updates sts p' end.

(** The MLU plugin never provides a pDistance: the matrices of a new plugin have no
    PIDs, [compute_pdistances] never adds one, and setting a cost between unknown PIDs does
    nothing, so that after any number of updates every cost of the plugin's matrix is
    still NaN. *)
Theorem mlu_never_provides_pdistances (mu : double) (states : list (NetState (M := M))) :
  Forall (λ st, graph_ok (graph_ (so_data st))) states →
  ∃ p0 p, MLUPlugin_new mu = Ok p0 ∧ mlu_updates states p0 = Ok p ∧ mlu_ok p ∧
    ∀ a b, cost (so_data (edge_pdistances_ p)) a b = S754_nan.
Proof.
  intros HG. destruct (MLUPlugin_new_Ok (M := M) mu) as (p0 & E0 & O0 & K0). exists p0.
  assert (HU : ∃ p, mlu_updates states p0 = Ok p ∧ mlu_ok p ∧ known p = ([], [], [])).
  { clear E0. revert p0 O0 K0. induction HG as [|st states G _ IH]; intros p0 O0 K0; cbn [mlu_updates]; [eauto|].
    destruct (compute_pdistances_mlu_Ok st G p0 O0) as (code & p1 & -> & O1 & K1 & _). cbn. apply IH; congruence. }
  destruct HU as (p & E & O & K). exists p. split_and!; [done..|]. intros a b. apply cost_outside. injection K as _ _ K.
  cbn. rewrite K. set_solver.
Qed.
End MluClaims.

(** ** An example *)
Definition txt (s : string) : text := String.list_ascii_of_string s.
Definition pidX : PID := MkPID [] 3 true.

(** Three routers inside of the domain and one outside, in a row. *)
Definition chain_edge (i : positive) : NetEdge * eprops :=
  (MkNetEdge i (Pos.succ i) i, MkEProps [] (dlit 1 2) (double_of_int 10)).
Definition demo_graph : NetGraph := MkNetGraph
  [(2%positive, MkVProps false (txt "n0") PID_DEFAULT); (3%positive, MkVProps false (txt "n1") PID_DEFAULT);
   (4%positive, MkVProps false (txt "n2") PID_DEFAULT); (5%positive, MkVProps true (txt "n3") PID_DEFAULT)]
  [chain_edge 2; chain_edge 3; chain_edge 4].
Definition demo_network : NetState (M := counting_mutex) :=
  let s := MkServer demo_lock (MkNetData demo_graph [] []) in
  match refresh_names s with Ok (_, s') => s' | Fault _ => s end.

(** The PIDs of the view: the first two routers, the third, and the one outside. *)
Definition demo_records : list PIDRecord :=
  [MkPIDRecord (txt "p1") pidA [txt "n0"; txt "n1"]; MkPIDRecord (txt "p2") pidB [txt "n2"];
   MkPIDRecord (txt "p3") (MkPID [] 3 false) [txt "n3"]].
Definition demo_routing : PIDRouting counting_mutex :=
  MkServer demo_lock (MkRouting (double_of_int 1) RM_WEIGHTS [] [] demo_matrix).
Definition demo_mlu : MLUPlugin counting_mutex := MkMLU (double_of_int 1) dzero demo_matrix demo_matrix (PIDMatrix_new 0).
Definition demo_view : View counting_mutex (MLUPlugin counting_mutex) :=
  MkView demo_lock (Some demo_mlu) 60 ENA_REMOVE dzero (double_of_int 100) (double_of_int 5) (double_of_int 3) true
    (MkServer demo_lock (MkAggregation demo_records [])) demo_routing (PIDMatrix_new 0) (PIDMatrix_new 0) (PIDMatrix_new 0).

(** Breadth-first search, which is a shortest-path tree of the row of PIDs. *)
Definition reach (src : NetVertex) (preds : gmap NetVertex NetVertex) (e : NetEdge) : gmap NetVertex NetVertex :=
  if decide ((e_src e = src ∨ preds !! e_src e ≠ Some (e_src e)) ∧ e_dst e ≠ src ∧ preds !! e_dst e = Some (e_dst e))
  then <[e_dst e := e_src e]> preds else preds.
Definition bfs (g : NetGraph) (src : NetVertex) : gmap NetVertex NetVertex :=
  Nat.iter (length (vertices g)) (λ m, fold_left (reach src) (edges g) m) (list_to_map ((λ v, (v, v)) <$> vertices g)).
Definition demo_dijkstra (g : NetGraph) (src : NetVertex) (_ : gmap NetVertex nat) (_ : gmap positive double)
  : outcome (gmap NetVertex NetVertex) := Ok (bfs g src).

Definition demo_topology : PidSets * PinnedPIDSet * NetState (M := counting_mutex) := Eval vm_compute in
  match topology next_addr id demo_view demo_network with
  | Ok (Some r) => r
  | _ => (MkPidSets [] [] [] [], [], demo_network)
  end.
Definition demo_pids_graph : NetState (M := counting_mutex) := demo_topology.2.

Lemma demo_topology_eq : topology next_addr id demo_view demo_network = Ok (Some demo_topology).
Proof. by vm_compute. Qed.

Notation demo_g := (graph_ (so_data demo_pids_graph)).
Lemma demo_vertices : vertices demo_g = [4; 5; 6]%positive.
Proof. by vm_compute. Qed.
Lemma demo_edges : edges demo_g = [MkNetEdge 4 5 4; MkNetEdge 6 4 5]%positive.
Proof. by vm_compute. Qed.

(** All the paths of a network of three vertices in a row. *)
Definition row_paths : list (NetVertex * NetVertex * list NetVertex) :=
  [(6, 6, [6]); (6, 4, [6; 4]); (6, 5, [6; 4; 5]); (4, 4, [4]); (4, 5, [4; 5]); (5, 5, [5])]%positive.

Ltac in_cases H := rewrite list_elem_of_In in H; cbn in H; repeat destruct H as [H|H]; try done; simplify_eq.

Section row.
Context (g : NetGraph) (w : NetEdge → double) (preds : NetVertex → gmap NetVertex NetVertex).
Hypothesis HV : vertices g = [4; 5; 6]%positive.
Hypothesis HE : edges g = [MkNetEdge 4 5 4; MkNetEdge 6 4 5]%positive.
Hypothesis HP : ∀ src v, src ∈ [4; 5; 6]%positive → v ∈ [4; 5; 6]%positive →
  preds src !! v = Some (if decide (v = 4 ∧ src = 6)%positive then 6
                         else if decide (v = 5 ∧ src ≠ 5)%positive then 4 else v)%positive.
Hypothesis HW : ∀ r, r ∈ row_paths → isnan (path_weight g w r.2) = false.

Lemma row_path_in src v p : path g src v p → (src, v, p) ∈ row_paths.
Proof.
  induction 1 as [Hs|u v p e _ IH He Hu Hv].
  - rewrite HV in Hs. in_cases Hs; apply (bool_decide_unpack _); by vm_compute.
  - rewrite HE in He. in_cases IH; in_cases He; apply (bool_decide_unpack _); by vm_compute.
Qed.

Lemma row_step i u p : edges g !! i = Some u → ∀ src, path g src (e_src u) p → path g src (e_dst u) (p ++ [e_dst u]).
Proof. intros Hi src Hp. eapply path_snoc; [exact Hp|by eapply list_elem_of_lookup_2|done..]. Qed.

Lemma row_path_out src v p : (src, v, p) ∈ row_paths → path g src v p.
Proof.
  assert (H0 : ∀ u, u ∈ [4; 5; 6]%positive → path g u u [u]) by (intros u; rewrite <- HV; apply path_nil).
  assert (E1 : edges g !! 0 = Some (MkNetEdge 4 5 4)%positive) by by rewrite HE.
  assert (E2 : edges g !! 1 = Some (MkNetEdge 6 4 5)%positive) by by rewrite HE.
  assert (H4 : (path g 6 4 [6; 4])%positive) by (apply (row_step 1 _ [6%positive] E2), H0; set_solver).
  intros Hp. in_cases Hp; try (apply H0; set_solver).
  - done.
  - exact (row_step 0 _ [6; 4]%positive E1 _ H4).
  - apply (row_step 0 _ [4%positive] E1), H0. set_solver.
Qed.

Lemma row_unique src v p q : (src, v, p) ∈ row_paths → path g src v q → dle (path_weight g w p) (path_weight g w q) = true.
Proof.
  intros Hp Hq%row_path_in. assert (q = p) as -> by (in_cases Hp; in_cases Hq; done). apply dle_refl. exact (HW (src, v, p) Hp).
Qed.

Lemma row_tree v : v ∈ vertices g → shortest_path_tree g w v (preds v).
Proof.
  intros Hv. rewrite HV in Hv. assert (T6 : (tree_path (preds 6) 6 4 ([6] ++ [4]))%positive).
  { eapply tp_step; [done|by rewrite HP by set_solver|constructor]. }
  assert (HR : ∀ u l, (v, u, l) ∈ row_paths → tree_path (preds v) v u l →
    ∃ p, tree_path (preds v) v u p ∧ path g v u p ∧ ∀ q, path g v u q → dle (path_weight g w p) (path_weight g w q) = true).
  { intros u l Hl Ht. exists l. split_and!; [done|by apply row_path_out|]. intros q. by apply (row_unique v u). }
  split.
  - intros u Hu. rewrite HV in Hu. rewrite HP by done. eauto.
  - rewrite HP by done. in_cases Hv; done.
  - intros u p Hne Hp Hq%row_path_in. rewrite HP in Hp by (in_cases Hq; set_solver). in_cases Hq; done.
  - intros u x Hu Hp Hne. rewrite HV in Hu. rewrite HP in Hp by done.
    in_cases Hv; in_cases Hu; vm_compute in Hne; try done.
    + apply (HR _ [4; 5]%positive); [set_solver|].
      eapply (tp_step _ _ _ _ [4%positive]); [done|by rewrite HP by set_solver|constructor].
    + apply (HR _ [6; 4]%positive); [set_solver|exact T6].
    + apply (HR _ [6; 4; 5]%positive); [set_solver|].
      eapply (tp_step _ _ _ _ [6; 4]%positive); [done|by rewrite HP by set_solver|exact T6].
Qed.
End row.

Lemma demo_contract v : v ∈ vertices demo_g → dijkstra_contract demo_dijkstra (intradomain_routing demo_view) demo_pids_graph v.
Proof.
  intros Hv ws _. exists (bfs demo_g v). split; [reflexivity|].
  apply (row_tree _ _ (bfs demo_g) demo_vertices demo_edges); [| |done].
  - intros src u Hs Hu. in_cases Hs; in_cases Hu; by vm_compute.
  - apply Forall_forall, (bool_decide_unpack _). by vm_compute.
Qed.

(** The network and the view satisfy the hypotheses of an update. *)
Lemma demo_network_ok : net_ok (so_data demo_network).
Proof.
  destruct (refresh_names_Ok next_addr next_addr_fresh (MkServer demo_lock (MkNetData demo_graph [] []))) as (s' & E & _ & _ & _ & N).
  - done.
  - split; [apply (bool_decide_unpack _); by vm_compute..|]. apply Forall_forall, (bool_decide_unpack _). by vm_compute.
  - apply (bool_decide_unpack _). by vm_compute.
  - unfold demo_network. by rewrite E.
Qed.

Lemma demo_records_eq : get_pid_map (aggregation demo_view) = demo_records.
Proof. by vm_compute. Qed.
Lemma demo_rec_pids : rec_pid demo_network <$> demo_records = [pidA; pidB; pidX].
Proof. by vm_compute. Qed.

Lemma demo_view_ok : view_ok demo_network (get_pid_map (aggregation demo_view)).
Proof.
  rewrite demo_records_eq. split; rewrite ?demo_rec_pids.
  - apply (bool_decide_unpack _). by vm_compute.
  - apply (bool_decide_unpack _). by vm_compute.
  - intros r Hr. in_cases Hr.
    + exists (txt "n0"). split; [left|eexists; by vm_compute].
    + exists (txt "n2"). split; [left|eexists; by vm_compute].
    + exists (txt "n3"). split; [left|eexists; by vm_compute].
  - intros i j r1 r2 n H1 H2 N1 N2.
    destruct i as [|[|[|i]]], j as [|[|[|j]]]; try done; cbn in H1, H2; simplify_eq; in_cases N1; in_cases N2.
  - apply Forall_forall, (bool_decide_unpack _). by vm_compute.
  - intros n Hn. in_cases Hn.
  - by vm_compute.
Qed.

Lemma demo_routing_locked mode : routing_locked (MkServer demo_lock (MkRouting (double_of_int 1) mode [] [] demo_matrix)).
Proof. split; [|done]. split; cbn; [constructor..|set_solver|set_solver|apply demo_matrix_locked]. Qed.

Lemma demo_mlu_ok : mlu_ok demo_mlu.
Proof. split; [apply demo_matrix_locked..| |done|done]. split; [done|constructor|done|done]. Qed.

Lemma demo_weights_view : weights_view demo_view.
Proof.
  split; [done|apply (proj1 (demo_routing_locked RM_WEIGHTS))|done| |done|].
  - split; [done|constructor|done|done].
  - intros p [= <-]. apply demo_mlu_ok.
Qed.

Lemma Ok_Some_inj {A} (x y : A) : Ok (Some x) = Ok (Some y) → x = y.
Proof. by intros [=]. Qed.

Lemma demo_pids_graph_ok : graph_ok demo_g.
Proof.
  destruct (topology_net_Ok next_addr next_addr_fresh id (λ _, reflexivity _) demo_view demo_network demo_network_ok demo_view_ok)
    as (f & cp & ps & pids' & s3 & cls & E & _ & T). rewrite demo_topology_eq in E. apply Ok_Some_inj in E.
  pose proof (f_equal snd E) as E2. cbn [snd] in E2. unfold demo_pids_graph. rewrite E2. apply (pt_locked _ _ _ _ _ _ T).
Qed.

Lemma static_routes_refine_witness :
  ∃ s', run_ops (M := counting_mutex) next_addr [AddRoute [pidA; pidB]; AddRoute [pidA]; RemoveRoute [pidA; pidB]; ClearRoutes]
          (MkServer demo_lock (MkRouting (double_of_int 1) RM_STATIC [] [] demo_matrix)) = Ok ([true; false; true; true], s') ∧
        routes_of (so_data s') ≡ₚ [].
Proof.
  destruct (static_routes_refine next_addr [AddRoute [pidA; pidB]; AddRoute [pidA]; RemoveRoute [pidA; pidB]; ClearRoutes]
    _ next_addr_fresh (demo_routing_locked RM_STATIC)) as (s' & E & _ & _ & R & _).
  exists s'. split; [exact E|exact R].
Defined.

(** A view with one static route, from the second PID to the first. *)
Definition demo_static (route : NamedRoute) : PIDRouting counting_mutex :=
  MkServer demo_lock (MkRouting (double_of_int 1) RM_STATIC [(2%positive, ((pidB, pidA), route))] [] demo_matrix).
Definition demo_static_view (r : PIDRouting counting_mutex) : View counting_mutex (MLUPlugin counting_mutex) :=
  MkView demo_lock None 60 ENA_REMOVE dzero dzero dzero dzero true
    (MkServer demo_lock (MkAggregation [] [])) r (PIDMatrix_new 0) (PIDMatrix_new 0) (PIDMatrix_new 0).
Definition demo_pins : PinnedPIDSet := demo_topology.1.2.

Lemma demo_pins_eq : demo_pins = [PinnedPID_vertex pidA 6%positive; PinnedPID_vertex pidB 4%positive; PinnedPID_vertex pidX 5%positive].
Proof. by vm_compute. Qed.
Lemma demo_pins_ok : NoDup (pp_pid <$> demo_pins) ∧ ∀ p, p ∈ demo_pins → ∃ v, v_set_ p = [v].
Proof.
  rewrite demo_pins_eq. split; [apply (bool_decide_unpack _); by vm_compute|]. intros p Hp. in_cases Hp; eauto.
Qed.

(** The only edge between the two PIDs leads from the first to the second, and the route
    against it is accepted. *)
Lemma static_check_reads_reversed_edges_witness :
  edge 4%positive 6%positive demo_g = None ∧
  verify_static_routing (demo_static_view (demo_static [pidB; pidA])) demo_pins demo_pids_graph = Ok (true, demo_pids_graph).
Proof.
  split; [by vm_compute|].
  destruct (static_check_reads_reversed_edges (demo_static_view (demo_static [pidB; pidA])) demo_pins demo_pids_graph
    (proj1 demo_pins_ok) (proj2 demo_pins_ok)) as (b & -> & HB). replace b with true; [done|]. symmetry. apply HB.
  intros route Hr. in_cases Hr. rewrite demo_pins_eq.
  split; [apply Forall_forall, (bool_decide_unpack _); by vm_compute|].
  intros i prev cur vp vc H1 H2 P1 P2. destruct i as [|[|i]]; try done. cbn in H1, H2. simplify_eq.
  in_cases P1; in_cases P2; eexists; by vm_compute.
Defined.

Lemma removed_pid_keeps_static_routes_witness :
  ∃ s', routing_remove_pid [] pidA (demo_static [pidB; pidA]) = Ok (tt, s') ∧ routes_of (so_data s') = [[pidB; pidA]] ∧
    verify_static_routing (demo_static_view s') [PinnedPID_vertex pidB 4%positive] demo_pids_graph = Ok (false, demo_pids_graph).
Proof.
  destruct (removed_pid_keeps_static_routes (P := MLUPlugin counting_mutex) next_addr (demo_static [pidB; pidA]) pidA [pidB; pidA] next_addr_fresh)
    as (s' & E & _ & R & _ & HV).
  - split; [|done]. split; cbn.
    + apply NoDup_singleton.
    + repeat constructor.
    + intros n Hn. in_cases Hn. split_and!; cbn; [lia|done..].
    + set_solver.
    + apply demo_matrix_locked.
  - done.
  - cbn. set_solver.
  - set_solver.
  - exists s'. split; [done|]. split; [done|]. apply HV; [done|apply NoDup_singleton| |cbn; set_solver].
    intros p Hp. in_cases Hp. eauto.
Defined.

Lemma weighted_routes_are_shortest_witness :
  ∃ c, get_routes id demo_dijkstra demo_routing (PinnedPID_vertex pidA 6%positive) demo_pids_graph demo_pins context_new = Ok (true, c).
Proof.
  destruct (weighted_routes_are_shortest id demo_dijkstra demo_routing demo_pids_graph demo_pins (PinnedPID_vertex pidA 6%positive) 6%positive)
    as (c & E & _).
  - done.
  - apply (demo_routing_locked RM_WEIGHTS).
  - done.
  - apply demo_pids_graph_ok.
  - apply demo_pins_ok.
  - rewrite demo_pins_eq. repeat constructor; (eexists; split; [reflexivity|]; rewrite demo_vertices; set_solver).
  - done.
  - apply demo_contract. rewrite demo_vertices. set_solver.
  - exists c. exact E.
Defined.

Lemma view_topology_is_quotient_witness :
  ∃ ps pids' s3, topology next_addr id demo_view demo_network = Ok (Some (ps, pids', s3)) ∧ NoDup (pp_pid <$> pids').
Proof.
  destruct (view_topology_is_quotient next_addr id demo_view demo_network next_addr_fresh (λ _, reflexivity _)
    demo_network_ok demo_view_ok) as (f & cp & ps & pids' & s3 & cls & E & _ & T).
  exists ps, pids', s3. split; [exact E|exact (pt_nodup _ _ _ _ _ _ T)].
Defined.

(** The pDistance between the two PIDs inside is that of a link, three; to the one outside
    it is that of the border link, five, with three for the way to it. *)
Lemma view_update_costs_shortest_routes_witness :
  ∃ view', do_update next_addr id demo_dijkstra demo_network demo_view = Ok (60%Z, view') ∧
    matrix_ok (so_data (intradomain_pdistances view')) ∧
    pidX ∈ pids_of (pids_ (so_data (interdomain_pdistances view'))).
Proof.
  destruct (view_update_costs_shortest_routes next_addr id demo_dijkstra demo_view demo_network
    demo_topology.1.1 demo_topology.1.2 demo_pids_graph next_addr_fresh (λ _, reflexivity _) demo_weights_view
    demo_network_ok demo_view_ok eq_refl) as (view' & E & _ & R).
  - rewrite demo_topology_eq. unfold demo_pids_graph. by destruct demo_topology as [[? ?] ?].
  - exact demo_contract.
  - exists view'. split; [exact E|]. split; [apply R|]. apply R. rewrite demo_records_eq, demo_rec_pids. right. right. left.
Defined.

Lemma demo_update_costs :
  match do_update next_addr id demo_dijkstra demo_network demo_view with
  | Ok (_, v) => cost (so_data (intradomain_pdistances v)) pidA pidB = double_of_int 3 ∧
                 cost (so_data (interdomain_pdistances v)) pidB pidX = double_of_int 5 ∧
                 cost (so_data (interdomain_pdistances v)) pidA pidX = double_of_int 8
  | Fault _ => False
  end.
Proof. by vm_compute. Qed.

Lemma mlu_is_maximum_utilisation_witness :
  ∃ p', compute_pdistances_mlu demo_network demo_mlu = Ok (0%Z, p') ∧ alpha_ p' = dlit 1 20.
Proof.
  destruct (mlu_is_maximum_utilisation demo_network demo_mlu (no_graph _ demo_network_ok) demo_mlu_ok)
    as (code & p' & E & _ & HC & _ & HA).
  assert (code = 0%Z) as ->.
  { apply HC. intros e q Hq. revert e q Hq.
    assert (HF : Forall (λ r, dlt (e_capacity r.2) EPS = false) (g_edges (graph_ (so_data demo_network)))).
    { apply (bool_decide_unpack _). by vm_compute. }
    rewrite Forall_forall in HF. intros e q Hq. exact (HF (e, q) Hq). }
  exists p'. split; [exact E|]. revert E. clear. vm_compute. by intros [= <-].
Defined.

Lemma mlu_never_provides_pdistances_witness :
  ∃ p0 p, MLUPlugin_new (M := counting_mutex) (double_of_int 1) = Ok p0 ∧ mlu_updates [demo_network; demo_network] p0 = Ok p ∧
    cost (so_data (edge_pdistances_ p)) pidA pidB = S754_nan.
Proof.
  destruct (mlu_never_provides_pdistances (M := counting_mutex) (double_of_int 1) [demo_network; demo_network])
    as (p0 & p & E0 & E & _ & HC).
  - do 2 (constructor; [apply (no_graph _ demo_network_ok)|]). constructor.
  - exists p0, p. split; [exact E0|]. split; [exact E|apply HC].
Defined.

(** ** Copies of a routing *)
(** A routing with one static route, in its index. *)
Definition demo_routed : outcome (PIDRouting counting_mutex) :=
  '(_, s) ← run_ops next_addr [AddRoute [pidA; pidB]] (MkServer demo_lock (MkRouting (double_of_int 1) RM_STATIC [] [] demo_matrix));
  mret s.

(** Copying a [PIDRouting] with a static route corrupts the source: [do_copy_properties]
    enters the routes of the copy in the index of the source instead of the copy's.  The
    index of the copy is empty, so that removing a PID from the copy forgets nothing; and
    once the copy is gone, removing a PID of the route from the source follows an iterator
    into the freed map. *)
Theorem routing_copy_corrupts_index :
  ∃ s new s', demo_routed = Ok s ∧ PIDRouting_copy next_addr [] 0 0 s = Ok (new, s') ∧
    static_route_ptrs_ (so_data new) = [] ∧ routes_of (so_data new) = [[pidA; pidB]] ∧
    (∃ s1, routing_remove_pid [] pidA s = Ok (tt, s1)) ∧
    routing_remove_pid [] pidA s' = Fault UB.
Proof.
  destruct demo_routed as [s|] eqn:E; vm_compute in E; [|done]. injection E as <-.
  eexists _, _, _. split; [reflexivity|]. split; [by vm_compute|]. split_and!; [by vm_compute..| |by vm_compute].
  eexists. by vm_compute.
Qed.
