(* ===== verification/JobQueue.v ===== *)
(** * The job queue (common-server's job_queue.h and job_queue.cpp, the portal server's
    view_update_job.cpp)

    Jobs wait in a [std::set] ordered by deadline; the threads of the pool take the first
    job when its deadline is reached.  A job is a type with the operations of [Job]; the
    jobs of the portal server are [ViewUpdateJob]s.

    The queue with its threads is a state machine.  What a thread does under [queue_mutex_]
    is one step: [Ready] is a thread that is about to enter or to repeat the loop of
    [dequeue], [Waiting] one that waits for the condition variable, with or without a
    deadline.  [notify_one] wakes some waiting thread, [notify_all] all of them; a waiting
    thread may also wake up by itself.  The body of [run] is not part of the machine, jobs
    that it enqueues are events of their own.  [join_all] is the condition that every
    thread has ended. *)
From S2P Require Import Prelude StdMap IpAddr.

(** The interface of jobs. *)
Class Job (J : Type) := {
  get_deadline : J → Z;
  job_equals : J → J → bool
}.
(** What the claims about the queue rely on: [equals] is an equivalence.  [Job::equals] of the
    base class returns [false] and is not; [ViewUpdateJob], the only class of jobs, overrides
    it. *)
Class JobLaws (J : Type) `{Job J} : Prop := {
  job_equals_refl j : job_equals j j = true;
  job_equals_sym j k : job_equals j k = job_equals k j;
  job_equals_trans j k l : job_equals j k = true → job_equals k l = true → job_equals j l = true
}.

(** ** View updates *)
Record ViewUpdateJob := MkViewUpdateJob { vj_deadline : Z; vj_name : text; interval_ : Z }.
Definition ViewUpdateJob_new (deadline : Z) (name : text) : ViewUpdateJob := MkViewUpdateJob deadline name 0.
Definition view_job_equals (a b : ViewUpdateJob) : bool := bool_decide (vj_name a = vj_name b).
#[global] Instance ViewUpdateJob_job : Job ViewUpdateJob := { get_deadline := vj_deadline; job_equals := view_job_equals }.
#[global] Instance ViewUpdateJob_laws : JobLaws ViewUpdateJob.
Proof.
  split; unfold job_equals, ViewUpdateJob_job, view_job_equals.
  - intros j. by apply bool_decide_eq_true.
  - intros j k. apply bool_decide_ext. by split.
  - intros j k l H1%bool_decide_eq_true H2%bool_decide_eq_true. apply bool_decide_eq_true. congruence.
Qed.

(** [make_next] at the time [now]. *)
Definition make_next (now : Z) (j : ViewUpdateJob) : option ViewUpdateJob :=
  if decide (interval_ j = 0%Z) then None else Some (ViewUpdateJob_new (now + interval_ j) (vj_name j)).
(** The end of [run]: what [do_update] returned, and the job that [reschedule] enqueues. *)
Definition finish_run (now updated : Z) (j : ViewUpdateJob) : ViewUpdateJob * option ViewUpdateJob :=
  let j' := MkViewUpdateJob (vj_deadline j) (vj_name j) updated in
  (j', if decide (0 < updated)%Z then make_next now j' else None).

Section JobQueue.
Context {J : Type} `{Job J}.

(** [JobPriorityComparator] and the operations of the set that it orders. *)
Definition sooner (j1 j2 : J) : bool := (get_deadline j1 <? get_deadline j2)%Z.
Fixpoint queue_insert (j : J) (q : list J) : list J :=
  match q with
  | [] => [j]
  | k :: q' => if sooner j k then j :: q else if sooner k j then k :: queue_insert j q' else q
  end.

(** The loop of [enqueue] over the queue: a duplicate that comes later is erased, with one
    that does not ([None]) the job is dropped. *)
Fixpoint erase_duplicate (job : J) (q : list J) : option (list J) :=
  match q with
  | [] => Some []
  | j :: q' =>
      if negb (job_equals job j) then match erase_duplicate job q' with Some r => Some (j :: r) | None => None end
      else if sooner job j then Some q' else None
  end.

(** ** Threads *)
Inductive worker := Ready | Waiting (until : option Z) | Running (j : J) | Exited.
Definition is_waiting (w : worker) : bool := match w with Waiting _ => true | _ => false end.

Record JobQueue := MkJobQueue {
  pool_size_ : nat;
  queue_ : list J;
  is_stopping_ : bool;
  threads_ : list worker;
  now : Z
}.
Definition JobQueue_new (pool_size : nat) (t : Z) : JobQueue := MkJobQueue pool_size [] false [] t.
Definition with_queue (q : list J) (s : JobQueue) : JobQueue := MkJobQueue (pool_size_ s) q (is_stopping_ s) (threads_ s) (now s).
Definition with_threads (ws : list worker) (s : JobQueue) : JobQueue := MkJobQueue (pool_size_ s) (queue_ s) (is_stopping_ s) ws (now s).

Definition jobs_start (s : JobQueue) : outcome JobQueue :=
  if decide (0 < length (threads_ s)) then Fault (Throw "Illegal state: JobQueue already started")
  else Ok (with_threads (replicate (pool_size_ s) Ready) s).

(** [notify_one] wakes the thread [who], [notify_all] every waiting thread. *)
Definition wake (w : worker) : worker := if is_waiting w then Ready else w.
Definition notify_one (who : nat) (ws : list worker) : list worker := alter wake who ws.
Definition notify_all (ws : list worker) : list worker := wake <$> ws.

Definition jobs_stop (s : JobQueue) : JobQueue :=
  MkJobQueue (pool_size_ s) (queue_ s) true (notify_all (threads_ s)) (now s).

Definition jobs_enqueue (job : J) (who : nat) (s : JobQueue) : JobQueue :=
  match erase_duplicate job (queue_ s) with
  | None => s
  | Some q => MkJobQueue (pool_size_ s) (queue_insert job q) (is_stopping_ s) (notify_one who (threads_ s)) (now s)
  end.

(** One turn of the loop of [dequeue], up to the next wait or to the end of the function. *)
Definition dequeue_turn (s : JobQueue) : worker * list J :=
  if is_stopping_ s then (Exited, queue_ s)
  else
    match queue_ s with
    | [] => (Waiting None, [])
    | j :: q => if (now s <? get_deadline j)%Z then (Waiting (Some (get_deadline j)), queue_ s) else (Running j, q)
    end.

Definition jobs_length (s : JobQueue) : nat := length (queue_ s).
(** [join] can return. *)
Definition joined (s : JobQueue) : Prop := Forall (λ w, w = Exited) (threads_ s).

(** ** The machine *)
Inductive event :=
  | Turn (i : nat)                  (* a thread goes through the loop of [dequeue] *)
  | Timeout (i : nat)               (* the wait of a thread ends at its deadline *)
  | Wakeup (i : nat)                (* a thread wakes up by itself *)
  | Finish (i : nat)                (* a job ends *)
  | Enqueue (job : J) (who : nat)   (* [enqueue]; [who] is the thread that is notified *)
  | Stop
  | Tick (t : Z).                   (* time passes *)

Definition step (e : event) (s : JobQueue) : option JobQueue :=
  match e with
  | Turn i =>
      match threads_ s !! i with
      | Some Ready => let '(w, q) := dequeue_turn s in Some (with_queue q (with_threads (<[i := w]> (threads_ s)) s))
      | _ => None
      end
  | Timeout i =>
      match threads_ s !! i with
      | Some (Waiting (Some d)) => if (d <=? now s)%Z then Some (with_threads (<[i := Ready]> (threads_ s)) s) else None
      | _ => None
      end
  | Wakeup i =>
      match threads_ s !! i with
      | Some (Waiting _) => Some (with_threads (<[i := Ready]> (threads_ s)) s)
      | _ => None
      end
  | Finish i =>
      match threads_ s !! i with
      | Some (Running _) => Some (with_threads (<[i := Ready]> (threads_ s)) s)
      | _ => None
      end
  | Enqueue job who =>
      (* some waiting thread is notified when there is one *)
      if decide (existsb is_waiting (threads_ s) = true → (is_waiting <$> threads_ s !! who) = Some true)
      then Some (jobs_enqueue job who s) else None
  | Stop => Some (jobs_stop s)
  | Tick t => if (now s <=? t)%Z then Some (MkJobQueue (pool_size_ s) (queue_ s) (is_stopping_ s) (threads_ s) t) else None
  end.

Fixpoint steps (es : list event) (s : JobQueue) : option JobQueue :=
  match es with [] => Some s | e :: es' => match step e s with Some s' => steps es' s' | None => None end end.

Inductive reachable (n : nat) : JobQueue → Prop :=
  | reach_start t s : jobs_start (JobQueue_new n t) = Ok s → reachable n s
  | reach_step e s s' : reachable n s → step e s = Some s' → reachable n s'.
End JobQueue.
Arguments worker J : clear implicits.
Arguments JobQueue J : clear implicits.
Arguments event J : clear implicits.
