(* ===== verification/JobProperties.v ===== *)
(** * Properties of the job queue

    The queue stays ordered and free of duplicates, no job runs before its deadline, no
    wake-up is lost, and [stop] ends every thread. *)
From S2P Require Import Prelude StdMap IpAddr JobQueue.

Section spec.
Context {J : Type} `{JobLaws J}.
Implicit Types (s : JobQueue J) (q : list J).

(** ** The queue *)
Definition by_deadline q : Prop := StronglySorted (λ j k, sooner j k = true) q.
Definition no_duplicates q : Prop := ∀ i k a b, q !! i = Some a → q !! k = Some b → job_equals a b = true → i = k.

Lemma no_duplicates_cons j q : no_duplicates (j :: q) ↔ (∀ k, k ∈ q → job_equals j k = false) ∧ no_duplicates q.
Proof.
  split.
  - intros HD. split.
    + intros k [i Hi]%list_elem_of_lookup. destruct (job_equals j k) eqn:E; [|done]. by specialize (HD 0 (S i) j k eq_refl Hi E).
    + intros i k a b Ha Hb E. by injection (HD (S i) (S k) a b Ha Hb E).
  - intros [H1 H2] [|i] [|k] a b Ha Hb E; cbn in Ha, Hb.
    + done.
    + injection Ha as ->. apply list_elem_of_lookup_2, H1 in Hb. congruence.
    + injection Hb as ->. apply list_elem_of_lookup_2, H1 in Ha. rewrite job_equals_sym in E. congruence.
    + f_equal. by eapply H2.
Qed.

Lemma erase_duplicate_Some job q r : erase_duplicate job q = Some r → no_duplicates q → by_deadline q →
  no_duplicates r ∧ by_deadline r ∧ (∀ k, k ∈ r → k ∈ q ∧ job_equals job k = false) ∧
  (∀ k, k ∈ q → k ∈ r ∨ (job_equals job k = true ∧ sooner job k = true)).
Proof.
  revert r. induction q as [|j q IH]; intros r; cbn [erase_duplicate].
  { intros [= <-] _ _. split_and!; [done|constructor|set_solver|set_solver]. }
  rewrite no_duplicates_cons. intros E [D1 D2] HS. apply StronglySorted_inv in HS as [S1 S2].
  destruct (job_equals job j) eqn:Ej; cbn [negb] in E.
  - destruct (sooner job j) eqn:Es; [|done]. injection E as <-. split_and!; [done..| |].
    + intros k Hk. split; [by right|]. destruct (job_equals job k) eqn:Ek; [|done].
      rewrite <- (D1 k Hk). symmetry. apply (job_equals_trans _ job); [by rewrite job_equals_sym|done].
    + intros k [->|Hk]%elem_of_cons; auto.
  - destruct (erase_duplicate job q) as [r'|] eqn:E'; [|done]. injection E as <-.
    destruct (IH r' eq_refl D2 S1) as (R1 & R2 & R3 & R4). split_and!.
    + apply no_duplicates_cons. split; [|done]. intros k Hk. by apply D1, R3.
    + constructor; [done|]. rewrite Forall_forall in *. intros k Hk. by apply S2, R3.
    + intros k [->|Hk]%elem_of_cons; [split; [left|done]|]. destruct (R3 k Hk). split; [by right|done].
    + intros k [->|Hk]%elem_of_cons; [left; left|]. destruct (R4 k Hk); [left; by right|auto].
Qed.

Lemma queue_insert_elem job q k : k ∈ queue_insert job q → k = job ∨ k ∈ q.
Proof.
  induction q as [|j q IH]; cbn [queue_insert]; [set_solver|]. destruct (sooner job j); [set_solver|].
  destruct (sooner j job); set_solver.
Qed.

Lemma queue_insert_kept job q k : k ∈ q → k ∈ queue_insert job q.
Proof.
  induction q as [|j q IH]; cbn [queue_insert]; [set_solver|]. destruct (sooner job j); [set_solver|].
  destruct (sooner j job); set_solver.
Qed.

Lemma queue_insert_sorted job q : by_deadline q → by_deadline (queue_insert job q).
Proof.
  induction 1 as [|j q HS IH HF]; cbn [queue_insert]; [repeat constructor|].
  unfold sooner in *. destruct (Z.ltb_spec (get_deadline job) (get_deadline j)) as [L|L].
  - constructor; [by constructor|]. constructor; [by apply Z.ltb_lt|]. eapply Forall_impl; [exact HF|].
    intros k Hk%Z.ltb_lt. apply Z.ltb_lt. lia.
  - destruct (Z.ltb_spec (get_deadline j) (get_deadline job)) as [L'|L']; [|by constructor].
    constructor; [done|]. rewrite Forall_forall in *. intros k [->|Hk]%queue_insert_elem; [by apply Z.ltb_lt|by apply HF].
Qed.

Lemma queue_insert_nodup job q : (∀ k, k ∈ q → job_equals job k = false) → no_duplicates q → no_duplicates (queue_insert job q).
Proof.
  induction q as [|j q IH]; cbn [queue_insert]; intros HJ HD.
  { apply no_duplicates_cons. split; [set_solver|done]. }
  destruct (sooner job j); [by apply no_duplicates_cons|]. destruct (sooner j job); [|done].
  apply no_duplicates_cons in HD as [D1 D2]. apply no_duplicates_cons. split.
  - intros k [->|Hk]%queue_insert_elem; [|auto]. rewrite job_equals_sym. apply HJ. left.
  - apply IH; [|done]. intros k Hk. apply HJ. by right.
Qed.

(** ** The invariant *)
(** A thread that will look at the queue no later than at the time [d]. *)
Definition attends (d : Z) (w : worker J) : Prop :=
  match w with Ready | Running _ => True | Waiting (Some d') => (d' ≤ d)%Z | Waiting None | Exited => False end.

Record jobs_ok n s : Prop := {
  jo_sorted : by_deadline (queue_ s);
  jo_nodup : no_duplicates (queue_ s);
  jo_threads : length (threads_ s) = n;
  jo_due i j : threads_ s !! i = Some (Running j) → (get_deadline j ≤ now s)%Z;
  jo_exit i : threads_ s !! i = Some Exited → is_stopping_ s = true;
  jo_stop i u : is_stopping_ s = true → threads_ s !! i ≠ Some (Waiting u);
  jo_attended j q : is_stopping_ s = false → queue_ s = j :: q → n ≠ 0 →
    ∃ i w, threads_ s !! i = Some w ∧ attends (get_deadline j) w
}.

(** Changing one thread. *)
Lemma set_thread_ok n s i w0 w q : jobs_ok n s → threads_ s !! i = Some w0 → by_deadline q → no_duplicates q →
  (∀ j, w = Running j → (get_deadline j ≤ now s)%Z) → (w = Exited → is_stopping_ s = true) →
  (is_stopping_ s = true → is_waiting w = false) →
  (∀ j q', is_stopping_ s = false → q = j :: q' → attends (get_deadline j) w) →
  jobs_ok n (with_queue q (with_threads (<[i := w]> (threads_ s)) s)).
Proof.
  intros [O1 O2 O3 O4 O5 O6 O7] Hi HS HD H1 H2 H3 H4. assert (Hl : i < length (threads_ s)) by by eapply lookup_lt_Some.
  split; cbn; [done..|by rewrite length_insert| | | |].
  - intros k j [[-> [-> _]]|[_ Hk]]%list_lookup_insert_Some; eauto.
  - intros k [[-> [-> _]]|[_ Hk]]%list_lookup_insert_Some; eauto.
  - intros k u Hst [[-> [Ew _]]|[_ Hk]]%list_lookup_insert_Some; [rewrite Ew in H3; by apply H3 in Hst|by eapply O6].
  - intros j q' Hst Eq Hn. exists i, w. split; [by apply list_lookup_insert_eq|]. eauto.
Qed.

Lemma turn_ok n s i : jobs_ok n s → threads_ s !! i = Some Ready →
  jobs_ok n (with_queue (dequeue_turn s).2 (with_threads (<[i := (dequeue_turn s).1]> (threads_ s)) s)).
Proof.
  intros O Hi. unfold dequeue_turn. destruct (is_stopping_ s) eqn:Es; cbn [fst snd].
  { eapply set_thread_ok; [done..|apply O|apply O|done|done|done|]. intros j q'. congruence. }
  destruct (queue_ s) as [|j q] eqn:Eq; cbn [fst snd].
  { eapply set_thread_ok; [done..|constructor|done|done|done|congruence|done]. }
  destruct (Z.ltb_spec (now s) (get_deadline j)); cbn [fst snd].
  - eapply set_thread_ok; [done..|rewrite <- Eq; apply O|rewrite <- Eq; apply O|done|done|congruence|].
    intros j' q' _ [= <- _]. cbn. lia.
  - pose proof (jo_sorted _ _ O) as HS. pose proof (jo_nodup _ _ O) as HD. rewrite Eq in HS, HD.
    apply StronglySorted_inv in HS as [HS _]. apply no_duplicates_cons in HD as [_ HD].
    eapply set_thread_ok; [done..| |done|done|done]. by intros k [= ->].
Qed.

Lemma ready_ok n s i w0 : jobs_ok n s → threads_ s !! i = Some w0 → jobs_ok n (with_threads (<[i := Ready]> (threads_ s)) s).
Proof.
  intros O Hi. assert (E : with_threads (<[i := Ready]> (threads_ s)) s = with_queue (queue_ s) (with_threads (<[i := Ready]> (threads_ s)) s)) by done.
  rewrite E. eapply set_thread_ok; [done..|apply O|apply O|done|done|done|done].
Qed.

Lemma enqueue_ok n s job who : jobs_ok n s →
  (existsb is_waiting (threads_ s) = true → is_waiting <$> threads_ s !! who = Some true) → jobs_ok n (jobs_enqueue job who s).
Proof.
  intros [O1 O2 O3 O4 O5 O6 O7] HW. unfold jobs_enqueue. destruct (erase_duplicate job (queue_ s)) as [r|] eqn:E; [|by split].
  destruct (erase_duplicate_Some job _ r E O2 O1) as (R1 & R2 & R3 & _).
  assert (HA : ∀ k w, notify_one who (threads_ s) !! k = Some w → threads_ s !! k = Some w ∨ w = Ready).
  { intros k w Hk. unfold notify_one in Hk. destruct (decide (k = who)) as [->|Hne].
    - rewrite list_lookup_alter_eq in Hk. apply fmap_Some in Hk as (w0 & -> & ->). unfold wake. destruct w0; auto.
    - rewrite list_lookup_alter_ne in Hk by done. auto. }
  split; cbn.
  - by apply queue_insert_sorted.
  - apply queue_insert_nodup; [|done]. intros k Hk. by apply R3.
  - unfold notify_one. by rewrite length_alter.
  - intros i j [Hi|?]%HA; [eauto|done].
  - intros i [Hi|?]%HA; [eauto|done].
  - intros i u Hst [Hi|?]%HA; [by eapply O6|done].
  - intros j q Hst _ Hn. destruct (existsb is_waiting (threads_ s)) eqn:Ew.
    + destruct (threads_ s !! who) as [w|] eqn:Ewho; [|by specialize (HW eq_refl)]. exists who, Ready. split; [|done].
      unfold notify_one. rewrite list_lookup_alter_eq, Ewho. cbn. unfold wake. specialize (HW eq_refl). injection HW as ->. done.
    + destruct (lookup_lt_is_Some_2 (threads_ s) 0) as [w Hw]; [lia|].
      assert (Hnw : is_waiting w = false).
      { destruct (is_waiting w) eqn:E1; [|done]. rewrite <- Ew. symmetry. apply existsb_exists. exists w. split; [|done].
        apply list_elem_of_In. by eapply list_elem_of_lookup_2. }
      exists 0, w. split.
      * unfold notify_one. destruct (decide (who = 0)) as [->|Hne].
        -- rewrite list_lookup_alter_eq, Hw. cbn. unfold wake. by rewrite Hnw.
        -- by rewrite list_lookup_alter_ne.
      * destruct w; try done. apply O5 in Hw. congruence.
Qed.

Lemma stop_ok n s : jobs_ok n s → jobs_ok n (jobs_stop s).
Proof.
  intros [O1 O2 O3 O4 O5 O6 O7]. split; cbn; [done..| | | | |done].
  - unfold notify_all. by rewrite length_fmap.
  - intros i j. unfold notify_all. rewrite list_lookup_fmap. intros (w & Hw & Ew)%fmap_Some. destruct w; try done.
    injection Ew as ->. eauto.
  - done.
  - intros i u _. unfold notify_all. rewrite list_lookup_fmap. intros (w & Hw & Ew)%fmap_Some. by destruct w.
Qed.

Lemma step_ok n s e s' : jobs_ok n s → step e s = Some s' → jobs_ok n s'.
Proof.
  intros O. destruct e as [i|i|i|i|job who| |t]; cbn [step].
  - destruct (threads_ s !! i) as [[]|] eqn:Hi; try done. pose proof (turn_ok n s i O Hi) as X.
    destruct (dequeue_turn s) as [w q]. by intros [= <-].
  - destruct (threads_ s !! i) as [[|[d|]| |]|] eqn:Hi; try done. destruct (d <=? now s)%Z; [|done]. intros [= <-]. by eapply ready_ok.
  - destruct (threads_ s !! i) as [[]|] eqn:Hi; try done. intros [= <-]. by eapply ready_ok.
  - destruct (threads_ s !! i) as [[]|] eqn:Hi; try done. intros [= <-]. by eapply ready_ok.
  - case_decide as HW; [|done]. intros [= <-]. by apply enqueue_ok.
  - intros [= <-]. by apply stop_ok.
  - destruct (Z.leb_spec (now s) t); [|done]. intros [= <-]. destruct O as [O1 O2 O3 O4 O5 O6 O7]. split; cbn; try done.
    intros i j Hi%O4. lia.
Qed.

Lemma reachable_ok n s : reachable n s → jobs_ok n s.
Proof.
  induction 1 as [t s E|e s s' _ IH E]; [|by eapply step_ok]. unfold jobs_start in E. rewrite decide_False in E by (cbn; lia).
  injection E as <-. assert (HR : ∀ i w, replicate n (@Ready J) !! i = Some w → w = Ready) by (intros i w [-> _]%lookup_replicate; done).
  split; cbn; [constructor|done|apply length_replicate|..].
  - by intros i j ?%HR.
  - by intros i ?%HR.
  - done.
  - done.
Qed.
End spec.

(** ** Progress *)
Section progress.
Context {J : Type} `{JobLaws J}.
Implicit Types (s : JobQueue J).

(** The events that happen without a caller and without a thread that wakes up by itself. *)
Definition forced (e : event J) : bool := match e with Turn _ | Timeout _ | Finish _ | Tick _ => true | _ => false end.

Lemma steps_app es1 es2 s s1 : steps es1 s = Some s1 → steps (es1 ++ es2) s = steps es2 s1.
Proof.
  revert s. induction es1 as [|e es1 IH]; intros s; cbn; [by intros [= <-]|]. destruct (step e s); [|done]. apply IH.
Qed.

(** A thread that is ready takes the first job when it is due. *)
Lemma take_job s i j q : threads_ s !! i = Some Ready → is_stopping_ s = false → queue_ s = j :: q → (get_deadline j ≤ now s)%Z →
  ∃ s', step (Turn i) s = Some s' ∧ threads_ s' !! i = Some (Running j).
Proof.
  intros Hi Hst Eq Hd. cbn [step]. rewrite Hi. unfold dequeue_turn. rewrite Hst, Eq.
  replace (now s <? get_deadline j)%Z with false by (symmetry; apply Z.ltb_ge; lia). eexists. split; [reflexivity|]. cbn.
  apply list_lookup_insert_eq. by eapply lookup_lt_Some.
Qed.

(** A thread that attends the deadline becomes ready in at most one step when it is due. *)
Lemma become_ready s i w d : threads_ s !! i = Some w → attends d w → (d ≤ now s)%Z →
  ∃ es s', length es ≤ 1 ∧ Forall (λ e, forced e = true) es ∧ steps es s = Some s' ∧ threads_ s' !! i = Some Ready ∧
    queue_ s' = queue_ s ∧ is_stopping_ s' = is_stopping_ s ∧ now s' = now s.
Proof.
  intros Hi HA Hd. assert (Hl : i < length (threads_ s)) by by eapply lookup_lt_Some.
  destruct w as [|[d'|]|j|]; cbn in HA; try done.
  - exists [], s. split_and!; [cbn; lia|constructor|done..].
  - exists [Timeout i]. eexists. split_and!; [done|by repeat constructor| |..].
    + cbn [steps step]. rewrite Hi. replace (d' <=? now s)%Z with true by (symmetry; apply Z.leb_le; lia). reflexivity.
    + cbn. by apply list_lookup_insert_eq.
    + done.
    + done.
    + done.
  - exists [Finish i]. eexists. split_and!; [done|by repeat constructor| |..].
    + cbn [steps step]. rewrite Hi. reflexivity.
    + cbn. by apply list_lookup_insert_eq.
    + done.
    + done.
    + done.
Qed.

(** C7. No wake-up is lost: in every reachable state of a started queue with a thread, if a
    job is first in the queue then at most three steps that are not under the control of a
    caller (time passing to the deadline, the end of a wait or of a running job, and a turn
    of that thread) start this job. *)
Theorem first_job_gets_started n s j q : reachable n s → n ≠ 0 → is_stopping_ s = false → queue_ s = j :: q →
  ∃ es s', length es ≤ 3 ∧ Forall (λ e, forced e = true) es ∧ steps es s = Some s' ∧
    ∃ i, threads_ s' !! i = Some (Running j).
Proof.
  intros HR Hn Hst Eq. apply reachable_ok in HR as O. destruct (jo_attended _ _ O j q Hst Eq Hn) as (i & w & Hi & HA).
  set (t := Z.max (now s) (get_deadline j)). set (s1 := MkJobQueue (pool_size_ s) (queue_ s) (is_stopping_ s) (threads_ s) t).
  assert (E1 : step (Tick t) s = Some s1) by (cbn; by replace (now s <=? t)%Z with true by (symmetry; apply Z.leb_le; lia)).
  destruct (become_ready s1 i w (get_deadline j) Hi HA) as (es & s2 & L2 & F2 & E2 & Hi2 & Q2 & St2 & N2); [cbn; lia|].
  destruct (take_job s2 i j q Hi2) as (s3 & E3 & Hi3); [rewrite St2; exact Hst|rewrite Q2; exact Eq|rewrite N2; cbn; lia|].
  exists (Tick t :: es ++ [Turn i]), s3. split_and!.
  - cbn. rewrite length_app. cbn. lia.
  - constructor; [done|]. apply Forall_app. split; [done|by repeat constructor].
  - cbn [steps]. rewrite E1, (steps_app _ _ _ _ E2). cbn [steps]. by rewrite E3.
  - eauto.
Qed.

(** ** Stopping *)
Lemma stopping_step e s s' : is_stopping_ s = true → step e s = Some s' →
  is_stopping_ s' = true ∧ ∀ i j, threads_ s' !! i = Some (Running j) → threads_ s !! i = Some (Running j).
Proof.
  intros Hst. assert (HI : ∀ i w0 w, threads_ s !! i = Some w0 → (∀ j, w ≠ Running j) → ∀ k j,
    <[i := w]> (threads_ s) !! k = Some (Running j) → threads_ s !! k = Some (Running j)).
  { intros i w0 w _ Hw k j [[-> [E _]]|[_ Hk]]%list_lookup_insert_Some; [by destruct (Hw j)|done]. }
  destruct e as [i|i|i|i|job who| |t]; cbn [step].
  - destruct (threads_ s !! i) as [[]|] eqn:Hi; try done. unfold dequeue_turn. rewrite Hst. intros [= <-]. split; [done|]. by eapply HI.
  - destruct (threads_ s !! i) as [[|[d|]| |]|] eqn:Hi; try done. destruct (d <=? now s)%Z; [|done]. intros [= <-]. split; [done|]. by eapply HI.
  - destruct (threads_ s !! i) as [[]|] eqn:Hi; try done. intros [= <-]. split; [done|]. by eapply HI.
  - destruct (threads_ s !! i) as [[]|] eqn:Hi; try done. intros [= <-]. split; [done|]. by eapply HI.
  - case_decide; [|done]. intros [= <-]. unfold jobs_enqueue. destruct (erase_duplicate job (queue_ s)); [|done].
    split; [done|]. intros i j. cbn. unfold notify_one. destruct (decide (i = who)) as [->|Hne].
    + rewrite list_lookup_alter_eq. intros (w & Hw & Ew)%fmap_Some. rewrite Hw. unfold wake in Ew. destruct w; cbn in Ew; congruence.
    + by rewrite list_lookup_alter_ne.
  - intros [= <-]. split; [done|]. intros i j. cbn. unfold notify_all. rewrite list_lookup_fmap.
    intros (w & Hw & Ew)%fmap_Some. rewrite Hw. unfold wake in Ew. destruct w; cbn in Ew; congruence.
  - destruct (now s <=? t)%Z; [|done]. by intros [= <-].
Qed.

(** One thread ends. *)
Lemma thread_exits n s i : jobs_ok n s → is_stopping_ s = true → i < n →
  ∃ es s', length es ≤ 2 ∧ Forall (λ e, forced e = true) es ∧ steps es s = Some s' ∧ jobs_ok n s' ∧ is_stopping_ s' = true ∧
    threads_ s' !! i = Some Exited ∧ ∀ k, k ≠ i → threads_ s' !! k = threads_ s !! k.
Proof.
  intros O Hst Hi. destruct (lookup_lt_is_Some_2 (threads_ s) i) as [w Hw]; [by rewrite (jo_threads _ _ O)|].
  assert (HT : ∀ s0, jobs_ok n s0 → is_stopping_ s0 = true → threads_ s0 !! i = Some Ready →
    ∃ s', step (Turn i) s0 = Some s' ∧ jobs_ok n s' ∧ is_stopping_ s' = true ∧ threads_ s' !! i = Some Exited ∧
      ∀ k, k ≠ i → threads_ s' !! k = threads_ s0 !! k).
  { intros s0 O0 St0 R0. destruct (step (Turn i) s0) as [s'|] eqn:E.
    - exists s'. split; [done|]. split; [by eapply step_ok|]. cbn in E. rewrite R0 in E. unfold dequeue_turn in E. rewrite St0 in E.
      injection E as <-. cbn. split_and!; [done|apply list_lookup_insert_eq; by eapply lookup_lt_Some|].
      intros k Hk. by rewrite list_lookup_insert_ne.
    - cbn in E. rewrite R0 in E. by destruct (dequeue_turn s0). }
  destruct w as [|u|j|].
  - destruct (HT s O Hst Hw) as (s' & E & O' & Rest). exists [Turn i], s'. split_and!; try apply Rest; try done; [cbn; lia|by repeat constructor|].
    cbn [steps]. by rewrite E.
  - by destruct (jo_stop _ _ O i u Hst).
  - set (s1 := with_threads (<[i := Ready]> (threads_ s)) s).
    assert (E1 : step (Finish i) s = Some s1) by (cbn; by rewrite Hw).
    destruct (HT s1) as (s' & E & O' & St & X & K); [by eapply step_ok|done|cbn; apply list_lookup_insert_eq; by eapply lookup_lt_Some|].
    exists [Finish i; Turn i], s'. split_and!; try done; [by repeat constructor|cbn [steps]; by rewrite E1, E|].
    intros k Hk. rewrite K by done. cbn. by rewrite list_lookup_insert_ne.
  - exists [], s. split_and!; try done; [cbn; lia].
Qed.

(** C8. After [stop] every thread ends and no job is started: whatever happens afterwards, a
    job that runs was running when the queue was stopped, and once these jobs have ended
    every thread leaves [dequeue] within two steps, so that [join] returns. *)
Theorem stop_ends_all_threads n s : reachable n s → is_stopping_ s = true →
  (∀ es s', steps es s = Some s' → ∀ i j, threads_ s' !! i = Some (Running j) → threads_ s !! i = Some (Running j)) ∧
  ∃ es s', length es ≤ 2 * n ∧ Forall (λ e, forced e = true) es ∧ steps es s = Some s' ∧ joined s'.
Proof.
  intros HR Hst. split.
  { intros es. revert s HR Hst. induction es as [|e es IH]; intros s HR Hst s'; cbn [steps]; [by intros [= <-]|].
    destruct (step e s) as [s1|] eqn:E; [|done]. intros Es i j Hi. destruct (stopping_step e s s1 Hst E) as [St1 R1].
    apply R1. exact (IH s1 (reach_step _ _ _ _ HR E) St1 s' Es i j Hi). }
  apply reachable_ok in HR as O.
  assert (HG : ∀ m, m ≤ n → ∃ es s', length es ≤ 2 * m ∧ Forall (λ e, forced e = true) es ∧ steps es s = Some s' ∧ jobs_ok n s' ∧
    is_stopping_ s' = true ∧ ∀ i, i < m → threads_ s' !! i = Some Exited).
  { induction m as [|m IH]; intros Hm; [exists [], s; split_and!; try done; lia|].
    destruct IH as (es & s1 & L1 & F1 & E1 & O1 & St1 & X1); [lia|].
    destruct (thread_exits n s1 m O1 St1) as (es2 & s2 & L2 & F2 & E2 & O2 & St2 & X2 & K2); [lia|].
    exists (es ++ es2), s2. split_and!; [rewrite length_app; lia|by apply Forall_app|by rewrite (steps_app _ _ _ _ E1)|done..|].
    intros i Hi. destruct (decide (i = m)) as [->|]; [done|]. rewrite K2 by done. apply X1. lia. }
  destruct (HG n) as (es & s' & L' & F' & E' & O' & _ & X'); [done|]. exists es, s'. split_and!; [done..|].
  unfold joined. rewrite Forall_forall. intros w [i Hi]%list_elem_of_lookup. pose proof (lookup_lt_Some _ _ _ Hi) as Hl.
  rewrite (jo_threads _ _ O') in Hl. rewrite X' in Hi by done. congruence.
Qed.

(** C9. In every state that the queue and its threads can reach, the queue is ordered by
    deadlines, no two jobs in it are equal, and every job that runs has reached its
    deadline. *)
Theorem job_queue_invariant n s : reachable n s →
  StronglySorted (λ j k, (get_deadline j < get_deadline k)%Z) (queue_ s) ∧
  (∀ i k a b, queue_ s !! i = Some a → queue_ s !! k = Some b → job_equals a b = true → i = k) ∧
  (∀ i j, threads_ s !! i = Some (Running j) → (get_deadline j ≤ now s)%Z) ∧ length (threads_ s) = n.
Proof.
  intros HR. apply reachable_ok in HR as [O1 O2 O3 O4 _ _ _]. split_and!; [|done..].
  induction O1 as [|j q _ IH HF]; constructor.
  - apply IH. by apply no_duplicates_cons in O2 as [_ ?].
  - eapply Forall_impl; [exact HF|]. intros k Hk%Z.ltb_lt. done.
Qed.

(** C39. A job whose deadline is that of another job in the queue is lost: the set orders the
    jobs by deadline alone, so that the insertion does nothing, after a later duplicate of
    the job was erased.  No equal job is left in the queue. *)
Theorem same_deadline_loses_job n s job other who : reachable n s → other ∈ queue_ s →
  get_deadline other = get_deadline job → job_equals job other = false → is_Some (erase_duplicate job (queue_ s)) →
  ∀ j, j ∈ queue_ (jobs_enqueue job who s) → job_equals job j = false.
Proof.
  intros HR Ho Ed En [r Er]. apply reachable_ok in HR as [O1 O2 _ _ _ _ _]. unfold jobs_enqueue. rewrite Er. cbn.
  destruct (erase_duplicate_Some job _ r Er O2 O1) as (_ & R2 & R3 & R4).
  assert (Hor : other ∈ r) by (destruct (R4 other Ho) as [?|[? _]]; [done|congruence]).
  assert (HI : queue_insert job r = r).
  { clear -R2 Hor Ed. induction R2 as [|k r _ IH HF]; [by apply not_elem_of_nil in Hor|]. cbn [queue_insert]. unfold sooner in *.
    apply elem_of_cons in Hor as [->|Hor].
    - rewrite Ed, Z.ltb_irrefl. done.
    - rewrite Forall_forall in HF. pose proof (proj1 (Z.ltb_lt _ _) (HF other Hor)) as L.
      replace (get_deadline job <? get_deadline k)%Z with false by (symmetry; apply Z.ltb_ge; lia).
      replace (get_deadline k <? get_deadline job)%Z with true by (symmetry; apply Z.ltb_lt; lia). by rewrite IH. }
  rewrite HI. intros j Hj. by apply R3.
Qed.
End progress.

(** ** Witnesses *)
Definition demo_jobs : option (JobQueue ViewUpdateJob) :=
  match jobs_start (JobQueue_new 2 0) with
  | Ok s => steps [Turn 0; Enqueue (ViewUpdateJob_new 9 []) 0; Enqueue (ViewUpdateJob_new 5 [Ascii.zero]) 1] s
  | Fault _ => None
  end.
Definition demo_queue : JobQueue ViewUpdateJob :=
  match demo_jobs with Some s => s | None => JobQueue_new 2 0 end.

Lemma steps_reachable {J} `{Job J} n es s s' : reachable n s → steps es s = Some s' → reachable n s'.
Proof.
  revert s. induction es as [|e es IH]; intros s HR; cbn [steps]; [by intros [= <-]|].
  destruct (step e s) as [s1|] eqn:E; [|done]. apply IH. by eapply reach_step.
Qed.

Lemma demo_queue_reachable : reachable 2 demo_queue.
Proof.
  eapply (steps_reachable 2 [Turn 0; Enqueue (ViewUpdateJob_new 9 []) 0; Enqueue (ViewUpdateJob_new 5 [Ascii.zero]) 1]);
    [by eapply (reach_start 2 0)|]. by vm_compute.
Qed.

Lemma first_job_gets_started_witness : ∃ es s', length es ≤ 3 ∧ steps es demo_queue = Some s' ∧
  ∃ i, threads_ s' !! i = Some (Running (ViewUpdateJob_new 5 [Ascii.zero])).
Proof.
  destruct (first_job_gets_started 2 demo_queue (ViewUpdateJob_new 5 [Ascii.zero]) [ViewUpdateJob_new 9 []] demo_queue_reachable)
    as (es & s' & L & _ & E & HI); [done|by vm_compute|by vm_compute|].
  exists es, s'. split; [exact L|]. split; [exact E|exact HI].
Defined.

Lemma stop_ends_all_threads_witness : ∃ es s', steps es (jobs_stop demo_queue) = Some s' ∧ joined s'.
Proof.
  destruct (stop_ends_all_threads 2 (jobs_stop demo_queue)) as (_ & es & s' & _ & _ & E & HJ).
  - exact (reach_step 2 Stop _ _ demo_queue_reachable eq_refl).
  - done.
  - exists es, s'. split; [exact E|exact HJ].
Defined.

Lemma job_queue_invariant_witness : length (threads_ demo_queue) = 2.
Proof. exact (proj2 (proj2 (proj2 (job_queue_invariant 2 demo_queue demo_queue_reachable)))). Defined.

(** The update of the view that was to run at 9 is to be moved to 5, when another view is
    updated: both are lost for it. *)
Lemma same_deadline_loses_job_witness :
  queue_ (jobs_enqueue (ViewUpdateJob_new 5 []) 0 demo_queue) = [ViewUpdateJob_new 5 [Ascii.zero]] ∧
  ∀ j, j ∈ queue_ (jobs_enqueue (ViewUpdateJob_new 5 []) 0 demo_queue) → job_equals (ViewUpdateJob_new 5 []) j = false.
Proof.
  split; [by vm_compute|].
  apply (same_deadline_loses_job 2 demo_queue (ViewUpdateJob_new 5 []) (ViewUpdateJob_new 5 [Ascii.zero]) 0 demo_queue_reachable).
  - vm_compute. left.
  - done.
  - done.
  - vm_compute. eauto.
Defined.
