(* ===== verification/DistObj.v ===== *)
(** * The tree of server objects (common-server/src/include/p4pserver/dist_obj.h,
    lib/dist_obj.cpp)

    The portal server keeps its state in a tree of lockable objects: every
    [DistributedObject] has properties of its class and a vector of shared pointers to its
    children.  Objects live in a store of addresses, so that the trees of two roots can
    share objects.  The virtual functions [do_copy_properties] and [on_update] are
    arguments.  Objects without references are not removed from the store. *)
From S2P Require Import Prelude Locking ServerObject.

Section DistObj.
Context {M : Type} `{SharedMutex M} {D J : Type}.

Record DistributedObject := MkDist {
  local : LocalObject (M := M);
  props : D;
  children_ : list (option positive)
}.
Abbreviation store := (gmap positive DistributedObject).
Abbreviation S := (ST store).

Variable new_addr : list positive → positive.

(** ** Access to objects *)
Definition addrs (s : store) : list positive := (map_to_list s).*1.
Definition obj (a : positive) : S DistributedObject := λ s, match s !! a with Some o => Ok (o, s) | None => Fault UB end.
Definition put_obj (a : positive) (o : DistributedObject) : S unit := λ s, Ok (tt, <[a := o]> s).
Definition alloc (o : DistributedObject) : S positive := λ s,
  let a := new_addr (addrs s) in Ok (a, <[a := o]> s).
(** A shared pointer that is dereferenced. *)
Definition deref_ptr (p : option positive) : S positive := st_lift (from_option_or UB p).

Definition as_server (o : DistributedObject) : Server M D := MkServer (local o) (props o).
Definition with_server (s : Server M D) (o : DistributedObject) : DistributedObject :=
  MkDist (so_object s) (so_data s) (children_ o).

(** Run an operation of the object at an address. *)
Definition on_object {A} (a : positive) (m : ST (Server M D) A) : S A :=
  o ← obj a;
  '(r, s) ← st_lift (m (as_server o));
  put_obj a (with_server s o);;
  mret r.
(** Read the object at an address. *)
Definition read_object {A} (a : positive) (m : ST (Server M D) A) : S A :=
  o ← obj a;
  '(r, _) ← st_lift (m (as_server o));
  mret r.

(** ** Locks *)
Definition lock_local (k : lock_kind) : ST (Server M D) unit := λ s,
  match construct k (so_object s) with
  | Holds o => Ok (tt, MkServer o (so_data s))
  | Throws e _ => Fault e
  | Waits => Fault Deadlock
  end.
Definition unlock_local (k : lock_kind) : ST (Server M D) unit := λ s,
  o ← destroy k (so_object s); mret (tt, MkServer o (so_data s)).
Definition lock (k : lock_kind) (a : positive) : S unit := on_object a (lock_local k).
Definition unlock (k : lock_kind) (a : positive) : S unit := on_object a (unlock_local k).

(** ** Children *)
Definition get_child (i : nat) (a : positive) : S (option positive) :=
  o ← obj a; mret (mjoin (children_ o !! i)).

(** [children_.resize (std::max (children_.size (), i + 1))] *)
Definition resized (i : nat) (l : list (option positive)) : list (option positive) :=
  l ++ replicate (i + 1 - length l) None.
Definition set_child (i : nat) (value : option positive) (a : positive) : S unit :=
  o ← obj a;
  put_obj a (MkDist (local o) (props o) (<[i := value]> (resized i (children_ o))));;
  on_object a so_changed.

(** [find_child]: [None] is UINT_MAX. *)
Definition find_child (value : option positive) (a : positive) : S (option nat) :=
  o ← obj a; mret (fst <$> list_find (λ c, c = value) (children_ o)).

Definition get_children (a : positive) : S (list positive) := o ← obj a; mret (omap id (children_ o)).
Definition get_children_count (a : positive) : S nat := l ← get_children a; mret (length l).

(** ** Copies *)
(** [do_copy_properties]: the new object and the source, which it may change. *)
Variable do_copy_properties : Server M D → outcome (Server M D * Server M D).

(** [copy]: the children are shared. *)
Definition copy (a : positive) : S positive :=
  o ← obj a;
  '(new, src) ← st_lift (do_copy_properties (as_server o));
  put_obj a (with_server src o);;
  alloc (with_server new o).

(** ** Updates *)
(** [on_update]: the jobs that are enqueued. *)
Variable on_update : positive → S (list J).

Fixpoint st_concat {A} (f : A → S (list J)) (l : list A) : S (list J) :=
  match l with
  | [] => mret []
  | x :: l' => js ← f x; js' ← st_concat f l'; mret (js ++ js')
  end.

(** [updated]: the fuel is the height of the tree. *)
Fixpoint updated (fuel : nat) (a : positive) : S (list J) :=
  match fuel with
  | 0 => st_fail NoFuel
  | Datatypes.S fuel' =>
      lock BlockWriteLock a;;
      js ← on_update a;
      cs ← get_children a;
      js' ← st_concat (updated fuel') cs;
      unlock BlockWriteLock a;;
      mret (js ++ js')
  end.

(** ** Lemmas *)
Lemma obj_Ok a o (s : store) : s !! a = Some o → obj a s = Ok (o, s).
Proof. intros E. unfold obj. by rewrite E. Qed.

Lemma obj_inv a o (s s' : store) : obj a s = Ok (o, s') → s !! a = Some o ∧ s' = s.
Proof. unfold obj. destruct (s !! a); [|done]. by intros [= -> ->]. Qed.

Lemma on_object_Ok {A} a (m : ST (Server M D) A) o r s1 (s : store) : s !! a = Some o → m (as_server o) = Ok (r, s1) →
  on_object a m s = Ok (r, <[a := with_server s1 o]> s).
Proof.
  intros Ea E. unfold on_object. rewrite (st_bind_Ok _ _ _ _ _ (obj_Ok a o s Ea)), st_lift_bind, E. reflexivity.
Qed.

Lemma on_object_inv {A} a (m : ST (Server M D) A) r (s s' : store) : on_object a m s = Ok (r, s') →
  ∃ o s1, s !! a = Some o ∧ m (as_server o) = Ok (r, s1) ∧ s' = <[a := with_server s1 o]> s.
Proof.
  intros (o & s0 & (Ea & ->)%obj_inv & E)%st_bind_inv. rewrite st_lift_bind in E.
  destruct (m (as_server o)) as [[r' s1]|e] eqn:Em; [|done]. cbn in E. injection E as <- <-. eauto.
Qed.

Lemma read_object_inv {A} a (m : ST (Server M D) A) r (s s' : store) : read_object a m s = Ok (r, s') →
  s' = s ∧ ∃ o s1, s !! a = Some o ∧ m (as_server o) = Ok (r, s1).
Proof.
  intros (o & s0 & (Ea & ->)%obj_inv & E)%st_bind_inv. rewrite st_lift_bind in E.
  destruct (m (as_server o)) as [[r' s1]|e] eqn:Em; [|done]. injection E as <- <-. eauto.
Qed.
End DistObj.
Arguments DistributedObject M D : clear implicits.
Abbreviation store M D := (gmap positive (DistributedObject M D)).
