(* ===== verification/Views.v ===== *)
(** * Views, their registry and the global state (portal/server/src/view/view.h, view.cpp,
    view_registry.h, view_registry.cpp, global_state/global_state.cpp)

    The classes of the object tree: the global state has a network and a registry of views
    as its children, the registry its views in slots, and a view its aggregation, prefixes,
    routing and matrices.  [dynamic_pointer_cast] to the class of an object is a match on
    its properties; a cast that fails gives a null pointer, whose use is [UB]. *)
From S2P Require Import Prelude StdMap Double IpAddr Pid Locking PrefixTable ServerObject.
From S2P Require Import PidMap PidMatrix PidAggregation NetState PidRouting ViewUpdate.
From S2P Require Import JobQueue DistObj.

Definition DEFAULT_VIEW_NAME : text := String.list_ascii_of_string "DEFAULT".
Definition MAX_VIEWS : nat := 256.
Definition DEFAULT_WEIGHT : double := double_of_int 1.

Definition CHILD_IDX_NET : nat := 0.
Definition CHILD_IDX_VIEWS : nat := 1.
Definition CHILD_IDX_AGGREGATION : nat := 0.
Definition CHILD_IDX_PREFIXES : nat := 1.
Definition CHILD_IDX_INTRA_ROUTING : nat := 2.
Definition CHILD_IDX_LINK_PDISTANCES : nat := 3.
Definition CHILD_IDX_INTRA_PDISTANCES : nat := 4.
Definition CHILD_IDX_INTER_PDISTANCES : nat := 5.

(** The properties of a view; [P] is the type of plugin instances. *)
Record ViewData {P : Type} := MkViewData {
  vd_name : text;
  vd_plugin_name : text;
  vd_plugin_inst : option P;
  vd_update_interval : Z;
  vd_extra_node_action : ExtraNodeAction;
  vd_default_intrapid_pdistance : double;
  vd_default_interpid_pdistance : double;
  vd_default_interdomain_pdistance : double;
  vd_default_pidlink_pdistance : double;
  vd_interdomain_includes_intradomain : bool;
  vd_pid_ttl : Z;
  vd_pdistance_ttl : Z
}.
Arguments ViewData P : clear implicits.
Arguments MkViewData {P}.

Section Views.
Context {M : Type} `{SharedMutex M} {P : Type} {T : Type} `{PrefixTable PID T}.

(** The classes that derive from [DistributedObject]. *)
Inductive Props :=
  | GlobalState
  | NetStateP (d : NetData)
  | ViewRegistry (views_ : list (text * nat))
  | ViewP (v : ViewData P)
  | PIDAggregationP (d : AggregationData)
  | PIDMapP (d : T)
  | PIDRoutingP (d : RoutingData M)
  | PIDMatrixP (d : PIDMatrixData)
  | SparsePIDMatrixP (d : PIDMatrixData).

Abbreviation Obj := (DistributedObject M Props).
Abbreviation Store := (store M Props).
Abbreviation S := (ST Store).
Abbreviation Srv := (Server M Props).

(** An operation of a class on an object of the tree. *)
Definition as_class {E A} (prj : Props → option E) (inj : E → Props) (m : ST (Server M E) A) : ST Srv A := λ s,
  match prj (so_data s) with
  | None => Fault UB
  | Some d =>
      match m (MkServer (so_object s) d) with
      | Ok (a, s') => Ok (a, MkServer (so_object s') (inj (so_data s')))
      | Fault e => Fault e
      end
  end.
Definition to_net (p : Props) : option NetData := match p with NetStateP d => Some d | _ => None end.
Definition to_registry (p : Props) : option (list (text * nat)) := match p with ViewRegistry d => Some d | _ => None end.
Definition to_view (p : Props) : option (ViewData P) := match p with ViewP d => Some d | _ => None end.
Definition to_aggregation (p : Props) : option AggregationData := match p with PIDAggregationP d => Some d | _ => None end.
Definition to_map (p : Props) : option T := match p with PIDMapP d => Some d | _ => None end.
Definition to_routing (p : Props) : option (RoutingData M) := match p with PIDRoutingP d => Some d | _ => None end.
Definition to_matrix (p : Props) : option PIDMatrixData := match p with PIDMatrixP d => Some d | _ => None end.
Definition to_sparse (p : Props) : option PIDMatrixData := match p with SparsePIDMatrixP d => Some d | _ => None end.

Definition of_net {A} : ST (NetState (M := M)) A → ST Srv A := as_class to_net NetStateP.
Definition of_registry {A} : ST (Server M (list (text * nat))) A → ST Srv A := as_class to_registry ViewRegistry.
Definition of_view {A} : ST (Server M (ViewData P)) A → ST Srv A := as_class to_view ViewP.
Definition of_aggregation {A} : ST (PIDAggregation (M := M)) A → ST Srv A := as_class to_aggregation PIDAggregationP.
Definition of_map {A} : ST (PIDMap (M := M) (D := T)) A → ST Srv A := as_class to_map PIDMapP.
Definition of_routing {A} : ST (PIDRouting M) A → ST Srv A := as_class to_routing PIDRoutingP.
Definition of_matrix {A} : ST (PIDMatrix (M := M)) A → ST Srv A := as_class to_matrix PIDMatrixP.
Definition of_sparse {A} : ST (PIDMatrix (M := M)) A → ST Srv A := as_class to_sparse SparsePIDMatrixP.

(** ** Properties of a view *)
Abbreviation V := (ST (Server M (ViewData P))).
Definition view_put (f : ViewData P → ViewData P) : V unit := d ← so_get; so_put (f d);; so_changed.

Definition set_update_interval (value : Z) : V unit := view_put (λ v,
  MkViewData (vd_name v) (vd_plugin_name v) (vd_plugin_inst v) value (vd_extra_node_action v) (vd_default_intrapid_pdistance v)
    (vd_default_interpid_pdistance v) (vd_default_interdomain_pdistance v) (vd_default_pidlink_pdistance v)
    (vd_interdomain_includes_intradomain v) (vd_pid_ttl v) (vd_pdistance_ttl v)).
Definition set_extra_node_action (value : ExtraNodeAction) : V unit := view_put (λ v,
  MkViewData (vd_name v) (vd_plugin_name v) (vd_plugin_inst v) (vd_update_interval v) value (vd_default_intrapid_pdistance v)
    (vd_default_interpid_pdistance v) (vd_default_interdomain_pdistance v) (vd_default_pidlink_pdistance v)
    (vd_interdomain_includes_intradomain v) (vd_pid_ttl v) (vd_pdistance_ttl v)).
Definition set_default_intrapid_pdistance (value : double) : V unit := view_put (λ v,
  MkViewData (vd_name v) (vd_plugin_name v) (vd_plugin_inst v) (vd_update_interval v) (vd_extra_node_action v) value
    (vd_default_interpid_pdistance v) (vd_default_interdomain_pdistance v) (vd_default_pidlink_pdistance v)
    (vd_interdomain_includes_intradomain v) (vd_pid_ttl v) (vd_pdistance_ttl v)).
Definition set_default_interpid_pdistance (value : double) : V unit := view_put (λ v,
  MkViewData (vd_name v) (vd_plugin_name v) (vd_plugin_inst v) (vd_update_interval v) (vd_extra_node_action v)
    (vd_default_intrapid_pdistance v) value (vd_default_interdomain_pdistance v) (vd_default_pidlink_pdistance v)
    (vd_interdomain_includes_intradomain v) (vd_pid_ttl v) (vd_pdistance_ttl v)).
Definition set_default_interdomain_pdistance (value : double) : V unit := view_put (λ v,
  MkViewData (vd_name v) (vd_plugin_name v) (vd_plugin_inst v) (vd_update_interval v) (vd_extra_node_action v)
    (vd_default_intrapid_pdistance v) (vd_default_interpid_pdistance v) value (vd_default_pidlink_pdistance v)
    (vd_interdomain_includes_intradomain v) (vd_pid_ttl v) (vd_pdistance_ttl v)).
Definition set_default_pidlink_pdistance (value : double) : V unit := view_put (λ v,
  MkViewData (vd_name v) (vd_plugin_name v) (vd_plugin_inst v) (vd_update_interval v) (vd_extra_node_action v)
    (vd_default_intrapid_pdistance v) (vd_default_interpid_pdistance v) (vd_default_interdomain_pdistance v) value
    (vd_interdomain_includes_intradomain v) (vd_pid_ttl v) (vd_pdistance_ttl v)).
Definition set_interdomain_includes_intradomain (value : bool) : V unit := view_put (λ v,
  MkViewData (vd_name v) (vd_plugin_name v) (vd_plugin_inst v) (vd_update_interval v) (vd_extra_node_action v)
    (vd_default_intrapid_pdistance v) (vd_default_interpid_pdistance v) (vd_default_interdomain_pdistance v)
    (vd_default_pidlink_pdistance v) value (vd_pid_ttl v) (vd_pdistance_ttl v)).
Definition set_pid_ttl (value : Z) : V unit := view_put (λ v,
  MkViewData (vd_name v) (vd_plugin_name v) (vd_plugin_inst v) (vd_update_interval v) (vd_extra_node_action v)
    (vd_default_intrapid_pdistance v) (vd_default_interpid_pdistance v) (vd_default_interdomain_pdistance v)
    (vd_default_pidlink_pdistance v) (vd_interdomain_includes_intradomain v) value (vd_pdistance_ttl v)).
Definition set_pdistance_ttl (value : Z) : V unit := view_put (λ v,
  MkViewData (vd_name v) (vd_plugin_name v) (vd_plugin_inst v) (vd_update_interval v) (vd_extra_node_action v)
    (vd_default_intrapid_pdistance v) (vd_default_interpid_pdistance v) (vd_default_interdomain_pdistance v)
    (vd_default_pidlink_pdistance v) (vd_interdomain_includes_intradomain v) (vd_pid_ttl v) value).

(** [set_plugin]; [get_instance] is [OptPluginRegistry::get_instance]. *)
Variable get_instance : text → option P.
Definition with_plugin (name : text) (p : option P) (v : ViewData P) : ViewData P :=
  MkViewData (vd_name v) name p (vd_update_interval v) (vd_extra_node_action v) (vd_default_intrapid_pdistance v)
    (vd_default_interpid_pdistance v) (vd_default_interdomain_pdistance v) (vd_default_pidlink_pdistance v)
    (vd_interdomain_includes_intradomain v) (vd_pid_ttl v) (vd_pdistance_ttl v).
Definition set_plugin (name : text) : V bool :=
  d ← so_get;
  if decide (vd_plugin_name d = name) then mret true
  else
    match (if decide (name = []) then Some None else Some <$> get_instance name) with
    | None => mret false
    | Some p => so_put (with_plugin name p d);; so_changed;; mret true
    end.

(** ** Construction *)
Variable new_addr : list positive → positive.
Definition new_view_data (name : text) : ViewData P :=
  MkViewData name [] None (5 * 60) ENA_REMOVE dzero (S754_infinity false) (double_of_int 60) (double_of_int 1) true
    (7 * 24 * 60 * 60) (2 * 60 * 60).

(** An operation of a new object under a [BlockWriteLock]. *)
Definition write_session {A} (m : ST Srv A) : ST Srv A :=
  lock_local BlockWriteLock;; r ← m; unlock_local BlockWriteLock;; mret r.

Definition alloc_server (s : Srv) : S positive := alloc new_addr (MkDist (so_object s) (so_data s) []).
Definition new_child (p : Props) : S positive := alloc_server (MkServer (LocalObject_new 0) p).

(** [View (view_reg, name)] *)
Definition View_new (name : text) : S positive :=
  v ← new_child (ViewP (new_view_data name));
  lock BlockWriteLock v;;
  aggregation ← new_child (PIDAggregationP (MkAggregation [] []));
  set_child CHILD_IDX_AGGREGATION (Some aggregation) v;;
  trie ← st_lift pt_new;
  prefixes ← new_child (PIDMapP trie);
  set_child CHILD_IDX_PREFIXES (Some prefixes) v;;
  routing ← st_lift (PIDRouting_new (M := M) 0 0 DEFAULT_WEIGHT);
  routing_ptr ← new_child (PIDRoutingP (so_data routing));
  set_child CHILD_IDX_INTRA_ROUTING (Some routing_ptr) v;;
  link ← new_child (SparsePIDMatrixP PIDMatrix_empty);
  set_child CHILD_IDX_LINK_PDISTANCES (Some link) v;;
  intra ← new_child (PIDMatrixP PIDMatrix_empty);
  set_child CHILD_IDX_INTRA_PDISTANCES (Some intra) v;;
  inter ← new_child (SparsePIDMatrixP PIDMatrix_empty);
  set_child CHILD_IDX_INTER_PDISTANCES (Some inter) v;;
  unlock BlockWriteLock v;;
  mret v.

Definition GlobalState_new : S positive :=
  g ← new_child GlobalState;
  lock BlockWriteLock g;;
  net ← new_child (NetStateP (MkNetData (MkNetGraph [] []) [] []));
  set_child CHILD_IDX_NET (Some net) g;;
  views ← new_child (ViewRegistry []);
  set_child CHILD_IDX_VIEWS (Some views) g;;
  unlock BlockWriteLock g;;
  mret g.

(** ** [ViewRegistry] *)
Definition registry_get (name : text) (r : positive) : S (option positive) :=
  vs ← read_object r (of_registry so_get);
  match map_find text_ltb (if decide (name = []) then DEFAULT_VIEW_NAME else name) vs with
  | None => mret None
  | Some i => get_child i r
  end.

(** The first slot without a view. *)
Definition free_slot (l : list (option positive)) : option nat :=
  fst <$> list_find (λ i, mjoin (l !! i) = None) (seq 0 MAX_VIEWS).
Definition registry_add (name : text) (r : positive) : S bool :=
  o ← obj r;
  match free_slot (children_ o) with
  | None => mret false
  | Some i =>
      v ← View_new name;
      set_child i (Some v) r;;
      on_object r (of_registry (d ← so_get; so_put (map_set text_ltb name i d);; so_changed));;
      mret true
  end.

Definition registry_remove (name : text) (r : positive) : S bool :=
  vs ← read_object r (of_registry so_get);
  match map_find text_ltb name vs with
  | None => mret false
  | Some i =>
      set_child i None r;;
      on_object r (of_registry (d ← so_get; so_put (map_erase text_ltb name d);; so_changed));;
      mret true
  end.

(** ** [View]: PIDs *)
Definition child_of (i : nat) (a : positive) : S positive := c ← get_child i a; deref_ptr c.

Definition view_add_pid (name : text) (pid : PID) (v : positive) : S bool :=
  agg ← child_of CHILD_IDX_AGGREGATION v;
  b ← on_object agg (of_aggregation (agg_add name pid []));
  if negb b then mret false
  else
    routing ← child_of CHILD_IDX_INTRA_ROUTING v;
    on_object routing (of_routing (routing_add_pid pid));;
    link ← child_of CHILD_IDX_LINK_PDISTANCES v;
    on_object link (of_sparse (add_pid pid));;
    mret true.

Definition view_remove_pid (pid : PID) (v : positive) : S bool :=
  agg ← child_of CHILD_IDX_AGGREGATION v;
  b ← read_object agg (of_aggregation (has_pid pid));
  if negb b then mret false
  else
    on_object agg (of_aggregation (agg_remove pid));;
    routing ← child_of CHILD_IDX_INTRA_ROUTING v;
    on_object routing (of_routing (routing_remove_pid [] pid));;
    link ← child_of CHILD_IDX_LINK_PDISTANCES v;
    on_object link (of_sparse (remove_pid pid));;
    mret true.

Definition view_lookup_pid (name : text) (v : positive) : S PID :=
  agg ← child_of CHILD_IDX_AGGREGATION v;
  read_object agg (of_aggregation (agg_lookup name)).

(** ** Copies *)
(** The constructor of a class with children changes the new object once. *)
Definition created (p : Props) : outcome Srv :=
  '(_, s) ← write_session so_changed (MkServer (LocalObject_new 0) p); mret s.

Definition copy_view_data (v : ViewData P) : V unit :=
  set_plugin (vd_plugin_name v);;
  set_update_interval (vd_update_interval v);;
  set_extra_node_action (vd_extra_node_action v);;
  set_default_intrapid_pdistance (vd_default_intrapid_pdistance v);;
  set_default_interpid_pdistance (vd_default_interpid_pdistance v);;
  set_default_interdomain_pdistance (vd_default_interdomain_pdistance v);;
  set_default_pidlink_pdistance (vd_default_pidlink_pdistance v);;
  set_interdomain_includes_intradomain (vd_interdomain_includes_intradomain v);;
  set_pid_ttl (vd_pid_ttl v);;
  set_pdistance_ttl (vd_pdistance_ttl v).

Definition inj_server {E} (inj : E → Props) (s : Server M E) : Srv := MkServer (so_object s) (inj (so_data s)).
Definition do_copy_properties (s : Srv) : outcome (Srv * Srv) :=
  match so_data s with
  | GlobalState => new ← created GlobalState; mret (new, s)
  | NetStateP d => new ← NetState_copy new_addr 0 (MkServer (so_object s) d); mret (inj_server NetStateP new, s)
  | ViewRegistry vs => mret (MkServer (LocalObject_new 0) (ViewRegistry vs), s)
  | ViewP v =>
      new_obj ← created (ViewP (new_view_data []));
      '(_, new) ← write_session (of_view (copy_view_data v)) new_obj;
      mret (new, s)
  | PIDAggregationP d => mret (inj_server PIDAggregationP (PIDAggregation_copy 0 (MkServer (so_object s) d)), s)
  | PIDMapP d => new ← PIDMap_copy 0 (MkServer (so_object s) d); mret (inj_server PIDMapP new, s)
  | PIDRoutingP d =>
      '(new, src) ← PIDRouting_copy new_addr [] 0 0 (MkServer (so_object s) d);
      mret (inj_server PIDRoutingP new, inj_server PIDRoutingP src)
  | PIDMatrixP d => mret (inj_server PIDMatrixP (PIDMatrix_copy 0 (MkServer (so_object s) d)), s)
  | SparsePIDMatrixP d => mret (inj_server SparsePIDMatrixP (PIDMatrix_copy 0 (MkServer (so_object s) d)), s)
  end.

(** ** Updates *)
Variable now : Z.
Definition on_update (a : positive) : S (list ViewUpdateJob) :=
  o ← obj a;
  match props o with
  | ViewRegistry _ =>
      n ← get_children_count a;
      if decide (n = 0)
      then ok ← registry_add DEFAULT_VIEW_NAME a;
           if ok : bool then mret [] else st_fail (Throw "Failed to register default view")
      else mret []
  | ViewP v =>
      if (0 <? vd_update_interval v)%Z
      then mret [ViewUpdateJob_new (now + vd_update_interval v) (vd_name v)]
      else mret []
  | _ => mret []
  end.

(** ** [GlobalState] *)
Definition get_net (g : positive) : S (option positive) := get_child CHILD_IDX_NET g.
Definition get_views (g : positive) : S (option positive) := get_child CHILD_IDX_VIEWS g.
Definition global_apply (new_state g : positive) : S unit :=
  net ← get_child CHILD_IDX_NET new_state;
  set_child CHILD_IDX_NET net g;;
  views ← get_child CHILD_IDX_VIEWS new_state;
  set_child CHILD_IDX_VIEWS views g;;
  on_object g so_changed.
End Views.
Arguments Props M P T : clear implicits.
