(* ===== verification/AdminState.v ===== *)
(** * Administration transactions (portal/server/src/admin/admin_state.h, admin_state.cpp)

    Clients change the server's state in transactions: [txn_begin] locks the tree of
    objects and copies its root, actions change objects that [write_object_ref] copies or
    upgrades first, [txn_commit] installs the new tree and [txn_rollback] drops it.
    Operations run one after the other (the class holds a mutex); the thread that rolls
    back a transaction that timed out calls [txn_rollback].  Exceptions of the class
    [admin_error] are values, because the state that they leave matters. *)
From S2P Require Import Prelude StdMap Double IpAddr Pid Locking PrefixTable ServerObject.
From S2P Require Import PidMatrix PidAggregation NetState PidRouting ViewUpdate JobQueue.
From S2P Require Import DistObj Views.

Inductive admin_error :=
  | admin_no_txn_error
  | admin_duplicate_txn_error
  | admin_wrong_token_error
  | admin_token_generation_error
  | admin_invalid_view
  | admin_invalid_pid.

Inductive TxnType := TXN_DIRECT_WRITE | TXN_COPY_ON_WRITE.
#[global] Instance TxnType_eq_dec : EqDecision TxnType.
Proof. solve_decision. Defined.

Definition INVALID_TOKEN : Z := 0.
Definition MAX_TOKEN_GENERATE_ATTEMPTS : nat := 3.

(** ** Tokens as text *)
(** The digits of [%016llx]. *)
Definition hex_digit (d : Z) : Ascii.ascii :=
  Ascii.ascii_of_nat (Z.to_nat (if (d <? 10)%Z then 48 + d else 87 + d)).
Fixpoint hex_digits (n : nat) (z : Z) : text :=
  match n with 0 => [] | S n' => hex_digits n' (z / 16) ++ [hex_digit (z mod 16)] end.
Definition token_to_string (token : Z) : text := hex_digits 16 (u64 token).

(** [strtoull (s, &end, 16)]: white space, a sign, the prefix 0x and digits; the value and
    what is left of the text.  Without digits nothing is consumed; values out of range
    become ULLONG_MAX. *)
Definition hex_value (c : Ascii.ascii) : option Z :=
  let n := Z.of_nat (Ascii.nat_of_ascii c) in
  if ((48 <=? n) && (n <=? 57))%Z then Some (n - 48)%Z
  else if ((97 <=? n) && (n <=? 102))%Z then Some (n - 87)%Z
  else if ((65 <=? n) && (n <=? 70))%Z then Some (n - 55)%Z
  else None.
Definition is_space (c : Ascii.ascii) : bool :=
  let n := Ascii.nat_of_ascii c in (n =? 32) || ((9 <=? n) && (n <=? 13)).
Fixpoint skip_space (s : text) : text :=
  match s with c :: s' => if is_space c then skip_space s' else s | [] => [] end.
Fixpoint read_hex (acc : Z) (s : text) : Z * text :=
  match s with
  | c :: s' => match hex_value c with Some d => read_hex (acc * 16 + d) s' | None => (acc, s) end
  | [] => (acc, [])
  end.
Definition sign_of (s : text) : bool * text :=
  match s with
  | c :: s' => if decide (c = Ascii.ascii_of_nat 45) then (true, s')
               else if decide (c = Ascii.ascii_of_nat 43) then (false, s') else (false, s)
  | [] => (false, [])
  end.
Definition skip_0x (s : text) : text :=
  match s with
  | c0 :: cx :: d :: s' =>
      if decide (c0 = Ascii.ascii_of_nat 48 ∧ (cx = Ascii.ascii_of_nat 120 ∨ cx = Ascii.ascii_of_nat 88) ∧ is_Some (hex_value d))
      then d :: s' else s
  | _ => s
  end.
Definition ULLONG_MAX : Z := 2 ^ 64 - 1.
Definition strtoull16 (s : text) : Z * text :=
  let '(neg, s1) := sign_of (skip_space s) in
  match skip_0x s1 with
  | (c :: _) as s2 =>
      if decide (is_Some (hex_value c)) then
        let '(v, rest) := read_hex 0 s2 in
        ((if (ULLONG_MAX <? v)%Z then ULLONG_MAX else if neg then u64 (- v) else v), rest)
      else (0%Z, s)
  | [] => (0%Z, s)
  end.
(** [string_to_token]: the token is set even when the result is [false]; [None] is an empty
    text, for which it is not. *)
Definition string_to_token (s : text) : bool * option Z :=
  if decide (s = []) then (false, None)
  else let '(v, rest) := strtoull16 s in (bool_decide (rest = []), Some v).

(** ** The state *)
Section AdminState.
Context {M : Type} `{SharedMutex M} {P T Act : Type} `{PrefixTable PID T}.

Abbreviation Store := (store M (Props M P T)).

(** [old_state_locks_] and [write_locks_] map objects to the locks that are held. *)
Record AdminState := MkAdmin {
  token_ : Z;
  txn_type_ : TxnType;
  new_state_ : option positive;
  old_state_locks_ : list positive;
  write_locks_ : list (positive * lock_kind);
  unapplied_changes_ : list Act;
  applied_changes_ : list Act;
  monitor_thread_ : bool
}.

(** The process: its objects, the transaction, the random numbers that the device will
    give, and the jobs that were enqueued. *)
Record World := MkWorld {
  objects : Store;
  admin : AdminState;
  rng_ : list Z;
  enqueued : list ViewUpdateJob
}.
Abbreviation W := (ST World).

Definition AdminState_new : AdminState := MkAdmin INVALID_TOKEN TXN_DIRECT_WRITE None [] [] [] [] false.

(** Computations that may throw an [admin_error]. *)
Definition Adm (A : Type) : Type := World → outcome ((A + admin_error) * World).
#[global] Instance adm_ret : MRet Adm := λ A a w, Ok (inl a, w).
#[global] Instance adm_bind : MBind Adm := λ A B f m w,
  match m w with
  | Ok (inl a, w') => f a w'
  | Ok (inr e, w') => Ok (inr e, w')
  | Fault e => Fault e
  end.
Definition throw {A} (e : admin_error) : Adm A := λ w, Ok (inr e, w).
Definition adm {A} (m : W A) : Adm A := λ w, match m w with Ok (a, w') => Ok (inl a, w') | Fault e => Fault e end.
Definition on_store {A} (m : ST Store A) : W A := λ w,
  match m (objects w) with
  | Ok (a, s) => Ok (a, MkWorld s (admin w) (rng_ w) (enqueued w))
  | Fault e => Fault e
  end.
Definition on_admin (f : AdminState → AdminState) : W unit := λ w,
  Ok (tt, MkWorld (objects w) (f (admin w)) (rng_ w) (enqueued w)).
Definition get_admin : W AdminState := λ w, Ok (admin w, w).

Definition with_token (t : Z) (a : AdminState) : AdminState :=
  MkAdmin t (txn_type_ a) (new_state_ a) (old_state_locks_ a) (write_locks_ a) (unapplied_changes_ a) (applied_changes_ a)
    (monitor_thread_ a).
Definition with_type (t : TxnType) (a : AdminState) : AdminState :=
  MkAdmin (token_ a) t (new_state_ a) (old_state_locks_ a) (write_locks_ a) (unapplied_changes_ a) (applied_changes_ a)
    (monitor_thread_ a).
Definition with_new_state (n : option positive) (a : AdminState) : AdminState :=
  MkAdmin (token_ a) (txn_type_ a) n (old_state_locks_ a) (write_locks_ a) (unapplied_changes_ a) (applied_changes_ a)
    (monitor_thread_ a).
Definition with_locks (old : list positive) (ws : list (positive * lock_kind)) (a : AdminState) : AdminState :=
  MkAdmin (token_ a) (txn_type_ a) (new_state_ a) old ws (unapplied_changes_ a) (applied_changes_ a) (monitor_thread_ a).
Definition with_changes (un ap : list Act) (a : AdminState) : AdminState :=
  MkAdmin (token_ a) (txn_type_ a) (new_state_ a) (old_state_locks_ a) (write_locks_ a) un ap (monitor_thread_ a).
Definition with_monitor (b : bool) (a : AdminState) : AdminState :=
  MkAdmin (token_ a) (txn_type_ a) (new_state_ a) (old_state_locks_ a) (write_locks_ a) (unapplied_changes_ a)
    (applied_changes_ a) b.

(** ** Tokens *)
(** [generate_token]: up to three pairs of random numbers. *)
Definition next_random : Adm Z := λ w,
  match rng_ w with
  | [] => Ok (inr admin_token_generation_error, w)
  | z :: zs => Ok (inl (u32 z), MkWorld (objects w) (admin w) zs (enqueued w))
  end.
Fixpoint token_attempts (n : nat) : Adm unit :=
  match n with
  | 0 => throw admin_token_generation_error
  | S n' =>
      r0 ← next_random;
      r1 ← next_random;
      let token := (r0 + 2 ^ 32 * r1)%Z in
      if decide (token ≠ INVALID_TOKEN) then adm (on_admin (with_token token)) else token_attempts n'
  end.
Definition generate_token : Adm unit := λ w,
  match token_attempts MAX_TOKEN_GENERATE_ATTEMPTS w with
  | Ok (inr e, w') => (adm (on_admin (with_token INVALID_TOKEN));; throw e) w'
  | r => r
  end.

Definition check_txn_token (token : Z) : Adm unit :=
  a ← adm get_admin;
  if decide (token_ a = INVALID_TOKEN) then throw admin_no_txn_error
  else if decide (token_ a ≠ token) then throw admin_wrong_token_error
  else mret tt.

(** ** The end of a transaction *)
(** The write locks go first: those that upgrade a read lock refer to it. *)
Definition clear_txn_state : W unit :=
  a ← get_admin;
  on_store (st_iter (λ '(x, k), unlock k x) (write_locks_ a));;
  on_store (st_iter (unlock UpgradableReadLock) (old_state_locks_ a));;
  on_admin (λ a, with_monitor false (with_token INVALID_TOKEN (with_changes [] []
    (with_new_state None (with_locks [] [] a))))).

(** ** The beginning of a transaction *)
Variable new_addr : list positive → positive.
Variable get_instance : text → option P.
Abbreviation copy_object := (copy new_addr (do_copy_properties get_instance new_addr)).

(** The loop that locks the objects of the tree, breadth first.  An object is locked at
    most once, so that the number of objects is fuel enough. *)
Fixpoint lock_tree (fuel : nat) (todo : list positive) : W unit :=
  match fuel with
  | 0 => st_fail NoFuel
  | S fuel' =>
      match todo with
      | [] => mret tt
      | x :: todo' =>
          on_store (lock UpgradableReadLock x);;
          on_admin (λ a, with_locks (old_state_locks_ a ++ [x]) (write_locks_ a) a);;
          cs ← on_store (get_children x);
          lock_tree fuel' (todo' ++ cs)
      end
  end.

(** The root of the installed tree, which [init_state] creates. *)
Variable GLOBAL_STATE : positive.

Definition txn_begin (type : TxnType) : Adm Z :=
  a ← adm get_admin;
  if decide (token_ a ≠ INVALID_TOKEN) then throw admin_duplicate_txn_error
  else
    generate_token;;
    adm (on_admin (with_type type));;
    adm (λ w, lock_tree (S (size (objects w))) [GLOBAL_STATE] w);;
    new ← adm (on_store (copy_object GLOBAL_STATE));
    adm (on_admin (with_new_state (Some new)));;
    adm (on_store (lock BlockWriteLock new));;
    adm (on_admin (λ a, with_locks (old_state_locks_ a) (write_locks_ a ++ [(new, BlockWriteLock)]) a));;
    a ← adm get_admin;
    if monitor_thread_ a then adm (st_fail AssertFail)
    else adm (on_admin (with_monitor true));; mret (token_ a).

(** ** References to objects *)
(** A lock record is the object; its lock is the one of the maps above. *)
Definition root_ref : W positive := a ← get_admin; st_lift (from_option_or UB (new_state_ a)).

Definition read_object_ref (parent : positive) (child : option positive) : W (option positive) :=
  a ← get_admin;
  match child with
  | None =>
      (* a null pointer is in neither map; the parent may have an empty slot *)
      i ← on_store (find_child None parent);
      match i with None => mret None | Some _ => st_fail UB end
  | Some x =>
      if decide (x ∈ (write_locks_ a).*1) then mret (Some x)
      else if decide (x ∈ old_state_locks_ a) then mret (Some x)
      else
        i ← on_store (find_child (Some x) parent);
        match i with
        | None => mret None
        | Some _ =>
            on_store (lock BlockWriteLock x);;
            on_admin (λ a, with_locks (old_state_locks_ a) (write_locks_ a ++ [(x, BlockWriteLock)]) a);;
            mret (Some x)
        end
  end.

Definition write_object_ref (parent : positive) (child : option positive) : W (option positive) :=
  a ← get_admin;
  match child with
  | None =>
      i ← on_store (find_child None parent);
      match i with None => mret None | Some _ => st_fail UB end
  | Some x =>
      if decide (x ∈ (write_locks_ a).*1) then mret (Some x)
      else if decide (x ∈ old_state_locks_ a) then
        if decide (txn_type_ a = TXN_COPY_ON_WRITE) then
          i ← on_store (find_child (Some x) parent);
          match i with
          | None => mret None
          | Some i =>
              y ← on_store (copy_object x);
              on_store (set_child i (Some y) parent);;
              on_store (lock BlockWriteLock y);;
              on_admin (λ a, with_locks (old_state_locks_ a) (write_locks_ a ++ [(y, BlockWriteLock)]) a);;
              mret (Some y)
          end
        else
          on_store (lock UpgradedWriteLock x);;
          on_admin (λ a, with_locks (old_state_locks_ a) (write_locks_ a ++ [(x, UpgradedWriteLock)]) a);;
          mret (Some x)
      else
        i ← on_store (find_child (Some x) parent);
        match i with
        | None => mret None
        | Some _ =>
            on_store (lock BlockWriteLock x);;
            on_admin (λ a, with_locks (old_state_locks_ a) (write_locks_ a ++ [(x, BlockWriteLock)]) a);;
            mret (Some x)
        end
  end.

(** ** Actions *)
(** [AdminAction::commit]: the result and the value that the action reports. *)
Variable commit : Act → Adm (bool * text).
(** [AdminAction::rollback], which no class overrides. *)
Definition rollback (action : Act) : W bool := mret true.

Fixpoint rollback_changes (applied : list Act) : W unit :=
  match applied with [] => mret tt | action :: l => rollback action;; rollback_changes l end.

(** [process_changes]: the values of the actions, or [None] when one failed. *)
Fixpoint process_loop (changes : list Act) : W (option (list text)) :=
  match changes with
  | [] => mret (Some [])
  | action :: rest => λ w,
      match commit action w with
      | Fault e => Fault e
      | Ok (inl (true, v), w') =>
          (on_admin (λ a, with_changes rest (applied_changes_ a ++ [action]) a);;
           vs ← process_loop rest; mret ((v ::.) <$> vs)) w'
      | Ok (_, w') =>
          (a ← get_admin;
           rollback_changes (rev (applied_changes_ a));;
           on_admin (λ a, with_changes (unapplied_changes_ a) [] a);;
           mret None) w'
      end
  end.
Definition process_changes : W (option (list text)) := a ← get_admin; process_loop (unapplied_changes_ a).

(** [txn_apply]: [None] is the empty pointer. *)
Definition txn_apply (token : Z) (action : Act) : Adm (option (Act * text)) :=
  check_txn_token token;;
  adm (on_admin (λ a, with_changes (unapplied_changes_ a ++ [action]) (applied_changes_ a) a));;
  a ← adm get_admin;
  if decide (txn_type_ a = TXN_COPY_ON_WRITE) then
    r ← adm process_changes;
    match r with
    | None => adm clear_txn_state;; mret None
    | Some vs =>
        adm (on_admin (λ a, with_changes (unapplied_changes_ a) [] a));;
        mret (Some (action, default [] (last vs)))
    end
  else mret (Some (action, [])).

Definition txn_rollback (token : Z) : Adm unit := check_txn_token token;; adm clear_txn_state.

(** [txn_commit]; the jobs of [updated] are enqueued.  The tree of classes has four levels. *)
Variable now : Z.
Definition update_all : W unit := λ w,
  match updated (on_update new_addr now) 4 GLOBAL_STATE (objects w) with
  | Ok (js, s) => Ok (tt, MkWorld s (admin w) (rng_ w) (enqueued w ++ js))
  | Fault e => Fault e
  end.
Definition txn_commit (token : Z) : Adm bool :=
  check_txn_token token;;
  r ← adm process_changes;
  match r with
  | None => adm clear_txn_state;; mret false
  | Some _ =>
      a ← adm get_admin;
      if decide (GLOBAL_STATE ∈ old_state_locks_ a) then
        adm (on_store (lock UpgradedWriteLock GLOBAL_STATE));;
        new ← adm (st_lift (from_option_or UB (new_state_ a)));
        adm (on_store (global_apply new GLOBAL_STATE));;
        adm (on_store (unlock UpgradedWriteLock GLOBAL_STATE));;
        adm clear_txn_state;;
        adm update_all;;
        mret true
      else adm (st_fail UB)
  end.
End AdminState.
