(* ===== verification/AdminActions.v ===== *)
(** * Administration actions (portal/server/src/admin/admin_net.cpp, admin_view.cpp)

    The requests that change the network and the views, as the programs that their
    [commit] functions are: they take references to objects from the transaction and run
    the operations of the objects. *)
From S2P Require Import Prelude StdMap Double IpAddr Pid Locking PrefixTable ServerObject.
From S2P Require Import PidMap PidMatrix PidAggregation NetState PidRouting ViewUpdate.
From S2P Require Import JobQueue DistObj Views AdminState.

(** The classes that derive from [AdminAction]. *)
Inductive AdminAction :=
  | AdminNetNodeAdd (node : text) (external : bool)
  | AdminNetNodeDelete (node : text)
  | AdminNetLinkAdd (link src dst : text)
  | AdminNetLinkDelete (link : text)
  | AdminViewAdd (view : text)
  | AdminViewDelete (view : text)
  | AdminViewPDistanceUpdate (view : text)
  | AdminViewAddPID (view pid : text) (pid_obj : PID)
  | AdminViewDeletePID (view pid : text)
  | AdminViewAddPIDLink (view link src dst : text)
  | AdminViewDeletePIDLink (view link : text)
  | AdminViewAddPIDPrefixes (view pid : text) (prefixes : list IPPrefix)
  | AdminViewDeletePIDPrefixes (view pid : text) (prefixes : list IPPrefix)
  | AdminViewClearPIDPrefixes (view pid : text)
  | AdminViewAddPIDNodes (view pid : text) (nodes : NetVertexNameSet)
  | AdminViewDeletePIDNodes (view pid : text) (nodes : NetVertexNameSet)
  | AdminViewClearPIDNodes (view pid : text)
  | AdminViewSetLinkCost (view link : text) (cost : double)
  | AdminViewSetLinkWeight (view link : text) (weight : double)
  | AdminViewPropGet (view prop : text)
  | AdminViewPropSet (view prop value : text).

Section AdminActions.
Context {M : Type} `{SharedMutex M} {P T : Type} `{PrefixTable PID T} `{!OptPluginBase M P}.
Variable new_addr : list positive → positive.
Variable get_instance : text → option P.
(** Parameters of the update of a view. *)
Variable visit : PinnedPIDSet → list PinnedPID.
Variable dijkstra_shortest_paths :
  NetGraph → NetVertex → gmap NetVertex nat → gmap positive double → outcome (gmap NetVertex NetVertex).
(** [boost::lexical_cast]; [None] is [bad_lexical_cast]. *)
Variable cast_double : text → option double.
Variable cast_bool : text → option bool.
Variable cast_unsigned : text → option Z.
Variable print_double : double → text.
Variable print_bool : bool → text.
Variable print_unsigned : Z → text.

Abbreviation World := (World (M := M) (P := P) (T := T) (Act := AdminAction)).
Abbreviation W := (ST World).
Abbreviation Adm := (Adm (M := M) (P := P) (T := T) (Act := AdminAction)).
Abbreviation Store := (store M (Props M P T)).

Definition str (s : string) : text := String.list_ascii_of_string s.

(** ** References to the parts of the state *)
(** The object of a lock record, which must not be null. *)
Definition ref {A} (m : W (option A)) : Adm A := r ← adm m; adm (st_lift (from_option_or UB r)).
Definition child_ptr (i : nat) (a : positive) : W (option positive) := on_store (get_child i a).

Definition read_child (i : nat) (parent : positive) : Adm positive :=
  c ← adm (child_ptr i parent); ref (read_object_ref parent c).
Definition write_child (i : nat) (parent : positive) : Adm positive :=
  c ← adm (child_ptr i parent); ref (write_object_ref new_addr get_instance parent c).

Definition get_net_read : Adm positive := g ← adm root_ref; read_child CHILD_IDX_NET g.
Definition get_net_write : Adm positive := g ← adm root_ref; write_child CHILD_IDX_NET g.
Definition get_views_read : Adm positive := g ← adm root_ref; read_child CHILD_IDX_VIEWS g.
Definition get_views_write : Adm positive := g ← adm root_ref; write_child CHILD_IDX_VIEWS g.

Definition get_view_read (view : text) : Adm positive :=
  views ← get_views_read;
  v ← adm (on_store (registry_get view views));
  match v with
  | None => throw admin_invalid_view
  | Some _ => ref (read_object_ref views v)
  end.
Definition get_view_write (view : text) : Adm positive :=
  views ← get_views_write;
  v ← adm (on_store (registry_get view views));
  match v with
  | None => throw admin_invalid_view
  | Some _ => ref (write_object_ref new_addr get_instance views v)
  end.

(** The children of a view. *)
Definition view_child_read (i : nat) (view : text) : Adm positive := v ← get_view_read view; read_child i v.
Definition view_child_write (i : nat) (view : text) : Adm positive := v ← get_view_write view; write_child i v.

Definition lookup_pid (view name : text) : Adm PID :=
  v ← get_view_read view;
  view_child_read CHILD_IDX_AGGREGATION view;;
  result ← adm (on_store (view_lookup_pid name v));
  if is_invalid result then throw admin_invalid_pid else mret result.

(** Run an operation of an object, or read it. *)
Definition run {A} (a : positive) (m : ST (Server M (Props M P T)) A) : Adm A := adm (on_store (on_object a m)).
Definition look {A} (a : positive) (m : ST (Server M (Props M P T)) A) : Adm A := adm (on_store (read_object a m)).

(** ** The network *)
Definition net_node_add (node : text) (external : bool) : Adm bool :=
  net ← get_net_write;
  run net (of_net ('(ret, v) ← add_node new_addr node;
                   if ret : bool then set_external v external;; mret true else mret false)).

Definition net_node_delete (node : text) : Adm bool :=
  net ← get_net_write; run net (of_net (remove_node_name node)).

Definition net_link_add (link src dst : text) : Adm bool :=
  net ← get_net_write;
  v_src ← look net (of_net (get_node src));
  match v_src with
  | None => mret false
  | Some v_src =>
      v_dst ← look net (of_net (get_node dst));
      match v_dst with
      | None => mret false
      | Some v_dst =>
          e ← run net (of_net (add_edge new_addr v_src v_dst));
          match e with
          | None => mret false
          | Some e => run net (of_net (set_edge_name e link));; mret true
          end
      end
  end.

Definition net_link_delete (link : text) : Adm bool :=
  net ← get_net_write;
  e ← look net (of_net (get_edge_by_name link));
  match e with
  | None => mret false
  | Some e => run net (of_net (remove_edge e));; mret true
  end.

(** ** Views *)
Definition view_add (view : text) : Adm bool :=
  views ← get_views_write; adm (on_store (registry_add new_addr view views)).
Definition view_delete (view : text) : Adm bool :=
  views ← get_views_write; adm (on_store (registry_remove view views)).

(** The view that an update works on. *)
Definition view_of (v : positive) : ST Store (View M P) :=
  ov ← obj v;
  d ← st_lift (from_option_or UB (to_view (props ov)));
  agg ← child_of CHILD_IDX_AGGREGATION v; oagg ← obj agg; dagg ← st_lift (from_option_or UB (to_aggregation (props oagg)));
  rt ← child_of CHILD_IDX_INTRA_ROUTING v; ort ← obj rt; drt ← st_lift (from_option_or UB (to_routing (props ort)));
  ln ← child_of CHILD_IDX_LINK_PDISTANCES v; oln ← obj ln; dln ← st_lift (from_option_or UB (to_sparse (props oln)));
  mret (MkView (local ov) (vd_plugin_inst d) (vd_update_interval d) (vd_extra_node_action d)
          (vd_default_intrapid_pdistance d) (vd_default_interpid_pdistance d) (vd_default_interdomain_pdistance d)
          (vd_default_pidlink_pdistance d) (vd_interdomain_includes_intradomain d)
          (MkServer (local oagg) dagg) (MkServer (local ort) drt) (MkServer (local oln) dln)
          (PIDMatrix_new 0) (PIDMatrix_new 0)).
Definition net_of (n : positive) : ST Store (NetState (M := M)) :=
  o ← obj n; d ← st_lift (from_option_or UB (to_net (props o))); mret (MkServer (local o) d).

(** [ViewUpdateDirect::do_update] on the objects: the new matrices become children, and
    their write locks end with the update. *)
Definition update_view (net v : positive) : ST Store Z :=
  state ← net_of net;
  view ← view_of v;
  r ← st_lift (compute_result new_addr visit dijkstra_shortest_paths state view);
  match r with
  | None => mret 0%Z
  | Some (intra, inter, plugin) =>
      on_object v (of_view (d ← so_get; so_put (with_plugin (vd_plugin_name d) plugin d)));;
      i1 ← alloc_server new_addr (inj_server PIDMatrixP intra);
      set_child CHILD_IDX_INTRA_PDISTANCES (Some i1) v;;
      i2 ← alloc_server new_addr (inj_server SparsePIDMatrixP inter);
      set_child CHILD_IDX_INTER_PDISTANCES (Some i2) v;;
      unlock BlockWriteLock i2;;
      unlock BlockWriteLock i1;;
      mret (update_interval_ view)
  end.
Definition view_pdistance_update (view : text) : Adm bool :=
  net ← get_net_read;
  get_views_write;;
  v ← get_view_write view;
  view_child_read CHILD_IDX_AGGREGATION view;;
  view_child_read CHILD_IDX_AGGREGATION view;;
  view_child_read CHILD_IDX_INTRA_ROUTING view;;
  view_child_read CHILD_IDX_LINK_PDISTANCES view;;
  interval ← adm (on_store (update_view net v));
  mret (bool_decide (interval ≠ 0%Z)).

(** ** PIDs of a view *)
Definition view_add_pid_action (view pid : text) (pid_obj : PID) : Adm bool :=
  v ← get_view_write view;
  view_child_write CHILD_IDX_AGGREGATION view;;
  view_child_write CHILD_IDX_INTRA_ROUTING view;;
  view_child_write CHILD_IDX_LINK_PDISTANCES view;;
  adm (on_store (view_add_pid pid pid_obj v)).

Definition view_delete_pid_action (view pid : text) : Adm bool :=
  v ← get_view_write view;
  view_child_write CHILD_IDX_AGGREGATION view;;
  view_child_write CHILD_IDX_INTRA_ROUTING view;;
  view_child_write CHILD_IDX_LINK_PDISTANCES view;;
  p ← lookup_pid view pid;
  adm (on_store (view_remove_pid p v)).

(** An operation of the prefixes with every prefix of a list; the results are ignored. *)
Fixpoint each_prefix (f : IPPrefix → ST (Server M (Props M P T)) bool) (m : positive) (l : list IPPrefix) : Adm unit :=
  match l with [] => mret tt | p :: l' => run m (f p);; each_prefix f m l' end.
Definition view_add_prefixes (view pid : text) (prefixes : list IPPrefix) : Adm bool :=
  m ← view_child_write CHILD_IDX_PREFIXES view;
  p ← lookup_pid view pid;
  each_prefix (λ prefix, of_map (PIDMap_add prefix p)) m prefixes;;
  mret true.
Definition view_delete_prefixes (view pid : text) (prefixes : list IPPrefix) : Adm bool :=
  m ← view_child_write CHILD_IDX_PREFIXES view;
  p ← lookup_pid view pid;
  each_prefix (λ prefix, of_map (PIDMap_remove prefix p)) m prefixes;;
  mret true.
Definition view_clear_prefixes (view pid : text) : Adm bool :=
  m ← view_child_write CHILD_IDX_PREFIXES view;
  p ← lookup_pid view pid;
  run m (of_map (PIDMap_remove_pid p)).

Definition view_add_nodes (view pid : text) (nodes : NetVertexNameSet) : Adm bool :=
  p ← lookup_pid view pid;
  if is_invalid p then mret false
  else
    agg ← view_child_write CHILD_IDX_AGGREGATION view;
    run agg (of_aggregation (add_vertices p nodes)).
Definition view_delete_nodes (view pid : text) (nodes : NetVertexNameSet) : Adm bool :=
  agg ← view_child_write CHILD_IDX_AGGREGATION view;
  p ← lookup_pid view pid;
  run agg (of_aggregation (remove_vertices p nodes)).
Definition view_clear_nodes (view pid : text) : Adm bool :=
  agg ← view_child_write CHILD_IDX_AGGREGATION view;
  p ← lookup_pid view pid;
  run agg (of_aggregation (clear_vertices p)).

(** ** Links of a view *)
Definition view_set_link_cost (view link : text) (cost : double) : Adm bool :=
  agg ← view_child_read CHILD_IDX_AGGREGATION view;
  ln ← view_child_write CHILD_IDX_LINK_PDISTANCES view;
  l ← look agg (of_aggregation (get_link link));
  match l with
  | None => mret false
  | Some (src, dst) => run ln (of_sparse (set_by_pid src dst cost))
  end.
Definition view_set_link_weight (view link : text) (weight : double) : Adm bool :=
  agg ← view_child_read CHILD_IDX_AGGREGATION view;
  rt ← view_child_write CHILD_IDX_INTRA_ROUTING view;
  l ← look agg (of_aggregation (get_link link));
  match l with
  | None => mret false
  | Some (src, dst) => run rt (of_routing (set_weight src dst weight))
  end.
(** The arguments of the call are evaluated from the last to the first or the other way
    round; the lookups commute. *)
Definition view_add_link (view link src dst : text) : Adm bool :=
  agg ← view_child_write CHILD_IDX_AGGREGATION view;
  s ← lookup_pid view src;
  d ← lookup_pid view dst;
  run agg (of_aggregation (define_link link s d)).
Definition view_delete_link (view link : text) : Adm bool :=
  agg ← view_child_write CHILD_IDX_AGGREGATION view;
  run agg (of_aggregation (undefine_link link)).

(** ** Properties of a view *)
Definition view_prop_get (view prop : text) : Adm (bool * text) :=
  v ← get_view_read view;
  d ← look v (of_view so_get);
  mret (if decide (prop = str "default_interpid") then (true, print_double (vd_default_interpid_pdistance d))
        else if decide (prop = str "default_intrapid") then (true, print_double (vd_default_intrapid_pdistance d))
        else if decide (prop = str "default_pidlink") then (true, print_double (vd_default_pidlink_pdistance d))
        else if decide (prop = str "default_interdomain") then (true, print_double (vd_default_interdomain_pdistance d))
        else if decide (prop = str "interdomain_includes_intradomain")
             then (true, print_bool (vd_interdomain_includes_intradomain d))
        else if decide (prop = str "update_interval") then (true, print_unsigned (vd_update_interval d))
        else if decide (prop = str "pid_ttl") then (true, print_unsigned (vd_pid_ttl d))
        else if decide (prop = str "pdistance_ttl") then (true, print_unsigned (vd_pdistance_ttl d))
        else (false, [])).

(** Set a property from a value that may not be one. *)
Definition set_cast {A} (o : option A) (f : A → ST (Server M (ViewData P)) unit) (v : positive) : Adm bool :=
  match o with None => mret false | Some x => run v (of_view (f x));; mret true end.
Definition view_prop_set (view prop value : text) : Adm bool :=
  v ← get_view_write view;
  if decide (prop = str "default_interpid") then set_cast (cast_double value) set_default_interpid_pdistance v
  else if decide (prop = str "default_intrapid") then set_cast (cast_double value) set_default_intrapid_pdistance v
  else if decide (prop = str "default_pidlink") then set_cast (cast_double value) set_default_pidlink_pdistance v
  else if decide (prop = str "default_interdomain") then set_cast (cast_double value) set_default_interdomain_pdistance v
  else if decide (prop = str "interdomain_includes_intradomain")
       then set_cast (cast_bool value) set_interdomain_includes_intradomain v
  else if decide (prop = str "update_interval") then set_cast (cast_unsigned value) set_update_interval v
  else if decide (prop = str "pid_ttl") then set_cast (cast_unsigned value) set_pid_ttl v
  else if decide (prop = str "pdistance_ttl") then set_cast (cast_unsigned value) set_pdistance_ttl v
  else mret false.

(** ** [commit] *)
Definition plain (m : Adm bool) : Adm (bool * text) := b ← m; mret (b, []).
Definition commit (action : AdminAction) : Adm (bool * text) :=
  match action with
  | AdminNetNodeAdd node external => plain (net_node_add node external)
  | AdminNetNodeDelete node => plain (net_node_delete node)
  | AdminNetLinkAdd link src dst => plain (net_link_add link src dst)
  | AdminNetLinkDelete link => plain (net_link_delete link)
  | AdminViewAdd view => plain (view_add view)
  | AdminViewDelete view => plain (view_delete view)
  | AdminViewPDistanceUpdate view => plain (view_pdistance_update view)
  | AdminViewAddPID view pid pid_obj => plain (view_add_pid_action view pid pid_obj)
  | AdminViewDeletePID view pid => plain (view_delete_pid_action view pid)
  | AdminViewAddPIDLink view link src dst => plain (view_add_link view link src dst)
  | AdminViewDeletePIDLink view link => plain (view_delete_link view link)
  | AdminViewAddPIDPrefixes view pid prefixes => plain (view_add_prefixes view pid prefixes)
  | AdminViewDeletePIDPrefixes view pid prefixes => plain (view_delete_prefixes view pid prefixes)
  | AdminViewClearPIDPrefixes view pid => plain (view_clear_prefixes view pid)
  | AdminViewAddPIDNodes view pid nodes => plain (view_add_nodes view pid nodes)
  | AdminViewDeletePIDNodes view pid nodes => plain (view_delete_nodes view pid nodes)
  | AdminViewClearPIDNodes view pid => plain (view_clear_nodes view pid)
  | AdminViewSetLinkCost view link cost => plain (view_set_link_cost view link cost)
  | AdminViewSetLinkWeight view link weight => plain (view_set_link_weight view link weight)
  | AdminViewPropGet view prop => view_prop_get view prop
  | AdminViewPropSet view prop value => plain (view_prop_set view prop value)
  end.
End AdminActions.
