(* ===== verification/AdminSpec.v ===== *)
(** * What a transaction may touch

    A transaction in copy-on-write mode changes only the objects that it created: this file
    proves that all the actions and the functions of AdminState.v keep the objects of the
    installed tree, apart from the read locks of the transaction and the index of a
    routing, which [PIDRouting::do_copy_properties] spoils. *)
From S2P Require Import Prelude StdMap Double IpAddr Pid Locking PrefixTable ServerObject.
From S2P Require Import PidMap PidMatrix PidAggregation NetState PidRouting ViewUpdate.
From S2P Require Import JobQueue DistObj Views AdminState AdminActions.

(** ** Operations that leave the lock of their object alone *)
Section keeps.
Context {M : Type} `{SharedMutex M} {D : Type}.

Definition keeps {A} (m : ST (Server M D) A) : Prop := ∀ s r s', m s = Ok (r, s') →
  mutex_ (so_object s') = mutex_ (so_object s) ∧ writing_ (so_object s') = writing_ (so_object s).

Lemma keeps_ret {A} (a : A) : keeps (mret a).
Proof. by intros s r s' [= <- <-]. Qed.
Lemma keeps_bind {A B} (m : ST (Server M D) A) (f : A → ST (Server M D) B) :
  keeps m → (∀ a, keeps (f a)) → keeps (m ≫= f).
Proof.
  intros Hm Hf s r s' (a & s1 & E1 & E2)%st_bind_inv. destruct (Hm _ _ _ E1) as [? ?], (Hf _ _ _ _ E2) as [? ?].
  split; congruence.
Qed.
Lemma keeps_get : keeps so_get.
Proof. by intros s r s' [= <- <-]. Qed.
Lemma keeps_put d : keeps (so_put d).
Proof. by intros s r s' [= <- <-]. Qed.
Lemma keeps_lift {A} (o : outcome A) : keeps (st_lift o).
Proof. intros s r s'. unfold st_lift. destruct o; [|done]. by intros [= <- <-]. Qed.
Lemma keeps_changed : keeps so_changed.
Proof.
  intros s r s'. unfold so_changed, changed. destruct (writing_ (so_object s)) eqn:E; [|done]. cbn [negb].
  destruct (changed_fired_ (so_object s)); intros [= <- <-]; cbn; by rewrite ?E.
Qed.
Lemma keeps_data {A} (m : ST D A) : keeps (on_data m).
Proof. intros s r s'. unfold on_data. destruct (m (so_data s)) as [[a d]|e]; [|done]. by intros [= <- <-]. Qed.
Lemma keeps_iter {A} (f : A → ST (Server M D) unit) l : (∀ a, keeps (f a)) → keeps (st_iter f l).
Proof. intros Hf. induction l as [|a l IH]; [apply keeps_ret|]. by apply keeps_bind. Qed.
Lemma keeps_report b : keeps (so_report b).
Proof. apply keeps_bind; [|intros; apply keeps_ret]. destruct b; [apply keeps_changed|apply keeps_ret]. Qed.
End keeps.

Create HintDb keeps discriminated.
Ltac intro_only := match goal with |- ∀ _, _ => intros ? end.
#[export] Hint Resolve keeps_ret keeps_get keeps_put keeps_lift keeps_changed keeps_data keeps_report : keeps.
Ltac keeps_tac := repeat first
  [ intro_only | progress auto with keeps | apply keeps_bind | apply keeps_iter | case_match ].

Section keeps_ops.
Context {M : Type} `{SharedMutex M}.

Lemma as_class_keeps {P T E A} (prj : Props M P T → option E) inj (m : ST (Server M E) A) : keeps m → keeps (as_class prj inj m).
Proof.
  intros Hm s r s'. unfold as_class. destruct (prj (so_data s)) as [d|]; [|done].
  destruct (m (MkServer (so_object s) d)) as [[a s1]|e] eqn:E'; [|done]. intros [= <- <-]. cbn. exact (Hm _ _ _ E').
Qed.

Lemma agg_add_keeps n p vs : keeps (agg_add (M := M) n p vs).
Proof. unfold agg_add, has_pid, has_name. keeps_tac. Qed.
Lemma agg_remove_keeps p : keeps (agg_remove (M := M) p).
Proof. unfold agg_remove. keeps_tac. Qed.
Lemma update_vertices_keeps f p : keeps (update_vertices (M := M) f p).
Proof. unfold update_vertices. keeps_tac. Qed.
Lemma define_link_keeps n s d : keeps (define_link (M := M) n s d).
Proof. unfold define_link. keeps_tac. Qed.
Lemma undefine_link_keeps n : keeps (undefine_link (M := M) n).
Proof. unfold undefine_link. keeps_tac. Qed.
Lemma set_pids_keeps l : keeps (set_pids (M := M) l).
Proof. unfold set_pids. keeps_tac. Qed.
Lemma add_pid_keeps p : keeps (add_pid (M := M) p).
Proof. unfold add_pid. keeps_tac. Qed.
Lemma remove_pid_keeps p : keeps (remove_pid (M := M) p).
Proof. unfold remove_pid. keeps_tac. Qed.
Lemma set_by_pid_keeps s d v : keeps (set_by_pid (M := M) s d v).
Proof. unfold set_by_pid, set_. keeps_tac. Qed.
Lemma routing_add_pid_keeps p : keeps (routing_add_pid (M := M) p).
Proof. unfold routing_add_pid, on_weights. keeps_tac. Qed.
Lemma routing_remove_pid_keeps os p : keeps (routing_remove_pid (M := M) os p).
Proof.
  unfold routing_remove_pid, on_weights, append_static_route_ptrs, remove_static_route_ptrs_set, remove_static_route_ptrs. keeps_tac.
Qed.
Lemma set_weight_keeps s d v : keeps (set_weight (M := M) s d v).
Proof. unfold set_weight, on_weights. keeps_tac. Qed.
Lemma on_graph_keeps f : keeps (on_graph (M := M) f).
Proof. unfold on_graph. keeps_tac. Qed.
Lemma on_names_keeps f : keeps (on_names (M := M) f).
Proof. unfold on_names. keeps_tac. Qed.
Lemma on_edge_names_keeps f : keeps (on_edge_names (M := M) f).
Proof. unfold on_edge_names. keeps_tac. Qed.
Hint Resolve on_graph_keeps on_names_keeps on_edge_names_keeps : keeps.
Lemma add_node_keeps na n : keeps (add_node (M := M) na n).
Proof. unfold add_node, get_node. keeps_tac. Qed.
Lemma set_external_keeps v b : keeps (set_external (M := M) v b).
Proof. unfold set_external. keeps_tac. Qed.
Lemma remove_node_name_keeps n : keeps (remove_node_name (M := M) n).
Proof. unfold remove_node_name, get_node, remove_node, get_name, read_graph. keeps_tac. Qed.
Lemma add_edge_keeps na s d : keeps (add_edge (M := M) na s d).
Proof. unfold add_edge, set_traffic, set_capacity. keeps_tac. Qed.
Lemma set_edge_name_keeps e n : keeps (set_edge_name (M := M) e n).
Proof. unfold set_edge_name, get_edge_name, read_graph. keeps_tac. Qed.
Lemma refresh_names_keeps : keeps (refresh_names (M := M)).
Proof. unfold refresh_names. keeps_tac. Qed.
Lemma view_put_keeps {P} (f : ViewData P → ViewData P) : keeps (view_put (M := M) f).
Proof. unfold view_put. keeps_tac. Qed.
Lemma set_plugin_keeps {P} (gi : text → option P) n : keeps (set_plugin (M := M) gi n).
Proof. unfold set_plugin. keeps_tac. Qed.
End keeps_ops.
#[export] Hint Resolve as_class_keeps agg_add_keeps agg_remove_keeps update_vertices_keeps define_link_keeps
  undefine_link_keeps add_pid_keeps remove_pid_keeps set_by_pid_keeps routing_add_pid_keeps routing_remove_pid_keeps
  set_weight_keeps on_graph_keeps add_node_keeps set_external_keeps remove_node_name_keeps add_edge_keeps
  set_edge_name_keeps refresh_names_keeps view_put_keeps set_plugin_keeps : keeps.

(** ** Reading the store *)
Section reads.
Context {M : Type} `{SharedMutex M} {P T : Type}.
Abbreviation Store := (store M (Props M P T)).
Implicit Types s : Store.

(** Reading leaves the store alone. *)
Definition reads {A} (m : ST Store A) : Prop := ∀ s r s', m s = Ok (r, s') → s' = s.
Lemma reads_bind {A B} (m : ST Store A) (f : A → ST Store B) : reads m → (∀ a, reads (f a)) → reads (m ≫= f).
Proof. intros Hm Hf s r s' (a & s1 & E1 & E2)%st_bind_inv. by rewrite (Hf _ _ _ _ E2), (Hm _ _ _ E1). Qed.
Lemma reads_ret {A} (x : A) : reads (mret x).
Proof. by intros s r s' [= _ <-]. Qed.
Lemma reads_lift {A} (o : outcome A) : reads (st_lift o).
Proof. intros s r s'. unfold st_lift. destruct o; [|done]. by intros [= _ <-]. Qed.
Lemma reads_obj a : reads (obj a).
Proof. by intros s r s' [_ ->]%obj_inv. Qed.
Lemma reads_object {A} a (m : ST (Server M (Props M P T)) A) : reads (read_object a m).
Proof. by intros s r s' [-> _]%read_object_inv. Qed.
Lemma reads_child i a : reads (get_child i a).
Proof. apply reads_bind; [apply reads_obj|intros; apply reads_ret]. Qed.
Lemma reads_find c a : reads (find_child c a).
Proof. apply reads_bind; [apply reads_obj|intros; apply reads_ret]. Qed.
Lemma reads_child_of i a : reads (child_of i a).
Proof. apply reads_bind; [apply reads_child|intros; apply reads_lift]. Qed.
End reads.
Ltac reads_tac := repeat lazymatch goal with
  | |- ∀ _, _ => intros ?
  | |- reads (mret _) => apply reads_ret
  | |- reads (mbind _ _) => apply reads_bind
  | |- reads (st_lift _) => apply reads_lift
  | |- reads (obj _) => apply reads_obj
  | |- reads (read_object _ _) => apply reads_object
  | |- reads (get_child _ _) => apply reads_child
  | |- reads (child_of _ _) => apply reads_child_of
  | |- reads (find_child _ _) => apply reads_find
  | |- reads _ => case_match
  end.

(** ** The objects of the installed tree *)
Section txn.
Context {M : Type} `{SharedMutexLaws M} {P T : Type} `{PrefixTable PID T} `{!OptPluginBase M P}.
Variable new_addr : list positive → positive.
Hypothesis new_addr_fresh : ∀ l, new_addr l ∉ l.
Variable get_instance : text → option P.

Abbreviation Obj := (DistributedObject M (Props M P T)).
Abbreviation Store := (store M (Props M P T)).
Implicit Types (s : Store) (o : Obj).

(** Equal, except for the index of a routing. *)
Definition same_props (p q : Props M P T) : Prop :=
  p = q ∨ ∃ d ps, p = PIDRoutingP d ∧ q = PIDRoutingP (with_routes (static_routes_ d) ps d).

Lemma same_props_trans p q r : same_props p q → same_props q r → same_props p r.
Proof.
  intros [->|(d & ps & E1 & E2)] [E3|(d' & ps' & E3 & E4)]; subst; [by left|right; eauto|right; eauto|].
  injection E3 as <-. right. by exists d, ps'.
Qed.

(** The object [o] is [o0] apart from an upgradable read lock. *)
Record kept (locked : bool) o0 o : Prop := {
  kp_children : children_ o = children_ o0;
  kp_props : same_props (props o0) (props o);
  kp_local : (writing_ (local o), changed_fired_ (local o), version_ (local o)) =
    (writing_ (local o0), changed_fired_ (local o0), version_ (local o0));
  kp_owners : owners (mutex_ (local o)) =
    (shared_owners (mutex_ (local o0)), locked, exclusive_owned (mutex_ (local o0)))
}.

Variables (s0 : Store) (old : list positive).

(** The objects of the tree are kept; those under write locks are others. *)
Record sinv (L : list positive) s : Prop := {
  si_old a : a ∈ old → ∃ o0 o, s0 !! a = Some o0 ∧ s !! a = Some o ∧ kept true o0 o;
  si_write a : a ∈ L → a ∉ old ∧ ∃ o, s !! a = Some o ∧ writing_ (local o) = true
}.

Definition sp {A} (L : list positive) (m : ST Store A) (Q : A → Prop) : Prop :=
  ∀ s r s', sinv L s → m s = Ok (r, s') → sinv L s' ∧ Q r.
Definition foreign (L : list positive) (a : positive) : Prop := a ∉ old ∧ a ∉ L.

Lemma sp_bind {A B} L (m : ST Store A) (f : A → ST Store B) Q R :
  sp L m Q → (∀ a, Q a → sp L (f a) R) → sp L (m ≫= f) R.
Proof.
  intros Hm Hf s r s' I (a & s1 & E1 & E2)%st_bind_inv. destruct (Hm _ _ _ I E1) as [I1 HQ]. by eapply Hf.
Qed.
Lemma sp_ret {A} L (x : A) (Q : A → Prop) : Q x → sp L (mret x) Q.
Proof. intros HQ s r s' I [= <- <-]. done. Qed.
Lemma sp_lift {A} L (o : outcome A) : sp L (st_lift o) (λ _, True).
Proof. intros s r s' I. unfold st_lift. destruct o; [|done]. by intros [= <- <-]. Qed.
Lemma sp_fail {A} L e (Q : A → Prop) : sp L (st_fail e) Q.
Proof. done. Qed.
Lemma sp_weaken {A} L (m : ST Store A) (Q R : A → Prop) : sp L m Q → (∀ a, Q a → R a) → sp L m R.
Proof. intros Hm HR s r s' I E. destruct (Hm _ _ _ I E). auto. Qed.

Lemma sp_reads {A} L (m : ST Store A) : reads m → sp L m (λ _, True).
Proof. intros Hm s r s' I E. by rewrite (Hm _ _ _ E). Qed.

(** Changing an object. *)
Lemma sinv_insert_mine L s a o : a ∈ L → writing_ (local o) = true → sinv L s → sinv L (<[a := o]> s).
Proof.
  intros Ha Hw [I1 I2]. destruct (I2 a Ha) as [Ho _]. split.
  - intros b Hb. destruct (I1 b Hb) as (o0 & ob & E0 & Eb & K). exists o0, ob. by rewrite lookup_insert_ne by congruence.
  - intros b Hb. destruct (I2 b Hb) as [Hbo (ob & Eb & Hwb)]. split; [done|]. destruct (decide (a = b)) as [<-|Hne].
    + exists o. by rewrite lookup_insert_eq.
    + exists ob. by rewrite lookup_insert_ne.
Qed.
Lemma sinv_insert_foreign L s a o : foreign L a → sinv L s → sinv L (<[a := o]> s).
Proof.
  intros [Ho HL] [I1 I2]. split.
  - intros b Hb. destruct (I1 b Hb) as (o0 & ob & E0 & Eb & K). exists o0, ob. by rewrite lookup_insert_ne by congruence.
  - intros b Hb. destruct (I2 b Hb) as [Hbo (ob & Eb & Hwb)]. split; [done|]. exists ob. by rewrite lookup_insert_ne by congruence.
Qed.

Lemma sp_object {A} L a (m : ST (Server M (Props M P T)) A) : a ∈ L → keeps m → sp L (on_object a m) (λ _, True).
Proof.
  intros Ha Hm s r s' I (o & s1 & Ea & Em & ->)%on_object_inv. split; [|done]. apply sinv_insert_mine; [done| |done].
  destruct (si_write _ _ I a Ha) as [_ (o' & Ea' & Hw)]. rewrite Ea in Ea'. injection Ea' as <-.
  destruct (Hm _ _ _ Em) as [_ E]. cbn in *. congruence.
Qed.
Lemma sp_object_foreign {A} L a (m : ST (Server M (Props M P T)) A) : foreign L a → sp L (on_object a m) (λ _, True).
Proof.
  intros Ha s r s' I (o & s1 & Ea & Em & ->)%on_object_inv. split; [|done]. by apply sinv_insert_foreign.
Qed.

Lemma sp_put L a o' : (a ∈ L ∧ writing_ (local o') = true) ∨ foreign L a → sp L (put_obj a o') (λ _, True).
Proof.
  intros HA s r s' I [= <- <-]. split; [|done].
  destruct HA as [[Ha Hw]|Ha]; [by apply sinv_insert_mine|by apply sinv_insert_foreign].
Qed.
Lemma sp_set_child L i c a : a ∈ L ∨ foreign L a → sp L (set_child i c a) (λ _, True).
Proof.
  intros HA s r s' I (o & s1 & [Ea ->]%obj_inv & E)%st_bind_inv.
  assert (Hsp : sp L (put_obj a (MkDist (local o) (props o) (<[i := c]> (resized i (children_ o))));; on_object a so_changed) (λ _, True)).
  { eapply sp_bind.
    - apply sp_put. destruct HA as [Ha|Ha]; [left; split; [done|]|by right]. cbn.
      destruct (si_write _ _ I a Ha) as [_ (o' & Ea' & Hw)]. congruence.
    - intros _ _. destruct HA as [Ha|Ha]; [apply sp_object; [done|apply keeps_changed]|by apply sp_object_foreign]. }
  exact (Hsp _ _ _ I E).
Qed.

Lemma sp_alloc L o : sp L (alloc new_addr o) (foreign L).
Proof.
  intros s r s' I [= <- <-]. assert (HF : foreign L (new_addr (addrs s))).
  { pose proof (new_addr_fresh (addrs s)) as HN.
    assert (HN' : ∀ b, is_Some (s !! b) → b ≠ new_addr (addrs s)).
    { intros b [ob Eb] ->. apply HN. unfold addrs. apply list_elem_of_fmap. exists (new_addr (addrs s), ob).
      split; [done|]. by apply elem_of_map_to_list. }
    split; intros Hx.
    - destruct (si_old _ _ I _ Hx) as (? & o1 & _ & E & _). by apply (HN' _ (ex_intro _ o1 E)).
    - destruct (si_write _ _ I _ Hx) as (_ & o1 & E & _). by apply (HN' _ (ex_intro _ o1 E)). }
  split; [|done]. by apply sinv_insert_foreign.
Qed.

(** ** Copies *)
Lemma do_copy_source (s new src : Server M (Props M P T)) : do_copy_properties get_instance new_addr s = Ok (new, src) →
  so_object src = so_object s ∧ same_props (so_data s) (so_data src).
Proof.
  destruct s as [l p]. unfold do_copy_properties. cbn [so_data so_object].
  destruct p; intros E; repeat (apply outcome_bind_inv in E as (? & ? & E)); repeat case_match;
    injection E as <- <-; try (split; [done|by left]).
  match goal with H : PIDRouting_copy _ _ _ _ _ = _ |- _ => unfold PIDRouting_copy in H; rename H into EC end.
  cbn [so_data so_object] in EC. destruct (construct _ _); try done. injection EC as <- <-. cbn. split; [done|right; eauto].
Qed.

Lemma sp_copy L a : sp L (copy new_addr (do_copy_properties get_instance new_addr) a) (foreign L).
Proof.
  intros s r s' I (o & s1 & [Ea ->]%obj_inv & E)%st_bind_inv. rewrite st_lift_bind in E.
  destruct (do_copy_properties _ _ (as_server o)) as [[new src]|e] eqn:EC; [|done].
  destruct (do_copy_source _ _ _ EC) as [Eo Ep]. cbn in Eo, Ep.
  apply st_bind_inv in E as ([] & s1 & [= <-] & E). eapply sp_alloc; [|exact E]. destruct I as [I1 I2]. split.
  - intros b Hb. destruct (I1 b Hb) as (o0 & ob & E0 & Eb & K). exists o0. destruct (decide (a = b)) as [<-|Hne].
    + rewrite Ea in Eb. injection Eb as <-. exists (with_server src o). rewrite lookup_insert_eq. split_and!; [done..|].
      destruct K as [K1 K2 K3 K4]. split; cbn; rewrite ?Eo; [done|by eapply same_props_trans|done..].
    + exists ob. by rewrite lookup_insert_ne.
  - intros b Hb. destruct (I2 b Hb) as [Hbo (ob & Eb & Hwb)]. split; [done|]. destruct (decide (a = b)) as [<-|Hne].
    + exists (with_server src o). rewrite lookup_insert_eq. split; [done|]. cbn. rewrite Eo. congruence.
    + exists ob. by rewrite lookup_insert_ne.
Qed.

(** ** Views and registries *)
Ltac sp_step := lazymatch goal with
  | |- ∀ _, _ => intros ?
  | |- sp _ (mret _) _ => apply sp_ret; try done
  | |- sp _ (mbind _ _) _ => eapply sp_bind
  | |- sp _ (alloc _ _) _ => apply sp_alloc
  | |- sp _ (st_lift _) _ => apply sp_lift
  | |- sp _ (st_fail _) _ => apply sp_fail
  | |- sp _ (set_child _ _ _) _ => apply sp_set_child; auto
  | |- sp _ (on_object _ _) _ => first [apply sp_object_foreign; assumption | apply sp_object; [by auto|auto with keeps]]
  | |- sp _ (read_object _ _) _ => apply sp_reads, reads_object
  | |- sp _ (obj _) _ => apply sp_reads, reads_obj
  | |- sp _ (child_of _ _) _ => apply sp_reads, reads_child_of
  | |- sp _ (get_child _ _) _ => apply sp_reads, reads_child
  end.
Ltac sp_tac := repeat sp_step.

Lemma sp_view_new L name : sp L (View_new new_addr name) (foreign L).
Proof. unfold View_new, new_child, alloc_server, lock, unlock. sp_tac. Qed.

Lemma reads_registry_get name r : reads (registry_get (M := M) (P := P) (T := T) name r).
Proof. unfold registry_get. reads_tac. Qed.

Lemma sp_registry_add L name r : r ∈ L → sp L (registry_add new_addr name r) (λ _, True).
Proof.
  intros Hr. unfold registry_add. eapply sp_bind; [apply sp_reads, reads_obj|]. intros o _. case_match; [|by apply sp_ret].
  eapply sp_bind; [apply sp_view_new|]. intros v _. unfold of_registry. sp_tac.
  apply as_class_keeps. keeps_tac.
Qed.
Lemma sp_registry_remove L name r : r ∈ L → sp L (registry_remove name r) (λ _, True).
Proof.
  intros Hr. unfold registry_remove. eapply sp_bind; [apply sp_reads; unfold of_registry; reads_tac|]. intros vs _. case_match; sp_tac.
  apply as_class_keeps. keeps_tac.
Qed.

Variable visit : PinnedPIDSet → list PinnedPID.
Variable dijkstra : NetGraph → NetVertex → gmap NetVertex nat → gmap positive double → outcome (gmap NetVertex NetVertex).

Lemma sp_update_view L net v : v ∈ L → sp L (update_view new_addr visit dijkstra net v) (λ _, True).
Proof.
  intros Hv. unfold update_view. eapply sp_bind; [apply sp_reads; unfold net_of; reads_tac|]. intros state _.
  eapply sp_bind; [apply sp_reads; unfold view_of; reads_tac|]. intros view _.
  eapply sp_bind; [apply sp_lift|]. intros [[[intra inter] plugin]|] _; [|by apply sp_ret].
  unfold alloc_server, unlock. sp_tac. apply as_class_keeps. keeps_tac.
Qed.

(** The child at an index is not an object of the tree. *)
Definition slot_new (v : positive) (i : nat) s : Prop :=
  ∃ o, s !! v = Some o ∧ ∀ c, mjoin (children_ o !! i) = Some c → c ∉ old.

Lemma slot_new_object {A} v i a (m : ST (Server M (Props M P T)) A) s r s' :
  on_object a m s = Ok (r, s') → slot_new v i s → slot_new v i s'.
Proof.
  intros (o & s1 & Ea & _ & ->)%on_object_inv (ov & Ev & HS). destruct (decide (a = v)) as [->|Hne].
  - exists (with_server s1 o). rewrite lookup_insert_eq. split; [done|]. cbn. by simplify_eq.
  - exists ov. by rewrite lookup_insert_ne.
Qed.

Lemma object_new_inv {A} L v i (m : ST (Server M (Props M P T)) A) s c s1 r s2 :
  sinv L s → slot_new v i s → child_of i v s = Ok (c, s1) → keeps m → on_object c m s1 = Ok (r, s2) →
  sinv L s2 ∧ ∀ j, slot_new v j s → slot_new v j s2.
Proof.
  intros I (o & Ev & HS) EC Hm EO. pose proof (reads_child_of _ _ _ _ _ EC) as ->.
  assert (Ec : mjoin (children_ o !! i) = Some c).
  { unfold child_of, get_child in EC. rewrite st_bind_eq, (st_bind_Ok _ _ _ _ _ (obj_Ok v o s Ev)) in EC. cbn in EC.
    unfold deref_ptr, st_lift, from_option_or in EC. destruct (mjoin (children_ o !! i)); [|done]. by injection EC as <-. }
  specialize (HS _ Ec).
  split; [|intros j; by apply (slot_new_object v j _ _ _ _ _ EO)].
  destruct (decide (c ∈ L)) as [HL|HL]; [exact (proj1 (sp_object L c m HL Hm _ _ _ I EO))|].
  by apply (sp_object_foreign L c m (conj HS HL) _ _ _ I EO).
Qed.

Lemma view_add_pid_inv L name pid v s r s' : sinv L s → slot_new v CHILD_IDX_AGGREGATION s →
  slot_new v CHILD_IDX_INTRA_ROUTING s → slot_new v CHILD_IDX_LINK_PDISTANCES s →
  view_add_pid name pid v s = Ok (r, s') → sinv L s'.
Proof.
  intros I H2 H3 H4 E. unfold view_add_pid in E. apply st_bind_inv in E as (agg & s1 & EC & E).
  apply st_bind_inv in E as (b & s2 & EO & E).
  destruct (object_new_inv L v _ _ s _ s1 _ s2 I H2 EC (as_class_keeps _ _ _ (agg_add_keeps _ _ _)) EO) as [I2 HS].
  destruct b; [|by injection E as _ <-]. cbn [negb] in E.
  apply st_bind_inv in E as (rt & s3 & EC3 & E). apply st_bind_inv in E as (u & s4 & EO4 & E).
  destruct (object_new_inv L v _ _ s2 _ s3 _ s4 I2 (HS _ H3) EC3 (as_class_keeps _ _ _ (routing_add_pid_keeps _)) EO4) as [I4 HS4].
  apply st_bind_inv in E as (ln & s5 & EC5 & E). apply st_bind_inv in E as (u' & s6 & EO6 & [= _ <-]).
  exact (proj1 (object_new_inv L v _ _ s4 _ s5 _ s6 I4 (HS4 _ (HS _ H4)) EC5 (as_class_keeps _ _ _ (add_pid_keeps _)) EO6)).
Qed.

Lemma view_remove_pid_inv L pid v s r s' : sinv L s → slot_new v CHILD_IDX_AGGREGATION s →
  slot_new v CHILD_IDX_INTRA_ROUTING s → slot_new v CHILD_IDX_LINK_PDISTANCES s →
  view_remove_pid pid v s = Ok (r, s') → sinv L s'.
Proof.
  intros I H2 H3 H4 E. unfold view_remove_pid in E. apply st_bind_inv in E as (agg & s1 & EC & E).
  apply st_bind_inv in E as (b & s1' & ER & E). pose proof (reads_object _ _ _ _ _ ER) as ->.
  destruct b; [|injection E as _ <-; by rewrite (reads_child_of _ _ _ _ _ EC)]. cbn [negb] in E.
  apply st_bind_inv in E as (b & s2 & EO & E).
  destruct (object_new_inv L v _ _ s _ s1 _ s2 I H2 EC (as_class_keeps _ _ _ (agg_remove_keeps _)) EO) as [I2 HS].
  apply st_bind_inv in E as (rt & s3 & EC3 & E). apply st_bind_inv in E as (u & s4 & EO4 & E).
  destruct (object_new_inv L v _ _ s2 _ s3 _ s4 I2 (HS _ H3) EC3 (as_class_keeps _ _ _ (routing_remove_pid_keeps _ _)) EO4) as [I4 HS4].
  apply st_bind_inv in E as (ln & s5 & EC5 & E). apply st_bind_inv in E as (u' & s6 & EO6 & [= _ <-]).
  exact (proj1 (object_new_inv L v _ _ s4 _ s5 _ s6 I4 (HS4 _ (HS _ H4)) EC5 (as_class_keeps _ _ _ (remove_pid_keeps _)) EO6)).
Qed.

(** ** Write locks *)
Lemma lock_write_inv L x s u s' : foreign L x → sinv L s → lock BlockWriteLock x s = Ok (u, s') → sinv (L ++ [x]) s'.
Proof.
  intros HF I E. pose proof (proj1 (sp_object_foreign L x (lock_local BlockWriteLock) HF _ _ _ I E)) as [I1 I2].
  split; [done|]. intros b [Hb|Hb]%elem_of_app; [by apply I2|]. apply list_elem_of_singleton in Hb as ->.
  split; [apply HF|]. apply on_object_inv in E as (o & s1 & Ea & Em & ->). eexists. rewrite lookup_insert_eq. split; [done|]. cbn.
  unfold lock_local in Em. destruct (construct BlockWriteLock (so_object (as_server o))) as [| |l] eqn:EC; [done..|].
  injection Em as _ <-. cbn [so_object]. cbn in EC. destruct (lock_shared (mutex_ (local o))); [|done].
  unfold begin_write in EC. cbn in EC. destruct (writing_ (local o)); [done|]. by injection EC as <-.
Qed.
End txn.
