(* ===== verification/AdminTree.v ===== *)
(** * The children of the objects of a transaction

    Every child of an object of the store is in the store, and no object has the same child
    twice, so that [find_child] finds the slot that a child was read from. *)
From S2P Require Import Prelude StdMap Double IpAddr Pid Locking PrefixTable ServerObject.
From S2P Require Import PidMap PidMatrix PidAggregation NetState PidRouting ViewUpdate.
From S2P Require Import JobQueue DistObj Views AdminState AdminActions AdminSpec.

Section tree.
Context {M : Type} `{SharedMutex M} {P T : Type} `{PrefixTable PID T} `{!OptPluginBase M P}.
Variable new_addr : list positive → positive.
Hypothesis new_addr_fresh : ∀ l, new_addr l ∉ l.
Variable get_instance : text → option P.

Abbreviation Obj := (DistributedObject M (Props M P T)).
Abbreviation Store := (store M (Props M P T)).
Implicit Types (s : Store) (o : Obj).

Record wf s : Prop := {
  wf_dom a o i c : s !! a = Some o → children_ o !! i = Some (Some c) → is_Some (s !! c);
  wf_once a o i j c : s !! a = Some o → children_ o !! i = Some (Some c) → children_ o !! j = Some (Some c) → i = j
}.
(** No object has the child. *)
Definition orphan (c : positive) s : Prop := ∀ a o i, s !! a = Some o → children_ o !! i ≠ Some (Some c).

Lemma fresh_addr s : s !! new_addr (addrs s) = None.
Proof.
  destruct (s !! new_addr (addrs s)) as [o|] eqn:E; [|done]. destruct (new_addr_fresh (addrs s)).
  unfold addrs. apply list_elem_of_fmap. exists (new_addr (addrs s), o). split; [done|]. by apply elem_of_map_to_list.
Qed.

Lemma orphan_fresh s c : wf s → s !! c = None → orphan c s.
Proof. intros W Hc a o i Ea Ei. destruct (wf_dom _ W _ _ _ _ Ea Ei) as [? ?]. congruence. Qed.

Lemma resized_lookup i (l : list (option positive)) j c : resized i l !! j = Some (Some c) → l !! j = Some (Some c).
Proof. unfold resized. intros [?|[_ [E _]%lookup_replicate]]%lookup_app_Some; done. Qed.

(** An object whose children are those of an object of the store, or none. *)
Definition adopts s o : Prop := children_ o = [] ∨ ∃ a o1, s !! a = Some o1 ∧ children_ o = children_ o1.

Lemma wf_insert s a o : adopts s o → wf s → wf (<[a := o]> s).
Proof.
  intros HA W. assert (HC : ∀ b ob, <[a := o]> s !! b = Some ob → adopts s ob).
  { intros b ob. destruct (decide (a = b)) as [<-|Hne]; [rewrite lookup_insert_eq; by intros [= <-]|].
    rewrite lookup_insert_ne by done. intros Eb. right. eauto. }
  split.
  - intros b ob i c Eb Ei. destruct (decide (a = c)) as [<-|Hne]; [rewrite lookup_insert_eq; eauto|]. rewrite lookup_insert_ne by done.
    destruct (HC b ob Eb) as [E|(b' & o1 & E1 & E)]; rewrite E in Ei; [done|]. by eapply wf_dom.
  - intros b ob i j c Eb Ei Ej. destruct (HC b ob Eb) as [E|(b' & o1 & E1 & E)]; rewrite E in Ei, Ej; [done|]. by eapply wf_once.
Qed.

Lemma orphan_insert c s a o : (∀ i, children_ o !! i ≠ Some (Some c)) → orphan c s → orphan c (<[a := o]> s).
Proof.
  intros HO O b ob i. destruct (decide (a = b)) as [<-|Hne]; [rewrite lookup_insert_eq; intros [= <-]; apply HO|].
  rewrite lookup_insert_ne by done. apply O.
Qed.

(** A slot that is set to an object that is not a child yet, or emptied. *)
Lemma wf_set_slot s a o i v l p : s !! a = Some o → wf s →
  (∀ c, v = Some c → is_Some (s !! c) ∧ ∀ j, children_ o !! j ≠ Some (Some c)) →
  wf (<[a := MkDist l p (<[i := v]> (resized i (children_ o)))]> s).
Proof.
  intros Ea W HV.
  assert (HC : ∀ j c, <[i := v]> (resized i (children_ o)) !! j = Some (Some c) →
    (j = i ∧ v = Some c) ∨ (j ≠ i ∧ children_ o !! j = Some (Some c))).
  { intros j c [[<- [-> _]]|[Hne E%resized_lookup]]%list_lookup_insert_Some; [by left|by right]. }
  split.
  - intros b ob j c. destruct (decide (a = c)) as [<-|Hne]; [intros; rewrite lookup_insert_eq; eauto|].
    destruct (decide (a = b)) as [<-|Hab].
    + rewrite lookup_insert_eq. intros [= <-]. cbn. intros [[_ E]|[_ E]]%HC; rewrite lookup_insert_ne by done; [by apply HV|by eapply wf_dom].
    + rewrite !lookup_insert_ne by done. by eapply wf_dom.
  - intros b ob j k c. destruct (decide (a = b)) as [<-|Hab].
    + rewrite lookup_insert_eq. intros [= <-]. cbn. intros [[-> E]|[Hj E]]%HC [[-> E']|[Hk E']]%HC; try done.
      * by destruct (proj2 (HV c E) k).
      * by destruct (proj2 (HV c E') j).
      * by eapply wf_once.
    + rewrite lookup_insert_ne by done. by eapply wf_once.
Qed.

Lemma set_child_inv i v a s u s' : set_child i v a s = Ok (u, s') →
  ∃ o l, s !! a = Some o ∧ s' = <[a := MkDist l (props o) (<[i := v]> (resized i (children_ o)))]> s.
Proof.
  intros (o & s1 & [Ea ->]%obj_inv & E)%st_bind_inv. apply st_bind_inv in E as ([] & s1 & [= <-] & E).
  apply on_object_inv in E as (o' & s2 & Ea' & EC & ->). rewrite lookup_insert_eq in Ea'. injection Ea' as <-.
  exists o, (so_object s2). split; [done|]. rewrite insert_insert_eq. f_equal. unfold with_server. cbn. f_equal.
  unfold so_changed in EC. destruct (changed _); [|done]. by injection EC as _ <-.
Qed.

(** ** Operations *)
Definition fits {A} (m : ST Store A) : Prop := ∀ s r s', wf s → m s = Ok (r, s') → wf s'.
Lemma fits_bind {A B} (m : ST Store A) (f : A → ST Store B) : fits m → (∀ a, fits (f a)) → fits (m ≫= f).
Proof. intros Hm Hf s r s' W (a & s1 & E1 & E2)%st_bind_inv. eapply Hf; [|done]. by eapply Hm. Qed.
Lemma fits_reads {A} (m : ST Store A) : reads m → fits m.
Proof. intros Hm s r s' W E. by rewrite (Hm _ _ _ E). Qed.
Lemma fits_object {A} a (m : ST (Server M (Props M P T)) A) : fits (on_object a m).
Proof. intros s r s' W (o & s1 & Ea & _ & ->)%on_object_inv. apply wf_insert; [right; by exists a, o|done]. Qed.
Lemma fits_lock k a : fits (lock k a).
Proof. apply fits_object. Qed.
Lemma fits_unlock k a : fits (unlock k a).
Proof. apply fits_object. Qed.
Lemma fits_clear i a : fits (set_child i None a).
Proof. intros s r s' W (o & l & Ea & ->)%set_child_inv. by apply wf_set_slot. Qed.

(** A new object that becomes a child. *)
Lemma set_new_child o i a s c s1 u s2 : wf s → is_Some (s !! a) → adopts s o →
  alloc new_addr o s = Ok (c, s1) → set_child i (Some c) a s1 = Ok (u, s2) →
  wf s2 ∧ is_Some (s2 !! a) ∧ (∀ b ob, b ≠ a → s !! b = Some ob → s2 !! b = Some ob) ∧
  (∀ x, x ≠ c → orphan x s → (∀ j, children_ o !! j ≠ Some (Some x)) → orphan x s2).
Proof.
  intros W [oa Ea] HA [= <- <-] (oa' & l & Ea' & ->)%set_child_inv. set (c := new_addr (addrs s)) in *.
  pose proof (fresh_addr s) as Hc. fold c in Hc. assert (Hne : a ≠ c) by congruence.
  rewrite lookup_insert_ne in Ea' by done. rewrite Ea in Ea'. injection Ea' as <-. split_and!.
  - apply wf_set_slot; [by rewrite lookup_insert_ne|by apply wf_insert|]. intros c' [= <-]. split; [rewrite lookup_insert_eq; eauto|].
    intros j. by apply (orphan_fresh s c W Hc a).
  - rewrite lookup_insert_eq. eauto.
  - intros b ob Hb Eb. rewrite !lookup_insert_ne by congruence. done.
  - intros x Hx HO Ho. apply orphan_insert; [|by apply orphan_insert]. cbn.
    intros j [[-> [[=->] _]]|[_ E%resized_lookup]]%list_lookup_insert_Some; [done|]. by eapply HO.
Qed.
Lemma set_new_child_fits o i a s c s1 u s2 : wf s → adopts s o →
  alloc new_addr o s = Ok (c, s1) → set_child i (Some c) a s1 = Ok (u, s2) → a ≠ c → wf s2.
Proof.
  intros W HA EA ES Hne. assert (Ha : is_Some (s !! a)).
  { apply set_child_inv in ES as (oa & l & Ea & _). injection EA as <- <-. rewrite lookup_insert_ne in Ea by done. eauto. }
  by destruct (set_new_child o i a s c s1 u s2 W Ha HA EA ES) as (? & _).
Qed.

(** ** A new view *)
Record new_view v s s' : Prop := {
  nv_wf : wf s';
  nv_orphan : orphan v s';
  nv_in : is_Some (s' !! v);
  nv_kept b ob : b ≠ v → s !! b = Some ob → s' !! b = Some ob
}.
Lemma new_view_child p i v s s1 c s2 u s3 : new_view v s s1 → new_child new_addr p s1 = Ok (c, s2) →
  set_child i (Some c) v s2 = Ok (u, s3) → new_view v s s3.
Proof.
  intros [W O V K] EA ES. destruct (set_new_child (MkDist (LocalObject_new 0) p []) i v s1 c s2 u s3 W V (or_introl eq_refl) EA ES) as (W3 & V3 & K3 & O3).
  split; [done| |done|]; [|intros; apply K3; [done|by apply K]]. apply O3; [|done|done].
  injection EA as <- _. destruct V as [ov Ev]. pose proof (fresh_addr s1). congruence.
Qed.
Lemma new_view_object {A} v s s1 (m : ST (Server M (Props M P T)) A) r s2 : new_view v s s1 → on_object v m s1 = Ok (r, s2) → new_view v s s2.
Proof.
  intros [W O V K] E. pose proof (fits_object v m _ _ _ W E) as W2. apply on_object_inv in E as (o & sr & Ev & _ & ->). split; [done| | |].
  - apply orphan_insert; [|done]. intros i. exact (O v o i Ev).
  - rewrite lookup_insert_eq. eauto.
  - intros b ob Hb Eb. rewrite lookup_insert_ne by done. by apply K.
Qed.

(** One child of the constructor, and one value that is not in the store. *)
Ltac step_child E EL := apply st_bind_inv in E as (? & ? & EA & E); apply st_bind_inv in E as (? & ? & ES & E);
  pose proof (new_view_child _ _ _ _ _ _ _ _ _ EL EA ES) as EL'; clear EL EA ES; rename EL' into EL.
Ltac step_lift E := apply st_bind_inv in E as (? & ? & EX & E); pose proof (reads_lift _ _ _ _ EX); subst; clear EX.

Lemma View_new_tree name s v s' : wf s → View_new new_addr name s = Ok (v, s') → s !! v = None ∧ new_view v s s'.
Proof.
  intros W E. unfold View_new in E. apply st_bind_inv in E as (v0 & s1 & EA & E).
  assert (N : s !! v0 = None ∧ new_view v0 s s1).
  { injection EA as <- <-. pose proof (fresh_addr s) as HF. split; [done|]. split.
    - apply wf_insert; [by left|done].
    - apply orphan_insert; [done|]. by apply orphan_fresh.
    - rewrite lookup_insert_eq. eauto.
    - intros b ob Hb Eb. by rewrite lookup_insert_ne by done. }
  clear EA. destruct N as [HF N]. apply st_bind_inv in E as (u0 & s2 & EL & E). apply (new_view_object _ _ _ _ _ _ N) in EL. clear N.
  step_child E EL. step_lift E. step_child E EL. step_lift E. do 4 step_child E EL.
  apply st_bind_inv in E as (u1 & s3 & EU & E). cbn in E. injection E as <- <-. split; [done|].
  by apply (new_view_object _ _ _ _ _ _ EL) in EU.
Qed.

Lemma fits_registry_add name r : fits (registry_add new_addr name r).
Proof.
  intros s b s' W E. unfold registry_add in E. apply st_bind_inv in E as (o & s1 & [Er ->]%obj_inv & E).
  case_match; [|by injection E as _ <-]. apply st_bind_inv in E as (v & s2 & EV & E).
  destruct (View_new_tree name s v s2 W EV) as (HF & N). apply st_bind_inv in E as (u & s3 & ES & E).
  assert (W3 : wf s3).
  { apply set_child_inv in ES as (o' & l & Er' & ->). apply wf_set_slot; [done|apply (nv_wf _ _ _ N)|].
    intros c [= <-]. split; [apply (nv_in _ _ _ N)|]. intros j. by apply (nv_orphan _ _ _ N r). }
  apply st_bind_inv in E as (u' & s4 & EO & E). injection E as _ <-. exact (fits_object _ _ _ _ _ W3 EO).
Qed.
Lemma fits_registry_remove name r : fits (registry_remove name r).
Proof.
  apply fits_bind; [apply fits_reads, reads_object|]. intros vs. case_match; [|apply fits_reads, reads_ret].
  apply fits_bind; [apply fits_clear|]. intros _. apply fits_bind; [apply fits_object|]. intros _. apply fits_reads, reads_ret.
Qed.

Ltac fits_tac := repeat lazymatch goal with
  | |- ∀ _, _ => intros ?
  | |- fits (mbind _ _) => apply fits_bind
  | |- fits (on_object _ _) => apply fits_object
  | |- fits (child_of _ _) => apply fits_reads, reads_child_of
  | |- fits (read_object _ _) => apply fits_reads, reads_object
  | |- fits (mret _) => apply fits_reads, reads_ret
  | |- fits (if _ then _ else _) => case_match
  end.
Lemma fits_view_add_pid name pid v : fits (view_add_pid name pid v).
Proof. unfold view_add_pid. fits_tac. Qed.
Lemma fits_view_remove_pid pid v : fits (view_remove_pid pid v).
Proof. unfold view_remove_pid. fits_tac. Qed.

Lemma fits_update_view visit dijkstra net v : fits (update_view new_addr visit dijkstra net v).
Proof.
  unfold update_view. apply fits_bind; [apply fits_reads; unfold net_of; reads_tac|]. intros state.
  apply fits_bind; [apply fits_reads; unfold view_of; reads_tac|]. intros view.
  apply fits_bind; [apply fits_reads, reads_lift|]. intros [[[intra inter] plugin]|]; [|apply fits_reads, reads_ret].
  intros s r s' W E. apply st_bind_inv in E as (u0 & s0 & EO & E). pose proof (fits_object _ _ _ _ _ W EO) as W0.
  assert (Hv : is_Some (s0 !! v)) by (apply on_object_inv in EO as (o & sv & _ & _ & ->); rewrite lookup_insert_eq; eauto).
  apply st_bind_inv in E as (i1 & s1 & EA1 & E). apply st_bind_inv in E as (u1 & s2 & ES1 & E).
  destruct (set_new_child (MkDist _ _ []) _ _ _ _ _ _ _ W0 Hv (or_introl eq_refl) EA1 ES1) as (W2 & Hv2 & _).
  apply st_bind_inv in E as (i2 & s3 & EA2 & E). apply st_bind_inv in E as (u2 & s4 & ES2 & E).
  destruct (set_new_child (MkDist _ _ []) _ _ _ _ _ _ _ W2 Hv2 (or_introl eq_refl) EA2 ES2) as (W4 & _).
  apply st_bind_inv in E as (u3 & s5 & EU1 & E). apply st_bind_inv in E as (u4 & s6 & EU2 & E). injection E as _ <-.
  exact (fits_unlock _ _ _ _ _ (fits_unlock _ _ _ _ _ W4 EU1) EU2).
Qed.
End tree.
