(* ===== verification/RegistrySpec.v ===== *)
(** * The registry of views is a map from names to views

    [View_new] succeeds on every store; [ViewRegistry::get], [add] and [remove] refine the
    operations of a finite map as long as a slot is free. *)
From S2P Require Import Prelude StdMap Double IpAddr Pid Locking PrefixTable ServerObject.
From S2P Require Import PidMap PidMatrix PidAggregation NetState PidRouting ViewUpdate.
From S2P Require Import JobQueue DistObj Views AdminState AdminActions AdminSpec AdminTree.

#[global] Instance ascii_countable : Countable Ascii.ascii :=
  inj_countable' Ascii.N_of_ascii Ascii.ascii_of_N Ascii.ascii_N_embedding.

Section registry.
Context {M : Type} `{SharedMutexLaws M} {P T : Type} `{PrefixTable PID T}.
Abbreviation Obj := (DistributedObject M (Props M P T)).
Abbreviation Store := (store M (Props M P T)).
Implicit Types (s : Store) (o : Obj).

(** ** Children *)
Lemma set_child_Ok i v a s o : s !! a = Some o → writing_ (local o) = true →
  ∃ l, set_child i v a s = Ok (tt, <[a := MkDist l (props o) (<[i := v]> (resized i (children_ o)))]> s) ∧
    writing_ l = true ∧ mutex_ l = mutex_ (local o).
Proof.
  intros Ea Hw. unfold set_child. rewrite (st_bind_Ok _ _ _ _ _ (obj_Ok a o s Ea)). rewrite st_bind_eq. cbn.
  set (o' := MkDist (local o) _ _). destruct (so_changed_Ok (as_server o') Hw) as (l & EC & (Hl & _)). exists l.
  rewrite (on_object_Ok a so_changed o' _ _ _ (lookup_insert_eq _ _ _) EC), insert_insert_eq. split_and!; [done|by rewrite Hl|].
  unfold so_changed, changed in EC. cbn in EC. rewrite Hw in EC. cbn in EC. destruct (changed_fired_ (local o)); by injection EC as <-.
Qed.

Lemma child_set i v (l : list (option positive)) : mjoin (<[i := v]> (resized i l) !! i) = v.
Proof. rewrite list_lookup_insert_eq; [done|]. unfold resized. rewrite length_app, length_replicate. lia. Qed.
Lemma child_set_ne i j v (l : list (option positive)) : i ≠ j → mjoin (<[i := v]> (resized i l) !! j) = mjoin (l !! j).
Proof.
  intros Hne. rewrite list_lookup_insert_ne by done. unfold resized. rewrite lookup_app. destruct (l !! j); [done|].
  destruct (replicate _ _ !! _) as [x|] eqn:E; [|done]. by apply lookup_replicate in E as [-> _].
Qed.

(** ** Write locks *)
Lemma write_lock_Ok (o : DistributedObject M (Props M P T)) : exclusive_owned (mutex_ (local o)) = false → writing_ (local o) = false →
  ∃ s : Server M (Props M P T), lock_local BlockWriteLock (as_server o) = Ok (tt, s) ∧ writing_ (so_object s) = true ∧ so_data s = props o.
Proof.
  intros He Hw. unfold lock_local. cbn. destruct (lock_shared (mutex_ (local o))) as [m|] eqn:E.
  - unfold begin_write. cbn. rewrite Hw. eexists. split; [reflexivity|done].
  - apply lock_shared_law in E. congruence.
Qed.

Lemma unlock_write_Ok (o : DistributedObject M (Props M P T)) : writing_ (local o) = true →
  ∃ s : Server M (Props M P T), unlock_local BlockWriteLock (as_server o) = Ok (tt, s) ∧ so_data s = props o ∧ writing_ (so_object s) = false.
Proof. intros Hw. unfold unlock_local, destroy, end_write. cbn. rewrite Hw. cbn. eauto. Qed.

(** ** A new view *)
Variable new_addr : list positive → positive.
Hypothesis new_addr_fresh : ∀ l, new_addr l ∉ l.

(** A view under construction: its first [k] children are set. *)
Record view_in_progress (p : Props M P T) v s k s1 : Prop := {
  vp_obj : ∃ o, s1 !! v = Some o ∧ props o = p ∧ writing_ (local o) = true ∧ length (children_ o) = k ∧
    (∀ i, i < k → is_Some (mjoin (children_ o !! i)));
  vp_kept a o : s !! a = Some o → s1 !! a = Some o;
  vp_new : s !! v = None
}.

Lemma view_child_Ok q p v s k s1 : view_in_progress p v s k s1 →
  ∃ s2, (∀ A (f : unit → ST Store A), (c ← new_child new_addr q; set_child k (Some c) v ≫= f) s1 = f tt s2) ∧ view_in_progress p v s (S k) s2.
Proof.
  intros [(o & Ev & Hp & Hw & Hk & HC) K N]. set (c := new_addr (addrs s1)). set (oc := MkDist (LocalObject_new 0) q []).
  pose proof (fresh_addr new_addr new_addr_fresh s1 : s1 !! c = None) as Hc.
  assert (Ev1 : <[c := oc]> s1 !! v = Some o) by by rewrite lookup_insert_ne by congruence.
  destruct (set_child_Ok k (Some c) v _ o Ev1 Hw) as (l & ES & Wl & _). eexists. split.
  - intros A f. rewrite (st_bind_Ok _ _ _ c (<[c := oc]> s1)) by done. by rewrite (st_bind_Ok _ _ _ _ _ ES).
  - split; [|intros a oa Ea|done].
    + eexists. rewrite lookup_insert_eq. split; [done|]. cbn. split_and!; [done..| |].
      * unfold resized. rewrite length_insert, length_app, length_replicate. lia.
      * intros i Hi. destruct (decide (k = i)) as [<-|Hne]; [rewrite child_set; eauto|]. rewrite child_set_ne by done. apply HC. lia.
    + pose proof (K _ _ Ea). rewrite !lookup_insert_ne by congruence. done.
Qed.

(** [View_new] returns an unlocked view with its six children and touches nothing else. *)
Lemma View_new_Ok trie name s : pt_new = Ok trie →
  ∃ v s' o, View_new new_addr name s = Ok (v, s') ∧ s !! v = None ∧ s' !! v = Some o ∧ props o = ViewP (new_view_data name) ∧
    writing_ (local o) = false ∧ (∀ i, i < 6 → is_Some (mjoin (children_ o !! i))) ∧ ∀ a oa, s !! a = Some oa → s' !! a = Some oa.
Proof.
  intros ET. set (v := new_addr (addrs s)). set (p := ViewP (new_view_data name) : Props M P T). set (o0 := MkDist (LocalObject_new 0) p []).
  pose proof (fresh_addr new_addr new_addr_fresh s : s !! v = None) as Hv.
  destruct (write_lock_Ok o0) as (sl & EL & Wl & Dl); [by pose proof fresh_law as F; unfold owners in F; cbn; congruence|done|].
  set (s1 := <[v := with_server sl o0]> (<[v := o0]> s)).
  assert (EL1 : lock BlockWriteLock v (<[v := o0]> s) = Ok (tt, s1)) by (apply on_object_Ok; [by rewrite lookup_insert_eq|done]).
  assert (V1 : view_in_progress p v s 0 s1).
  { split; [|intros a oa Ea|done].
    - exists (with_server sl o0). unfold s1. rewrite lookup_insert_eq. split_and!; [done..|lia].
    - unfold s1. by rewrite !lookup_insert_ne by congruence. }
  assert (ER : ∃ rt, PIDRouting_new (M := M) 0 0 DEFAULT_WEIGHT = Ok rt).
  { unfold PIDRouting_new. cbn. pose proof fresh_law as F. unfold owners in F.
    destruct (lock_shared fresh_mutex) eqn:E; [by eauto|]. apply lock_shared_law in E. congruence. }
  destruct ER as (rt & ER). unfold View_new. rewrite (st_bind_Ok _ _ _ v (<[v := o0]> s)) by done. rewrite (st_bind_Ok _ _ _ _ _ EL1).
  destruct (view_child_Ok (PIDAggregationP (MkAggregation [] [])) p v s 0 s1) as (s2 & E2 &  V2); [done|]. rewrite E2. rewrite st_lift_bind, ET.
  destruct (view_child_Ok (PIDMapP trie) p v s 1 s2) as (s3 & E3 &  V3); [done|]. rewrite E3. rewrite st_lift_bind, ER.
  destruct (view_child_Ok (PIDRoutingP (so_data rt)) p v s 2 s3) as (s4 & E4 &  V4); [done|]. rewrite E4.
  destruct (view_child_Ok (SparsePIDMatrixP PIDMatrix_empty) p v s 3 s4) as (s5 & E5 &  V5); [done|]. rewrite E5.
  destruct (view_child_Ok (PIDMatrixP PIDMatrix_empty) p v s 4 s5) as (s6 & E6 &  V6); [done|]. rewrite E6.
  destruct (view_child_Ok (SparsePIDMatrixP PIDMatrix_empty) p v s 5 s6) as (s7 & E7 &  [(o & Eo & Hp & Hw & Hk & HC) K _]); [done|]. rewrite E7.
  destruct (unlock_write_Ok o Hw) as (sv & EU & Dv & Wv). exists v, (<[v := with_server sv o]> s7), (with_server sv o).
  rewrite (st_bind_Ok _ _ _ tt (<[v := with_server sv o]> s7)) by by apply on_object_Ok. rewrite lookup_insert_eq. split_and!; [done..| |done|done|].
  - cbn. by rewrite Dv.
  - intros a oa Ea. rewrite lookup_insert_ne by congruence. by apply K.
Qed.
(** ** The map of the registry *)
Definition view_name (name : text) : text := if decide (name = []) then DEFAULT_VIEW_NAME else name.

(** The registry [r], locked for writing, holds the map [m]. *)
Record registry_holds (r : positive) s (m : gmap text positive) (o : Obj) (d : list (text * nat)) : Prop := {
  rh_obj : s !! r = Some o;
  rh_props : props o = ViewRegistry d;
  rh_writing : writing_ (local o) = true;
  rh_sorted : map_sorted text_ltb d;
  rh_slots name i : map_find text_ltb name d = Some i → i < MAX_VIEWS ∧ is_Some (mjoin (children_ o !! i));
  rh_inj name name' i : map_find text_ltb name d = Some i → map_find text_ltb name' d = Some i → name = name';
  rh_map name : m !! name = i ← map_find text_ltb name d; mjoin (children_ o !! i)
}.
Definition registry_rel r s m : Prop := ∃ o d, registry_holds r s m o d.

Lemma registry_read r s m o d : registry_holds r s m o d → read_object r (of_registry so_get) s = Ok (d, s).
Proof.
  intros HR. unfold read_object. rewrite (st_bind_Ok _ _ _ _ _ (obj_Ok r o s (rh_obj _ _ _ _ _ HR))), st_lift_bind.
  unfold of_registry, as_class, as_server. cbn. by rewrite (rh_props _ _ _ _ _ HR).
Qed.

Lemma registry_get_Ok r s m name : registry_rel r s m → registry_get name r s = Ok (m !! view_name name, s).
Proof.
  intros (o & d & HR). unfold registry_get. rewrite (st_bind_Ok _ _ _ _ _ (registry_read _ _ _ _ _ HR)). fold (view_name name).
  rewrite (rh_map _ _ _ _ _ HR). destruct (map_find text_ltb (view_name name) d) as [i|]; [|done].
  unfold get_child. by rewrite (st_bind_Ok _ _ _ _ _ (obj_Ok r o s (rh_obj _ _ _ _ _ HR))).
Qed.

(** The last part of [add] and [remove]: a new object for the registry. *)
Lemma registry_write_Ok r s o d (f : list (text * nat) → list (text * nat)) :
  s !! r = Some o → props o = ViewRegistry d → writing_ (local o) = true →
  ∃ o', on_object r (of_registry (d ← so_get; so_put (f d);; so_changed)) s = Ok (tt, <[r := o']> s) ∧
    props o' = ViewRegistry (f d) ∧ children_ o' = children_ o ∧ writing_ (local o') = true.
Proof.
  intros Er Hp Hw. destruct (so_changed_Ok (MkServer (local o) (f d)) Hw) as (l & EC & [Wl _]).
  exists (with_server (MkServer l (ViewRegistry (f d))) o). split_and!; [|done|done|cbn in *; congruence].
  apply on_object_Ok; [done|]. unfold of_registry, as_class, as_server. cbn. rewrite Hp. cbn. rewrite st_bind_eq. cbn. rewrite st_bind_eq. cbn.
  by rewrite EC.
Qed.

Lemma free_slot_spec l i : free_slot l = Some i → i < MAX_VIEWS ∧ mjoin (l !! i) = None.
Proof.
  unfold free_slot. destruct (list_find _ _) as [[j x]|] eqn:E; [|done]. intros [= <-]. apply list_find_Some in E as (E & Hx & _).
  apply lookup_seq in E as [-> Hj]. done.
Qed.
Lemma free_slot_None l : free_slot l = None ↔ ∀ i, i < MAX_VIEWS → is_Some (mjoin (l !! i)).
Proof.
  unfold free_slot. split.
  - destruct (list_find _ _) eqn:E; [done|]. intros _ i Hi. apply list_find_None in E. rewrite Forall_forall in E.
    specialize (E i). destruct (mjoin (l !! i)); [eauto|]. exfalso. apply E; [|done]. apply elem_of_seq. lia.
  - intros HF. destruct (list_find _ _) as [[j x]|] eqn:E; [|done]. exfalso. apply list_find_Some in E as (E & Hx & _).
    apply lookup_seq in E as [-> Hj]. change (0 + j) with j in Hx. destruct (HF _ Hj). congruence.
Qed.

(** A free slot, for a registry with its children in the store. *)
Definition has_room (r : positive) s : Prop := ∃ o i, s !! r = Some o ∧ i < MAX_VIEWS ∧ mjoin (children_ o !! i) = None.

Lemma registry_add_full r s m name : registry_rel r s m → ¬ has_room r s → registry_add new_addr name r s = Ok (false, s).
Proof.
  intros (o & d & HR) HN. unfold registry_add. rewrite (st_bind_Ok _ _ _ _ _ (obj_Ok r o s (rh_obj _ _ _ _ _ HR))).
  destruct (free_slot (children_ o)) as [i|] eqn:E; [|done]. apply free_slot_spec in E as [Hi Ei].
  destruct HN. exists o, i. split_and!; [apply HR|done|done].
Qed.

(** [add] registers a new view; the view that had the name keeps its slot. *)
Lemma registry_add_Ok trie r s m name : pt_new = Ok trie → registry_rel r s m → has_room r s →
  ∃ v s' ov, registry_add new_addr name r s = Ok (true, s') ∧ s !! v = None ∧ registry_rel r s' (<[name := v]> m) ∧
    s' !! v = Some ov ∧ props ov = ViewP (new_view_data name) ∧
    (∀ a o, a ≠ r → s !! a = Some o → s' !! a = Some o) ∧
    ∃ o o', s !! r = Some o ∧ s' !! r = Some o' ∧ ∀ i c, children_ o !! i = Some (Some c) → children_ o' !! i = Some (Some c).
Proof.
  intros ET (o & d & HR) (o' & j & Er' & Hj & Ej). destruct HR as [Er Hp Hw HS HF HI HM]. rewrite Er in Er'. injection Er' as <-.
  destruct (free_slot (children_ o)) as [i|] eqn:EF; [|by apply free_slot_None with (i := j) in EF as [??]; [congruence|done]].
  pose proof (free_slot_spec _ _ EF) as [Hi Ei].
  destruct (View_new_Ok trie name s ET) as (v & s1 & ov & EV & Nv & Ev & Pv & Wv & Cv & K).
  destruct (set_child_Ok i (Some v) r s1 o (K _ _ Er) Hw) as (l & ES & Wl & _). set (o1 := MkDist l (props o) _) in ES.
  destruct (registry_write_Ok r (<[r := o1]> s1) o1 d (map_set text_ltb name i) (lookup_insert_eq _ _ _) Hp Wl) as (o2 & EO & P2 & C2 & W2).
  rewrite insert_insert_eq in EO. exists v, (<[r := o2]> s1), ov. assert (Hvr : r ≠ v) by congruence. split_and!.
  - unfold registry_add. rewrite (st_bind_Ok _ _ _ _ _ (obj_Ok r o s Er)), EF. rewrite (st_bind_Ok _ _ _ _ _ EV), (st_bind_Ok _ _ _ _ _ ES).
    by rewrite (st_bind_Ok _ _ _ _ _ EO).
  - done.
  - assert (HC : ∀ k, mjoin (children_ o2 !! k) = if decide (k = i) then Some v else mjoin (children_ o !! k)).
    { intros k. rewrite C2. cbn. case_decide; [subst; apply child_set|]. by apply child_set_ne. }
    assert (Hd : ∀ n k, map_find text_ltb n d = Some k → k ≠ i) by (intros n k [_ E]%HF ->; destruct E; congruence).
    exists o2, (map_set text_ltb name i d). split; [by rewrite lookup_insert_eq|done|done|by apply (map_set_sorted text_ltb)| | |].
    + intros n k. rewrite HC. case_decide; [subst; eauto|]. destruct (decide (name = n)) as [<-|Hn].
      * rewrite (map_find_set_eq text_ltb) by done. congruence.
      * rewrite (map_find_set_ne text_ltb) by done. apply HF.
    + intros n n' k. destruct (decide (name = n)) as [<-|Hn], (decide (name = n')) as [<-|Hn']; [done|..];
        rewrite ?(map_find_set_eq text_ltb), ?(map_find_set_ne text_ltb) by done; [intros [= <-] E2|intros E1 [= <-]|by apply HI].
      * by apply Hd in E2.
      * by apply Hd in E1.
    + intros n. destruct (decide (name = n)) as [<-|Hn].
      * rewrite lookup_insert_eq, (map_find_set_eq text_ltb) by done. cbn. rewrite HC. by rewrite decide_True.
      * rewrite lookup_insert_ne, (map_find_set_ne text_ltb), HM by done. destruct (map_find text_ltb n d) as [k|] eqn:E; [|done]. cbn. rewrite HC.
        rewrite decide_False; [done|]. by eapply Hd.
  - by rewrite lookup_insert_ne.
  - done.
  - intros a oa Ha Ea. rewrite lookup_insert_ne by done. by apply K.
  - exists o, o2. rewrite lookup_insert_eq. split_and!; [done..|]. intros k c Ek. rewrite C2. cbn. rewrite list_lookup_insert_ne.
    + unfold resized. by rewrite lookup_app, Ek.
    + intros ->. by rewrite Ek in Ei.
Qed.

Lemma registry_remove_Ok r s m name : registry_rel r s m →
  match m !! name with
  | None => registry_remove name r s = Ok (false, s)
  | Some v => ∃ s', registry_remove name r s = Ok (true, s') ∧ registry_rel r s' (delete name m) ∧ has_room r s' ∧
      ∀ a, a ≠ r → s' !! a = s !! a
  end.
Proof.
  intros (o & d & HR). unfold registry_remove. rewrite (st_bind_Ok _ _ _ _ _ (registry_read _ _ _ _ _ HR)). destruct HR as [Er Hp Hw HS HF HI HM].
  rewrite HM. destruct (map_find text_ltb name d) as [i|] eqn:Ei; cbn; [|done]. destruct (HF _ _ Ei) as [Hi [v Ev]]. rewrite Ev.
  destruct (set_child_Ok i None r s o Er Hw) as (l & ES & Wl & _). set (o1 := MkDist l (props o) _) in ES.
  destruct (registry_write_Ok r (<[r := o1]> s) o1 d (map_erase text_ltb name) (lookup_insert_eq _ _ _) Hp Wl) as (o2 & EO & P2 & C2 & W2).
  rewrite insert_insert_eq in EO. exists (<[r := o2]> s).
  assert (HC : ∀ k, mjoin (children_ o2 !! k) = if decide (k = i) then None else mjoin (children_ o !! k)).
  { intros k. rewrite C2. cbn. case_decide; [subst; apply child_set|]. by apply child_set_ne. }
  split_and!.
  - by rewrite (st_bind_Ok _ _ _ _ _ ES), (st_bind_Ok _ _ _ _ _ EO).
  - assert (HE : ∀ n k, map_find text_ltb n (map_erase text_ltb name d) = Some k → map_find text_ltb n d = Some k ∧ k ≠ i).
    { intros n k. destruct (decide (name = n)) as [<-|Hn]; [by rewrite (map_find_erase_eq text_ltb)|]. rewrite (map_find_erase_ne text_ltb) by done.
      intros E. split; [done|]. intros ->. by rewrite (HI _ _ _ E Ei) in Hn. }
    exists o2, (map_erase text_ltb name d). split; [by rewrite lookup_insert_eq|done|done|by apply (map_erase_sorted text_ltb)| | |].
    + intros n k [E Hk]%HE. rewrite HC, decide_False by done. by eapply HF.
    + intros n n' k [E _]%HE [E' _]%HE. by eapply HI.
    + intros n. destruct (decide (name = n)) as [<-|Hn].
      * by rewrite lookup_delete_eq, (map_find_erase_eq text_ltb).
      * rewrite lookup_delete_ne, HM, (map_find_erase_ne text_ltb) by done. destruct (map_find text_ltb n d) as [k|] eqn:E; [|done]. cbn.
        rewrite HC, decide_False; [done|]. intros ->. by rewrite (HI _ _ _ E Ei) in Hn.
  - exists o2, i. rewrite lookup_insert_eq, HC. by rewrite decide_True.
  - intros a Ha. by rewrite lookup_insert_ne.
Qed.
End registry.
