(* ===== verification/AdminTxn.v ===== *)
(** * Transactions keep the installed tree

    The invariant of a copy-on-write transaction, and that every action keeps it. *)
From S2P Require Import Prelude StdMap Double IpAddr Pid Locking PrefixTable ServerObject.
From S2P Require Import PidMap PidMatrix PidAggregation NetState PidRouting ViewUpdate.
From S2P Require Import JobQueue DistObj Views AdminState AdminActions AdminSpec AdminTree.

Section txn.
Context {M : Type} `{SharedMutexLaws M} {P T : Type} `{PrefixTable PID T} `{!OptPluginBase M P}.
Variables (s0 : store M (Props M P T)) (old : list positive) (t : Z) (n : positive) (js : list ViewUpdateJob).

Abbreviation World := (World (M := M) (P := P) (T := T) (Act := AdminAction)).
Abbreviation W := (ST World).
Abbreviation Adm := (Adm (M := M) (P := P) (T := T) (Act := AdminAction)).
Implicit Types w : World.
Definition wl w : list positive := (write_locks_ (admin w)).*1.

Record winv w : Prop := {
  wi_store : sinv s0 old (wl w) (objects w);
  wi_tree : wf (objects w);
  wi_nodup : NoDup (wl w);
  wi_kind a k : (a, k) ∈ write_locks_ (admin w) → k = BlockWriteLock;
  wi_old : old_state_locks_ (admin w) = old;
  wi_type : txn_type_ (admin w) = TXN_COPY_ON_WRITE;
  wi_token : token_ (admin w) = t;
  wi_root : new_state_ (admin w) = Some n;
  wi_root_in : n ∈ wl w;
  wi_jobs : enqueued w = js
}.

(** The computation keeps the invariant and the write locks; given write locks of [K] it
    returns one of [K']. *)
Definition wp {A} (K : list positive) (m : W A) (K' : A → list positive) : Prop := ∀ w r w',
  winv w → K ⊆ wl w → m w = Ok (r, w') → winv w' ∧ wl w ⊆ wl w' ∧ K' r ⊆ wl w'.
Definition ap {A} (K : list positive) (m : Adm A) (K' : A → list positive) : Prop := ∀ w r w',
  winv w → K ⊆ wl w → m w = Ok (r, w') → winv w' ∧ wl w ⊆ wl w' ∧ match r with inl a => K' a ⊆ wl w' | inr _ => True end.

Lemma ap_bind {A B} K (m : Adm A) (f : A → Adm B) K1 K2 : ap K m K1 → (∀ a, ap (K1 a ++ K) (f a) K2) → ap K (m ≫= f) K2.
Proof.
  intros Hm Hf w r w' I HK E. unfold mbind, adm_bind in E. destruct (m w) as [[[a|e] w1]|] eqn:Em; [| |done].
  - destruct (Hm _ _ _ I HK Em) as (I1 & G1 & HK1). destruct (Hf a w1 r w' I1) as (I2 & G2 & HK2); [set_solver|done|].
    split_and!; [done|set_solver|done].
  - injection E as <- <-. destruct (Hm _ _ _ I HK Em) as (I1 & G1 & _). done.
Qed.
Lemma ap_ret {A} K (a : A) : ap K (mret a) (λ _, []).
Proof. intros w r w' I HK [= <- <-]. split_and!; [done|done|set_solver]. Qed.
Lemma ap_throw {A} K e (K' : A → list positive) : ap K (throw e) K'.
Proof. intros w r w' I HK [= <- <-]. done. Qed.
Lemma ap_adm {A} K (m : W A) K' : wp K m K' → ap K (adm m) K'.
Proof.
  intros Hm w r w' I HK E. unfold adm in E. destruct (m w) as [[a w1]|] eqn:Em; [|done]. injection E as <- <-.
  by apply (Hm _ _ _ I HK Em).
Qed.
Lemma ap_lift {A} K (o : outcome A) : ap K (adm (st_lift o)) (λ _, []).
Proof. apply ap_adm. intros w r w' I HK E. unfold st_lift in E. destruct o; [|done]. injection E as <- <-. split_and!; [done|done|set_solver]. Qed.

Lemma store_inv w s : sinv s0 old (wl w) s → wf s → winv w → winv (MkWorld s (admin w) (rng_ w) (enqueued w)).
Proof. intros I W []. by split. Qed.

Lemma on_store_inv {A} (m : ST (store M (Props M P T)) A) w r w' : on_store m w = Ok (r, w') →
  ∃ s, m (objects w) = Ok (r, s) ∧ w' = MkWorld s (admin w) (rng_ w) (enqueued w).
Proof. unfold on_store. destruct (m (objects w)) as [[a s]|]; [|done]. intros [= <- <-]. eauto. Qed.

(** An operation of the store that keeps the tree. *)
Lemma wp_store {A} K (m : ST (store M (Props M P T)) A) Q :
  (∀ L, K ⊆ L → sp s0 old L m Q) → fits m → wp K (on_store m) (λ _, []).
Proof.
  intros Hm Hf w r w' I HK (s & Em & ->)%on_store_inv.
  destruct (Hm (wl w) HK _ _ _ (wi_store _ I) Em) as [I1 _]. split_and!; [|done|set_solver].
  apply store_inv; [done| |done]. by apply (Hf _ _ _ (wi_tree _ I) Em).
Qed.
Lemma wp_reads {A} K (m : ST (store M (Props M P T)) A) : reads m → wp K (on_store m) (λ _, []).
Proof. intros Hm. eapply wp_store; [|by apply fits_reads]. intros L _. by apply sp_reads. Qed.

(** ** References *)
Lemma ap_root K : ap K (adm root_ref) (λ g, [g]).
Proof.
  apply ap_adm. intros w r w' I HK E. unfold root_ref in E. rewrite st_bind_eq in E. cbn in E. rewrite (wi_root _ I) in E.
  injection E as <- <-. split_and!; [done|done|]. intros a ->%list_elem_of_singleton. apply I.
Qed.

(** A new write lock. *)
Lemma locked_inv w x s u s' : winv w → sinv s0 old (wl w) s → wf s → foreign old (wl w) x → lock BlockWriteLock x s = Ok (u, s') →
  winv (MkWorld s' (with_locks (old_state_locks_ (admin w)) (write_locks_ (admin w) ++ [(x, BlockWriteLock)]) (admin w)) (rng_ w) (enqueued w)).
Proof.
  intros I IS W HF E. pose proof (lock_write_inv s0 old _ _ _ _ _ HF IS E) as IS'. pose proof (fits_lock _ _ _ _ _ W E) as W'.
  destruct I as [_ _ I3 I4 I5 I6 I7 I8 I9 I10]. split; cbn; [|done| | |done..| |done].
  - unfold wl. cbn. by rewrite fmap_app.
  - unfold wl. cbn. rewrite fmap_app. apply NoDup_app. split_and!; [done| |apply NoDup_singleton].
    intros y Hy ->%list_elem_of_singleton. by destruct HF.
  - intros a k [Hk|[= -> ->]%list_elem_of_singleton]%elem_of_app; [by eapply I4|done].
  - unfold wl. cbn. rewrite fmap_app. apply elem_of_app. by left.
Qed.
Lemma wl_locked w x s rn js' : wl (MkWorld s (with_locks (old_state_locks_ (admin w)) (write_locks_ (admin w) ++ [(x, BlockWriteLock)]) (admin w)) rn js')
  = wl w ++ [x].
Proof. unfold wl. cbn. by rewrite fmap_app. Qed.

Lemma find_child_inv c a s r (s' : store M (Props M P T)) : find_child c a s = Ok (r, s') →
  s' = s ∧ ∃ o, s !! a = Some o ∧ match r with Some i => children_ o !! i = Some c | None => True end.
Proof.
  intros (o & s1 & [Ea ->]%obj_inv & E)%st_bind_inv. injection E as <- <-. split; [done|]. exists o. split; [done|].
  destruct (list_find (λ c', c' = c) (children_ o)) as [[i x]|] eqn:EF; [|done]. by apply list_find_Some in EF as (Ei & -> & _).
Qed.

(** Between two states of the transaction no slot was changed to an object of the tree, the
    other slots were not changed, and the properties of objects under write locks are the
    same. *)
Definition steady w w' : Prop := ∀ a o, objects w !! a = Some o → ∃ o', objects w' !! a = Some o' ∧
  (a ∈ wl w → props o' = props o) ∧
  (∀ j c, children_ o !! j = Some (Some c) → c ∉ old → children_ o' !! j = Some (Some c)) ∧
  (∀ j c, children_ o' !! j = Some (Some c) → c ∈ old → children_ o !! j = Some (Some c)).
Lemma steady_refl w : steady w w.
Proof. intros a o Ea. exists o. by split_and!. Qed.

(** What a write reference to the child [x] of [parent] did. *)
Record write_ref w (parent x y : positive) w' : Prop := {
  wr_inv : winv w';
  wr_grows : wl w ⊆ wl w';
  wr_in : y ∈ wl w';
  wr_steady : steady w w';
  wr_slot o i : objects w !! parent = Some o → children_ o !! i = Some (Some x) →
    ∃ o', objects w' !! parent = Some o' ∧ children_ o' !! i = Some (Some y)
}.

Lemma object_steady {A} a (m : ST (Server M (Props M P T)) A) (s : store M (Props M P T)) r s' : on_object a m s = Ok (r, s') →
  ∀ b o, s !! b = Some o → ∃ o', s' !! b = Some o' ∧ children_ o' = children_ o ∧ (b ≠ a → o' = o).
Proof.
  intros (oa & s1 & Ea & _ & ->)%on_object_inv b o Eb. destruct (decide (a = b)) as [<-|Hne].
  - exists (with_server s1 oa). rewrite lookup_insert_eq. rewrite Ea in Eb. injection Eb as <-. by split_and!.
  - exists o. by rewrite lookup_insert_ne.
Qed.

(** A write lock of an object that the transaction did not have. *)
Lemma lock_ref w parent x u s' : winv w → x ∉ old → x ∉ wl w → lock BlockWriteLock x (objects w) = Ok (u, s') →
  write_ref w parent x x (MkWorld s' (with_locks (old_state_locks_ (admin w)) (write_locks_ (admin w) ++ [(x, BlockWriteLock)])
    (admin w)) (rng_ w) (enqueued w)).
Proof.
  intros I Ho Hw E. split.
  - eapply locked_inv; [done|apply I|apply I|by split|done].
  - rewrite wl_locked. set_solver.
  - rewrite wl_locked. set_solver.
  - intros a o Ea. destruct (object_steady _ _ _ _ _ E a o Ea) as (o' & Ea' & EC & EP). exists o'. cbn. rewrite EC.
    split_and!; [done| |done|done]. intros Ha. rewrite EP by congruence. done.
  - intros o i Ep Ei. destruct (object_steady _ _ _ _ _ E parent o Ep) as (o' & Ea' & EC & EP). exists o'. cbn. by rewrite EC.
Qed.

Variable new_addr : list positive → positive.
Hypothesis new_addr_fresh : ∀ l, new_addr l ∉ l.
Variable get_instance : text → option P.

(** Copying a child of the tree. *)
Lemma copy_ref w parent x i y s1 u s2 u' s3 : winv w → parent ∈ wl w → x ∈ old →
  (∃ o, objects w !! parent = Some o ∧ children_ o !! i = Some (Some x)) →
  copy new_addr (do_copy_properties get_instance new_addr) x (objects w) = Ok (y, s1) →
  set_child i (Some y) parent s1 = Ok (u, s2) → lock BlockWriteLock y s2 = Ok (u', s3) →
  write_ref w parent x y (MkWorld s3 (with_locks (old_state_locks_ (admin w)) (write_locks_ (admin w) ++ [(y, BlockWriteLock)])
    (admin w)) (rng_ w) (enqueued w)).
Proof.
  intros I Hp Hx (op & Ep & Ei) EC ES EL.
  destruct (sp_copy new_addr new_addr_fresh get_instance s0 old (wl w) x _ _ _ (wi_store _ I) EC) as [I1 HF].
  destruct (sp_set_child s0 old (wl w) i (Some y) parent (or_introl Hp) _ _ _ I1 ES) as [I2 _].
  (* the store after the copy *)
  assert (HC : ∃ ox src new, objects w !! x = Some ox ∧ s1 = <[y := with_server new ox]> (<[x := with_server src ox]> (objects w)) ∧
    y = new_addr (addrs (<[x := with_server src ox]> (objects w)))).
  { apply st_bind_inv in EC as (ox & s' & [Ex ->]%obj_inv & EC). rewrite st_lift_bind in EC.
    destruct (do_copy_properties _ _ (as_server ox)) as [[new src]|]; [|done].
    apply st_bind_inv in EC as ([] & s' & [= <-] & [= <- <-]). eauto 10. }
  destruct HC as (ox & src & new & Ex & -> & Ey). clear EC.
  set (sc := <[x := with_server src ox]> (objects w)) in *. pose proof (fresh_addr new_addr new_addr_fresh sc) as Hy. rewrite <- Ey in Hy.
  assert (Wc : wf sc) by (apply wf_insert; [right; by exists x, ox|apply I]).
  assert (Hpx : parent ≠ x). { intros ->. by apply (si_write _ _ _ _ (wi_store _ I)) in Hp as [? _]. }
  assert (Epc : sc !! parent = Some op) by (unfold sc; by rewrite lookup_insert_ne).
  assert (Hpy : parent ≠ y) by congruence.
  destruct (set_new_child new_addr new_addr_fresh (with_server new ox) i parent sc y (<[y := with_server new ox]> sc) u s2
    Wc (ex_intro _ op Epc) ltac:(right; exists x, (with_server src ox); unfold sc; by rewrite lookup_insert_eq) ltac:(by rewrite Ey) ES)
    as (W2 & _ & K2 & _).
  pose proof ES as (op' & l & Ep' & Es2)%set_child_inv. rewrite lookup_insert_ne, Epc in Ep' by done. injection Ep' as <-.
  assert (Hlt : i < length (children_ op)) by by eapply lookup_lt_Some.
  assert (ER : resized i (children_ op) = children_ op).
  { unfold resized. replace (i + 1 - length (children_ op)) with 0 by lia. apply app_nil_r. }
  rewrite ER in Es2.
  assert (HS : ∀ a o, objects w !! a = Some o → ∃ o', s3 !! a = Some o' ∧ (a ∈ wl w → props o' = props o) ∧
    children_ o' = if decide (a = parent) then <[i := Some y]> (children_ o) else children_ o).
  { intros a o Ea. assert (Hay : a ≠ y).
    { intros ->. unfold sc in Hy. destruct (decide (x = y)) as [->|Hne]; [by rewrite lookup_insert_eq in Hy|].
      rewrite lookup_insert_ne in Hy by done. congruence. }
    assert (H2 : ∃ o', s2 !! a = Some o' ∧ (a ∈ wl w → props o' = props o) ∧
      children_ o' = if decide (a = parent) then <[i := Some y]> (children_ o) else children_ o).
    { rewrite Es2. destruct (decide (a = parent)) as [->|Hap].
      - rewrite lookup_insert_eq. rewrite Ep in Ea. injection Ea as <-. eexists. split; [done|]. by cbn.
      - rewrite lookup_insert_ne, lookup_insert_ne by done. unfold sc. destruct (decide (x = a)) as [->|Hxa].
        + rewrite lookup_insert_eq. rewrite Ex in Ea. injection Ea as <-. eexists. split; [done|]. split; [|done].
          intros Ha. by apply (si_write _ _ _ _ (wi_store _ I)) in Ha as [? _].
        + rewrite lookup_insert_ne by done. eauto. }
    destruct H2 as (o2 & E2 & P2 & C2). destruct (object_steady _ _ _ _ _ EL a o2 E2) as (o3 & E3 & C3 & P3).
    exists o3. rewrite P3 in * by done. split_and!; done. }
  split.
  - eapply locked_inv; [done..| |done]. by destruct HF.
  - rewrite wl_locked. set_solver.
  - rewrite wl_locked. set_solver.
  - intros a o Ea. destruct (HS a o Ea) as (o' & Ea' & EP & EC). exists o'. cbn. split_and!; [done..| |].
    + intros j c Ej Hc. rewrite EC. case_decide; [|done]. subst a. rewrite Ep in Ea. injection Ea as <-.
      destruct (decide (i = j)) as [<-|Hij]; [congruence|]. by rewrite list_lookup_insert_ne.
    + intros j c Ej Hc. rewrite EC in Ej. case_decide; [|done].
      apply list_lookup_insert_Some in Ej as [[<- [[= <-] _]]|[_ Ej]]; [|done]. by destruct HF.
  - intros o j Eo Ej. rewrite Ep in Eo. injection Eo as <-. destruct (HS parent op Ep) as (o' & Ea' & _ & EC). exists o'. cbn. split; [done|].
    rewrite EC, decide_True by done. rewrite (wf_once _ (wi_tree _ I) _ _ _ _ _ Ep Ej Ei). by apply list_lookup_insert_eq.
Qed.

Abbreviation write_object_ref := (write_object_ref new_addr get_instance).

Lemma write_object_ref_spec w parent c r w' : winv w → parent ∈ wl w → write_object_ref parent c w = Ok (r, w') →
  match r with Some y => ∃ x, c = Some x ∧ write_ref w parent x y w' | None => w' = w end.
Proof.
  intros I Hp E. unfold AdminState.write_object_ref in E. rewrite st_bind_eq in E. cbn [get_admin] in E. destruct c as [x|].
  2: { apply st_bind_inv in E as (i & w1 & (s & [-> _]%find_child_inv & ->)%on_store_inv & E).
       destruct i; [done|]. injection E as <- <-. by destruct w. }
  destruct (decide (x ∈ (write_locks_ (admin w)).*1)) as [Hx|Hx].
  { injection E as <- <-. exists x. split; [done|]. split; [done|done|done|apply steady_refl|eauto]. }
  rewrite (wi_old _ I), (wi_type _ I) in E. destruct (decide (x ∈ old)) as [Ho|Ho].
  - rewrite decide_True in E by done. apply st_bind_inv in E as (i & w1 & (s & [-> (op & Ep & Hi)]%find_child_inv & ->)%on_store_inv & E).
    destruct i as [i|]; [|injection E as <- <-; by destruct w]. cbn [admin objects rng_ enqueued] in E.
    apply st_bind_inv in E as (y & w1 & (s1 & EC & ->)%on_store_inv & E). cbn [admin objects rng_ enqueued] in *.
    apply st_bind_inv in E as (u & w1 & (s2 & ES & ->)%on_store_inv & E). cbn [admin objects rng_ enqueued] in *.
    apply st_bind_inv in E as (u' & w1 & (s3 & EL & ->)%on_store_inv & E). cbn [admin objects rng_ enqueued] in *.
    apply st_bind_inv in E as ([] & w1 & [= <-] & [= <- <-]). exists x. split; [done|]. cbn [admin objects rng_ enqueued].
    eapply copy_ref; eauto.
  - apply st_bind_inv in E as (i & w1 & (s & [-> (op & Ep & Hi)]%find_child_inv & ->)%on_store_inv & E).
    destruct i as [i|]; [|injection E as <- <-; by destruct w]. cbn [admin objects rng_ enqueued] in E.
    apply st_bind_inv in E as (u' & w1 & (s3 & EL & ->)%on_store_inv & E). cbn [admin objects rng_ enqueued] in *.
    apply st_bind_inv in E as ([] & w1 & [= <-] & [= <- <-]). exists x. split; [done|]. cbn [admin objects rng_ enqueued].
    by eapply lock_ref.
Qed.

Lemma read_object_ref_spec w parent c r w' : winv w → read_object_ref parent c w = Ok (r, w') →
  winv w' ∧ wl w ⊆ wl w' ∧ steady w w'.
Proof.
  pose proof (steady_refl w) as R0. intros I E. unfold read_object_ref in E. rewrite st_bind_eq in E. cbn [get_admin] in E. destruct c as [x|].
  2: { apply st_bind_inv in E as (i & w1 & (s & [-> _]%find_child_inv & ->)%on_store_inv & E).
       destruct i; [done|]. injection E as <- <-. by destruct w. }
  destruct (decide (x ∈ (write_locks_ (admin w)).*1)) as [Hx|Hx].
  { by injection E as <- <-. }
  rewrite (wi_old _ I) in E. destruct (decide (x ∈ old)) as [Ho|Ho].
  { by injection E as <- <-. }
  apply st_bind_inv in E as (i & w1 & (s & [-> (op & Ep & Hi)]%find_child_inv & ->)%on_store_inv & E).
  destruct i as [i|]; [|injection E as <- <-; by destruct w].
  cbn [admin objects rng_ enqueued] in E.
  apply st_bind_inv in E as (u' & w1 & (s3 & EL & ->)%on_store_inv & E). cbn [admin objects rng_ enqueued] in *.
  apply st_bind_inv in E as ([] & w1 & [= <-] & [= <- <-]). cbn [admin objects rng_ enqueued].
  by destruct (lock_ref w parent x u' s3 I Ho Hx EL).
Qed.

Lemma ref_inv {A} (m : W (option A)) w r w' : ref m w = Ok (r, w') → ∃ a, r = inl a ∧ m w = Ok (Some a, w').
Proof.
  unfold ref, mbind, adm_bind, adm. destruct (m w) as [[o w1]|] eqn:E; [|done]. unfold st_lift. destruct o as [a|]; [|done].
  cbn. intros [= <- <-]. eauto.
Qed.

Lemma ap_read K i parent : ap K (read_child i parent) (λ _, []).
Proof.
  unfold read_child. eapply ap_bind; [apply ap_adm, wp_reads, reads_child|]. intros c w r w' I HK (a & -> & E)%ref_inv.
  destruct (read_object_ref_spec _ _ _ _ _ I E) as (I' & G & _). split_and!; [done..|apply list_subseteq_nil].
Qed.
Lemma ap_write K parent c : parent ∈ K → ap K (ref (write_object_ref parent c)) (λ y, [y]).
Proof.
  intros Hp w r w' I HK (a & -> & E)%ref_inv.
  destruct (write_object_ref_spec _ _ _ _ _ I (HK _ Hp) E) as (x & -> & [I' G Hin _ _]). split_and!; [done..|].
  by intros y ->%list_elem_of_singleton.
Qed.
Lemma ap_write_child K i parent : parent ∈ K → ap K (write_child new_addr get_instance i parent) (λ y, [y]).
Proof. intros Hp. unfold write_child. eapply ap_bind; [apply ap_adm, wp_reads, reads_child|]. intros c. by apply ap_write. Qed.

(** ** The parts of the state *)
Lemma ap_net_read K : ap K get_net_read (λ _, []).
Proof. eapply ap_bind; [apply ap_root|]. intros g. apply ap_read. Qed.
Lemma ap_net_write K : ap K (get_net_write new_addr get_instance) (λ y, [y]).
Proof. eapply ap_bind; [apply ap_root|]. intros g. apply ap_write_child. left. Qed.
Lemma ap_views_read K : ap K get_views_read (λ _, []).
Proof. eapply ap_bind; [apply ap_root|]. intros g. apply ap_read. Qed.
Lemma ap_views_write K : ap K (get_views_write new_addr get_instance) (λ y, [y]).
Proof. eapply ap_bind; [apply ap_root|]. intros g. apply ap_write_child. left. Qed.
Lemma ap_view_read K view : ap K (get_view_read view) (λ _, []).
Proof.
  eapply ap_bind; [apply ap_views_read|]. intros r. eapply ap_bind; [apply ap_adm, wp_reads, reads_registry_get|].
  intros [v|]; [|apply ap_throw]. intros w r' w' I HK (a & -> & E)%ref_inv.
  destruct (read_object_ref_spec _ _ _ _ _ I E) as (I' & G & _). split_and!; [done..|apply list_subseteq_nil].
Qed.
Lemma ap_view_write K view : ap K (get_view_write new_addr get_instance view) (λ y, [y]).
Proof.
  eapply ap_bind; [apply ap_views_write|]. intros r. eapply ap_bind; [apply ap_adm, wp_reads, reads_registry_get|].
  intros [v|]; [|apply ap_throw]. apply ap_write. set_solver.
Qed.
Lemma ap_view_child_read K i view : ap K (view_child_read i view) (λ _, []).
Proof. eapply ap_bind; [apply ap_view_read|]. intros v. apply ap_read. Qed.
Lemma ap_view_child_write K i view : ap K (view_child_write new_addr get_instance i view) (λ y, [y]).
Proof. eapply ap_bind; [apply ap_view_write|]. intros v. apply ap_write_child. left. Qed.
Lemma ap_lookup_pid K view name : ap K (lookup_pid view name) (λ _, []).
Proof.
  eapply ap_bind; [apply ap_view_read|]. intros v. eapply ap_bind; [apply ap_view_child_read|]. intros ?.
  eapply ap_bind; [apply ap_adm, wp_reads; unfold view_lookup_pid; reads_tac|]. intros p. case_match; [apply ap_throw|apply ap_ret].
Qed.

Lemma ap_run {A} K a (m : ST (Server M (Props M P T)) A) : a ∈ K → keeps m → ap K (run a m) (λ _, []).
Proof.
  intros Ha Hm. apply ap_adm. eapply wp_store; [|apply fits_object]. intros L HL. apply sp_object; [by apply HL|done].
Qed.
Lemma ap_look {A} K a (m : ST (Server M (Props M P T)) A) : ap K (look a m) (λ _, []).
Proof. apply ap_adm, wp_reads, reads_object. Qed.

(** ** A view that the transaction holds *)
Definition view_key (view : text) : text := if decide (view = []) then DEFAULT_VIEW_NAME else view.
Definition slot w (a : positive) (i : nat) (c : positive) : Prop :=
  ∃ o, objects w !! a = Some o ∧ children_ o !! i = Some (Some c).

Record resolves (view : text) (r v : positive) (i : nat) w : Prop := {
  rs_views : slot w n CHILD_IDX_VIEWS r;
  rs_registry : ∃ o vs, objects w !! r = Some o ∧ props o = ViewRegistry vs ∧ map_find text_ltb (view_key view) vs = Some i;
  rs_view : slot w r i v;
  rs_in : r ∈ wl w ∧ v ∈ wl w
}.

Lemma held_new w a : winv w → a ∈ wl w → a ∉ old.
Proof. intros I Ha. by apply (si_write _ _ _ _ (wi_store _ I)) in Ha as [? _]. Qed.

Lemma slot_steady w w' a i c : steady w w' → c ∉ old → slot w a i c → slot w' a i c.
Proof. intros HS Hc (o & Ea & Ei). destruct (HS a o Ea) as (o' & Ea' & _ & HC & _). exists o'. eauto. Qed.

Lemma resolves_steady view r v i w w' : winv w → steady w w' → wl w ⊆ wl w' → resolves view r v i w → resolves view r v i w'.
Proof.
  intros I HS HW [R1 (o & vs & Er & Ep & Ei) R3 [R4 R5]]. split.
  - exact (slot_steady _ _ _ _ _ HS (held_new w r I R4) R1).
  - destruct (HS r o Er) as (o' & Er' & HP & _). exists o', vs. rewrite HP by done. done.
  - exact (slot_steady _ _ _ _ _ HS (held_new w v I R5) R3).
  - split; by apply HW.
Qed.

Lemma registry_get_inv name r s c (s' : store M (Props M P T)) : registry_get name r s = Ok (c, s') →
  s' = s ∧ ∀ v, c = Some v → ∃ o vs i, s !! r = Some o ∧ props o = ViewRegistry vs ∧
    map_find text_ltb (view_key name) vs = Some i ∧ children_ o !! i = Some (Some v).
Proof.
  intros E. split; [by apply (reads_registry_get _ _ _ _ _ E)|]. intros v ->.
  apply st_bind_inv in E as (vs & s1 & [-> (o & sr & Er & EO)]%read_object_inv & E).
  unfold of_registry, as_class in EO. cbn in EO. destruct (props o) as [| |vs'| | | | | |] eqn:Ep; try done. injection EO as <- _.
  unfold view_key. destruct (map_find text_ltb _ vs') as [i|] eqn:Ei; [|done].
  apply st_bind_inv in E as (o' & s1 & [Er' ->]%obj_inv & E). injection E as Ec _. rewrite Er in Er'. injection Er' as <-.
  exists o, vs', i. split_and!; [done..|]. by destruct (children_ o !! i) as [[?|]|]; cbn in Ec; simplify_eq.
Qed.

Lemma adm_bind_inl {A B} (m : Adm A) (f : A → Adm B) w b w' : (m ≫= f) w = Ok (inl b, w') →
  ∃ a w1, m w = Ok (inl a, w1) ∧ f a w1 = Ok (inl b, w').
Proof. unfold mbind, adm_bind. destruct (m w) as [[[a|e] w1]|]; [|done..]. eauto. Qed.
Lemma adm_inl {A} (m : W A) w a w' : adm m w = Ok (inl a, w') → m w = Ok (a, w').
Proof. unfold adm. destruct (m w) as [[a' w1]|]; [|done]. by intros [= <- <-]. Qed.

Lemma write_child_spec w i parent y w' : winv w → parent ∈ wl w → write_child new_addr get_instance i parent w = Ok (inl y, w') →
  ∃ x, slot w parent i x ∧ write_ref w parent x y w' ∧ slot w' parent i y.
Proof.
  intros I Hp E. apply adm_bind_inl in E as (c & w1 & E1%adm_inl & (a & [= <-] & E2)%ref_inv).
  apply on_store_inv in E1 as (s & EG & ->). apply st_bind_inv in EG as (o & s1 & [Ep ->]%obj_inv & EG). injection EG as Ec <-.
  replace (MkWorld (objects w) (admin w) (rng_ w) (enqueued w)) with w in E2 by by destruct w.
  destruct (write_object_ref_spec _ _ _ _ _ I Hp E2) as (x & -> & R). exists x.
  assert (HS : slot w parent i x) by (exists o; split; [done|]; by destruct (children_ o !! i) as [[?|]|]; cbn in Ec; simplify_eq).
  split_and!; [done..|]. destruct HS as (o' & Eo & Ei). destruct (wr_slot _ _ _ _ _ R o' i Eo Ei) as (o2 & E & Ei2). by exists o2.
Qed.

Lemma get_view_write_resolves w view v w' : winv w → get_view_write new_addr get_instance view w = Ok (inl v, w') →
  winv w' ∧ ∃ r i, resolves view r v i w'.
Proof.
  intros I E. apply adm_bind_inl in E as (r & w1 & E1 & E). apply adm_bind_inl in E1 as (g & w0 & E0%adm_inl & E1).
  assert (g = n ∧ w0 = w) as [-> ->].
  { unfold root_ref in E0. rewrite st_bind_eq in E0. cbn in E0. rewrite (wi_root _ I) in E0. by injection E0 as <- <-. }
  destruct (write_child_spec _ _ _ _ _ I (wi_root_in _ I) E1) as (x & _ & [I1 G1 Hr1 S1 _] & HV).
  apply adm_bind_inl in E as (c & w2 & E2%adm_inl & E). apply on_store_inv in E2 as (s & [-> HG]%registry_get_inv & ->).
  destruct c as [v0|]; [|done]. destruct (HG v0 eq_refl) as (o & vs & i & Er & Ep & Ei & Ec). apply ref_inv in E as (a & [= <-] & E).
  replace (MkWorld (objects w1) (admin w1) (rng_ w1) (enqueued w1)) with w1 in E by by destruct w1.
  destruct (write_object_ref_spec _ _ _ _ _ I1 Hr1 E) as (x' & [= <-] & [I3 G3 H3 S3 HS3]).
  split; [done|]. exists r, i. destruct (HS3 o i Er Ec) as (o3 & Er3 & Ei3). split.
  - exact (slot_steady _ _ _ _ _ S3 (held_new w1 r I1 Hr1) HV).
  - destruct (S3 r o Er) as (o' & Er' & HP & _). exists o', vs. rewrite HP by done. done.
  - by exists o3.
  - split; [by apply G3|done].
Qed.

Lemma get_view_write_resolved w view r v i : winv w → resolves view r v i w → get_view_write new_addr get_instance view w = Ok (inl v, w).
Proof.
  intros I [(on & En & Ev) (o & vs & Er & Ep & Ei) (o' & Er' & Ec) [Hr Hv]].
  unfold get_view_write, get_views_write, write_child, child_ptr, mbind, adm_bind, adm, root_ref, mbind, st_bind, get_admin, st_lift.
  rewrite (wi_root _ I). cbn. unfold on_store, get_child. rewrite (st_bind_Ok _ _ _ _ _ (obj_Ok _ _ _ En)). cbn. rewrite Ev. cbn.
  replace (MkWorld (objects w) (admin w) (rng_ w) (enqueued w)) with w by by destruct w.
  unfold ref, mbind, adm_bind, adm, AdminState.write_object_ref, mbind, st_bind, get_admin. cbn. rewrite decide_True by done. cbn.
  rewrite Er' in Er. injection Er as <-. unfold registry_get.
  rewrite (st_bind_Ok _ _ _ vs (objects w)).
  2: { unfold read_object. rewrite (st_bind_Ok _ _ _ _ _ (obj_Ok _ _ _ Er')), st_lift_bind. unfold of_registry, as_class. cbn. by rewrite Ep. }
  fold (view_key view). rewrite Ei. unfold get_child. rewrite (st_bind_Ok _ _ _ _ _ (obj_Ok _ _ _ Er')). cbn. rewrite Ec. cbn.
  rewrite decide_True by done. cbn. by destruct w.
Qed.

(** ** Programs that only read *)
Lemma steady_trans w1 w2 w3 : wl w1 ⊆ wl w2 → steady w1 w2 → steady w2 w3 → steady w1 w3.
Proof.
  intros HW S1 S2 a o Ea. destruct (S1 a o Ea) as (o2 & E2 & P2 & C2 & D2). destruct (S2 a o2 E2) as (o3 & E3 & P3 & C3 & D3).
  exists o3. split_and!; [done| |eauto|eauto]. intros Ha. rewrite P3, P2; auto.
Qed.

Definition rp {A} (m : Adm A) : Prop := ∀ w r w', winv w → m w = Ok (r, w') → winv w' ∧ wl w ⊆ wl w' ∧ steady w w'.
Lemma rp_bind {A B} (m : Adm A) (f : A → Adm B) : rp m → (∀ a, rp (f a)) → rp (m ≫= f).
Proof.
  intros Hm Hf w r w' I E. unfold mbind, adm_bind in E. destruct (m w) as [[[a|e] w1]|] eqn:Em; [| |done].
  - destruct (Hm _ _ _ I Em) as (I1 & G1 & S1), (Hf _ _ _ _ (proj1 (Hm _ _ _ I Em)) E) as (I2 & G2 & S2).
    split_and!; [done|intros b Hb; by apply G2, G1|by eapply steady_trans].
  - injection E as <- <-. by apply (Hm _ _ _ I Em).
Qed.
Lemma rp_throw {A} e : rp (throw (A := A) e).
Proof. intros w r w' I [= <- <-]. split_and!; [done|done|apply steady_refl]. Qed.
Lemma rp_ret {A} (a : A) : rp (mret a).
Proof. intros w r w' I [= <- <-]. split_and!; [done|done|apply steady_refl]. Qed.
Lemma rp_store {A} (m : ST (store M (Props M P T)) A) : reads m → rp (adm (on_store m)).
Proof.
  intros Hm w r w' I E. unfold adm in E. destruct (on_store m w) as [[a w1]|] eqn:Em; [|done]. injection E as _ <-.
  apply on_store_inv in Em as (s & Es & ->). rewrite (Hm _ _ _ Es). destruct w. split_and!; [done|done|apply steady_refl].
Qed.
Lemma rp_root : rp (adm root_ref).
Proof.
  intros w r w' I E. unfold adm, root_ref in E. rewrite st_bind_eq in E. cbn in E. rewrite (wi_root _ I) in E.
  injection E as _ <-. split_and!; [done|done|apply steady_refl].
Qed.
Lemma rp_ref parent c : rp (ref (read_object_ref parent c)).
Proof. intros w r w' I (a & -> & E)%ref_inv. by eapply read_object_ref_spec. Qed.
Lemma rp_child i parent : rp (read_child i parent).
Proof. apply rp_bind; [apply rp_store, reads_child|]. intros c. apply rp_ref. Qed.
Lemma rp_view_read view : rp (get_view_read view).
Proof.
  apply rp_bind; [apply rp_bind; [apply rp_root|intros; apply rp_child]|]. intros r.
  apply rp_bind; [apply rp_store, reads_registry_get|]. intros [v|]; [apply rp_ref|apply rp_throw].
Qed.
Lemma rp_lookup_pid view name : rp (lookup_pid view name).
Proof.
  apply rp_bind; [apply rp_view_read|]. intros v. apply rp_bind; [apply rp_bind; [apply rp_view_read|intros; apply rp_child]|]. intros _.
  apply rp_bind; [apply rp_store; unfold view_lookup_pid; reads_tac|]. intros p. case_match; [apply rp_throw|apply rp_ret].
Qed.

(** ** PIDs of a view *)
Lemma slot_new_steady w w' v j : steady w w' → slot_new old v j (objects w) → slot_new old v j (objects w').
Proof.
  intros HS (o & Ev & HN). destruct (HS v o Ev) as (o' & Ev' & _ & _ & HD). exists o'. split; [done|]. intros c Hc Ho.
  apply (HN c); [|done]. destruct (children_ o' !! j) as [[c'|]|] eqn:E; [|done..]. cbn in Hc. injection Hc as ->. by rewrite (HD _ _ E Ho).
Qed.

(** The state of an action that holds a view and new children of it. *)
Record holds (view : text) (v : positive) (js' : list nat) w : Prop := {
  hd_inv : winv w;
  hd_view : ∃ r i, resolves view r v i w;
  hd_slots j : j ∈ js' → slot_new old v j (objects w)
}.
Lemma holds_steady view v l w w' : holds view v l w → winv w' → wl w ⊆ wl w' → steady w w' → holds view v l w'.
Proof.
  intros [I (r & i & R) S] I' G HS. split; [done| |].
  - exists r, i. exact (resolves_steady view r v i w w' I HS G R).
  - intros j Hj. eapply slot_new_steady; [done|by apply S].
Qed.
Lemma holds_child view v l j w r w' : holds view v l w → view_child_write new_addr get_instance j view w = Ok (r, w') →
  wl w ⊆ wl w' ∧ (∃ y, r = inl y) ∧ holds view v (j :: l) w'.
Proof.
  intros HH E. pose proof HH as [I (r0 & i & R) S]. unfold view_child_write, mbind, adm_bind in E.
  rewrite (get_view_write_resolved w view r0 v i I R) in E. assert (Hr : ∃ y, r = inl y).
  { unfold write_child, mbind, adm_bind in E. destruct (adm (child_ptr j v) w) as [[[c|e] w1]|] eqn:EC; [| |done].
    - apply ref_inv in E as (y & -> & _). eauto.
    - unfold adm in EC. destruct (child_ptr j v w) as [[? ?]|]; done. }
  destruct Hr as [y ->]. destruct (write_child_spec w j v y w' I (proj2 (rs_in _ _ _ _ _ R)) E) as (x & _ & WR & HY).
  split_and!; [apply (wr_grows _ _ _ _ _ WR)|eauto|].
  destruct (holds_steady view v l w w' HH (wr_inv _ _ _ _ _ WR) (wr_grows _ _ _ _ _ WR) (wr_steady _ _ _ _ _ WR)) as [I' R' S'].
  split; [done..|]. intros k [->|Hk]%elem_of_cons; [|by apply S']. destruct HY as (o & Ev & Ei). exists o. split; [done|].
  intros c Hc. rewrite Ei in Hc. injection Hc as <-. exact (held_new w' y I' (wr_in _ _ _ _ _ WR)).
Qed.
End txn.
