(* ===== verification/AdminCommit.v ===== *)
(** * All actions keep the installed tree *)
From S2P Require Import Prelude StdMap Double IpAddr Pid Locking PrefixTable ServerObject.
From S2P Require Import PidMap PidMatrix PidAggregation NetState PidRouting ViewUpdate.
From S2P Require Import JobQueue DistObj Views AdminState AdminActions AdminSpec AdminTree.
From S2P Require Import AdminTxn.

Section commit.
Context {M : Type} `{SharedMutexLaws M} {P T : Type} `{PrefixTable PID T} `{!OptPluginBase M P}.
Variable new_addr : list positive → positive.
Hypothesis new_addr_fresh : ∀ l, new_addr l ∉ l.
Variable get_instance : text → option P.
Variable visit : PinnedPIDSet → list PinnedPID.
Variable dijkstra : NetGraph → NetVertex → gmap NetVertex nat → gmap positive double → outcome (gmap NetVertex NetVertex).
Variable cast_double : text → option double.
Variable cast_bool : text → option bool.
Variable cast_unsigned : text → option Z.
Variable print_double : double → text.
Variable print_bool : bool → text.
Variable print_unsigned : Z → text.
Variables (s0 : store M (Props M P T)) (old : list positive) (t : Z) (n : positive) (js : list ViewUpdateJob).

Abbreviation winv := (winv s0 old t n js).
Abbreviation ap := (ap s0 old t n js).
Abbreviation Adm := (Adm (M := M) (P := P) (T := T) (Act := AdminAction)).

(** Symbolic execution of an action. *)
Ltac ap_step := lazymatch goal with
  | |- ∀ _, _ => intros ?
  | |- AdminTxn.ap _ _ _ _ _ _ (mret _) _ => apply ap_ret
  | |- AdminTxn.ap _ _ _ _ _ _ (throw _) _ => apply ap_throw
  | |- AdminTxn.ap _ _ _ _ _ _ (mbind _ _) _ => eapply ap_bind
  | |- AdminTxn.ap _ _ _ _ _ _ (get_net_write _ _) _ => by apply ap_net_write
  | |- AdminTxn.ap _ _ _ _ _ _ (get_views_write _ _) _ => by apply ap_views_write
  | |- AdminTxn.ap _ _ _ _ _ _ (get_view_read _) _ => apply ap_view_read
  | |- AdminTxn.ap _ _ _ _ _ _ (get_view_write _ _ _) _ => by apply ap_view_write
  | |- AdminTxn.ap _ _ _ _ _ _ (view_child_read _ _) _ => apply ap_view_child_read
  | |- AdminTxn.ap _ _ _ _ _ _ (view_child_write _ _ _ _) _ => by apply ap_view_child_write
  | |- AdminTxn.ap _ _ _ _ _ _ (lookup_pid _ _) _ => apply ap_lookup_pid
  | |- AdminTxn.ap _ _ _ _ _ _ (look _ _) _ => apply ap_look
  | |- AdminTxn.ap _ _ _ _ _ _ (run _ _) _ => apply ap_run; [set_solver|auto with keeps]
  | |- AdminTxn.ap _ _ _ _ _ _ (match _ with _ => _ end) _ => case_match
  | |- _ => apply ap_net_read
  end.
Ltac ap_tac := repeat ap_step.

Lemma each_prefix_keeps K f m l : m ∈ K → (∀ p, keeps (f p)) → ap K (each_prefix f m l) (λ _, []).
Proof.
  intros Hm Hf. revert K Hm. induction l as [|p l IH]; intros K Hm; cbn [each_prefix]; [apply ap_ret|].
  eapply ap_bind; [by apply ap_run|]. intros b. apply IH. set_solver.
Qed.

Lemma net_node_add_keeps node external : ap [] (net_node_add new_addr get_instance node external) (λ _, []).
Proof. unfold net_node_add, of_net. ap_tac. apply as_class_keeps. keeps_tac. Qed.
Lemma net_node_delete_keeps node : ap [] (net_node_delete new_addr get_instance node) (λ _, []).
Proof. unfold net_node_delete, of_net. ap_tac. Qed.
Lemma net_link_add_keeps link src dst : ap [] (net_link_add new_addr get_instance link src dst) (λ _, []).
Proof. unfold net_link_add, of_net. ap_tac. Qed.
Lemma net_link_delete_keeps link : ap [] (net_link_delete new_addr get_instance link) (λ _, []).
Proof. unfold net_link_delete, of_net, remove_edge. ap_tac. Qed.
Lemma view_add_keeps view : ap [] (view_add new_addr get_instance view) (λ _, []).
Proof.
  unfold view_add. ap_tac. apply ap_adm. eapply wp_store; [|by apply fits_registry_add].
  intros L HL. apply sp_registry_add; [done|]. apply HL. left.
Qed.
Lemma view_delete_keeps view : ap [] (view_delete new_addr get_instance view) (λ _, []).
Proof.
  unfold view_delete. ap_tac. apply ap_adm. eapply wp_store; [|by apply fits_registry_remove].
  intros L HL. apply sp_registry_remove. apply HL. left.
Qed.
Lemma view_pdistance_update_keeps view : ap [] (view_pdistance_update new_addr get_instance visit dijkstra view) (λ _, []).
Proof.
  unfold view_pdistance_update. ap_tac. apply ap_adm. eapply wp_store; [|by apply fits_update_view].
  intros L HL. apply sp_update_view; [done|]. apply HL. set_solver.
Qed.

Lemma view_prefixes_keeps view pid (f : PID → IPPrefix → ST (Server M (Props M P T)) bool) prefixes : (∀ p x, keeps (f p x)) →
  ap [] (m ← view_child_write new_addr get_instance CHILD_IDX_PREFIXES view;
         p ← lookup_pid view pid; each_prefix (f p) m prefixes;; mret true) (λ _, []).
Proof. intros Hf. ap_tac; by apply each_prefix_keeps; [set_solver|]. Qed.

Lemma view_add_prefixes_keeps view pid prefixes : ap [] (view_add_prefixes new_addr get_instance view pid prefixes) (λ _, []).
Proof. apply view_prefixes_keeps. intros p x. unfold of_map, PIDMap_add. apply as_class_keeps. keeps_tac. Qed.
Lemma view_delete_prefixes_keeps view pid prefixes : ap [] (view_delete_prefixes new_addr get_instance view pid prefixes) (λ _, []).
Proof. apply view_prefixes_keeps. intros p x. unfold of_map, PIDMap_remove. apply as_class_keeps. keeps_tac. Qed.
Lemma view_clear_prefixes_keeps view pid : ap [] (view_clear_prefixes new_addr get_instance view pid) (λ _, []).
Proof. unfold view_clear_prefixes, of_map, PIDMap_remove_pid. ap_tac. apply as_class_keeps. keeps_tac. Qed.

Lemma view_add_nodes_keeps view pid nodes : ap [] (view_add_nodes new_addr get_instance view pid nodes) (λ _, []).
Proof. unfold view_add_nodes, of_aggregation, add_vertices. ap_tac. Qed.
Lemma view_delete_nodes_keeps view pid nodes : ap [] (view_delete_nodes new_addr get_instance view pid nodes) (λ _, []).
Proof. unfold view_delete_nodes, of_aggregation, remove_vertices. ap_tac. Qed.
Lemma view_clear_nodes_keeps view pid : ap [] (view_clear_nodes new_addr get_instance view pid) (λ _, []).
Proof. unfold view_clear_nodes, of_aggregation, clear_vertices. ap_tac. Qed.

Lemma view_set_link_cost_keeps view link cost : ap [] (view_set_link_cost new_addr get_instance view link cost) (λ _, []).
Proof. unfold view_set_link_cost, of_sparse. ap_tac. Qed.
Lemma view_set_link_weight_keeps view link weight : ap [] (view_set_link_weight new_addr get_instance view link weight) (λ _, []).
Proof. unfold view_set_link_weight, of_routing. ap_tac. Qed.
Lemma view_add_link_keeps view link src dst : ap [] (view_add_link new_addr get_instance view link src dst) (λ _, []).
Proof. unfold view_add_link, of_aggregation. ap_tac. Qed.
Lemma view_delete_link_keeps view link : ap [] (view_delete_link new_addr get_instance view link) (λ _, []).
Proof. unfold view_delete_link, of_aggregation. ap_tac. Qed.

Lemma view_prop_get_keeps view prop : ap [] (view_prop_get print_double print_bool print_unsigned view prop) (λ _, []).
Proof. unfold view_prop_get. ap_tac. Qed.
Lemma set_cast_keeps {A} K (o : option A) f v : v ∈ K → (∀ x, keeps (f x)) → ap K (set_cast o f v) (λ _, []).
Proof. intros Hv Hf. unfold set_cast, of_view. ap_tac. Qed.
Lemma view_prop_set_keeps view prop value :
  ap [] (view_prop_set new_addr get_instance cast_double cast_bool cast_unsigned view prop value) (λ _, []).
Proof.
  unfold view_prop_set. eapply ap_bind; [by apply ap_view_write|]. intros v.
  repeat (case_decide; [apply set_cast_keeps; [left|intros x; apply view_put_keeps]|]). apply ap_ret.
Qed.

(** The two actions that change several children of a view. *)
Lemma pid_action_keeps {A} view (m : ST (store M (Props M P T)) A) v l w r w' : holds s0 old t n js view v l w →
  (∀ L s x s', sinv s0 old L s → (∀ j, j ∈ l → slot_new old v j s) → m s = Ok (x, s') → sinv s0 old L s') → fits m →
  adm (on_store m) w = Ok (r, w') → winv w' ∧ wl w ⊆ wl w'.
Proof.
  intros HH Hm Hf E. pose proof HH as [I _ HS]. unfold adm in E. destruct (on_store m w) as [[x w1]|] eqn:EO; [|done]. injection E as _ <-.
  apply on_store_inv in EO as (s & Em & ->). split; [|done]. apply store_inv; [|by apply (Hf _ _ _ (wi_tree _ _ _ _ _ _ I) Em)|done].
  eapply Hm; [apply I|exact HS|exact Em].
Qed.

Lemma holds_init view v w w' : winv w → get_view_write new_addr get_instance view w = Ok (inl v, w') → holds s0 old t n js view v [] w'.
Proof.
  intros I E. destruct (get_view_write_resolves s0 old t n js new_addr new_addr_fresh get_instance w view v w' I E) as (I' & R).
  split; [done|done|]. intros j Hj. by apply not_elem_of_nil in Hj.
Qed.

(** A view with its aggregation, its routing and its link pDistances. *)
Definition with_pid_children {A} (view : text) (k : positive → Adm A) : Adm A :=
  v ← get_view_write new_addr get_instance view;
  view_child_write new_addr get_instance CHILD_IDX_AGGREGATION view;;
  view_child_write new_addr get_instance CHILD_IDX_INTRA_ROUTING view;;
  view_child_write new_addr get_instance CHILD_IDX_LINK_PDISTANCES view;;
  k v.
Lemma with_pid_children_keeps {A} view (k : positive → Adm A) :
  (∀ v w r w', holds s0 old t n js view v [CHILD_IDX_LINK_PDISTANCES; CHILD_IDX_INTRA_ROUTING; CHILD_IDX_AGGREGATION] w →
     k v w = Ok (r, w') → winv w' ∧ wl w ⊆ wl w') →
  ap [] (with_pid_children view k) (λ _, []).
Proof.
  intros Hk w r w' I HK E. unfold with_pid_children in E. unfold mbind at 1, adm_bind at 1 in E.
  destruct (get_view_write new_addr get_instance view w) as [[[v|e] w1]|] eqn:EV; [| |done].
  2: { injection E as <- <-. by destruct (ap_view_write s0 old t n js new_addr new_addr_fresh get_instance [] view w _ _ I HK EV) as (? & ? & _). }
  destruct (ap_view_write s0 old t n js new_addr new_addr_fresh get_instance [] view w _ _ I HK EV) as (_ & G0 & _).
  pose proof (holds_init view v w w1 I EV) as HH. clear EV.
  assert (HC : ∀ l j w r w', holds s0 old t n js view v l w → ∀ f : positive → Adm A,
    (view_child_write new_addr get_instance j view ≫= f) w = Ok (r, w') →
    ∃ y w2, wl w ⊆ wl w2 ∧ holds s0 old t n js view v (j :: l) w2 ∧ f y w2 = Ok (r, w')).
  { intros l j wa ra wb Ha f Ef. unfold mbind, adm_bind in Ef.
    destruct (view_child_write new_addr get_instance j view wa) as [[x wc]|] eqn:EW; [|done].
    destruct (holds_child s0 old t n js new_addr new_addr_fresh get_instance view v l j wa x wc Ha EW) as (G & [y ->] & HH'). eauto. }
  apply (HC _ _ _ _ _ HH) in E as (? & w2 & G2 & H2' & E). apply (HC _ _ _ _ _ H2') in E as (? & w3 & G3 & H3' & E).
  apply (HC _ _ _ _ _ H3') in E as (? & w4 & G4 & H4' & E). destruct (Hk v w4 r w' H4' E) as [I' G'].
  split_and!; [done|set_solver|]. destruct r; [apply list_subseteq_nil|done].
Qed.

Lemma view_add_pid_action_keeps view pid pid_obj : ap [] (view_add_pid_action new_addr get_instance view pid pid_obj) (λ _, []).
Proof.
  apply with_pid_children_keeps. intros v w r w' HH E. eapply pid_action_keeps; [done| |apply fits_view_add_pid|done].
  intros L s x s' I HS Em. eapply view_add_pid_inv; [done|apply HS..|done]; set_solver.
Qed.
Lemma view_delete_pid_action_keeps view pid : ap [] (view_delete_pid_action new_addr get_instance view pid) (λ _, []).
Proof.
  apply with_pid_children_keeps. intros v w r w' HH E. unfold mbind, adm_bind in E.
  destruct (lookup_pid view pid w) as [[[p|e] w1]|] eqn:EL; [| |done].
  - destruct (rp_lookup_pid s0 old t n js view pid w _ w1 (hd_inv _ _ _ _ _ _ _ _ _ HH) EL) as (I1 & G1 & S1).
    destruct (pid_action_keeps view (view_remove_pid p v) v _ w1 r w' (holds_steady _ _ _ _ _ _ _ _ _ _ HH I1 G1 S1)) as [I2 G2];
      [|apply fits_view_remove_pid|done|split; [done|set_solver]].
    intros L s x s' I HS Em. eapply view_remove_pid_inv; [done|apply HS..|done]; set_solver.
  - injection E as _ <-. by destruct (rp_lookup_pid s0 old t n js view pid w _ w1 (hd_inv _ _ _ _ _ _ _ _ _ HH) EL) as (? & ? & _).
Qed.

Lemma plain_keeps m : ap [] m (λ _, []) → ap [] (plain m) (λ _, []).
Proof. intros Hm. unfold plain. eapply ap_bind; [exact Hm|]. intros b. apply ap_ret. Qed.

Lemma commit_keeps action : ap [] (commit new_addr get_instance visit dijkstra cast_double cast_bool cast_unsigned
  print_double print_bool print_unsigned action) (λ _, []).
Proof.
  destruct action; cbn [commit].
  - apply plain_keeps, net_node_add_keeps.
  - apply plain_keeps, net_node_delete_keeps.
  - apply plain_keeps, net_link_add_keeps.
  - apply plain_keeps, net_link_delete_keeps.
  - apply plain_keeps, view_add_keeps.
  - apply plain_keeps, view_delete_keeps.
  - apply plain_keeps, view_pdistance_update_keeps.
  - apply plain_keeps, view_add_pid_action_keeps.
  - apply plain_keeps, view_delete_pid_action_keeps.
  - apply plain_keeps, view_add_link_keeps.
  - apply plain_keeps, view_delete_link_keeps.
  - apply plain_keeps, view_add_prefixes_keeps.
  - apply plain_keeps, view_delete_prefixes_keeps.
  - apply plain_keeps, view_clear_prefixes_keeps.
  - apply plain_keeps, view_add_nodes_keeps.
  - apply plain_keeps, view_delete_nodes_keeps.
  - apply plain_keeps, view_clear_nodes_keeps.
  - apply plain_keeps, view_set_link_cost_keeps.
  - apply plain_keeps, view_set_link_weight_keeps.
  - apply view_prop_get_keeps.
  - apply plain_keeps, view_prop_set_keeps.
Qed.
End commit.
