(* ===== verification/AdminBegin.v ===== *)
(** * The beginning of a transaction

    [txn_begin] locks the installed tree and copies its root: it succeeds whenever no
    transaction is open and the tree is not locked for writing. *)
From S2P Require Import Prelude StdMap Double IpAddr Pid Locking PrefixTable ServerObject.
From S2P Require Import PidMap PidMatrix PidAggregation NetState PidRouting ViewUpdate.
From S2P Require Import JobQueue DistObj Views AdminState AdminActions AdminSpec AdminTree.
From S2P Require Import RegistrySpec AdminTxn AdminCommit.

(** ** The installed tree *)
Section tree.
Context {M : Type} `{SharedMutexLaws M} {P T : Type} `{PrefixTable PID T}.
Abbreviation Store := (store M (Props M P T)).
Variables (s0 : Store) (root : positive).

Inductive reach : positive → Prop :=
  | reach_root : reach root
  | reach_child a o i c : reach a → s0 !! a = Some o → children_ o !! i = Some (Some c) → reach c.

(** The objects below the root are a tree without write locks and upgradable locks. *)
Record tree_ok : Prop := {
  tk_wf : wf s0;
  tk_in : is_Some (s0 !! root);
  tk_root a o i : reach a → s0 !! a = Some o → children_ o !! i ≠ Some (Some root);
  tk_parent a b oa ob i j c : reach a → reach b → s0 !! a = Some oa → s0 !! b = Some ob →
    children_ oa !! i = Some (Some c) → children_ ob !! j = Some (Some c) → a = b;
  tk_unlocked a o : reach a → s0 !! a = Some o → upgrade_owned (mutex_ (local o)) = false ∧ exclusive_owned (mutex_ (local o)) = false
}.
Hypothesis TK : tree_ok.

Lemma reach_in a : reach a → is_Some (s0 !! a).
Proof. induction 1 as [|a o i c _ _ Ea Ei]; [apply TK|]. by eapply (wf_dom _ (tk_wf TK)). Qed.

(** ** Locking the tree *)
Abbreviation World := (World (M := M) (P := P) (T := T) (Act := AdminAction)).
Implicit Types w : World.

Record locking w0 (dn todo : list positive) w : Prop := {
  lk_nodup : NoDup (dn ++ todo);
  lk_reach a : a ∈ dn ++ todo → reach a;
  lk_parent a : a ∈ dn ++ todo → a = root ∨ ∃ p o i, p ∈ dn ∧ s0 !! p = Some o ∧ children_ o !! i = Some (Some a);
  lk_closed p o i c : p ∈ dn → s0 !! p = Some o → children_ o !! i = Some (Some c) → c ∈ dn ++ todo;
  lk_root : root ∈ dn ++ todo;
  lk_done a : a ∈ dn → ∃ o0 o, s0 !! a = Some o0 ∧ objects w !! a = Some o ∧ kept true o0 o;
  lk_other a : a ∉ dn → objects w !! a = s0 !! a;
  lk_world : w = MkWorld (objects w) (with_locks dn (write_locks_ (admin w0)) (admin w0)) (rng_ w0) (enqueued w0)
}.

Lemma upgrade_lock_Ok o : upgrade_owned (mutex_ (local o)) = false → exclusive_owned (mutex_ (local o)) = false →
  ∃ s, lock_local UpgradableReadLock (as_server (D := Props M P T) o) = Ok (tt, s) ∧ kept true o (with_server s o).
Proof.
  intros Hu He. unfold lock_local. cbn. destruct (lock_upgrade (mutex_ (local o))) as [m|] eqn:E.
  - eexists. split; [done|]. split; cbn; [done|by left|done|]. apply lock_upgrade_owners in E. unfold owners in *. congruence.
  - apply lock_upgrade_law in E as [?|?]; congruence.
Qed.

Lemma elem_children (l : list (option positive)) c : c ∈ omap id l → ∃ i, l !! i = Some (Some c).
Proof. intros (x & Hx & Ex)%list_elem_of_omap. cbn in Ex. subst x. by apply list_elem_of_lookup_1 in Hx. Qed.
Lemma children_elem (l : list (option positive)) i c : l !! i = Some (Some c) → c ∈ omap id l.
Proof. intros E. apply list_elem_of_omap. exists (Some c). split; [by eapply list_elem_of_lookup_2|done]. Qed.
Lemma children_nodup (l : list (option positive)) :
  (∀ i j c, l !! i = Some (Some c) → l !! j = Some (Some c) → i = j) → NoDup (omap id l).
Proof.
  induction l as [|x l IH]; intros HU; [constructor|]. assert (HL : NoDup (omap id l)).
  { apply IH. intros i j c Hi Hj. by injection (HU (S i) (S j) c Hi Hj). }
  destruct x as [c|]; cbn; [|done]. constructor; [|done]. intros (i & Hi)%elem_children. by specialize (HU 0 (S i) c eq_refl Hi).
Qed.

Lemma lock_step w0 dn x todo w : locking w0 dn (x :: todo) w →
  ∃ w1 cs, on_store (lock UpgradableReadLock x) w = Ok (tt, w1) ∧
    on_store (get_children x) (MkWorld (objects w1) (with_locks (old_state_locks_ (admin w1) ++ [x]) (write_locks_ (admin w1)) (admin w1))
      (rng_ w1) (enqueued w1)) = Ok (cs, MkWorld (objects w1) (with_locks (dn ++ [x]) (write_locks_ (admin w0)) (admin w0)) (rng_ w0) (enqueued w0)) ∧
    locking w0 (dn ++ [x]) (todo ++ cs) (MkWorld (objects w1) (with_locks (dn ++ [x]) (write_locks_ (admin w0)) (admin w0)) (rng_ w0) (enqueued w0)).
Proof.
  intros [L1 L2 L3 L4 L5 L6 L7 L8]. assert (Rx : reach x) by (apply L2; set_solver). destruct (reach_in x Rx) as [o Ex].
  assert (Hx : x ∉ dn) by (apply NoDup_app in L1 as (_ & HD & _); intros Hx; apply (HD x Hx); left).
  destruct (tk_unlocked TK x o Rx Ex) as [Hu He]. destruct (upgrade_lock_Ok o Hu He) as (sv & EL & K).
  assert (Ew : objects w !! x = Some o) by by rewrite L7.
  set (s1 := <[x := with_server sv o]> (objects w)).
  exists (MkWorld s1 (admin w) (rng_ w) (enqueued w)), (omap id (children_ o)). split_and!.
  - unfold on_store, lock. by rewrite (on_object_Ok _ _ _ _ _ _ Ew EL).
  - unfold on_store, get_children. cbn [objects admin rng_ enqueued].
    rewrite (st_bind_Ok _ _ _ _ _ (obj_Ok x (with_server sv o) s1 (lookup_insert_eq _ _ _))). cbn. rewrite L8. done.
  - cbn [objects]. assert (HC : ∀ c, c ∈ omap id (children_ o) → c ∉ dn ++ x :: todo).
    { intros c (i & Hi)%elem_children Hc. destruct (L3 c Hc) as [->|(p & op & j & Hp & Ep & Ej)].
      - by apply (tk_root TK x o i).
      - assert (p = x) as -> by (eapply (tk_parent TK p x); eauto; apply L2; set_solver). done. }
    split; cbn [objects].
    + rewrite <- app_assoc. cbn. rewrite app_comm_cons, app_assoc. apply NoDup_app. split_and!; [done| |].
      * intros c Hc Hc'. by apply (HC c).
      * apply children_nodup. intros i j c. by eapply (wf_once _ (tk_wf TK)).
    + intros a Ha. assert (a ∈ dn ++ x :: todo ∨ a ∈ omap id (children_ o)) as [Ha'|(i & Hi)%elem_children] by set_solver; [by apply L2|].
      by eapply reach_child.
    + intros a Ha. assert (a ∈ dn ++ x :: todo ∨ a ∈ omap id (children_ o)) as [Ha'|(i & Hi)%elem_children] by set_solver.
      * destruct (L3 a Ha') as [->|(p & op & j & Hp & ?)]; [by left|]. right. exists p, op, j. split; [set_solver|done].
      * right. exists x, o, i. split; [set_solver|done].
    + intros p op i c [Hp| ->%list_elem_of_singleton]%elem_of_app Ep Ei.
      * specialize (L4 p op i c Hp Ep Ei). set_solver.
      * rewrite Ex in Ep. injection Ep as <-. apply children_elem in Ei. set_solver.
    + set_solver.
    + intros a [Ha| ->%list_elem_of_singleton]%elem_of_app.
      * destruct (L6 a Ha) as (o0 & oa & E0 & Ea & Ka). exists o0, oa. unfold s1. rewrite lookup_insert_ne by congruence. done.
      * exists o, (with_server sv o). unfold s1. by rewrite lookup_insert_eq.
    + intros a Ha. unfold s1. rewrite lookup_insert_ne by set_solver. apply L7. set_solver.
    + done.
Qed.

Lemma lock_tree_Ok w0 fuel dn todo w : locking w0 dn todo w → size s0 < length dn + fuel →
  ∃ w', lock_tree fuel todo w = Ok (tt, w') ∧ ∃ dn', locking w0 dn' [] w'.
Proof.
  revert dn todo w. induction fuel as [|fuel IH]; intros dn todo w LK HF.
  { exfalso. assert (length dn ≤ size s0); [|lia]. rewrite <- size_dom. etrans; [|apply (subseteq_size (list_to_set dn))].
    - rewrite size_list_to_set; [done|]. by apply (lk_nodup _ _ _ _), NoDup_app in LK as (? & _).
    - intros a Ha%elem_of_list_to_set. apply elem_of_dom, reach_in, (lk_reach _ _ _ _ LK). set_solver. }
  destruct todo as [|x todo]; cbn [lock_tree]; [exists w; split; [done|by exists dn]|].
  destruct (lock_step _ _ _ _ _ LK) as (w1 & cs & E1 & E2 & LK').
  destruct (IH _ _ _ LK') as (w' & E' & D); [rewrite length_app; cbn; lia|]. exists w'. split; [|done].
  rewrite (st_bind_Ok _ _ _ _ _ E1), (st_bind_Ok _ _ _ tt _ eq_refl), (st_bind_Ok _ _ _ _ _ E2). exact E'.
Qed.
End tree.

(** ** The operations of a transaction *)
Section operations.
Context {M : Type} `{SharedMutexLaws M} {P T : Type} `{PrefixTable PID T} `{!OptPluginBase M P}.
Abbreviation Store := (store M (Props M P T)).
Abbreviation World := (World (M := M) (P := P) (T := T) (Act := AdminAction)).
Abbreviation Adm := (Adm (M := M) (P := P) (T := T) (Act := AdminAction)).
Implicit Types w : World.

(** No transaction is open. *)
Definition idle (a : AdminState (Act := AdminAction)) : Prop :=
  token_ a = INVALID_TOKEN ∧ new_state_ a = None ∧ old_state_locks_ a = [] ∧ write_locks_ a = [] ∧ monitor_thread_ a = false ∧
  unapplied_changes_ a = [] ∧ applied_changes_ a = [].

(** A new object after one session under a write lock. *)
Lemma session_idle {A} (m : ST (Server M (Props M P T)) A) (s s' : Server M (Props M P T)) r : keeps m → write_session m s = Ok (r, s') →
  writing_ (so_object s') = false ∧ owners (mutex_ (so_object s')) = owners (mutex_ (so_object s)).
Proof.
  intros Hm (u & s1 & EL & (r1 & s2 & Em & (u' & s3 & EU & [= <- <-])%st_bind_inv)%st_bind_inv)%st_bind_inv.
  destruct (Hm _ _ _ Em) as [Emx _]. unfold lock_local in EL. cbn in EL. destruct (lock_shared (mutex_ (so_object s))) as [mx|] eqn:ES; [|done].
  unfold begin_write in EL. cbn in EL. destruct (writing_ (so_object s)); [done|]. injection EL as _ <-. cbn in Emx.
  unfold unlock_local, destroy in EU. apply outcome_bind_inv in EU as (o & EU & [= _ <-]). cbn.
  apply outcome_bind_inv in EU as (o' & EE & [= <-]). unfold end_write in EE. destruct (writing_ (so_object s2)); [|done]. injection EE as <-. cbn.
  split; [done|]. rewrite unlock_shared_owners, Emx. apply lock_shared_owners in ES. unfold owners in *. cbn in *. by injection ES as -> -> ->.
Qed.

Lemma created_Ok (p : Props M P T) : ∃ s, created (M := M) p = Ok s ∧ so_data s = p ∧ writing_ (so_object s) = false ∧
  owners (mutex_ (so_object s)) = (0, false, false).
Proof.
  unfold created, write_session, lock_local. pose proof fresh_law as F. rewrite st_bind_eq. cbn.
  destruct (lock_shared fresh_mutex) as [m|] eqn:E; [|apply lock_shared_law in E; unfold owners in F; congruence].
  cbn. rewrite st_bind_eq. cbn. eexists. split; [reflexivity|]. cbn. split_and!; [done..|].
  rewrite unlock_shared_owners. apply lock_shared_owners in E. unfold owners in *. injection E as -> -> ->. by injection F as -> -> ->.
Qed.

Variable new_addr : list positive → positive.
Hypothesis new_addr_fresh : ∀ l, new_addr l ∉ l.
Variable get_instance : text → option P.
Variable GLOBAL_STATE : positive.

(** What [txn_begin] needs. *)
Record ready w : Prop := {
  rd_idle : idle (admin w);
  rd_tree : tree_ok (objects w) GLOBAL_STATE;
  rd_global : ∃ o, objects w !! GLOBAL_STATE = Some o ∧ props o = GlobalState;
  rd_rng : ∃ r0 r1 rs, rng_ w = r0 :: r1 :: rs ∧ (u32 r0 + 2 ^ 32 * u32 r1 ≠ 0)%Z
}.

Lemma txn_begin_Ok w : ready w →
  ∃ t old n w1, txn_begin new_addr get_instance GLOBAL_STATE TXN_COPY_ON_WRITE w = Ok (inl t, w1) ∧ t ≠ INVALID_TOKEN ∧
    NoDup old ∧ (∀ a, a ∈ old ↔ reach (objects w) GLOBAL_STATE a) ∧ winv (objects w) old t n (enqueued w) w1 ∧
    unapplied_changes_ (admin w1) = [].
Proof.
  intros [(I1 & I2 & I3 & I4 & I5 & I6 & I7) TK (og & Eg & Pg) (r0 & r1 & rs & Er & Ht)].
  set (t := (u32 r0 + 2 ^ 32 * u32 r1)%Z) in *.
  (* after the token and the type *)
  set (wa := MkWorld (objects w) (with_type TXN_COPY_ON_WRITE (with_token t (admin w))) rs (enqueued w)).
  assert (LK : locking (objects w) GLOBAL_STATE wa [] [GLOBAL_STATE] wa).
  { split; cbn; [apply NoDup_singleton| | | | |set_solver|done|].
    - intros a ->%list_elem_of_singleton. constructor.
    - intros a ->%list_elem_of_singleton. by left.
    - set_solver.
    - set_solver.
    - unfold wa, with_locks. cbn. f_equal. destruct (admin w). cbn in *. by subst. }
  destruct (lock_tree_Ok (objects w) GLOBAL_STATE TK wa (S (size (objects w))) [] [GLOBAL_STATE] wa LK) as (wb & EB & old & LB); [cbn; lia|].
  pose proof LB as [B1 B2 _ B4 B5 B6 B7 B8]. rewrite app_nil_r in *.
  assert (HR : ∀ a, a ∈ old ↔ reach (objects w) GLOBAL_STATE a).
  { intros a. split; [apply B2|]. induction 1 as [|a o i c _ IH Ea Ei]; [done|]. by eapply B4. }
  (* the copy of the root *)
  assert (Hg : GLOBAL_STATE ∈ old) by (apply HR; constructor). destruct (B6 _ Hg) as (o0 & ob & E0 & Eb & KB).
  rewrite Eg in E0. injection E0 as <-. assert (Pb : props ob = GlobalState).
  { destruct (kp_props _ _ _ KB) as [<-|(d & ps & E & _)]; [done|congruence]. }
  destruct (created_Ok (GlobalState : Props M P T)) as (sn & ES & Pn & Wn & On).
  set (n := new_addr (addrs (objects wb))). set (on := with_server sn ob). pose proof (fresh_addr new_addr new_addr_fresh (objects wb)) as Hn. fold n in Hn.
  assert (EC : copy new_addr (do_copy_properties get_instance new_addr) GLOBAL_STATE (objects wb) = Ok (n, <[n := on]> (objects wb))).
  { unfold copy. rewrite (st_bind_Ok _ _ _ _ _ (obj_Ok _ _ _ Eb)), st_lift_bind. unfold do_copy_properties, as_server. cbn [so_data]. rewrite Pb, ES. cbn.
    unfold alloc. rewrite st_bind_eq. cbn. unfold with_server. cbn. rewrite <- Pb.
    replace (MkDist (local ob) (props ob) (children_ ob)) with ob by by destruct ob. rewrite insert_id by done. done. }
  destruct (write_lock_Ok on) as (sl & EL & Wl & Dl); [unfold owners in On; cbn; congruence|done|].
  set (s2 := <[n := with_server sl on]> (<[n := on]> (objects wb))).
  assert (ELn : lock BlockWriteLock n (<[n := on]> (objects wb)) = Ok (tt, s2)) by (apply on_object_Ok; [by rewrite lookup_insert_eq|done]).
  assert (Wt : wf (objects wb)).
  { pose proof (tk_wf _ _ TK) as [W1 W2]. assert (HC : ∀ a o, objects wb !! a = Some o → ∃ o', objects w !! a = Some o' ∧ children_ o = children_ o').
    { intros a o Ea. destruct (decide (a ∈ old)) as [Ha|Ha]; [|rewrite B7 in Ea by done; eauto].
      destruct (B6 a Ha) as (o' & oa & E' & Ea' & K'). rewrite Ea in Ea'. injection Ea' as <-. exists o'. split; [done|apply K']. }
    split.
    - intros a o i c Ea Ei. destruct (HC a o Ea) as (o' & E' & EC'). rewrite EC' in Ei. destruct (W1 _ _ _ _ E' Ei) as [oc Ec].
      destruct (decide (c ∈ old)) as [Hc|Hc]; [|rewrite B7 by done; eauto]. destruct (B6 c Hc) as (? & oc' & _ & Ec' & _). eauto.
    - intros a o i j c Ea. destruct (HC a o Ea) as (o' & E' & EC'). rewrite EC'. by eapply W2. }
  exists t, old, n, (MkWorld s2 (with_monitor true (with_locks old [(n, BlockWriteLock)] (with_new_state (Some n)
    (with_type TXN_COPY_ON_WRITE (with_token t (admin w)))))) rs (enqueued w)).
  split_and!; [|done|done|done| |done].
  - unfold txn_begin, mbind, adm_bind, adm, get_admin. rewrite decide_False by (rewrite I1; intros HH; by apply HH).
    unfold generate_token. cbn [MAX_TOKEN_GENERATE_ATTEMPTS token_attempts]. unfold mbind, adm_bind, next_random. rewrite Er. cbn [rng_ objects admin enqueued].
    fold t. rewrite decide_True by done. cbn [adm on_admin objects admin rng_ enqueued]. fold wa. cbn [objects]. rewrite EB.
    unfold on_store. rewrite EC. cbn [objects admin rng_ enqueued on_admin]. rewrite ELn. cbn [objects admin rng_ enqueued].
    rewrite B8. cbn. rewrite I5, I4. cbn. reflexivity.
  - assert (HF : foreign old [] n) by (split; [intros Ha; destruct (B6 n Ha) as (? & ? & _ & E & _); congruence|set_solver]).
    split; cbn; [| |apply NoDup_singleton| |done..| |done].
    + unfold wl. cbn. split; [|intros a ->%list_elem_of_singleton; split; [apply HF|]; exists (with_server sl on); unfold s2; by rewrite lookup_insert_eq].
      intros a Ha. destruct (B6 a Ha) as (o1 & oa & E1 & Ea & Ka). exists o1, oa. unfold s2. destruct HF as [HF _].
      rewrite !lookup_insert_ne by congruence. done.
    + unfold s2. apply wf_insert; [right; exists n, on; by rewrite lookup_insert_eq|]. apply wf_insert; [right; by exists GLOBAL_STATE, ob|done].
    + intros a k [= -> ->]%list_elem_of_singleton. done.
    + unfold wl. cbn. left.
Qed.
End operations.
