(* ===== verification/AdminEnd.v ===== *)
(** * The end of a transaction

    [txn_rollback] and a failed action leave the installed tree as it was, [txn_commit]
    changes the children of its root and nothing else. *)
From S2P Require Import Prelude StdMap Double IpAddr Pid Locking PrefixTable ServerObject.
From S2P Require Import PidMap PidMatrix PidAggregation NetState PidRouting ViewUpdate.
From S2P Require Import JobQueue DistObj Views AdminState AdminActions AdminSpec AdminTree.
From S2P Require Import RegistrySpec AdminTxn AdminCommit AdminBegin.

Section ends.
Context {M : Type} `{SharedMutexLaws M} {P T : Type} `{PrefixTable PID T} `{!OptPluginBase M P}.
Abbreviation Store := (store M (Props M P T)).
Abbreviation World := (World (M := M) (P := P) (T := T) (Act := AdminAction)).
Abbreviation Adm := (Adm (M := M) (P := P) (T := T) (Act := AdminAction)).
Implicit Types w : World.

(** ** Releasing the locks *)
(** The objects of the installed tree are those of [s0]. *)
Definition tree_kept (s0 s : Store) (old : list positive) : Prop :=
  ∀ a, a ∈ old → ∃ o0 o, s0 !! a = Some o0 ∧ s !! a = Some o ∧ kept false o0 o.

(** The write locks of some objects are gone, their contents are the same. *)
Definition released (L : list positive) (s s' : Store) : Prop :=
  (∀ a, a ∉ L → s' !! a = s !! a) ∧
  ∀ a o, a ∈ L → s !! a = Some o → ∃ o', s' !! a = Some o' ∧ props o' = props o ∧ children_ o' = children_ o ∧
    writing_ (local o') = false.

Lemma unlock_writes_Ok (s0 : Store) old (ks : list (positive * lock_kind)) (s : Store) : sinv s0 old ks.*1 s → NoDup ks.*1 →
  (∀ a k, (a, k) ∈ ks → k = BlockWriteLock) →
  ∃ s', st_iter (λ '(x, k), unlock k x) ks s = Ok (tt, s') ∧ sinv s0 old [] s' ∧ released ks.*1 s s'.
Proof.
  intros I ND HK.
  destruct (st_iter_inv (λ dn s', sinv s0 old (drop (length dn) ks).*1 s' ∧ released dn.*1 s s')
    (λ '(x, k), unlock k x) ks s) as (s' & E & I' & K');
    [by split; [|split; [|by intros a o ?%not_elem_of_nil]]| |exists s'; by rewrite drop_all in I'].
  intros dn [x k] rest s1 -> [I1 [K1 K2]]. assert (k = BlockWriteLock) as -> by (apply (HK x), elem_of_app; right; left).
  rewrite drop_app_length in I1. rewrite !fmap_app in *. cbn in *. apply NoDup_app in ND as (_ & HD & ND). apply NoDup_cons in ND as [Hx _].
  destruct (si_write _ _ _ _ I1 x ltac:(left)) as [Ho (o & Ex & Hw)]. destruct (unlock_write_Ok o Hw) as (sv & EU & Dv & Wv).
  assert (Hxd : x ∉ dn.*1) by (intros Hd; apply (HD x Hd); left).
  exists (<[x := with_server sv o]> s1). split; [by apply on_object_Ok|]. rewrite length_app. cbn.
  replace (drop (length dn + 1) (dn ++ (x, BlockWriteLock) :: rest)) with rest
    by (rewrite drop_app_ge by lia; replace (length dn + 1 - length dn) with 1 by lia; done).
  split; [|split].
  - apply sinv_insert_foreign; [by split|]. destruct I1 as [J1 J2]. split; [done|]. intros a Ha. apply J2. by right.
  - intros a Ha. rewrite lookup_insert_ne by set_solver. apply K1. set_solver.
  - intros a oa [Ha| ->%list_elem_of_singleton]%elem_of_app Ea.
    + rewrite lookup_insert_ne by congruence. by apply K2.
    + rewrite K1 in Ex by done. rewrite Ea in Ex. injection Ex as ->. exists (with_server sv o). by rewrite lookup_insert_eq.
Qed.

Lemma unlock_reads_Ok (s0 : Store) old (s : Store) : sinv s0 old [] s → NoDup old →
  ∃ s', st_iter (unlock UpgradableReadLock) old s = Ok (tt, s') ∧ tree_kept s0 s' old ∧ (∀ a, a ∉ old → s' !! a = s !! a).
Proof.
  intros I ND.
  destruct (st_iter_inv (λ dn s', tree_kept s0 s' dn ∧ (∀ a, a ∈ drop (length dn) old → ∃ o0 o, s0 !! a = Some o0 ∧ s' !! a = Some o ∧ kept true o0 o) ∧
    (∀ a, a ∉ old → s' !! a = s !! a)) (unlock UpgradableReadLock) old s) as (s' & E & I' & _ & K').
  - split_and!; [intros a Ha; by apply not_elem_of_nil in Ha| |done]. intros a Ha. by apply (si_old _ _ _ _ I).
  - intros dn x rest s1 -> (I1 & J1 & K1). rewrite drop_app_length in J1. apply NoDup_app in ND as (_ & HD & ND). apply NoDup_cons in ND as [Hx _].
    destruct (J1 x ltac:(left)) as (o0 & o & E0 & Ex & [C1 C2 C3 C4]).
    exists (<[x := with_server (MkServer (with_mutex (unlock_upgrade (mutex_ (local o))) (local o)) (props o)) o]> s1). split; [by apply on_object_Ok|].
    rewrite length_app. cbn. replace (drop (length dn + 1) (dn ++ x :: rest)) with rest
      by (rewrite drop_app_ge by lia; replace (length dn + 1 - length dn) with 1 by lia; done).
    split_and!.
    + intros a [Ha| ->%list_elem_of_singleton]%elem_of_app.
      * destruct (I1 a Ha) as (oa0 & oa & Ea0 & Ea & Ka). exists oa0, oa. rewrite lookup_insert_ne by (intros <-; apply (HD _ Ha); left). done.
      * exists o0, (with_server (MkServer (with_mutex (unlock_upgrade (mutex_ (local o))) (local o)) (props o)) o).
        rewrite lookup_insert_eq. split_and!; [done..|]. split; cbn; [done..|]. rewrite unlock_upgrade_owners. unfold owners in C4. by injection C4 as -> _ ->.
    + intros a Ha. destruct (J1 a ltac:(by right)) as (oa0 & oa & Ea0 & Ea & Ka). exists oa0, oa. rewrite lookup_insert_ne by congruence. done.
    + intros a Ha. rewrite lookup_insert_ne by set_solver. by apply K1.
  - by exists s'.
Qed.

(** The state after a transaction that was not committed. *)
Record restored (s0 : Store) (old : list positive) (js : list ViewUpdateJob) w : Prop := {
  re_idle : idle (admin w);
  re_tree : tree_kept s0 (objects w) old;
  re_jobs : enqueued w = js
}.

(** ** The root *)
(** The root takes the two children of the new root. *)
Lemma global_apply_Ok n g (s : Store) on o : s !! n = Some on → s !! g = Some o → n ≠ g → writing_ (local o) = true →
  ∃ o', global_apply n g s = Ok (tt, <[g := o']> s) ∧ writing_ (local o') = true ∧ mutex_ (local o') = mutex_ (local o) ∧
    props o' = props o ∧ mjoin (children_ o' !! CHILD_IDX_NET) = mjoin (children_ on !! CHILD_IDX_NET) ∧
    mjoin (children_ o' !! CHILD_IDX_VIEWS) = mjoin (children_ on !! CHILD_IDX_VIEWS).
Proof.
  intros En Eg Hne Hw. unfold global_apply, get_child.
  rewrite st_bind_eq, (st_bind_Ok _ _ _ _ _ (obj_Ok n on s En)). cbn [mret st_ret].
  destruct (set_child_Ok CHILD_IDX_NET (mjoin (children_ on !! CHILD_IDX_NET)) g s o Eg Hw) as (l1 & E1 & W1 & M1).
  rewrite (st_bind_Ok _ _ _ _ _ E1). set (o1 := MkDist l1 _ _). set (s1 := <[g := o1]> s).
  assert (En1 : s1 !! n = Some on) by (unfold s1; by rewrite lookup_insert_ne).
  rewrite st_bind_eq, (st_bind_Ok _ _ _ _ _ (obj_Ok n on s1 En1)). cbn [mret st_ret].
  destruct (set_child_Ok CHILD_IDX_VIEWS (mjoin (children_ on !! CHILD_IDX_VIEWS)) g s1 o1 (lookup_insert_eq _ _ _) W1) as (l2 & E2 & W2 & M2).
  rewrite (st_bind_Ok _ _ _ _ _ E2). set (o2 := MkDist l2 _ _). set (s2 := <[g := o2]> s1).
  destruct (so_changed_Ok (as_server o2) W2) as (l3 & E3 & (W3 & _)). exists (with_server (MkServer l3 (props o2)) o2).
  rewrite (on_object_Ok g so_changed o2 _ _ s2 (lookup_insert_eq _ _ _) E3). unfold s2, s1. rewrite !insert_insert_eq. split_and!.
  - done.
  - cbn. by rewrite W3.
  - cbn. rewrite <- M1. cbn in M2. rewrite <- M2.
    unfold so_changed, changed in E3. cbn in E3. rewrite W2 in E3. cbn in E3. destruct (changed_fired_ l2); by injection E3 as <-.
  - done.
  - cbn [children_ with_server o2 o1]. rewrite child_set_ne by done. apply child_set.
  - cbn [children_ with_server o2]. apply child_set.
Qed.

(** The write lock of a root that only the transaction has locked. *)
Lemma upgraded_Ok (o : DistributedObject M (Props M P T)) : owners (mutex_ (local o)) = (0, true, false) → writing_ (local o) = false →
  ∃ s, lock_local UpgradedWriteLock (as_server o) = Ok (tt, s) ∧ writing_ (so_object s) = true ∧ so_data s = props o ∧
    owners (mutex_ (so_object s)) = (0, false, true).
Proof.
  intros HO Hw. unfold lock_local. cbn. assert (HU : upgrade_owned (mutex_ (local o)) = true) by (unfold owners in HO; congruence).
  destruct (unlock_upgrade_and_lock (mutex_ (local o))) as [m|] eqn:E.
  - apply to_unique_owners in E; [|done]. unfold begin_write. cbn. rewrite Hw. eexists. split; [done|]. split_and!; [done..|]. cbn. rewrite E.
    unfold owners in HO. by injection HO as -> _ _.
  - apply to_unique_law in E; [|done]. unfold owners in HO. congruence.
Qed.
Lemma downgraded_Ok (o : DistributedObject M (Props M P T)) : writing_ (local o) = true →
  ∃ s, unlock_local UpgradedWriteLock (as_server o) = Ok (tt, s) ∧ writing_ (so_object s) = false ∧ so_data s = props o ∧
    owners (mutex_ (so_object s)) = (shared_owners (mutex_ (local o)), true, false).
Proof.
  intros Hw. unfold unlock_local, destroy, end_write. cbn. rewrite Hw. cbn. eexists. split; [done|]. split_and!; [done..|].
  cbn. apply to_upgrade_owners.
Qed.

Section transaction.
Variables (s0 : Store) (old : list positive) (t : Z) (n : positive) (js : list ViewUpdateJob).
Hypothesis old_nodup : NoDup old.
Abbreviation winv := (winv s0 old t n js).

(** Releasing the locks of a tree that the transaction kept. *)
Lemma clear_Ok w : sinv s0 old (wl w) (objects w) → NoDup (wl w) → (∀ a k, (a, k) ∈ write_locks_ (admin w) → k = BlockWriteLock) →
  old_state_locks_ (admin w) = old → enqueued w = js → ∃ w', clear_txn_state w = Ok (tt, w') ∧ restored s0 old js w' ∧
  ∃ s1, released (wl w) (objects w) s1 ∧ ∀ a, a ∉ old → objects w' !! a = s1 !! a.
Proof.
  intros I ND HK HO HJ. destruct (unlock_writes_Ok s0 old _ _ I ND HK) as (s1 & E1 & I1 & K1).
  destruct (unlock_reads_Ok s0 old s1 I1 old_nodup) as (s2 & E2 & T2 & K2).
  eexists. split.
  - unfold clear_txn_state. rewrite (st_bind_Ok _ _ _ (admin w) w) by done. rewrite HO.
    rewrite (st_bind_Ok _ _ _ tt (MkWorld s1 (admin w) (rng_ w) (enqueued w))) by (unfold on_store; by rewrite E1).
    rewrite (st_bind_Ok _ _ _ tt (MkWorld s2 (admin w) (rng_ w) (enqueued w))) by (unfold on_store; cbn [objects]; by rewrite E2).
    reflexivity.
  - split; [by split; cbn|]. by exists s1.
Qed.

(** ** Actions *)
Variable commit : AdminAction → Adm (bool * text).
Hypothesis commit_kept : ∀ action, ap s0 old t n js [] (commit action) (λ _, []).
Hypothesis token_valid : t ≠ INVALID_TOKEN.

Lemma winv_changes un ap w : winv w → winv (MkWorld (objects w) (with_changes un ap (admin w)) (rng_ w) (enqueued w)).
Proof. by intros []. Qed.
Lemma check_token_Ok w : winv w → check_txn_token t w = Ok (inl tt, w).
Proof.
  intros I. unfold check_txn_token, mbind, adm_bind, adm, get_admin. rewrite (wi_token _ _ _ _ _ _ I).
  rewrite decide_False by done. by rewrite decide_False by (by intros HH; apply HH).
Qed.

Lemma rollback_changes_Ok l w : rollback_changes l w = Ok (tt, w).
Proof. induction l as [|a l IH]; [done|]. exact IH. Qed.

Lemma process_one action w r w' : winv w → process_loop commit [action] w = Ok (r, w') →
  winv w' ∧ (is_Some r → unapplied_changes_ (admin w') = []).
Proof.
  intros I E. cbn [process_loop] in E. destruct (commit action w) as [[[[b v]|e] w1]|] eqn:EC; [| |done];
    destruct (commit_kept action _ _ _ I (list_subseteq_nil _) EC) as (I1 & _ & _).
  - destruct b.
    + injection E as <- <-. split; [by apply winv_changes|done].
    + rewrite st_bind_eq in E. cbn [get_admin] in E. rewrite (st_bind_Ok _ _ _ _ _ (rollback_changes_Ok _ _)) in E.
      injection E as <- <-. split; [by apply winv_changes|by intros []].
  - rewrite st_bind_eq in E. cbn [get_admin] in E. rewrite (st_bind_Ok _ _ _ _ _ (rollback_changes_Ok _ _)) in E.
    injection E as <- <-. split; [by apply winv_changes|by intros []].
Qed.

Lemma clear_winv w : winv w → ∃ w', clear_txn_state w = Ok (tt, w') ∧ restored s0 old js w'.
Proof. intros I. destruct (clear_Ok w) as (w' & E & R & _); [apply I..|]. eauto. Qed.

Lemma rollback_Ok w : winv w → ∃ w', txn_rollback t w = Ok (inl tt, w') ∧ restored s0 old js w'.
Proof.
  intros I. destruct (clear_winv w I) as (w' & E & R). exists w'. split; [|done].
  unfold txn_rollback, mbind, adm_bind. rewrite check_token_Ok by done. unfold adm. by rewrite E.
Qed.

(** An applied action either keeps the transaction open or ends it. *)
Lemma txn_apply_spec action w r w' : winv w → unapplied_changes_ (admin w) = [] →
  txn_apply commit t action w = Ok (r, w') →
  match r with
  | inl (Some (a, _)) => a = action ∧ winv w' ∧ unapplied_changes_ (admin w') = []
  | inl None => restored s0 old js w'
  | inr _ => False
  end.
Proof.
  intros I HU E. unfold txn_apply, mbind, adm_bind in E. rewrite check_token_Ok in E by done.
  unfold adm in E. cbn [on_admin get_admin admin] in E. rewrite HU in E. cbn [app] in E.
  set (w1 := MkWorld _ (with_changes [action] (applied_changes_ (admin w)) (admin w)) _ _) in E.
  assert (I1 : winv w1) by by apply winv_changes.
  rewrite decide_True in E by apply I1. unfold process_changes in E. rewrite st_bind_eq in E. cbn [get_admin admin] in E.
  replace (unapplied_changes_ (admin w1)) with [action] in E by done.
  destruct (process_loop commit [action] w1) as [[r2 w2]|] eqn:EP; [|done].
  destruct (process_one _ _ _ _ I1 EP) as [I2 HU2]. destruct r2 as [vs|].
  - injection E as <- <-. split_and!; [done|by apply winv_changes|]. cbn. by apply HU2.
  - destruct (clear_winv w2 I2) as (w3 & E3 & R3). rewrite E3 in E. injection E as <- <-. done.
Qed.

(** A client applies actions one after the other until one fails. *)
Fixpoint session (actions : list AdminAction) : Adm (option (list text)) :=
  match actions with
  | [] => mret (Some [])
  | action :: rest =>
      r ← txn_apply commit t action;
      match r with
      | None => mret None
      | Some (_, v) => vs ← session rest; mret ((v ::.) <$> vs)
      end
  end.
Lemma session_spec actions w r w' : winv w → unapplied_changes_ (admin w) = [] → session actions w = Ok (r, w') →
  match r with
  | inl (Some vs) => length vs = length actions ∧ winv w' ∧ unapplied_changes_ (admin w') = []
  | inl None => restored s0 old js w'
  | inr _ => False
  end.
Proof.
  revert w r w'. induction actions as [|action actions IH]; intros w r w' I HU E; cbn in E; [by injection E as <- <-|].
  unfold mbind, adm_bind in E. destruct (txn_apply commit t action w) as [[x w1]|] eqn:E1; [|done].
  pose proof (txn_apply_spec _ _ _ _ I HU E1) as HA. destruct x as [[[a v]|]|e]; [| |done].
  - destruct HA as (-> & I1 & U1). destruct (session actions w1) as [[x w2]|] eqn:E2; [|done].
    specialize (IH _ _ _ I1 U1 E2). destruct x as [[vs|]|e]; [| |done]; injection E as <- <-; cbn; [|done].
    destruct IH as (-> & ? & ?). done.
  - by injection E as <- <-.
Qed.
End transaction.

(** ** Commits *)
Section commits.
Variables (s0 : Store) (old : list positive) (t : Z) (n : positive) (js : list ViewUpdateJob).
Hypothesis old_nodup : NoDup old.
Hypothesis token_valid : t ≠ INVALID_TOKEN.
Variable commit : AdminAction → Adm (bool * text).
Variable new_addr : list positive → positive.
Variable GLOBAL_STATE : positive.
Variable now : Z.

(** [txn_commit] installs the children of the new root, releases all locks and then runs
    the update handlers on the installed tree. *)
Lemma txn_commit_Ok w og0 : winv s0 old t n js w → unapplied_changes_ (admin w) = [] → GLOBAL_STATE ∈ old →
  s0 !! GLOBAL_STATE = Some og0 → owners (mutex_ (local og0)) = (0, false, false) → writing_ (local og0) = false →
  ∃ on og w3, objects w !! n = Some on ∧
    txn_commit new_addr GLOBAL_STATE commit now t w = (adm (update_all new_addr GLOBAL_STATE now);; mret true) w3 ∧
    mjoin (children_ og !! CHILD_IDX_NET) = mjoin (children_ on !! CHILD_IDX_NET) ∧
    mjoin (children_ og !! CHILD_IDX_VIEWS) = mjoin (children_ on !! CHILD_IDX_VIEWS) ∧
    props og = props og0 ∧
    restored (<[GLOBAL_STATE := og]> s0) old js w3 ∧
    ∀ a o, a ∉ old → objects w !! a = Some o → ∃ o', objects w3 !! a = Some o' ∧ props o' = props o ∧
      children_ o' = children_ o ∧ (a ∈ wl w → writing_ (local o') = false).
Proof.
  intros I HU HG E0 HO HW. destruct (si_write _ _ _ _ (wi_store _ _ _ _ _ _ I) n (wi_root_in _ _ _ _ _ _ I)) as [Hn (on & En & _)].
  destruct (si_old _ _ _ _ (wi_store _ _ _ _ _ _ I) _ HG) as (o0' & o & E0' & Eg & [K1 K2 K3 K4]). rewrite E0 in E0'. injection E0' as <-.
  destruct (upgraded_Ok o) as (sv1 & EL & W1 & D1 & O1); [unfold owners in HO; rewrite K4; congruence|congruence|].
  set (o1 := with_server sv1 o). assert (Hne : n ≠ GLOBAL_STATE) by congruence.
  destruct (global_apply_Ok n GLOBAL_STATE (<[GLOBAL_STATE := o1]> (objects w)) on o1) as (o2 & EA & W2 & M2 & P2 & C2 & C2');
    [by rewrite lookup_insert_ne|by rewrite lookup_insert_eq|done|done|]. rewrite insert_insert_eq in EA.
  destruct (downgraded_Ok o2 W2) as (sv3 & EU & W3 & D3 & O3). set (o3 := with_server sv3 o2).
  set (og := MkDist (with_mutex (mutex_ (local og0)) (local o3)) (props og0) (children_ o3)).
  set (w3 := MkWorld (<[GLOBAL_STATE := o3]> (objects w)) (admin w) (rng_ w) (enqueued w)).
  assert (KG : kept true og o3).
  { split; cbn; [done| |done|].
    - rewrite D3, P2. cbn. by rewrite D1.
    - rewrite O3, M2. cbn. unfold owners in O1, HO. injection O1 as -> _ _. by injection HO as -> _ ->. }
  assert (I3 : sinv (<[GLOBAL_STATE := og]> s0) old (wl w3) (objects w3)).
  { destruct (wi_store _ _ _ _ _ _ I) as [J1 J2]. split; cbn.
    - intros a Ha. destruct (decide (GLOBAL_STATE = a)) as [<-|Ha']; [exists og, o3; by rewrite !lookup_insert_eq|].
      rewrite !lookup_insert_ne by done. by apply J1.
    - intros a Ha. destruct (J2 a Ha) as [Ho ?]. split; [done|]. by rewrite lookup_insert_ne by congruence. }
  destruct (clear_Ok (<[GLOBAL_STATE := og]> s0) old js old_nodup w3) as (w4 & E4 & R4 & s1 & [L1 L2] & L3); [done|apply I..|].
  exists on, og, w4. split_and!; [done| |done|done|done|done|].
  - unfold txn_commit, mbind, adm_bind. rewrite (check_token_Ok s0 old t n js token_valid w I). unfold adm, process_changes.
    rewrite st_bind_eq. cbn [get_admin]. rewrite HU. cbn [process_loop mret st_ret]. rewrite (wi_old _ _ _ _ _ _ I), decide_True by done.
    unfold on_store. unfold lock. rewrite (on_object_Ok _ _ _ _ _ _ Eg EL). cbn [admin objects rng_ enqueued].
    rewrite (wi_root _ _ _ _ _ _ I). cbn [from_option_or st_lift]. fold o1. cbn [objects]. rewrite EA. cbn [admin objects rng_ enqueued].
    unfold unlock. rewrite (on_object_Ok _ _ _ _ _ _ (lookup_insert_eq _ _ _) EU), insert_insert_eq. cbn [admin objects rng_ enqueued].
    fold o3 w3. by rewrite E4.
  - intros a oa Ha Ea. rewrite L3 by done. assert (Ea3 : objects w3 !! a = Some oa) by (cbn; by rewrite lookup_insert_ne by congruence).
    destruct (decide (a ∈ wl w)) as [Hw|Hw].
    + destruct (L2 a oa Hw Ea3) as (o' & ? & ? & ? & ?). eauto 10.
    + exists oa. rewrite (L1 a Hw). by split_and!.
Qed.

End commits.
End ends.
