(* ===== verification/AdminProperties.v ===== *)
(** * Properties of the administration of the portal server

    Transactions and their errors, tokens, the registry of views and copies of views. *)
From S2P Require Import Prelude StdMap Double IpAddr Pid Locking PrefixTable ServerObject.
From S2P Require Import PidMap PidMatrix PidAggregation NetState PidRouting ViewUpdate.
From S2P Require Import Patricia PatriciaTrie PatriciaTrieSpec Mlu ViewProperties RoutingProperties.
From S2P Require Import JobQueue DistObj Views AdminState AdminActions AdminSpec AdminTree.
From S2P Require Import RegistrySpec AdminTxn AdminCommit AdminBegin AdminEnd.

(** ** Tokens *)
Lemma hex_value_digit d : (0 ≤ d < 16)%Z → hex_value (hex_digit d) = Some d.
Proof.
  intros Hd. assert (HC : d ∈ (Z.of_nat <$> seq 0 16)).
  { apply list_elem_of_fmap. exists (Z.to_nat d). rewrite elem_of_seq. split; lia. }
  revert d Hd HC. cut (Forall (λ d, hex_value (hex_digit d) = Some d) (Z.of_nat <$> seq 0 16)).
  { intros HF d _ Hd. by apply (proj1 (Forall_forall _ _) HF). }
  repeat constructor.
Qed.

Lemma hex_digits_length n z : length (hex_digits n z) = n.
Proof. revert z. induction n as [|n IH]; intros z; [done|]. cbn. rewrite length_app, IH. cbn. lia. Qed.

Lemma read_hex_app acc l c : (∀ x, x ∈ l → is_Some (hex_value x)) →
  read_hex acc (l ++ c) = read_hex (read_hex acc l).1 c.
Proof.
  revert acc. induction l as [|x l IH]; intros acc HL; [done|]. cbn. destruct (HL x ltac:(left)) as [d ->].
  apply IH. intros y Hy. apply HL. by right.
Qed.

Lemma hex_digits_hex n z x : x ∈ hex_digits n z → is_Some (hex_value x).
Proof.
  revert z. induction n as [|n IH]; intros z; cbn; [by intros ?%not_elem_of_nil|].
  intros [Hx| ->%list_elem_of_singleton]%elem_of_app; [by eapply IH|]. rewrite hex_value_digit by (apply Z.mod_pos_bound; lia). eauto.
Qed.

Lemma read_hex_digits n z : (0 ≤ z < 16 ^ Z.of_nat n)%Z → read_hex 0 (hex_digits n z) = (z, []).
Proof.
  revert z. induction n as [|n IH]; intros z Hz.
  { replace z with 0%Z by (cbn in Hz; lia). done. }
  cbn [hex_digits]. rewrite read_hex_app by apply hex_digits_hex. rewrite Nat2Z.inj_succ, Z.pow_succ_r in Hz by lia.
  rewrite IH by (split; [apply Z.div_pos; lia|apply Z.div_lt_upper_bound; lia]). cbn.
  rewrite hex_value_digit by (apply Z.mod_pos_bound; lia). f_equal. pose proof (Z_div_mod_eq_full z 16). lia.
Qed.

(** A digit is neither white space nor a sign nor the letter of the prefix 0x. *)
Lemma hex_plain c d : hex_value c = Some d → is_space c = false ∧ c ≠ Ascii.ascii_of_nat 45 ∧ c ≠ Ascii.ascii_of_nat 43 ∧
  c ≠ Ascii.ascii_of_nat 120 ∧ c ≠ Ascii.ascii_of_nat 88.
Proof.
  intros E. split_and!; [|by intros ->..]. unfold hex_value in E. unfold is_space.
  set (n := Ascii.nat_of_ascii c) in *. destruct (n =? 32) eqn:E1.
  { apply Nat.eqb_eq in E1. rewrite E1 in E. done. }
  destruct (9 <=? n) eqn:E2; [|done]. destruct (n <=? 13) eqn:E3; [|done]. apply Nat.leb_le in E2, E3. exfalso.
  replace ((48 <=? Z.of_nat n)%Z) with false in E by lia. replace ((97 <=? Z.of_nat n)%Z) with false in E by lia.
  replace ((65 <=? Z.of_nat n)%Z) with false in E by lia. done.
Qed.

(** C32. [token_to_string] and [string_to_token]: the text of a token has 16 digits, and
    [string_to_token] accepts it and returns the token. *)
Theorem token_text_round_trip (token : Z) : (0 ≤ token < 2 ^ 64)%Z →
  length (token_to_string token) = 16 ∧ string_to_token (token_to_string token) = (true, Some token).
Proof.
  intros Ht. unfold token_to_string. assert (u64 token = token) as -> by by apply Z.mod_small. split; [apply hex_digits_length|].
  pose proof (read_hex_digits 16 token Ht) as ER. pose proof (hex_digits_length 16 token) as EL. pose proof (hex_digits_hex 16 token) as EH.
  set (l := hex_digits 16 token) in *. destruct l as [|c [|c' l]]; [done..|].
  destruct (EH c ltac:(left)) as [d Ed], (EH c' ltac:(right; left)) as [d' Ed']. destruct (hex_plain c d Ed) as (S1 & N1 & N2 & _).
  destruct (hex_plain c' d' Ed') as (_ & _ & _ & X1 & X2).
  unfold string_to_token, strtoull16. rewrite decide_False by done. cbn [skip_space]. rewrite S1. unfold sign_of.
  rewrite (decide_False (P := c = Ascii.ascii_of_nat 45)), (decide_False (P := c = Ascii.ascii_of_nat 43)) by done.
  assert (ES : skip_0x (c :: c' :: l) = c :: c' :: l) by (unfold skip_0x; destruct l; [done|]; rewrite decide_False; [done|]; by intros (_ & [?|?] & _)).
  rewrite ES. cbv beta iota zeta. rewrite decide_True by (rewrite Ed; eauto). rewrite ER.
  replace (ULLONG_MAX <? token)%Z with false by (unfold ULLONG_MAX; lia). done.
Qed.
Lemma token_text_round_trip_witness : string_to_token (token_to_string 305419896) = (true, Some 305419896%Z).
Proof. apply (token_text_round_trip 305419896). lia. Defined.

(** ** Copies of views *)
Section copies.
Context {M : Type} `{SharedMutexLaws M} {P T : Type} `{PrefixTable PID T}.
Variable new_addr : list positive → positive.
Variable get_instance : text → option P.

(** The copy of the properties of a view, as [View::do_copy_properties] makes it. *)
Definition unnamed (v : ViewData P) : ViewData P :=
  let name := vd_plugin_name v in
  let inst := if decide (name = []) then None else get_instance name in
  MkViewData [] (if decide (is_Some inst) then name else []) inst (vd_update_interval v) (vd_extra_node_action v)
    (vd_default_intrapid_pdistance v) (vd_default_interpid_pdistance v) (vd_default_interdomain_pdistance v)
    (vd_default_pidlink_pdistance v) (vd_interdomain_includes_intradomain v) (vd_pid_ttl v) (vd_pdistance_ttl v).

Lemma view_put_Ok (f : ViewData P → ViewData P) (s : Server M (ViewData P)) : writing_ (so_object s) = true →
  ∃ s', view_put f s = Ok (tt, s') ∧ so_data s' = f (so_data s) ∧ writing_ (so_object s') = true.
Proof.
  intros Hw. unfold view_put. destruct (so_changed_Ok (MkServer (so_object s) (f (so_data s))) Hw) as (l & EC & [Wl _]).
  exists (MkServer l (f (so_data s))). cbn in Wl. split_and!; [|done|cbn; congruence]. rewrite st_bind_eq. cbn. rewrite st_bind_eq. cbn. by rewrite EC.
Qed.

Lemma set_plugin_Ok name (s : Server M (ViewData P)) : writing_ (so_object s) = true → vd_plugin_name (so_data s) = [] → vd_plugin_inst (so_data s) = None →
  ∃ b s', set_plugin get_instance name s = Ok (b, s') ∧ writing_ (so_object s') = true ∧
    let inst := if decide (name = []) then None else get_instance name in
    so_data s' = with_plugin (if decide (is_Some inst) then name else []) inst (so_data s).
Proof.
  intros Hw HN HI. unfold set_plugin. rewrite st_bind_eq. cbn. rewrite HN. case_decide as Hne; [subst name|].
  - exists true, s. split_and!; [done..|]. cbv zeta. destruct s as [l []]. cbn in *. subst. by repeat case_decide.
  - cbv zeta. destruct (decide (name = [])) as [->|_]; [done|]. destruct (get_instance name) as [p|] eqn:E; cbn.
    + destruct (so_changed_Ok (MkServer (so_object s) (with_plugin name (Some p) (so_data s))) Hw) as (l & EC & [Wl _]).
      exists true, (MkServer l (with_plugin name (Some p) (so_data s))). cbn in Wl. rewrite st_bind_eq. cbn. rewrite st_bind_eq. cbn. rewrite EC.
      split_and!; [done|cbn; congruence|]. by case_decide as HS; [|destruct HS; eauto].
    + exists false, s. split_and!; [done..|]. case_decide as HS; [by destruct HS|]. destruct s as [l []]. cbn in *. by subst.
Qed.

Lemma view_put_then f (k : unit → ST (Server M (ViewData P)) unit) s (Q : Server M (ViewData P) → Prop) : writing_ (so_object s) = true →
  (∀ s', so_data s' = f (so_data s) → writing_ (so_object s') = true → ∃ s'', k tt s' = Ok (tt, s'') ∧ Q s'') →
  ∃ s'', (view_put f ≫= k) s = Ok (tt, s'') ∧ Q s''.
Proof. intros Hw HK. destruct (view_put_Ok f s Hw) as (s' & E & D & W). rewrite (st_bind_Ok _ _ _ _ _ E). by apply HK. Qed.

(** One setter; the properties so far are those of a record. *)
Ltac view_fields D := cbv beta iota delta [vd_name vd_plugin_name vd_plugin_inst vd_update_interval vd_extra_node_action
  vd_default_intrapid_pdistance vd_default_interpid_pdistance vd_default_interdomain_pdistance vd_default_pidlink_pdistance
  vd_interdomain_includes_intradomain vd_pid_ttl vd_pdistance_ttl] in D.
Ltac view_step D W := apply view_put_then; [exact W|]; let s := fresh "s" in let D2 := fresh "D" in let W2 := fresh "W" in
  intros s D2 W2; rewrite D in D2; view_fields D2; clear D W; rename D2 into D; rename W2 into W.

Lemma copy_view_data_Ok v (s : Server M (ViewData P)) : writing_ (so_object s) = true → so_data s = new_view_data [] →
  ∃ s', copy_view_data get_instance v s = Ok (tt, s') ∧ so_data s' = unnamed v ∧ writing_ (so_object s') = true.
Proof.
  intros Hw HD. unfold copy_view_data. destruct (set_plugin_Ok (vd_plugin_name v) s Hw) as (b & s1 & E1 & W1 & D1); [by rewrite HD..|].
  rewrite (st_bind_Ok _ _ _ _ _ E1). rewrite HD in D1. clear E1 HD Hw s.
  unfold with_plugin, new_view_data in D1. view_fields D1.
  unfold set_update_interval, set_extra_node_action, set_default_intrapid_pdistance, set_default_interpid_pdistance,
    set_default_interdomain_pdistance, set_default_pidlink_pdistance, set_interdomain_includes_intradomain, set_pid_ttl, set_pdistance_ttl.
  do 8 (view_step D1 W1). edestruct (view_put_Ok (λ d, MkViewData (vd_name d) (vd_plugin_name d) (vd_plugin_inst d) (vd_update_interval d)
    (vd_extra_node_action d) (vd_default_intrapid_pdistance d) (vd_default_interpid_pdistance d) (vd_default_interdomain_pdistance d)
    (vd_default_pidlink_pdistance d) (vd_interdomain_includes_intradomain d) (vd_pid_ttl d) (vd_pdistance_ttl v)) _ W1) as (sx & E & D & W).
  exists sx. split; [exact E|]. split; [|exact W]. rewrite D, D1. reflexivity.
Qed.

Lemma copy_session_Ok v (s : Server M (Props M P T)) : so_data s = ViewP (new_view_data []) → writing_ (so_object s) = false →
  exclusive_owned (mutex_ (so_object s)) = false →
  ∃ s', write_session (of_view (copy_view_data get_instance v)) s = Ok (tt, s') ∧ so_data s' = ViewP (unnamed v) ∧ writing_ (so_object s') = false.
Proof.
  intros HD Hw He. destruct s as [l d]. cbn in HD, Hw, He. subst d.
  destruct (write_lock_Ok (MkDist l (ViewP (new_view_data []) : Props M P T) []) He Hw) as ([l1 d1] & EL & W1 & D1). cbn in D1, W1. subst d1.
  destruct (copy_view_data_Ok v (MkServer l1 (new_view_data [])) W1 eq_refl) as ([l2 d2] & EC & D2 & W2). cbn in D2, W2. subst d2.
  destruct (unlock_write_Ok (MkDist l2 (ViewP (unnamed v) : Props M P T) []) W2) as ([l3 d3] & EU & D3 & W3). cbn in D3, W3. subst d3.
  exists (MkServer l3 (ViewP (unnamed v))). split_and!; [|done|done]. unfold write_session.
  unfold as_server in EL, EU. cbn [local props] in EL, EU. rewrite (st_bind_Ok _ _ _ _ _ EL).
  rewrite (st_bind_Ok _ _ _ tt (MkServer l2 (ViewP (unnamed v)))) by (unfold of_view, as_class; cbn [so_data to_view so_object]; by rewrite EC).
  by rewrite (st_bind_Ok _ _ _ _ _ EU).
Qed.

(** C40. [View::do_copy_properties] copies every property of a view but its name: the copy,
    which a transaction installs in place of the view, is unnamed, and after the commit
    [View::on_update] schedules the updates of the view without name, that is of DEFAULT. *)
Theorem view_copy_loses_name now (s : Server M (Props M P T)) v : so_data s = ViewP v →
  ∃ new, do_copy_properties get_instance new_addr s = Ok (new, s) ∧ so_data new = ViewP (unnamed v) ∧ vd_name (unnamed v) = [] ∧
    ∀ st a o, st !! a = Some o → props o = so_data new → (0 < vd_update_interval v)%Z →
      on_update new_addr now a st = Ok ([ViewUpdateJob_new (now + vd_update_interval v) []], st).
Proof.
  intros HD. destruct (created_Ok (ViewP (new_view_data []) : Props M P T)) as (s1 & E1 & D1 & W1 & O1).
  destruct (copy_session_Ok v s1 D1 W1) as (s2 & E2 & D2 & W2); [unfold owners in O1; congruence|].
  exists s2. split_and!; [|done|done|].
  - unfold do_copy_properties. rewrite HD, E1. cbn. by rewrite E2.
  - intros st a o Ea Hp Hi. unfold on_update. rewrite (st_bind_Ok _ _ _ _ _ (obj_Ok a o st Ea)), Hp, D2. cbn.
    by destruct (Z.ltb_spec 0 (vd_update_interval v)); [|lia].
Qed.
End copies.
#[local] Instance demo_table : PrefixTable PID (PatriciaTrie PID) := trie_table PID_ltb.
Abbreviation DemoProps := (Props counting_mutex (MLUPlugin counting_mutex) (PatriciaTrie PID)).
Definition demo_copied : Server counting_mutex DemoProps := MkServer (LocalObject_new 0) (ViewP (new_view_data (txt "isp"))).
Lemma view_copy_loses_name_witness : ∃ new, do_copy_properties (λ _, None) next_addr demo_copied = Ok (new, demo_copied) ∧
  so_data new = ViewP (unnamed (λ _, None) (new_view_data (txt "isp"))).
Proof.
  destruct (view_copy_loses_name next_addr (λ _, None) 0 demo_copied (new_view_data (txt "isp")) eq_refl) as (new & E & D & _). exists new. split; [exact E|exact D].
Defined.

(** ** The registry of views *)
Section registry.
Context {M : Type} `{SharedMutexLaws M} {P T : Type} `{PrefixTable PID T}.
Variable new_addr : list positive → positive.
Abbreviation Store := (store M (Props M P T)).

(** C30. [ViewRegistry] refines a finite map from names to views: [get] looks a name up (the
    empty name stands for DEFAULT), [add] enters a new view with the default properties as
    long as one of the 256 slots is free and otherwise fails without an effect, [remove]
    deletes a name that is there and frees a slot; all other objects stay as they are. *)
Theorem registry_refines_map trie r (s : Store) m name : (∀ l, new_addr l ∉ l) → pt_new = Ok trie → registry_rel r s m →
  registry_get name r s = Ok (m !! view_name name, s) ∧
  (¬ has_room r s → registry_add new_addr name r s = Ok (false, s)) ∧
  (has_room r s → ∃ v s' o, registry_add new_addr name r s = Ok (true, s') ∧ s !! v = None ∧ registry_rel r s' (<[name := v]> m) ∧
    s' !! v = Some o ∧ props o = ViewP (new_view_data name) ∧ ∀ a oa, a ≠ r → s !! a = Some oa → s' !! a = Some oa) ∧
  (m !! name = None → registry_remove name r s = Ok (false, s)) ∧
  (is_Some (m !! name) → ∃ s', registry_remove name r s = Ok (true, s') ∧ registry_rel r s' (delete name m) ∧ has_room r s' ∧
    ∀ a, a ≠ r → s' !! a = s !! a).
Proof.
  intros HF ET HR. pose proof (registry_remove_Ok r s m name HR) as HX. split_and!.
  - by apply registry_get_Ok.
  - by eapply registry_add_full.
  - intros Hroom. destruct (registry_add_Ok new_addr HF trie r s m name ET HR Hroom) as (v & s' & o & ? & ? & ? & ? & ? & ? & _). eauto 10.
  - intros E. by rewrite E in HX.
  - intros [v E]. by rewrite E in HX.
Qed.

(** [ViewRegistry::add] of a name that is there succeeds: the view that had the name
    keeps its slot although no name leads to it any more, so that neither [get] nor
    [remove] reaches it again. *)
Theorem registry_add_leaks_view trie r (s : Store) m name v0 : (∀ l, new_addr l ∉ l) → pt_new = Ok trie → wf s → registry_rel r s m →
  has_room r s → m !! name = Some v0 → is_Some (s !! v0) →
  ∃ s', registry_add new_addr name r s = Ok (true, s') ∧
    (∃ o' i, s' !! r = Some o' ∧ children_ o' !! i = Some (Some v0)) ∧ ∀ n, registry_get n r s' ≠ Ok (Some v0, s').
Proof.
  intros HF ET W HR Hroom Em [o0 Ev0]. pose proof HR as (o & d & HD).
  destruct (registry_add_Ok new_addr HF trie r s m name ET HR Hroom) as (v & s' & ov & EA & Nv & HR' & _ & _ & _ & (o1 & o' & E1 & E2 & K)).
  rewrite (rh_obj _ _ _ _ _ HD) in E1. injection E1 as <-. rewrite (rh_map _ _ _ _ _ HD) in Em.
  destruct (map_find text_ltb name d) as [i|] eqn:Ei; [|done]. cbn in Em.
  assert (Ec : children_ o !! i = Some (Some v0)) by (destruct (children_ o !! i) as [[c|]|]; naive_solver).
  exists s'. split_and!; [done|exists o', i; split; [done|by apply K]|]. intros n. rewrite (registry_get_Ok r s' _ n HR'). intros [= En].
  destruct (decide (view_name n = name)) as [HE|Hn]; [rewrite HE, lookup_insert_eq in En; congruence|]. rewrite lookup_insert_ne in En by done.
  rewrite (rh_map _ _ _ _ _ HD) in En. destruct (map_find text_ltb (view_name n) d) as [j|] eqn:Ej; [|done]. cbn in En.
  assert (Ec' : children_ o !! j = Some (Some v0)) by (destruct (children_ o !! j) as [[c|]|]; naive_solver).
  rewrite (wf_once _ W _ _ _ _ _ (rh_obj _ _ _ _ _ HD) Ec' Ec) in Ej. by apply Hn, (rh_inj _ _ _ _ _ HD _ _ _ Ej Ei).
Qed.
End registry.

(** A registry with one view, locked for writing. *)
Definition demo_registry : store counting_mutex DemoProps :=
  <[1%positive := MkDist (LObj (CMutex 1 false false) true false 0) (ViewRegistry [(txt "v", 0)]) [Some 2%positive]]>
  (<[2%positive := MkDist (LocalObject_new 0) (ViewP (new_view_data (txt "v"))) []]> ∅).
Lemma demo_find n i : map_find text_ltb n [(txt "v", 0)] = Some i ↔ n = txt "v" ∧ i = 0.
Proof. rewrite (map_find_elem text_ltb) by repeat constructor. rewrite list_elem_of_singleton. split; [by intros [= -> ->]|by intros [-> ->]]. Qed.
Lemma demo_registry_rel : registry_rel 1 demo_registry {[txt "v" := 2%positive]}.
Proof.
  eexists _, _. split; [reflexivity|reflexivity|reflexivity|repeat constructor| | |].
  - intros n i [-> ->]%demo_find. split; [unfold MAX_VIEWS; lia|by exists 2%positive].
  - by intros n n' i [-> _]%demo_find [-> _]%demo_find.
  - intros n. destruct (map_find text_ltb n [(txt "v", 0)]) as [i|] eqn:E.
    + apply demo_find in E as [-> ->]. by rewrite lookup_singleton_eq.
    + rewrite lookup_singleton_ne; [done|]. intros <-. by rewrite (proj2 (demo_find _ 0)) in E.
Qed.
Lemma demo_registry_wf : wf demo_registry.
Proof.
  unfold demo_registry. split.
  - intros a o i c [[<- <-]|[_ [[<- <-]|[_ []%lookup_empty_Some]]%lookup_insert_Some]]%lookup_insert_Some; cbn; [|done].
    destruct i as [|i]; [|done]. intros [= <-]. rewrite lookup_insert_ne, lookup_insert_eq by done. eauto.
  - intros a o i j c [[<- <-]|[_ [[<- <-]|[_ []%lookup_empty_Some]]%lookup_insert_Some]]%lookup_insert_Some; cbn; [|done].
    destruct i as [|i], j as [|j]; done.
Qed.
Lemma demo_room : has_room 1 demo_registry.
Proof. eexists _, 1. split; [reflexivity|]. split; [unfold MAX_VIEWS; lia|done]. Qed.
Lemma demo_trie_new : ∃ trie : PatriciaTrie PID, pt_new = Ok trie.
Proof. by eexists. Qed.

Lemma registry_refines_map_witness : ∃ v s', registry_add next_addr (txt "w") 1 demo_registry = Ok (true, s') ∧
  registry_rel 1 s' (<[txt "w" := v]> {[txt "v" := 2%positive]}).
Proof.
  destruct demo_trie_new as [trie ET].
  destruct (registry_refines_map next_addr trie 1 demo_registry _ (txt "w") next_addr_fresh ET demo_registry_rel) as (_ & _ & HA & _).
  destruct (HA demo_room) as (v & s' & o & E & _ & R & _). exists v, s'. split; [exact E|exact R].
Defined.
Lemma registry_add_leaks_view_witness : ∃ s', registry_add next_addr (txt "v") 1 demo_registry = Ok (true, s') ∧
  ∀ n, registry_get n 1 s' ≠ Ok (Some 2%positive, s').
Proof.
  destruct demo_trie_new as [trie ET].
  destruct (registry_add_leaks_view next_addr trie 1 demo_registry _ (txt "v") 2 next_addr_fresh ET demo_registry_wf demo_registry_rel
    demo_room) as (s' & E & _ & HN); [apply lookup_singleton_eq|by eexists|]. exists s'. split; [exact E|exact HN].
Defined.

(** ** Transactions *)
Section transactions.
Context {M : Type} `{SharedMutexLaws M} {P T : Type} `{PrefixTable PID T} `{!OptPluginBase M P}.
Variable new_addr : list positive → positive.
Variable get_instance : text → option P.
Variable visit : PinnedPIDSet → list PinnedPID.
Variable dijkstra : NetGraph → NetVertex → gmap NetVertex nat → gmap positive double → outcome (gmap NetVertex NetVertex).
Variable cast_double : text → option double.
Variable cast_bool : text → option bool.
Variable cast_unsigned : text → option Z.
Variable print_double : double → text.
Variable print_bool : bool → text.
Variable print_unsigned : Z → text.
Variable GLOBAL_STATE : positive.
Abbreviation World := (World (M := M) (P := P) (T := T) (Act := AdminAction)).
Abbreviation commit := (commit new_addr get_instance visit dijkstra cast_double cast_bool cast_unsigned print_double print_bool print_unsigned).
Abbreviation txn_begin := (txn_begin new_addr get_instance GLOBAL_STATE).
Implicit Types w : World.

(** No transaction is open, and the tree below the root and the jobs are those of [w0]: the
    objects have the same children, versions, locks and properties, up to the index of
    static routes. *)
Record undone w0 w : Prop := {
  un_idle : idle (admin w);
  un_tree a : reach (objects w0) GLOBAL_STATE a → ∃ o0 o, objects w0 !! a = Some o0 ∧ objects w !! a = Some o ∧ kept false o0 o;
  un_jobs : enqueued w = enqueued w0
}.

(** C2. Copy-on-write transactions: when none is open and the tree of objects has no write
    locks and no upgradable locks, [txn_begin] succeeds; after any sequence of actions that [txn_apply] accepted
    [txn_rollback] succeeds and leaves the installed tree, its locks and the jobs as they
    were before [txn_begin], and an action that fails has the same effect by itself. *)
Theorem txn_rollback_restores w : (∀ l, new_addr l ∉ l) → ready GLOBAL_STATE w →
  ∃ token w1, txn_begin TXN_COPY_ON_WRITE w = Ok (inl token, w1) ∧ token ≠ INVALID_TOKEN ∧
    ∀ actions r w2, session token commit actions w1 = Ok (r, w2) →
      match r with
      | inl (Some vs) => length vs = length actions ∧ ∃ w3, txn_rollback token w2 = Ok (inl tt, w3) ∧ undone w w3
      | inl None => undone w w2
      | inr _ => False
      end.
Proof.
  intros HF R. destruct (txn_begin_Ok new_addr HF get_instance GLOBAL_STATE w R) as (t & old & n & w1 & EB & Ht & ND & HR & I & HU).
  assert (HX : ∀ w', restored (objects w) old (enqueued w) w' → undone w w').
  { intros w' [R1 R2 R3]. split; [done| |done]. intros a Ha. by apply R2, HR. }
  exists t, w1. split_and!; [done..|]. intros actions r w2 ES.
  pose proof (session_spec (objects w) old t n (enqueued w) ND commit
    (commit_keeps new_addr HF get_instance visit dijkstra cast_double cast_bool cast_unsigned print_double print_bool print_unsigned _ _ _ _ _)
    Ht actions w1 r w2 I HU ES) as HS. destruct r as [[vs|]|e]; [|by apply HX|done].
  destruct HS as (HL & I2 & _). split; [done|].
  destruct (rollback_Ok (objects w) old t n (enqueued w) ND Ht w2 I2) as (w3 & E3 & R3). eauto.
Qed.

(** C3. [txn_commit] after accepted actions: the root of the installed tree takes the network
    and the registry of the root that the transaction worked on, all other installed
    objects are as they were and without locks, the objects of the transaction keep their
    contents and are no longer locked for writing, the transaction is closed, and then the
    update handlers run on the installed tree and the result is [true]. *)
Theorem txn_commit_installs now w og0 : (∀ l, new_addr l ∉ l) → ready GLOBAL_STATE w → objects w !! GLOBAL_STATE = Some og0 →
  shared_owners (mutex_ (local og0)) = 0 → writing_ (local og0) = false →
  ∃ token w1, txn_begin TXN_COPY_ON_WRITE w = Ok (inl token, w1) ∧
    ∀ actions vs w2, session token commit actions w1 = Ok (inl (Some vs), w2) →
      ∃ new on og w3, new_state_ (admin w2) = Some new ∧ objects w2 !! new = Some on ∧ objects w3 !! GLOBAL_STATE = Some og ∧
        mjoin (children_ og !! CHILD_IDX_NET) = mjoin (children_ on !! CHILD_IDX_NET) ∧
        mjoin (children_ og !! CHILD_IDX_VIEWS) = mjoin (children_ on !! CHILD_IDX_VIEWS) ∧
        (∀ a, reach (objects w) GLOBAL_STATE a → a ≠ GLOBAL_STATE →
          ∃ o0 o, objects w !! a = Some o0 ∧ objects w3 !! a = Some o ∧ kept false o0 o) ∧
        (∀ a o, ¬ reach (objects w) GLOBAL_STATE a → objects w2 !! a = Some o →
          ∃ o', objects w3 !! a = Some o' ∧ props o' = props o ∧ children_ o' = children_ o ∧
            (a ∈ (write_locks_ (admin w2)).*1 → writing_ (local o') = false)) ∧
        idle (admin w3) ∧ enqueued w3 = enqueued w ∧
        txn_commit new_addr GLOBAL_STATE commit now token w2 = (adm (update_all new_addr GLOBAL_STATE now);; mret true) w3.
Proof.
  intros HF R Eg HS HW. destruct (txn_begin_Ok new_addr HF get_instance GLOBAL_STATE w R) as (t & old & n & w1 & EB & Ht & ND & HR & I & HU).
  exists t, w1. split; [done|]. intros actions vs w2 ES.
  pose proof (session_spec (objects w) old t n (enqueued w) ND commit
    (commit_keeps new_addr HF get_instance visit dijkstra cast_double cast_bool cast_unsigned print_double print_bool print_unsigned _ _ _ _ _)
    Ht actions w1 _ w2 I HU ES) as (_ & I2 & HU2).
  assert (HG : GLOBAL_STATE ∈ old) by (apply HR; constructor).
  destruct (tk_unlocked _ _ (rd_tree _ _ R) _ _ (reach_root _ _) Eg) as [Hu He].
  destruct (txn_commit_Ok (objects w) old t n (enqueued w) ND Ht commit new_addr GLOBAL_STATE now w2 og0 I2 HU2 HG Eg) as
    (on & og' & w3 & En & EC & C1 & C2 & _ & [R1 R2 R3] & K); [unfold owners; congruence|done|].
  destruct (R2 _ HG) as (og1 & og & E1 & E2 & KG). rewrite lookup_insert_eq in E1. injection E1 as <-.
  exists n, on, og, w3. rewrite (kp_children _ _ _ KG). split_and!; [apply I2|done|done|done|done| | |done|done|done].
  - intros a Ha Hne. destruct (R2 a) as (o0 & o & E0 & Eo & Ko); [by apply HR|]. rewrite lookup_insert_ne in E0 by done. eauto.
  - intros a o Ha Ea. apply K; [by rewrite HR|done].
Qed.

(** Tokens protect transactions: an operation of a transaction without one that is open,
    or with another token, throws and changes nothing, and so does [txn_begin] while a
    transaction is open. *)
Theorem txn_errors_change_nothing now w token action type :
  (token_ (admin w) ≠ INVALID_TOKEN → txn_begin type w = Ok (inr admin_duplicate_txn_error, w)) ∧
  (token_ (admin w) ≠ token ∨ token = INVALID_TOKEN →
    let e := if decide (token_ (admin w) = INVALID_TOKEN) then admin_no_txn_error else admin_wrong_token_error in
    txn_apply commit token action w = Ok (inr e, w) ∧ txn_rollback token w = Ok (inr e, w) ∧
    txn_commit new_addr GLOBAL_STATE commit now token w = Ok (inr e, w)).
Proof.
  split.
  - intros Ht. unfold AdminState.txn_begin, mbind, adm_bind, adm, get_admin. by rewrite decide_True.
  - intros HT e. assert (EC : check_txn_token token w = Ok (inr e, w)).
    { unfold check_txn_token, mbind, adm_bind, adm, get_admin, e. case_decide; [done|]. rewrite decide_True; [done|]. naive_solver. }
    unfold txn_apply, txn_rollback, txn_commit, mbind, adm_bind. by rewrite EC.
Qed.
End transactions.

(** A new tree: the root, an empty network and an empty registry. *)
Abbreviation DemoWorld := (World (M := counting_mutex) (P := MLUPlugin counting_mutex) (T := PatriciaTrie PID) (Act := AdminAction)).
Definition demo_root : DistributedObject counting_mutex DemoProps := MkDist (LocalObject_new 0) GlobalState [Some 2%positive; Some 3%positive].
Definition demo_objects : store counting_mutex DemoProps :=
  <[1%positive := demo_root]>
  (<[2%positive := MkDist (LocalObject_new 0) (NetStateP (MkNetData (MkNetGraph [] []) [] [])) []]>
  (<[3%positive := MkDist (LocalObject_new 0) (ViewRegistry []) []]> ∅)).
Definition demo_world : DemoWorld := MkWorld demo_objects AdminState_new [5; 0]%Z [].

Lemma demo_lookup a o : demo_objects !! a = Some o →
  local o = LocalObject_new 0 ∧ ((a = 1%positive ∧ children_ o = [Some 2%positive; Some 3%positive]) ∨ (a ≠ 1%positive ∧ children_ o = [])).
Proof.
  unfold demo_objects. intros [[<- <-]|[? E]]%lookup_insert_Some; [by split; [|left]|].
  by apply lookup_insert_Some in E as [[<- <-]|[? [[<- <-]|[? []%lookup_empty_Some]]%lookup_insert_Some]]; (split; [|right]).
Qed.
Lemma demo_child a o i c : demo_objects !! a = Some o → children_ o !! i = Some (Some c) →
  a = 1%positive ∧ ((i = 0 ∧ c = 2%positive) ∨ (i = 1 ∧ c = 3%positive)).
Proof.
  intros (_ & [[-> ->]|[_ ->]])%demo_lookup; [|done]. intros E. split; [done|].
  destruct i as [|[|i]]; [left; by injection E as <-|right; by injection E as <-|done].
Qed.
Lemma demo_ready : ready 1 demo_world.
Proof.
  split; [by split_and!| |by exists demo_root|by exists 5%Z, 0%Z, []]. split.
  - split.
    + intros a o i c Ea Ei. destruct (demo_child _ _ _ _ Ea Ei) as [_ [[_ ->]|[_ ->]]]; by eexists.
    + intros a o i j c Ea Ei Ej. destruct (demo_child _ _ _ _ Ea Ei) as [_ ?], (demo_child _ _ _ _ Ea Ej) as [_ ?]. naive_solver.
  - by eexists.
  - intros a o i _ Ea Ei. by destruct (demo_child _ _ _ _ Ea Ei) as [_ [[_ ?]|[_ ?]]].
  - intros a b oa ob i j c _ _ Ea Eb Ei Ej. destruct (demo_child _ _ _ _ Ea Ei) as [-> _], (demo_child _ _ _ _ Eb Ej) as [-> _]. done.
  - intros a o _ [-> _]%demo_lookup. done.
Qed.

Definition demo_commit : AdminAction → Adm (bool * text) :=
  commit next_addr (λ _, None) id demo_dijkstra (λ _, None) (λ _, None) (λ _, None) (λ _, []) (λ _, []) (λ _, []).
(** A node is added to the network. *)
Definition demo_actions : list AdminAction := [AdminNetNodeAdd (txt "n") false; AdminNetNodeAdd (txt "m") true].
Definition demo_open : DemoWorld :=
  Eval vm_compute in match txn_begin next_addr (λ _, None) 1 TXN_COPY_ON_WRITE demo_world with Ok (_, w) => w | Fault _ => demo_world end.
Definition demo_applied : DemoWorld :=
  Eval vm_compute in match session 5 demo_commit demo_actions demo_open with Ok (_, w) => w | Fault _ => demo_world end.
Lemma demo_begin_eq : txn_begin next_addr (λ _, None) 1 TXN_COPY_ON_WRITE demo_world = Ok (inl 5%Z, demo_open).
Proof. vm_compute. reflexivity. Qed.
Lemma demo_session_eq : session 5 demo_commit demo_actions demo_open = Ok (inl (Some [[]; []]), demo_applied).
Proof. vm_compute. reflexivity. Qed.

Lemma txn_rollback_restores_witness : ∃ w, txn_rollback 5 demo_applied = Ok (inl tt, w) ∧ undone 1 demo_world w.
Proof.
  destruct (txn_rollback_restores next_addr (λ _, None) id demo_dijkstra (λ _, None) (λ _, None) (λ _, None) (λ _, []) (λ _, []) (λ _, []) 1 demo_world
    next_addr_fresh demo_ready) as (t & w1 & EB & _ & HS). rewrite demo_begin_eq in EB. injection EB as <- <-.
  destruct (HS demo_actions _ _ demo_session_eq) as (_ & w3 & E & U). exists w3. split; [exact E|exact U].
Defined.
Lemma txn_commit_installs_witness : ∃ w, idle (admin w) ∧
  txn_commit next_addr 1 demo_commit 0 5 demo_applied = (adm (update_all next_addr 1 0);; mret true) w.
Proof.
  destruct (txn_commit_installs next_addr (λ _, None) id demo_dijkstra (λ _, None) (λ _, None) (λ _, None) (λ _, []) (λ _, []) (λ _, []) 1 0 demo_world
    demo_root next_addr_fresh demo_ready eq_refl eq_refl eq_refl) as (t & w1 & EB & HS). rewrite demo_begin_eq in EB. injection EB as <- <-.
  destruct (HS demo_actions _ _ demo_session_eq) as (n & on & og & w3 & _ & _ & _ & _ & _ & _ & _ & I & _ & E). exists w3. split; [exact I|exact E].
Defined.
Lemma txn_errors_change_nothing_witness : txn_rollback 6 demo_open = Ok (inr admin_wrong_token_error, demo_open).
Proof.
  destruct (txn_errors_change_nothing next_addr (λ _, None) id demo_dijkstra (λ _, None) (λ _, None) (λ _, None) (λ _, []) (λ _, []) (λ _, []) 1 0 demo_open
    6 (AdminNetNodeDelete []) TXN_COPY_ON_WRITE) as [_ HE]. destruct HE as (_ & E & _); [left; done|]. exact E.
Defined.
