(* ===== verification/Win32Mutex.v ===== *)
(** * The shared mutex for Windows (common/cpp/src/lib/mutex.cpp, p4p/detail/mutex.h)

    A mutex with readers and writers over a critical section, a manual-reset event and a
    semaphore.  Threads are a list of program counters.  What a call does inside the
    critical section is one step, and so is every call of the system outside of it, in any
    interleaving.  The pthreads variant only calls pthread_rwlock. *)
From S2P Require Import Prelude.

(** Where a thread is. *)
Inductive pc :=
  | Idle
  | ReadWait       (* [shared_lock], before [WaitForSingleObject] *)
  | ReadBlocked    (* [shared_lock], in [WaitForSingleObject] *)
  | ReadRecheck    (* [shared_lock], before [EnterCriticalSection] of the loop *)
  | ReadNotify     (* [shared_lock], a reader before [SetEvent] *)
  | Reading
  | WriteWait      (* [exclusive_lock], in [WaitForSingleObject] *)
  | Writing
  | NotifyWriter   (* [exclusive_unlock], before [ReleaseSemaphore] *)
  | NotifyReaders. (* [exclusive_unlock], before [SetEvent] *)
#[global] Instance pc_eq_dec : EqDecision pc.
Proof. solve_decision. Defined.

(** The counters are [LONG] and stay below the number of threads; [activeWriterReaders_] is
    a [DWORD]. *)
Record SharedMutex32 := MkMutex32 {
  numWritersWaiting_ : Z;
  numReadersWaiting_ : Z;
  activeWriterReaders_ : Z;
  hReadyToRead_ : bool;
  hReadyToWrite_ : Z
}.
Definition SharedMutex32_new : SharedMutex32 := MkMutex32 0 0 0 false 0.

Definition HIWORD (x : Z) : Z := (x / 2 ^ 16) mod 2 ^ 16.
Definition MAKELONG (lo hi : Z) : Z := (lo mod 2 ^ 16 + 2 ^ 16 * (hi mod 2 ^ 16))%Z.

Definition with_event (b : bool) (m : SharedMutex32) : SharedMutex32 :=
  MkMutex32 (numWritersWaiting_ m) (numReadersWaiting_ m) (activeWriterReaders_ m) b (hReadyToWrite_ m).
(** [ReleaseSemaphore] of a semaphore with the maximum 1: it fails at the maximum. *)
Definition ReleaseSemaphore (m : SharedMutex32) : SharedMutex32 :=
  if (hReadyToWrite_ m <? 1)%Z
  then MkMutex32 (numWritersWaiting_ m) (numReadersWaiting_ m) (activeWriterReaders_ m) (hReadyToRead_ m) (hReadyToWrite_ m + 1)
  else m.
Definition with_active (a : Z) (m : SharedMutex32) : SharedMutex32 :=
  MkMutex32 (numWritersWaiting_ m) (numReadersWaiting_ m) a (hReadyToRead_ m) (hReadyToWrite_ m).
Definition with_waiting (w r : Z) (m : SharedMutex32) : SharedMutex32 :=
  MkMutex32 w r (activeWriterReaders_ m) (hReadyToRead_ m) (hReadyToWrite_ m).

(** ** The critical sections: the new state and where the thread goes on *)
Definition shared_lock (m : SharedMutex32) : SharedMutex32 * pc :=
  if (0 <? numWritersWaiting_ m)%Z || (0 <? HIWORD (activeWriterReaders_ m))%Z
  then (with_event false (with_waiting (numWritersWaiting_ m) (numReadersWaiting_ m + 1) m), ReadWait)
  else
    let a := u32 (activeWriterReaders_ m + 1) in
    (with_active a m, if ((a =? 1) && negb (numReadersWaiting_ m =? 0))%Z then ReadNotify else Reading).

(** The loop of [shared_lock] after a wait. *)
Definition shared_lock_again (m : SharedMutex32) : SharedMutex32 * pc :=
  if ((numWritersWaiting_ m =? 0) && (HIWORD (activeWriterReaders_ m) =? 0))%Z
  then (with_active (u32 (activeWriterReaders_ m + 1))
          (with_waiting (numWritersWaiting_ m) (numReadersWaiting_ m - 1) m), Reading)
  else (with_event false m, ReadWait).

Definition shared_unlock (m : SharedMutex32) : SharedMutex32 * pc :=
  let a := u32 (activeWriterReaders_ m - 1) in
  let m1 := with_active a (if (a =? 0)%Z then with_event false m else m) in
  if (negb (numWritersWaiting_ m =? 0) && (a =? 0))%Z
  then (ReleaseSemaphore (with_active (MAKELONG 0 1)
          (with_waiting (numWritersWaiting_ m - 1) (numReadersWaiting_ m) m1)), Idle)
  else (m1, Idle).

Definition exclusive_lock (m : SharedMutex32) : SharedMutex32 * pc :=
  if negb (activeWriterReaders_ m =? 0)%Z
  then (with_waiting (numWritersWaiting_ m + 1) (numReadersWaiting_ m) m, WriteWait)
  else (with_active (MAKELONG 0 1) m, Writing).

Definition exclusive_unlock (m : SharedMutex32) : SharedMutex32 * pc :=
  if negb (numWritersWaiting_ m =? 0)%Z
  then (with_waiting (numWritersWaiting_ m - 1) (numReadersWaiting_ m) m, NotifyWriter)
  else (with_active 0 m, if negb (numReadersWaiting_ m =? 0)%Z then NotifyReaders else Idle).

(** ** Threads *)
Record lock_state := MkLock { mutex32 : SharedMutex32; threads : list pc }.

(** What a thread does next: it calls an operation or goes on with one. *)
Inductive lock_call := SharedLock | SharedUnlock | ExclusiveLock | ExclusiveUnlock | Continue.

(** [SetEvent] of a manual-reset event releases every thread that waits. *)
Definition woken (p : pc) : pc := match p with ReadBlocked => ReadRecheck | _ => p end.

Definition lock_step (t : nat) (c : lock_call) (s : lock_state) : option lock_state :=
  let m := mutex32 s in
  let goes (r : SharedMutex32 * pc) := Some (MkLock r.1 (<[t := r.2]> (threads s))) in
  let sets (p : pc) := Some (MkLock (with_event true m) (woken <$> <[t := p]> (threads s))) in
  match threads s !! t, c with
  | Some Idle, SharedLock => goes (shared_lock m)
  | Some Reading, SharedUnlock => goes (shared_unlock m)
  | Some Idle, ExclusiveLock => goes (exclusive_lock m)
  | Some Writing, ExclusiveUnlock => goes (exclusive_unlock m)
  | Some ReadWait, Continue => goes (m, if hReadyToRead_ m then ReadRecheck else ReadBlocked)
  | Some ReadRecheck, Continue => goes (shared_lock_again m)
  | Some ReadNotify, Continue => sets Reading
  | Some WriteWait, Continue =>
      if (0 <? hReadyToWrite_ m)%Z
      then goes (MkMutex32 (numWritersWaiting_ m) (numReadersWaiting_ m) (activeWriterReaders_ m) (hReadyToRead_ m)
                   (hReadyToWrite_ m - 1), Writing)
      else None
  | Some NotifyWriter, Continue => goes (ReleaseSemaphore m, Idle)
  | Some NotifyReaders, Continue => sets Idle
  | _, _ => None
  end.

Inductive lock_reachable (n : nat) : lock_state → Prop :=
  | lock_init : lock_reachable n (MkLock SharedMutex32_new (replicate n Idle))
  | lock_next t c s s' : lock_reachable n s → lock_step t c s = Some s' → lock_reachable n s'.

Fixpoint lock_run (l : list (nat * lock_call)) (s : lock_state) : option lock_state :=
  match l with [] => Some s | (t, c) :: l' => s' ← lock_step t c s; lock_run l' s' end.
Lemma lock_run_reachable n l s s' : lock_reachable n s → lock_run l s = Some s' → lock_reachable n s'.
Proof.
  revert s. induction l as [|[t c] l IH]; intros s HR; cbn; [by intros [= <-]|].
  destruct (lock_step t c s) as [s1|] eqn:E; [|done]. apply IH. by eapply lock_next.
Qed.

(** ** Counting threads *)
Definition total (f : pc → Z) (l : list pc) : Z := foldr (λ p n, f p + n)%Z 0%Z l.
Lemma total_cons f p l : total f (p :: l) = (f p + total f l)%Z.
Proof. reflexivity. Qed.
Opaque total.

Lemma total_insert f l t p q : l !! t = Some p → (total f (<[t := q]> l) = total f l - f p + f q)%Z.
Proof.
  revert t. induction l as [|x l IH]; intros [|t] E; [done..| |]; cbn in *; rewrite !total_cons.
  - injection E as ->. lia.
  - rewrite IH by done. lia.
Qed.
Lemma total_woken f l : (∀ p, f (woken p) = f p) → total f (woken <$> l) = total f l.
Proof. intros HF. induction l as [|x l IH]; [done|]. cbn. by rewrite !total_cons, HF, IH. Qed.
Lemma total_nonneg f l : (∀ p, 0 ≤ f p)%Z → (0 ≤ total f l)%Z.
Proof. intros HF. induction l as [|x l IH]; [done|]. rewrite total_cons. specialize (HF x). lia. Qed.
Lemma total_one f l t p : (∀ p, 0 ≤ f p)%Z → l !! t = Some p → (f p ≤ total f l)%Z.
Proof.
  intros HF. revert t. induction l as [|x l IH]; intros [|t] E; [done..| |]; cbn in E; rewrite total_cons.
  - injection E as ->. pose proof (total_nonneg f l HF). lia.
  - specialize (IH t E). specialize (HF x). lia.
Qed.
Lemma total_two f l i j p q : (∀ p, 0 ≤ f p)%Z → l !! i = Some p → l !! j = Some q → i ≠ j → (f p + f q ≤ total f l)%Z.
Proof.
  intros HF. revert i j. induction l as [|x l IH]; intros [|i] [|j] E1 E2 Hne; try done; cbn in *; rewrite total_cons.
  - injection E1 as ->. pose proof (total_one f l j q HF E2). lia.
  - injection E2 as ->. pose proof (total_one f l i p HF E1). lia.
  - assert (Hij : i ≠ j) by congruence. specialize (IH i j E1 E2 Hij). specialize (HF x). lia.
Qed.
Lemma total_exists f l : (∀ p, 0 ≤ f p)%Z → (0 < total f l)%Z → ∃ t p, l !! t = Some p ∧ (0 < f p)%Z.
Proof.
  intros HF. induction l as [|x l IH]; [done|]. rewrite total_cons. intros Hp. destruct (decide (0 < f x)%Z); [by exists 0, x|].
  destruct IH as (t & p & E & Hpp); [specialize (HF x); lia|]. by exists (S t), p.
Qed.
Lemma total_bound f l : (∀ p, f p ≤ 1)%Z → (total f l ≤ Z.of_nat (length l))%Z.
Proof. intros HF. induction l as [|x l IH]; [done|]. rewrite total_cons. specialize (HF x). cbn [length]. lia. Qed.
Lemma total_replicate f n : f Idle = 0%Z → total f (replicate n Idle) = 0%Z.
Proof. intros HF. induction n as [|n IH]; [done|]. cbn. by rewrite total_cons, HF, IH. Qed.

(** Readers and writers that hold the mutex, writers on their way to hand it over, and
    threads that wait. *)
Definition is_reader (p : pc) : Z := match p with Reading | ReadNotify => 1 | _ => 0 end.
Definition is_writer (p : pc) : Z := match p with Writing | NotifyWriter => 1 | _ => 0 end.
Definition hands_over (p : pc) : Z := match p with NotifyWriter => 1 | _ => 0 end.
Definition waits_read (p : pc) : Z := match p with ReadWait | ReadBlocked | ReadRecheck => 1 | _ => 0 end.
Definition waits_write (p : pc) : Z := match p with WriteWait => 1 | _ => 0 end.

(** ** The invariant *)
Record lock32_inv (n : nat) (s : lock_state) : Prop := {
  li_threads : length (threads s) = n;
  li_writer : (total is_writer (threads s) + hReadyToWrite_ (mutex32 s) ≤ 1)%Z;
  li_sem : (0 ≤ hReadyToWrite_ (mutex32 s))%Z;
  li_active : activeWriterReaders_ (mutex32 s) =
    (total is_reader (threads s) + 2 ^ 16 * (total is_writer (threads s) + hReadyToWrite_ (mutex32 s)))%Z;
  li_alone : (0 < total is_writer (threads s) + hReadyToWrite_ (mutex32 s))%Z → total is_reader (threads s) = 0%Z;
  li_readers : numReadersWaiting_ (mutex32 s) = total waits_read (threads s);
  li_writers : (numWritersWaiting_ (mutex32 s) + hReadyToWrite_ (mutex32 s) + total hands_over (threads s) =
    total waits_write (threads s))%Z;
  li_nonneg : (0 ≤ numWritersWaiting_ (mutex32 s))%Z;
  li_handover : (0 < numWritersWaiting_ (mutex32 s))%Z → (0 < activeWriterReaders_ (mutex32 s))%Z
}.

Lemma init_inv n : lock32_inv n (MkLock SharedMutex32_new (replicate n Idle)).
Proof.
  split; cbn [mutex32 threads SharedMutex32_new hReadyToWrite_ activeWriterReaders_ numReadersWaiting_ numWritersWaiting_];
    rewrite ?total_replicate by done; rewrite ?length_replicate; lia.
Qed.

Lemma HIWORD_pos x : (0 ≤ x < 2 ^ 32)%Z → (0 <? HIWORD x)%Z = bool_decide (2 ^ 16 ≤ x)%Z.
Proof.
  intros Hx. unfold HIWORD. rewrite Z.mod_small by (split; [apply Z.div_pos; lia|apply Z.div_lt_upper_bound; lia]).
  case_bool_decide as Hb.
  - apply Z.ltb_lt. apply Z.div_str_pos. lia.
  - rewrite Z.div_small by lia. done.
Qed.
Lemma HIWORD_zero x : (0 ≤ x < 2 ^ 32)%Z → (HIWORD x =? 0)%Z = bool_decide (x < 2 ^ 16)%Z.
Proof.
  intros Hx. pose proof (HIWORD_pos x Hx) as HP. assert (0 ≤ HIWORD x)%Z by (unfold HIWORD; apply Z.mod_pos_bound; lia).
  repeat case_bool_decide; destruct (Z.eqb_spec (HIWORD x) 0); try done; destruct (Z.ltb_spec 0 (HIWORD x)); done || lia.
Qed.

(** The changes that a step makes to the counts of threads. *)
Ltac count_step E := cbn [mutex32 threads hReadyToWrite_ activeWriterReaders_ numReadersWaiting_ numWritersWaiting_
    with_event with_active with_waiting fst snd];
  rewrite ?(total_woken is_reader), ?(total_woken is_writer), ?(total_woken hands_over), ?(total_woken waits_read),
    ?(total_woken waits_write) by (by intros []);
  rewrite ?(total_insert is_reader _ _ _ _ E), ?(total_insert is_writer _ _ _ _ E), ?(total_insert hands_over _ _ _ _ E),
    ?(total_insert waits_read _ _ _ _ E), ?(total_insert waits_write _ _ _ _ E);
  cbn [is_reader is_writer hands_over waits_read waits_write]; rewrite ?length_fmap, ?length_insert.

Lemma lock_step_inv n t c s s' : (Z.of_nat n < 2 ^ 16)%Z → lock32_inv n s → lock_step t c s = Some s' → lock32_inv n s'.
Proof.
  intros Hn [I1 I2 I3 I4 I5 I6 I7 I8 I9] E.
  assert (HR : (0 ≤ total is_reader (threads s) ≤ Z.of_nat n)%Z) by (split; [apply total_nonneg; by intros []|rewrite <- I1; apply total_bound; by intros []]).
  assert (HW : (0 ≤ total is_writer (threads s))%Z) by (apply total_nonneg; by intros []).
  assert (HH : (0 ≤ total hands_over (threads s))%Z) by (apply total_nonneg; by intros []).
  set (m := mutex32 s) in *. assert (HA : (0 ≤ activeWriterReaders_ m < 2 ^ 32)%Z) by lia.
  unfold lock_step in E. fold m in E. destruct (threads s !! t) as [p|] eqn:ET; [|done].
  assert (HP : (is_reader p ≤ total is_reader (threads s))%Z) by (apply (total_one is_reader _ t); [by intros []|done]).
  assert (HQ : (is_writer p ≤ total is_writer (threads s))%Z) by (apply (total_one is_writer _ t); [by intros []|done]).
  assert (HT : (hands_over p ≤ total hands_over (threads s))%Z) by (apply (total_one hands_over _ t); [by intros []|done]).
  destruct p, c; try done; cbn [is_reader is_writer hands_over] in HP, HQ, HT.
  all: unfold shared_lock, shared_unlock, shared_lock_again, exclusive_lock, exclusive_unlock, ReleaseSemaphore in E;
    change (MAKELONG 0 1) with (2 ^ 16)%Z in E.
  all: rewrite ?HIWORD_pos, ?HIWORD_zero in E by done.
  all: rewrite ?(u32_small (activeWriterReaders_ m + 1)), ?(u32_small (activeWriterReaders_ m - 1)) in E by lia.
  all: cbv zeta in E; repeat case_bool_decide; repeat case_match; simplify_eq; cbn [orb andb negb hReadyToWrite_ with_active with_waiting with_event] in *.
  all: split; count_step ET; fold m; lia.
Qed.

Lemma lock_reachable_inv n s : (Z.of_nat n < 2 ^ 16)%Z → lock_reachable n s → lock32_inv n s.
Proof. intros Hn. induction 1 as [|t c s s' _ IH E]; [apply init_inv|]. by eapply lock_step_inv. Qed.
