(* ===== verification/Rand.v ===== *)
(** * Random numbers

    [rand ()] of the C library returns the next number of a sequence: a computation that
    uses it consumes a list of numbers between 0 and [RAND_MAX].  A list that is too
    short is the fault [NoFuel]: a loop that ends for some finite list of numbers ends
    in the code when [rand] delivers these numbers. *)
From S2P Require Import Prelude.

(** glibc's value. *)
Definition RAND_MAX : Z := (2 ^ 31 - 1)%Z.

Definition R (A : Type) : Type := ST (list Z) A.
#[global] Instance rand_ret : MRet R := @st_ret (list Z).
#[global] Instance rand_bind : MBind R := @st_bind (list Z).

Definition rand : R Z := λ rs,
  match rs with [] => Fault NoFuel | r :: rs' => Ok (r, rs') end.

Definition rand_ok (rs : list Z) : Prop := Forall (λ r, (0 ≤ r ≤ RAND_MAX)%Z) rs.
