(* ===== verification/SwarmState.v ===== *)
(** * Statistics of a swarm (common/cpp/src/lib/swarm_state.cpp,
    include/p4p/app/swarm_state.h)

    [SwarmState] keeps one record of counters for every PID of an ISP.  Counters are
    [unsigned int]s that wrap around, capacities and rates are [float]s; the accessors
    take a PID index and return [ERR_UNKNOWN_PID] for an index that is out of range. *)
From S2P Require Import Prelude Double IspPidMap.

Record PIDState := MkPIDState {
  num_seeds : Z;
  num_leechers : Z;
  upload_cap : float;
  download_cap : float;
  upload_rate : float;
  download_rate : float;
  num_active_peers : Z
}.

Definition PIDState_new : PIDState := MkPIDState 0 0 fzero fzero fzero fzero 0.

(** The vector [m_pids]. *)
Definition SwarmState : Type := list PIDState.

Definition SwarmState_empty : SwarmState := [].
Definition SwarmState_new (num_pids : Z) : SwarmState := replicate (Z.to_nat num_pids) PIDState_new.

Definition ss_getNumPIDs (s : SwarmState) : Z := u32 (Z.of_nat (length s)).

(** [m_pids\[pid\]] when [isValid (pid)]. *)
Definition ss_at (pid : Z) (s : SwarmState) : option PIDState :=
  if (0 <=? pid)%Z then s !! Z.to_nat pid else None.
Definition isValid (pid : Z) (s : SwarmState) : bool :=
  (0 <=? pid)%Z && (pid <? Z.of_nat (length s))%Z.

(** The common shape of the accessors: an error code, or a field of the PID's record. *)
Definition ss_read {A} (err : A) (field : PIDState → A) (pid : Z) (s : SwarmState) : A :=
  match ss_at pid s with None => err | Some p => field p end.
Definition ss_write (f : PIDState → PIDState) (pid : Z) (s : SwarmState) : Z * SwarmState :=
  match ss_at pid s with
  | None => (ERR_UNKNOWN_PID, s)
  | Some p => (0%Z, <[Z.to_nat pid := f p]> s)
  end.
Definition float_error : float := float_of_int ERR_UNKNOWN_PID.

Definition getNumSeeds := ss_read ERR_UNKNOWN_PID (λ p, s32 (num_seeds p)).
Definition getNumLeechers := ss_read ERR_UNKNOWN_PID (λ p, s32 (num_leechers p)).
Definition getUploadCapacity := ss_read float_error upload_cap.
Definition getDownloadCapacity := ss_read float_error download_cap.
Definition getUploadRate := ss_read float_error upload_rate.
(** Reads the capacity, not the rate. *)
Definition getDownloadRate := ss_read float_error download_cap.
Definition getNumActivePeers := ss_read ERR_UNKNOWN_PID (λ p, s32 (num_active_peers p)).

Definition setNumSeeds (pid value : Z) := ss_write (λ p,
  MkPIDState (u32 value) (num_leechers p) (upload_cap p) (download_cap p) (upload_rate p)
    (download_rate p) (num_active_peers p)) pid.
Definition setNumLeechers (pid value : Z) := ss_write (λ p,
  MkPIDState (num_seeds p) (u32 value) (upload_cap p) (download_cap p) (upload_rate p)
    (download_rate p) (num_active_peers p)) pid.
Definition setUploadCapacity (pid : Z) (value : float) := ss_write (λ p,
  MkPIDState (num_seeds p) (num_leechers p) value (download_cap p) (upload_rate p)
    (download_rate p) (num_active_peers p)) pid.
Definition setDownloadCapacity (pid : Z) (value : float) := ss_write (λ p,
  MkPIDState (num_seeds p) (num_leechers p) (upload_cap p) value (upload_rate p)
    (download_rate p) (num_active_peers p)) pid.
Definition setUploadRate (pid : Z) (value : float) := ss_write (λ p,
  MkPIDState (num_seeds p) (num_leechers p) (upload_cap p) (download_cap p) value
    (download_rate p) (num_active_peers p)) pid.
Definition setDownloadRate (pid : Z) (value : float) := ss_write (λ p,
  MkPIDState (num_seeds p) (num_leechers p) (upload_cap p) (download_cap p) (upload_rate p)
    value (num_active_peers p)) pid.
Definition setNumActivePeers (pid value : Z) := ss_write (λ p,
  MkPIDState (num_seeds p) (num_leechers p) (upload_cap p) (download_cap p) (upload_rate p)
    (download_rate p) (u32 value)) pid.

(** [update]: the change of the number of seeds is added to the upload capacity. *)
Definition ss_update (pid change_seeds change_leechers : Z)
    (change_uploadcap change_downloadcap change_uploadrate change_downloadrate : float)
    (change_active_peers : Z) := ss_write (λ p,
  MkPIDState (num_seeds p)
    (u32 (num_leechers p + change_leechers))
    (fadd (fadd (upload_cap p) (float_of_int change_seeds)) change_uploadcap)
    (fadd (download_cap p) change_downloadcap)
    (fadd (upload_rate p) change_uploadrate)
    (fadd (download_rate p) change_downloadrate)
    (u32 (num_active_peers p + change_active_peers))) pid.

(** ** Lemmas *)
Lemma ss_at_valid pid s : isValid pid s = true ↔ is_Some (ss_at pid s).
Proof.
  unfold isValid, ss_at. destruct (Z.leb_spec 0 pid); cbn.
  - rewrite Z.ltb_lt, lookup_lt_is_Some. lia.
  - split; [done|]. by intros [? ?].
Qed.

Lemma ss_write_length f pid s : length (ss_write f pid s).2 = length s.
Proof. unfold ss_write. destruct (ss_at pid s); [|done]. apply length_insert. Qed.

(** A write is seen by the next read of the same PID, and by no other. *)
Lemma ss_at_write f pid pid' s :
  ss_at pid' (ss_write f pid s).2 = if decide (pid' = pid) then f <$> ss_at pid s else ss_at pid' s.
Proof.
  unfold ss_write. destruct (ss_at pid s) as [p|] eqn:E; cbn [snd].
  2: { case_decide; [by subst|done]. }
  unfold ss_at in *. destruct (Z.leb_spec 0 pid); [|done]. case_decide as D.
  - subst. rewrite (proj2 (Z.leb_le 0 pid)) by done. cbn.
    apply list_lookup_insert_eq. by eapply lookup_lt_Some.
  - destruct (Z.leb_spec 0 pid'); [|done]. apply list_lookup_insert_ne. lia.
Qed.

Lemma ss_write_code f pid s :
  (ss_write f pid s).1 = if isValid pid s then 0%Z else ERR_UNKNOWN_PID.
Proof.
  unfold ss_write. destruct (isValid pid s) eqn:V.
  - by apply ss_at_valid in V as [p ->].
  - destruct (ss_at pid s) eqn:E; [|done]. assert (isValid pid s = true) by (apply ss_at_valid; eauto). congruence.
Qed.
