(* ===== verification/PeerDist.v ===== *)
(** * Peers grouped by PID (common/cpp/src/lib/perisp_peer_distribution.cpp,
    peer_distribution_manager.cpp, peer.cpp)

    [PeerDistributionManager] keeps the peers of a swarm and, for every ISP, a view
    ([PerISPPeerDistribution]) in which the peers are grouped by the PID that the ISP's
    PID map gives to their address.  Peers and ISPs are objects of the application: a
    store maps their addresses to them.  What the views use of an ISP is the lookup in
    its PID map and its numbers of PIDs (record [ISPInfo]).

    Operations run one after the other.  A lock taken and released inside of an
    operation leaves no trace; a shared lock that outlives its call is counted in
    [views_readers] and [v_readers], and taking the same mutex exclusively while the
    count is not zero is the fault [Deadlock]. *)
From S2P Require Import Prelude StdMap Double IpAddr IspPidMap Heap SwarmState Rand.

Notation peer_ptr := positive (only parsing).
Notation isp_ptr := positive (only parsing).

Definition ERR_INVALID_ISP : Z := -102.

(** ** Objects of the application *)
Record Peer := MkPeer {
  p_address : IPPrefix;
  p_seeder : bool;
  p_upload_capacity : float;
  p_download_capacity : float;
  m_home_isp : option isp_ptr;
  m_home_pid : Z
}.

Definition setHome (isp : isp_ptr) (pid : Z) (p : Peer) : Peer :=
  MkPeer (p_address p) (p_seeder p) (p_upload_capacity p) (p_download_capacity p) (Some isp) pid.

(** The PID index of an address ([ERR_UNKNOWN_PID] without a match) and the prefix that
    matched, which of the PIDs are external, and the numbers of internal and of all PIDs. *)
Record ISPInfo := MkISPInfo {
  isp_lookup : IPPrefix → Z * IPPrefix;
  isp_pid_external : list bool;
  num_intraisp_pids : Z;
  num_total_pids : Z
}.

Record PeerStats := MkPeerStats {
  st_is_seed : bool;
  st_upload_cap : float;
  st_download_cap : float;
  st_upload_rate : float;
  st_download_rate : float;
  st_num_active_peers : Z
}.

(** [PeerStats stats (peer->isSeeder (), peer->getUploadCapacity (), peer->getDownloadCapacity ())] *)
Definition stats_of (p : Peer) : PeerStats :=
  MkPeerStats (p_seeder p) (p_upload_capacity p) (p_download_capacity p) fzero fzero 0.

(** ** One view *)
Notation PeerPtrCollection := (RandomAccessSet (T := peer_ptr) (K := peer_ptr)).

Record PerISPPeerDistribution := MkView {
  v_readers : nat;
  m_peer_to_pid : list (peer_ptr * Z);
  m_pid_peers : list PeerPtrCollection;
  m_swarm_state : SwarmState
}.

Definition view_new : PerISPPeerDistribution := MkView 0 [] [] SwarmState_empty.

Definition with_readers (n : nat) (v : PerISPPeerDistribution) : PerISPPeerDistribution :=
  MkView n (m_peer_to_pid v) (m_pid_peers v) (m_swarm_state v).
Definition view_lock (v : PerISPPeerDistribution) : PerISPPeerDistribution := with_readers (S (v_readers v)) v.
Definition view_unlock (v : PerISPPeerDistribution) : PerISPPeerDistribution :=
  with_readers (v_readers v - 1) v.

(** [ScopedExclusiveLock] on a mutex with [n] shared locks that are still held. *)
Definition exclusive (n : nat) : outcome unit := if (n =? 0)%nat then mret tt else Fault Deadlock.

(** [m_pid_peers.size () - 1], an unsigned 64-bit number. *)
Definition last_idx (v : PerISPPeerDistribution) : Z := u64 (Z.of_nat (length (m_pid_peers v)) - 1).
(** [if (pid < 0) pid = m_pid_peers.size () - 1;]: a negative PID stands for the peers
    without a PID; [pid] is an [int]. *)
Definition slot (pid : Z) (v : PerISPPeerDistribution) : Z :=
  if (pid <? 0)%Z then s32 (last_idx v) else pid.

Definition push_peer (idx : Z) (peer : peer_ptr) (v : PerISPPeerDistribution)
  : outcome (list PeerPtrCollection) :=
  c ← from_option_or UB (vec_at (m_pid_peers v) idx);
  mret (<[Z.to_nat idx := (ras_push_back id Pos.ltb peer c).2]> (m_pid_peers v)).

(** The first peer allocates the PID-level data. *)
Definition allocated (total : Z) (v : PerISPPeerDistribution) : PerISPPeerDistribution :=
  match m_peer_to_pid v with
  | [] => MkView (v_readers v) [] (replicate (Z.to_nat (u32 (total + 1))) ras_empty) (SwarmState_new total)
  | _ => v
  end.

Definition addPeerInternal (total : Z) (peer : peer_ptr) (pid : Z) (stats : PeerStats)
    (v0 : PerISPPeerDistribution) : outcome (bool * PerISPPeerDistribution) :=
  let v := allocated total v0 in
  let pid := if (0 <=? pid)%Z && (last_idx v <=? pid)%Z then ERR_UNKNOWN_PID else pid in
  match map_find Pos.ltb peer (m_peer_to_pid v) with
  | Some _ => mret (false, v)
  | None =>
      let to_pid := map_insert Pos.ltb peer pid (m_peer_to_pid v) in
      lists ← push_peer (if (0 <=? pid)%Z then pid else Z.of_nat (length (m_pid_peers v)) - 1) peer v;
      let swarm :=
        if (0 <=? pid)%Z then
          (ss_update pid (if st_is_seed stats then 1 else 0) (if st_is_seed stats then 0 else 1)
             (st_upload_cap stats) (st_download_cap stats) (st_upload_rate stats) (st_download_rate stats)
             (st_num_active_peers stats) (m_swarm_state v)).2
        else m_swarm_state v in
      mret (true, MkView (v_readers v) to_pid lists swarm)
  end.

(** [addPeer (peer, pid)]; [p] is the object that [peer] points to. *)
Definition view_addPeer (total : Z) (peer : peer_ptr) (p : Peer) (pid : Z) (v : PerISPPeerDistribution)
  : outcome (bool * PerISPPeerDistribution) :=
  exclusive (v_readers v);; addPeerInternal total peer pid (stats_of p) v.

Definition view_removePeer (peer : peer_ptr) (v : PerISPPeerDistribution)
  : outcome (bool * PerISPPeerDistribution) :=
  exclusive (v_readers v);;
  match map_find Pos.ltb peer (m_peer_to_pid v) with
  | None => mret (false, v)
  | Some pid =>
      let to_pid := map_erase Pos.ltb peer (m_peer_to_pid v) in
      let idx := slot pid v in
      c ← from_option_or UB (vec_at (m_pid_peers v) idx);
      '(_, c') ← ras_erase id Pos.ltb peer c;
      match to_pid with
      | [] => mret (true, MkView (v_readers v) [] [] SwarmState_empty)
      | _ => mret (true, MkView (v_readers v) to_pid (<[Z.to_nat idx := c']> (m_pid_peers v)) (m_swarm_state v))
      end
  end.

Definition view_updatePeerStats (peer : peer_ptr) (is_seed_changed : bool)
    (upload_cap_change download_cap_change upload_rate_change download_rate_change : float)
    (active_peers_change : Z) (v : PerISPPeerDistribution) : outcome (bool * PerISPPeerDistribution) :=
  exclusive (v_readers v);;
  match map_find Pos.ltb peer (m_peer_to_pid v) with
  | None => mret (false, v)
  | Some pid =>
      let swarm :=
        (ss_update pid (if is_seed_changed then 1 else 0) (if is_seed_changed then (-1) else 0)
           upload_cap_change download_cap_change upload_rate_change download_rate_change
           active_peers_change (m_swarm_state v)).2 in
      mret (true, MkView (v_readers v) (m_peer_to_pid v) (m_pid_peers v) swarm)
  end.

(** *** Queries under the shared lock *)

(** The collection of a PID, when [(unsigned int) pid < m_pid_peers.size ()]. *)
Definition pid_collection (pid : Z) (v : PerISPPeerDistribution) : option PeerPtrCollection :=
  vec_at (m_pid_peers v) (u32 (slot pid v)).

Definition view_listPIDPeers (pid : Z) (v : PerISPPeerDistribution) (out : list peer_ptr)
  : bool * list peer_ptr :=
  match pid_collection pid v with None => (false, out) | Some c => (true, out ++ m_vec c) end.

(** [for (i = lo; i < hi; ++i) listPIDPeers (i, out_peers)] *)
Definition list_range (lo n : nat) (v : PerISPPeerDistribution) (out : list peer_ptr) : list peer_ptr :=
  fold_left (λ out i, (view_listPIDPeers (Z.of_nat i) v out).2) (seq lo n) out.

Definition view_listIntraISPPeers (isp : ISPInfo) (v : PerISPPeerDistribution) (out : list peer_ptr) :=
  list_range 0 (Z.to_nat (num_intraisp_pids isp)) v out.
Definition view_listExternalPeers (isp : ISPInfo) (v : PerISPPeerDistribution) (out : list peer_ptr) :=
  list_range (Z.to_nat (num_intraisp_pids isp))
    (Z.to_nat (num_total_pids isp) - Z.to_nat (num_intraisp_pids isp)) v out.

Definition view_getNumPeers (pid : Z) (v : PerISPPeerDistribution) : Z :=
  match pid_collection pid v with None => -1 | Some c => s32 (Z.of_nat (ras_size c)) end.

Definition view_getRandomPeer (pid : Z) (v : PerISPPeerDistribution) : R (option peer_ptr) :=
  match pid_collection pid v with
  | None => mret None
  | Some c =>
      if (ras_size c =? 0)%nat then mret None
      else r ← rand; mret (vec_at (m_vec c) (r `mod` Z.of_nat (ras_size c)))
  end.

Definition view_getRandomPeer_of (pids : list Z) (v : PerISPPeerDistribution) : R (option peer_ptr) :=
  match pids with
  | [] => mret None
  | _ => r ← rand; pid ← st_lift (from_option_or UB (vec_at pids (r `mod` Z.of_nat (length pids))));
         view_getRandomPeer pid v
  end.

(** ** The manager *)
Record World := MkWorld {
  w_peers : gmap peer_ptr Peer;
  w_isps : gmap isp_ptr ISPInfo;
  views_readers : nat;
  m_views : list (isp_ptr * PerISPPeerDistribution);
  m_peers : list (peer_ptr * PeerStats)
}.

Definition with_peers (ps : gmap peer_ptr Peer) (w : World) : World :=
  MkWorld ps (w_isps w) (views_readers w) (m_views w) (m_peers w).
Definition with_views (vs : list (isp_ptr * PerISPPeerDistribution)) (w : World) : World :=
  MkWorld (w_peers w) (w_isps w) (views_readers w) vs (m_peers w).
Definition with_views_readers (n : nat) (w : World) : World :=
  MkWorld (w_peers w) (w_isps w) n (m_views w) (m_peers w).
Definition with_stats (ms : list (peer_ptr * PeerStats)) (w : World) : World :=
  MkWorld (w_peers w) (w_isps w) (views_readers w) (m_views w) ms.

Definition deref_peer (peer : peer_ptr) (w : World) : outcome Peer := from_option_or UB (w_peers w !! peer).
Definition deref_isp (isp : isp_ptr) (w : World) : outcome ISPInfo := from_option_or UB (w_isps w !! isp).

Definition getISPViewInternal (isp : isp_ptr) (w : World) : option PerISPPeerDistribution :=
  map_find Pos.ltb isp (m_views w).
Definition put_view (isp : isp_ptr) (v : PerISPPeerDistribution) (w : World) : World :=
  with_views (map_set Pos.ltb isp v (m_views w)) w.

(** The shared lock on the views stays held when there is a view. *)
Definition getPeerDistribution (isp : isp_ptr) (w : World) : option PerISPPeerDistribution * World :=
  match getISPViewInternal isp w with
  | None => (None, w)
  | Some v => (Some v, with_views_readers (S (views_readers w)) w)
  end.
Definition releasePeerDistribution (isp : isp_ptr) (w : World) : bool * World :=
  match getISPViewInternal isp w with
  | None => (false, w)
  | Some _ => (true, with_views_readers (views_readers w - 1) w)
  end.

(** The loop of [addPeer] over the views: the views with the peer, and the home ISP, the
    home PID and the length of the longest prefix so far. *)
Record Home := MkHome { home_isp : option isp_ptr; home_pid : Z; longest_prefix_length : Z }.

Definition better_home (isp : isp_ptr) (info : ISPInfo) (addr : IPPrefix) (h : Home) : Home :=
  let '(pid, matching_prefix) := isp_lookup info addr in
  if (pid <? 0)%Z then h
  else if (s32 (num_intraisp_pids info) <=? pid)%Z then h
  else if (length_ matching_prefix <? longest_prefix_length h)%Z then h
  else MkHome (Some isp) pid (length_ matching_prefix).

Fixpoint add_to_views (isps : gmap isp_ptr ISPInfo) (peer : peer_ptr) (p : Peer)
    (views : list (isp_ptr * PerISPPeerDistribution)) (h : Home)
  : outcome (list (isp_ptr * PerISPPeerDistribution) * Home) :=
  match views with
  | [] => mret ([], h)
  | (isp, v) :: views =>
      info ← from_option_or UB (isps !! isp);
      let pid := (isp_lookup info (p_address p)).1 in
      '(_, v') ← view_addPeer (num_total_pids info) peer p (if (pid <? 0)%Z then ERR_UNKNOWN_PID else pid) v;
      '(vs, h') ← add_to_views isps peer p views (better_home isp info (p_address p) h);
      mret ((isp, v') :: vs, h')
  end.

Definition addPeer (peer : peer_ptr) (w : World) : outcome (bool * World) :=
  p ← deref_peer peer w;
  match map_find Pos.ltb peer (m_peers w) with
  | Some _ => mret (false, w)
  | None =>
      let w1 := with_stats (map_insert Pos.ltb peer (stats_of p) (m_peers w)) w in
      '(vs, h) ← add_to_views (w_isps w) peer p (m_views w) (MkHome None ERR_UNKNOWN_PID 0);
      let w2 := with_views vs w1 in
      match home_isp h with
      | Some isp => mret (true, with_peers (<[peer := setHome isp (home_pid h) p]> (w_peers w2)) w2)
      | None => mret (true, w2)
      end
  end.

(** Apply an operation to the view of every ISP. *)
Fixpoint each_view (f : PerISPPeerDistribution → outcome (bool * PerISPPeerDistribution))
    (views : list (isp_ptr * PerISPPeerDistribution))
  : outcome (list (isp_ptr * PerISPPeerDistribution)) :=
  match views with
  | [] => mret []
  | (isp, v) :: views => '(_, v') ← f v; vs ← each_view f views; mret ((isp, v') :: vs)
  end.

Definition removePeer (peer : peer_ptr) (w : World) : outcome (bool * World) :=
  vs ← each_view (view_removePeer peer) (m_views w);
  mret (match map_find Pos.ltb peer (m_peers w) with Some _ => true | None => false end,
        with_stats (map_erase Pos.ltb peer (m_peers w)) (with_views vs w)).

Definition updatePeerStats (peer : peer_ptr) (w : World) : outcome (bool * World) :=
  p ← deref_peer peer w;
  let new := stats_of p in
  match map_find Pos.ltb peer (m_peers w) with
  | None => mret (false, w)
  | Some prev =>
      let w1 := with_stats (map_set Pos.ltb peer new (m_peers w)) w in
      vs ← each_view
             (view_updatePeerStats peer (negb (eqb (st_is_seed new) (st_is_seed prev)))
                (fsub (st_upload_cap new) (st_upload_cap prev))
                (fsub (st_download_cap new) (st_download_cap prev))
                (fsub (st_upload_rate new) (st_upload_rate prev))
                (fsub (st_download_rate new) (st_download_rate prev))
                (st_num_active_peers new - st_num_active_peers prev))
             (m_views w);
      mret (true, with_views vs w1)
  end.

Definition addISP (isp : isp_ptr) (w : World) : outcome (bool * World) :=
  exclusive (views_readers w);;
  match getISPViewInternal isp w with
  | Some _ => mret (false, w)
  | None => mret (true, with_views (map_insert Pos.ltb isp view_new (m_views w)) w)
  end.

(** Destroying a mutex that is still held is undefined. *)
Definition removeISP (isp : isp_ptr) (w : World) : outcome World :=
  exclusive (views_readers w);;
  match getISPViewInternal isp w with
  | None => mret w
  | Some v => if (v_readers v =? 0)%nat then mret (with_views (map_erase Pos.ltb isp (m_views w)) w) else Fault UB
  end.

(** [addPeersFromManager]: the peers of the manager are added with their current PIDs, and
    the home PID of the ISP's own peers is set. *)
Definition readd_peer (isp : isp_ptr) (info : ISPInfo) (ps : peer_ptr * PeerStats)
    (s : PerISPPeerDistribution * gmap peer_ptr Peer) : outcome (PerISPPeerDistribution * gmap peer_ptr Peer) :=
  let '(peer, stats) := ps in
  let '(v, peers) := s in
  p ← from_option_or UB (peers !! peer);
  let found := (isp_lookup info (p_address p)).1 in
  let pid := if (found <? 0)%Z then ERR_UNKNOWN_PID else found in
  '(_, v') ← addPeerInternal (num_total_pids info) peer pid stats v;
  mret (v', if bool_decide (m_home_isp p = Some isp) then <[peer := setHome isp pid p]> peers else peers).

Definition addPeersFromManager (isp : isp_ptr) (info : ISPInfo) (ms : list (peer_ptr * PeerStats))
    (v : PerISPPeerDistribution) (peers : gmap peer_ptr Peer)
  : outcome (PerISPPeerDistribution * gmap peer_ptr Peer) :=
  exclusive (v_readers v);;
  ofold (readd_peer isp info) ms (MkView (v_readers v) [] [] SwarmState_empty, peers).

Definition updatePeerDistribution (isp : isp_ptr) (w : World) : outcome (Z * World) :=
  match getISPViewInternal isp w with
  | None => mret (ERR_INVALID_ISP, w)
  | Some v =>
      info ← deref_isp isp w;
      '(v', ps) ← addPeersFromManager isp info (m_peers w) v (w_peers w);
      mret (0%Z, with_peers ps (put_view isp v' w))
  end.

(** Queries of one view. *)
Definition getSwarmState (isp : isp_ptr) (w : World) : SwarmState :=
  match getISPViewInternal isp w with None => SwarmState_empty | Some v => m_swarm_state v end.
Definition listPIDPeers (isp : isp_ptr) (pid : Z) (w : World) (out : list peer_ptr) : bool * list peer_ptr :=
  match getISPViewInternal isp w with None => (false, out) | Some v => view_listPIDPeers pid v out end.
Definition listIntraISPPeers (isp : isp_ptr) (w : World) (out : list peer_ptr) : outcome (bool * list peer_ptr) :=
  match getISPViewInternal isp w with
  | None => mret (false, out)
  | Some v => info ← deref_isp isp w; mret (true, view_listIntraISPPeers info v out)
  end.
Definition listExternalPeers (isp : isp_ptr) (w : World) (out : list peer_ptr) : outcome (bool * list peer_ptr) :=
  match getISPViewInternal isp w with
  | None => mret (false, out)
  | Some v => info ← deref_isp isp w; mret (true, view_listExternalPeers info v out)
  end.
Definition getRandomPeer (isp : isp_ptr) (pid : Z) (w : World) : R (option peer_ptr) :=
  match getISPViewInternal isp w with None => mret None | Some v => view_getRandomPeer pid v end.
Definition getNumPeers (isp : isp_ptr) (pid : Z) (w : World) : Z :=
  match getISPViewInternal isp w with None => -1 | Some v => view_getNumPeers pid v end.
