(* ===== verification/PeerDistSpec.v ===== *)
(** * What the peer distribution keeps

    A view is a map from peers to PIDs: [pid_of] is that map, [view_inv] says that the
    collections per PID agree with it.  The lemmas give the effect of every operation of
    a view and of the manager on these maps. *)
From S2P Require Import Prelude StdMap Double IpAddr IspPidMap Heap SwarmState Rand PeerDist.

(** The PID under which a view keeps a peer. *)
Definition pid_of (v : PerISPPeerDistribution) (p : peer_ptr) : option Z :=
  map_find Pos.ltb p (m_peer_to_pid v).

Notation peers_inv := (ras_inv id Pos.ltb).

(** The index of the collection for a PID in a view with [n] collections. *)
Definition slot_of (n : nat) (pid : Z) : Z := if (pid <? 0)%Z then Z.of_nat n - 1 else pid.

(** PIDs that a view with [n] collections can give to a peer. *)
Definition pid_ok (n : nat) (pid : Z) : Prop := pid = ERR_UNKNOWN_PID ∨ (0 ≤ pid < Z.of_nat n - 1)%Z.

Record view_core (v : PerISPPeerDistribution) : Prop := {
  vi_sorted : map_sorted Pos.ltb (m_peer_to_pid v);
  vi_swarm : length (m_swarm_state v) = length (m_pid_peers v) - 1;
  vi_size : (Z.of_nat (length (m_pid_peers v)) < 2 ^ 31)%Z;
  vi_range : ∀ p pid, pid_of v p = Some pid → pid_ok (length (m_pid_peers v)) pid;
  vi_ras : ∀ i c, m_pid_peers v !! i = Some c → peers_inv c;
  vi_elem : ∀ i c p, m_pid_peers v !! i = Some c →
    p ∈ m_vec c ↔ ∃ pid, pid_of v p = Some pid ∧ Z.of_nat i = slot_of (length (m_pid_peers v)) pid
}.
(** Collections are allocated exactly while there are peers. *)
Record view_inv (v : PerISPPeerDistribution) : Prop := {
  vi_core :> view_core v;
  vi_alloc : m_peer_to_pid v = [] ↔ m_pid_peers v = []
}.

(** A total number of PIDs that a view can be allocated for. *)
Definition total_ok (total : Z) : Prop := (0 ≤ total < 2 ^ 31 - 1)%Z.

Lemma view_new_inv : view_inv view_new.
Proof. split; [|done]. split; try done; [constructor|..]; intros; by rewrite lookup_nil in *. Qed.

Lemma pid_ok_slot n pid : 0 < n → pid_ok n pid → (0 ≤ slot_of n pid < Z.of_nat n)%Z.
Proof. unfold pid_ok, slot_of. intros Hn [->|H]; case_bool; unfold ERR_UNKNOWN_PID in *; lia. Qed.

Lemma slot_of_inj n pid pid' : 0 < n → pid_ok n pid → pid_ok n pid' → slot_of n pid = slot_of n pid' → pid = pid'.
Proof. unfold pid_ok, slot_of. intros Hn [->|H] [->|H']; repeat case_bool; unfold ERR_UNKNOWN_PID in *; lia. Qed.

Lemma last_idx_pos v : m_pid_peers v ≠ [] → (Z.of_nat (length (m_pid_peers v)) < 2 ^ 31)%Z →
  last_idx v = (Z.of_nat (length (m_pid_peers v)) - 1)%Z.
Proof.
  intros Hn Hl. unfold last_idx, u64. apply Z.mod_small.
  destruct (m_pid_peers v); [done|]. cbn [length] in *. lia.
Qed.

Lemma slot_eq v pid : m_pid_peers v ≠ [] → (Z.of_nat (length (m_pid_peers v)) < 2 ^ 31)%Z →
  slot pid v = slot_of (length (m_pid_peers v)) pid.
Proof.
  intros Hn Hl. unfold slot, slot_of. destruct (pid <? 0)%Z; [|done].
  rewrite last_idx_pos by done. apply s32_small.
  destruct (m_pid_peers v); [done|]. cbn [length] in *. lia.
Qed.

Section view.
Context (v : PerISPPeerDistribution) (I : view_inv v).

Lemma vi_nonempty p pid : pid_of v p = Some pid → m_pid_peers v ≠ [].
Proof. intros Hp E. apply (vi_alloc _ I) in E. unfold pid_of in Hp. by rewrite E in Hp. Qed.

Lemma vi_nodup i c : m_pid_peers v !! i = Some c → NoDup (m_vec c).
Proof.
  intros Hc. apply NoDup_alt. intros a b x Ha Hb.
  by eapply (ras_key_inj id Pos.ltb); [by eapply (vi_ras _ I)|exact Ha|exact Hb|].
Qed.

(** The collection that holds a peer. *)
Lemma vi_holds p pid : pid_of v p = Some pid →
  ∃ c, vec_at (m_pid_peers v) (slot_of (length (m_pid_peers v)) pid) = Some c ∧ p ∈ m_vec c.
Proof.
  intros Hp. pose proof (vi_nonempty _ _ Hp) as Hn.
  assert (H0 : 0 < length (m_pid_peers v)) by (destruct (m_pid_peers v); [done|cbn; lia]).
  pose proof (pid_ok_slot _ _ H0 (vi_range _ I _ _ Hp)) as Hr.
  destruct (vec_at_lt (m_pid_peers v) _ Hr) as [c Hc]. exists c. split; [done|].
  apply vec_at_Some in Hc as [_ Hc]. apply (vi_elem _ I _ _ _ Hc). exists pid. split; [done|]. lia.
Qed.
End view.

(** Replacing one collection and the PID of one peer together. *)
Lemma view_inv_update v m i c c' p opid swarm :
  view_core v → m_pid_peers v !! i = Some c → peers_inv c' → map_sorted Pos.ltb m → m ≠ [] →
  length swarm = length (m_swarm_state v) →
  (∀ q, map_find Pos.ltb q m = if decide (q = p) then opid else pid_of v q) →
  (∀ pid, opid = Some pid → pid_ok (length (m_pid_peers v)) pid ∧ Z.of_nat i = slot_of (length (m_pid_peers v)) pid) →
  (∀ pid, pid_of v p = Some pid → Z.of_nat i = slot_of (length (m_pid_peers v)) pid) →
  (∀ q, q ∈ m_vec c' ↔ if decide (q = p) then is_Some opid else q ∈ m_vec c) →
  view_inv (MkView (v_readers v) m (<[i := c']> (m_pid_peers v)) swarm).
Proof.
  intros I Hc Hc' HS Hm Hsw Hf Hnew Hold Hel. pose proof (lookup_lt_Some _ _ _ Hc) as Li.
  split; [split|]; cbn [m_peer_to_pid m_pid_peers m_swarm_state v_readers].
  7: { split; [done|]. intros E. apply (f_equal length) in E. rewrite length_insert in E. cbn [length] in E. lia. }
  - done.
  - rewrite Hsw, length_insert. apply I.
  - rewrite length_insert. apply I.
  - intros q pid. unfold pid_of at 1. cbn [m_peer_to_pid]. rewrite Hf, length_insert. case_decide.
    + intros Hp. by apply Hnew.
    + apply I.
  - intros j d. rewrite list_lookup_insert_Some. intros [(<- & <- & _)|[_ Hd]]; [done|]. by eapply (vi_ras _ I).
  - intros j d q. rewrite length_insert. unfold pid_of. cbn [m_peer_to_pid].
    rewrite list_lookup_insert_Some. intros [(<- & <- & _)|[Hij Hd]].
    + rewrite Hel, Hf. case_decide as D; [|by apply (vi_elem _ I)].
      split; [intros [pid Hp]; exists pid; split; [done|]; by apply Hnew|intros (pid & -> & _); by eexists].
    + rewrite (vi_elem _ I _ _ _ Hd), Hf. case_decide as D; [|done]. subst q. split.
      * intros (pid & Hp & Hj). apply Hold in Hp. lia.
      * intros (pid & Hp & Hj). apply Hnew in Hp as [_ Hp]. lia.
Qed.

(** ** Operations of a view *)

(** A PID that the view has no collection for becomes the unknown PID. *)
Definition clip (n : nat) (pid : Z) : Z := if (0 <=? pid)%Z && (Z.of_nat n - 1 <=? pid)%Z then ERR_UNKNOWN_PID else pid.

(** The number of collections after the first peer was added. *)
Definition width_of (total : Z) (v : PerISPPeerDistribution) : nat :=
  match m_peer_to_pid v with [] => Z.to_nat total + 1 | _ => length (m_pid_peers v) end.

Lemma clip_ok n pid : 0 < n → (-1 ≤ pid)%Z → pid_ok n (clip n pid).
Proof. intros Hn Hp. unfold clip, pid_ok, ERR_UNKNOWN_PID. repeat case_bool; cbn; lia. Qed.

Lemma clip_small n pid : pid_ok n pid → clip n pid = pid.
Proof. unfold pid_ok, clip, ERR_UNKNOWN_PID. intros [->|H]; [done|]. repeat case_bool; cbn; lia. Qed.

Lemma map_insert_ne {K V} (ltb : K → K → bool) k (x : V) m : map_insert ltb k x m ≠ [].
Proof.
  unfold map_insert. destruct m as [|[k' x'] m]; cbn; [done|]. repeat case_match; done.
Qed.

(** The view on which the insertion of a peer works. *)
Lemma allocated_spec total v : view_inv v → total_ok total →
  view_core (allocated total v) ∧ length (m_pid_peers (allocated total v)) = width_of total v ∧
  0 < width_of total v ∧ v_readers (allocated total v) = v_readers v ∧
  m_peer_to_pid (allocated total v) = m_peer_to_pid v.
Proof.
  intros I [Ht0 Ht1]. unfold allocated, width_of. destruct (m_peer_to_pid v) as [|e m] eqn:E.
  - cbn [m_pid_peers v_readers m_peer_to_pid]. rewrite length_replicate, u32_small by lia.
    split_and!; [|lia|lia|done|done]. split; cbn [m_pid_peers m_swarm_state m_peer_to_pid].
    + constructor.
    + unfold SwarmState_new. rewrite !length_replicate. lia.
    + rewrite length_replicate. lia.
    + done.
    + intros i c [-> _]%lookup_replicate. apply ras_empty_inv.
    + intros i c p [-> _]%lookup_replicate. cbn. split; [by intros ?%not_elem_of_nil|]. by intros (? & ? & _).
  - assert (Hne : m_pid_peers v ≠ []) by (intros Hn; apply (vi_alloc _ I) in Hn; by rewrite E in Hn).
    split_and!; try done; [apply I|]. destruct (m_pid_peers v); [done|cbn; lia].
Qed.

(** Pushing a peer that the view does not have. *)
Lemma push_peer_Ok v peer pid : view_core v → 0 < length (m_pid_peers v) →
  pid_ok (length (m_pid_peers v)) pid → pid_of v peer = None →
  ∃ c c', m_pid_peers v !! Z.to_nat (slot_of (length (m_pid_peers v)) pid) = Some c ∧
    push_peer (slot_of (length (m_pid_peers v)) pid) peer v =
      Ok (<[Z.to_nat (slot_of (length (m_pid_peers v)) pid) := c']> (m_pid_peers v)) ∧
    peers_inv c' ∧ m_vec c' = m_vec c ++ [peer].
Proof.
  intros I L0 Hok Ep. destruct (vec_at_lt _ _ (pid_ok_slot _ _ L0 Hok)) as [c Hc]. exists c.
  unfold push_peer. rewrite Hc. apply vec_at_Some in Hc as [_ Hc].
  assert (Hnf : ras_find id Pos.ltb peer c = None).
  { destruct (ras_find id Pos.ltb peer c) as [i|] eqn:F; [|done].
    apply (ras_find_Some id Pos.ltb) in F as (x & Hx & E); [|by eapply (vi_ras _ I)]. cbn in E. subst x.
    apply list_elem_of_lookup_2, (vi_elem _ I _ _ _ Hc) in Hx as (? & ? & _). congruence. }
  destruct (ras_push_back_inv id Pos.ltb peer c (vi_ras _ I _ _ Hc) Hnf) as [Hpi Hpv].
  eexists. split; [done|]. split; [reflexivity|]. done.
Qed.

Lemma ss_write_if_length (b : bool) f pid s :
  length (if b then (ss_write f pid s).2 else s) = length s.
Proof. destruct b; [apply ss_write_length|done]. Qed.

Lemma addPeerInternal_Ok total peer pid stats v : view_inv v → total_ok total → (-1 ≤ pid)%Z →
  ∃ v', addPeerInternal total peer pid stats v = Ok (bool_decide (pid_of v peer = None), v') ∧
    view_inv v' ∧ v_readers v' = v_readers v ∧ length (m_pid_peers v') = width_of total v ∧
    (∀ q, pid_of v' q = if decide (q = peer ∧ pid_of v peer = None)
                        then Some (clip (width_of total v) pid) else pid_of v q).
Proof.
  intros I HT Hpid. destruct (allocated_spec total v I HT) as (A & L & L0 & Hrd & Hmp).
  unfold addPeerInternal. rewrite Hmp. fold (pid_of v peer). cbn zeta.
  assert (Hne : m_pid_peers (allocated total v) ≠ []) by (intros E; rewrite E in L; cbn in L; lia).
  rewrite last_idx_pos by (done || apply A). rewrite L.
  fold (clip (width_of total v) pid). set (cl := clip (width_of total v) pid).
  destruct (pid_of v peer) as [pid0|] eqn:Ep.
  { exists v. unfold allocated. destruct (m_peer_to_pid v) eqn:E; [unfold pid_of in Ep; by rewrite E in Ep|].
    split_and!; try done; [unfold width_of; by rewrite E|]. intros q. by rewrite decide_False by naive_solver. }
  pose proof (clip_ok _ _ L0 Hpid) as Hcl. fold cl in Hcl.
  replace (if (0 <=? cl)%Z then cl else Z.of_nat (width_of total v) - 1)%Z with (slot_of (width_of total v) cl)
    by (unfold slot_of; rewrite Z.ltb_antisym; by destruct (0 <=? cl)%Z).
  rewrite <- L in *. assert (Ep' : pid_of (allocated total v) peer = None) by (unfold pid_of; by rewrite Hmp).
  destruct (push_peer_Ok _ peer cl A L0 Hcl Ep') as (c & c' & Hc & -> & Hi & Hv).
  cbn [mbind outcome_bind mret outcome_ret]. rewrite (bool_decide_eq_true_2 (None = None)) by done.
  assert (Hfind : ∀ q, map_find Pos.ltb q (map_insert Pos.ltb peer cl (m_peer_to_pid v)) =
    if decide (q = peer) then Some cl else pid_of v q).
  { intros q. unfold map_insert. fold (pid_of v peer). rewrite Ep. case_decide as D.
    - subst. apply (map_find_set_eq Pos.ltb), I.
    - apply (map_find_set_ne Pos.ltb); [apply I|done]. }
  eexists. split; [reflexivity|]. split; [|split_and!; [exact Hrd|apply length_insert|]].
  - eapply view_inv_update with (p := peer) (opid := Some cl); [exact A|exact Hc|exact Hi| |apply map_insert_ne|..].
    + apply (map_insert_sorted Pos.ltb), I.
    + apply ss_write_if_length.
    + intros q. rewrite Hfind. unfold pid_of. by rewrite Hmp.
    + intros pid' [= <-]. split; [done|]. rewrite Z2Nat.id; [done|]. by apply pid_ok_slot.
    + intros pid'. congruence.
    + intros q. rewrite Hv. case_decide; set_solver.
  - intros q. unfold pid_of at 1. cbn [m_peer_to_pid]. rewrite Hfind. repeat case_decide; naive_solver.
Qed.

Lemma exclusive_Ok n : n = 0 → exclusive n = Ok tt.
Proof. by intros ->. Qed.

Lemma view_addPeer_Ok total peer p pid v : view_inv v → v_readers v = 0 → total_ok total → (-1 ≤ pid)%Z →
  ∃ v', view_addPeer total peer p pid v = Ok (bool_decide (pid_of v peer = None), v') ∧
    view_inv v' ∧ v_readers v' = 0 ∧
    (∀ q, pid_of v' q = if decide (q = peer ∧ pid_of v peer = None)
                        then Some (clip (width_of total v) pid) else pid_of v q).
Proof.
  intros I HR HT Hp. destruct (addPeerInternal_Ok total peer pid (stats_of p) v I HT Hp)
    as (v' & E & I' & R' & _ & F). exists v'. unfold view_addPeer. rewrite (exclusive_Ok _ HR). cbn.
  split_and!; [exact E|done|congruence|done].
Qed.

Lemma view_removePeer_Ok peer v : view_inv v → v_readers v = 0 →
  ∃ v', view_removePeer peer v = Ok (bool_decide (pid_of v peer ≠ None), v') ∧
    view_inv v' ∧ v_readers v' = 0 ∧
    (∀ q, pid_of v' q = if decide (q = peer) then None else pid_of v q).
Proof.
  intros I HR. unfold view_removePeer. rewrite (exclusive_Ok _ HR). cbn [mbind outcome_bind mret outcome_ret].
  fold (pid_of v peer). destruct (pid_of v peer) as [pid|] eqn:Ep.
  2: { exists v. split_and!; try done. intros q. case_decide; by subst. }
  pose proof (vi_nonempty v I _ _ Ep) as Hne. rewrite slot_eq by (done || apply I).
  destruct (vi_holds v I _ _ Ep) as (c & Hc & Hin). rewrite Hc. cbn [from_option_or mbind outcome_bind].
  apply vec_at_Some in Hc as [Hs Hc]. pose proof (vi_ras _ I _ _ Hc) as Hci.
  destruct (ras_erase_Ok id Pos.ltb peer c Hci) as (b & c' & -> & Hci' & Ht & Hff).
  assert (Hb : b = true).
  { destruct b; [done|]. destruct (Hff eq_refl) as [_ H]. by destruct (H _ Hin). }
  subst b. destruct (Ht eq_refl) as (x & Ex & HP). cbn in Ex. subst x. clear Ht Hff.
  cbn [mbind outcome_bind mret outcome_ret]. rewrite (bool_decide_eq_true_2 (Some pid ≠ None)) by done.
  assert (Hfind : ∀ q, map_find Pos.ltb q (map_erase Pos.ltb peer (m_peer_to_pid v)) =
    if decide (q = peer) then None else pid_of v q).
  { intros q. case_decide as D.
    - subst. apply (map_find_erase_eq Pos.ltb), I.
    - apply (map_find_erase_ne Pos.ltb); [apply I|done]. }
  destruct (map_erase Pos.ltb peer (m_peer_to_pid v)) as [|e m] eqn:Em.
  { eexists. split; [reflexivity|]. split; [|split; [done|exact Hfind]].
    pose proof view_new_inv as [[] ?]. split; [split|]; done. }
  eexists. split; [reflexivity|]. split; [|split; [done|exact Hfind]].
  pose proof (vi_nodup v I _ _ Hc) as ND. rewrite HP, NoDup_cons in ND.
  eapply view_inv_update with (p := peer) (opid := None); [apply I|exact Hc|exact Hci'| |done|done|exact Hfind|done|..].
  - rewrite <- Em. apply (map_erase_sorted Pos.ltb), I.
  - intros pid'. rewrite Ep. intros [= <-]. by rewrite Z2Nat.id.
  - intros q. assert (HE : q ∈ m_vec c ↔ q ∈ peer :: m_vec c') by (by rewrite HP).
    rewrite elem_of_cons in HE. case_decide as D; [|naive_solver].
    subst. split; [naive_solver|by intros [? ?]].
Qed.

(** The statistics do not touch the PIDs. *)
Lemma view_updatePeerStats_Ok peer b uc dc ur dr ap v : view_inv v → v_readers v = 0 →
  ∃ v', view_updatePeerStats peer b uc dc ur dr ap v = Ok (bool_decide (pid_of v peer ≠ None), v') ∧
    view_inv v' ∧ v_readers v' = 0 ∧ m_peer_to_pid v' = m_peer_to_pid v ∧ m_pid_peers v' = m_pid_peers v.
Proof.
  intros I HR. unfold view_updatePeerStats. rewrite (exclusive_Ok _ HR). cbn [mbind outcome_bind mret outcome_ret].
  fold (pid_of v peer). destruct (pid_of v peer) as [pid|] eqn:Ep; [|by exists v].
  eexists. split; [reflexivity|]. split; [|done]. destruct I as [[] ?]. split; [split|]; try done.
  cbn [m_swarm_state m_pid_peers]. unfold ss_update. by rewrite ss_write_length.
Qed.

(** ** Queries of a view *)
Definition peers_of (pid : Z) (v : PerISPPeerDistribution) : list peer_ptr :=
  match pid_collection pid v with Some c => m_vec c | None => [] end.

Lemma pid_collection_Some v pid : view_inv v → m_peer_to_pid v ≠ [] → pid_ok (length (m_pid_peers v)) pid →
  ∃ c, pid_collection pid v = Some c ∧ m_pid_peers v !! Z.to_nat (slot_of (length (m_pid_peers v)) pid) = Some c.
Proof.
  intros I Hne Hok. rewrite (vi_alloc _ I) in Hne.
  assert (L0 : 0 < length (m_pid_peers v)) by (destruct (m_pid_peers v); [done|cbn; lia]).
  pose proof (pid_ok_slot _ _ L0 Hok) as Hr. destruct (vec_at_lt _ _ Hr) as [c Hc]. exists c.
  unfold pid_collection. rewrite slot_eq by (done || apply I).
  pose proof (vi_size _ I). rewrite u32_small by lia. split; [done|]. by apply vec_at_Some in Hc as [_ Hc].
Qed.

(** The peers of a PID are listed once each; they are those that the view maps to it. *)
Lemma peers_of_spec v pid : view_inv v → pid_ok (length (m_pid_peers v)) pid →
  NoDup (peers_of pid v) ∧ ∀ p, p ∈ peers_of pid v ↔ pid_of v p = Some pid.
Proof.
  intros I Hok. unfold peers_of. destruct (decide (m_peer_to_pid v = [])) as [E|Hne].
  { assert (m_pid_peers v = []) as En by (by apply (vi_alloc _ I)).
    unfold pid_collection. rewrite En. unfold vec_at. cbn [length].
    replace (_ && _) with false; [|symmetry; apply andb_false_iff; rewrite Z.ltb_ge, Z.leb_gt; lia].
    split; [constructor|]. intros p. unfold pid_of. rewrite E. by split; [intros ?%not_elem_of_nil|]. }
  destruct (pid_collection_Some v pid I Hne Hok) as (c & -> & Hc). split; [by eapply vi_nodup|].
  assert (L0 : 0 < length (m_pid_peers v)) by (rewrite (vi_alloc _ I) in Hne; destruct (m_pid_peers v); [done|cbn; lia]).
  intros p. rewrite (vi_elem _ I _ _ _ Hc). rewrite Z2Nat.id by (by apply pid_ok_slot). split.
  - intros (pid' & Hp & Hs). rewrite Hp. f_equal. symmetry.
    eapply slot_of_inj; [done|done|by eapply (vi_range _ I)|done].
  - intros Hp. by exists pid.
Qed.

(** ** The manager *)

(** What the manager relies on of an ISP: the PID counts fit an [int], lookups return an
    index of a PID and prefixes have a length. *)
Record isp_ok (info : ISPInfo) : Prop := {
  io_total : total_ok (num_total_pids info);
  io_intra : (0 ≤ num_intraisp_pids info ≤ num_total_pids info)%Z;
  io_lookup : ∀ a, ((isp_lookup info a).1 < num_total_pids info)%Z;
  io_length : ∀ a, (0 ≤ length_ (isp_lookup info a).2)%Z
}.

Record world_inv (w : World) : Prop := {
  wi_views : map_sorted Pos.ltb (m_views w);
  wi_peers : map_sorted Pos.ltb (m_peers w);
  wi_view : ∀ isp v, (isp, v) ∈ m_views w → view_inv v ∧ v_readers v = 0 ∧
    ∃ info, w_isps w !! isp = Some info ∧ isp_ok info;
  wi_known : ∀ isp v p, (isp, v) ∈ m_views w → pid_of v p ≠ None → is_Some (map_find Pos.ltb p (m_peers w));
  wi_deref : ∀ p, is_Some (map_find Pos.ltb p (m_peers w)) → is_Some (w_peers w !! p);
  wi_free : views_readers w = 0
}.

(** The PID that an ISP gives to an address. *)
Definition isp_pid (info : ISPInfo) (a : IPPrefix) : Z :=
  let pid := (isp_lookup info a).1 in if (pid <? 0)%Z then ERR_UNKNOWN_PID else pid.

Lemma isp_pid_ge info a : (-1 ≤ isp_pid info a)%Z.
Proof. unfold isp_pid, ERR_UNKNOWN_PID. case_bool; lia. Qed.

(** An internal PID of the ISP matches the address with a prefix of the given length. *)
Definition internal_match (isps : gmap isp_ptr ISPInfo) (a : IPPrefix) (isp : isp_ptr) (pid len : Z) : Prop :=
  ∃ info mp, isps !! isp = Some info ∧ isp_lookup info a = (pid, mp) ∧
    (0 ≤ pid < num_intraisp_pids info)%Z ∧ length_ mp = len.

(** The home of a peer after some views were visited. *)
Record home_inv (isps : gmap isp_ptr ISPInfo) (a : IPPrefix) (visited : list isp_ptr) (h : Home) : Prop := {
  hi_none : home_isp h = None → longest_prefix_length h = 0%Z;
  hi_best : ∀ isp pid len, isp ∈ visited → internal_match isps a isp pid len →
    home_isp h ≠ None ∧ (len ≤ longest_prefix_length h)%Z;
  hi_home : ∀ isp, home_isp h = Some isp → isp ∈ visited ∧
    internal_match isps a isp (home_pid h) (longest_prefix_length h)
}.

Lemma home_step isps a visited isp info h : isps !! isp = Some info → isp_ok info →
  home_inv isps a visited h → home_inv isps a (visited ++ [isp]) (better_home isp info a h).
Proof.
  intros Hi [[? ?] [? ?] _ HL] [N B HH]. specialize (HL a). unfold better_home.
  destruct (isp_lookup info a) as [pid mp] eqn:E. cbn in HL. rewrite s32_small by lia.
  assert (Hme : ∀ pid' len', internal_match isps a isp pid' len' →
    pid' = pid ∧ len' = length_ mp ∧ (0 ≤ pid < num_intraisp_pids info)%Z).
  { intros pid' len' (info' & mp' & Hi' & E' & Hr & <-). rewrite Hi in Hi'. injection Hi' as <-.
    rewrite E in E'. by injection E' as <- <-. }
  assert (Hskip : (pid < 0 ∨ num_intraisp_pids info ≤ pid ∨ length_ mp < longest_prefix_length h)%Z →
    home_inv isps a (visited ++ [isp]) h).
  { intros Hsk. split; [done| |].
    - intros isp' pid' len'. rewrite elem_of_app, list_elem_of_singleton. intros [Hv| ->] M; [by eapply B|].
      apply Hme in M as (-> & -> & ?). split; [|lia]. intros Hn%N. lia.
    - intros isp' Hh. destruct (HH _ Hh) as [? ?]. split; [set_solver|done]. }
  repeat case_bool; try (apply Hskip; lia). split; cbn [home_isp home_pid longest_prefix_length]; [done| |].
  - intros isp' pid' len'. rewrite elem_of_app, list_elem_of_singleton. intros [Hv| ->] M; (split; [done|]).
    + destruct (B _ _ _ Hv M). lia.
    + apply Hme in M as (_ & -> & _). lia.
  - intros isp' [= <-]. split; [set_solver|]. exists info, mp. split_and!; try done; lia.
Qed.

(** The effect of adding a peer on one view. *)
Definition view_added (isps : gmap isp_ptr ISPInfo) (peer : peer_ptr) (a : IPPrefix)
    (e e' : isp_ptr * PerISPPeerDistribution) : Prop :=
  e'.1 = e.1 ∧ view_inv e'.2 ∧ v_readers e'.2 = 0 ∧
  ∃ info, isps !! e.1 = Some info ∧
    ∀ q, pid_of e'.2 q = if decide (q = peer ∧ pid_of e.2 peer = None)
      then Some (clip (width_of (num_total_pids info) e.2) (isp_pid info a)) else pid_of e.2 q.

Lemma add_to_views_Ok isps peer p views : ∀ visited h,
  (∀ isp v, (isp, v) ∈ views → view_inv v ∧ v_readers v = 0 ∧ ∃ info, isps !! isp = Some info ∧ isp_ok info) →
  home_inv isps (p_address p) visited h →
  ∃ vs h', add_to_views isps peer p views h = Ok (vs, h') ∧
    Forall2 (view_added isps peer (p_address p)) views vs ∧
    home_inv isps (p_address p) (visited ++ views.*1) h'.
Proof.
  induction views as [|[isp v] views IH]; intros visited h HV HI.
  { exists [], h. split; [done|]. split; [constructor|]. by rewrite app_nil_r. }
  destruct (HV isp v ltac:(left)) as (I & HR & info & Hi & Hok). cbn [add_to_views]. rewrite Hi.
  cbn [from_option_or mbind outcome_bind]. fold (isp_pid info (p_address p)).
  destruct (view_addPeer_Ok (num_total_pids info) peer p (isp_pid info (p_address p)) v I HR
    (io_total _ Hok) (isp_pid_ge _ _)) as (v' & -> & I' & R' & F). cbn [mbind outcome_bind].
  destruct (IH (visited ++ [isp]) (better_home isp info (p_address p) h)) as (vs & h' & -> & H1 & H2).
  { intros isp' w Hin. apply HV. by right. } { by eapply home_step. }
  exists ((isp, v') :: vs), h'. split; [done|]. split.
  - constructor; [|done]. split_and!; try done. by exists info.
  - by rewrite <- app_assoc in H2.
Qed.

Lemma map_sorted_keys {K V W} (ltb : K → K → bool) (m : list (K * V)) (m' : list (K * W)) :
  m'.*1 = m.*1 → map_sorted ltb m → map_sorted ltb m'.
Proof.
  revert m'. induction m as [|[k x] m IH]; intros [|[k' x'] m'] E HS; try done; [constructor|].
  injection E as -> E. apply StronglySorted_inv in HS as [HS' HF]. constructor; [by apply IH|].
  apply Forall_forall. intros [k'' y] Hy. cbn. rewrite Forall_forall in HF.
  change (m'.*1 = m.*1) in E.
  assert (Hk : k'' ∈ m.*1) by (rewrite <- E; apply list_elem_of_fmap; by exists (k'', y)).
  apply list_elem_of_fmap in Hk as ([? z] & -> & Hz). by apply (HF _ Hz).
Qed.

Lemma Forall2_elem_r {A B} (P : A → B → Prop) l k y : Forall2 P l k → y ∈ k → ∃ x, x ∈ l ∧ P x y.
Proof. induction 1; [by intros ?%not_elem_of_nil|]. rewrite elem_of_cons. intros [->|Hy]; [|destruct IHForall2]; set_solver. Qed.

(** Replacing every view by one for the same ISP. *)
Lemma world_inv_views (P : isp_ptr * PerISPPeerDistribution → isp_ptr * PerISPPeerDistribution → Prop) w vs ms ps :
  world_inv w → Forall2 P (m_views w) vs →
  (∀ e e', e ∈ m_views w → P e e' → e'.1 = e.1 ∧ view_inv e'.2 ∧ v_readers e'.2 = 0 ∧
     ∀ q, pid_of e'.2 q ≠ None → is_Some (map_find Pos.ltb q ms)) →
  map_sorted Pos.ltb ms → (∀ q, is_Some (map_find Pos.ltb q ms) → is_Some (ps !! q)) →
  world_inv (MkWorld ps (w_isps w) (views_readers w) vs ms).
Proof.
  intros W HF HP HS HD.
  assert (Hk : vs.*1 = (m_views w).*1).
  { clear -HF HP. induction HF as [|x y l k Hxy HF IH]; [done|]. cbn. f_equal; [by apply (HP x y ltac:(left))|].
    apply IH. intros e e' He. apply HP. by right. }
  split; cbn [m_views m_peers w_isps w_peers views_readers]; try done.
  - by eapply map_sorted_keys, W.
  - intros isp v Hv. destruct (Forall2_elem_r _ _ _ _ HF Hv) as ([isp0 v0] & H0 & H1).
    destruct (HP _ _ H0 H1) as (E & ? & ? & _). cbn in E. subst isp0.
    split_and!; try done. by apply (wi_view _ W) in H0 as (_ & _ & ?).
  - intros isp v q Hv. destruct (Forall2_elem_r _ _ _ _ HF Hv) as (e0 & H0 & H1).
    by apply (HP _ _ H0 H1).
  - apply W.
Qed.

Lemma map_find_insert {V} p (x : V) ms q : map_sorted Pos.ltb ms →
  map_find Pos.ltb q (map_insert Pos.ltb p x ms) =
    if decide (q = p ∧ map_find Pos.ltb p ms = None) then Some x else map_find Pos.ltb q ms.
Proof.
  intros HS. unfold map_insert. destruct (map_find Pos.ltb p ms) eqn:E.
  { rewrite decide_False by naive_solver. done. }
  destruct (decide (q = p)) as [->|Hq].
  - rewrite (map_find_set_eq Pos.ltb) by done. by rewrite decide_True.
  - rewrite (map_find_set_ne Pos.ltb) by done. by rewrite decide_False by naive_solver.
Qed.

Definition initial_home : Home := MkHome None ERR_UNKNOWN_PID 0.

Lemma addPeer_Ok w peer p : world_inv w → w_peers w !! peer = Some p →
  map_find Pos.ltb peer (m_peers w) = None →
  ∃ w' h, addPeer peer w = Ok (true, w') ∧ world_inv w' ∧
    Forall2 (view_added (w_isps w) peer (p_address p)) (m_views w) (m_views w') ∧
    home_inv (w_isps w) (p_address p) (m_views w).*1 h ∧
    m_peers w' = map_insert Pos.ltb peer (stats_of p) (m_peers w) ∧
    w_peers w' = match home_isp h with
                 | Some isp => <[peer := setHome isp (home_pid h) p]> (w_peers w) | None => w_peers w end.
Proof.
  intros W Hp Hn. unfold addPeer, deref_peer. rewrite Hp. cbn [from_option_or mbind outcome_bind]. rewrite Hn.
  destruct (add_to_views_Ok (w_isps w) peer p (m_views w) [] initial_home) as (vs & h & E & HF & HI).
  { apply W. } { split; [done|by intros ? ? ? ?%not_elem_of_nil|done]. }
  unfold initial_home in E. rewrite E. cbn [mbind outcome_bind].
  set (ps := match home_isp h with
    | Some isp => <[peer := setHome isp (home_pid h) p]> (w_peers w) | None => w_peers w end).
  set (ms := map_insert Pos.ltb peer (stats_of p) (m_peers w)).
  exists (MkWorld ps (w_isps w) (views_readers w) vs ms), h. split; [by unfold ps; destruct (home_isp h)|].
  split; [|done]. eapply (world_inv_views _ w); [done|exact HF|..].
  - intros e e' He (E1 & I1 & R1 & info & Hi & F). split_and!; try done. intros q. rewrite F.
    unfold ms. rewrite map_find_insert by apply W. intros Hq.
    destruct (decide (q = peer ∧ map_find Pos.ltb peer (m_peers w) = None)); [by eexists|].
    rewrite decide_False in Hq by naive_solver. destruct e as [isp v]. by apply (wi_known _ W isp v).
  - apply (map_insert_sorted Pos.ltb), W.
  - intros q. unfold ms. rewrite map_find_insert by apply W. unfold ps. case_decide as D.
    + intros _. destruct D as [-> _]. destruct (home_isp h); [rewrite lookup_insert_eq|]; eauto.
    + intros Hq%(wi_deref _ W). destruct (home_isp h); [|done]. destruct (decide (q = peer)) as [->|Hne].
      * rewrite lookup_insert_eq; eauto.
      * by rewrite lookup_insert_ne.
Qed.

(** The effect of removing a peer on one view. *)
Definition view_removed (peer : peer_ptr) (e e' : isp_ptr * PerISPPeerDistribution) : Prop :=
  e'.1 = e.1 ∧ view_inv e'.2 ∧ v_readers e'.2 = 0 ∧
  ∀ q, pid_of e'.2 q = if decide (q = peer) then None else pid_of e.2 q.

(** Statistics leave the PIDs alone. *)
Definition view_same_pids (e e' : isp_ptr * PerISPPeerDistribution) : Prop :=
  e'.1 = e.1 ∧ view_inv e'.2 ∧ v_readers e'.2 = 0 ∧ ∀ q, pid_of e'.2 q = pid_of e.2 q.

Lemma each_view_Ok (P : isp_ptr * PerISPPeerDistribution → isp_ptr * PerISPPeerDistribution → Prop) f views :
  (∀ isp v, (isp, v) ∈ views → ∃ b v', f v = Ok (b, v') ∧ P (isp, v) (isp, v')) →
  ∃ vs, each_view f views = Ok vs ∧ Forall2 P views vs.
Proof.
  induction views as [|[isp v] views IH]; intros H; [by exists []|]. cbn [each_view].
  destruct (H isp v ltac:(left)) as (b & v' & -> & Hv). cbn [mbind outcome_bind].
  destruct IH as (vs & -> & HF); [intros isp' w Hin; apply H; by right|].
  exists ((isp, v') :: vs). split; [done|]. by constructor.
Qed.

Lemma removePeer_Ok w peer : world_inv w →
  ∃ w', removePeer peer w = Ok (bool_decide (map_find Pos.ltb peer (m_peers w) ≠ None), w') ∧ world_inv w' ∧
    Forall2 (view_removed peer) (m_views w) (m_views w') ∧
    m_peers w' = map_erase Pos.ltb peer (m_peers w) ∧ w_peers w' = w_peers w.
Proof.
  intros W. unfold removePeer.
  destruct (each_view_Ok (view_removed peer) (view_removePeer peer) (m_views w)) as (vs & -> & HF).
  { intros isp v Hv. destruct (wi_view _ W _ _ Hv) as (I & HR & _).
    destruct (view_removePeer_Ok peer v I HR) as (v' & E & I' & R' & F). eexists _, v'. by split. }
  cbn [mbind outcome_bind mret outcome_ret].
  assert (HE : ∀ q, map_find Pos.ltb q (map_erase Pos.ltb peer (m_peers w)) =
    if decide (q = peer) then None else map_find Pos.ltb q (m_peers w)).
  { intros q. case_decide as D; [subst; apply (map_find_erase_eq Pos.ltb), W|].
    apply (map_find_erase_ne Pos.ltb); [apply W|done]. }
  eexists. split; [by destruct (map_find Pos.ltb peer (m_peers w))|]. split; [|done].
  eapply (world_inv_views _ w); [done|exact HF|..].
  - intros [isp v] e' He (E1 & I1 & R1 & F). split_and!; try done. intros q. rewrite F, HE.
    case_decide; [by intros []|]. by apply (wi_known _ W isp v).
  - apply (map_erase_sorted Pos.ltb), W.
  - intros q. rewrite HE. case_decide; [by intros [? ?]|apply W].
Qed.

Lemma updatePeerStats_Ok w peer p : world_inv w → w_peers w !! peer = Some p →
  ∃ b w', updatePeerStats peer w = Ok (b, w') ∧ world_inv w' ∧ b = bool_decide (map_find Pos.ltb peer (m_peers w) ≠ None) ∧
    Forall2 view_same_pids (m_views w) (m_views w') ∧ w_peers w' = w_peers w ∧
    (b = true → map_find Pos.ltb peer (m_peers w') = Some (stats_of p)).
Proof.
  intros W Hp. unfold updatePeerStats, deref_peer. rewrite Hp. cbn [from_option_or mbind outcome_bind].
  destruct (map_find Pos.ltb peer (m_peers w)) as [prev|] eqn:Ep.
  2: { exists false, w. split_and!; try done. apply Forall2_same_length_lookup_2; [done|].
    intros i e e' H1 H2. rewrite H1 in H2. injection H2 as <-. apply list_elem_of_lookup_2 in H1.
    destruct e as [isp v]. by destruct (wi_view _ W _ _ H1) as (? & ? & _). }
  match goal with |- context [each_view ?f _] => destruct (each_view_Ok view_same_pids f (m_views w)) as (vs & -> & HF) end.
  { intros isp v Hv. destruct (wi_view _ W _ _ Hv) as (I & HR & _).
    match goal with |- context [view_updatePeerStats _ ?b ?uc ?dc ?ur ?dr ?ap _] =>
      destruct (view_updatePeerStats_Ok peer b uc dc ur dr ap v I HR) as (v' & E & I' & R' & F & _) end.
    eexists _, v'. split; [done|]. split_and!; try done. intros q. unfold pid_of. cbn. by rewrite F. }
  cbn [mbind outcome_bind mret outcome_ret]. eexists true, _. split; [reflexivity|].
  split; [|split_and!; try done; intros _; apply (map_find_set_eq Pos.ltb), W].
  assert (HE : ∀ q, is_Some (map_find Pos.ltb q (map_set Pos.ltb peer (stats_of p) (m_peers w))) ↔
    is_Some (map_find Pos.ltb q (m_peers w))).
  { intros q. destruct (decide (q = peer)) as [->|Hq].
    - rewrite (map_find_set_eq Pos.ltb), Ep by apply W. by split; eexists.
    - rewrite (map_find_set_ne Pos.ltb); [done|apply W|done]. }
  eapply (world_inv_views _ w); [done|exact HF|..].
  - intros [isp v] e' He (E1 & I1 & R1 & F). split_and!; try done. intros q. rewrite F, HE.
    by apply (wi_known _ W isp v).
  - apply (map_set_sorted Pos.ltb), W.
  - intros q Hq%HE. by apply W.
Qed.

Lemma addISP_Ok w isp info : world_inv w → w_isps w !! isp = Some info → isp_ok info →
  ∃ w', addISP isp w = Ok (bool_decide (getISPViewInternal isp w = None), w') ∧ world_inv w' ∧
    m_views w' = map_insert Pos.ltb isp view_new (m_views w) ∧ m_peers w' = m_peers w ∧ w_peers w' = w_peers w.
Proof.
  intros W Hi Hok. unfold addISP. rewrite (exclusive_Ok _ (wi_free _ W)). cbn [mbind outcome_bind].
  unfold map_insert, getISPViewInternal. destruct (map_find Pos.ltb isp (m_views w)) as [v|] eqn:E; [by exists w|].
  eexists. split; [reflexivity|]. split; [|done]. split; try apply W; cbn [with_views m_views m_peers w_isps].
  - apply (map_set_sorted Pos.ltb), W.
  - intros isp' v' [[= -> ->]|H]%(map_set_elem Pos.ltb); [|by apply W].
    split; [apply view_new_inv|]. split; [done|]. by exists info.
  - intros isp' v' p [[= -> ->]|H]%(map_set_elem Pos.ltb); [done|by apply (wi_known _ W isp')].
Qed.

Lemma removeISP_Ok w isp : world_inv w →
  ∃ w', removeISP isp w = Ok w' ∧ world_inv w' ∧
    m_views w' = map_erase Pos.ltb isp (m_views w) ∧ m_peers w' = m_peers w ∧ w_peers w' = w_peers w.
Proof.
  intros W. unfold removeISP. rewrite (exclusive_Ok _ (wi_free _ W)). cbn [mbind outcome_bind].
  unfold getISPViewInternal. destruct (map_find Pos.ltb isp (m_views w)) as [v|] eqn:E.
  - pose proof (proj1 (map_find_elem Pos.ltb _ _ _ (wi_views _ W)) E) as Hv.
    destruct (wi_view _ W _ _ Hv) as (_ & -> & _). cbn. eexists. split; [reflexivity|]. split; [|done].
    split; try apply W; cbn [with_views m_views m_peers w_isps].
    + apply (map_erase_sorted Pos.ltb), W.
    + intros isp' v' H%(map_erase_sub Pos.ltb). by apply W.
    + intros isp' v' p H%(map_erase_sub Pos.ltb). by apply (wi_known _ W isp').
  - exists w. split_and!; try done. symmetry. by apply map_erase_absent.
Qed.

(** ** Redistribution *)
Section redistribute.
Context (isp : isp_ptr) (info : ISPInfo) (Hok : isp_ok info) (peers0 : gmap peer_ptr Peer).

(** The home PID of the ISP's own peers follows the PID map. *)
Definition rehomed (p : Peer) : Peer :=
  if bool_decide (m_home_isp p = Some isp) then setHome isp (isp_pid info (p_address p)) p else p.

Record redist_inv (visited : list (peer_ptr * PeerStats)) (s : PerISPPeerDistribution * gmap peer_ptr Peer) : Prop := {
  ri_view : view_inv s.1;
  ri_readers : v_readers s.1 = 0;
  ri_width : width_of (num_total_pids info) s.1 = Z.to_nat (num_total_pids info) + 1;
  ri_pid : ∀ q, pid_of s.1 q = if decide (q ∈ visited.*1)
    then isp_pid info ∘ p_address <$> peers0 !! q else None;
  ri_peers : ∀ q, s.2 !! q = if decide (q ∈ visited.*1) then rehomed <$> peers0 !! q else peers0 !! q
}.

Lemma isp_pid_ok a : pid_ok (Z.to_nat (num_total_pids info) + 1) (isp_pid info a).
Proof.
  pose proof (io_lookup _ Hok a). destruct (io_total _ Hok). unfold pid_ok, isp_pid. case_bool; [by left|]. right. lia.
Qed.

Lemma readd_peer_Ok visited peer stats s : redist_inv visited s → peer ∉ visited.*1 → is_Some (peers0 !! peer) →
  ∃ s', readd_peer isp info (peer, stats) s = Ok s' ∧ redist_inv (visited ++ [(peer, stats)]) s'.
Proof.
  intros [I HR HW HP HG] Hnew [p Hp]. destruct s as [v peers]. cbn [fst snd] in *. unfold readd_peer.
  rewrite HG, decide_False, Hp by done. cbn [from_option_or mbind outcome_bind]. fold (isp_pid info (p_address p)).
  destruct (addPeerInternal_Ok (num_total_pids info) peer (isp_pid info (p_address p)) stats v I
    (io_total _ Hok) (isp_pid_ge _ _)) as (v' & -> & I' & R' & L' & F). cbn [mbind outcome_bind mret outcome_ret].
  eexists. split; [reflexivity|].
  assert (Hn : pid_of v peer = None) by (by rewrite HP, decide_False).
  assert (Hv' : ∀ q, q ∈ (visited ++ [(peer, stats)]).*1 ↔ q ∈ visited.*1 ∨ q = peer)
    by (intros q; rewrite fmap_app; cbn; set_solver).
  split; cbn [fst snd]; [done|congruence|..].
  - unfold width_of. rewrite L'. destruct (m_peer_to_pid v') eqn:E; [done|]. done.
  - intros q. rewrite F, Hn, HW, (clip_small _ _ (isp_pid_ok _)), HP.
    destruct (decide (q = peer)) as [->|Hq].
    + rewrite !decide_True by naive_solver. by rewrite Hp.
    + rewrite (decide_False (P := q = peer ∧ _)) by naive_solver.
      repeat case_decide; naive_solver.
  - intros q. destruct (decide (q = peer)) as [->|Hq].
    + rewrite (decide_True (P := peer ∈ (visited ++ _).*1)) by naive_solver. rewrite Hp. cbn. unfold rehomed.
      case_bool_decide; [by rewrite lookup_insert_eq|]. by rewrite HG, decide_False, Hp.
    + transitivity (peers !! q).
      { case_bool_decide; [by rewrite lookup_insert_ne|done]. }
      rewrite HG. repeat case_decide; naive_solver.
Qed.
End redistribute.

Lemma updatePeerDistribution_Ok w isp info v : world_inv w → w_isps w !! isp = Some info →
  getISPViewInternal isp w = Some v →
  ∃ w' v', updatePeerDistribution isp w = Ok (0%Z, w') ∧ world_inv w' ∧
    m_views w' = map_set Pos.ltb isp v' (m_views w) ∧ m_peers w' = m_peers w ∧
    (∀ q, pid_of v' q = if decide (is_Some (map_find Pos.ltb q (m_peers w)))
                        then isp_pid info ∘ p_address <$> w_peers w !! q else None) ∧
    (∀ q, w_peers w' !! q = if decide (is_Some (map_find Pos.ltb q (m_peers w)))
                            then rehomed isp info <$> w_peers w !! q else w_peers w !! q).
Proof.
  intros W Hi Hv. unfold updatePeerDistribution, deref_isp. rewrite Hv, Hi. cbn [from_option_or mbind outcome_bind].
  pose proof (proj1 (map_find_elem Pos.ltb _ _ _ (wi_views _ W)) Hv) as Hin.
  destruct (wi_view _ W _ _ Hin) as (I & HR & info' & Hi' & Hok). rewrite Hi in Hi'. injection Hi' as <-.
  unfold addPeersFromManager. rewrite (exclusive_Ok _ HR). cbn [mbind outcome_bind].
  pose proof (map_sorted_nodup Pos.ltb _ (wi_peers _ W)) as ND.
  destruct (ofold_inv_split (redist_inv isp info (w_peers w)) (readd_peer isp info) (m_peers w)
    (MkView (v_readers v) [] [] SwarmState_empty, w_peers w)) as ([v' ps] & -> & [I' R' _ HP HG]).
  { split; cbn [fst snd]; try done. rewrite HR. apply view_new_inv. }
  { intros dn [q st] rest s El HI. apply readd_peer_Ok; [done|done|..].
    - rewrite El, fmap_app, NoDup_app in ND. destruct ND as (_ & ND & _). intros Hq. by apply (ND q Hq); left.
    - apply (wi_deref _ W). exists st. apply (map_find_elem Pos.ltb); [apply W|]. rewrite El. set_solver. }
  cbn [mbind outcome_bind mret outcome_ret fst snd] in *.
  assert (HK : ∀ q, q ∈ (m_peers w).*1 ↔ is_Some (map_find Pos.ltb q (m_peers w))).
  { intros q. rewrite list_elem_of_fmap. split.
    - intros ([q' st] & -> & H). exists st. by apply (map_find_elem Pos.ltb), H; apply W.
    - intros [st H]. apply (map_find_elem Pos.ltb) in H; [|apply W]. by exists (q, st). }
  assert (HG' : ∀ q, ps !! q = if decide (is_Some (map_find Pos.ltb q (m_peers w)))
    then rehomed isp info <$> w_peers w !! q else w_peers w !! q).
  { intros q. rewrite HG. pose proof (HK q). repeat case_decide; naive_solver. }
  assert (HP' : ∀ q, pid_of v' q = if decide (is_Some (map_find Pos.ltb q (m_peers w)))
    then isp_pid info ∘ p_address <$> w_peers w !! q else None).
  { intros q. rewrite HP. pose proof (HK q). repeat case_decide; naive_solver. }
  eexists _, v'. split; [reflexivity|]. split; [|done].
  split; cbn [with_peers put_view with_views m_views m_peers w_isps w_peers views_readers]; try apply W.
  - apply (map_set_sorted Pos.ltb), W.
  - intros isp' u [[= -> ->]|H]%(map_set_elem Pos.ltb); [|by apply W]. split; [done|]. split; [done|]. by exists info.
  - intros isp' u p [[= -> ->]|H]%(map_set_elem Pos.ltb); [|by apply (wi_known _ W isp')].
    rewrite HP'. by case_decide.
  - intros q Hq. rewrite HG'. rewrite decide_True by done. apply (wi_deref _ W) in Hq as [p ->]. by eexists.
Qed.
