(* ===== verification/SelHelper.v ===== *)
(** * Selecting peers of a PID without repetition
    (common/cpp/src/lib/pid_peer_selection_helper.cpp)

    [PIDPeerSelectionHelper] hands out random peers of the PIDs of one view, which is
    locked while it is in use.  For a PID with few peers it copies the list and takes
    elements out of the copy; for a PID with many peers it draws until it meets a peer
    that it has not returned before. *)
From S2P Require Import Prelude StdMap Double IpAddr IspPidMap Heap SwarmState Rand PeerDist.

Inductive Strategy := ST_UNKNOWN | ST_COPY | ST_NOCOPY.

Record PIDInfo := MkPIDInfo {
  numPeers : Z;
  strategy : Strategy;
  candidates : list peer_ptr;
  selected : gset (option peer_ptr)   (* a set of pointers, which may be NULL *)
}.

Record PIDPeerSelectionHelper := MkHelper { m_total_peers : Z; m_pidinfo : list PIDInfo }.

(** Computations that change a helper and draw random numbers. *)
Definition H (A : Type) : Type := ST (PIDPeerSelectionHelper * list Z) A.
#[global] Instance helper_ret : MRet H := @st_ret _.
#[global] Instance helper_bind : MBind H := @st_bind _.

Definition h_rand {A} (m : R A) : H A := λ '(h, rs),
  match m rs with Ok (a, rs') => Ok (a, (h, rs')) | Fault e => Fault e end.

Section Helper.
Variable v : PerISPPeerDistribution.

Definition PIDPeerSelectionHelper_new (num_pids num_total_peers : Z) : PIDPeerSelectionHelper :=
  MkHelper num_total_peers
    (((λ i, MkPIDInfo (view_getNumPeers (Z.of_nat i) v) ST_UNKNOWN [] ∅) <$> seq 0 (Z.to_nat num_pids))
     ++ [MkPIDInfo (view_getNumPeers ERR_UNKNOWN_PID v) ST_UNKNOWN [] ∅]).

Definition pid_idx (pid : Z) (h : PIDPeerSelectionHelper) : Z :=
  if (pid =? ERR_UNKNOWN_PID)%Z then Z.of_nat (length (m_pidinfo h)) - 1 else pid.

Definition get_info (idx : Z) : H PIDInfo := λ '(h, rs),
  match vec_at (m_pidinfo h) idx with Some i => Ok (i, (h, rs)) | None => Fault UB end.
Definition put_info (idx : Z) (i : PIDInfo) : H unit := λ '(h, rs),
  Ok (tt, (MkHelper (m_total_peers h) (<[Z.to_nat idx := i]> (m_pidinfo h)), rs)).

(** [selectPeer] decides on a strategy for the PID the first time. *)
Definition choose_strategy (total : Z) (pid : Z) (i : PIDInfo) : option PIDInfo :=
  match strategy i with
  | ST_UNKNOWN =>
      if (numPeers i <? 0)%Z then None
      else if (u32 (4 * total) <? numPeers i)%Z then Some (MkPIDInfo (numPeers i) ST_NOCOPY (candidates i) (selected i))
      else
        let '(found, c) := view_listPIDPeers pid v (candidates i) in
        if found then Some (MkPIDInfo (numPeers i) ST_COPY c (selected i)) else None
  | _ => Some i
  end.

(** The [do ... while] loop: draw until the peer was not selected before. *)
Fixpoint draw_fresh (fuel : nat) (pid : Z) (sel : gset (option peer_ptr)) : R (option peer_ptr) :=
  match fuel with
  | 0 => λ _, Fault NoFuel
  | S fuel =>
      peer ← view_getRandomPeer pid v;
      if bool_decide (peer ∈ sel) then draw_fresh fuel pid sel else mret peer
  end.
Definition draw (pid : Z) (sel : gset (option peer_ptr)) : R (option peer_ptr) := λ rs,
  draw_fresh (S (length rs)) pid sel rs.

(** Take element [peer_idx] out of the candidates: the last one takes its place. *)
Definition take_candidate (peer_idx : nat) (c : list peer_ptr) : list peer_ptr :=
  match last c with Some x => take (length c - 1) (<[peer_idx := x]> c) | None => c end.

Definition selectPeer (pid : Z) : H (option peer_ptr) :=
  '(h, _) ← st_get;
  let idx := pid_idx pid h in
  i ← get_info idx;
  match choose_strategy (m_total_peers h) pid i with
  | None =>
      (* the strategy was recorded before [listPIDPeers] failed *)
      (if (0 <=? numPeers i)%Z then put_info idx (MkPIDInfo (numPeers i) ST_COPY (candidates i) (selected i))
       else mret tt);;
      mret None
  | Some i =>
      match strategy i with
      | ST_COPY =>
          match candidates i with
          | [] => put_info idx i;; mret None
          | _ =>
              r ← h_rand rand;
              let peer_idx := Z.to_nat (r `mod` Z.of_nat (length (candidates i))) in
              peer ← st_lift (from_option_or UB (candidates i !! peer_idx));
              put_info idx (MkPIDInfo (s32 (numPeers i - 1)) ST_COPY (take_candidate peer_idx (candidates i)) (selected i));;
              mret (Some peer)
          end
      | _ =>
          peer ← h_rand (draw pid (selected i));
          put_info idx (MkPIDInfo (s32 (numPeers i - 1)) ST_NOCOPY (candidates i) ({[peer]} ∪ selected i));;
          mret peer
      end
  end.

(** [int] addition; overflow is undefined. *)
Definition int_add (a b : Z) : outcome Z :=
  if (- 2 ^ 31 <=? a + b)%Z && (a + b <=? INT_MAX)%Z then Ok (a + b)%Z else Fault UB.

Fixpoint sum_peers (pids : list Z) (sum : Z) : H Z :=
  match pids with
  | [] => mret sum
  | pid :: pids => i ← get_info pid; s ← st_lift (int_add sum (numPeers i)); sum_peers pids s
  end.

(** The bin that the coin falls into; the last one takes what is left. *)
Fixpoint pick_pid (pids : list Z) (coin : Z) : H Z :=
  match pids with
  | [] => st_fail UB
  | [pid] => mret pid
  | pid :: pids =>
      i ← get_info pid;
      if (coin - numPeers i <? 0)%Z then mret pid else pick_pid pids (coin - numPeers i)
  end.

Definition selectPeer_from (pids : list Z) : H (option peer_ptr) :=
  sum ← sum_peers pids 0;
  if (sum <=? 0)%Z then mret None
  else
    r ← h_rand rand;
    pid ← pick_pid pids (r `mod` sum);
    selectPeer pid.
End Helper.
