(* ===== verification/SelHelperSpec.v ===== *)
(** * Random selection: what is selected and that it ends

    [rand] is a function [f] from positions to numbers; [runs f m h n a h' n'] says that
    the computation [m] started in [h] at position [n] ends with the value [a] in [h'],
    having consumed the numbers up to position [n'].  For a fair sequence (every value of
    [rand] comes again and again) all computations of the helper end. *)
From S2P Require Import Prelude StdMap Double IpAddr IspPidMap Heap SwarmState Rand PeerDist.
From S2P Require Import PeerDistSpec SelHelper.

(** Every number that [rand] can return is returned again after any position. *)
Definition fair (f : nat → Z) : Prop :=
  (∀ n, (0 ≤ f n ≤ RAND_MAX)%Z) ∧ ∀ x n, (0 ≤ x ≤ RAND_MAX)%Z → ∃ j, n ≤ j ∧ f j = x.

Section runs.
Context {S : Type} (f : nat → Z).

Definition runs {A} (m : ST (S * list Z) A) (s : S) (n : nat) (a : A) (s' : S) (n' : nat) : Prop :=
  n ≤ n' ∧ ∀ tl, m (s, (f <$> seq n (n' - n)) ++ tl) = Ok (a, (s', tl)).

Lemma runs_ret {A} (a : A) s n : runs (mret a) s n a s n.
Proof. split; [done|]. intros tl. by rewrite Nat.sub_diag. Qed.

Lemma runs_bind {A B} (m : ST (S * list Z) A) (k : A → ST (S * list Z) B) s n a s1 n1 b s2 n2 :
  runs m s n a s1 n1 → runs (k a) s1 n1 b s2 n2 → runs (m ≫= k) s n b s2 n2.
Proof.
  intros [L1 H1] [L2 H2]. split; [lia|]. intros tl. rewrite st_bind_eq.
  replace (n2 - n) with ((n1 - n) + (n2 - n1)) by lia. rewrite seq_app, fmap_app, <- app_assoc, H1.
  replace (n + (n1 - n)) with n1 by lia. apply H2.
Qed.

(** A step that draws no random number. *)
Lemma runs_pure {A} (m : ST (S * list Z) A) s n a s' :
  (∀ rs, m (s, rs) = Ok (a, (s', rs))) → runs m s n a s' n.
Proof. intros H. split; [done|]. intros tl. rewrite Nat.sub_diag. apply H. Qed.

Lemma runs_get {A} (k : S * list Z → ST (S * list Z) A) s n a s' n' :
  (∀ rs, runs (k (s, rs)) s n a s' n') → runs (st_get ≫= k) s n a s' n'.
Proof.
  intros H. split; [apply (H [])|]. intros tl. rewrite st_bind_eq. cbn. apply H.
Qed.
End runs.

Lemma runs_rand f h n : runs f (h_rand rand) h n (f n) h (Datatypes.S n).
Proof. split; [lia|]. intros tl. replace (Datatypes.S n - n) with 1 by lia. done. Qed.

Section spec.
Context (f : nat → Z) (Hf : fair f) (v : PerISPPeerDistribution) (I : view_inv v) (total : Z).

Notation width := (length (m_pid_peers v)).

(** The peers of the collection with an index. *)
Definition avail (i : nat) : list peer_ptr := match m_pid_peers v !! i with Some c => m_vec c | None => [] end.
Definition idx_of (pid : Z) : nat := Z.to_nat (slot_of width pid).

Context (Hsmall : ∀ i, (Z.of_nat (length (avail i)) < 2 ^ 31)%Z).

Lemma avail_nodup i : NoDup (avail i).
Proof. unfold avail. destruct (m_pid_peers v !! i) eqn:E; [by eapply vi_nodup|constructor]. Qed.

(** One entry of the helper; [ch] are the peers that were returned for it. *)
Record entry_ok (i : nat) (e : PIDInfo) (ch : list peer_ptr) : Prop := {
  eo_nodup : NoDup ch;
  eo_sub : ch ⊆ avail i;
  eo_num : numPeers e = (Z.of_nat (length (avail i)) - Z.of_nat (length ch))%Z;
  eo_strategy :
    match strategy e with
    | ST_UNKNOWN => ch = [] ∧ candidates e = [] ∧ selected e = ∅
    | ST_COPY => avail i ≡ₚ candidates e ++ ch
    | ST_NOCOPY => (u32 (4 * total) < Z.of_nat (length (avail i)))%Z ∧ ∀ o, o ∈ selected e ↔ ∃ p, p ∈ ch ∧ o = Some p
    end
}.

Record helper_inv (h : PIDPeerSelectionHelper) (ch : nat → list peer_ptr) : Prop := {
  hv_total : m_total_peers h = total;
  hv_length : length (m_pidinfo h) = width;
  hv_entry : ∀ i e, m_pidinfo h !! i = Some e → entry_ok i e (ch i)
}.

Definition chosen (i : nat) (p : peer_ptr) (ch : nat → list peer_ptr) : nat → list peer_ptr :=
  λ j, if decide (j = i) then p :: ch j else ch j.

Lemma length_chosen ch i : NoDup ch → ch ⊆ avail i → length ch ≤ length (avail i).
Proof. intros N S. by apply submseteq_length, NoDup_submseteq. Qed.

Lemma pid_collection_avail pid : 0 < width → pid_ok width pid →
  ∃ c, pid_collection pid v = Some c ∧ m_vec c = avail (idx_of pid).
Proof.
  intros L0 Hok. assert (Hne : m_peer_to_pid v ≠ []).
  { rewrite (vi_alloc _ I). intros E. by rewrite E in L0; cbn in L0; lia. }
  destruct (pid_collection_Some v pid I Hne Hok) as (c & Hc & Hl). exists c. split; [done|].
  unfold avail, idx_of. by rewrite Hl.
Qed.

Lemma getNumPeers_avail pid : 0 < width → pid_ok width pid →
  view_getNumPeers pid v = Z.of_nat (length (avail (idx_of pid))).
Proof.
  intros L0 Hok. destruct (pid_collection_avail pid L0 Hok) as (c & Hc & Hv).
  unfold view_getNumPeers. rewrite Hc. unfold ras_size. rewrite Hv. pose proof (Hsmall (idx_of pid)).
  apply s32_small. lia.
Qed.

Lemma helper_new_inv : 0 < width → helper_inv (PIDPeerSelectionHelper_new v (Z.of_nat width - 1) total) (λ _, []).
Proof.
  intros L0. unfold PIDPeerSelectionHelper_new. split; cbn [m_pidinfo m_total_peers]; [done|..].
  - rewrite length_app, length_fmap, length_seq. cbn. lia.
  - assert (HE : ∀ i pid, pid_ok width pid → idx_of pid = i →
      entry_ok i (MkPIDInfo (view_getNumPeers pid v) ST_UNKNOWN [] ∅) []).
    { intros i pid Hok <-. split; cbn; [constructor|set_solver| |done]. rewrite getNumPeers_avail by done. lia. }
    intros i e [Hl|[Hge Hl]]%lookup_app_Some.
    + apply list_lookup_fmap_Some in Hl as (j & -> & Hj). apply lookup_seq in Hj as [-> Hlt]. cbn.
      apply HE; [right; lia|]. unfold idx_of, slot_of. case_bool; lia.
    + rewrite length_fmap, length_seq in *. apply list_lookup_singleton_Some in Hl as [Hi <-].
      apply HE; [by left|]. unfold idx_of, slot_of, ERR_UNKNOWN_PID. cbn. lia.
Qed.

(** ** One peer of one PID *)
Lemma getRandomPeer_runs pid n : 0 < width → pid_ok width pid → avail (idx_of pid) ≠ [] →
  ∃ p, p ∈ avail (idx_of pid) ∧
    avail (idx_of pid) !! Z.to_nat (f n `mod` Z.of_nat (length (avail (idx_of pid)))) = Some p ∧
    ∀ tl, view_getRandomPeer pid v (f n :: tl) = Ok (Some p, tl).
Proof.
  intros L0 Hok Hne. destruct (pid_collection_avail pid L0 Hok) as (c & Hc & Hv).
  assert (Hl : 0 < length (avail (idx_of pid))) by (destruct (avail (idx_of pid)); [done|cbn; lia]).
  pose proof (Z.mod_pos_bound (f n) (Z.of_nat (length (avail (idx_of pid)))) ltac:(lia)) as Hm.
  destruct (vec_at_lt (avail (idx_of pid)) _ Hm) as [p Hp]. exists p.
  pose proof (proj1 (vec_at_Some _ _ _) Hp) as [_ Hp'].
  split; [by eapply list_elem_of_lookup_2|]. split; [done|]. intros tl. unfold view_getRandomPeer. rewrite Hc.
  unfold ras_size. rewrite Hv. destruct (Nat.eqb_spec (length (avail (idx_of pid))) 0); [lia|].
  rewrite (st_bind_Ok rand _ (f n :: tl) (f n) tl eq_refl). by rewrite Hp.
Qed.

(** The loop ends at the first position whose number is the index of a peer that was not
    selected; [d] is the distance to a position where that is certain. *)
Lemma draw_fresh_runs pid sel d : 0 < width → pid_ok width pid → ∀ n,
  (∃ q, avail (idx_of pid) !! Z.to_nat (f (n + d) `mod` Z.of_nat (length (avail (idx_of pid)))) = Some q ∧
     Some q ∉ sel) →
  ∃ p n', p ∈ avail (idx_of pid) ∧ Some p ∉ sel ∧ n < n' ∧ ∀ fuel tl, n' - n ≤ fuel →
    draw_fresh v fuel pid sel ((f <$> seq n (n' - n)) ++ tl) = Ok (Some p, tl).
Proof.
  intros L0 Hok. induction d as [|d IH]; intros n (q & Hq & Hfresh);
    (assert (Hne : avail (idx_of pid) ≠ []) by (intros E; by rewrite E in Hq));
    destruct (getRandomPeer_runs pid n L0 Hok Hne) as (p & Hin & Hp & Hrun);
    (destruct (decide (Some p ∈ sel)) as [Hs|Hs]; [|
      exists p, (S n); split_and!; [done|done|lia|]; intros [|fuel] tl Hfu; [lia|];
      replace (S n - n) with 1 by lia; cbn [seq fmap list_fmap app draw_fresh];
      rewrite (st_bind_Ok _ _ _ _ _ (Hrun tl)); by rewrite bool_decide_eq_false_2]).
  - rewrite Nat.add_0_r in Hq. congruence.
  - destruct (IH (S n)) as (p' & n' & Hin' & Hfr' & Hn' & Hrun').
    { exists q. by replace (S n + d) with (n + S d) by lia. }
    exists p', n'. split_and!; [done|done|lia|]. intros [|fuel] tl Hfu; [lia|].
    replace (n' - n) with (S (n' - S n)) by lia. cbn [seq fmap list_fmap app draw_fresh].
    rewrite (st_bind_Ok _ _ _ _ _ (Hrun _)). rewrite bool_decide_eq_true_2 by done. apply Hrun'. lia.
Qed.

Lemma draw_runs pid sel q h n : 0 < width → pid_ok width pid → q ∈ avail (idx_of pid) → Some q ∉ sel →
  ∃ p n', p ∈ avail (idx_of pid) ∧ Some p ∉ sel ∧ runs f (h_rand (draw v pid sel)) h n (Some p) h n'.
Proof.
  intros L0 Hok [k Hk]%list_elem_of_lookup Hq. destruct Hf as [Hr Hfair].
  pose proof (lookup_lt_Some _ _ _ Hk) as Lk. pose proof (Hsmall (idx_of pid)) as Hs.
  destruct (Hfair (Z.of_nat k) n) as (j & Hj & Ej); [unfold RAND_MAX; lia|].
  destruct (draw_fresh_runs pid sel (j - n) L0 Hok n) as (p & n' & Hin & Hfr & Hn & Hrun).
  { exists q. replace (n + (j - n)) with j by lia. rewrite Ej, Z.mod_small, Nat2Z.id by lia. done. }
  exists p, n'. split_and!; [done|done|]. split; [lia|]. intros tl. unfold h_rand, draw.
  rewrite Hrun; [done|]. rewrite length_app, length_fmap, length_seq. lia.
Qed.

(** The entry of a PID. *)
Lemma entry_at h ch pid : helper_inv h ch → 0 < width → pid_ok width pid →
  pid_idx pid h = Z.of_nat (idx_of pid) ∧
  ∃ e, m_pidinfo h !! idx_of pid = Some e ∧ entry_ok (idx_of pid) e (ch (idx_of pid)) ∧
    ∀ rs, get_info (pid_idx pid h) (h, rs) = Ok (e, (h, rs)).
Proof.
  intros [_ HL HE] L0 Hok. pose proof (pid_ok_slot _ _ L0 Hok) as Hs.
  assert (Hi : pid_idx pid h = Z.of_nat (idx_of pid)).
  { unfold idx_of. rewrite Z2Nat.id by lia. unfold pid_idx, slot_of. rewrite HL.
    destruct Hok as [->|Hr]; [done|]. unfold ERR_UNKNOWN_PID. repeat case_bool; lia. }
  split; [done|]. destruct (lookup_lt_is_Some_2 (m_pidinfo h) (idx_of pid)) as [e He].
  { rewrite HL. unfold idx_of. lia. }
  exists e. split_and!; [done|by apply HE|]. intros rs. unfold get_info. by rewrite Hi, vec_at_nat, He.
Qed.

(** Writing an entry back. *)
Lemma put_info_inv h ch i e l : helper_inv h ch → entry_ok i e l →
  helper_inv (MkHelper (m_total_peers h) (<[i := e]> (m_pidinfo h))) (λ j, if decide (j = i) then l else ch j).
Proof.
  intros [HT HL HE] He. split; cbn [m_pidinfo m_total_peers]; [done|by rewrite length_insert|].
  intros j e'. rewrite list_lookup_insert_Some. intros [(<- & <- & _)|[Hne Hj]].
  - by rewrite decide_True.
  - rewrite decide_False by done. by apply HE.
Qed.

Lemma helper_inv_ext h ch ch' : (∀ i, ch i = ch' i) → helper_inv h ch → helper_inv h ch'.
Proof. intros E [HT HL HE]. split; [done|done|]. intros i e Hi. rewrite <- E. by apply HE. Qed.

Lemma take_candidate_perm c k p : c !! k = Some p → c ≡ₚ p :: take_candidate k c.
Proof.
  intros Hk. pose proof (lookup_lt_Some _ _ _ Hk) as Lk. unfold take_candidate.
  destruct (last c) as [x|] eqn:E; [|by apply last_None in E; subst].
  apply last_Some in E as [c0 ->]. rewrite length_app in *. cbn [length] in *. rewrite Nat.add_sub.
  destruct (decide (k = length c0)) as [->|Hne].
  - rewrite lookup_app_r, Nat.sub_diag in Hk by lia. injection Hk as ->.
    rewrite insert_app_r_alt, Nat.sub_diag, take_app_length by lia. by rewrite Permutation_app_comm.
  - rewrite lookup_app_l in Hk by lia. rewrite insert_app_l by lia.
    rewrite take_app_le, take_ge by (rewrite length_insert; lia).
    rewrite insert_take_drop by lia. rewrite <- (take_drop_middle c0 k p Hk) at 1. solve_Permutation.
Qed.

(** The outcome of one selection. *)
Definition picked (h' : PIDPeerSelectionHelper) (ch : nat → list peer_ptr) (pid : Z) (r : option peer_ptr) : Prop :=
  match r with
  | None => avail (idx_of pid) ≡ₚ ch (idx_of pid) ∧ helper_inv h' ch
  | Some p => p ∈ avail (idx_of pid) ∧ p ∉ ch (idx_of pid) ∧ helper_inv h' (chosen (idx_of pid) p ch)
  end.

Lemma put_picked h ch pid e p : helper_inv h ch → pid_idx pid h = Z.of_nat (idx_of pid) →
  p ∈ avail (idx_of pid) → p ∉ ch (idx_of pid) → entry_ok (idx_of pid) e (p :: ch (idx_of pid)) →
  ∃ h', (∀ n, runs f (put_info (pid_idx pid h) e;; mret (Some p)) h n (Some p) h' n) ∧ picked h' ch pid (Some p).
Proof.
  intros HI Hi Hin Hnot He. eexists. split.
  - intros n. eapply runs_bind; [apply runs_pure; intros rs; reflexivity|apply runs_ret].
  - split_and!; [done|done|]. rewrite Hi, Nat2Z.id. eapply helper_inv_ext; [|by apply (put_info_inv _ ch)].
    intros j. unfold chosen. case_decide; by subst.
Qed.

(** An entry after one more peer was returned. *)
Lemma entry_taken i e ch p st c sel : entry_ok i e ch → p ∈ avail i → p ∉ ch → st ≠ ST_UNKNOWN →
  match st with
  | ST_COPY => avail i ≡ₚ c ++ p :: ch
  | _ => (u32 (4 * total) < Z.of_nat (length (avail i)))%Z ∧ ∀ o, o ∈ sel ↔ ∃ q, q ∈ p :: ch ∧ o = Some q
  end →
  entry_ok i (MkPIDInfo (s32 (numPeers e - 1)) st c sel) (p :: ch).
Proof.
  intros [N S M _] Hin Hnot Hst HS. assert (S' : p :: ch ⊆ avail i) by set_solver.
  assert (N' : NoDup (p :: ch)) by (by constructor). pose proof (length_chosen _ _ N' S') as Hl. cbn [length] in Hl.
  pose proof (Hsmall i). split; cbn [numPeers strategy candidates selected]; [done|done| |by destruct st].
  rewrite M, s32_small by lia. cbn [length]. lia.
Qed.

(** A peer for a PID whose strategy is settled. *)
Lemma select_copy h ch pid e n : helper_inv h ch → 0 < width → pid_ok width pid →
  entry_ok (idx_of pid) e (ch (idx_of pid)) → strategy e = ST_COPY → candidates e ≠ [] →
  pid_idx pid h = Z.of_nat (idx_of pid) →
  ∃ p h', runs f (r ← h_rand rand;
      let peer_idx := Z.to_nat (r `mod` Z.of_nat (length (candidates e))) in
      peer ← st_lift (from_option_or UB (candidates e !! peer_idx));
      put_info (pid_idx pid h) (MkPIDInfo (s32 (numPeers e - 1)) ST_COPY (take_candidate peer_idx (candidates e)) (selected e));;
      mret (Some peer)) h n (Some p) h' (S n) ∧ picked h' ch pid (Some p).
Proof.
  intros HI L0 Hok HE Es Hne Hi. pose proof (eo_strategy _ _ _ HE) as St. rewrite Es in St.
  assert (Hl : 0 < length (candidates e)) by (destruct (candidates e); [done|cbn; lia]).
  set (k := Z.to_nat (f n `mod` Z.of_nat (length (candidates e)))).
  destruct (lookup_lt_is_Some_2 (candidates e) k) as [p Hp].
  { pose proof (Z.mod_pos_bound (f n) (Z.of_nat (length (candidates e))) ltac:(lia)). unfold k. lia. }
  pose proof (take_candidate_perm _ _ _ Hp) as HT.
  assert (HA : avail (idx_of pid) ≡ₚ p :: take_candidate k (candidates e) ++ ch (idx_of pid)) by (rewrite St; exact (Permutation_app_tail (ch (idx_of pid)) HT)).
  pose proof (avail_nodup (idx_of pid)) as ND. rewrite HA in ND. apply NoDup_cons in ND as [Hnot ND].
  apply not_elem_of_app in Hnot as [_ Hnot].
  destruct (put_picked h ch pid (MkPIDInfo (s32 (numPeers e - 1)) ST_COPY (take_candidate k (candidates e)) (selected e)) p)
    as (h' & Hrun & HP); [done|done|rewrite HA; left|done| |].
  { apply entry_taken; [done|by rewrite HA; left|done|done|]. cbn. rewrite HA. solve_Permutation. }
  exists p, h'. split; [|done]. eapply runs_bind; [apply runs_rand|]. cbn zeta. fold k. rewrite Hp.
  eapply runs_bind; [by apply runs_pure|]. apply Hrun.
Qed.

(** A draw without copying ends: few peers of the PID were returned, compared to the number
    that makes the helper choose this strategy, or there is one left. *)
Definition may_draw (ch : nat → list peer_ptr) (i : nat) : Prop :=
  (Z.of_nat (length (ch i)) ≤ u32 (4 * total))%Z ∨ length (ch i) < length (avail i).

Lemma select_nocopy h ch pid e n : helper_inv h ch → 0 < width → pid_ok width pid →
  entry_ok (idx_of pid) e (ch (idx_of pid)) → strategy e = ST_NOCOPY →
  may_draw ch (idx_of pid) → pid_idx pid h = Z.of_nat (idx_of pid) →
  ∃ p h' n', runs f (peer ← h_rand (draw v pid (selected e));
      put_info (pid_idx pid h) (MkPIDInfo (s32 (numPeers e - 1)) ST_NOCOPY (candidates e) ({[peer]} ∪ selected e));;
      mret peer) h n (Some p) h' n' ∧ picked h' ch pid (Some p).
Proof.
  intros HI L0 Hok HE Es Hlen Hi. pose proof (eo_strategy _ _ _ HE) as St. rewrite Es in St. destruct St as [Hbig Hsel].
  assert (Hfree : ∃ q, q ∈ avail (idx_of pid) ∧ q ∉ ch (idx_of pid)).
  { apply nodup_longer; [apply avail_nodup|]. destruct Hlen; lia. }
  destruct Hfree as (q & Hq & Hqn).
  destruct (draw_runs pid (selected e) q h n L0 Hok Hq) as (p & n' & Hp & Hpn & Hrun); [rewrite Hsel; naive_solver|].
  assert (Hpc : p ∉ ch (idx_of pid)) by (intros Hc; apply Hpn, Hsel; eauto).
  destruct (put_picked h ch pid (MkPIDInfo (s32 (numPeers e - 1)) ST_NOCOPY (candidates e) ({[Some p]} ∪ selected e)) p)
    as (h' & Hrun' & HP); [done|done|done|done| |].
  { apply entry_taken; [done..|]. split; [done|]. intros o. rewrite elem_of_union, elem_of_singleton, Hsel. set_solver. }
  exists p, h', n'. split; [|done]. eapply runs_bind; [exact Hrun|]. apply Hrun'.
Qed.

Lemma choose_strategy_Ok pid e ch : 0 < width → pid_ok width pid → entry_ok (idx_of pid) e ch →
  ∃ e', choose_strategy v total pid e = Some e' ∧ entry_ok (idx_of pid) e' ch ∧ strategy e' ≠ ST_UNKNOWN.
Proof.
  intros L0 Hok HE. unfold choose_strategy. destruct (strategy e) eqn:Es; try (exists e; by rewrite Es).
  pose proof HE as [N S M St]. rewrite Es in St. destruct St as (-> & Hc & Hs).
  destruct (Z.ltb_spec (numPeers e) 0); [cbn in *; lia|]. cbn [length] in M.
  destruct (Z.ltb_spec (u32 (4 * total)) (numPeers e)) as [Hb|Hb].
  - eexists. split; [reflexivity|]. split; [|done]. split; cbn; try done. split; [lia|]. rewrite Hs. set_solver.
  - unfold view_listPIDPeers. destruct (pid_collection_avail pid L0 Hok) as (c & -> & Hv).
    eexists. split; [reflexivity|]. split; [|done]. split; cbn; try done. by rewrite Hc, Hv, app_nil_r.
Qed.

(** A selection from a PID ends.  It returns a peer of the PID that was not returned
    before, or nothing when all of them were. *)
Lemma selectPeer_runs h ch pid n : helper_inv h ch → 0 < width → pid_ok width pid →
  may_draw ch (idx_of pid) →
  ∃ r h' n', runs f (selectPeer v pid) h n r h' n' ∧ picked h' ch pid r.
Proof.
  intros HI L0 Hok Hlen. destruct (entry_at h ch pid HI L0 Hok) as (Hi & e & He & HE & Hget).
  destruct (choose_strategy_Ok pid e _ L0 Hok HE) as (e' & HC & HE' & Hst).
  assert (Hgo : ∀ r h' n',
    runs f (match strategy e' with
      | ST_COPY => match candidates e' with
          | [] => put_info (pid_idx pid h) e';; mret None
          | _ => r ← h_rand rand;
              let peer_idx := Z.to_nat (r `mod` Z.of_nat (length (candidates e'))) in
              peer ← st_lift (from_option_or UB (candidates e' !! peer_idx));
              put_info (pid_idx pid h) (MkPIDInfo (s32 (numPeers e' - 1)) ST_COPY (take_candidate peer_idx (candidates e')) (selected e'));;
              mret (Some peer)
          end
      | _ => peer ← h_rand (draw v pid (selected e'));
          put_info (pid_idx pid h) (MkPIDInfo (s32 (numPeers e' - 1)) ST_NOCOPY (candidates e') ({[peer]} ∪ selected e'));;
          mret peer
      end) h n r h' n' → runs f (selectPeer v pid) h n r h' n').
  { intros r h' n' Hr. unfold selectPeer. apply runs_get. intros rs.
    eapply runs_bind; [apply runs_pure; exact Hget|]. rewrite (hv_total _ _ HI), HC. exact Hr. }
  destruct (strategy e') eqn:Es; [done| |].
  - destruct (candidates e') as [|x cs] eqn:Ec.
    + pose proof (eo_strategy _ _ _ HE') as St. rewrite Es, Ec in St.
      eexists None, _, n. split; [apply Hgo; eapply runs_bind; [apply runs_pure; intros rs; reflexivity|apply runs_ret]|].
      split; [by rewrite St|]. rewrite Hi, Nat2Z.id.
      eapply helper_inv_ext; [|by apply (put_info_inv _ ch)]. intros j. cbn. case_decide; by subst.
    + destruct (select_copy h ch pid e' n HI L0 Hok HE' Es) as (p & h' & Hrun & HP); [by rewrite Ec|done|].
      exists (Some p), h', (S n). split; [|done]. apply Hgo. by rewrite Ec in Hrun.
  - destruct (select_nocopy h ch pid e' n HI L0 Hok HE' Es Hlen Hi) as (p & h' & n' & Hrun & HP).
    exists (Some p), h', n'. split; [|done]. by apply Hgo.
Qed.

(** ** One peer of several PIDs *)
Definition left_of (ch : nat → list peer_ptr) (i : nat) : Z := Z.of_nat (length (avail i)) - Z.of_nat (length (ch i)).
Definition left_in (ch : nat → list peer_ptr) (pids : list Z) : Z :=
  foldr (λ pid s, (left_of ch (Z.to_nat pid) + s)%Z) 0%Z pids.
(** PIDs of the view. *)
Definition pids_ok (pids : list Z) : Prop := ∀ pid, pid ∈ pids → (0 ≤ pid < Z.of_nat width - 1)%Z.

Lemma pids_ok_cons pid pids : pids_ok (pid :: pids) ↔ (0 ≤ pid < Z.of_nat width - 1)%Z ∧ pids_ok pids.
Proof. unfold pids_ok. setoid_rewrite elem_of_cons. naive_solver. Qed.

Lemma idx_nonneg pid : (0 ≤ pid)%Z → idx_of pid = Z.to_nat pid.
Proof. intros Hp. unfold idx_of, slot_of. destruct (Z.ltb_spec pid 0); [lia|done]. Qed.

Lemma left_nonneg h ch i : helper_inv h ch → i < width → (0 ≤ left_of ch i)%Z.
Proof.
  intros [_ HL HE] Hi. destruct (lookup_lt_is_Some_2 (m_pidinfo h) i) as [e He]; [lia|].
  destruct (HE _ _ He) as [N S _ _]. pose proof (length_chosen _ _ N S). unfold left_of. lia.
Qed.

Lemma left_in_nonneg h ch pids : helper_inv h ch → pids_ok pids → (0 ≤ left_in ch pids)%Z.
Proof.
  intros HI. induction pids as [|pid pids IH]; [done|]. intros [H1 H2]%pids_ok_cons. cbn.
  pose proof (left_nonneg h ch (Z.to_nat pid) HI ltac:(lia)). specialize (IH H2). unfold left_in in IH. lia.
Qed.

Lemma get_info_left h ch pid : helper_inv h ch → (0 ≤ pid < Z.of_nat width - 1)%Z →
  ∃ e, (∀ rs, get_info pid (h, rs) = Ok (e, (h, rs))) ∧ numPeers e = left_of ch (Z.to_nat pid).
Proof.
  intros [_ HL HE] Hp. destruct (lookup_lt_is_Some_2 (m_pidinfo h) (Z.to_nat pid)) as [e He]; [lia|].
  exists e. split; [|by apply HE]. intros rs. unfold get_info.
  by rewrite <- (Z2Nat.id pid) at 1 by lia; rewrite vec_at_nat, He.
Qed.

Lemma sum_peers_runs h ch pids : helper_inv h ch → ∀ sum, pids_ok pids → (0 ≤ sum)%Z →
  (sum + left_in ch pids ≤ INT_MAX)%Z → ∀ n, runs f (sum_peers pids sum) h n (sum + left_in ch pids)%Z h n.
Proof.
  intros HI. induction pids as [|pid pids IH]; intros sum Hok H0 Hmax n.
  { cbn. rewrite Z.add_0_r. apply runs_ret. }
  apply pids_ok_cons in Hok as [Hp Hok]. destruct (get_info_left h ch pid HI Hp) as (e & Hg & He).
  pose proof (left_nonneg h ch (Z.to_nat pid) HI ltac:(lia)). pose proof (left_in_nonneg h ch pids HI Hok) as Hr.
  change (left_in ch (pid :: pids)) with (left_of ch (Z.to_nat pid) + left_in ch pids)%Z in *.
  cbn [sum_peers]. eapply runs_bind; [apply runs_pure, Hg|]. rewrite He, Z.add_assoc in *.
  eapply runs_bind; [apply runs_pure; intros rs; unfold int_add, INT_MAX in *|apply IH; [done|lia|lia]].
  by rewrite (proj2 (Z.leb_le _ _)), (proj2 (Z.leb_le _ _)) by lia.
Qed.

Lemma pick_pid_runs h ch pids : helper_inv h ch → ∀ coin, pids_ok pids → (0 ≤ coin < left_in ch pids)%Z →
  ∃ pid, pid ∈ pids ∧ (0 < left_of ch (Z.to_nat pid))%Z ∧ ∀ n, runs f (pick_pid pids coin) h n pid h n.
Proof.
  intros HI. induction pids as [|pid pids IH]; intros coin Hok Hc; [cbn in Hc; lia|].
  apply pids_ok_cons in Hok as [Hp Hok]. destruct (get_info_left h ch pid HI Hp) as (e & Hg & He).
  change (left_in ch (pid :: pids)) with (left_of ch (Z.to_nat pid) + left_in ch pids)%Z in Hc.
  destruct pids as [|pid' pids].
  { exists pid. split_and!; [left|cbn in Hc; lia|]. intros n. apply runs_ret. }
  destruct (Z.ltb_spec (coin - left_of ch (Z.to_nat pid)) 0) as [Hlt|Hge].
  - exists pid. split_and!; [left|lia|]. intros n. eapply runs_bind; [apply runs_pure, Hg|]. rewrite He.
    rewrite (proj2 (Z.ltb_lt _ _)) by lia. apply runs_ret.
  - destruct (IH (coin - left_of ch (Z.to_nat pid))%Z Hok) as (q & Hq & Hl & Hrun); [lia|].
    exists q. split_and!; [by right|done|]. intros n. eapply runs_bind; [apply runs_pure, Hg|]. rewrite He.
    rewrite (proj2 (Z.ltb_ge _ _)) by lia. apply Hrun.
Qed.

(** A selection from a group of PIDs ends.  It returns a peer that was not returned before,
    of one of the PIDs, or nothing when all their peers were. *)
Lemma selectPeer_from_runs h ch pids n : helper_inv h ch → pids_ok pids → (left_in ch pids ≤ INT_MAX)%Z →
  ∃ r h' n', runs f (selectPeer_from v pids) h n r h' n' ∧
    match r with
    | None => left_in ch pids = 0%Z ∧ h' = h
    | Some p => ∃ pid, pid ∈ pids ∧ p ∈ avail (Z.to_nat pid) ∧ p ∉ ch (Z.to_nat pid) ∧
                  helper_inv h' (chosen (Z.to_nat pid) p ch)
    end.
Proof.
  intros HI Hok Hmax. pose proof (left_in_nonneg h ch pids HI Hok) as H0.
  destruct (Z.leb_spec (left_in ch pids) 0) as [Hz|Hz].
  { exists None, h, n. split; [|split; [lia|done]]. eapply runs_bind; [by apply (sum_peers_runs h ch)|].
    rewrite (proj2 (Z.leb_le _ _)) by lia. apply runs_ret. }
  destruct (pick_pid_runs h ch pids HI (f n `mod` left_in ch pids) Hok) as (pid & Hin & Hleft & Hpick).
  { apply Z.mod_pos_bound. lia. }
  pose proof (Hok _ Hin) as Hp. assert (Hpok : pid_ok width pid) by (right; lia).
  destruct (selectPeer_runs h ch pid (S n) HI ltac:(lia) Hpok) as (r & h' & n' & Hrun & HP).
  { rewrite idx_nonneg by lia. right. unfold left_of in Hleft. lia. }
  exists r, h', n'. split.
  - eapply runs_bind; [by apply (sum_peers_runs h ch)|]. cbn [Z.add]. rewrite (proj2 (Z.leb_gt _ _)) by lia.
    eapply runs_bind; [apply runs_rand|]. eapply runs_bind; [apply Hpick|]. exact Hrun.
  - unfold picked in HP. rewrite idx_nonneg in HP by lia. destruct r as [p|].
    + exists pid. naive_solver.
    + destruct HP as [HP _]. apply Permutation_length in HP. unfold left_of in Hleft. lia.
Qed.
End spec.
