(* ===== verification/Guidance.v ===== *)
(** * Peering guidance (common/cpp/src/lib/peering_guidance_matrix.cpp,
    peering_guidance_matrix_opts.cpp, include/p4p/detail/pid_matrix_generic.h,
    include/p4p/protocol-aoe/pid_class_pcts.h)

    A [PeeringGuidanceMatrix] holds, for every internal PID of an ISP, the share of
    peers to take from the same PID and from the same ISP, and a weight for every other
    PID.  The numbers come from an optimisation engine, whose protocol is a parameter. *)
From S2P Require Import Prelude StdMap Double IpAddr Pid IspPidMap SwarmState.

Definition ERR_INVALID_SWARM_STATE : Z := -100.
Definition ERR_GUIDANCE_UNAVAILABLE : Z := -101.
Definition ERR_INVALID_OPT_TYPE : Z := -104.

(** ** Options *)
Inductive OptType := OPT_LOCATION_ONLY | OPT_FILESHARING_MATCHING | OPT_STREAMING_SSM | OPT_STREAMING_SSMCM.

#[global] Instance OptType_eq_dec : EqDecision OptType.
Proof. solve_decision. Defined.

Definition opt_rank (o : OptType) : Z :=
  match o with OPT_LOCATION_ONLY => 0 | OPT_FILESHARING_MATCHING => 1 | OPT_STREAMING_SSM => 2 | OPT_STREAMING_SSMCM => 3 end.

Record PeeringGuidanceMatrixOptions := MkOptions {
  m_opttype : OptType;
  m_matching_uses_swarm_state : bool;
  m_overload_protection_factor : float;
  m_use_optengine_ttl : bool;
  m_recompute_interval : Z;
  m_streamingdependent_channelrate : double;
  m_intrapid_pct : double;
  m_intraisp_pct : double
}.

Definition default_options : PeeringGuidanceMatrixOptions :=
  MkOptions OPT_FILESHARING_MATCHING false fzero true (5 * 60) (double_of_int 48000) (dlit 3 4) (dlit 9 10).

Definition setLocationSelectionPercentage (intrapid_pct intraisp_pct : double) (o : PeeringGuidanceMatrixOptions)
  : PeeringGuidanceMatrixOptions :=
  MkOptions (m_opttype o) (m_matching_uses_swarm_state o) (m_overload_protection_factor o) (m_use_optengine_ttl o)
    (m_recompute_interval o) (m_streamingdependent_channelrate o)
    (if dlt intrapid_pct dzero || dlt intraisp_pct intrapid_pct then m_intrapid_pct o else intrapid_pct)
    (if dlt intraisp_pct intrapid_pct || dlt (dlit 99 100) intraisp_pct then m_intraisp_pct o else intraisp_pct).

Definition LocationOnly (intrapid_pct intraisp_pct : double) : PeeringGuidanceMatrixOptions :=
  let o := setLocationSelectionPercentage intrapid_pct intraisp_pct default_options in
  MkOptions OPT_LOCATION_ONLY (m_matching_uses_swarm_state o) (m_overload_protection_factor o) false 0
    (m_streamingdependent_channelrate o) (m_intrapid_pct o) (m_intraisp_pct o).
Definition FilesharingGeneric : PeeringGuidanceMatrixOptions :=
  let o := default_options in
  MkOptions (m_opttype o) (m_matching_uses_swarm_state o) (m_overload_protection_factor o) (m_use_optengine_ttl o)
    (7 * 24 * 60 * 60) (m_streamingdependent_channelrate o) (m_intrapid_pct o) (m_intraisp_pct o).
Definition float_1_5 : float := S754_finite false 12582912 (-23).
Definition FilesharingSwarmDependent : PeeringGuidanceMatrixOptions :=
  let o := default_options in
  MkOptions (m_opttype o) true float_1_5 (m_use_optengine_ttl o)
    (m_recompute_interval o) (m_streamingdependent_channelrate o) (m_intrapid_pct o) (m_intraisp_pct o).
Definition StreamingSwarmDependent (channel_rate : double) (opt_type : OptType) : PeeringGuidanceMatrixOptions :=
  let o := default_options in
  MkOptions opt_type true float_1_5 (m_use_optengine_ttl o) (m_recompute_interval o) channel_rate
    (m_intrapid_pct o) (m_intraisp_pct o).

Definition isSwarmDependent (o : PeeringGuidanceMatrixOptions) : bool :=
  m_matching_uses_swarm_state o || dlt dzero (double_of_float (m_overload_protection_factor o)).

(** [operator==] looks at three of the fields. *)
Definition options_eqb (a b : PeeringGuidanceMatrixOptions) : bool :=
  bool_decide (m_opttype a = m_opttype b)
  && eqb (m_matching_uses_swarm_state a) (m_matching_uses_swarm_state b)
  && deq (m_overload_protection_factor a) (m_overload_protection_factor b).

(** [operator<]: lexicographic over six of the fields. *)
Definition options_ltb (a b : PeeringGuidanceMatrixOptions) : bool :=
  if (opt_rank (m_opttype a) <? opt_rank (m_opttype b))%Z then true
  else if (opt_rank (m_opttype b) <? opt_rank (m_opttype a))%Z then false
  else if negb (m_matching_uses_swarm_state a) && m_matching_uses_swarm_state b then true
  else if negb (m_matching_uses_swarm_state b) && m_matching_uses_swarm_state a then false
  else if dlt (m_overload_protection_factor a) (m_overload_protection_factor b) then true
  else if dlt (m_overload_protection_factor b) (m_overload_protection_factor a) then false
  else if dlt (m_streamingdependent_channelrate a) (m_streamingdependent_channelrate b) then true
  else if dlt (m_streamingdependent_channelrate b) (m_streamingdependent_channelrate a) then false
  else if dlt (m_intrapid_pct a) (m_intrapid_pct b) then true
  else if dlt (m_intrapid_pct b) (m_intrapid_pct a) then false
  else if dlt (m_intraisp_pct a) (m_intraisp_pct b) then true
  else if dlt (m_intraisp_pct b) (m_intraisp_pct a) then false
  else false.

(** ** Weights and percentages of the optimisation engine *)

(** [PIDMatrixGeneric<T>]: rows and entries are maps by PID. *)
Section PIDMatrixGeneric.
Context {T : Type}.
Definition GRow : Type := list (PID * T).
Definition PIDMatrixGeneric : Type := list (PID * GRow).

Definition gm_get_srcs (m : PIDMatrixGeneric) : list PID := m.*1.
Definition gm_has_row (src : PID) (m : PIDMatrixGeneric) : bool :=
  match map_find PID_ltb src m with Some _ => true | None => false end.
Definition gm_get_row (src : PID) (m : PIDMatrixGeneric) : outcome GRow :=
  from_option_or (Throw "range_error: invalid source PID") (map_find PID_ltb src m).
Definition gm_get_entry (row : GRow) (dst : PID) : outcome T :=
  from_option_or (Throw "range_error: invalid destination PID") (map_find PID_ltb dst row).
Definition gm_get_row_make (src : PID) (m : PIDMatrixGeneric) : GRow := default [] (map_find PID_ltb src m).
Definition gm_set (i j : PID) (value : T) (m : PIDMatrixGeneric) : PIDMatrixGeneric :=
  map_set PID_ltb i (map_set PID_ltb j value (gm_get_row_make i m)) m.
Definition gm_get (i j : PID) (m : PIDMatrixGeneric) : outcome T :=
  row ← gm_get_row i m; gm_get_entry row j.
End PIDMatrixGeneric.
Arguments PIDMatrixGeneric T : clear implicits.

Record PIDClassPercentages := MkPcts {
  intrapid_ : list (PID * double);
  intradomain_ : list (PID * double);
  interdomain_ : list (PID * double)
}.
Definition pcts_add (src : PID) (intrapid intradomain interdomain : double) (p : PIDClassPercentages)
  : PIDClassPercentages :=
  MkPcts (map_set PID_ltb src intrapid (intrapid_ p)) (map_set PID_ltb src intradomain (intradomain_ p))
    (map_set PID_ltb src interdomain (interdomain_ p)).
Definition pct_get_val (pcts : list (PID * double)) (pid : PID) : double :=
  default dzero (map_find PID_ltb pid pcts).
Definition get_intrapid (src : PID) (p : PIDClassPercentages) : double := pct_get_val (intrapid_ p) src.
Definition get_intradomain (src : PID) (p : PIDClassPercentages) : double := pct_get_val (intradomain_ p) src.

(** ** The guidance matrix *)

(** What is sent to the optimisation engine about a PID. *)
Record aoe_pid := MkAoePid {
  a_seeds : Z; a_leechers : Z;
  a_ul_cap : double; a_dl_cap : double; a_ul_rate : double; a_dl_rate : double;
  a_active_peers : Z
}.
Inductive aoe_request :=
  | ReqGeneric (portal : text * Z) (pids : list PID)
  | ReqFilesharing (portal : text * Z) (state : list (PID * aoe_pid))
  | ReqStreaming (portal : text * Z) (opt : OptType) (rate : double) (state : list (PID * aoe_pid)).
Record aoe_reply := MkReply { r_weights : PIDMatrixGeneric double; r_pcts : PIDClassPercentages; r_ttl : Z }.

(** The ISP as the matrix sees it. *)
Record GuidanceISP := MkGuidanceISP {
  gi_pids : list PID;              (* listPIDs *)
  gi_pdist_time : Z;               (* getPDistanceMap ().getLastUpdate () *)
  gi_portal : text * Z             (* pDistance portal address and port *)
}.

Record PeeringGuidanceMatrix := MkGuidance {
  g_swarm_state : SwarmState;
  g_intrapid_pcts : list double;
  g_intraisp_pcts : list double;
  g_weights : list (list double);
  g_last_computed : Z;
  g_optengine_ttl : Z;
  g_last_pdist_time : Z;
  g_options : PeeringGuidanceMatrixOptions
}.

Definition PeeringGuidanceMatrix_new : PeeringGuidanceMatrix :=
  MkGuidance SwarmState_empty [] [] [] 0 (7 * 24 * 60 * 60) 0 default_options.
Definition g_setOptions (o : PeeringGuidanceMatrixOptions) (g : PeeringGuidanceMatrix) : PeeringGuidanceMatrix :=
  MkGuidance (g_swarm_state g) (g_intrapid_pcts g) (g_intraisp_pcts g) (g_weights g) (g_last_computed g)
    (g_optengine_ttl g) (g_last_pdist_time g) o.

(** The out parameters keep their values when they are not assigned: [None] for the
    weights means that the vector is left alone. *)
Inductive weights_result :=
  | WeightsError (code : Z)
  | WeightsOk (intrapid_pct intraisp_pct : double) (weights : option (list double)).

Definition getWeights (src_pid : Z) (g : PeeringGuidanceMatrix) : outcome weights_result :=
  match m_opttype (g_options g) with
  | OPT_LOCATION_ONLY => mret (WeightsOk (m_intrapid_pct (g_options g)) (m_intraisp_pct (g_options g)) None)
  | _ =>
      match vec_at (g_weights g) src_pid with
      | None => mret (WeightsError ERR_UNKNOWN_PID)
      | Some row =>
          p ← from_option_or UB (vec_at (g_intrapid_pcts g) src_pid);
          i ← from_option_or UB (vec_at (g_intraisp_pcts g) src_pid);
          mret (WeightsOk p i (Some row))
      end
  end.

Section compute.
(** [m_proto->get_weights]: [None] is an exception. *)
Variable aoe : aoe_request → option aoe_reply.

(** [proto_swarm_state.add (pids\[i\], swarm_state.getNumSeeds (i), ...)] *)
Definition aoe_state (pids : list PID) (s : SwarmState) : list (PID * aoe_pid) :=
  fold_left (λ m '(i, pid), let i := Z.of_nat i in
    map_set PID_ltb pid
      (MkAoePid (u32 (getNumSeeds i s)) (u32 (getNumLeechers i s))
         (double_of_float (getUploadCapacity i s)) (double_of_float (getDownloadCapacity i s))
         (double_of_float (getUploadRate i s)) (double_of_float (getDownloadRate i s))
         (u32 (getNumActivePeers i s))) m)
    (zip (seq 0 (length s)) pids) [].

Definition guidance_request (isp : GuidanceISP) (o : PeeringGuidanceMatrixOptions) (s : SwarmState)
  : option aoe_request :=
  if m_matching_uses_swarm_state o then
    match m_opttype o with
    | OPT_FILESHARING_MATCHING => Some (ReqFilesharing (gi_portal isp) (aoe_state (gi_pids isp) s))
    | OPT_STREAMING_SSM | OPT_STREAMING_SSMCM =>
        Some (ReqStreaming (gi_portal isp) (m_opttype o) (m_streamingdependent_channelrate o) (aoe_state (gi_pids isp) s))
    | OPT_LOCATION_ONLY => None
    end
  else Some (ReqGeneric (gi_portal isp) (gi_pids isp)).

(** The rows of the matrix, up to the first PID that is external or invalid; entries that
    the reply lacks are 0. *)
Definition weight_row (w : PIDMatrixGeneric double) (pids : list PID) (src : PID) : list double :=
  (λ dst, match gm_get src dst w with Ok x => x | Fault _ => dzero end) <$> pids.
Fixpoint source_pids (pids : list PID) : list PID :=
  match pids with
  | [] => []
  | pid :: rest => if external_ pid || PID_eqb pid PID_INVALID then [] else pid :: source_pids rest
  end.

(** [compute ()] at time [now]. *)
Definition g_compute (now : Z) (isp : GuidanceISP) (g : PeeringGuidanceMatrix) : Z * PeeringGuidanceMatrix :=
  let o := g_options g in
  match m_opttype o with
  | OPT_LOCATION_ONLY => (0%Z, g)
  | _ =>
      let pdist_time := gi_pdist_time isp in
      if negb (isSwarmDependent o) && negb (g_last_pdist_time g =? 0)%Z && (g_last_pdist_time g =? pdist_time)%Z
      then (0%Z, g)
      else if (pdist_time =? 0)%Z then (0%Z, g)
      else
        let pids := gi_pids isp in
        if isSwarmDependent o && negb (ss_getNumPIDs (g_swarm_state g) =? Z.of_nat (length pids))%Z
        then (ERR_INVALID_SWARM_STATE, g)
        else
          let swarm := if isSwarmDependent o then g_swarm_state g else SwarmState_empty in
          match guidance_request isp o swarm with
          | None => (ERR_INVALID_OPT_TYPE, g)
          | Some req =>
              match aoe req with
              | None => (ERR_GUIDANCE_UNAVAILABLE, g)
              | Some reply =>
                  let srcs := source_pids pids in
                  (0%Z, MkGuidance (g_swarm_state g)
                     ((λ p, get_intrapid p (r_pcts reply)) <$> srcs)
                     ((λ p, get_intradomain p (r_pcts reply)) <$> srcs)
                     (weight_row (r_weights reply) pids <$> srcs)
                     now (r_ttl reply) pdist_time o)
              end
          end
  end.

Definition g_compute_with (state : SwarmState) (now : Z) (isp : GuidanceISP) (g : PeeringGuidanceMatrix)
  : Z * PeeringGuidanceMatrix :=
  g_compute now isp (MkGuidance state (g_intrapid_pcts g) (g_intraisp_pcts g) (g_weights g) (g_last_computed g)
    (g_optengine_ttl g) (g_last_pdist_time g) (g_options g)).
End compute.

Definition g_getNextComputeTime (g : PeeringGuidanceMatrix) : Z :=
  if (g_last_computed g =? 0)%Z then 0
  else if m_use_optengine_ttl (g_options g) then g_last_computed g + g_optengine_ttl g
  else g_last_computed g + m_recompute_interval (g_options g).

(** ** Well-formed matrices *)

(** There is a percentage for every row and every row has a weight for each of [n] PIDs. *)
Record guidance_ok (n : nat) (g : PeeringGuidanceMatrix) : Prop := {
  go_intrapid : length (g_intrapid_pcts g) = length (g_weights g);
  go_intraisp : length (g_intraisp_pcts g) = length (g_weights g);
  go_rows : ∀ row, row ∈ g_weights g → length row = n
}.

Lemma guidance_new_ok n : guidance_ok n PeeringGuidanceMatrix_new.
Proof. split; [done|done|]. by intros ? ?%not_elem_of_nil. Qed.

Lemma length_source_pids pids : length (source_pids pids) ≤ length pids.
Proof. induction pids as [|p pids IH]; cbn; [done|]. destruct (_ || _); cbn; lia. Qed.

(** A computation leaves a well-formed matrix for the ISP's PIDs, or the old one. *)
Lemma g_compute_spec aoe now isp g :
  let '(code, g') := g_compute aoe now isp g in
  g_options g' = g_options g ∧ (g' = g ∨ code = 0%Z ∧ guidance_ok (length (gi_pids isp)) g').
Proof.
  assert (Hrows : ∀ reply srcs, guidance_ok (length (gi_pids isp))
    (MkGuidance (g_swarm_state g) ((λ p, get_intrapid p (r_pcts reply)) <$> srcs)
       ((λ p, get_intradomain p (r_pcts reply)) <$> srcs) (weight_row (r_weights reply) (gi_pids isp) <$> srcs)
       now (r_ttl reply) (gi_pdist_time isp) (g_options g))).
  { intros reply srcs. split; cbn; rewrite ?length_fmap; try done.
    intros row (src & -> & _)%list_elem_of_fmap. unfold weight_row. by rewrite length_fmap. }
  destruct (g_compute aoe now isp g) as [code g'] eqn:E. unfold g_compute in E. cbn zeta in E.
  repeat (case_match; simplify_eq; auto).
Qed.
