(* ===== verification/IspMaps.v ===== *)
(** * ISPs at the client (common/cpp/src/lib/isp_pdistancemap.cpp, isp.cpp, isp_manager.cpp)

    [ISPPDistanceMap] holds the pDistances of an ISP by the PID indexes of its PID map,
    [ISP] the two maps, and [ISPManager] the ISPs by name.  The portal protocol and the
    reader of files are parameters, as in IspPidMap.v; the ISPs of a manager live in a
    store of addresses. *)
From S2P Require Import Prelude StdMap Double IpAddr Pid Patricia PatriciaTrie PatriciaTrieSpec.
From S2P Require Import PrefixTable IspPidMap SwarmState Guidance.

(** [DEFAULT_TTL] of isp_pdistancemap.cpp. *)
Definition PDIST_TTL : Z := (2 * 60 * 60)%Z.

(** [protocol::portal::PDistanceMatrix]: values are [unsigned int]. *)
Abbreviation PDistances := (PIDMatrixGeneric Z).
Inductive pdistance_reply :=
  | PDistOk (dists : PDistances) (ttl : Z) (version : text)
  | PDistConnectionError
  | PDistProtocolError.
Inductive pdistance_file := PDistFileOk (dists : PDistances) | PDistOpenFailed | PDistReadFailed.

(** ** [ISPPDistanceMap] *)
Record ISPPDistanceMap := MkPDistMap {
  pd_proto : option (text * Z);
  pd_filename : text;
  m_pdists : list (list Z);
  pd_lastUpdate : Z;
  pd_ttl : Z;
  pd_version : text
}.
Definition ISPPDistanceMap_new : ISPPDistanceMap := MkPDistMap None [] [] 0 PDIST_TTL [].
Definition pd_setDataSourceServer (addr : text) (port : Z) (s : ISPPDistanceMap) : ISPPDistanceMap :=
  MkPDistMap (Some (addr, port)) [] (m_pdists s) (pd_lastUpdate s) (pd_ttl s) (pd_version s).
Definition pd_setDataSourceFile (filename : text) (s : ISPPDistanceMap) : ISPPDistanceMap :=
  MkPDistMap None filename (m_pdists s) (pd_lastUpdate s) (pd_ttl s) (pd_version s).
Definition pd_getPortalAddr (s : ISPPDistanceMap) : text := match pd_proto s with Some (h, _) => h | None => [] end.
Definition pd_getPortalPort (s : ISPPDistanceMap) : Z := match pd_proto s with Some (_, p) => p | None => 0%Z end.

(** The indexes are [int]; the comparisons with sizes are unsigned. *)
Definition getPDistance (src_pid dst_pid : Z) (s : ISPPDistanceMap) : Z :=
  if (src_pid <? 0)%Z || (Z.of_nat (length (m_pdists s)) <=? src_pid)%Z then ERR_UNKNOWN_PID
  else
    let row := default [] (m_pdists s !! Z.to_nat src_pid) in
    if (dst_pid <? 0)%Z || (Z.of_nat (length row) <=? dst_pid)%Z then ERR_UNKNOWN_PID
    else default 0%Z (row !! Z.to_nat dst_pid).

(** [getPDistances]: the code and [out_pdists]. *)
Definition getPDistances (src_pid : Z) (out_pdists : list Z) (s : ISPPDistanceMap) : Z * list Z :=
  if (src_pid <? 0)%Z || (Z.of_nat (length (m_pdists s)) <=? src_pid)%Z then (ERR_UNKNOWN_PID, out_pdists)
  else (0%Z, default [] (m_pdists s !! Z.to_nat src_pid)).

(** One entry of the new matrix: the [unsigned int] of the reply as an [int]. *)
Definition new_pdist (dists : PDistances) (src dst : PID) : Z :=
  match gm_get src dst dists with Ok v => s32 v | Fault _ => INT_MAX end.

Section ISP.
Context {D : Type} `{PrefixTable Z D}.
Variable get_pidmap : text * Z → portal_reply.
Variable read_pidmap : text → file_reply.
Variable get_pdistance : text * Z → pdistance_reply.
Variable read_pdistance : text → pdistance_file.

(** [loadP4PInfo] at the time [now]; [index_to_pid] is what [m_isp->listPIDs] returns. *)
Definition pd_loadP4PInfo (now : Z) (index_to_pid : list PID) (s : ISPPDistanceMap) : Z * ISPPDistanceMap :=
  let install (dists : PDistances) (ttl : Z) (version : text) :=
    let new_pdists := (λ i, (λ j, new_pdist dists i j) <$> index_to_pid) <$> index_to_pid in
    (0%Z, MkPDistMap (pd_proto s) (pd_filename s) new_pdists now ttl version) in
  match pd_proto s with
  | Some src =>
      match get_pdistance src with
      | PDistConnectionError => (ERR_CONNECTION_FAILURE, s)
      | PDistProtocolError => (ERR_PROTOCOL_FAILURE, s)
      | PDistOk dists ttl version => install dists ttl version
      end
  | None =>
      match read_pdistance (pd_filename s) with
      | PDistOpenFailed => (ERR_FILE_OPEN_FAILED, s)
      | PDistReadFailed => (ERR_FILE_READ_FAILED, s)
      | PDistFileOk dists => install dists PDIST_TTL []
      end
  end.

(** ** [ISP] *)
Record ISP := MkISP { i_pidmap : ISPPIDMap (D := D); i_pdistmap : ISPPDistanceMap }.

(** The constructors; [junk] is the count of PIDs that is not initialised. *)
Definition ISP_new (junk : Z) : outcome ISP := m ← ISPPIDMap_new junk; mret (MkISP m ISPPDistanceMap_new).
Definition ISP_new_portals (junk : Z) (locationAddr : text) (locationPort : Z) (pdistanceAddr : text) (pdistancePort : Z) : outcome ISP :=
  m ← ISPPIDMap_new junk;
  mret (MkISP (setDataSourceServer locationAddr locationPort m) (pd_setDataSourceServer pdistanceAddr pdistancePort ISPPDistanceMap_new)).
Definition ISP_new_portal (junk : Z) (addr : text) (port : Z) : outcome ISP := ISP_new_portals junk addr port addr port.
Definition ISP_new_files (junk : Z) (pidmapFile pdistFile : text) : outcome ISP :=
  m ← ISPPIDMap_new junk;
  mret (MkISP (setDataSourceFile pidmapFile m) (pd_setDataSourceFile pdistFile ISPPDistanceMap_new)).
Definition isp_setDataSourceServer (addr : text) (port : Z) (i : ISP) : ISP :=
  MkISP (setDataSourceServer addr port (i_pidmap i)) (pd_setDataSourceServer addr port (i_pdistmap i)).
Definition isp_setDataSourceFile (pidmapFile pdistFile : text) (i : ISP) : ISP :=
  MkISP (setDataSourceFile pidmapFile (i_pidmap i)) (pd_setDataSourceFile pdistFile (i_pdistmap i)).

(** [ISP::loadP4PInfo]: the PID map is replaced before the pDistances are requested. *)
Definition isp_loadP4PInfo (now : Z) (i : ISP) : outcome (Z * ISP) :=
  '(rc, m) ← loadP4PInfo get_pidmap read_pidmap now (i_pidmap i);
  if negb (rc =? 0)%Z then mret (rc, MkISP m (i_pdistmap i))
  else let '(rc, p) := pd_loadP4PInfo now (listPIDs m) (i_pdistmap i) in mret (rc, MkISP m p).

(** ** [ISPManager] *)
Record ISPManager := MkISPManager { isps : gmap positive ISP; m_isps : list (text * positive) }.
Abbreviation MG := (ST ISPManager).
Variable new_addr : list positive → positive.

Definition new_isp (i : ISP) : MG positive := λ s,
  let a := new_addr (map_to_list (isps s)).*1 in Ok (a, MkISPManager (<[a := i]> (isps s)) (m_isps s)).
Definition delete_isp (a : positive) : MG unit := λ s,
  match isps s !! a with None => Fault UB | Some _ => Ok (tt, MkISPManager (delete a (isps s)) (m_isps s)) end.

Definition put_isps (l : list (text * positive)) : MG unit := λ s, Ok (tt, MkISPManager (isps s) l).

Definition addISP_ptr (name : text) (isp : positive) : MG (option positive) := λ s,
  match map_find text_ltb name (m_isps s) with
  | Some _ => Ok (None, s)
  | None => Ok (Some isp, MkISPManager (isps s) (map_set text_ltb name isp (m_isps s)))
  end.
(** Both overloads that create an ISP. *)
Definition addISP (name : text) (new : outcome ISP) : MG (option positive) :=
  i ← st_lift new;
  isp ← new_isp i;
  r ← addISP_ptr name isp;
  match r with
  | None => delete_isp isp;; mret None
  | Some _ => mret (Some isp)
  end.
Definition getISP (name : text) (s : ISPManager) : option positive := map_find text_ltb name (m_isps s).
Definition removeISP (name : text) : MG bool := λ s,
  match map_find text_ltb name (m_isps s) with
  | None => Ok (false, s)
  | Some isp =>
      (delete_isp isp;; put_isps (map_erase text_ltb name (m_isps s));; mret true : MG bool) s
  end.
(** [listISPs] appends to the vector. *)
Definition listISPs (out_isps : list positive) (s : ISPManager) : list positive := out_isps ++ (m_isps s).*2.
Definition ISPManager_new : ISPManager := MkISPManager ∅ [].
Definition ISPManager_destroy : MG unit := λ s,
  (st_iter (λ '(_, isp), delete_isp isp) (m_isps s);; put_isps [] : MG unit) s.

End ISP.

(** ** The pDistances that a load installs *)
Lemma row_lookup (dists : PDistances) (pids : list PID) (i : nat) p : pids !! i = Some p →
  ((λ i, (λ j, new_pdist dists i j) <$> pids) <$> pids) !! i = Some ((λ j, new_pdist dists p j) <$> pids).
Proof. intros E. by rewrite list_lookup_fmap, E. Qed.

Lemma getPDistance_loaded dists (pids : list PID) (i j : nat) p q proto f now ttl v : pids !! i = Some p → pids !! j = Some q →
  getPDistance (Z.of_nat i) (Z.of_nat j) (MkPDistMap proto f ((λ i, (λ j, new_pdist dists i j) <$> pids) <$> pids) now ttl v) = new_pdist dists p q.
Proof.
  intros Ei Ej. unfold getPDistance. cbn [m_pdists]. rewrite !Nat2Z.id, (row_lookup _ _ _ _ Ei). cbv zeta. unfold default, id. cbn [from_option].
  pose proof (lookup_lt_Some _ _ _ Ei). pose proof (lookup_lt_Some _ _ _ Ej). rewrite !length_fmap.
  replace ((Z.of_nat i <? 0) || (Z.of_nat (length pids) <=? Z.of_nat i))%Z with false by lia.
  replace ((Z.of_nat j <? 0) || (Z.of_nat (length pids) <=? Z.of_nat j))%Z with false by lia.
  unfold default. cbn [from_option id]. by rewrite list_lookup_fmap, Ej.
Qed.

(** An index out of range, of the source or of the destination. *)
Lemma getPDistance_outside dists (pids : list PID) x y proto f now ttl v :
  ¬ (0 ≤ x < Z.of_nat (length pids) ∧ 0 ≤ y < Z.of_nat (length pids))%Z →
  getPDistance x y (MkPDistMap proto f ((λ i, (λ j, new_pdist dists i j) <$> pids) <$> pids) now ttl v) = ERR_UNKNOWN_PID.
Proof.
  intros Hxy. unfold getPDistance. cbn [m_pdists]. rewrite !length_fmap.
  destruct ((x <? 0) || (Z.of_nat (length pids) <=? x))%Z eqn:Ex; [done|].
  destruct (lookup_lt_is_Some_2 pids (Z.to_nat x)) as [p Hp]; [lia|].
  cbv zeta. rewrite (row_lookup _ _ _ _ Hp). unfold default. cbn [from_option]. unfold id. rewrite !length_fmap.
  by replace ((y <? 0) || (Z.of_nat (length pids) <=? y))%Z with true by lia.
Qed.

Lemma find_index_spec p k (l : list PID) : p ∈ l → ∃ i, find_index p k l = Z.of_nat (k + i) ∧ l !! i = Some p.
Proof.
  revert k. induction l as [|x l IH]; intros k Hp; [by apply not_elem_of_nil in Hp|]. cbn.
  destruct (PID_eqb x p) eqn:E.
  - apply PID_eqb_eq in E as ->. exists 0. by rewrite Nat.add_0_r.
  - apply elem_of_cons in Hp as [->|Hp]; [by rewrite (proj2 (PID_eqb_eq x x)) in E|].
    destruct (IH (S k) Hp) as (i & Ei & Hi). exists (S i). split; [rewrite Ei; f_equal; lia|done].
Qed.
Lemma find_index_none p k l : p ∉ l → find_index p k l = ERR_UNKNOWN_PID.
Proof.
  revert k. induction l as [|x l IH]; intros k Hp; [done|]. cbn. destruct (PID_eqb x p) eqn:E; [apply PID_eqb_eq in E as ->; set_solver|].
  apply IH. set_solver.
Qed.

(** ** What the manager owns *)
Section manager_facts.
Context {D : Type} `{PrefixTable Z D}.
Variable new_addr : list positive → positive.
Abbreviation ISP := (ISP (D := D)).
Abbreviation ISPManager := (ISPManager (D := D)).
Abbreviation addISP := (addISP new_addr).
Record manager_inv (s : ISPManager) : Prop := {
  mi_sorted : map_sorted text_ltb (m_isps s);
  mi_live a : is_Some (isps s !! a) ↔ a ∈ (m_isps s).*2;
  mi_once : NoDup (m_isps s).*2
}.

Lemma isp_manager_new_inv : manager_inv ISPManager_new.
Proof. split; cbn; [constructor| |constructor]. intros a. rewrite lookup_empty. split; [by intros []|by intros ?%not_elem_of_nil]. Qed.

Lemma delete_isp_Ok a (s : ISPManager) i : isps s !! a = Some i → delete_isp a s = Ok (tt, MkISPManager (delete a (isps s)) (m_isps s)).
Proof. intros E. unfold delete_isp. by rewrite E. Qed.

Lemma map_set_values k v (m : list (text * positive)) : map_find text_ltb k m = None → (map_set text_ltb k v m).*2 ≡ₚ v :: m.*2.
Proof.
  induction m as [|[k' v'] m IH]; [done|]. cbn. destruct (text_ltb k' k); [|destruct (text_ltb k k'); done].
  intros E. cbn. rewrite IH by done. constructor.
Qed.
Lemma map_erase_values k v (m : list (text * positive)) : map_find text_ltb k m = Some v → m.*2 ≡ₚ v :: (map_erase text_ltb k m).*2.
Proof.
  induction m as [|[k' v'] m IH]; [done|]. cbn. destruct (text_ltb k' k).
  - intros E. cbn. rewrite (IH E). constructor.
  - destruct (text_ltb k k'); [done|]. by intros [= <-].
Qed.

Hypothesis new_addr_fresh : ∀ l, new_addr l ∉ l.
Lemma new_isp_fresh (s : ISPManager) : isps s !! new_addr (map_to_list (isps s)).*1 = None.
Proof.
  destruct (isps s !! _) as [i|] eqn:E; [|done]. destruct (new_addr_fresh (map_to_list (isps s)).*1).
  apply list_elem_of_fmap. exists (new_addr (map_to_list (isps s)).*1, i). split; [done|]. by apply elem_of_map_to_list.
Qed.

(** [addISP] creates an ISP unless the name is taken; then nothing remains of it. *)
Lemma manager_addISP_Ok name i (s : ISPManager) : manager_inv s →
  match getISP name s with
  | Some _ => addISP name (Ok i) s = Ok (None, s)
  | None => ∃ a s', addISP name (Ok i) s = Ok (Some a, s') ∧ isps s !! a = None ∧ isps s' = <[a := i]> (isps s) ∧ manager_inv s' ∧
      ∀ n, getISP n s' = if decide (n = name) then Some a else getISP n s
  end.
Proof.
  intros [I1 I2 I3]. unfold getISP at 1. pose proof (new_isp_fresh s) as HF. set (a := new_addr (map_to_list (isps s)).*1) in *.
  unfold addISP. rewrite st_lift_bind. rewrite (st_bind_Ok _ _ _ a (MkISPManager (<[a := i]> (isps s)) (m_isps s))) by done.
  rewrite st_bind_eq. unfold addISP_ptr. cbn [m_isps isps]. destruct (map_find text_ltb name (m_isps s)) as [b|] eqn:E.
  - rewrite (st_bind_Ok _ _ _ _ _ (delete_isp_Ok a _ i (lookup_insert_eq _ _ _))). cbn. rewrite delete_insert_id by done. by destruct s.
  - assert (Ha : a ∉ (m_isps s).*2) by (rewrite <- I2, HF; by intros []).
    eexists a, _. split; [reflexivity|]. split_and!; [done|done| |].
    + split; cbn [isps m_isps]; [by apply (map_set_sorted text_ltb)| |].
      * intros b. rewrite (map_set_values _ _ _ E), elem_of_cons, <- I2. destruct (decide (a = b)) as [<-|Hne].
        -- rewrite lookup_insert_eq. split; eauto.
        -- rewrite lookup_insert_ne by done. naive_solver.
      * rewrite (map_set_values _ _ _ E). by constructor.
    + intros n. unfold getISP. cbn [m_isps]. case_decide as Hn; [subst n; by apply (map_find_set_eq text_ltb)|].
      apply (map_find_set_ne text_ltb); [done|congruence].
Qed.

Lemma manager_removeISP_Ok name (s : ISPManager) : manager_inv s →
  match getISP name s with
  | None => removeISP name s = Ok (false, s)
  | Some a => ∃ s', removeISP name s = Ok (true, s') ∧ isps s' = delete a (isps s) ∧ manager_inv s' ∧
      ∀ n, getISP n s' = if decide (n = name) then None else getISP n s
  end.
Proof.
  intros [I1 I2 I3]. unfold getISP at 1, removeISP. destruct (map_find text_ltb name (m_isps s)) as [a|] eqn:E; [|done].
  pose proof (map_erase_values _ _ _ E) as HP. assert (Ha : a ∈ (m_isps s).*2) by (rewrite HP; left).
  destruct (proj2 (I2 a) Ha) as [i Ei]. rewrite (st_bind_Ok _ _ _ _ _ (delete_isp_Ok a s i Ei)).
  rewrite HP in I3. apply NoDup_cons in I3 as [Hna I3].
  eexists. split; [reflexivity|]. split_and!; [done| |].
  - split; cbn [isps m_isps]; [by apply (map_erase_sorted text_ltb)| |done]. intros b. destruct (decide (a = b)) as [<-|Hne].
    + rewrite lookup_delete_eq. split; [by intros []|done].
    + rewrite lookup_delete_ne, I2, HP, elem_of_cons by done. naive_solver.
  - intros n. unfold getISP. cbn [m_isps]. case_decide as Hn; [subst n; by apply (map_find_erase_eq text_ltb)|].
    apply (map_find_erase_ne text_ltb); [done|congruence].
Qed.

Lemma manager_destroy_Ok (s : ISPManager) : manager_inv s → ∃ s', ISPManager_destroy s = Ok (tt, s') ∧ isps s' = ∅ ∧ m_isps s' = [].
Proof.
  intros [I1 I2 I3]. unfold ISPManager_destroy.
  destruct (st_iter_inv (λ dn s', m_isps s' = m_isps s ∧ ∀ a, is_Some (isps s' !! a) ↔ a ∈ (drop (length dn) (m_isps s)).*2)
    (λ '(_, isp), delete_isp isp) (m_isps s) s) as (s' & E & _ & HE); [done| |].
  - intros dn [n a] rest s1 El [E1 HL]. rewrite El, drop_app_length in HL. cbn in HL. destruct (proj2 (HL a) ltac:(left)) as [i Ei].
    exists (MkISPManager (delete a (isps s1)) (m_isps s1)). split; [by eapply delete_isp_Ok|]. cbn. split; [done|].
    rewrite El, length_app. cbn. replace (drop (length dn + 1) (dn ++ (n, a) :: rest)) with rest
      by (rewrite drop_app_ge by lia; replace (length dn + 1 - length dn) with 1 by lia; done).
    rewrite El, fmap_app in I3. cbn in I3. apply NoDup_app in I3 as (_ & _ & I3). apply NoDup_cons in I3 as [Hna _].
    intros b. destruct (decide (a = b)) as [<-|Hne].
    + rewrite lookup_delete_eq. split; [by intros []|done].
    + rewrite lookup_delete_ne, HL, elem_of_cons by done. naive_solver.
  - rewrite (st_bind_Ok _ _ _ _ _ E). eexists. split; [reflexivity|]. cbn. split; [|done]. apply map_eq. intros a. rewrite lookup_empty.
    destruct (isps s' !! a) eqn:Ea; [|done]. rewrite drop_all in HE. exfalso. apply (not_elem_of_nil a). apply HE. rewrite Ea. eauto.
Qed.
End manager_facts.
