(* ===== verification/Selection.v ===== *)
(** * Peer selection (common/cpp/src/lib/pgm_selection_manager.cpp)

    [selectPeers] chooses peers for a peer: a share from its own PID, then from its ISP,
    then from outside, and fills up at random.  With location-only options the PIDs of a
    class are used in proportion to their peers, otherwise by the weights of the guidance
    matrix of the home ISP.

    The state is the world of PeerDist.v with the random numbers to come.  The view of the
    home ISP is locked by [getPeerDistribution] and [lock] and released at the end; the
    shared locks are counted in the world.  [logSelectedPeers], which prints the result when
    debug messages are enabled, is left out. *)
From S2P Require Import Prelude StdMap Double IpAddr IspPidMap Heap SwarmState Rand PeerDist.
From S2P Require Import SelHelper Guidance.

(** The guidance state of the selection manager; matrices are shared objects. *)
Record PGMSelectionManager := MkPGM {
  m_guidance_opts_default : PeeringGuidanceMatrixOptions;
  m_guidance_opts : list (isp_ptr * PeeringGuidanceMatrixOptions);
  m_guidance : list (isp_ptr * option positive);
  w_matrices : gmap positive PeeringGuidanceMatrix
}.

Definition getConfiguredOptions (isp : isp_ptr) (m : PGMSelectionManager) : PeeringGuidanceMatrixOptions :=
  default (m_guidance_opts_default m) (map_find Pos.ltb isp (m_guidance_opts m)).

Definition with_opts (o : list (isp_ptr * PeeringGuidanceMatrixOptions)) (m : PGMSelectionManager) :=
  MkPGM (m_guidance_opts_default m) o (m_guidance m) (w_matrices m).
Definition setDefaultOptions (o : PeeringGuidanceMatrixOptions) (m : PGMSelectionManager) :=
  MkPGM o (m_guidance_opts m) (m_guidance m) (w_matrices m).
Definition setISPOptions (isp : isp_ptr) (o : PeeringGuidanceMatrixOptions) (m : PGMSelectionManager)
  : Z * PGMSelectionManager :=
  match map_find Pos.ltb isp (m_guidance m) with
  | None => (ERR_INVALID_ISP, m)
  | Some _ => (0%Z, with_opts (map_set Pos.ltb isp o (m_guidance_opts m)) m)
  end.
Definition clearISPOptions (isp : isp_ptr) (m : PGMSelectionManager) : Z * PGMSelectionManager :=
  match map_find Pos.ltb isp (m_guidance m) with
  | None => (ERR_INVALID_ISP, m)
  | Some _ => (0%Z, with_opts (map_erase Pos.ltb isp (m_guidance_opts m)) m)
  end.
Definition getEffectiveISPOptions (isp : isp_ptr) (m : PGMSelectionManager)
  : Z * option PeeringGuidanceMatrixOptions :=
  match map_find Pos.ltb isp (m_guidance m) with
  | None => (ERR_INVALID_ISP, None)
  | Some _ => (0%Z, Some (getConfiguredOptions isp m))
  end.

(** [getNextComputeTime]: the test for a known ISP is the wrong way round, so that for an
    unknown one the end iterator is dereferenced. *)
Definition TIME_INVALID : Z := -1.
Definition getNextComputeTime (isp : isp_ptr) (m : PGMSelectionManager) : outcome Z :=
  match map_find Pos.ltb isp (m_guidance m) with Some _ => mret TIME_INVALID | None => Fault UB end.

(** ** Selection from a locked view *)
Section Loops.
Variable v : PerISPPeerDistribution.

(** Intra-PID peers: draws from the home PID; the peer itself is drawn but not taken. *)
Fixpoint select_home (fuel : nat) (home_pid : Z) (self : peer_ptr) (want got : Z) (out : list peer_ptr)
  : H (list peer_ptr) :=
  match fuel with
  | 0 => st_fail NoFuel
  | S fuel =>
      if (got <? want)%Z then
        cand ← selectPeer v home_pid;
        match cand with
        | None => mret out
        | Some p =>
            if bool_decide (p = self) then select_home fuel home_pid self want got out
            else select_home fuel home_pid self want (got + 1) (out ++ [p])
        end
      else mret out
  end.

(** At most [n] peers from a group of PIDs. *)
Fixpoint select_group (n : nat) (pids : list Z) (out : list peer_ptr) : H (list peer_ptr) :=
  match n with
  | 0 => mret out
  | S n =>
      cand ← selectPeer_from v pids;
      match cand with None => mret out | Some p => select_group n pids (out ++ [p]) end
  end.

(** The entries of the three parallel vectors of [fillPeers]. *)
Record bin := MkBin { b_pid : Z; b_peercount : Z; b_weight : double }.

(** [while (r >= weights\[j\] && j < (weights.size () - 1)) { r -= weights\[j\]; ++j; }] *)
Fixpoint find_bin (r : double) (bins : list bin) : nat :=
  match bins with
  | [] | [_] => 0
  | b :: rest => if dle (b_weight b) r then S (find_bin (dsub r (b_weight b)) rest) else 0
  end.

Fixpoint fill_loop (fuel : nat) (bins : list bin) (max_peers total_peercount : Z) (total_weight : double)
    (out : list peer_ptr) : H (list peer_ptr) :=
  match fuel with
  | 0 => st_fail NoFuel
  | S fuel =>
      x ← h_rand rand;
      let r := dmul (ddiv (double_of_int x) (double_of_int RAND_MAX)) total_weight in
      let j := find_bin r bins in
      b ← st_lift (from_option_or UB (bins !! j));
      cand ← selectPeer v (b_pid b);
      match cand with
      | None => st_fail (Throw "illegal state: expected to retrieve non-null peer")
      | Some p =>
          let out := out ++ [p] in
          let count := u32 (b_peercount b - 1) in
          let total := u32 (total_peercount - 1) in
          let '(w, total_w) :=
            if (count <=? 0)%Z then (dzero, dsub total_weight (b_weight b)) else (b_weight b, total_weight) in
          let bins := <[j := MkBin (b_pid b) count w]> bins in
          if (Z.of_nat (length out) <? max_peers)%Z && (0 <? total)%Z
          then fill_loop fuel bins max_peers total total_w out
          else mret out
      end
  end.

Definition fillPeers (bins : list bin) (max_peers : Z) (out : list peer_ptr) : H (list peer_ptr) :=
  match bins with
  | [] => mret out
  | _ =>
      let total_peercount := fold_left (λ s b, u32 (s + b_peercount b)) bins 0%Z in
      let total_weight := fold_left (λ s b, dadd s (b_weight b)) bins dzero in
      fill_loop (S (Z.to_nat total_peercount)) bins max_peers total_peercount total_weight out
  end.
End Loops.

(** ** Quotas *)

(** [(unsigned int) (num_peers * pct + 0.5)] *)
Definition intrapid_quota (num_peers : Z) (pct : double) : outcome Z :=
  double_to_uint (dadd (dmul (double_of_int num_peers) pct) (dlit 1 2)).
(** [(unsigned int) (num_peers * pct + num_prefilled - out_peers.size () + 0.5)] *)
Definition intraisp_quota (num_peers : Z) (pct : double) (num_prefilled size : Z) : outcome Z :=
  double_to_uint (dadd (dsub (dadd (dmul (double_of_int num_peers) pct) (double_of_int num_prefilled))
    (double_of_int size)) (dlit 1 2)).
(** [(unsigned int) (num_peers + num_prefilled - out_peers.size ())] *)
Definition remaining_quota (num_peers num_prefilled size : Z) : Z := u32 (u32 (num_peers + num_prefilled) - size).
(** [(unsigned int) (intraisp_pct * num_peers + num_prefilled + 0.5)] *)
Definition intraisp_target (num_peers : Z) (pct : double) (num_prefilled : Z) : outcome Z :=
  double_to_uint (dadd (dadd (dmul pct (double_of_int num_peers)) (double_of_int num_prefilled)) (dlit 1 2)).

Definition size (out : list peer_ptr) : Z := Z.of_nat (length out).
Definition pid_range (lo n : nat) : list Z := Z.of_nat <$> seq lo n.

(** ** The selection state *)
Definition Sel (A : Type) : Type := ST (World * list Z) A.
#[global] Instance sel_ret : MRet Sel := @st_ret _.
#[global] Instance sel_bind : MBind Sel := @st_bind _.

(** A local helper object is used and dropped. *)
Definition with_helper {A} (h : PIDPeerSelectionHelper) (m : H A) : Sel A := λ '(w, rs),
  match m (h, rs) with Ok (a, (_, rs')) => Ok (a, (w, rs')) | Fault e => Fault e end.
Definition world : Sel World := λ '(w, rs), Ok (w, (w, rs)).
Definition put_world (w : World) : Sel unit := λ '(_, rs), Ok (tt, (w, rs)).

(** [m_isp_peers.getPeerDistribution (home_isp)] and [isp_peers->lock ()] *)
Definition acquire (isp : isp_ptr) : Sel (option PerISPPeerDistribution) :=
  w ← world;
  match getPeerDistribution isp w with
  | (None, _) => mret None
  | (Some v, w') => put_world (put_view isp (view_lock v) w');; mret (Some (view_lock v))
  end.
(** [isp_peers->unlock (); m_isp_peers.releasePeerDistribution (home_isp);] *)
Definition release (isp : isp_ptr) : Sel unit :=
  w ← world;
  match getISPViewInternal isp w with
  | None => st_fail UB
  | Some v => put_world (releasePeerDistribution isp (put_view isp (view_unlock v) w)).2
  end.

Section PGM.
Variable m : PGMSelectionManager.

(** The selection proper of [selectPeersLocationOnly]. *)
Definition location_selection (v : PerISPPeerDistribution) (info : ISPInfo) (self : peer_ptr) (home_pid : Z)
    (num_peers : Z) (intrapid_pct intraisp_pct : double) (out : list peer_ptr) : H (list peer_ptr) :=
  let intra := Z.to_nat (num_intraisp_pids info) in
  let total := Z.to_nat (num_total_pids info) in
  let num_prefilled := size out in
  num_intrapid ← st_lift (intrapid_quota num_peers intrapid_pct);
  out ← select_home v (Z.to_nat num_intrapid + 2) home_pid self num_intrapid 0 out;
  num_intraisp ← st_lift (intraisp_quota num_peers intraisp_pct num_prefilled (size out));
  out ← select_group v (Z.to_nat num_intraisp) (filter (λ pid, pid ≠ home_pid) (pid_range 0 intra)) out;
  out ← select_group v (Z.to_nat (remaining_quota num_peers num_prefilled (size out)))
          (pid_range intra (total - intra)) out;
  select_group v (Z.to_nat (remaining_quota num_peers num_prefilled (size out))) (pid_range 0 total) out.

(** The share of the home PID: not more than that of the ISP, and the same when the ISP has
    one internal PID. *)
Definition effective_intrapid (o : PeeringGuidanceMatrixOptions) (info : ISPInfo) : double :=
  let num_internal_pids := length (filter (λ e, e = false) (isp_pid_external info)) in
  if dlt (m_intraisp_pct o) (m_intrapid_pct o) || (num_internal_pids =? 1)%nat
  then m_intraisp_pct o else m_intrapid_pct o.

Definition selectPeersLocationOnly (self : peer_ptr) (home_isp : isp_ptr) (home_pid num_peers : Z)
    (out : list peer_ptr) : Sel (Z * list peer_ptr) :=
  isp_peers ← acquire home_isp;
  match isp_peers with
  | None => mret (ERR_GUIDANCE_UNAVAILABLE, out)
  | Some v =>
      w ← world;
      info ← st_lift (deref_isp home_isp w);
      if (num_intraisp_pids info <=? u32 home_pid)%Z then
        (* the locks are not released *)
        mret (ERR_GUIDANCE_UNAVAILABLE, out)
      else
        let o := getConfiguredOptions home_isp m in
        out ← with_helper (PIDPeerSelectionHelper_new v (num_total_pids info) (u32 (num_peers + 1)))
                (location_selection v info self home_pid num_peers (effective_intrapid o info) (m_intraisp_pct o) out);
        release home_isp;;
        mret (0%Z, out)
  end.

(** The loop that sorts PIDs with a weight and peers into internal and external bins. *)
Definition classify (v : PerISPPeerDistribution) (home_pid : Z) (weights : list double) (pids : list Z) : list bin :=
  omap (λ i,
    match vec_at weights i with
    | Some wt =>
        if dle wt dzero then None
        else
          let peercount := view_getNumPeers i v in
          if (peercount =? 0)%Z then None
          else if (i =? home_pid)%Z then None
          else Some (MkBin i (u32 peercount) wt)
    | None => None
    end) pids.

Definition weighted_selection (v : PerISPPeerDistribution) (info : ISPInfo) (self : peer_ptr) (home_pid : Z)
    (num_peers : Z) (intrapid_pct intraisp_pct : double) (weights : list double) (out : list peer_ptr)
  : H (list peer_ptr) :=
  let intra := Z.to_nat (num_intraisp_pids info) in
  let total := Z.to_nat (num_total_pids info) in
  let num_prefilled := size out in
  num_intrapid ← st_lift (intrapid_quota num_peers intrapid_pct);
  out ← select_home v (Z.to_nat num_intrapid + 2) home_pid self num_intrapid 0 out;
  target ← st_lift (intraisp_target num_peers intraisp_pct num_prefilled);
  out ← fillPeers v (classify v home_pid weights (pid_range 0 intra)) target out;
  out ← fillPeers v (classify v home_pid weights (pid_range intra (total - intra))) (u32 (num_peers + num_prefilled)) out;
  select_group v (Z.to_nat (remaining_quota num_peers num_prefilled (size out))) (pid_range 0 total) out.

Definition selectPeers (self : peer_ptr) (num_peers : Z) (out : list peer_ptr) : Sel (Z * list peer_ptr) :=
  w ← world;
  p ← st_lift (deref_peer self w);
  match m_home_isp p with
  | None => mret (ERR_GUIDANCE_UNAVAILABLE, out)
  | Some home_isp =>
      let home_pid := m_home_pid p in
      if (home_pid <? 0)%Z then mret (ERR_GUIDANCE_UNAVAILABLE, out)
      else
        info ← st_lift (deref_isp home_isp w);
        if (num_total_pids info <=? home_pid)%Z then mret (ERR_GUIDANCE_UNAVAILABLE, out)
        else
          let o := getConfiguredOptions home_isp m in
          match m_opttype o with
          | OPT_LOCATION_ONLY => selectPeersLocationOnly self home_isp home_pid num_peers out
          | _ =>
              match map_find Pos.ltb home_isp (m_guidance m) with
              | None | Some None => mret (ERR_GUIDANCE_UNAVAILABLE, out)
              | Some (Some guidance) =>
                  g ← st_lift (from_option_or UB (w_matrices m !! guidance));
                  r ← st_lift (getWeights home_pid g);
                  match r with
                  | WeightsError _ => mret (ERR_GUIDANCE_UNAVAILABLE, out)
                  | WeightsOk intrapid_pct intraisp_pct weights =>
                      let weights := default [] weights in
                      if negb (Z.of_nat (length weights) =? num_total_pids info)%Z
                      then mret (ERR_GUIDANCE_UNAVAILABLE, out)
                      else
                        isp_peers ← acquire home_isp;
                        match isp_peers with
                        | None => mret (ERR_GUIDANCE_UNAVAILABLE, out)
                        | Some v =>
                            out ← with_helper (PIDPeerSelectionHelper_new v (num_total_pids info) (u32 (num_peers + 1)))
                                    (weighted_selection v info self home_pid num_peers intrapid_pct intraisp_pct weights out);
                            release home_isp;;
                            mret (0%Z, out)
                        end
                  end
              end
          end
  end.
End PGM.
