(* ===== verification/SelectionSpec.v ===== *)
(** * What peer selection returns

    The lemmas follow the phases of the selection: every phase adds peers of the view that
    were not selected before, and a phase that ends early has used up its PIDs. *)
From S2P Require Import Prelude StdMap Double IpAddr IspPidMap Heap SwarmState Rand PeerDist.
From S2P Require Import PeerDistSpec SelHelper SelHelperSpec Guidance Selection.

(** The view has fewer peers than an [int] can count. *)
Definition view_small (v : PerISPPeerDistribution) : Prop := (Z.of_nat (length (m_peer_to_pid v)) < 2 ^ 31)%Z.

Section sizes.
Context (v : PerISPPeerDistribution) (I : view_inv v).

Lemma avail_known i p : p ∈ avail v i → p ∈ (m_peer_to_pid v).*1.
Proof.
  unfold avail. destruct (m_pid_peers v !! i) as [c|] eqn:E; [|by intros ?%not_elem_of_nil].
  rewrite (vi_elem _ I _ _ _ E). intros (pid & Hp & _). apply (map_find_elem Pos.ltb) in Hp; [|apply I].
  apply list_elem_of_fmap. by exists (p, pid).
Qed.

Lemma avail_disjoint i j p : p ∈ avail v i → p ∈ avail v j → i = j.
Proof.
  unfold avail. destruct (m_pid_peers v !! i) as [c|] eqn:Ei; [|by intros ?%not_elem_of_nil].
  destruct (m_pid_peers v !! j) as [d|] eqn:Ej; [|by intros _ ?%not_elem_of_nil].
  rewrite (vi_elem _ I _ _ _ Ei), (vi_elem _ I _ _ _ Ej). intros (p1 & H1 & E1) (p2 & H2 & E2).
  rewrite H1 in H2. injection H2 as <-. lia.
Qed.

Lemma small_avail : view_small v → ∀ i, (Z.of_nat (length (avail v i)) < 2 ^ 31)%Z.
Proof.
  intros HS i. eapply Z.le_lt_trans; [|exact HS]. apply inj_le. rewrite <- (length_fmap fst (m_peer_to_pid v)).
  apply submseteq_length, NoDup_submseteq; [by apply avail_nodup|]. intros p. apply avail_known.
Qed.

Lemma left_in_length pids : left_in v (λ _, []) pids = Z.of_nat (length (pids ≫= λ pid, avail v (Z.to_nat pid))).
Proof.
  induction pids as [|pid pids IH]; [done|]. cbn [mbind list_bind]. rewrite length_app.
  change (left_of v (λ _, []) (Z.to_nat pid) + left_in v (λ _, []) pids =
    Z.of_nat (length (avail v (Z.to_nat pid)) + length (pids ≫= λ pid, avail v (Z.to_nat pid))))%Z.
  rewrite IH. unfold left_of. cbn [length]. lia.
Qed.

(** The peers of different PIDs are counted once. *)
Lemma left_in_small pids : view_small v → NoDup pids → (∀ pid, pid ∈ pids → (0 ≤ pid)%Z) →
  (left_in v (λ _, []) pids ≤ INT_MAX)%Z.
Proof.
  intros HS ND Hpos. rewrite left_in_length. unfold view_small in HS. unfold INT_MAX.
  assert (H : length (pids ≫= λ pid, avail v (Z.to_nat pid)) ≤ length (m_peer_to_pid v)); [|lia].
  rewrite <- (length_fmap fst (m_peer_to_pid v)). apply submseteq_length, NoDup_submseteq.
  - induction ND as [|pid pids Hn ND IH]; [constructor|]. cbn [mbind list_bind]. apply NoDup_app. split_and!.
    + by apply avail_nodup.
    + intros p Hp. rewrite list_elem_of_bind. intros (pid' & Hp' & Hin).
      pose proof (avail_disjoint _ _ _ Hp Hp') as E. apply Hn.
      assert (pid = pid') as -> by (pose proof (Hpos pid ltac:(left)); pose proof (Hpos pid' ltac:(by right)); lia). done.
    + apply IH. intros q Hq. apply Hpos. by right.
  - intros p. rewrite list_elem_of_bind. intros (pid & Hp & _). by eapply avail_known.
Qed.
End sizes.

Section selection.
Context (f : nat → Z) (Hf : fair f) (v : PerISPPeerDistribution) (I : view_inv v) (total : Z).
Context (Hsmall : ∀ i, (Z.of_nat (length (avail v i)) < 2 ^ 31)%Z).
Notation width := (length (m_pid_peers v)).
Notation helper_inv := (helper_inv v total).

(** The helper has handed out the peers [new], which were taken, and [skipped], all of
    them peers with a PID. *)
Record sel_inv (h : PIDPeerSelectionHelper) (ch : nat → list peer_ptr) (new skipped : list peer_ptr) : Prop := {
  sv_helper : helper_inv h ch;
  sv_elem : ∀ p, p ∈ new ++ skipped ↔ ∃ i, i < width - 1 ∧ p ∈ ch i;
  sv_nodup : NoDup (new ++ skipped)
}.

Lemma sel_sub h ch new skipped i : sel_inv h ch new skipped → i < width - 1 → NoDup (ch i) ∧ ch i ⊆ avail v i ∧
  length (ch i) ≤ length new + length skipped.
Proof.
  intros [[_ HL HE] Hel ND] Hi. destruct (lookup_lt_is_Some_2 (m_pidinfo h) i) as [e He]; [lia|].
  destruct (HE _ _ He) as [N S _ _]. split_and!; [done|done|]. rewrite <- length_app.
  apply submseteq_length, NoDup_submseteq; [done|]. intros p Hp. apply Hel. by exists i.
Qed.

(** A peer that was picked is new. *)
Lemma sel_fresh h ch new skipped i p : sel_inv h ch new skipped → p ∈ avail v i → p ∉ ch i → p ∉ new ++ skipped.
Proof.
  intros HI Hin Hnot (j & Hj & Hp)%(sv_elem _ _ _ _ HI).
  destruct (sel_sub _ _ _ _ j HI Hj) as (_ & S & _). by rewrite (avail_disjoint v I i j p Hin (S _ Hp)) in Hnot.
Qed.

Lemma chosen_elem i p ch q j : q ∈ chosen i p ch j ↔ q ∈ ch j ∨ (j = i ∧ q = p).
Proof. unfold chosen. case_decide; [rewrite elem_of_cons|]; naive_solver. Qed.

Lemma sel_step h h' ch new skipped new' skipped' i p : sel_inv h ch new skipped → i < width - 1 → p ∈ avail v i → p ∉ ch i →
  helper_inv h' (chosen i p ch) → new' ++ skipped' ≡ₚ p :: new ++ skipped →
  sel_inv h' (chosen i p ch) new' skipped'.
Proof.
  intros HI Hi Hin Hnot HI' HP. split; [done| |].
  - intros q. rewrite HP, elem_of_cons, (sv_elem _ _ _ _ HI). setoid_rewrite chosen_elem.
    naive_solver.
  - rewrite HP. constructor; [by eapply sel_fresh|]. apply HI.
Qed.

Lemma sel_take h h' ch new skipped i p : sel_inv h ch new skipped → i < width - 1 → p ∈ avail v i → p ∉ ch i →
  helper_inv h' (chosen i p ch) → sel_inv h' (chosen i p ch) (new ++ [p]) skipped.
Proof. intros ? ? ? ? ?. eapply sel_step; try done. solve_Permutation. Qed.

Lemma sel_skip h h' ch new skipped i p : sel_inv h ch new skipped → i < width - 1 → p ∈ avail v i → p ∉ ch i →
  helper_inv h' (chosen i p ch) → sel_inv h' (chosen i p ch) new (skipped ++ [p]).
Proof. intros ? ? ? ? ?. eapply sel_step; try done. solve_Permutation. Qed.

(** ** The home PID *)
Lemma select_home_runs self home_pid pre want : 0 < width → (0 ≤ home_pid < Z.of_nat width - 1)%Z →
  ∀ fuel got h ch new skipped n, sel_inv h ch new skipped → skipped ⊆ [self] → self ∉ new →
  (0 ≤ got)%Z → (Z.to_nat (want - got) + (1 - length skipped) < fuel)%nat →
  (Z.of_nat (length new) + (want - got) + 1 ≤ u32 (4 * total))%Z → (0 ≤ want - got)%Z →
  ∃ new' skipped' h' ch' n',
    runs f (select_home v fuel home_pid self want got (pre ++ new)) h n (pre ++ new') h' n' ∧
    sel_inv h' ch' new' skipped' ∧ skipped' ⊆ [self] ∧ self ∉ new' ∧
    (Z.of_nat (length new') ≤ Z.of_nat (length new) + (want - got))%Z ∧
    new `prefix_of` new'.
Proof.
  intros L0 Hhp. induction fuel as [|fuel IH]; intros got h ch new skipped n HI Hsk Hself Hgot Hfuel Hcap Hwant; [lia|].
  cbn [select_home]. destruct (Z.ltb_spec got want) as [Hlt|Hge].
  2: { exists new, skipped, h, ch, n. split_and!; try done; [apply runs_ret|lia]. }
  assert (Hpok : pid_ok width home_pid) by (right; lia).
  assert (Hidx : idx_of v home_pid < width - 1) by (rewrite idx_nonneg by lia; lia).
  destruct (sel_sub _ _ _ _ _ HI Hidx) as (_ & _ & Hlen).
  assert (Hl1 : length skipped ≤ 1).
  { pose proof (sv_nodup _ _ _ _ HI) as (_ & _ & ND)%NoDup_app. apply (submseteq_length _ [self]). by apply NoDup_submseteq. }
  destruct (selectPeer_runs f Hf v I total Hsmall h ch home_pid n (sv_helper _ _ _ _ HI) L0 Hpok)
    as (r & h1 & n1 & Hrun & HP); [left; lia|].
  destruct r as [p|]; cbn in HP.
  2: { exists new, skipped, h1, ch, n1. destruct HP as [_ HP]. split_and!; try done; [|split; [done|apply HI..]|lia].
       eapply runs_bind; [exact Hrun|apply runs_ret]. }
  destruct HP as (Hin & Hnot & HI1). pose proof (sel_fresh _ _ _ _ _ _ HI Hin Hnot) as Hfr.
  apply not_elem_of_app in Hfr as [Hfn Hfs].
  destruct (decide (p = self)) as [->|Hne].
  - assert (skipped = []) as ->.
    { destruct skipped as [|q sk]; [done|]. exfalso. apply Hfs. pose proof (Hsk q ltac:(left)) as Hq.
      apply list_elem_of_singleton in Hq as ->. left. }
    destruct (IH got h1 (chosen (idx_of v home_pid) self ch) new [self] n1) as (new' & sk' & h' & ch' & n' & Hr & Hrest);
      try done; [by eapply (sel_skip _ _ _ _ [])|cbn in *; lia|].
    exists new', sk', h', ch', n'. split; [|done]. eapply runs_bind; [exact Hrun|]. cbn.
    by rewrite bool_decide_eq_true_2.
  - destruct (IH (got + 1)%Z h1 (chosen (idx_of v home_pid) p ch) (new ++ [p]) skipped n1)
      as (new' & sk' & h' & ch' & n' & Hr & HI' & Hs' & Hn' & Hl' & Hpre); try done.
    { by eapply sel_take. } { set_solver. } { lia. } { lia. } { rewrite length_app. cbn. lia. } { lia. }
    exists new', sk', h', ch', n'. split_and!; try done.
    + eapply runs_bind; [exact Hrun|]. cbn. rewrite bool_decide_eq_false_2 by done.
      by rewrite <- app_assoc.
    + rewrite length_app in Hl'. cbn in Hl'. lia.
    + etrans; [|exact Hpre]. by apply prefix_app_r.
Qed.

(** ** A group of PIDs *)
Lemma left_in_le ch pids : (left_in v ch pids ≤ left_in v (λ _, []) pids)%Z.
Proof.
  induction pids as [|pid pids IH]; [done|].
  change (left_of v ch (Z.to_nat pid) + left_in v ch pids ≤
    left_of v (λ _, []) (Z.to_nat pid) + left_in v (λ _, []) pids)%Z. unfold left_of. cbn [length]. lia.
Qed.

(** All peers of a group were handed out. *)
Lemma left_in_zero h ch new skipped pids : sel_inv h ch new skipped → pids_ok v pids → left_in v ch pids = 0%Z →
  ∀ pid p, pid ∈ pids → p ∈ avail v (Z.to_nat pid) → p ∈ new ++ skipped.
Proof.
  intros HI. induction pids as [|pid pids IH]; intros Hok Hz q p Hq Hp; [by apply not_elem_of_nil in Hq|].
  apply pids_ok_cons in Hok as [Hpid Hok].
  pose proof (left_nonneg v total h ch (Z.to_nat pid) (sv_helper _ _ _ _ HI) ltac:(lia)) as H1.
  pose proof (left_in_nonneg v total h ch pids (sv_helper _ _ _ _ HI) Hok) as H2.
  change (left_of v ch (Z.to_nat pid) + left_in v ch pids = 0)%Z in Hz.
  apply elem_of_cons in Hq as [->|Hq]; [|by apply (IH Hok ltac:(lia) q)].
  assert (Hi : Z.to_nat pid < width - 1) by lia. destruct (sel_sub _ _ _ _ _ HI Hi) as (N & S & _).
  apply (sv_elem _ _ _ _ HI). exists (Z.to_nat pid). split; [done|].
  destruct (decide (p ∈ ch (Z.to_nat pid))) as [|Hn]; [done|]. exfalso.
  assert (Hlt : length (p :: ch (Z.to_nat pid)) ≤ length (avail v (Z.to_nat pid))).
  { apply submseteq_length, NoDup_submseteq; [by constructor|]. set_solver. }
  unfold left_of in *. cbn in Hlt. lia.
Qed.

Lemma select_group_runs pids pre : pids_ok v pids → (left_in v (λ _, []) pids ≤ INT_MAX)%Z →
  ∀ k h ch new skipped n, sel_inv h ch new skipped →
  ∃ new' h' ch' n', runs f (select_group v k pids (pre ++ new)) h n (pre ++ new') h' n' ∧
    sel_inv h' ch' new' skipped ∧ new `prefix_of` new' ∧ length new' ≤ length new + k ∧
    (∀ p, p ∈ new' → p ∈ new ∨ ∃ pid, pid ∈ pids ∧ p ∈ avail v (Z.to_nat pid)) ∧
    (length new' < length new + k → ∀ pid p, pid ∈ pids → p ∈ avail v (Z.to_nat pid) → p ∈ new' ++ skipped).
Proof.
  intros Hok Hmax. induction k as [|k IH]; intros h ch new skipped n HI.
  { exists new, h, ch, n. split_and!; try done; [apply runs_ret|lia|auto|lia]. }
  cbn [select_group]. pose proof (left_in_le ch pids) as Hle.
  destruct (selectPeer_from_runs f Hf v I total Hsmall h ch pids n (sv_helper _ _ _ _ HI) Hok)
    as (r & h1 & n1 & Hrun & HP); [lia|].
  destruct r as [p|].
  - destruct HP as (pid & Hpid & Hin & Hnot & HI1).
    destruct (IH h1 (chosen (Z.to_nat pid) p ch) (new ++ [p]) skipped n1)
      as (new' & h' & ch' & n' & Hr & HI' & Hpre & Hl & Hfrom & Hall).
    { eapply sel_take; try done. pose proof (Hok _ Hpid). lia. }
    rewrite length_app in *. cbn [length] in *.
    exists new', h', ch', n'. split_and!; try done.
    + eapply runs_bind; [exact Hrun|]. cbn. by rewrite <- app_assoc.
    + etrans; [|exact Hpre]. by apply prefix_app_r.
    + lia.
    + intros q Hq. destruct (Hfrom q Hq) as [[H1|H1%list_elem_of_singleton]%elem_of_app|?]; [by left| |by right].
      right. exists pid. by subst.
    + intros Hlt. apply Hall. lia.
  - destruct HP as [Hz ->]. exists new, h, ch, n1. split_and!; try done; [|lia|auto|].
    + eapply runs_bind; [exact Hrun|]. apply runs_ret.
    + intros _. by eapply left_in_zero.
Qed.

(** ** The whole selection *)
Lemma avail_pid i p : i < width - 1 → p ∈ avail v i ↔ pid_of v p = Some (Z.of_nat i).
Proof.
  intros Hi. unfold avail. destruct (lookup_lt_is_Some_2 (m_pid_peers v) i) as [c Hc]; [lia|]. rewrite Hc.
  rewrite (vi_elem _ I _ _ _ Hc). split.
  - intros (pid & Hp & Hs). rewrite Hp. f_equal. pose proof (vi_range _ I _ _ Hp) as Hr.
    unfold pid_ok, slot_of, ERR_UNKNOWN_PID in *. destruct (Z.ltb_spec pid 0); lia.
  - intros Hp. exists (Z.of_nat i). split; [done|]. unfold slot_of. destruct (Z.ltb_spec (Z.of_nat i) 0); lia.
Qed.

Lemma pid_range_elem lo n pid : pid ∈ pid_range lo n ↔ (Z.of_nat lo ≤ pid < Z.of_nat (lo + n))%Z.
Proof.
  unfold pid_range. rewrite list_elem_of_fmap. setoid_rewrite elem_of_seq. split.
  - intros (i & -> & Hi). lia.
  - intros Hp. exists (Z.to_nat pid). lia.
Qed.

Lemma pid_range_nodup lo n : NoDup (pid_range lo n).
Proof. apply NoDup_fmap_2; [intros a b; lia|apply NoDup_seq]. Qed.

Lemma remaining_eq n pre new : (0 ≤ n)%Z → (n + Z.of_nat (length pre) < 2 ^ 32)%Z → (Z.of_nat (length new) ≤ n)%Z →
  Z.to_nat (remaining_quota n (size pre) (size (pre ++ new))) = Z.to_nat n - length new.
Proof.
  intros H0 H1 H2. unfold remaining_quota, size. rewrite length_app. rewrite (u32_small (_ + _)) by lia.
  rewrite u32_small by lia. lia.
Qed.

(** What a selection adds to the prefilled peers. *)
Record selected_ok (self : peer_ptr) (n : Z) (new : list peer_ptr) : Prop := {
  so_nodup : NoDup new;
  so_length : (Z.of_nat (length new) ≤ n)%Z;
  so_peers : ∀ p, p ∈ new → ∃ pid, pid_of v p = Some pid ∧ (0 ≤ pid)%Z;
  so_all : (Z.of_nat (length new) < n)%Z → ∀ p pid, pid_of v p = Some pid → (0 ≤ pid)%Z → p ∈ new ∨ p = self
}.

(** The last phase draws from all PIDs. *)
Lemma all_pids_phase self num_total k pre h ch new skipped pos : (Z.of_nat width - 1 = Z.of_nat num_total)%Z →
  view_small v → sel_inv h ch new skipped → skipped ⊆ [self] →
  ∃ new' h' n', runs f (select_group v k (pid_range 0 num_total) (pre ++ new)) h pos (pre ++ new') h' n' ∧
    NoDup new' ∧ length new ≤ length new' ≤ length new + k ∧
    (∀ p, p ∈ new' → ∃ pid, pid_of v p = Some pid ∧ (0 ≤ pid)%Z) ∧
    (length new' < length new + k → ∀ p pid, pid_of v p = Some pid → (0 ≤ pid)%Z → p ∈ new' ∨ p = self).
Proof.
  intros HW HS HI Hsk.
  assert (Hok : pids_ok v (pid_range 0 num_total)) by (intros pid Hp%pid_range_elem; lia).
  destruct (select_group_runs (pid_range 0 num_total) pre Hok) with (k := k) (h := h) (ch := ch)
    (new := new) (skipped := skipped) (n := pos) as (new' & h' & ch' & n' & Hr & HI' & Hpre & Hl & _ & Hall);
    [apply left_in_small; [done|done|apply pid_range_nodup|]; intros pid Hp%pid_range_elem; lia|done|].
  exists new', h', n'. split; [done|]. pose proof HI' as [_ Hel ND]. apply prefix_length in Hpre.
  split_and!; [by apply NoDup_app in ND as (? & _)|done|done|..].
  - intros p Hp. assert (Hps : p ∈ new' ++ skipped) by (apply elem_of_app; by left).
    apply Hel in Hps as (i & Hi & Hp'). exists (Z.of_nat i). split; [|lia]. apply avail_pid; [done|].
    destruct (sel_sub _ _ _ _ _ HI' Hi) as (_ & S & _). by apply S.
  - intros Hlt p pid Hp Hpid. pose proof (vi_range _ I _ _ Hp) as Hpo.
    assert (Hin : p ∈ new' ++ skipped).
    { apply (Hall Hlt pid p).
      - apply pid_range_elem. unfold pid_ok, ERR_UNKNOWN_PID in Hpo. lia.
      - apply avail_pid; [unfold pid_ok, ERR_UNKNOWN_PID in Hpo; lia|]. rewrite Hp. f_equal. lia. }
    apply elem_of_app in Hin as [?|Hin%Hsk]; [by left|right]. by apply list_elem_of_singleton.
Qed.

Lemma final_phase self num_total n pre h ch new skipped pos : (Z.of_nat width - 1 = Z.of_nat num_total)%Z →
  view_small v → (0 ≤ n)%Z → (n + Z.of_nat (length pre) < 2 ^ 32)%Z →
  sel_inv h ch new skipped → skipped ⊆ [self] → (Z.of_nat (length new) ≤ n)%Z →
  ∃ new' h' n', runs f (select_group v (Z.to_nat (remaining_quota n (size pre) (size (pre ++ new))))
      (pid_range 0 num_total) (pre ++ new)) h pos (pre ++ new') h' n' ∧ selected_ok self n new'.
Proof.
  intros HW HS H0 Hfit HI Hsk Hn. rewrite remaining_eq by done.
  destruct (all_pids_phase self num_total (Z.to_nat n - length new) pre h ch new skipped pos HW HS HI Hsk)
    as (new' & h' & n' & Hr & ND & Hl & Hknown & Hall).
  exists new', h', n'. split; [done|]. split; [done|lia|done|]. intros Hlt. apply Hall. lia.
Qed.

(** A phase over some of the PIDs that cannot exceed the number of peers. *)
Lemma group_phase self num_total pids n pre k h ch new skipped pos :
  (Z.of_nat width - 1 = Z.of_nat num_total)%Z → view_small v → NoDup pids → pids ⊆ pid_range 0 num_total →
  sel_inv h ch new skipped → skipped ⊆ [self] → (Z.of_nat (length new) + Z.of_nat k ≤ n)%Z →
  ∃ new' h' ch' n', runs f (select_group v k pids (pre ++ new)) h pos (pre ++ new') h' n' ∧
    sel_inv h' ch' new' skipped ∧ (Z.of_nat (length new') ≤ n)%Z.
Proof.
  intros HW HS ND Hsub HI Hsk Hn.
  assert (Hok : pids_ok v pids) by (intros pid Hp%Hsub%pid_range_elem; lia).
  destruct (select_group_runs pids pre Hok) with (k := k) (h := h) (ch := ch) (new := new) (skipped := skipped) (n := pos)
    as (new' & h' & ch' & n' & Hr & HI' & _ & Hl & _); [|done|].
  { apply left_in_small; try done. intros pid Hp%Hsub%pid_range_elem. lia. }
  exists new', h', ch', n'. split_and!; [done|done|lia].
Qed.

Lemma double_to_uint_range x z : double_to_uint x = Ok z → (0 ≤ z ≤ UINT_MAX)%Z.
Proof.
  unfold double_to_uint. destruct (double_trunc x) as [y|]; [|done].
  destruct (Z.leb_spec 0 y); [|done]. destruct (Z.leb_spec y UINT_MAX); [|done]. by intros [= <-].
Qed.

Lemma sel_inv_new : 0 < width → sel_inv (PIDPeerSelectionHelper_new v (Z.of_nat width - 1) total) (λ _, []) [] [].
Proof.
  intros L0. split; [by apply (helper_new_inv f)| |constructor]. intros p. cbn. split; [by intros ?%not_elem_of_nil|].
  by intros (i & _ & ?%not_elem_of_nil).
Qed.

(** The quotas of a location-only selection: not more than [n] peers are asked for. *)
Definition quotas_ok (n : Z) (intrapid_pct intraisp_pct : double) (prefilled : Z) : Prop :=
  ∃ q, intrapid_quota n intrapid_pct = Ok q ∧ (q ≤ n)%Z ∧
    ∀ k, (0 ≤ k ≤ q)%Z → ∃ r, intraisp_quota n intraisp_pct prefilled (prefilled + k) = Ok r ∧ (k + r ≤ n)%Z.

Lemma location_selection_runs info self home_pid n a b pre pos : 0 < width →
  num_total_pids info = (Z.of_nat width - 1)%Z → (0 ≤ num_intraisp_pids info ≤ num_total_pids info)%Z →
  (0 ≤ home_pid < num_intraisp_pids info)%Z → view_small v → total = (n + 1)%Z →
  (0 ≤ n)%Z → (4 * (n + 1) < 2 ^ 32)%Z → (n + Z.of_nat (length pre) < 2 ^ 32)%Z → quotas_ok n a b (size pre) →
  ∃ new h' n', runs f (location_selection v info self home_pid n a b pre)
      (PIDPeerSelectionHelper_new v (num_total_pids info) total) pos (pre ++ new) h' n' ∧ selected_ok self n new.
Proof.
  intros L0 HT Hin Hhome HS Htot Hn Hcap Hfit (q1 & Eq1 & Hq1 & Hq2). unfold location_selection.
  rewrite Eq1. pose proof (double_to_uint_range _ _ Eq1) as Hr1.
  assert (HU : u32 (4 * total) = (4 * (n + 1))%Z) by (rewrite Htot; apply u32_small; lia).
  destruct (select_home_runs self home_pid pre q1 L0 ltac:(lia) (Z.to_nat q1 + 2) 0%Z _ _ [] [] pos (sel_inv_new L0))
    as (new1 & sk & h1 & ch1 & n1 & R1 & I1 & S1 & _ & L1 & _); try done; [set_solver|..]; try (cbn; lia).
  { cbn. intros ?%not_elem_of_nil. done. }
  destruct (Hq2 (Z.of_nat (length new1))) as (q2 & Eq2 & Hq2'); [cbn in L1; lia|].
  pose proof (double_to_uint_range _ _ Eq2) as Hr2.
  assert (HW : (Z.of_nat width - 1 = Z.of_nat (Z.to_nat (num_total_pids info)))%Z) by lia.
  destruct (group_phase self _ (filter (λ pid, pid ≠ home_pid) (pid_range 0 (Z.to_nat (num_intraisp_pids info)))) n pre
    (Z.to_nat q2) h1 ch1 new1 sk n1 HW HS) as (new2 & h2 & ch2 & n2 & R2 & I2 & L2); try done.
  { apply NoDup_filter, pid_range_nodup. }
  { intros pid [_ Hp]%list_elem_of_filter. apply pid_range_elem in Hp. apply pid_range_elem. lia. }
  { lia. }
  destruct (group_phase self _ (pid_range (Z.to_nat (num_intraisp_pids info))
    (Z.to_nat (num_total_pids info) - Z.to_nat (num_intraisp_pids info))) n pre
    (Z.to_nat (remaining_quota n (size pre) (size (pre ++ new2)))) h2 ch2 new2 sk n2 HW HS)
    as (new3 & h3 & ch3 & n3 & R3 & I3 & L3); try done.
  { apply pid_range_nodup. } { intros pid Hp%pid_range_elem. apply pid_range_elem. lia. }
  { rewrite remaining_eq by done. lia. }
  destruct (final_phase self _ n pre h3 ch3 new3 sk n3 HW HS) as (new4 & h4 & n4 & R4 & HO); try done.
  exists new4, h4, n4. split; [|done]. rewrite app_nil_r, <- HT in R1.
  eapply runs_bind; [by apply runs_pure|]. eapply runs_bind; [exact R1|].
  replace (size (pre ++ new1)) with (size pre + Z.of_nat (length new1))%Z by (unfold size; rewrite length_app; lia).
  rewrite Eq2. eapply runs_bind; [by apply runs_pure|]. eapply runs_bind; [exact R2|].
  eapply runs_bind; [exact R3|]. exact R4.
Qed.
End selection.

(** ** Weighted selection

    [fillPeers] throws when it draws from a PID that has no peers left: [ends] says that a
    computation either throws that exception or returns a value with a property. *)
Definition null_peer : fault := Throw "illegal state: expected to retrieve non-null peer".

Section ends.
Context {S : Type} (f : nat → Z).

Definition ends {A} (m : ST (S * list Z) A) (s : S) (n : nat) (Q : A → S → Prop) : Prop :=
  ∃ n', n ≤ n' ∧ ((∃ a s', runs f m s n a s' n' ∧ Q a s') ∨
    ∀ tl, m (s, (f <$> seq n (n' - n)) ++ tl) = Fault null_peer).

Lemma ends_runs {A} (m : ST (S * list Z) A) s n a s' n' (Q : A → S → Prop) :
  runs f m s n a s' n' → Q a s' → ends m s n Q.
Proof. intros HR HQ. exists n'. split; [apply HR|]. left. eauto. Qed.

Lemma runs_ends {A B} (m : ST (S * list Z) A) (k : A → ST (S * list Z) B) s n a s1 n1 Q :
  runs f m s n a s1 n1 → ends (k a) s1 n1 Q → ends (m ≫= k) s n Q.
Proof.
  intros HR (n2 & L2 & [(b & s2 & HR2 & HQ)|HF]); pose proof HR as [L1 H1].
  - exists n2. split; [lia|]. left. exists b, s2. split; [by eapply runs_bind|done].
  - exists n2. split; [lia|]. right. intros tl. rewrite st_bind_eq.
    replace (n2 - n) with ((n1 - n) + (n2 - n1)) by lia. rewrite seq_app, fmap_app, <- app_assoc, H1.
    replace (n + (n1 - n)) with n1 by lia. apply HF.
Qed.

Lemma ends_bind {A B} (m : ST (S * list Z) A) (k : A → ST (S * list Z) B) s n Q Q' :
  ends m s n Q → (∀ a s' n', Q a s' → ends (k a) s' n' Q') → ends (m ≫= k) s n Q'.
Proof.
  intros (n1 & L1 & [(a & s1 & HR & HQ)|HF]) HK.
  - eapply runs_ends; [exact HR|]. by apply HK.
  - exists n1. split; [done|]. right. intros tl. rewrite st_bind_eq. by rewrite HF.
Qed.
End ends.

Lemma find_bin_lt r bins : bins ≠ [] → find_bin r bins < length bins.
Proof.
  revert r. induction bins as [|b bins IH]; intros r Hne; [done|]. cbn.
  destruct bins as [|b' bins]; [cbn; lia|]. destruct (dle _ _); [|cbn; lia].
  specialize (IH (dsub r (b_weight b)) ltac:(done)). cbn [length] in *. lia.
Qed.

Section weighted.
Context (f : nat → Z) (Hf : fair f) (v : PerISPPeerDistribution) (I : view_inv v) (total : Z).
Context (Hsmall : ∀ i, (Z.of_nat (length (avail v i)) < 2 ^ 31)%Z).
Notation width := (length (m_pid_peers v)).
Notation sel_inv := (sel_inv v total).

(** A run of draws keeps the invariant and takes at least one peer, and no more than [max]. *)
Definition filled (self : peer_ptr) (pre : list peer_ptr) (new : list peer_ptr) (max : Z)
    (out : list peer_ptr) (h : PIDPeerSelectionHelper) : Prop :=
  ∃ new' ch' sk', out = pre ++ new' ∧ sel_inv h ch' new' sk' ∧ sk' ⊆ [self] ∧
    (Z.of_nat (length new') ≤ Z.max (Z.of_nat (length new) + 1) max)%Z.

Lemma fill_loop_ends self pre max_peers : 0 < width → (max_peers - size pre + 1 ≤ u32 (4 * total))%Z →
  ∀ fuel bins total_peercount total_weight h ch new sk n,
  bins ≠ [] → (∀ b, b ∈ bins → (0 ≤ b_pid b < Z.of_nat width - 1)%Z) →
  sel_inv h ch new sk → sk ⊆ [self] → (Z.of_nat (length new) + 1 ≤ u32 (4 * total))%Z →
  (1 ≤ total_peercount < 2 ^ 32)%Z → Z.to_nat total_peercount < fuel →
  ends f (fill_loop v fuel bins max_peers total_peercount total_weight (pre ++ new)) h n
    (filled self pre new (max_peers - size pre)).
Proof.
  intros L0 Hmax. induction fuel as [|fuel IH]; intros bins tp tw h ch new sk n Hne Hb HI Hsk Hcap Htp Hfu; [lia|].
  cbn [fill_loop]. eapply runs_ends; [apply runs_rand|]. cbn zeta.
  set (j := find_bin _ bins). pose proof (find_bin_lt _ bins Hne : j < length bins) as Hj.
  destruct (lookup_lt_is_Some_2 bins j Hj) as [b Hbj]. rewrite Hbj.
  eapply runs_ends; [by apply runs_pure|]. pose proof (Hb b ltac:(by eapply list_elem_of_lookup_2)) as Hpid.
  assert (Hpok : pid_ok width (b_pid b)) by (right; lia).
  assert (Hidx : idx_of v (b_pid b) < width - 1) by (rewrite idx_nonneg by lia; lia).
  destruct (sel_sub v total _ _ _ _ _ HI Hidx) as (_ & _ & Hlen).
  assert (Hl1 : length sk ≤ 1).
  { pose proof (sv_nodup _ _ _ _ _ _ HI) as (_ & _ & ND)%NoDup_app. apply (submseteq_length _ [self]). by apply NoDup_submseteq. }
  destruct (selectPeer_runs f Hf v I total Hsmall h ch (b_pid b) (S n) (sv_helper _ _ _ _ _ _ HI) L0 Hpok)
    as (r & h1 & n1 & Hrun & HP); [left; lia|].
  eapply runs_ends; [exact Hrun|]. destruct r as [p|]; cbn in HP.
  2: { exists n1. split; [done|]. right. done. }
  destruct HP as (Hin & Hnot & HI1). pose proof (sel_take v I total _ _ _ _ _ _ _ HI Hidx Hin Hnot HI1) as HI2.
  destruct (if (_ <=? 0)%Z then _ else _) as [wt tw'].
  rewrite <- app_assoc. rewrite u32_small by lia.
  assert (Hlast : filled self pre new (max_peers - size pre) (pre ++ new ++ [p]) h1).
  { exists (new ++ [p]), (chosen (idx_of v (b_pid b)) p ch), sk. split_and!; try done. rewrite length_app. cbn. lia. }
  destruct (Z.ltb_spec (Z.of_nat (length (pre ++ new ++ [p]))) max_peers) as [Hlt|Hge]; [|by eapply ends_runs; [apply runs_ret|]].
  destruct (Z.ltb_spec 0 (tp - 1)) as [Htp'|Htp']; [|by eapply ends_runs; [apply runs_ret|]]. cbn [andb].
  rewrite !length_app in Hlt. cbn [length] in Hlt.
  destruct (IH (<[j := MkBin (b_pid b) (u32 (b_peercount b - 1)) wt]> bins) (tp - 1)%Z tw' h1
    (chosen (idx_of v (b_pid b)) p ch) (new ++ [p]) sk n1) as (n2 & L2 & [(out & h2 & HR & HQ)|HF]); try done; try lia.
  { intros E. apply (f_equal length) in E. rewrite length_insert in E. cbn in E. lia. }
  { intros b' (i & Hi)%list_elem_of_lookup. apply list_lookup_insert_Some in Hi as [(_ & <- & _)|[_ Hi]]; [done|].
    apply Hb. by eapply list_elem_of_lookup_2. }
  { rewrite length_app. cbn. unfold size in Hmax. lia. }
  - eapply ends_runs; [exact HR|]. destruct HQ as (new' & ch' & sk' & -> & H1 & H2 & H3). exists new', ch', sk'.
    split_and!; try done. rewrite length_app in H3. cbn in H3. unfold size in *. lia.
  - exists n2. split; [done|]. by right.
Qed.

(** The bins of a range of PIDs hold the peers of those that have a weight and peers. *)
Record bins_ok (pids : list Z) (bins : list bin) : Prop := {
  bo_nodup : NoDup (b_pid <$> bins);
  bo_sub : (b_pid <$> bins) ⊆ pids;
  bo_count : ∀ b, b ∈ bins → b_peercount b = left_of v (λ _, []) (Z.to_nat (b_pid b)) ∧ (1 ≤ b_peercount b)%Z
}.

Lemma classify_ok home_pid weights pids : 0 < width → NoDup pids → pids_ok v pids →
  bins_ok pids (classify v home_pid weights pids).
Proof.
  intros L0 ND Hok. unfold classify. induction ND as [|pid pids Hn ND IH]; [split; cbn; [constructor|set_solver|set_solver]|].
  apply pids_ok_cons in Hok as [Hpid Hok]. specialize (IH Hok). destruct IH as [N S C]. cbn [omap list_omap].
  assert (Hskip : bins_ok (pid :: pids) (classify v home_pid weights pids)) by (split; [done|set_solver|done]).
  unfold classify in Hskip. destruct (vec_at weights pid) as [wt|]; [|done]. destruct (dle wt dzero); [done|].
  destruct (Z.eqb_spec (view_getNumPeers pid v) 0) as [|Hz]; [done|]. destruct (pid =? home_pid)%Z; [done|].
  split; cbn [fmap list_fmap b_pid].
  - constructor; [|done]. intros Hp. by apply Hn, S.
  - intros q [->|Hq]%elem_of_cons; [left|right]. by apply S.
  - intros b [->|Hb]%elem_of_cons; [|by apply C]. cbn [b_peercount b_pid].
    assert (Hg : view_getNumPeers pid v = Z.of_nat (length (avail v (Z.to_nat pid)))).
    { rewrite (getNumPeers_avail v I Hsmall) by (done || (right; lia)). by rewrite idx_nonneg by lia. }
    pose proof (Hsmall (Z.to_nat pid)). rewrite Hg in *. rewrite u32_small by lia. unfold left_of. cbn [length].
    lia.
Qed.

Lemma sum_counts pids bins : bins_ok pids bins → ∀ s, (0 ≤ s)%Z →
  (s + left_in v (λ _, []) (b_pid <$> bins) < 2 ^ 32)%Z →
  fold_left (λ s b, u32 (s + b_peercount b)) bins s = (s + left_in v (λ _, []) (b_pid <$> bins))%Z.
Proof.
  intros [_ _ C]. induction bins as [|b bins IH]; intros s H0 Hlt; cbn [fold_left]; [cbn; lia|].
  change (left_in v (λ _, []) (b_pid <$> b :: bins)) with
    (left_of v (λ _, []) (Z.to_nat (b_pid b)) + left_in v (λ _, []) (b_pid <$> bins))%Z in *.
  destruct (C b ltac:(left)) as [Ec Hc]. rewrite Ec in *.
  assert (Hnn : (0 ≤ left_in v (λ _, []) (b_pid <$> bins))%Z) by (rewrite left_in_length; lia).
  rewrite u32_small by lia. rewrite IH; [lia| |lia|lia]. intros b' Hb. apply C. by right.
Qed.

Lemma fillPeers_ends self pre pids bins max_peers h ch new sk n : 0 < width → view_small v → pids_ok v pids →
  bins_ok pids bins → (max_peers - size pre + 1 ≤ u32 (4 * total))%Z → (Z.of_nat (length new) + 1 ≤ u32 (4 * total))%Z →
  sel_inv h ch new sk → sk ⊆ [self] →
  ends f (fillPeers v bins max_peers (pre ++ new)) h n (filled self pre new (max_peers - size pre)).
Proof.
  intros L0 HS Hok HB Hmax Hcap HI Hsk. unfold fillPeers. destruct bins as [|b bins].
  { eapply ends_runs; [apply runs_ret|]. exists new, ch, sk. split_and!; try done. lia. }
  assert (Hle : (left_in v (λ _, []) (b_pid <$> b :: bins) ≤ INT_MAX)%Z).
  { apply left_in_small; [done|done|apply HB|]. intros pid Hp%(bo_sub _ _ HB). apply Hok in Hp. lia. }
  unfold INT_MAX in Hle. cbn zeta. rewrite (sum_counts pids _ HB) by lia. rewrite Z.add_0_l.
  assert (Hge : (1 ≤ left_in v (λ _, []) (b_pid <$> b :: bins))%Z).
  { destruct (bo_count _ _ HB b ltac:(left)) as [Ec Hc]. rewrite Ec in Hc.
    change (1 ≤ left_of v (λ _, []) (Z.to_nat (b_pid b)) + left_in v (λ _, []) (b_pid <$> bins))%Z.
    rewrite left_in_length. lia. }
  eapply fill_loop_ends; try done; [|lia|lia].
  intros b' Hb'. apply Hok, (bo_sub _ _ HB). by apply list_elem_of_fmap_2.
Qed.

(** What a weighted selection adds: exactly [n] peers, or all that have a PID (the peer
    itself may be missing). *)
Record weighted_ok (self : peer_ptr) (n : Z) (new : list peer_ptr) : Prop := {
  wo_nodup : NoDup new;
  wo_peers : ∀ p, p ∈ new → ∃ pid, pid_of v p = Some pid ∧ (0 ≤ pid)%Z;
  wo_full : Z.of_nat (length new) = n ∨ ∀ p pid, pid_of v p = Some pid → (0 ≤ pid)%Z → p ∈ new ∨ p = self
}.

(** The last phase; its quota wraps around when there are too many peers already. *)
Lemma weighted_final self num_total n pre h ch new sk pos : (Z.of_nat width - 1 = Z.of_nat num_total)%Z →
  view_small v → (0 ≤ n)%Z → (n + Z.of_nat (length pre) < 2 ^ 31)%Z → sel_inv h ch new sk → sk ⊆ [self] →
  (Z.of_nat (length new) ≤ n + 2)%Z →
  ∃ new' h' n', runs f (select_group v (Z.to_nat (remaining_quota n (size pre) (size (pre ++ new))))
      (pid_range 0 num_total) (pre ++ new)) h pos (pre ++ new') h' n' ∧ weighted_ok self n new'.
Proof.
  intros HW HS H0 Hfit HI Hsk Hn. set (k := Z.to_nat (remaining_quota n (size pre) (size (pre ++ new)))).
  destruct (all_pids_phase f Hf v I total Hsmall self num_total k pre h ch new sk pos HW HS HI Hsk)
    as (new' & h' & n' & Hr & ND & Hl & Hknown & Hall).
  exists new', h', n'. split; [done|]. split; [done|done|].
  destruct (decide (Z.of_nat (length new') = n)) as [|Hne]; [by left|right]. apply Hall.
  assert (Hb : length new' ≤ length (m_peer_to_pid v)).
  { rewrite <- (length_fmap fst (m_peer_to_pid v)). apply submseteq_length, NoDup_submseteq; [done|].
    intros p (pid & Hp & _)%Hknown. apply (map_find_elem Pos.ltb) in Hp; [|apply I]. apply list_elem_of_fmap. by exists (p, pid). }
  unfold view_small in HS. unfold k, remaining_quota, size in *. rewrite length_app in *.
  rewrite (u32_small (n + _)) in * by lia. destruct (decide (Z.of_nat (length new) ≤ n)%Z).
  - rewrite u32_small in * by lia. lia.
  - unfold u32 in *. rewrite <- (Z.mod_add _ 1) in * by lia. rewrite Z.mod_small in * by lia. lia.
Qed.

Lemma weighted_selection_ends info self home_pid n a b q t weights pre pos : 0 < width →
  num_total_pids info = (Z.of_nat width - 1)%Z → (0 ≤ num_intraisp_pids info ≤ num_total_pids info)%Z →
  (0 ≤ home_pid < num_total_pids info)%Z → view_small v → total = (n + 1)%Z →
  (0 ≤ n)%Z → (4 * (n + 1) < 2 ^ 32)%Z → (n + Z.of_nat (length pre) < 2 ^ 31)%Z →
  intrapid_quota n a = Ok q → (q ≤ n)%Z → intraisp_target n b (size pre) = Ok t → (t ≤ n + size pre)%Z →
  ends f (weighted_selection v info self home_pid n a b weights pre)
    (PIDPeerSelectionHelper_new v (num_total_pids info) total) pos
    (λ out _, ∃ new, out = pre ++ new ∧ weighted_ok self n new).
Proof.
  intros L0 HT Hin Hhome HS Htot Hn Hcap Hfit Eq1 Hq1 Et Ht. unfold weighted_selection.
  rewrite Eq1. pose proof (double_to_uint_range _ _ Eq1) as Hr1.
  assert (HU : u32 (4 * total) = (4 * (n + 1))%Z) by (rewrite Htot; apply u32_small; lia).
  assert (HW : (Z.of_nat width - 1 = Z.of_nat (Z.to_nat (num_total_pids info)))%Z) by lia.
  assert (Hids : ∀ lo k, lo + k ≤ Z.to_nat (num_total_pids info) → pids_ok v (pid_range lo k))
    by (intros lo k Hk pid Hp%pid_range_elem; lia).
  destruct (select_home_runs f Hf v I total Hsmall self home_pid pre q L0 ltac:(lia) (Z.to_nat q + 2) 0%Z _ _ [] [] pos
    (sel_inv_new f Hf v I total Hsmall L0)) as (new1 & sk & h1 & ch1 & n1 & R1 & I1 & S1 & _ & L1 & _);
    try done; [set_solver|..]; try (cbn; lia); [cbn; by intros ?%not_elem_of_nil|].
  rewrite app_nil_r, <- HT in R1. cbn [length] in L1. eapply runs_ends; [by apply runs_pure|].
  eapply runs_ends; [exact R1|]. rewrite Et. eapply runs_ends; [by apply runs_pure|].
  eapply ends_bind.
  { eapply (fillPeers_ends self pre); [done|done| |apply classify_ok; [done|apply pid_range_nodup|]|lia|lia|exact I1|exact S1];
      apply Hids; lia. }
  intros out2 h2 n2 (new2 & ch2 & sk2 & -> & I2 & S2 & L2). unfold size in *. rewrite u32_small by lia.
  eapply ends_bind.
  { eapply (fillPeers_ends self pre); [done|done| |apply classify_ok; [done|apply pid_range_nodup|]|unfold size; lia|lia|exact I2|exact S2];
      apply Hids; lia. }
  intros out3 h3 n3 (new3 & ch3 & sk3 & -> & I3 & S3 & L3). unfold size in L3.
  destruct (weighted_final self _ n pre h3 ch3 new3 sk3 n3 HW HS Hn Hfit I3 S3) as (new' & h' & n' & R' & HO); [lia|].
  eapply ends_runs; [exact R'|]. by exists new'.
Qed.
End weighted.

(** ** Locks around a selection *)
Lemma view_lock_inv v : view_inv v → view_inv (view_lock v).
Proof. intros [[] ?]. by split; [split|]. Qed.

Section locked.
Context (f : nat → Z) (w : World) (isp : isp_ptr) (v : PerISPPeerDistribution).
Context (HS : map_sorted Pos.ltb (m_views w)) (Hv : getISPViewInternal isp w = Some v).

(** The world while the view is locked. *)
Definition locked_world : World := put_view isp (view_lock v) (with_views_readers (S (views_readers w)) w).

Lemma acquire_runs n : runs f (acquire isp) w n (Some (view_lock v)) locked_world n.
Proof. apply runs_pure. intros rs. unfold acquire, mbind, sel_bind, st_bind, world, getPeerDistribution. by rewrite Hv. Qed.

Lemma release_runs n : runs f (release isp) locked_world n tt w n.
Proof.
  apply runs_pure. intros rs. unfold release, mbind, sel_bind, st_bind, world, locked_world, getISPViewInternal at 1.
  cbn. rewrite (map_find_set_eq Pos.ltb) by done. unfold releasePeerDistribution, getISPViewInternal. cbn.
  rewrite !(map_set_set Pos.ltb), (map_find_set_eq Pos.ltb) by done. cbn.
  assert (view_unlock (view_lock v) = v) as ->. { destruct v; unfold view_unlock, view_lock, with_readers; cbn. by rewrite Nat.sub_0_r. }
  unfold with_views_readers, put_view, with_views. cbn. rewrite (map_set_set Pos.ltb), (map_set_id Pos.ltb), Nat.sub_0_r by done.
  by destruct w.
Qed.

Lemma with_helper_runs {A} h (m : H A) w' n a h' n' : runs f m h n a h' n' → runs f (with_helper h m) w' n a w' n'.
Proof. intros [L E]. split; [done|]. intros tl. unfold with_helper. by rewrite E. Qed.

Lemma with_helper_ends {A} h (m : H A) w' n (Q : A → Prop) :
  ends f m h n (λ a _, Q a) → ends f (with_helper h m) w' n (λ a w'', w'' = w' ∧ Q a).
Proof.
  intros (n' & L & [(a & h' & HR & HQ)|HF]); exists n'; (split; [done|]).
  - left. exists a, w'. split; [by eapply with_helper_runs|done].
  - right. intros tl. unfold with_helper. by rewrite HF.
Qed.
End locked.

(** ** How much a weighted selection adds *)
Lemma st_bind_Ok_inv {St A B} (m : ST St A) (k : A → ST St B) s b s2 : (m ≫= k) s = Ok (b, s2) →
  ∃ a s1, m s = Ok (a, s1) ∧ k a s1 = Ok (b, s2).
Proof. rewrite st_bind_eq. destruct (m s) as [[a s1]|e]; [|done]. eauto. Qed.

Lemma ends_and {S A} f (m : ST (S * list Z) A) s n (Q : A → S → Prop) (R : A → Prop) : ends f m s n Q →
  (∀ rs a s', m (s, rs) = Ok (a, s') → R a) → ends f m s n (λ a s', Q a s' ∧ R a).
Proof.
  intros (n' & L & [(a & s' & HR & HQ)|HF]) HM; exists n'; (split; [done|]); [left|by right].
  exists a, s'. split_and!; [done..|]. destruct HR as [_ HR]. by eapply HM, (HR []).
Qed.
Lemma ends_impl {S A} f (m : ST (S * list Z) A) s n (Q R : A → S → Prop) : ends f m s n Q →
  (∀ a s', Q a s' → R a s') → ends f m s n R.
Proof. intros (n' & L & [(a & s' & HR & HQ)|HF]) HI; exists n'; (split; [done|]); [left; eauto|by right]. Qed.

Section adds.
Variable v : PerISPPeerDistribution.
Lemma select_home_adds fuel home_pid self want : ∀ got out s out' s',
  select_home v fuel home_pid self want got out s = Ok (out', s') → length out ≤ length out'.
Proof.
  induction fuel as [|fuel IH]; intros got out s out' s' E; [done|]. cbn [select_home] in E.
  destruct (got <? want)%Z; [|by injection E as <- _].
  apply st_bind_Ok_inv in E as ([p|] & s1 & _ & E); [|by injection E as <- _].
  destruct (bool_decide (p = self)); apply IH in E; rewrite ?length_app in E; lia.
Qed.
Lemma select_group_adds pids : ∀ n out s out' s', select_group v n pids out s = Ok (out', s') → length out ≤ length out'.
Proof.
  induction n as [|n IH]; intros out s out' s' E; cbn [select_group] in E; [by injection E as <- _|].
  apply st_bind_Ok_inv in E as ([p|] & s1 & _ & E); [|by injection E as <- _]. apply IH in E. rewrite length_app in E. lia.
Qed.
Lemma fill_loop_adds fuel : ∀ bins m c t out s out' s',
  fill_loop v fuel bins m c t out s = Ok (out', s') → length out < length out'.
Proof.
  induction fuel as [|fuel IH]; intros bins m c t out s out' s' E; [done|]. cbn [fill_loop] in E.
  apply st_bind_Ok_inv in E as (x & s1 & _ & E). apply st_bind_Ok_inv in E as (b & s2 & _ & E).
  apply st_bind_Ok_inv in E as ([p|] & s3 & _ & E); [|done]. cbv zeta in E.
  destruct (if (u32 (b_peercount b - 1) <=? 0)%Z then _ else _) as [w' tw].
  destruct (_ && _); [apply IH in E|injection E as <- _]; rewrite length_app in *; cbn in *; lia.
Qed.
(** A call of [fillPeers] with a bin adds a peer, even when there are enough. *)
Lemma fillPeers_adds bins m out s out' s' : fillPeers v bins m out s = Ok (out', s') →
  length out + (if decide (bins = []) then 0 else 1) ≤ length out'.
Proof.
  unfold fillPeers. case_decide as Hb; [subst; intros [= <- _]; lia|]. destruct bins as [|b bins]; [done|].
  intros E%fill_loop_adds. lia.
Qed.

(** The groups of PIDs, internal and external, that have a bin. *)
Definition bin_groups (info : ISPInfo) (home_pid : Z) (weights : list double) : nat :=
  let intra := Z.to_nat (num_intraisp_pids info) in
  let total := Z.to_nat (num_total_pids info) in
  (if decide (classify v home_pid weights (pid_range 0 intra) = []) then 0 else 1) +
  (if decide (classify v home_pid weights (pid_range intra (total - intra)) = []) then 0 else 1).

Lemma weighted_selection_adds info self home_pid n a b weights out s out' s' :
  weighted_selection v info self home_pid n a b weights out s = Ok (out', s') →
  length out + bin_groups info home_pid weights ≤ length out'.
Proof.
  unfold weighted_selection, bin_groups. cbv zeta. intros E.
  apply st_bind_Ok_inv in E as (q & s1 & _ & E). apply st_bind_Ok_inv in E as (o1 & s2 & E1%select_home_adds & E).
  apply st_bind_Ok_inv in E as (t & s3 & _ & E). apply st_bind_Ok_inv in E as (o2 & s4 & E2%fillPeers_adds & E).
  apply st_bind_Ok_inv in E as (o3 & s5 & E3%fillPeers_adds & E%select_group_adds). lia.
Qed.
End adds.
