(* ===== verification/PeerProperties.v ===== *)
(** * Properties of peer distribution and selection

    The claims about the client library that groups peers by PID and selects peers, with
    the witnesses that apply them to a small swarm. *)
From S2P Require Import Prelude StdMap Double IpAddr IspPidMap Heap SwarmState Rand PeerDist.
From S2P Require Import PeerDistSpec SelHelper SelHelperSpec Guidance Selection SelectionSpec.
From S2P Require Import Patricia.

(** ** Reachable distributions *)
Definition empty_world : World := MkWorld ∅ ∅ 0 [] [].

Definition put_peer (peer : peer_ptr) (p : Peer) (w : World) : World := with_peers (<[peer := p]> (w_peers w)) w.
Definition put_isp (isp : isp_ptr) (info : ISPInfo) (w : World) : World :=
  MkWorld (w_peers w) (<[isp := info]> (w_isps w)) (views_readers w) (m_views w) (m_peers w).

(** The operations of the manager on objects that exist, and the steps of the application:
    it creates or changes a peer, and creates an ISP or loads a new PID map into it.  These
    are the states in which no distribution is handed out ([getPeerDistribution]) and no
    view is locked; selections, which take and release these locks, have claims of their
    own. *)
Inductive dist_step : World → World → Prop :=
  | step_peer w peer p : dist_step w (put_peer peer p w)
  | step_isp w isp info : isp_ok info → dist_step w (put_isp isp info w)
  | step_addPeer w peer b w' : is_Some (w_peers w !! peer) → addPeer peer w = Ok (b, w') → dist_step w w'
  | step_removePeer w peer b w' : removePeer peer w = Ok (b, w') → dist_step w w'
  | step_updatePeerStats w peer b w' :
      is_Some (w_peers w !! peer) → updatePeerStats peer w = Ok (b, w') → dist_step w w'
  | step_addISP w isp info b w' : w_isps w !! isp = Some info → isp_ok info → addISP isp w = Ok (b, w') → dist_step w w'
  | step_removeISP w isp w' : removeISP isp w = Ok w' → dist_step w w'
  | step_updateDist w isp r w' : updatePeerDistribution isp w = Ok (r, w') → dist_step w w'.

Inductive dist_reachable : World → Prop :=
  | dist_init : dist_reachable empty_world
  | dist_next w w' : dist_reachable w → dist_step w w' → dist_reachable w'.

Lemma empty_world_inv : world_inv empty_world.
Proof.
  split; try apply SSorted_nil; cbn; [by intros ? ? ?%not_elem_of_nil|by intros ? ? ? ?%not_elem_of_nil|by intros ? [? ?]|done].
Qed.

Lemma dist_step_inv w w' : world_inv w → dist_step w w' → world_inv w'.
Proof.
  intros W HS. destruct HS as [w peer p|w isp info Hok|w peer b w' [p Hp] E|w peer b w' E|w peer b w' [p Hp] E|
    w isp info b w' Hi Hok E|w isp w' E|w isp r w' E].
  - destruct W. split; try done. cbn. intros q [p' Hq]%wi_deref. destruct (decide (q = peer)) as [->|Hne].
    + rewrite lookup_insert_eq. by eexists.
    + rewrite lookup_insert_ne by done. by eexists.
  - destruct W. split; try done. cbn. intros isp' v Hv. destruct (wi_view _ _ Hv) as (? & ? & info' & Hi' & ?).
    split_and!; try done. destruct (decide (isp' = isp)) as [->|Hne].
    + rewrite lookup_insert_eq. by eexists.
    + rewrite lookup_insert_ne by done. by eexists.
  - destruct (map_find Pos.ltb peer (m_peers w)) eqn:F.
    + unfold addPeer, deref_peer in E. rewrite Hp in E. cbn in E. rewrite F in E. by injection E as <- <-.
    + destruct (addPeer_Ok w peer p W Hp F) as (w1 & h & E1 & W1 & _). rewrite E1 in E. by injection E as <- <-.
  - destruct (removePeer_Ok w peer W) as (w1 & E1 & W1 & _). rewrite E1 in E. by injection E as <- <-.
  - destruct (updatePeerStats_Ok w peer p W Hp) as (b1 & w1 & E1 & W1 & _). rewrite E1 in E. by injection E as <- <-.
  - destruct (addISP_Ok w isp info W Hi Hok) as (w1 & E1 & W1 & _). rewrite E1 in E. by injection E as <- <-.
  - destruct (removeISP_Ok w isp W) as (w1 & E1 & W1 & _). rewrite E1 in E. by injection E as <-.
  - destruct (getISPViewInternal isp w) as [v|] eqn:F.
    + pose proof (proj1 (map_find_elem Pos.ltb _ _ _ (wi_views _ W)) F) as Hin.
      destruct (wi_view _ W _ _ Hin) as (_ & _ & info & Hi & _).
      destruct (updatePeerDistribution_Ok w isp info v W Hi F) as (w1 & v1 & E1 & W1 & _).
      rewrite E1 in E. by injection E as <- <-.
    + unfold updatePeerDistribution in E. rewrite F in E. by injection E as <- <-.
Qed.

Lemma dist_reachable_inv w : dist_reachable w → world_inv w.
Proof. induction 1; [apply empty_world_inv|]. by eapply dist_step_inv. Qed.

(** C11. In every reachable state (with no distribution handed out) every view groups
    its peers exactly: the list of a PID (or of the peers without one) has no duplicates and
    holds the peers that the view maps to the PID, and all of them are known to the manager.  No operation faults there: adding,
    removing and updating an existing peer, adding and removing an ISP and redistributing
    its peers all return. *)
Theorem peer_distribution_invariant w : dist_reachable w →
  (∀ isp v pid, (isp, v) ∈ m_views w → pid_ok (length (m_pid_peers v)) pid →
     NoDup (peers_of pid v) ∧
     ∀ p, p ∈ peers_of pid v ↔ map_find Pos.ltb p (m_peer_to_pid v) = Some pid) ∧
  (∀ isp v p, (isp, v) ∈ m_views w → map_find Pos.ltb p (m_peer_to_pid v) ≠ None →
     map_find Pos.ltb p (m_peers w) ≠ None) ∧
  (∀ peer, is_Some (w_peers w !! peer) →
     (∃ b w', addPeer peer w = Ok (b, w')) ∧ (∃ b w', updatePeerStats peer w = Ok (b, w'))) ∧
  (∀ peer, ∃ b w', removePeer peer w = Ok (b, w')) ∧
  (∀ isp info, w_isps w !! isp = Some info → isp_ok info → ∃ b w', addISP isp w = Ok (b, w')) ∧
  (∀ isp, (∃ w', removeISP isp w = Ok w') ∧ ∃ r w', updatePeerDistribution isp w = Ok (r, w')).
Proof.
  intros W%dist_reachable_inv. split_and!.
  - intros isp v pid Hv Hok. destruct (wi_view _ W _ _ Hv) as (I & _). by apply peers_of_spec.
  - intros isp v p Hv Hp E. apply (wi_known _ W _ _ _ Hv) in Hp as [? Hp]. congruence.
  - intros peer [p Hp]. split.
    + destruct (map_find Pos.ltb peer (m_peers w)) eqn:F.
      * exists false, w. unfold addPeer, deref_peer. rewrite Hp. cbn. by rewrite F.
      * destruct (addPeer_Ok w peer p W Hp F) as (w1 & h & E & _). eauto.
    + destruct (updatePeerStats_Ok w peer p W Hp) as (b & w1 & E & _). eauto.
  - intros peer. destruct (removePeer_Ok w peer W) as (w1 & E & _). eauto.
  - intros isp info Hi Hok. destruct (addISP_Ok w isp info W Hi Hok) as (w1 & E & _). eauto.
  - intros isp. destruct (removeISP_Ok w isp W) as (w1 & E & _). split; [eauto|].
    destruct (getISPViewInternal isp w) as [v|] eqn:F.
    + pose proof (proj1 (map_find_elem Pos.ltb _ _ _ (wi_views _ W)) F) as Hin.
      destruct (wi_view _ W _ _ Hin) as (_ & _ & info & Hi & _).
      destruct (updatePeerDistribution_Ok w isp info v W Hi F) as (w2 & v2 & E2 & _). eauto.
    + exists ERR_INVALID_ISP, w. unfold updatePeerDistribution. by rewrite F.
Qed.

(** ** Adding a peer *)
Lemma Forall2_find (P : isp_ptr * PerISPPeerDistribution → isp_ptr * PerISPPeerDistribution → Prop) vs vs' isp v :
  (∀ e e', P e e' → e'.1 = e.1) → map_sorted Pos.ltb vs → Forall2 P vs vs' → map_find Pos.ltb isp vs = Some v →
  ∃ v', map_find Pos.ltb isp vs' = Some v' ∧ P (isp, v) (isp, v').
Proof.
  intros HP HS HF Hf. assert (HK : vs'.*1 = vs.*1).
  { clear -HF HP. induction HF as [|e e' l l' H _ IH]; [done|]. cbn. f_equal; [by apply HP|done]. }
  pose proof (map_sorted_keys Pos.ltb vs vs' HK HS) as HS'.
  apply (map_find_elem Pos.ltb) in Hf; [|done]. clear HK HS.
  assert (∃ v', (isp, v') ∈ vs' ∧ P (isp, v) (isp, v')) as (v' & Hin & Hp).
  { clear HS'. induction HF as [|e e' l l' H HF IH]; [by apply not_elem_of_nil in Hf|].
    apply elem_of_cons in Hf as [<-|Hf].
    - destruct e' as [isp' v']. pose proof (HP _ _ H) as E. cbn in E. subst isp'. exists v'. split; [left|done].
    - destruct (IH Hf) as (v' & ? & ?). exists v'. split; [by right|done]. }
  exists v'. split; [|done]. by apply (map_find_elem Pos.ltb).
Qed.

(** Adding a new peer puts it into the view of every ISP, under the PID that the ISP's
    PID map gives to its address (the unknown PID when that is out of the range of the
    view), and leaves the other peers alone.  Its home becomes an ISP whose match for the
    address is in an internal PID and at least as long as that of any other ISP; it stays
    unset when no ISP has an internal match. *)
Theorem peer_added w peer p : dist_reachable w → w_peers w !! peer = Some p →
  map_find Pos.ltb peer (m_peers w) = None →
  ∃ w', addPeer peer w = Ok (true, w') ∧
    (∀ isp v info, map_find Pos.ltb isp (m_views w) = Some v → w_isps w !! isp = Some info →
       ∃ v', map_find Pos.ltb isp (m_views w') = Some v' ∧
         pid_of v' peer = Some (clip (width_of (num_total_pids info) v) (isp_pid info (p_address p))) ∧
         ∀ q, q ≠ peer → pid_of v' q = pid_of v q) ∧
    ((∀ isp pid len, isp ∈ (m_views w).*1 → ¬ internal_match (w_isps w) (p_address p) isp pid len) ∧
       w_peers w' !! peer = Some p ∨
     ∃ isp pid len, isp ∈ (m_views w).*1 ∧ internal_match (w_isps w) (p_address p) isp pid len ∧
       w_peers w' !! peer = Some (setHome isp pid p) ∧
       ∀ isp' pid' len', isp' ∈ (m_views w).*1 → internal_match (w_isps w) (p_address p) isp' pid' len' →
         (len' ≤ len)%Z).
Proof.
  intros W%dist_reachable_inv Hp Hn. destruct (addPeer_Ok w peer p W Hp Hn) as (w' & h & E & _ & HF & HI & _ & Hpeers).
  exists w'. split; [done|]. split.
  - intros isp v info Hv Hi.
    destruct (Forall2_find (view_added (w_isps w) peer (p_address p)) _ _ isp v ltac:(by intros ? ? (? & _)) (wi_views _ W) HF Hv)
      as (v' & Hv' & _ & _ & _ & info' & Hi' & F). cbn [fst snd] in *. rewrite Hi in Hi'. injection Hi' as <-.
    exists v'. split; [done|].
    assert (Hnone : pid_of v peer = None).
    { destruct (pid_of v peer) eqn:Ep; [|done]. apply (map_find_elem Pos.ltb) in Hv; [|apply W].
      destruct (wi_known _ W _ _ peer Hv) as [? Hk]; congruence. }
    split; [by rewrite F, decide_True|]. intros q Hq. rewrite F. by rewrite decide_False by naive_solver.
  - destruct (home_isp h) as [isp|] eqn:Eh.
    + right. destruct (hi_home _ _ _ _ HI _ Eh) as [Hin Hm]. exists isp, (home_pid h), (longest_prefix_length h).
      split_and!; [done|done|by rewrite Hpeers, lookup_insert_eq|]. intros isp' pid' len' Hin' Hm'.
      by destruct (hi_best _ _ _ _ HI _ _ _ Hin' Hm').
    + left. split; [|by rewrite Hpeers]. intros isp pid len Hin Hm. by destruct (hi_best _ _ _ _ HI _ _ _ Hin Hm).
Qed.

(** C12. Redistribution follows the PID map: afterwards the view of the ISP holds exactly the
    peers of the manager, each under the PID that the ISP's current PID map gives to its
    address, the views of the other ISPs are untouched, and the home PID of the peers of
    the ISP is the new one. *)
Theorem redistribution_follows_pid_map w isp info v : dist_reachable w → w_isps w !! isp = Some info →
  map_find Pos.ltb isp (m_views w) = Some v →
  ∃ w' v', updatePeerDistribution isp w = Ok (0%Z, w') ∧ map_find Pos.ltb isp (m_views w') = Some v' ∧
    (∀ q pid, pid_of v' q = Some pid ↔
       map_find Pos.ltb q (m_peers w) ≠ None ∧ ∃ p, w_peers w !! q = Some p ∧ pid = isp_pid info (p_address p)) ∧
    (∀ isp', isp' ≠ isp → map_find Pos.ltb isp' (m_views w') = map_find Pos.ltb isp' (m_views w)) ∧
    (∀ q p, map_find Pos.ltb q (m_peers w) ≠ None → w_peers w !! q = Some p → m_home_isp p = Some isp →
       w_peers w' !! q = Some (setHome isp (isp_pid info (p_address p)) p)).
Proof.
  intros W%dist_reachable_inv Hi Hv. destruct (updatePeerDistribution_Ok w isp info v W Hi Hv)
    as (w' & v' & E & _ & Hvs & _ & HP & HG). exists w', v'. split; [done|]. rewrite Hvs.
  split_and!; [apply (map_find_set_eq Pos.ltb), W|..].
  - intros q pid. rewrite HP. destruct (decide (is_Some (map_find Pos.ltb q (m_peers w)))) as [[st Hq]|Hq].
    + rewrite Hq. destruct (w_peers w !! q) as [p|]; cbn; naive_solver.
    + destruct (map_find Pos.ltb q (m_peers w)); [by destruct Hq|]. naive_solver.
  - intros isp' Hne. apply (map_find_set_ne Pos.ltb); [apply W|done].
  - intros q p Hq Hp Hh. rewrite HG, Hp. destruct (map_find Pos.ltb q (m_peers w)); [|done].
    rewrite decide_True by (by eexists). cbn. unfold rehomed. by rewrite bool_decide_eq_true_2.
Qed.

(** ** Selection *)








(** ** A small swarm *)

(** ISP 1 has the internal PIDs 0, 1 and 2 (10.0.0.0/8 to 12.0.0.0/8) and the external PID 3
    (13.0.0.0/8). *)
Definition host (b d : Z) : IPPrefix := MkIPPrefix AF_INET (b :: 0 :: 0 :: d :: replicate 12 0)%Z 32.
Definition demo_lookup (a : IPPrefix) : Z * IPPrefix :=
  match address_ a with
  | b :: _ =>
      if (10 <=? b)%Z && (b <=? 13)%Z then ((b - 10)%Z, MkIPPrefix AF_INET (b :: replicate 15 0)%Z 8)
      else (ERR_UNKNOWN_PID, IPPrefix_INVALID)
  | [] => (ERR_UNKNOWN_PID, IPPrefix_INVALID)
  end.
Definition demo_isp : ISPInfo := MkISPInfo demo_lookup [false; false; false; true] 3 4.
Definition demo_peer (a : IPPrefix) : Peer := MkPeer a false (float_of_int 10) (float_of_int 20) None (-1).

Lemma demo_isp_ok : isp_ok demo_isp.
Proof.
  split; cbn; try (unfold total_ok; lia); intros a; unfold demo_lookup; destruct (address_ a) as [|b l];
    cbn; try (unfold ERR_UNKNOWN_PID; lia); destruct (Z.leb_spec 10 b), (Z.leb_spec b 13); cbn; unfold ERR_UNKNOWN_PID; lia.
Qed.

(** The world after an operation. *)
Definition after {A} (r : outcome (A * World)) (w : World) : World := match r with Ok (_, w') => w' | Fault _ => w end.

Lemma reach_add_isp isp info w : dist_reachable w → w_isps w !! isp = Some info → isp_ok info →
  dist_reachable (after (addISP isp w) w).
Proof. intros HR Hi Hok. unfold after. destruct (addISP isp w) as [[b w']|e] eqn:E; [|done]. by eapply dist_next, step_addISP. Qed.

(** Create a peer with an address and add it. *)
Definition join (w : World) (pa : peer_ptr * IPPrefix) : World :=
  let w := put_peer pa.1 (demo_peer pa.2) w in after (addPeer pa.1 w) w.

Lemma reach_join pa w : dist_reachable w → dist_reachable (join w pa).
Proof.
  intros HR. assert (HR' : dist_reachable (put_peer pa.1 (demo_peer pa.2) w)) by (eapply dist_next; [done|constructor]).
  unfold join, after. destruct (addPeer _ _) as [[b w']|e] eqn:E; [|done]. eapply dist_next; [exact HR'|].
  eapply step_addPeer; [|exact E]. cbn. rewrite lookup_insert_eq. by eexists.
Qed.
Lemma reach_joins l w : dist_reachable w → dist_reachable (fold_left join l w).
Proof. revert w. induction l as [|pa l IH]; intros w HR; [done|]. apply IH, reach_join, HR. Qed.

Definition demo_start : World := after (addISP 1%positive (put_isp 1%positive demo_isp empty_world)) (put_isp 1%positive demo_isp empty_world).
Definition demo_peers : list (peer_ptr * IPPrefix) :=
  [(1, host 10 1); (2, host 10 2); (3, host 11 1); (4, host 12 1); (5, host 13 1); (6, host 99 1)]%positive.
Definition demo_world : World := fold_left join demo_peers demo_start.

Lemma demo_swarm_reachable l : dist_reachable (fold_left join l demo_start).
Proof.
  apply reach_joins. eapply reach_add_isp; [|done|apply demo_isp_ok]. eapply dist_next; [constructor|].
  apply step_isp, demo_isp_ok.
Qed.

Lemma demo_world_reachable : dist_reachable demo_world.
Proof. unfold demo_world. apply demo_swarm_reachable. Qed.

(** The peers with a home PID in the manager's view. *)
Example demo_homes : (λ p : Peer, (m_home_isp p, m_home_pid p)) <$> omap (λ pa, w_peers demo_world !! pa.1) demo_peers
  = [(Some 1%positive, 0%Z); (Some 1%positive, 0%Z); (Some 1%positive, 1%Z); (Some 1%positive, 2%Z); (None, (-1)%Z); (None, (-1)%Z)].
Proof. vm_compute. reflexivity. Qed.

Definition demo_view : PerISPPeerDistribution := default view_new (map_find Pos.ltb 1%positive (m_views demo_world)).


Lemma peer_distribution_invariant_witness :
  dist_reachable demo_world ∧ NoDup (peers_of 0 demo_view) ∧ peers_of 0 demo_view = [1; 2]%positive.
Proof.
  split; [apply demo_world_reachable|]. split; [|vm_compute; reflexivity].
  destruct (peer_distribution_invariant demo_world demo_world_reachable) as [H _].
  apply (H 1%positive demo_view 0%Z).
  - vm_compute. left.
  - right. vm_compute. split; congruence.
Defined.

Definition demo_before : World := put_peer 7%positive (demo_peer (host 12 9)) demo_world.

Lemma peer_added_witness : ∃ w' v', addPeer 7%positive demo_before = Ok (true, w') ∧
  map_find Pos.ltb 1%positive (m_views w') = Some v' ∧ pid_of v' 7%positive = Some 2%Z.
Proof.
  destruct (peer_added demo_before 7%positive (demo_peer (host 12 9))) as (w' & E & H & _).
  - apply (dist_next demo_world); [apply demo_world_reachable|apply step_peer].
  - vm_compute. reflexivity.
  - vm_compute. reflexivity.
  - destruct (H 1%positive demo_view demo_isp) as (v' & Hv & Hp & _); [vm_compute; reflexivity..|].
    exists w', v'. split_and!; [exact E|exact Hv|]. rewrite Hp. vm_compute. reflexivity.
Defined.

(** The ISP moves 10.0.0.0/8 to PID 1. *)
Definition demo_isp' : ISPInfo := MkISPInfo (λ a, let '(pid, p) := demo_lookup a in (if (pid =? 0)%Z then 1%Z else pid, p))
  [false; false; false; true] 3 4.
Lemma demo_isp'_ok : isp_ok demo_isp'.
Proof.
  destruct demo_isp_ok as [H1 H2 H3 H4]. split; try done; cbn in *; intros a; specialize (H3 a); specialize (H4 a);
    destruct (demo_lookup a) as [pid p]; cbn in *; [destruct (Z.eqb_spec pid 0); lia|lia].
Qed.
Definition demo_moved : World := put_isp 1%positive demo_isp' demo_world.

Lemma redistribution_follows_pid_map_witness : ∃ w' v', updatePeerDistribution 1%positive demo_moved = Ok (0%Z, w') ∧
  map_find Pos.ltb 1%positive (m_views w') = Some v' ∧ pid_of v' 2%positive = Some 1%Z.
Proof.
  destruct (redistribution_follows_pid_map demo_moved 1%positive demo_isp' demo_view) as (w' & v' & E & Hv & H & _).
  - apply (dist_next demo_world); [apply demo_world_reachable|apply step_isp, demo_isp'_ok].
  - vm_compute. reflexivity.
  - vm_compute. reflexivity.
  - exists w', v'. split_and!; [exact E|exact Hv|]. apply H. split; [vm_compute; congruence|].
    eexists. split; [vm_compute; reflexivity|vm_compute; reflexivity].
Defined.

(** Selection managers for the swarm: one by location only, one by weights. *)
Definition location_manager : PGMSelectionManager :=
  MkPGM (LocationOnly (dlit 1 2) (dlit 4 5)) [] [(1%positive, None)] ∅.
Definition demo_weights : list double := [dzero; dlit 1 2; dlit 1 2; dlit 1 1].
Definition demo_guidance : PeeringGuidanceMatrix :=
  MkGuidance SwarmState_empty (replicate 3 (dlit 1 4)) (replicate 3 (dlit 3 4)) (replicate 3 demo_weights) 1 0 1 default_options.
Definition weighted_manager : PGMSelectionManager :=
  MkPGM default_options [] [(1%positive, Some 1%positive)] {[1%positive := demo_guidance]}.


Definition answer {S A} (r : outcome (A * S)) : outcome A := match r with Ok (a, _) => Ok a | Fault e => Fault e end.




(** ** What goes wrong *)

Lemma h_bind_eq {A B} (m : H A) (k : A → H B) s :
  (m ≫= k) s = match m s with Ok (a, s') => k a s' | Fault e => Fault e end.
Proof. reflexivity. Qed.

(** A draw from a PID all of whose peers were selected never ends. *)
Lemma draw_fresh_exhausted v pid c sel : pid_collection pid v = Some c → m_vec c ≠ [] →
  (∀ p, p ∈ m_vec c → Some p ∈ sel) → ∀ fuel rs, Forall (λ r, (0 ≤ r)%Z) rs →
  draw_fresh v fuel pid sel rs = Fault NoFuel.
Proof.
  intros Hc Hne Hsel. induction fuel as [|fuel IH]; intros rs Hrs; [done|]. cbn [draw_fresh].
  unfold mbind, rand_bind, st_bind, view_getRandomPeer. rewrite Hc.
  destruct (Nat.eqb_spec (ras_size c) 0) as [E|E]; [by apply nil_length_inv in E|].
  destruct Hrs as [|r rs Hr Hrs]; [done|]. unfold mbind, rand_bind, st_bind. cbn [rand]. unfold mret, rand_ret, st_ret.
  unfold ras_size in *. pose proof (Z.mod_pos_bound r (Z.of_nat (length (m_vec c))) ltac:(lia)) as Hm.
  destruct (lookup_lt_is_Some_2 (m_vec c) (Z.to_nat (r `mod` Z.of_nat (length (m_vec c))))) as [p Hp]; [lia|].
  rewrite (proj2 (vec_at_Some _ _ p)) by (split; [lia|done]).
  rewrite bool_decide_eq_true_2; [by apply IH|]. apply Hsel. by eapply list_elem_of_lookup_2.
Qed.

Lemma draw_single v pid c p sel r rs : pid_collection pid v = Some c → m_vec c = [p] → Some p ∉ sel →
  draw v pid sel (r :: rs) = Ok (Some p, rs).
Proof.
  intros Hc Hp Hsel. unfold draw. cbn [draw_fresh]. unfold mbind, rand_bind, st_bind, view_getRandomPeer.
  rewrite Hc. unfold ras_size. rewrite Hp. cbn [length Nat.eqb Z.of_nat Pos.of_succ_nat]. unfold mbind, rand_bind, st_bind.
  cbn [rand]. rewrite Z.mod_1_r. unfold vec_at. cbn. by rewrite bool_decide_eq_false_2.
Qed.

(** A selection from a PID in which the helper does not copy the list. *)
Lemma selectPeer_nocopy v pid h rs i i' : vec_at (m_pidinfo h) (pid_idx pid h) = Some i →
  choose_strategy v (m_total_peers h) pid i = Some i' → strategy i' = ST_NOCOPY →
  selectPeer v pid (h, rs) =
    match draw v pid (selected i') rs with
    | Ok (peer, rs') => Ok (peer, (MkHelper (m_total_peers h) (<[Z.to_nat (pid_idx pid h) :=
        MkPIDInfo (s32 (numPeers i' - 1)) ST_NOCOPY (candidates i') ({[peer]} ∪ selected i')]> (m_pidinfo h)), rs'))
    | Fault e => Fault e
    end.
Proof.
  intros Hi Hc Hs. unfold selectPeer. rewrite h_bind_eq. cbn [st_get]. rewrite h_bind_eq. unfold get_info. rewrite Hi.
  cbv beta iota. rewrite Hc, Hs. rewrite h_bind_eq. unfold h_rand. by destruct (draw v pid (selected i') rs) as [[peer rs']|e].
Qed.

(** The bound [4 * m_total_peers] is an unsigned product: for 2^30 peers (a request for
    2^30 - 1) it is 0, and the helper draws until it finds a new peer even from a PID with
    one peer.  The second selection from such a PID does not end, whatever the random
    numbers. *)
Theorem selection_bound_overflows v num_pids pid c p r rs : (0 ≤ pid < num_pids)%Z →
  pid_collection pid v = Some c → m_vec c = [p] → rand_ok (r :: rs) →
  (selectPeer v pid ≫= λ _, selectPeer v pid) (PIDPeerSelectionHelper_new v num_pids (2 ^ 30), r :: rs) = Fault NoFuel.
Proof.
  intros Hpid Hc Hp Hr. rewrite h_bind_eq. set (h := PIDPeerSelectionHelper_new v num_pids (2 ^ 30)).
  assert (Hidx : ∀ h', pid_idx pid h' = pid).
  { intros h'. unfold pid_idx, ERR_UNKNOWN_PID. by rewrite (proj2 (Z.eqb_neq _ _)) by lia. }
  assert (Hi : m_pidinfo h !! Z.to_nat pid = Some (MkPIDInfo 1 ST_UNKNOWN [] ∅)).
  { unfold h, PIDPeerSelectionHelper_new. cbn [m_pidinfo]. rewrite lookup_app_l by (rewrite length_fmap, length_seq; lia).
    rewrite list_lookup_fmap, lookup_seq_lt by lia. cbn. do 2 f_equal. rewrite Z2Nat.id by lia.
    unfold view_getNumPeers, ras_size. by rewrite Hc, Hp. }
  pose proof (lookup_lt_Some _ _ _ Hi) as HL.
  rewrite (selectPeer_nocopy v pid h (r :: rs) (MkPIDInfo 1 ST_UNKNOWN [] ∅) (MkPIDInfo 1 ST_NOCOPY [] ∅));
    [|rewrite Hidx; apply vec_at_Some; split; [lia|done]|done|done].
  cbn [selected]. rewrite (draw_single v pid c p ∅ r rs Hc Hp) by set_solver. cbv beta iota. rewrite Hidx.
  erewrite selectPeer_nocopy; [|rewrite Hidx; apply vec_at_Some; split; [lia|]; cbn [m_pidinfo];
    by apply list_lookup_insert_eq|done|done].
  cbn [selected]. unfold draw. rewrite (draw_fresh_exhausted v pid c); [done|done|by rewrite Hp| |].
  - intros q. rewrite Hp, list_elem_of_singleton. intros ->. set_solver.
  - inversion_clear Hr as [|? ? _ Hrs]. eapply Forall_impl; [exact Hrs|]. cbn. lia.
Qed.

Lemma selection_bound_overflows_witness :
  (selectPeer demo_view 1 ≫= λ _, selectPeer demo_view 1)
    (PIDPeerSelectionHelper_new demo_view 4 (2 ^ 30), [0; 5; 7]%Z) = Fault NoFuel.
Proof.
  eapply (selection_bound_overflows demo_view 4 1 _ 3%positive 0 [5; 7]%Z).
  - lia.
  - vm_compute. reflexivity.
  - vm_compute. reflexivity.
  - unfold rand_ok, RAND_MAX. repeat constructor; lia.
Defined.

(** The ISP moves 10.0.0.0/8 to its external PID, and its peers are redistributed: the home
    PID of peer 1 is external now. *)
Definition roaming_isp : ISPInfo := MkISPInfo (λ a, let '(pid, p) := demo_lookup a in (if (pid =? 0)%Z then 3%Z else pid, p))
  [false; false; false; true] 3 4.
Definition roaming_world : World :=
  let w := put_isp 1%positive roaming_isp demo_world in after (updatePeerDistribution 1%positive w) w.

Lemma roaming_reachable : dist_reachable roaming_world.
Proof.
  assert (HR : dist_reachable (put_isp 1%positive roaming_isp demo_world)).
  { apply (dist_next demo_world); [apply demo_world_reachable|]. apply step_isp.
    destruct demo_isp_ok as [H1 H2 H3 H4]. split; try done; cbn in *; intros a; specialize (H3 a); specialize (H4 a);
      destruct (demo_lookup a) as [pid p]; cbn in *; [destruct (Z.eqb_spec pid 0); lia|lia]. }
  unfold roaming_world, after. cbv zeta. destruct (updatePeerDistribution _ _) as [[b w']|e] eqn:E; [|done].
  eapply dist_next; [exact HR|]. by eapply step_updateDist.
Qed.

(** In a reachable state a peer can have an external home PID (the ISP's PID map moved
    its addresses).  Location-only selection for it returns with an error and with its two
    shared locks held: every later change of the ISPs and of the peers waits forever. *)
Theorem external_home_keeps_locks :
  dist_reachable roaming_world ∧
  ∃ w rs, selectPeers location_manager 1%positive 4 [] (roaming_world, []) = Ok ((ERR_GUIDANCE_UNAVAILABLE, []), (w, rs)) ∧
    addISP 2%positive w = Fault Deadlock ∧ removeISP 1%positive w = Fault Deadlock ∧
    removePeer 5%positive w = Fault Deadlock ∧ updatePeerDistribution 1%positive w = Fault Deadlock.
Proof.
  split; [apply roaming_reachable|]. do 2 eexists. split; [vm_compute; reflexivity|]. split_and!; vm_compute; reflexivity.
Qed.

(** Three random numbers of [RAND_MAX] in a row hit a bin that is already empty. *)
Theorem weighted_selection_throws : ∃ rs, rand_ok rs ∧
  selectPeers weighted_manager 1%positive 4 [] (demo_world, rs) = Fault null_peer.
Proof.
  exists (repeat RAND_MAX 16). split; [|vm_compute; reflexivity].
  unfold rand_ok, RAND_MAX. cbn [repeat]. repeat constructor; lia.
Qed.

(** [getNextComputeTime] answers "invalid" for an ISP it knows. *)
Theorem next_compute_time_inverted : getNextComputeTime 1%positive weighted_manager = Ok TIME_INVALID ∧
  getNextComputeTime 2%positive weighted_manager = Fault UB.
Proof. split; reflexivity. Qed.

(** ** Swarm statistics *)

(** An update of the statistics of a PID changes the leechers, the rates and the active
    peers by the given amounts and nothing of the other PIDs; the change of the number of
    seeds goes to the upload capacity, so that the seeds are never counted, and an index
    out of range is an error without effect. *)
Theorem swarm_update_effect pid cs cl uc dc ur dr ca s :
  let '(code, s') := ss_update pid cs cl uc dc ur dr ca s in
  code = (if isValid pid s then 0%Z else ERR_UNKNOWN_PID) ∧ length s' = length s ∧
  (∀ pid', pid' ≠ pid → ss_at pid' s' = ss_at pid' s) ∧
  (∀ pid', getNumSeeds pid' s' = getNumSeeds pid' s) ∧
  (∀ p, ss_at pid s = Some p →
     getNumLeechers pid s' = s32 (u32 (num_leechers p + cl)) ∧
     getUploadCapacity pid s' = fadd (fadd (getUploadCapacity pid s) (float_of_int cs)) uc ∧
     getDownloadCapacity pid s' = fadd (getDownloadCapacity pid s) dc ∧
     getUploadRate pid s' = fadd (getUploadRate pid s) ur ∧
     getDownloadRate pid s' = getDownloadCapacity pid s' ∧
     getNumActivePeers pid s' = s32 (u32 (num_active_peers p + ca))).
Proof.
  destruct (ss_update pid cs cl uc dc ur dr ca s) as [code s'] eqn:E. unfold ss_update in E.
  match type of E with ss_write ?f _ _ = _ => pose proof (ss_write_code f pid s) as H1;
    pose proof (ss_write_length f pid s) as H2; pose proof (λ pid', ss_at_write f pid pid' s) as H3 end.
  rewrite E in *. cbn [fst snd] in *. split_and!; [done|done|..].
  - intros pid' Hne. rewrite H3. by rewrite decide_False.
  - intros pid'. unfold getNumSeeds, ss_read. rewrite H3. case_decide; [subst|done]. by destruct (ss_at pid s).
  - intros p Hp. specialize (H3 pid). rewrite decide_True, Hp in H3 by done. cbn in H3.
    unfold getNumLeechers, getUploadCapacity, getDownloadCapacity, getUploadRate, getDownloadRate, getNumActivePeers, ss_read.
    by rewrite H3, Hp.
Qed.
