(* ===== verification/ClientSelection.v ===== *)
(** * Peer selection by location at a client
    (common/cpp/src/lib/client_peer_selection_location.cpp)

    [P4PClientPeerSelectionLocation] finds the home ISP of a client among PID maps that are
    stored as files and selects peers of its PID, of its ISP and of the rest of the world
    by fixed shares.  Peers are addresses with an IP address; random numbers come from a
    list (Rand.v).  The reader of files is a parameter. *)
From S2P Require Import Prelude StdMap Double IpAddr Pid Patricia PatriciaTrie PatriciaTrieSpec.
From S2P Require Import PrefixTable IspPidMap Heap SwarmState Rand PeerDist SelHelper SelHelperSpec Guidance.

Section client.
Context {D : Type} `{PrefixTable Z D}.
Variable get_pidmap : text * Z → portal_reply.
Variable read_pidmap : text → file_reply.
Variable getIPAddress : peer_ptr → IPPrefix.

Record ClientSelection := MkClient {
  m_self_pid : Z;
  m_pidmap : option (ISPPIDMap (D := D));
  m_intra_isp_pids : Z;
  cs_pids : Z;
  m_intra_pid_pct : double;
  m_intra_isp_pct : double
}.

(** ** The constructor *)
(** The ISP of a file: [None] when the file could not be loaded or the client is external
    in it.  The client is looked up in the map; an address that is in no prefix has the
    index [ERR_UNKNOWN_PID], which the second test accepts. *)
Definition home_in (junk now : Z) (self : IPPrefix) (file : text) : outcome (option (Z * ISPPIDMap)) :=
  m0 ← ISPPIDMap_new junk;
  '(rc, m1) ← loadP4PInfo get_pidmap read_pidmap now (setDataSourceFile file m0);
  if negb (rc =? 0)%Z then mret None
  else
    '(self_pid, _, m2) ← ISPPIDMap_lookup self m1;
    if negb (external_ (getPIDInfo self_pid m2)) || (self_pid <? 0)%Z then mret (Some (self_pid, m2)) else mret None.

Fixpoint find_home (junk now : Z) (self : IPPrefix) (pidmap_filenames : list text) (c : ClientSelection) : outcome ClientSelection :=
  match pidmap_filenames with
  | [] => mret c
  | file :: rest =>
      h ← home_in junk now self file;
      match h with
      | None => find_home junk now self rest c
      | Some (self_pid, m) =>
          let '(intra, total) := getNumPIDs m in
          mret (MkClient self_pid (Some m) intra total
            (if (intra =? 1)%Z then m_intra_isp_pct c else m_intra_pid_pct c) (m_intra_isp_pct c))
      end
  end.

(** A share that is out of range leaves the member as it is, without a value:
    [junk_pid] and [junk_isp]. *)
Definition ClientSelection_new (junk_pid junk_isp : double) (junk now : Z) (self : IPPrefix) (pidmap_filenames : list text)
    (intra_pid_pct intra_isp_pct : double) : outcome ClientSelection :=
  find_home junk now self pidmap_filenames (MkClient (-1) None 0 0
    (if dlt intra_pid_pct dzero || dlt intra_isp_pct intra_pid_pct then junk_pid else intra_pid_pct)
    (if dlt intra_isp_pct intra_pid_pct || dlt (dlit 99 100) intra_isp_pct then junk_isp else intra_isp_pct)).

(** ** [selectPeers] *)
Abbreviation S := (ST (ISPPIDMap (D := D) * list Z)).
Definition lookup_peer (peer : peer_ptr) : S Z := λ '(m, rs),
  '(r, m') ← ISPPIDMap_lookup (getIPAddress peer) m; mret (r.1, (m', rs)).
Definition next_rand : S Z := λ '(m, rs), '(r, rs') ← rand rs; mret (r, (m, rs')).

(** Peers of the own PID, of the own ISP, and others. *)
Fixpoint group_peers (self_pid intra : Z) (candidates : list peer_ptr) : S (list peer_ptr * list peer_ptr * list peer_ptr) :=
  match candidates with
  | [] => mret ([], [], [])
  | peer :: rest =>
      pid ← lookup_peer peer;
      '(a, b, c) ← group_peers self_pid intra rest;
      mret (if (pid =? self_pid)%Z then (peer :: a, b, c)
            else if (0 <=? pid)%Z && (pid <? intra)%Z then (a, peer :: b, c)
            else (a, b, peer :: c))
  end.

(** One of the three loops: peers are drawn at random until there are [n] or none is left.
    A peer that is drawn leaves the list, so that its length is fuel enough. *)
Fixpoint pick_peers (fuel : nat) (n selected : Z) (peers out_peers : list peer_ptr) : S (list peer_ptr) :=
  if (selected <? n)%Z then
    match fuel, peers with
    | _, [] => mret out_peers
    | 0, _ => st_fail NoFuel
    | Datatypes.S fuel', _ =>
        r ← next_rand;
        let peer_idx := Z.to_nat (r mod Z.of_nat (length peers)) in
        cand_peer ← st_lift (from_option_or UB (peers !! peer_idx));
        pick_peers fuel' n (u32 (selected + 1)) (take_candidate peer_idx peers) (out_peers ++ [cand_peer])
    end
  else mret out_peers.

(** The numbers of peers of the three groups, as the code computes them. *)
Definition num_intra_pid (c : ClientSelection) (num_to_select : Z) : outcome Z :=
  double_to_uint (dadd (dmul (double_of_int num_to_select) (m_intra_pid_pct c)) (dlit 1 2)).
Definition num_intra_isp (c : ClientSelection) (num_to_select num_prefilled size : Z) : outcome Z :=
  double_to_uint (dadd (dsub (dadd (dmul (double_of_int num_to_select) (m_intra_isp_pct c)) (double_of_int num_prefilled))
    (double_of_int size)) (dlit 1 2)).
Definition num_external (num_to_select num_prefilled size : Z) : Z :=
  u32 (u64 (u32 (num_to_select + num_prefilled) - size)).

(** The code and [out_peers].  When there are fewer candidates than asked for they are all
    copied, and the function goes on. *)
Definition selectPeers (c : ClientSelection) (candidates : list peer_ptr) (num_to_select : Z) (out_peers : list peer_ptr)
    (rs : list Z) : outcome (Z * list peer_ptr) :=
  match m_pidmap c with
  | None => mret (ERR_GUIDANCE_UNAVAILABLE, out_peers)
  | Some m =>
      if (m_self_pid c <? 0)%Z || (m_intra_isp_pids c <=? m_self_pid c)%Z || bool_decide (candidates = [])
      then mret (ERR_GUIDANCE_UNAVAILABLE, out_peers)
      else
        let num_prefilled := u32 (Z.of_nat (length out_peers)) in
        let out0 := if (Z.of_nat (length candidates) <? num_to_select)%Z then out_peers ++ candidates else out_peers in
        let size (l : list peer_ptr) := Z.of_nat (length l) in
        '(out, _) ← (
          '(intra_pid_peers, intra_isp_peers, external_peers) ← group_peers (m_self_pid c) (m_intra_isp_pids c) candidates;
          n1 ← st_lift (num_intra_pid c num_to_select);
          out1 ← pick_peers (length intra_pid_peers) n1 0 intra_pid_peers out0;
          n2 ← st_lift (num_intra_isp c num_to_select num_prefilled (size out1));
          out2 ← pick_peers (length intra_isp_peers) n2 0 intra_isp_peers out1;
          let n3 := num_external num_to_select num_prefilled (size out2) in
          pick_peers (length external_peers) n3 0 external_peers out2 : S (list peer_ptr)) (m, rs);
        mret (0%Z, out)
  end.

(** ** What the loops do *)
Lemma pick_peers_Ok n fuel sel peers out m rs : length peers ≤ fuel → length peers ≤ length rs → rand_ok rs →
  (0 ≤ sel)%Z → (sel + Z.of_nat (length peers) < 2 ^ 32)%Z →
  ∃ got left rs', pick_peers fuel n sel peers out (m, rs) = Ok (out ++ got, (m, rs')) ∧ got ++ left ≡ₚ peers ∧
    Z.of_nat (length got) = Z.max 0 (Z.min (n - sel) (Z.of_nat (length peers))) ∧
    rand_ok rs' ∧ length rs ≤ length rs' + length peers.
Proof.
  revert sel peers out rs. induction fuel as [|fuel IH]; intros sel peers out rs HF HL HR Hs HB.
  { destruct peers; [|cbn in HF; lia]. exists [], [], rs. rewrite app_nil_r. cbn [length].
    split_and!; [by cbn; destruct (sel <? n)%Z|done|lia|done|lia]. }
  cbn [pick_peers]. destruct (Z.ltb_spec sel n) as [Hn|Hn].
  2: { exists [], peers, rs. rewrite app_nil_r. cbn [length]. split_and!; [done|done|lia|done|lia]. }
  destruct peers as [|p peers].
  { exists [], [], rs. rewrite app_nil_r. cbn [length]. split_and!; [done|done|lia|done|lia]. }
  destruct rs as [|r rs]; [cbn in HL; lia|]. apply Forall_cons in HR as [Hr HR].
  rewrite (st_bind_Ok _ _ _ r (m, rs)) by done. set (l := p :: peers) in *. set (k := Z.to_nat (r mod Z.of_nat (length l))).
  assert (Hk : k < length l). { unfold k. pose proof (Z.mod_pos_bound r (Z.of_nat (length l)) ltac:(cbn; lia)). lia. }
  destruct (lookup_lt_is_Some_2 l k Hk) as [x Ex]. rewrite st_lift_bind, Ex. cbn [from_option_or].
  pose proof (take_candidate_perm l k x Ex) as HP. pose proof (Permutation_length HP) as HLen. cbn [length] in HLen.
  assert (EL : length (take_candidate k l) = length peers) by (cbn in HLen; lia). rewrite u32_small by (cbn [length l] in HB; lia).
  destruct (IH (sel + 1)%Z (take_candidate k l) (out ++ [x]) rs) as (got & left & rs' & E & HG & HN & HR' & HB');
    [cbn in HF; lia|cbn in HL; lia|done|lia|cbn [length l] in HB; lia|].
  exists (x :: got), left, rs'. rewrite E, <- app_assoc. split_and!; [done| | |done|cbn [length l]; lia].
  - cbn. rewrite HG. by symmetry.
  - cbn [length l]. lia.
Qed.

Context `{!PrefixTableLaws Z D}.
Variables (fam self_pid intra : Z) (C : gmap (list bool) Z).

(** A full address, and the groups of peers. *)
Definition reachable_peer (p : peer_ptr) : Prop :=
  ip_ok (getIPAddress p) ∧ family_ (getIPAddress p) = fam ∧ length_ (getIPAddress p) = Z.of_nat (width fam).
Definition pid_of (p : peer_ptr) (pid : Z) : Prop :=
  ∃ r, lpm fam C (ip_key (getIPAddress p)) r ∧ pid = match r with Some (v, _) => v | None => ERR_UNKNOWN_PID end.
Definition own_pid (p : peer_ptr) : Prop := pid_of p self_pid.
Definition own_isp (p : peer_ptr) : Prop := ∃ pid, pid_of p pid ∧ pid ≠ self_pid ∧ (0 ≤ pid < intra)%Z.
Definition elsewhere (p : peer_ptr) : Prop := ∃ pid, pid_of p pid ∧ pid ≠ self_pid ∧ ¬ (0 ≤ pid < intra)%Z.

(** The PID of a peer is the one of its longest prefix, so there is only one. *)
Lemma pid_of_unique p x y : pid_of p x → pid_of p y → x = y.
Proof.
  intros (r & HR & ->) (r' & HR' & ->). destruct r as [[v ip]|], r' as [[v' ip']|]; [|naive_solver..|done].
  destruct HR as (_ & _ & E & HP & HM), HR' as (_ & _ & E' & HP' & HM').
  assert (EL : length (ip_key ip) = length (ip_key ip')) by (specialize (HM _ _ E' HP'); specialize (HM' _ _ E HP); lia).
  assert (ip_key ip = ip_key ip') as HK; [|congruence].
  destruct HP as [t Et], HP' as [t' Et']. rewrite Et in Et'. by apply app_inj_1 in Et' as [? _].
Qed.

Lemma group_peers_Ok l m rs : pt_holds fam C (m_trie m) → Forall reachable_peer l →
  ∃ a b c m', group_peers self_pid intra l (m, rs) = Ok ((a, b, c), (m', rs)) ∧ a ++ b ++ c ≡ₚ l ∧
    Forall own_pid a ∧ Forall own_isp b ∧ Forall elsewhere c.
Proof.
  revert m. induction l as [|p l IH]; intros m HT HL; [by eexists [], [], [], m|].
  apply Forall_cons in HL as [(HP1 & HP2 & HP3) HL]. destruct (law_lookup fam C (m_trie m) _ HT HP1 HP2 HP3) as (r & d & E & HLpm & HT').
  set (m1 := MkISPPIDMap (m_proto m) (m_filename m) d (m_pids m) (m_intraisp_pids m) (m_lastUpdate m) (m_ttl m) (m_version m)).
  set (pid := match r with Some (v, _) => v | None => ERR_UNKNOWN_PID end).
  assert (EP : lookup_peer p (m, rs) = Ok (pid, (m1, rs))).
  { unfold lookup_peer, ISPPIDMap_lookup. rewrite E. cbn. by destruct r as [[v ip]|]. }
  destruct (IH m1 HT' HL) as (a & b & c & m' & EG & HP & HA & HB & HC).
  cbn [group_peers]. rewrite (st_bind_Ok _ _ _ _ _ EP), (st_bind_Ok _ _ _ _ _ EG).
  assert (HD : pid_of p pid) by (by exists r). destruct (Z.eqb_spec pid self_pid) as [Hs|Hs].
  - eexists _, _, _, m'. split; [reflexivity|]. split_and!; [cbn; by rewrite HP| |done|done]. constructor; [|done]. unfold own_pid. by rewrite <- Hs.
  - destruct ((0 <=? pid)%Z && (pid <? intra)%Z) eqn:EI.
    + eexists _, _, _, m'. split; [reflexivity|]. split_and!; [|done| |done].
      * rewrite <- HP. solve_Permutation.
      * constructor; [|done]. exists pid. apply andb_true_iff in EI as [?%Z.leb_le ?%Z.ltb_lt]. by split_and!.
    + eexists _, _, _, m'. split; [reflexivity|]. split_and!; [|done|done|].
      * rewrite <- HP. solve_Permutation.
      * constructor; [|done]. exists pid. split_and!; [done..|]. intros ?. lia.
Qed.
End client.
