(* ===== verification/ClientProperties.v ===== *)
(** * Properties of the maps, the mutex and the peer selection of clients *)
From S2P Require Import Prelude StdMap Double IpAddr Pid Patricia PatriciaTrie PatriciaTrieSpec.
From S2P Require Import PrefixTable IspPidMap Heap SwarmState Rand PeerDist SelHelper SelHelperSpec Guidance.
From S2P Require Import Win32Mutex IspMaps ClientSelection TrieProperties ServerProperties.

(** ** The shared mutex *)
(** C26. The shared mutex for Windows under any interleaving of fewer than 65536 threads: while
    a thread holds it exclusively no other thread holds it; the counter says who holds it;
    and writers are never forgotten: while one waits, a thread holds the mutex or is about
    to hand it over, or the semaphore lets the writer go on. *)
Theorem win32_mutex_exclusion n s : (Z.of_nat n < 2 ^ 16)%Z → lock_reachable n s →
  (∀ t t' p, threads s !! t = Some Writing → t' ≠ t → threads s !! t' = Some p → p ≠ Writing ∧ p ≠ Reading ∧ p ≠ ReadNotify) ∧
  (∀ t, threads s !! t = Some Writing → activeWriterReaders_ (mutex32 s) = 2 ^ 16)%Z ∧
  ((∃ t, threads s !! t = Some WriteWait) →
    (0 < hReadyToWrite_ (mutex32 s))%Z ∨
    ∃ t p, threads s !! t = Some p ∧ (p = Reading ∨ p = ReadNotify ∨ p = Writing ∨ p = NotifyWriter)).
Proof.
  intros Hn HR. destruct (lock_reachable_inv n s Hn HR) as [I1 I2 I3 I4 I5 I6 I7 I8 I9].
  assert (HP : ∀ f t p, f = is_writer ∨ f = is_reader → threads s !! t = Some p → (f p ≤ total f (threads s))%Z)
    by (intros f t p [->| ->]; apply total_one; by intros []).
  split_and!.
  - intros t t' p ET Hne ET'. pose proof (HP is_writer t Writing (or_introl eq_refl) ET) as HW. cbn in HW.
    pose proof (total_two is_writer _ t t' _ _ ltac:(by intros []) ET ET' ltac:(congruence)) as H2. cbn [is_writer] in H2.
    pose proof (HP is_reader t' p (or_intror eq_refl) ET') as H3. rewrite I5 in H3 by lia.
    split_and!; intros ->; cbn in H2, H3; lia.
  - intros t ET. pose proof (HP is_writer t Writing (or_introl eq_refl) ET) as HW. cbn in HW. rewrite I4, I5 by lia. lia.
  - intros (t & ET). pose proof (total_one waits_write _ t _ ltac:(by intros []) ET) as HW. cbn in HW.
    destruct (decide (0 < hReadyToWrite_ (mutex32 s))%Z) as [Hs|Hs]; [by left|right].
    assert (HN : (0 ≤ total is_reader (threads s))%Z) by (apply total_nonneg; by intros []).
    destruct (decide (0 < total hands_over (threads s))%Z) as [HH|HH].
    + destruct (total_exists hands_over (threads s) ltac:(by intros []) HH) as (u & p & Eu & Hp). exists u, p. split; [done|]. destruct p; cbn in Hp; try lia; auto.
    + assert (0 ≤ total hands_over (threads s))%Z by (apply total_nonneg; by intros []). specialize (I9 ltac:(lia)).
      assert (HO : (0 < total (λ p, is_reader p + is_writer p)%Z (threads s))%Z).
      { destruct (decide (0 < total is_writer (threads s))%Z) as [HX|HX].
        - destruct (total_exists is_writer (threads s) ltac:(by intros []) HX) as (u & p & Eu & Hp).
          eapply Z.lt_le_trans; [|apply (total_one (λ p, is_reader p + is_writer p)%Z _ u p); [intros []; cbn; lia|done]]. destruct p; cbn in *; lia.
        - destruct (total_exists is_reader (threads s) ltac:(by intros []) ltac:(lia)) as (u & p & Eu & Hp).
          eapply Z.lt_le_trans; [|apply (total_one (λ p, is_reader p + is_writer p)%Z _ u p); [intros []; cbn; lia|done]]. destruct p; cbn in *; lia. }
      destruct (total_exists (λ p, is_reader p + is_writer p)%Z (threads s) ltac:(intros []; cbn; lia) HO) as (u & p & Eu & Hp). exists u, p. split; [done|]. destruct p; cbn in Hp; try lia; auto.
Qed.

(** A writer hands the mutex to another one. *)
Definition demo_handover : list (nat * lock_call) :=
  [(0, ExclusiveLock); (1, ExclusiveLock); (0, ExclusiveUnlock); (0, Continue); (1, Continue)].
Definition demo_locked : lock_state := MkLock (MkMutex32 0 0 (2 ^ 16) false 0) [Idle; Writing].
Lemma demo_handover_eq : lock_run demo_handover (MkLock SharedMutex32_new (replicate 2 Idle)) = Some demo_locked.
Proof. reflexivity. Qed.
Lemma win32_mutex_exclusion_witness : activeWriterReaders_ (mutex32 demo_locked) = (2 ^ 16)%Z.
Proof.
  destruct (win32_mutex_exclusion 2 demo_locked) as (_ & HA & _); [done|eapply lock_run_reachable; [apply lock_init|exact demo_handover_eq]|].
  by apply (HA 1).
Defined.

(** The event is reset between the moment a reader leaves the critical section and its
    call of [WaitForSingleObject]: a writer leaves, another reader comes and goes. *)
Definition demo_missed : list (nat * lock_call) :=
  [(0, ExclusiveLock); (1, SharedLock); (0, ExclusiveUnlock); (0, Continue); (2, SharedLock); (2, Continue); (2, SharedUnlock);
   (1, Continue)].

(** C36. The shared mutex for Windows can lose the wake-up of a reader: there is a run of
    three threads after which the mutex is free and nobody waits for it but one reader,
    which is blocked on the event and that no step of a thread inside an operation can
    release. *)
Theorem win32_mutex_misses_wakeup : ∃ s, lock_reachable 3 s ∧ threads s = [Idle; ReadBlocked; Idle] ∧
  activeWriterReaders_ (mutex32 s) = 0%Z ∧ numWritersWaiting_ (mutex32 s) = 0%Z ∧ numReadersWaiting_ (mutex32 s) = 1%Z ∧
  ∀ t, lock_step t Continue s = None.
Proof.
  exists (MkLock (MkMutex32 0 1 0 false 0) [Idle; ReadBlocked; Idle]). split_and!; [|done..|].
  - eapply (lock_run_reachable 3 demo_missed); [apply lock_init|reflexivity].
  - by intros [|[|[|t]]].
Qed.

(** ** ISPs *)
Section isps.
Context {D : Type} `{PrefixTable Z D} `{!PrefixTableLaws Z D}.
Variable get_pidmap : text * Z → portal_reply.
Variable read_pidmap : text → file_reply.
Variable get_pdistance : text * Z → pdistance_reply.
Variable read_pdistance : text → pdistance_file.

Lemma pidmap_load_Ok fam now (s : ISPPIDMap (D := D)) src prefixes ttl version : m_proto s = Some src → get_pidmap src = PortalOk prefixes ttl version →
  known_family fam → usable fam (all_prefixes prefixes) → (Z.of_nat (length (all_prefixes prefixes)) ≤ UINT_MAX)%Z →
  ∃ s', loadP4PInfo get_pidmap read_pidmap now s = Ok (0%Z, s') ∧ m_pids s' = prefixes.*1.
Proof.
  intros Hs Hr Hf Hu Hsz. unfold loadP4PInfo. rewrite Hs, Hr. destruct (law_new (T := Z) (D := D) fam Hf) as (d0 & E0 & HD). rewrite E0.
  destruct (build_Ok fam prefixes 0 [] 0 ∅ d0 HD Hu) as (d & E1 & _); [rewrite map_size_empty; lia|]. cbn [mbind outcome_bind]. rewrite E1.
  eexists. split; reflexivity.
Qed.

(** C27. [ISP::loadP4PInfo] when both maps come from portal servers and the PID map was
    loaded: when the pDistances are loaded too, the pDistance of two PIDs of the map by
    their indexes is the value of the reply converted from [unsigned int] to [int], and
    [INT_MAX] where the reply has none; a source or a destination index that is not one of
    a PID gets [ERR_UNKNOWN_PID].  When the request for the pDistances fails, its code is
    returned and the ISP has the new PID map with the old pDistances. *)
Theorem isp_load_pdistances fam now (i : ISP) src src' prefixes ttl version :
  m_proto (i_pidmap i) = Some src → pd_proto (i_pdistmap i) = Some src' → get_pidmap src = PortalOk prefixes ttl version →
  known_family fam → usable fam (all_prefixes prefixes) → (Z.of_nat (length (all_prefixes prefixes)) ≤ UINT_MAX)%Z →
  ∃ rc i', isp_loadP4PInfo get_pidmap read_pidmap get_pdistance read_pdistance now i = Ok (rc, i') ∧ m_pids (i_pidmap i') = prefixes.*1 ∧
    match get_pdistance src' with
    | PDistOk dists pdist_ttl _ =>
        rc = 0%Z ∧ pd_ttl (i_pdistmap i') = pdist_ttl ∧
        (∀ p q, p ∈ prefixes.*1 → q ∈ prefixes.*1 →
          getPDistance (getPIDIndex p (i_pidmap i')) (getPIDIndex q (i_pidmap i')) (i_pdistmap i') =
          match gm_get p q dists with Ok v => s32 v | Fault _ => INT_MAX end) ∧
        ∀ x y, ¬ (0 ≤ x < Z.of_nat (length prefixes) ∧ 0 ≤ y < Z.of_nat (length prefixes))%Z →
          getPDistance x y (i_pdistmap i') = ERR_UNKNOWN_PID
    | PDistConnectionError => rc = ERR_CONNECTION_FAILURE ∧ i_pdistmap i' = i_pdistmap i
    | PDistProtocolError => rc = ERR_PROTOCOL_FAILURE ∧ i_pdistmap i' = i_pdistmap i
    end.
Proof.
  intros Hs Hs' Hr Hf Hu Hsz. destruct (pidmap_load_Ok fam now _ _ _ _ _ Hs Hr Hf Hu Hsz) as (m & EL & EM).
  unfold isp_loadP4PInfo. rewrite EL. cbn [mbind outcome_bind Z.eqb negb]. unfold pd_loadP4PInfo. rewrite Hs'.
  destruct (get_pdistance src') as [dists pttl pver| |]; [|by eexists _, _..].
  eexists _, _. split; [reflexivity|]. cbn [i_pidmap i_pdistmap pd_ttl]. unfold listPIDs, getPIDIndex. rewrite EM. split_and!; [done..| |].
  - intros p q Hp Hq. destruct (find_index_spec p 0 _ Hp) as (x & -> & Ex), (find_index_spec q 0 _ Hq) as (y & -> & Ey). cbn [Nat.add].
    by rewrite (getPDistance_loaded _ _ _ _ _ _ _ _ _ _ _ Ex Ey).
  - intros x y Hxy. apply getPDistance_outside. by rewrite length_fmap.
Qed.
End isps.

Definition demo_pid1 : PID := MkPID [] 1 false.
Definition demo_pid2 : PID := MkPID [] 2 false.
Definition demo_pids : list PIDPrefixes := [(demo_pid1, [ip4 10 0 0 0 8]); (demo_pid2, [ip4 10 1 0 0 16])].
Definition demo_dists : PIDMatrixGeneric Z := [(demo_pid1, [(demo_pid2, 7%Z)])].
Lemma demo_pids_usable : usable AF_INET (all_prefixes demo_pids).
Proof.
  apply Forall_forall. intros p Hp. assert (p = ip4 10 0 0 0 8 ∨ p = ip4 10 1 0 0 16) as [->| ->] by set_solver; (split; [ip4_auto|done]).
Qed.
Lemma isp_load_pdistances_witness : ∃ i i' : ISP (D := PatriciaTrie Z),
  isp_loadP4PInfo (λ _, PortalOk demo_pids 60 []) (λ _, FileReadFailed) (λ _, PDistOk demo_dists 60 []) (λ _, PDistReadFailed) 5 i = Ok (0%Z, i') ∧
  getPDistance (getPIDIndex demo_pid1 (i_pidmap i')) (getPIDIndex demo_pid2 (i_pidmap i')) (i_pdistmap i') = 7%Z.
Proof.
  destruct (law_new (T := Z) (D := PatriciaTrie Z) AF_INET ltac:(by left)) as (d & _ & _).
  set (i := MkISP (MkISPPIDMap (Some ([], 80%Z)) [] d [] 0 0 0 []) (MkPDistMap (Some ([], 80%Z)) [] [] 0 0 []) : ISP).
  destruct (isp_load_pdistances (λ _, PortalOk demo_pids 60 []) (λ _, FileReadFailed) (λ _, PDistOk demo_dists 60 []) (λ _, PDistReadFailed)
    AF_INET 5 i ([], 80%Z) ([], 80%Z) demo_pids 60 [] eq_refl eq_refl eq_refl (or_introl eq_refl) demo_pids_usable) as (rc & i' & E & _ & -> & _ & HV & _).
  - unfold UINT_MAX. cbn. lia.
  - exists i, i'. split; [exact E|]. rewrite HV; [reflexivity|left|right; left].
Defined.

(** ** The manager of ISPs *)
Section manager.
Context {D : Type} `{PrefixTable Z D}.
Variable new_addr : list positive → positive.
Hypothesis new_addr_fresh : ∀ l, new_addr l ∉ l.

Inductive manager_op := AddISP (name : text) (i : ISP (D := D)) | RemoveISP (name : text).
Definition manager_exec (o : manager_op) (s : ISPManager (D := D)) : outcome (ISPManager (D := D)) :=
  match o with
  | AddISP name i => '(_, s') ← addISP new_addr name (Ok i) s; mret s'
  | RemoveISP name => '(_, s') ← removeISP name s; mret s'
  end.
(** The first ISP that is added with a name stays until it is removed. *)
Definition spec_exec (M : gmap text (ISP (D := D))) (o : manager_op) : gmap text ISP :=
  match o with
  | AddISP name i => match M !! name with Some _ => M | None => <[name := i]> M end
  | RemoveISP name => delete name M
  end.
Definition manages (M : gmap text ISP) (s : ISPManager (D := D)) : Prop :=
  manager_inv s ∧ ∀ name, M !! name = (getISP name s ≫= λ a, isps s !! a).

Lemma getISP_live (s : ISPManager (D := D)) name a : manager_inv s → getISP name s = Some a → ∃ i, isps s !! a = Some i.
Proof.
  intros [I1 I2 I3] E. apply I2. apply list_elem_of_fmap. exists (name, a). split; [done|]. by apply (map_find_elem text_ltb).
Qed.
Lemma getISP_inj (s : ISPManager (D := D)) n n' a : manager_inv s → getISP n s = Some a → getISP n' s = Some a → n = n'.
Proof.
  intros [I1 I2 I3] E%(map_find_elem text_ltb) E'%(map_find_elem text_ltb); [|done..].
  apply list_elem_of_lookup in E as [i Ei], E' as [j Ej].
  assert (i = j) as -> by (eapply (NoDup_lookup _ _ _ a I3); by rewrite list_lookup_fmap, ?Ei, ?Ej). congruence.
Qed.

Lemma manager_exec_Ok M s o : manages M s → ∃ s', manager_exec o s = Ok s' ∧ manages (spec_exec M o) s'.
Proof.
  intros [HI HM]. destruct o as [name i|name]; cbn [manager_exec spec_exec].
  - pose proof (manager_addISP_Ok new_addr new_addr_fresh name i s HI) as HA. rewrite HM. destruct (getISP name s) as [a|] eqn:E.
    + rewrite HA. exists s. split; [done|]. destruct (getISP_live s name a HI E) as [j Ej]. cbn. by rewrite Ej.
    + destruct HA as (a & s' & -> & Ea & ES & HI' & HG). exists s'. split; [done|]. cbn [mbind option_bind]. split; [done|]. intros n. rewrite HG. case_decide as Hn.
      * subst n. cbn. by rewrite ES, !lookup_insert_eq.
      * rewrite lookup_insert_ne, HM by congruence. destruct (getISP n s) as [b|] eqn:Eb; [|done]. cbn. rewrite ES, lookup_insert_ne; [done|].
        intros ->. destruct (getISP_live s n b HI Eb) as [j Ej]. congruence.
  - pose proof (manager_removeISP_Ok name s HI) as HR. destruct (getISP name s) as [a|] eqn:E.
    + destruct HR as (s' & -> & ES & HI' & HG). exists s'. split; [done|]. split; [done|]. intros n. rewrite HG. case_decide as Hn.
      * subst n. by rewrite lookup_delete_eq.
      * rewrite lookup_delete_ne, HM by congruence. destruct (getISP n s) as [b|] eqn:Eb; [|done]. cbn. rewrite ES, lookup_delete_ne; [done|].
        intros ->. by apply Hn, (getISP_inj s n name b HI).
    + rewrite HR. exists s. split; [done|]. split; [done|]. intros n. destruct (decide (n = name)) as [->|Hn]; [by rewrite lookup_delete_eq, E|].
      by rewrite lookup_delete_ne.
Qed.

(** [ISPManager] refines a finite map from names to ISPs for every sequence of calls, and its
    destructor frees every ISP once. *)
Theorem isp_manager_refines ops : ∃ s, ofold manager_exec ops ISPManager_new = Ok s ∧ manages (foldl spec_exec ∅ ops) s ∧
  ∃ s', ISPManager_destroy s = Ok (tt, s') ∧ isps s' = ∅.
Proof.
  assert (HG : ∀ ops M s, manages M s → ∃ s', ofold manager_exec ops s = Ok s' ∧ manages (foldl spec_exec M ops) s').
  { intros l. induction l as [|o l IH]; intros M s HM; [by exists s|]. destruct (manager_exec_Ok M s o HM) as (s1 & E1 & HM1).
    destruct (IH _ _ HM1) as (s2 & E2 & HM2). exists s2. cbn. by rewrite E1. }
  destruct (HG ops ∅ ISPManager_new) as (s & E & HM).
  - split; [apply isp_manager_new_inv|]. intros n. by rewrite lookup_empty.
  - exists s. split_and!; [done..|]. destruct (manager_destroy_Ok s (proj1 HM)) as (s' & E' & Hs & _). by exists s'.
Qed.
End manager.

(** ** Selection by location *)
Section selection.
Context {D : Type} `{PrefixTable Z D} `{!PrefixTableLaws Z D}.
Variable getIPAddress : peer_ptr → IPPrefix.

(** The shares leave room: the second number is defined and fits whatever the first loop
    selected. *)
Definition quotas (c : ClientSelection (D := D)) (num_to_select num_prefilled n1 : Z) (n2 : Z → Z) : Prop :=
  num_intra_pid c num_to_select = Ok n1 ∧ (0 ≤ n1 ≤ num_to_select)%Z ∧
  ∀ k, (0 ≤ k ≤ n1)%Z → num_intra_isp c num_to_select num_prefilled (num_prefilled + k) = Ok (n2 k) ∧ (0 ≤ n2 k ∧ k + n2 k ≤ num_to_select)%Z.

(** C28. [selectPeers] for a client in its home ISP with enough candidates: it returns 0 and
    appends different candidates, at most as many as were asked for: of the own PID as many
    as the first share allows, of the own ISP as many as the second share still allows, and
    the rest from elsewhere, each group as far as it has peers. *)
Theorem client_selection (c : ClientSelection) m fam C candidates num out n1 n2 rs : m_pidmap c = Some m → pt_holds fam C (m_trie m) →
  (0 ≤ m_self_pid c < m_intra_isp_pids c)%Z → candidates ≠ [] → NoDup candidates → Forall (reachable_peer getIPAddress fam) candidates →
  (0 ≤ num ≤ Z.of_nat (length candidates))%Z → (Z.of_nat (length out + length candidates) < 2 ^ 32)%Z →
  quotas c num (Z.of_nat (length out)) n1 n2 → rand_ok rs → length candidates ≤ length rs →
  ∃ a b e la lb le, selectPeers getIPAddress c candidates num out rs = Ok (0%Z, out ++ a ++ b ++ e) ∧ NoDup (a ++ b ++ e) ∧
    (la ++ lb ++ le ≡ₚ candidates ∧ a ⊆ la ∧ b ⊆ lb ∧ e ⊆ le) ∧
    Forall (own_pid getIPAddress fam (m_self_pid c) C) la ∧ Forall (own_isp getIPAddress fam (m_self_pid c) (m_intra_isp_pids c) C) lb ∧
    Forall (elsewhere getIPAddress fam (m_self_pid c) (m_intra_isp_pids c) C) le ∧
    Z.of_nat (length a) = Z.min n1 (Z.of_nat (length la)) ∧
    Z.of_nat (length b) = Z.min (n2 (Z.of_nat (length a))) (Z.of_nat (length lb)) ∧
    Z.of_nat (length e) = Z.min (num - Z.of_nat (length a + length b)) (Z.of_nat (length le)).
Proof.
  intros Em HT Hs Hc ND HP Hn HB (Q1 & Q2 & Q3) HR HL. unfold selectPeers. rewrite Em.
  replace ((m_self_pid c <? 0)%Z || (m_intra_isp_pids c <=? m_self_pid c)%Z) with false by lia. rewrite bool_decide_eq_false_2 by done. cbn [orb].
  replace (Z.of_nat (length candidates) <? num)%Z with false by lia. rewrite u32_small by lia.
  destruct (group_peers_Ok getIPAddress fam (m_self_pid c) (m_intra_isp_pids c) C candidates m rs HT HP) as (la & lb & le & m' & EG & HPm & HA & HBb & HE).
  pose proof (Permutation_length HPm) as HLen. rewrite !length_app in HLen.
  rewrite (st_bind_Ok _ _ _ _ _ EG), st_lift_bind, Q1.
  destruct (pick_peers_Ok n1 (length la) 0 la out m' rs) as (a & ra & rs1 & E1 & P1 & N1 & R1 & L1); [lia..|done|lia|lia|].
  rewrite (st_bind_Ok _ _ _ _ _ E1), st_lift_bind. rewrite length_app, Nat2Z.inj_add.
  destruct (Q3 (Z.of_nat (length a)) ltac:(lia)) as (-> & Q4 & Q5). set (k2 := n2 (Z.of_nat (length a))) in *.
  destruct (pick_peers_Ok k2 (length lb) 0 lb (out ++ a) m' rs1) as (b & rb & rs2 & E2 & P2 & N2 & R2 & L2); [lia..|done|lia|lia|].
  rewrite (st_bind_Ok _ _ _ _ _ E2).
  assert (E3 : num_external num (Z.of_nat (length out)) (Z.of_nat (length ((out ++ a) ++ b))) = (num - Z.of_nat (length a + length b))%Z)
    by (unfold num_external, u64; rewrite !length_app, (u32_small (num + _)), Z.mod_small, u32_small by lia; lia).
  rewrite E3. destruct (pick_peers_Ok (num - Z.of_nat (length a + length b)) (length le) 0 le ((out ++ a) ++ b) m' rs2)
    as (e & re & rs3 & E4 & P3 & N3 & R3 & L3); [lia..|done|lia|lia|].
  rewrite E4. exists a, b, e, la, lb, le. cbn [mbind outcome_bind]. rewrite <- !app_assoc.
  assert (HPP : (a ++ b ++ e) ++ (ra ++ rb ++ re) ≡ₚ candidates) by (rewrite <- HPm, <- P1, <- P2, <- P3; solve_Permutation).
  rewrite <- HPP in ND. apply NoDup_app in ND as (ND & _ & _).
  split_and!; [done..| | | | | | | |lia|lia|lia]; try done; intros x Hx; [rewrite <- P1|rewrite <- P2|rewrite <- P3]; by apply elem_of_app; left.
Qed.

(** C37. [selectPeers] of a client in its home ISP with fewer candidates than were asked
    for: all candidates are appended, but the function does not return then.  It goes on
    with as many of the candidates in the PID of the client as the first share allows, [k]
    of them; then either the second share, computed from the size of the vector so far, is
    out of the range of [unsigned int], which is undefined, or the call returns 0 and at
    least [k] candidates are in the vector twice. *)
Theorem client_selects_twice (c : ClientSelection) m fam C candidates num out n1 rs :
  m_pidmap c = Some m → pt_holds fam C (m_trie m) →
  (0 ≤ m_self_pid c < m_intra_isp_pids c)%Z → candidates ≠ [] → Forall (reachable_peer getIPAddress fam) candidates →
  (Z.of_nat (length candidates) < num)%Z → (Z.of_nat (length out + length candidates) < 2 ^ 32)%Z →
  num_intra_pid c num = Ok n1 → rand_ok rs → length candidates ≤ length rs →
  ∃ own others, own ++ others ≡ₚ candidates ∧ Forall (own_pid getIPAddress fam (m_self_pid c) C) own ∧
    Forall (λ p, ¬ own_pid getIPAddress fam (m_self_pid c) C p) others ∧
    let k := Z.max 0 (Z.min n1 (Z.of_nat (length own))) in
    match num_intra_isp c num (Z.of_nat (length out)) (Z.of_nat (length out + length candidates) + k) with
    | Fault e => selectPeers getIPAddress c candidates num out rs = Fault e
    | Ok _ => ∃ again more, selectPeers getIPAddress c candidates num out rs = Ok (0%Z, out ++ candidates ++ again ++ more) ∧
        Z.of_nat (length again) = k ∧ again ⊆+ own ∧ more ⊆+ others
    end.
Proof.
  intros Em HT Hs Hc HP Hn HB Q1 HR HL. unfold selectPeers. rewrite Em.
  replace ((m_self_pid c <? 0)%Z || (m_intra_isp_pids c <=? m_self_pid c)%Z) with false by lia.
  rewrite bool_decide_eq_false_2 by done. cbn [orb].
  replace (Z.of_nat (length candidates) <? num)%Z with true by lia. rewrite u32_small by lia.
  destruct (group_peers_Ok getIPAddress fam (m_self_pid c) (m_intra_isp_pids c) C candidates m rs HT HP) as (la & lb & le & m' & EG & HPm & HA & HBb & HE).
  pose proof (Permutation_length HPm) as HLen. rewrite !length_app in HLen.
  exists la, (lb ++ le). split_and!; [done|done| |].
  { apply Forall_app. split; (eapply Forall_impl; [eassumption|]); intros p (q & Hq & Hne & _) Hown;
      by apply Hne, (pid_of_unique getIPAddress fam C p). }
  rewrite (st_bind_Ok _ _ _ _ _ EG), st_lift_bind, Q1.
  destruct (pick_peers_Ok n1 (length la) 0 la (out ++ candidates) m' rs) as (a & ra & rs1 & E1 & P1 & N1 & R1 & L1); [lia..|done|lia|lia|].
  rewrite Z.sub_0_r in N1. cbv zeta. rewrite <- N1.
  rewrite (st_bind_Ok _ _ _ _ _ E1), st_lift_bind. rewrite !length_app, (Nat2Z.inj_add (_ + _)).
  destruct (num_intra_isp c num _ _) as [n2|e]; [|done].
  destruct (pick_peers_Ok n2 (length lb) 0 lb ((out ++ candidates) ++ a) m' rs1)
    as (b & rb & rs2 & E2 & P2 & N2 & R2 & L2); [lia..|done|lia|lia|].
  rewrite (st_bind_Ok _ _ _ _ _ E2).
  match goal with |- context [pick_peers _ ?n 0 le ?o] =>
    destruct (pick_peers_Ok n (length le) 0 le o m' rs2) as (e & re & rs3 & E4 & P3 & N3 & R3 & L3); [lia..|done|lia|lia|] end.
  rewrite E4. exists a, (b ++ e). cbn [mbind outcome_bind]. rewrite <- !app_assoc. split_and!; [done|done|..].
  - rewrite <- P1. apply submseteq_inserts_r. done.
  - rewrite <- P2, <- P3. apply submseteq_app; by apply submseteq_inserts_r.
Qed.
End selection.

(** A client in the first PID of an ISP with two PIDs, and four peers. *)
Definition demo_addr (p : peer_ptr) : IPPrefix :=
  match p with 1%positive => ip4 10 0 0 5 32 | 2%positive => ip4 10 1 0 5 32 | 3%positive => ip4 10 0 0 6 32 | _ => ip4 11 0 0 1 32 end.
Definition demo_table : gmap (list bool) Z := table 0 demo_pids ∅.
Definition demo_client (isp_pct : double) (m : ISPPIDMap) : ClientSelection (D := PatriciaTrie Z) := MkClient 0 (Some m) 2 2 (dlit 1 2) isp_pct.
Lemma demo_map_exists : ∃ m : ISPPIDMap (D := PatriciaTrie Z), pt_holds AF_INET demo_table (m_trie m).
Proof.
  destruct (law_new (T := Z) (D := PatriciaTrie Z) AF_INET ltac:(by left)) as (d0 & _ & HD).
  destruct (build_Ok AF_INET demo_pids 0 [] 0 ∅ d0 HD demo_pids_usable) as (d & _ & HD'); [rewrite map_size_empty; unfold UINT_MAX; cbn; lia|].
  by exists (MkISPPIDMap None [] d [] 2 0 0 []).
Qed.
Lemma demo_peers_reachable l : Forall (reachable_peer demo_addr AF_INET) l.
Proof.
  apply Forall_forall. intros p _. unfold reachable_peer.
  unfold demo_addr. repeat case_match; (split_and!; [ip4_auto|done|done]).
Qed.
Lemma demo_own : own_pid demo_addr AF_INET 0 demo_table 1%positive.
Proof.
  exists (Some (0%Z, ip4 10 0 0 0 8)). split; [|done]. split_and!; [ip4_auto|done|reflexivity|by exists (drop 8 (ip_key (ip4 10 0 0 5 32)))|].
  change demo_table with (<[ip_key (ip4 10 1 0 0 16) := 1%Z]> (<[ip_key (ip4 10 0 0 0 8) := 0%Z]> ∅) : gmap (list bool) Z).
  intros k v [[<- _]|[_ [[<- _]|[_ HE]]%lookup_insert_Some]]%lookup_insert_Some HP; [exfalso|done|by rewrite lookup_empty in HE].
  apply (bool_decide_eq_false_1 (ip_key (ip4 10 1 0 0 16) `prefix_of` ip_key (ip4 10 0 0 5 32))); [reflexivity|done].
Qed.
Lemma client_selection_witness : ∃ m a b e,
  selectPeers demo_addr (demo_client (dlit 9 10) m) [1; 2; 3; 4]%positive 2 [] [5; 3; 7; 1]%Z = Ok (0%Z, a ++ b ++ e) ∧ NoDup (a ++ b ++ e).
Proof.
  destruct demo_map_exists as (m & HM).
  destruct (client_selection demo_addr (demo_client (dlit 9 10) m) m AF_INET demo_table [1; 2; 3; 4]%positive 2 [] 1 (λ k, 2 - k)%Z [5; 3; 7; 1]%Z)
    as (a & b & e & _ & _ & _ & E & ND & _).
  all: try done.
  - by apply (bool_decide_unpack _).
  - apply demo_peers_reachable.
  - split_and!; [by vm_compute|lia|lia|]. intros k Hk. assert (k = 0 ∨ k = 1)%Z as [->| ->] by lia; (split_and!; [by vm_compute|lia|lia]).
  - unfold rand_ok, RAND_MAX. repeat constructor; lia.
  - by exists m, a, b, e.
Defined.

(** One candidate, in the PID of the client, is selected twice. *)
Lemma client_selects_twice_witness : ∃ m,
  selectPeers demo_addr (demo_client (dlit 8 10) m) [1]%positive 2 [] [5]%Z = Ok (0%Z, [1; 1]%positive).
Proof.
  destruct demo_map_exists as (m & HM). exists m.
  destruct (client_selects_twice demo_addr (demo_client (dlit 8 10) m) m AF_INET demo_table [1]%positive 2 [] 1 [5]%Z)
    as (own & others & HP & _ & HF & H).
  - reflexivity.
  - exact HM.
  - by split.
  - discriminate.
  - apply demo_peers_reachable.
  - done.
  - cbn [length]. lia.
  - vm_compute. reflexivity.
  - unfold rand_ok, RAND_MAX. repeat constructor; lia.
  - done.
  - assert (others = []) as ->.
    { destruct others as [|p l]; [done|exfalso]. apply Forall_cons in HF as [Hp _]. apply Hp.
      assert (p ∈ [1%positive]) as ->%list_elem_of_singleton by (rewrite <- HP; apply elem_of_app; right; left). apply demo_own. }
    rewrite app_nil_r in HP. apply Permutation_singleton_r in HP as ->. cbn [length] in H.
    change (Z.max 0 (Z.min 1 (Z.of_nat 1))) with 1%Z in H.
    match type of H with match ?x with _ => _ end => assert (E : x = Ok 0%Z) by (vm_compute; reflexivity); rewrite E in H end.
    destruct H as (again & more & -> & HL & Hs & Hm).
    destruct again as [|p [|q l]]; cbn in HL; try lia. assert (p = 1%positive) as -> by (apply list_elem_of_singleton, (elem_of_submseteq _ _ _ ltac:(left) Hs)).
    by apply submseteq_nil_r in Hm as ->.
Defined.
