(* ===== verification/GuidanceManager.v ===== *)
(** * Shared guidance matrices (common/cpp/src/lib/peering_guidance_matrix_manager.cpp and
    the guidance part of pgm_selection_manager.cpp)

    [PeeringGuidanceMatrixManager] creates guidance matrices and shares those that do not
    depend on a swarm between their users.  Matrices are grouped by a key (ISP, options and
    address of the optimisation engine) and have a reference count; the one whose count
    drops to zero is deleted.  A container and the matrix it owns are created and deleted
    together: one object of the store [pm_heap] stands for both, at one address. *)
From S2P Require Import Prelude StdMap Double Pid SwarmState KeyOrder Rand IpAddr IspPidMap Heap.
From S2P Require Import PeerDist Guidance SelHelper Selection.

Notation matrix_ptr := positive (only parsing).

Definition ERR_INVALID_GUIDANCE_MATRIX : Z := -103.

Record GuidanceMatrixKey := MkKey {
  k_isp : isp_ptr;
  k_options : PeeringGuidanceMatrixOptions;
  k_addr : text;
  k_port : Z
}.

(** [operator<] of the keys. *)
Definition key_ltb (a b : GuidanceMatrixKey) : bool :=
  if Pos.ltb (k_isp a) (k_isp b) then true
  else if Pos.ltb (k_isp b) (k_isp a) then false
  else if options_ltb (k_options a) (k_options b) then true
  else if options_ltb (k_options b) (k_options a) then false
  else if text_ltb (k_addr a) (k_addr b) then true
  else if text_ltb (k_addr b) (k_addr a) then false
  else if (k_port a <? k_port b)%Z then true
  else if (k_port b <? k_port a)%Z then false
  else false.

(** A container with its matrix. *)
Record MatrixObject := MkMatrixObject {
  mo_isp : isp_ptr;
  mo_addr : text;
  mo_port : Z;
  mo_matrix : PeeringGuidanceMatrix;
  m_refcount : Z
}.

Record PGMManager := MkPGMManager {
  pm_heap : gmap matrix_ptr MatrixObject;
  pm_matrices : list (GuidanceMatrixKey * list matrix_ptr)
}.

Definition PGMManager_new : PGMManager := MkPGMManager ∅ [].

(** The key under which a matrix is kept, from its own properties. *)
Definition key_of (o : MatrixObject) : GuidanceMatrixKey :=
  MkKey (mo_isp o) (g_options (mo_matrix o)) (mo_addr o) (mo_port o).

(** [new GuidanceMatrixContainer (key)]: the matrix without a server is not supported. *)
Definition container_new (key : GuidanceMatrixKey) : outcome MatrixObject :=
  match k_addr key with
  | [] => Fault (Throw "Not currently supported")
  | _ => mret (MkMatrixObject (k_isp key) (k_addr key) (k_port key)
                 (g_setOptions (k_options key) PeeringGuidanceMatrix_new) 1)
  end.

Definition with_count (n : Z) (o : MatrixObject) : MatrixObject :=
  MkMatrixObject (mo_isp o) (mo_addr o) (mo_port o) (mo_matrix o) n.
Definition incRefCount (o : MatrixObject) : MatrixObject := with_count (u32 (m_refcount o + 1)) o.
Definition decRefCount (o : MatrixObject) : MatrixObject := with_count (u32 (m_refcount o - 1)) o.
Definition isReferenced (o : MatrixObject) : bool := (0 <? m_refcount o)%Z.

Definition deref_matrix (p : matrix_ptr) (s : PGMManager) : outcome MatrixObject :=
  from_option_or UB (pm_heap s !! p).

Definition getGuidanceMatrixNoLock (key : GuidanceMatrixKey) (s : PGMManager) : outcome (matrix_ptr * PGMManager) :=
  let matrices := map_insert key_ltb key [] (pm_matrices s) in
  let key_matrices := default [] (map_find key_ltb key matrices) in
  match isSwarmDependent (k_options key), key_matrices with
  | false, p :: _ =>
      o ← deref_matrix p s;
      mret (p, MkPGMManager (<[p := incRefCount o]> (pm_heap s)) matrices)
  | _, _ =>
      o ← container_new key;
      let p := fresh (dom (pm_heap s)) in
      mret (p, MkPGMManager (<[p := o]> (pm_heap s)) (map_set key_ltb key (set_insert Pos.ltb p key_matrices) matrices))
  end.

Definition getGuidanceMatrix := getGuidanceMatrixNoLock.

(** The containers of the key of [matrix], when [matrix] is one of them. *)
Definition managed (p : matrix_ptr) (o : MatrixObject) (s : PGMManager) : option (list matrix_ptr) :=
  match map_find key_ltb (key_of o) (pm_matrices s) with
  | None => None
  | Some key_matrices => if bool_decide (p ∈ key_matrices) then Some key_matrices else None
  end.

Definition releaseGuidanceMatrixNoLock (p : matrix_ptr) (s : PGMManager) : outcome (bool * PGMManager) :=
  o ← deref_matrix p s;
  match managed p o s with
  | None => mret (false, s)
  | Some key_matrices =>
      let o' := decRefCount o in
      if isReferenced o' then mret (true, MkPGMManager (<[p := o']> (pm_heap s)) (pm_matrices s))
      else mret (true, MkPGMManager (delete p (pm_heap s))
                         (map_set key_ltb (key_of o) (set_erase Pos.ltb p key_matrices) (pm_matrices s)))
  end.

Definition addGuidanceMatrixRef (p : matrix_ptr) (s : PGMManager) : outcome (bool * PGMManager) :=
  o ← deref_matrix p s;
  match managed p o s with
  | None => mret (false, s)
  | Some _ => mret (true, MkPGMManager (<[p := incRefCount o]> (pm_heap s)) (pm_matrices s))
  end.

(** [setOptions]: the matrix itself when [operator==] finds no change, NULL when it is not
    managed, else a matrix with the new options. *)
Definition setOptions (p : matrix_ptr) (options : PeeringGuidanceMatrixOptions) (s : PGMManager)
  : outcome (option matrix_ptr * PGMManager) :=
  o ← deref_matrix p s;
  if options_eqb options (g_options (mo_matrix o)) then mret (Some p, s)
  else
    let key := MkKey (mo_isp o) options (mo_addr o) (mo_port o) in
    '(released, s1) ← releaseGuidanceMatrixNoLock p s;
    if (released : bool) then '(q, s2) ← getGuidanceMatrixNoLock key s1; mret (Some q, s2)
    else mret (None, s1).

Section compute.
(** The optimisation engine, the time, and what the matrix reads of the ISPs. *)
Variable aoe : aoe_request → option aoe_reply.
Variable now : Z.
Variable isps : isp_ptr → GuidanceISP.

Definition mgr_compute (p : matrix_ptr) (swarm : option SwarmState) (s : PGMManager) : outcome (Z * PGMManager) :=
  o ← deref_matrix p s;
  match managed p o s with
  | None => mret (ERR_INVALID_GUIDANCE_MATRIX, s)
  | Some _ =>
      let '(code, g) :=
        match swarm with
        | Some state => g_compute_with aoe state now (isps (mo_isp o)) (mo_matrix o)
        | None => g_compute aoe now (isps (mo_isp o)) (mo_matrix o)
        end in
      mret (code, MkPGMManager
        (<[p := MkMatrixObject (mo_isp o) (mo_addr o) (mo_port o) g (m_refcount o)]> (pm_heap s)) (pm_matrices s))
  end.

(** ** The selection manager as a user of guidance *)
Record PGMState := MkPGMState {
  ps_manager : PGMSelectionManager;   (* options and m_guidance; its matrices are those of the store *)
  m_guidance_initialized : bool;
  m_optengine_addr : text;
  m_optengine_port : Z
}.

Definition with_guidance (g : list (isp_ptr * option matrix_ptr)) (st : PGMState) : PGMState :=
  MkPGMState
    (MkPGM (m_guidance_opts_default (ps_manager st)) (m_guidance_opts (ps_manager st)) g (w_matrices (ps_manager st)))
    (m_guidance_initialized st) (m_optengine_addr st) (m_optengine_port st).

(** The manager with the matrices of the store, as [selectPeers] reads it. *)
Definition selection_view (st : PGMState) (s : PGMManager) : PGMSelectionManager :=
  MkPGM (m_guidance_opts_default (ps_manager st)) (m_guidance_opts (ps_manager st)) (m_guidance (ps_manager st))
    (mo_matrix <$> pm_heap s).

(** [setISPManager]: an empty entry for every ISP. *)
Definition pgm_setISPs (isp_list : list isp_ptr) (st : PGMState) : PGMState :=
  with_guidance (fold_left (λ g isp, map_set Pos.ltb isp None g) isp_list (m_guidance (ps_manager st))) st.

Definition computeGuidanceInternal (isp : isp_ptr) (w : World) (st : PGMState) (s : PGMManager)
  : outcome (Z * PGMState * PGMManager) :=
  let options := getConfiguredOptions isp (ps_manager st) in
  match map_find Pos.ltb isp (m_guidance (ps_manager st)) with
  | None => Fault (Throw "Illegal state: no guidance matrix map entry exists for desired ISP")
  | Some entry =>
      '(matrix, s1) ←
        match entry with
        | None => '(p, s1) ← getGuidanceMatrix (MkKey isp options (m_optengine_addr st) (m_optengine_port st)) s; mret (Some p, s1)
        | Some p => setOptions p options s
        end;
      let st1 := with_guidance (map_set Pos.ltb isp matrix (m_guidance (ps_manager st))) st in
      p ← from_option_or UB matrix;
      o ← deref_matrix p s1;
      if isSwarmDependent (g_options (mo_matrix o)) then
        let swarm_state := getSwarmState (mo_isp o) w in
        if (ss_getNumPIDs swarm_state =? 0)%Z then mret (ERR_GUIDANCE_UNAVAILABLE, st1, s1)
        else '(rc, s2) ← mgr_compute p (Some swarm_state) s1; mret (rc, st1, s2)
      else '(rc, s2) ← mgr_compute p None s1; mret (rc, st1, s2)
  end.

Definition computeGuidance (w : World) (st : PGMState) (s : PGMManager) : outcome (PGMState * PGMManager) :=
  ofold (λ isp '(st, s), '(_, st', s') ← computeGuidanceInternal isp w st s; mret (st', s'))
    (m_guidance (ps_manager st)).*1 (st, s).

Definition initGuidance (addr : text) (port : Z) (w : World) (st : PGMState) (s : PGMManager)
  : outcome (bool * PGMState * PGMManager) :=
  if m_guidance_initialized st then mret (false, st, s)
  else '(st', s') ← computeGuidance w (MkPGMState (ps_manager st) true addr port) s; mret (true, st', s').
End compute.

(** [getGuidanceMatrix (isp)] of the selection manager: one more reference. *)
Definition pgm_getGuidanceMatrix (isp : isp_ptr) (st : PGMState) (s : PGMManager)
  : outcome (option matrix_ptr * PGMManager) :=
  match map_find Pos.ltb isp (m_guidance (ps_manager st)) with
  | None | Some None => mret (None, s)
  | Some (Some p) =>
      '(ok, s') ← addGuidanceMatrixRef p s;
      if (ok : bool) then mret (Some p, s')
      else Fault (Throw "Illegal state: failed to increment reference count for guidance matrix")
  end.

(** The destructor releases every entry; releasing an empty one reads through NULL. *)
Definition PGMSelectionManager_delete (st : PGMState) (s : PGMManager) : outcome PGMManager :=
  ofold (λ e s, p ← from_option_or UB e.2; '(_, s') ← releaseGuidanceMatrixNoLock p s; mret s')
    (m_guidance (ps_manager st)) s.
