(* ===== verification/GuidanceManagerSpec.v ===== *)
(** * Reference counts of guidance matrices

    The manager is specified against the list of the references that its users hold, with
    repetitions: the reference count of a matrix is the number of its references, a matrix
    is there as long as it is referenced, and matrices that do not depend on a swarm are
    shared.  Options without NaNs are keys of an ordered map (KeyOrder.v). *)
From S2P Require Import Prelude StdMap Double Pid SwarmState KeyOrder Rand IpAddr IspPidMap Heap.
From S2P Require Import PeerDist Guidance SelHelper Selection GuidanceManager.

(** ** Canonical keys *)
Record options_ok (o : PeeringGuidanceMatrixOptions) : Prop := {
  ok_factor : isnan (m_overload_protection_factor o) = false;
  ok_rate : isnan (m_streamingdependent_channelrate o) = false;
  ok_intrapid : isnan (m_intrapid_pct o) = false;
  ok_intraisp : isnan (m_intraisp_pct o) = false
}.

Notation fk := (Z * (Z * Z))%type.
Notation ck_options := (Z * (bool * (fk * (fk * (fk * fk)))))%type.
Notation ck := (positive * (ck_options * (text * Z)))%type.

Definition options_key (o : PeeringGuidanceMatrixOptions) : ck_options :=
  (opt_rank (m_opttype o), (m_matching_uses_swarm_state o, (fkey (m_overload_protection_factor o),
    (fkey (m_streamingdependent_channelrate o), (fkey (m_intrapid_pct o), fkey (m_intraisp_pct o)))))).
Definition options_key_ltb : ck_options → ck_options → bool :=
  lex_ltb Z.ltb (lex_ltb bool_ltb (lex_ltb fkey_ltb (lex_ltb fkey_ltb (lex_ltb fkey_ltb fkey_ltb)))).

Definition full_key (k : GuidanceMatrixKey) : ck := (k_isp k, (options_key (k_options k), (k_addr k, k_port k))).
Definition full_key_ltb : ck → ck → bool := lex_ltb Pos.ltb (lex_ltb options_key_ltb (lex_ltb text_ltb Z.ltb)).

#[global] Instance fkey_order : StrictTotal fkey_ltb.
Proof. unfold fkey_ltb. apply _. Qed.
#[global] Instance full_key_order : StrictTotal full_key_ltb.
Proof. unfold full_key_ltb, options_key_ltb. apply _. Qed.

Lemma options_lt_key a b : options_ok a → options_ok b → options_ltb a b = options_key_ltb (options_key a) (options_key b).
Proof.
  intros [A1 A2 A3 A4] [B1 B2 B3 B4]. unfold options_ltb, options_key_ltb, options_key, lex_ltb, bool_ltb. cbn [fst snd].
  rewrite !fkey_lt by done. repeat (case_match; cbn; try done).
Qed.

Definition key_ok (k : GuidanceMatrixKey) : Prop := options_ok (k_options k) ∧ k_addr k ≠ [].

Lemma key_lt_full a b : key_ok a → key_ok b → key_ltb a b = full_key_ltb (full_key a) (full_key b).
Proof.
  intros [A _] [B _]. unfold key_ltb. rewrite !options_lt_key by done. unfold full_key_ltb, full_key, lex_ltb. cbn [fst snd].
  repeat (case_match; cbn; try done).
Qed.

(** Options with the same canonical key agree on whether they depend on a swarm. *)
Lemma fkey_positive x y : fkey x = fkey y → isnan x = false → isnan y = false →
  dlt dzero (double_of_float x) = dlt dzero (double_of_float y).
Proof.
  destruct x as [sx|sx| |sx mx ex], y as [sy|sy| |sy my ey]; intros E Hx Hy; try done; try by destruct sx, sy.
  all: try by destruct sx. all: try by destruct sy.
  destruct sx, sy; try done; cbn in E; injection E as E1 E2; try done; by assert (ex = ey) as -> by lia; simplify_eq.
Qed.

Lemma swarm_dependent_key a b : options_ok a → options_ok b → options_key a = options_key b →
  isSwarmDependent a = isSwarmDependent b.
Proof.
  intros A B E. unfold isSwarmDependent. injection E as E1 E2 E3 E4 E5 E6. rewrite E2. f_equal.
  apply fkey_positive; [|apply A|apply B]. by rewrite (surjective_pairing (fkey _)), (surjective_pairing (fkey _).2) in *.
Qed.

(** ** The invariant *)

(** The number of references to [p]. *)
Definition refs (p : matrix_ptr) (holders : list matrix_ptr) : nat := length (filter (λ q, q = p) holders).

Lemma refs_cons p q l : refs p (q :: l) = (if decide (q = p) then 1 else 0) + refs p l.
Proof. unfold refs. rewrite filter_cons. by case_decide. Qed.
Lemma refs_pos p l : 0 < refs p l ↔ p ∈ l.
Proof.
  induction l as [|q l IH]; [cbn; split; [lia|by intros ?%not_elem_of_nil]|]. rewrite refs_cons, elem_of_cons, <- IH.
  case_decide; [subst; split; [by left|lia]|]. split; [by right|]. intros [->|]; [done|lia].
Qed.
Lemma refs_length p l : refs p l ≤ length l.
Proof. apply length_filter. Qed.
#[global] Instance refs_perm p : Proper ((≡ₚ) ==> eq) (refs p).
Proof. intros l1 l2 E. unfold refs. by rewrite E. Qed.

Definition groups (s : PGMManager) : list (ck * list matrix_ptr) := canon full_key (pm_matrices s).
Definition group (k : ck) (s : PGMManager) : option (list matrix_ptr) := map_find full_key_ltb k (groups s).
Definition mkey (o : MatrixObject) : ck := full_key (key_of o).
Definition generic (o : MatrixObject) : Prop := isSwarmDependent (g_options (mo_matrix o)) = false.

Record manager_inv (s : PGMManager) (holders : list matrix_ptr) : Prop := {
  mi_keys : Forall key_ok (pm_matrices s).*1;
  mi_sorted : map_sorted full_key_ltb (groups s);
  mi_group : ∀ k ps, group k s = Some ps → set_sorted Pos.ltb ps ∧
    ∀ p, p ∈ ps ↔ ∃ o, pm_heap s !! p = Some o ∧ mkey o = k;
  mi_objects : ∀ p o, pm_heap s !! p = Some o → key_ok (key_of o) ∧ is_Some (group (mkey o) s);
  mi_refs : ∀ p o, pm_heap s !! p = Some o → m_refcount o = Z.of_nat (refs p holders) ∧ 0 < refs p holders;
  mi_held : ∀ p, p ∈ holders → is_Some (pm_heap s !! p);
  mi_shared : ∀ p q o o', pm_heap s !! p = Some o → pm_heap s !! q = Some o' → mkey o = mkey o' → generic o → p = q;
  mi_rows : ∀ p o, pm_heap s !! p = Some o → ∃ n, guidance_ok n (mo_matrix o)
}.

#[global] Instance manager_inv_perm s : Proper ((≡ₚ) ==> iff) (manager_inv s).
Proof.
  assert (H : ∀ l1 l2, l1 ≡ₚ l2 → manager_inv s l1 → manager_inv s l2).
  { intros l1 l2 E [? ? ? ? R HH ? ?]. split; [assumption..| | |assumption|assumption].
    - intros p o Ho. rewrite <- E. by apply R.
    - intros p Hp. apply HH. by rewrite E. }
  intros l1 l2 E. split; [apply (H _ _ E)|apply (H _ _ (Permutation_sym E))].
Qed.

(** There are fewer references than an [unsigned int] can count. *)
Definition few (holders : list matrix_ptr) : Prop := (Z.of_nat (length holders) < 2 ^ 32 - 1)%Z.

Lemma manager_new_inv : manager_inv PGMManager_new [].
Proof. split; try done; try constructor. by intros p ?%not_elem_of_nil. Qed.

Section lookup.
Context (s : PGMManager) (holders : list matrix_ptr) (I : manager_inv s holders).

Lemma find_group k : key_ok k → map_find key_ltb k (pm_matrices s) = group (full_key k) s.
Proof. intros Hk. apply (map_find_canon key_ltb full_key_ltb full_key key_ok key_lt_full); [done|apply I]. Qed.

Lemma managed_held p o : pm_heap s !! p = Some o → ∃ ps, managed p o s = Some ps ∧ group (mkey o) s = Some ps.
Proof.
  intros Ho. destruct (mi_objects _ _ I _ _ Ho) as [Hk [ps Hps]]. exists ps. split; [|done].
  unfold managed. rewrite find_group by done. fold (mkey o). rewrite Hps. rewrite bool_decide_eq_true_2; [done|].
  apply (mi_group _ _ I _ _ Hps). by exists o.
Qed.
End lookup.

(** A change of one object that keeps its key. *)
Lemma manager_update s holders holders' p o o' : manager_inv s holders → pm_heap s !! p = Some o →
  mkey o' = mkey o → key_ok (key_of o') → isSwarmDependent (g_options (mo_matrix o')) = isSwarmDependent (g_options (mo_matrix o)) →
  (∃ n, guidance_ok n (mo_matrix o')) →
  m_refcount o' = Z.of_nat (refs p holders') → 0 < refs p holders' →
  (∀ q, q ≠ p → refs q holders' = refs q holders) → (∀ q, q ∈ holders' → q ∈ holders ∨ q = p) →
  manager_inv (MkPGMManager (<[p := o']> (pm_heap s)) (pm_matrices s)) holders'.
Proof.
  intros [K S G O R H Sh Rows] Ho Ek Hk Hd Hrow Hr Hp Hq Hin.
  assert (HL : ∀ q o1, <[p := o']> (pm_heap s) !! q = Some o1 → ∃ o2, pm_heap s !! q = Some o2 ∧ mkey o1 = mkey o2 ∧
    (generic o1 ↔ generic o2)).
  { intros q o1 [(<- & <-)|(Hne & E)]%lookup_insert_Some; [by exists o; unfold generic; rewrite Hd|by exists o1]. }
  split; cbn; try done.
  - intros k ps Hg. destruct (G k ps Hg) as [Hs Hm]. split; [done|]. intros q. rewrite Hm. split.
    + intros (o1 & E1 & <-). destruct (decide (q = p)) as [->|Hne].
      * exists o'. rewrite lookup_insert_eq. split; [done|]. congruence.
      * exists o1. by rewrite lookup_insert_ne.
    + intros (o1 & E1 & <-). destruct (HL _ _ E1) as (o2 & E2 & E3 & _). by exists o2.
  - intros q o1 E1. destruct (HL _ _ E1) as (o2 & E2 & E3 & _). unfold group, groups in *. cbn. rewrite E3.
    split; [|by apply (O q)]. apply lookup_insert_Some in E1 as [(<- & <-)|(_ & E1)]; [done|by apply (O q)].
  - intros q o1 [(<- & <-)|(Hne & E)]%lookup_insert_Some; [done|]. rewrite Hq by done. by apply R.
  - intros q Hh. destruct (decide (q = p)) as [->|Hne]; [by rewrite lookup_insert_eq|].
    rewrite lookup_insert_ne by done. destruct (Hin q Hh); [by apply H|done].
  - intros q1 q2 o1 o2 E1 E2 Ek12 Hg. destruct (HL _ _ E1) as (o1' & F1 & K1 & G1), (HL _ _ E2) as (o2' & F2 & K2 & _).
    apply (Sh q1 q2 o1' o2'); [done..|congruence|by apply G1].
  - intros q o1 [(<- & <-)|(_ & E)]%lookup_insert_Some; [done|by apply (Rows q)].
Qed.

Lemma key_of_count n o : key_of (with_count n o) = key_of o.
Proof. done. Qed.

(** The matrix of a pointer. *)
Definition matrix_at (p : matrix_ptr) (s : PGMManager) : option PeeringGuidanceMatrix := mo_matrix <$> pm_heap s !! p.
(** Only [p] is touched. *)
Definition only (p : matrix_ptr) (s s' : PGMManager) : Prop := ∀ q, q ≠ p → pm_heap s' !! q = pm_heap s !! q.

(** The matrices that [h] refers to stay where they are and keep their keys. *)
Definition stable (h : list matrix_ptr) (s s' : PGMManager) : Prop :=
  ∀ q o, q ∈ h → pm_heap s !! q = Some o → ∃ o', pm_heap s' !! q = Some o' ∧ mkey o' = mkey o.

Lemma stable_insert h s p o o' ms : pm_heap s !! p = Some o → mkey o' = mkey o →
  stable h s (MkPGMManager (<[p := o']> (pm_heap s)) ms).
Proof.
  intros Ho Ek q o1 _ E1. cbn. destruct (decide (q = p)) as [->|Hne]; [|rewrite lookup_insert_ne by done; eauto].
  rewrite lookup_insert_eq. exists o'. split; [done|]. congruence.
Qed.

Lemma stable_trans h h' s1 s2 s3 : stable h s1 s2 → stable h' s2 s3 → h ⊆ h' → stable h s1 s3.
Proof. intros A B Hh q o Hq Ho. destruct (A q o Hq Ho) as (o2 & H2 & E2). destruct (B q o2 (Hh _ Hq) H2) as (o3 & H3 & E3).
  exists o3. split; [done|congruence]. Qed.

Lemma addRef_Ok s h p : manager_inv s h → few h → p ∈ h →
  ∃ s', addGuidanceMatrixRef p s = Ok (true, s') ∧ manager_inv s' (p :: h) ∧
    (∀ q, matrix_at q s' = matrix_at q s) ∧ only p s s'.
Proof.
  intros I HB Hp. destruct (mi_held _ _ I _ Hp) as [o Ho]. destruct (managed_held s h I p o Ho) as (ps & Hm & _).
  destruct (mi_refs _ _ I _ _ Ho) as [Hr H0]. pose proof (refs_length p h). unfold few in HB.
  unfold addGuidanceMatrixRef, deref_matrix. rewrite Ho. cbn. rewrite Hm. eexists. split; [done|]. split_and!.
  - eapply manager_update; [exact I|exact Ho|done|apply (mi_objects _ _ I _ _ Ho)|done|apply (mi_rows _ _ I _ _ Ho)|..].
    + unfold incRefCount. cbn [with_count m_refcount]. rewrite Hr, refs_cons, decide_True by done. rewrite u32_small by lia. lia.
    + rewrite refs_cons, decide_True by done. lia.
    + intros q Hq. rewrite refs_cons, decide_False by done. done.
    + intros q [->|Hq]%elem_of_cons; [by right|by left].
  - intros q. unfold matrix_at. cbn. destruct (decide (q = p)) as [->|Hne];
      [by rewrite lookup_insert_eq, Ho|by rewrite lookup_insert_ne].
  - intros q Hne. cbn. by rewrite lookup_insert_ne.
Qed.

(** A new set of pointers for one key. *)
Section regroup.
Context (s : PGMManager) (h : list matrix_ptr) (I : manager_inv s h) (k : GuidanceMatrixKey) (Hk : key_ok k).
Context (heap' : gmap matrix_ptr MatrixObject) (ps : list matrix_ptr).
Let s' := MkPGMManager heap' (map_set key_ltb k ps (pm_matrices s)).

Lemma groups_set : groups s' = map_set full_key_ltb (full_key k) ps (groups s).
Proof. apply (map_set_canon key_ltb full_key_ltb full_key key_ok key_lt_full); [done|apply I]. Qed.
Lemma group_set_eq : group (full_key k) s' = Some ps.
Proof. unfold group. rewrite groups_set. apply map_find_set_eq; [apply _|apply I]. Qed.
Lemma group_set_ne k' : k' ≠ full_key k → group k' s' = group k' s.
Proof. intros Hne. unfold group. rewrite groups_set. apply map_find_set_ne; [apply _|apply I|done]. Qed.
Lemma keys_set : Forall key_ok (pm_matrices s').*1.
Proof. apply map_set_ok; [done|apply I]. Qed.
Lemma sorted_set : map_sorted full_key_ltb (groups s').
Proof. rewrite groups_set. apply map_set_sorted; [apply _|apply I]. Qed.
Lemma group_some k' : is_Some (group k' s) → is_Some (group k' s').
Proof. intros H. destruct (decide (k' = full_key k)) as [->|Hne]; [by rewrite group_set_eq|by rewrite group_set_ne]. Qed.
End regroup.

Lemma release_Ok s h p : manager_inv s (p :: h) → few (p :: h) →
  ∃ s', releaseGuidanceMatrixNoLock p s = Ok (true, s') ∧ manager_inv s' h ∧ stable h s s' ∧
    (p ∈ h → matrix_at p s' = matrix_at p s) ∧ (p ∉ h → pm_heap s' !! p = None).
Proof.
  intros I HB. destruct (mi_held _ _ I p ltac:(left)) as [o Ho]. destruct (managed_held s _ I p o Ho) as (ps & Hm & Hg).
  destruct (mi_refs _ _ I _ _ Ho) as [Hr _]. rewrite refs_cons, decide_True in Hr by done.
  pose proof (refs_length p h). unfold few in HB. cbn in HB. destruct (mi_objects _ _ I _ _ Ho) as [Hk _].
  unfold releaseGuidanceMatrixNoLock, deref_matrix. rewrite Ho. cbn [from_option_or mbind outcome_bind]. rewrite Hm.
  unfold isReferenced, decRefCount. cbn [m_refcount with_count]. rewrite Hr, u32_small by lia.
  destruct (Z.ltb_spec 0 (Z.of_nat (1 + refs p h) - 1)) as [Hpos|Hz].
  - assert (Hin : p ∈ h) by (apply refs_pos; lia). eexists. split; [done|]. split_and!.
    + eapply manager_update; [exact I|exact Ho|done|done|done|apply (mi_rows _ _ I _ _ Ho)|..].
      * cbn. lia.
      * lia.
      * intros q Hq. rewrite refs_cons, decide_False by done. done.
      * intros q Hq. left. by right.
    + by eapply stable_insert.
    + intros _. unfold matrix_at. cbn. by rewrite lookup_insert_eq, Ho.
    + done.
  - assert (Hin : p ∉ h) by (rewrite <- refs_pos; lia). eexists. split; [done|]. split_and!.
    2: { intros q o1 Hq E1. exists o1. cbn. rewrite lookup_delete_ne by (intros ->; done). done. } 2: done. 2: { intros _. apply lookup_delete_eq. }
    assert (HD : ∀ q o1, delete p (pm_heap s) !! q = Some o1 ↔ q ≠ p ∧ pm_heap s !! q = Some o1).
    { intros q o1. rewrite lookup_delete_Some. split; intros [H1 H2]; split; [congruence|exact H2|congruence|exact H2]. }
    destruct (mi_group _ _ I _ _ Hg) as [Hs He].
    split; [by eapply keys_set|by eapply sorted_set|..].
    + intros k qs Hq. destruct (decide (k = full_key (key_of o))) as [->|Hne].
      * rewrite (group_set_eq s (p :: h) I _ Hk) in Hq. injection Hq as <-. split; [by apply (set_erase_sorted Pos.ltb)|].
        intros q. rewrite (set_erase_elem Pos.ltb), He by done. cbn. setoid_rewrite HD.
        split; [intros (H1 & o1 & H2 & H3); exists o1; auto|intros (o1 & (H1 & H2) & H3); split; [exact H1|exists o1; auto]].
      * rewrite (group_set_ne s (p :: h) I _ Hk) in Hq by done. destruct (mi_group _ _ I _ _ Hq) as [Hs' He'].
        split; [done|]. intros q. rewrite He'. cbn. setoid_rewrite HD. split; [|intros (o1 & (_ & E1) & E2); by exists o1].
        intros (o1 & E1 & <-). exists o1. split; [|done]. split; [|done]. intros ->. rewrite Ho in E1. by injection E1 as <-.
    + intros q o1 [Hne E1]%HD. destruct (mi_objects _ _ I _ _ E1) as [K1 G1]. split; [done|]. by eapply group_some.
    + intros q o1 [Hne E1]%HD. pose proof (mi_refs _ _ I _ _ E1) as HR. by rewrite refs_cons, decide_False in HR by done.
    + intros q Hq. cbn. rewrite lookup_delete_ne by (intros ->; done). apply (mi_held _ _ I). by right.
    + intros q1 q2 o1 o2 [_ E1]%HD [_ E2]%HD. by apply (mi_shared _ _ I).
    + intros q o1 [_ E1]%HD. by apply (mi_rows _ _ I q).
Qed.

(** [insert] of an empty set for a new key. *)
Lemma ensure_group s h k : manager_inv s h → key_ok k →
  let s1 := MkPGMManager (pm_heap s) (map_insert key_ltb k [] (pm_matrices s)) in
  manager_inv s1 h ∧ is_Some (group (full_key k) s1).
Proof.
  intros I Hk s1. unfold s1, map_insert. rewrite (find_group s h I) by done.
  destruct (group (full_key k) s) as [ps|] eqn:Hg.
  { destruct s. cbn in *. split; [done|]. rewrite Hg. by eexists. }
  split; [|rewrite (group_set_eq s h I k Hk); by eexists].
  split; [by eapply keys_set|by eapply sorted_set|..]; cbn [pm_heap]; try apply I.
  - intros k' ps Hps. destruct (decide (k' = full_key k)) as [->|Hne].
    + rewrite (group_set_eq s h I k Hk) in Hps. injection Hps as <-. split; [constructor|]. intros p.
      split; [by intros ?%not_elem_of_nil|]. intros (o & Ho & Ek). destruct (mi_objects _ _ I _ _ Ho) as [_ [? G]].
      rewrite Ek in G. congruence.
    + rewrite (group_set_ne s h I k Hk) in Hps by done. by apply (mi_group _ _ I).
  - intros p o Ho. destruct (mi_objects _ _ I _ _ Ho) as [K1 G1]. split; [done|]. by eapply group_some.
Qed.

(** A new object in the group of its key. *)
Lemma new_object s h k ps p o : manager_inv s h → key_ok k → group (full_key k) s = Some ps → pm_heap s !! p = None →
  mkey o = full_key k → key_ok (key_of o) → m_refcount o = 1%Z → (∃ n, guidance_ok n (mo_matrix o)) →
  (generic o → ps = []) →
  manager_inv (MkPGMManager (<[p := o]> (pm_heap s)) (map_set key_ltb k (set_insert Pos.ltb p ps) (pm_matrices s))) (p :: h).
Proof.
  intros I Hk Hg Hp Ho Hko Hr Hrow Hps. destruct (mi_group _ _ I _ _ Hg) as [Hs He].
  assert (Hnp : p ∉ h) by (intros [? ?]%(mi_held _ _ I); congruence).
  assert (HL : ∀ q o1, <[p := o]> (pm_heap s) !! q = Some o1 ↔ q = p ∧ o1 = o ∨ q ≠ p ∧ pm_heap s !! q = Some o1).
  { intros q o1. rewrite lookup_insert_Some. split; intros [[H1 H2]|[H1 H2]]; auto. }
  split; [by eapply keys_set|by eapply sorted_set|..]; cbn [pm_heap].
  - intros k' qs Hq. destruct (decide (k' = full_key k)) as [->|Hne].
    + rewrite (group_set_eq s h I k Hk) in Hq. injection Hq as <-. split; [by apply (set_insert_sorted Pos.ltb)|].
      intros q. rewrite (set_insert_elem Pos.ltb), He. setoid_rewrite HL. split.
      * intros [->|(o1 & E1 & E2)]; [exists o; auto|]. exists o1. split; [right|done]. split; [congruence|done].
      * intros (o1 & [[-> ->]|[H1 H2]] & E2); [by left|]. right. by exists o1.
    + rewrite (group_set_ne s h I k Hk) in Hq by done. destruct (mi_group _ _ I _ _ Hq) as [Hs' He'].
      split; [done|]. intros q. rewrite He'. setoid_rewrite HL. split.
      * intros (o1 & E1 & E2). exists o1. split; [right|done]. split; [congruence|done].
      * intros (o1 & [[-> ->]|[H1 H2]] & E2); [congruence|]. by exists o1.
  - intros q o1 [[-> ->]|[H1 H2]]%HL.
    + rewrite Ho. split; [done|]. rewrite (group_set_eq s h I k Hk). by eexists.
    + destruct (mi_objects _ _ I _ _ H2) as [K1 G1]. split; [done|]. by eapply group_some.
  - intros q o1 [[-> ->]|[H1 H2]]%HL.
    + rewrite refs_cons, decide_True by done. rewrite Hr. assert (refs p h = 0); [|lia].
      destruct (refs p h) eqn:E; [done|]. destruct Hnp. apply refs_pos. lia.
    + rewrite refs_cons, decide_False by done. by apply (mi_refs _ _ I).
  - intros q [->|Hq]%elem_of_cons; [by rewrite lookup_insert_eq|]. destruct (decide (q = p)) as [->|Hne]; [done|].
    rewrite lookup_insert_ne by done. by apply (mi_held _ _ I).
  - intros q1 q2 o1 o2 [[-> ->]|[H1 H2]]%HL [[-> ->]|[H3 H4]]%HL Ek Hgen; [done|..].
    + specialize (Hps Hgen). subst ps. exfalso. apply (not_elem_of_nil q2), He. exists o2. split; [done|congruence].
    + assert (generic o) as Hgo%Hps; [|subst ps; exfalso; apply (not_elem_of_nil q1), He; exists o1; split; [done|congruence]].
      unfold generic in *. rewrite <- Hgen. apply swarm_dependent_key; [apply Hko|apply (mi_objects _ _ I _ _ H2)|].
      exact (eq_sym (f_equal (λ k : ck, k.2.1) Ek)).
    + by apply (mi_shared _ _ I q1 q2 o1 o2).
  - intros q o1 [[-> ->]|[H1 H2]]%HL; [done|by apply (mi_rows _ _ I q)].
Qed.

(** What a request for a matrix with key [k] achieves. *)
Record got (s : PGMManager) (h : list matrix_ptr) (k : GuidanceMatrixKey) (p : matrix_ptr) (s' : PGMManager) : Prop := {
  gt_inv : manager_inv s' (p :: h);
  gt_only : only p s s';
  gt_stable : stable h s s';
  gt_key : ∃ o, pm_heap s' !! p = Some o ∧ mkey o = full_key k;
  gt_new : pm_heap s !! p = None → matrix_at p s' = Some (g_setOptions (k_options k) PeeringGuidanceMatrix_new);
  gt_old : is_Some (pm_heap s !! p) → matrix_at p s' = matrix_at p s ∧ isSwarmDependent (k_options k) = false;
  gt_shared : isSwarmDependent (k_options k) = false → ∀ q o, pm_heap s !! q = Some o → mkey o = full_key k → p = q
}.

(** The object that the constructor of the container makes. *)
Definition fresh_object (k : GuidanceMatrixKey) : MatrixObject :=
  MkMatrixObject (k_isp k) (k_addr k) (k_port k) (g_setOptions (k_options k) PeeringGuidanceMatrix_new) 1.

Lemma container_new_Ok k : key_ok k → container_new k = Ok (fresh_object k) ∧ key_of (fresh_object k) = k.
Proof. intros [_ H]. destruct k as [i o [|c a] n]; [done|]. done. Qed.

Lemma got_new s h k ps p : manager_inv s h → key_ok k → group (full_key k) s = Some ps → pm_heap s !! p = None →
  (isSwarmDependent (k_options k) = false → ps = []) →
  got s h k p (MkPGMManager (<[p := fresh_object k]> (pm_heap s)) (map_set key_ltb k (set_insert Pos.ltb p ps) (pm_matrices s))).
Proof.
  intros I Hk Hg Hp Hgen. destruct (container_new_Ok k Hk) as [_ Ek]. destruct (mi_group _ _ I _ _ Hg) as [_ He]. split.
  - apply (new_object s h k ps p); try done; unfold mkey; rewrite ?Ek; try done.
    exists 0. split; [done|done|]. by intros ? ?%not_elem_of_nil.
  - intros q Hq. cbn. by rewrite lookup_insert_ne.
  - intros q o _ Ho. exists o. cbn. rewrite lookup_insert_ne by congruence. done.
  - exists (fresh_object k). cbn. rewrite lookup_insert_eq. split; [done|]. unfold mkey. by rewrite Ek.
  - intros _. unfold matrix_at. cbn. by rewrite lookup_insert_eq.
  - intros [? ?]. congruence.
  - intros Hd q o E1 E2. exfalso. apply (not_elem_of_nil q). rewrite <- (Hgen Hd). apply He. by exists o.
Qed.

Lemma got_shared s h k p ps o : manager_inv s h → few h → key_ok k → group (full_key k) s = Some (p :: ps) →
  pm_heap s !! p = Some o → isSwarmDependent (k_options k) = false →
  got s h k p (MkPGMManager (<[p := incRefCount o]> (pm_heap s)) (pm_matrices s)).
Proof.
  intros I HB Hk Hg Ho Hd. unfold few in HB. destruct (mi_group _ _ I _ _ Hg) as [_ He].
  destruct (proj1 (He p) ltac:(left)) as (o' & Ho' & Eo). rewrite Ho in Ho'. injection Ho' as <-.
  assert (Hgo : generic o).
  { unfold generic. rewrite <- Hd. apply swarm_dependent_key; [apply (mi_objects _ _ I _ _ Ho)|apply Hk|].
    exact (f_equal (λ k : ck, k.2.1) Eo). }
  destruct (mi_refs _ _ I _ _ Ho) as [Hr H0]. pose proof (refs_length p h). split.
  - apply (manager_update s h (p :: h) p o); [exact I|exact Ho|done|apply (mi_objects _ _ I _ _ Ho)|done|apply (mi_rows _ _ I _ _ Ho)|..].
    + unfold incRefCount. cbn [with_count m_refcount]. rewrite Hr, refs_cons, decide_True by done. rewrite u32_small by lia. lia.
    + rewrite refs_cons, decide_True by done. lia.
    + intros q Hq. rewrite refs_cons, decide_False by done. done.
    + intros q [->|Hq]%elem_of_cons; [by right|by left].
  - intros q Hq. cbn. by rewrite lookup_insert_ne.
  - by eapply stable_insert.
  - exists (incRefCount o). cbn. by rewrite lookup_insert_eq.
  - congruence.
  - intros _. split; [|done]. unfold matrix_at. cbn. by rewrite lookup_insert_eq, Ho.
  - intros _ q o1 E1 E2. apply (mi_shared _ _ I p q o o1); [done|done|congruence|done].
Qed.

Lemma get_Ok s h k : manager_inv s h → few h → key_ok k →
  ∃ p s', getGuidanceMatrixNoLock k s = Ok (p, s') ∧ got s h k p s'.
Proof.
  intros I0 HB Hk. destruct (ensure_group s h k I0 Hk) as [I [ps Hg]].
  set (s1 := MkPGMManager (pm_heap s) (map_insert key_ltb k [] (pm_matrices s))) in *.
  assert (Hfind : map_find key_ltb k (map_insert key_ltb k [] (pm_matrices s)) = Some ps)
    by (rewrite <- Hg; apply (find_group s1 h I k Hk)).
  unfold getGuidanceMatrixNoLock. rewrite Hfind. cbn [default]. unfold id.
  rewrite (proj1 (container_new_Ok k Hk)). cbn [mbind outcome_bind mret outcome_ret].
  assert (Hfresh : pm_heap s1 !! fresh (dom (pm_heap s)) = None) by (apply not_elem_of_dom, is_fresh).
  assert (Hgot : ∀ p s', got s1 h k p s' → got s h k p s') by (by intros p s' []; split).
  destruct (isSwarmDependent (k_options k)) eqn:Hd; [|destruct ps as [|p ps]].
  - do 2 eexists. split; [done|]. apply Hgot, (got_new s1 h k ps); [done|done|done|done|congruence].
  - do 2 eexists. split; [done|]. by apply Hgot, (got_new s1 h k []).
  - destruct (proj1 (proj2 (mi_group _ _ I _ _ Hg) p) ltac:(left)) as (o & Ho & _). cbn in Ho. unfold deref_matrix. rewrite Ho.
    do 2 eexists. split; [done|]. by apply Hgot, (got_shared s1 h k p ps o).
Qed.

(** [setOptions] keeps a matrix whose options are equal, and otherwise trades the reference
    for one to a matrix with the new options. *)
Lemma setOptions_Ok s h p o options : manager_inv s (p :: h) → few (p :: h) → options_ok options →
  pm_heap s !! p = Some o →
  ∃ q s', setOptions p options s = Ok (Some q, s') ∧ manager_inv s' (q :: h) ∧
    (options_eqb options (g_options (mo_matrix o)) = true ∧ q = p ∧ s' = s ∨
     options_eqb options (g_options (mo_matrix o)) = false ∧
     ∃ o', pm_heap s' !! q = Some o' ∧ mkey o' = full_key (MkKey (mo_isp o) options (mo_addr o) (mo_port o))) ∧
    stable h s s'.
Proof.
  intros I HB Hok Ho. unfold setOptions, deref_matrix. rewrite Ho. cbn [from_option_or mbind outcome_bind].
  destruct (options_eqb _ _); [exists p, s; split_and!; [done|done|by left|by intros q o1 _ E1; exists o1]|].
  destruct (release_Ok s h p I HB) as (s1 & -> & I1 & O1 & _). cbn [mbind outcome_bind].
  destruct (get_Ok s1 h (MkKey (mo_isp o) options (mo_addr o) (mo_port o)) I1) as (q & s2 & -> & G).
  { unfold few in *. cbn in HB. lia. }
  { split; [done|]. apply (mi_objects _ _ I _ _ Ho). }
  exists q, s2. destruct G as [G1 G2 G3 G4 _ _ _]. split_and!; [done|done|right; eauto|]. by eapply stable_trans.
Qed.

Lemma g_compute_any aoe swarm now isp g n : guidance_ok n g →
  let r := match swarm with Some state => g_compute_with aoe state now isp g | None => g_compute aoe now isp g end in
  g_options r.2 = g_options g ∧ ∃ n', guidance_ok n' r.2.
Proof.
  intros G r. subst r. destruct swarm as [state|].
  - unfold g_compute_with. match goal with |- context [g_compute aoe now isp ?g'] => set (g1 := g') end.
    pose proof (g_compute_spec aoe now isp g1) as H. destruct (g_compute aoe now isp g1) as [code g'].
    destruct H as [Ho [->|[_ H]]]; (split; [done|]); [|eauto]. exists n. by destruct G.
  - pose proof (g_compute_spec aoe now isp g) as H. destruct (g_compute aoe now isp g) as [code g'].
    destruct H as [Ho [->|[_ H]]]; (split; [done|]); eauto.
Qed.

Lemma mgr_compute_Ok aoe now isps s h p swarm : manager_inv s h → p ∈ h →
  ∃ code s', mgr_compute aoe now isps p swarm s = Ok (code, s') ∧ manager_inv s' h ∧ stable h s s'.
Proof.
  intros I Hp. destruct (mi_held _ _ I _ Hp) as [o Ho]. destruct (managed_held s h I p o Ho) as (ps & Hm & _).
  unfold mgr_compute, deref_matrix. rewrite Ho. cbn [from_option_or mbind outcome_bind]. rewrite Hm.
  destruct (mi_rows _ _ I _ _ Ho) as [n G]. pose proof (g_compute_any aoe swarm now (isps (mo_isp o)) _ n G) as HC.
  destruct (match swarm with Some _ => _ | None => _ end) as [code g]. destruct HC as [HO HR]. cbn in HO, HR.
  do 2 eexists. split; [done|]. destruct (mi_refs _ _ I _ _ Ho). destruct (mi_objects _ _ I _ _ Ho) as [Hk _]. split_and!.
  - eapply manager_update; [exact I|exact Ho|..]; unfold mkey, full_key, key_of, key_ok in *; cbn in *; rewrite ?HO; try done. auto.
  - eapply stable_insert; [exact Ho|]. unfold mkey, full_key, key_of. cbn. by rewrite HO.
Qed.

(** ** Selection managers *)
Definition holdings (g : list (isp_ptr * option matrix_ptr)) : list matrix_ptr := omap snd g.

Lemma holdings_set isp e e' g : map_sorted Pos.ltb g → map_find Pos.ltb isp g = Some e →
  ∃ rest, holdings g ≡ₚ option_list e ++ rest ∧ holdings (map_set Pos.ltb isp e' g) ≡ₚ option_list e' ++ rest ∧
    ∀ isp' q, isp' ≠ isp → (isp', Some q) ∈ g → q ∈ rest.
Proof.
  induction g as [|[i x] g IH]; intros HS Hf; [done|]. apply (sorted_lt Pos.ltb) in HS as [HS HL]. cbn in Hf |- *.
  destruct (Pos.ltb i isp) eqn:E1; [|destruct (Pos.ltb isp i) eqn:E2; [done|]].
  - destruct (IH HS Hf) as (rest & P1 & P2 & P3). exists (option_list x ++ rest). split_and!.
    3: { intros isp' q Hne [[= -> <-]|Hq]%elem_of_cons; [left|]. apply elem_of_app. right. by eapply P3. }
    all: unfold holdings in *; cbn; destruct x as [y|]; cbn; rewrite ?P1, ?P2; try done; by rewrite Permutation_middle.
  - injection Hf as <-. exists (holdings g). split_and!; [by destruct x|by destruct e'|].
    intros isp' q Hne [[= -> _]|Hq]%elem_of_cons; [by destruct Hne; apply (lt_total (ltb := Pos.ltb))|].
    apply list_elem_of_omap. by exists (isp', Some q).
Qed.

Definition isp_of (p : matrix_ptr) (s : PGMManager) : option isp_ptr := mo_isp <$> pm_heap s !! p.

Record pgm_inv (st : PGMState) (s : PGMManager) (others : list matrix_ptr) : Prop := {
  pi_sorted : map_sorted Pos.ltb (m_guidance (ps_manager st));
  pi_manager : manager_inv s (holdings (m_guidance (ps_manager st)) ++ others);
  pi_options : ∀ isp, options_ok (getConfiguredOptions isp (ps_manager st));
  pi_addr : m_optengine_addr st ≠ [];
  pi_isp : ∀ isp p, (isp, Some p) ∈ m_guidance (ps_manager st) → isp_of p s = Some isp
}.

(** The references of all users are few. *)
Definition pgm_few (st : PGMState) (others : list matrix_ptr) : Prop :=
  (Z.of_nat (length (m_guidance (ps_manager st)) + length others) < 2 ^ 32 - 2)%Z.

Lemma holdings_length g : length (holdings g) ≤ length g.
Proof. induction g as [|[i [p|]] g IH]; cbn; unfold holdings in *; cbn in *; lia. Qed.

Lemma stable_isp h s s' p : stable h s s' → p ∈ h → is_Some (pm_heap s !! p) → isp_of p s' = isp_of p s.
Proof.
  intros H Hp [o Ho]. destruct (H p o Hp Ho) as (o' & Ho' & E). unfold isp_of. rewrite Ho, Ho'. cbn. f_equal.
  exact (f_equal fst E).
Qed.

(** The matrix of an ISP before it is computed: an existing one with the configured options
    or a new one. *)
Lemma obtain_Ok st s others isp e rest : pgm_inv st s others → pgm_few st others →
  map_find Pos.ltb isp (m_guidance (ps_manager st)) = Some e →
  holdings (m_guidance (ps_manager st)) ≡ₚ option_list e ++ rest →
  let options := getConfiguredOptions isp (ps_manager st) in
  ∃ p s1, (match e with
        | None => '(p, s1) ← getGuidanceMatrix (MkKey isp options (m_optengine_addr st) (m_optengine_port st)) s; mret (Some p, s1)
        | Some p => setOptions p options s
        end) = Ok (Some p, s1) ∧ manager_inv s1 (p :: rest ++ others) ∧
    isp_of p s1 = Some isp ∧ stable (rest ++ others) s s1.
Proof.
  intros [S I HO HA HI] HB Hf HP options. pose proof (holdings_length (m_guidance (ps_manager st))) as HL.
  apply Permutation_length in HP as HPL. rewrite length_app in HPL. unfold pgm_few in HB.
  rewrite HP, <- app_assoc in I. destruct e as [p|]; cbn [option_list app length] in *.
  - destruct (mi_held _ _ I p ltac:(left)) as [o Ho].
    assert (Hisp : isp_of p s = Some isp) by (by apply HI, (map_find_elem Pos.ltb)).
    unfold isp_of in Hisp. rewrite Ho in Hisp. cbn in Hisp. injection Hisp as Hisp.
    destruct (setOptions_Ok s (rest ++ others) p o options I) as (q & s1 & E & I1 & HQ & HS);
      [unfold few; cbn; rewrite length_app; lia|apply HO|done|].
    exists q, s1. split_and!; [done|done| |done]. unfold isp_of.
    destruct HQ as [(_ & -> & ->)|(_ & o' & -> & Ek)]; [rewrite Ho|]; cbn; f_equal; [done|].
    rewrite <- Hisp. exact (f_equal fst Ek).
  - unfold getGuidanceMatrix. destruct (get_Ok s (rest ++ others) (MkKey isp options (m_optengine_addr st) (m_optengine_port st)) I)
      as (p & s1 & -> & [G1 _ G3 (o & Ho & Ek) _ _ _]); [unfold few; rewrite length_app; lia|by split; [apply HO|]|].
    exists p, s1. split_and!; [done|done| |done]. unfold isp_of. rewrite Ho. cbn. f_equal. exact (f_equal fst Ek).
Qed.

Lemma computeGuidanceInternal_Ok aoe now isps isp w st s others e : pgm_inv st s others → pgm_few st others →
  map_find Pos.ltb isp (m_guidance (ps_manager st)) = Some e →
  ∃ code st' s' p, computeGuidanceInternal aoe now isps isp w st s = Ok (code, st', s') ∧ pgm_inv st' s' others ∧
    st' = with_guidance (map_set Pos.ltb isp (Some p) (m_guidance (ps_manager st))) st.
Proof.
  intros P HB Hf. pose proof P as [S I HO HA HI].
  destruct (holdings_set isp e None _ S Hf) as (rest & HP & _ & HQ).
  destruct (obtain_Ok st s others isp e rest P HB Hf HP) as (p & s1 & E & I1 & Hisp & HS1).
  unfold computeGuidanceInternal. rewrite Hf, E. cbn [mbind outcome_bind from_option_or].
  destruct (mi_held _ _ I1 p ltac:(left)) as [o Ho]. unfold deref_matrix. rewrite Ho. cbn [from_option_or mbind outcome_bind].
  assert (HK : ∀ s2, manager_inv s2 (p :: rest ++ others) → stable (p :: rest ++ others) s1 s2 →
    pgm_inv (with_guidance (map_set Pos.ltb isp (Some p) (m_guidance (ps_manager st))) st) s2 others).
  { intros s2 I2 HS2. destruct (holdings_set isp e (Some p) _ S Hf) as (rest' & HP' & HP'' & _).
    assert (Hr : rest' ≡ₚ rest) by (apply (Permutation_app_inv_l (option_list e)); by rewrite <- HP', <- HP).
    split; cbn [with_guidance ps_manager m_guidance m_optengine_addr]; try done.
    - by apply (map_set_sorted Pos.ltb).
    - by rewrite HP'', Hr.
    - intros isp' q Hq. apply (map_find_elem Pos.ltb) in Hq; [|by apply (map_set_sorted Pos.ltb)].
      destruct (decide (isp' = isp)) as [->|Hne].
      + rewrite (map_find_set_eq Pos.ltb) in Hq by done. injection Hq as <-.
        rewrite (stable_isp _ _ _ _ HS2); [done|left|by eexists].
      + rewrite (map_find_set_ne Pos.ltb) in Hq by done. apply (map_find_elem Pos.ltb) in Hq; [|done].
        assert (q ∈ rest ++ others) by (apply elem_of_app; left; by eapply HQ).
        assert (is_Some (pm_heap s !! q)) by (apply (mi_held _ _ I); rewrite HP, <- app_assoc; apply elem_of_app; by right).
        rewrite (stable_isp _ _ _ _ HS2); [|by right|by apply (mi_held _ _ I1); right].
        rewrite (stable_isp _ _ _ _ HS1) by done. by apply HI. }
  assert (Hc : ∀ swarm, ∃ code s2, mgr_compute aoe now isps p swarm s1 = Ok (code, s2) ∧
    pgm_inv (with_guidance (map_set Pos.ltb isp (Some p) (m_guidance (ps_manager st))) st) s2 others).
  { intros swarm. destruct (mgr_compute_Ok aoe now isps s1 _ p swarm I1 ltac:(left)) as (code & s2 & Ec & I2 & HS2). eauto. }
  destruct (isSwarmDependent (g_options (mo_matrix o))); [destruct (ss_getNumPIDs _ =? 0)%Z|].
  - do 4 eexists. split_and!; [done| |done]. apply HK; [done|]. intros q o1 _ E1. by exists o1.
  - destruct (Hc (Some (getSwarmState (mo_isp o) w))) as (code & s2 & -> & P2). do 4 eexists. by split_and!.
  - destruct (Hc None) as (code & s2 & -> & P2). do 4 eexists. by split_and!.
Qed.

Lemma map_set_present {V} k (v v' : V) m : map_find Pos.ltb k m = Some v → (map_set Pos.ltb k v' m).*1 = m.*1.
Proof.
  induction m as [|[k' x] m IH]; [done|]. cbn. destruct (Pos.ltb k' k) eqn:E1; [intros H; cbn; f_equal; by apply IH|].
  destruct (Pos.ltb k k') eqn:E2; [done|]. done.
Qed.

(** Guidance for every ISP. *)
Lemma computeGuidance_Ok aoe now isps w st s others : pgm_inv st s others → pgm_few st others →
  ∃ st' s', computeGuidance aoe now isps w st s = Ok (st', s') ∧ pgm_inv st' s' others ∧
    (m_guidance (ps_manager st')).*1 = (m_guidance (ps_manager st)).*1 ∧
    ∀ isp, isp ∈ (m_guidance (ps_manager st)).*1 → ∃ p, map_find Pos.ltb isp (m_guidance (ps_manager st')) = Some (Some p).
Proof.
  intros P HB. unfold computeGuidance.
  destruct (ofold_inv (λ seen '(st', s'), pgm_inv st' s' others ∧
      (m_guidance (ps_manager st')).*1 = (m_guidance (ps_manager st)).*1 ∧
      ∀ isp, isp ∈ seen → ∃ p, map_find Pos.ltb isp (m_guidance (ps_manager st')) = Some (Some p))
    (λ isp '(st, s), '(_, st', s') ← computeGuidanceInternal aoe now isps isp w st s; mret (st', s'))
    (m_guidance (ps_manager st)).*1 (st, s)) as ([st' s'] & E & H).
  - split_and!; [done|done|]. by intros isp ?%not_elem_of_nil.
  - intros seen isp [st1 s1] (P1 & K1 & A1) Hin. rewrite <- K1 in Hin.
    apply list_elem_of_fmap in Hin as ([isp' e] & -> & Hin). apply (map_find_elem Pos.ltb) in Hin; [|apply P1]. cbn [fst] in *.
    assert (HB1 : pgm_few st1 others).
    { unfold pgm_few in *. by rewrite <- (length_fmap fst (m_guidance (ps_manager st1))), K1, length_fmap. }
    destruct (computeGuidanceInternal_Ok aoe now isps isp' w st1 s1 others e P1 HB1 Hin) as (code & st2 & s2 & p & -> & P2 & E2).
    exists (st2, s2). split; [done|]. split_and!; [done|..].
    + rewrite E2. cbn. by rewrite (map_set_present _ _ _ _ Hin).
    + intros isp [Hs| ->%list_elem_of_singleton]%elem_of_app; rewrite E2; cbn.
      * destruct (decide (isp = isp')) as [->|Hne]; [exists p; apply (map_find_set_eq Pos.ltb), P1|].
        rewrite (map_find_set_ne Pos.ltb) by (done || apply P1). by apply A1.
      * exists p. apply (map_find_set_eq Pos.ltb), P1.
  - exists st', s'. done.
Qed.

(** The destructor of a manager with guidance for every ISP gives all references back. *)
Lemma delete_Ok st s others : pgm_inv st s others → pgm_few st others →
  Forall (λ e, is_Some e.2) (m_guidance (ps_manager st)) →
  ∃ s', PGMSelectionManager_delete st s = Ok s' ∧ manager_inv s' others.
Proof.
  intros P HB. unfold PGMSelectionManager_delete, pgm_few in *. pose proof (pi_manager _ _ _ P) as I. clear P. revert s I.
  induction (m_guidance (ps_manager st)) as [|[isp e] g IH]; intros s I HF; [by exists s|].
  inversion_clear HF as [|? ? [p Hp] HF']. cbn in Hp. subst e. cbn [ofold snd from_option_or mbind outcome_bind].
  change (holdings ((isp, Some p) :: g)) with (p :: holdings g) in I. cbn [app] in I.
  destruct (release_Ok s (holdings g ++ others) p I) as (s1 & -> & I1 & _).
  { unfold few. cbn. rewrite length_app. pose proof (holdings_length g). cbn in HB. lia. }
  cbn [mbind outcome_bind mret outcome_ret]. apply IH; [|done|done]. cbn in HB. lia.
Qed.

(** Reading the weights of a well-formed matrix: the percentages of the options, or those of
    the row of the PID with its weights, or an error when there is no such row. *)
Lemma getWeights_Ok n g pid : guidance_ok n g →
  if decide (m_opttype (g_options g) = OPT_LOCATION_ONLY)
  then getWeights pid g = Ok (WeightsOk (m_intrapid_pct (g_options g)) (m_intraisp_pct (g_options g)) None)
  else if decide (0 ≤ pid < Z.of_nat (length (g_weights g)))%Z
  then ∃ a b row, vec_at (g_intrapid_pcts g) pid = Some a ∧ vec_at (g_intraisp_pcts g) pid = Some b ∧
    vec_at (g_weights g) pid = Some row ∧ getWeights pid g = Ok (WeightsOk a b (Some row))
  else getWeights pid g = Ok (WeightsError ERR_UNKNOWN_PID).
Proof.
  intros [G1 G2 _]. unfold getWeights. destruct (decide (m_opttype (g_options g) = OPT_LOCATION_ONLY)) as [->|Ht]; [done|].
  destruct (decide _) as [Hp|Hp].
  - destruct (vec_at_lt (g_weights g) pid) as [row Er]; [lia|]. destruct (vec_at_lt (g_intrapid_pcts g) pid) as [x Ex]; [lia|].
    destruct (vec_at_lt (g_intraisp_pcts g) pid) as [y Ey]; [lia|]. exists x, y, row. split_and!; [done..|].
    destruct (m_opttype (g_options g)); [done|..]; by rewrite Er, Ex, Ey.
  - assert (vec_at (g_weights g) pid = None) as ->.
    { destruct (vec_at (g_weights g) pid) eqn:E; [|done]. apply vec_at_Some in E as [? ?%lookup_lt_Some]. lia. }
    by destruct (m_opttype (g_options g)).
Qed.

(** A matrix that does not depend on a swarm, computed anew for pDistances it has not seen:
    every internal PID before the first external one has a row, the one of the reply. *)
Lemma mgr_compute_fresh aoe now isps p s o reply isp holders : manager_inv s holders → pm_heap s !! p = Some o → mo_isp o = isp →
  m_opttype (g_options (mo_matrix o)) ≠ OPT_LOCATION_ONLY → isSwarmDependent (g_options (mo_matrix o)) = false →
  gi_pdist_time (isps isp) ≠ 0%Z → gi_pdist_time (isps isp) ≠ g_last_pdist_time (mo_matrix o) →
  aoe (ReqGeneric (gi_portal (isps isp)) (gi_pids (isps isp))) = Some reply →
  ∃ s' o', mgr_compute aoe now isps p None s = Ok (0%Z, s') ∧ pm_heap s' !! p = Some o' ∧
    ∀ i src, source_pids (gi_pids (isps isp)) !! i = Some src →
      getWeights (Z.of_nat i) (mo_matrix o') = Ok (WeightsOk (get_intrapid src (r_pcts reply)) (get_intradomain src (r_pcts reply))
        (Some (weight_row (r_weights reply) (gi_pids (isps isp)) src))).
Proof.
  intros I Ho <- Ht Hd H0 Hl Ha. destruct (managed_held s holders I p o Ho) as (ps & Hm & _).
  unfold mgr_compute, deref_matrix. rewrite Ho. cbn [from_option_or mbind outcome_bind]. rewrite Hm.
  assert (Hs : m_matching_uses_swarm_state (g_options (mo_matrix o)) = false)
    by (by apply orb_false_iff in Hd as [? _]).
  assert (EC : ∃ g, g_compute aoe now (isps (mo_isp o)) (mo_matrix o) = (0%Z, g) ∧ m_opttype (g_options g) ≠ OPT_LOCATION_ONLY ∧
    g_intrapid_pcts g = (λ p, get_intrapid p (r_pcts reply)) <$> source_pids (gi_pids (isps (mo_isp o))) ∧
    g_intraisp_pcts g = (λ p, get_intradomain p (r_pcts reply)) <$> source_pids (gi_pids (isps (mo_isp o))) ∧
    g_weights g = weight_row (r_weights reply) (gi_pids (isps (mo_isp o))) <$> source_pids (gi_pids (isps (mo_isp o)))).
  { unfold g_compute, guidance_request. rewrite Hd, Hs. cbn [negb andb].
    rewrite (proj2 (Z.eqb_neq (g_last_pdist_time _) (gi_pdist_time _))) by congruence. rewrite andb_false_r.
    rewrite (proj2 (Z.eqb_neq _ _) H0), Ha.
    destruct (m_opttype (g_options (mo_matrix o))) eqn:Eo; [done|..]; (eexists; split; [reflexivity|]); cbn; by rewrite Eo. }
  destruct EC as (g & -> & Htg & E1 & E2 & E3). do 2 eexists. split; [reflexivity|]. cbn [pm_heap]. rewrite lookup_insert_eq.
  split; [reflexivity|]. intros i src Hi. cbn [mo_matrix]. unfold getWeights. rewrite E1, E2, E3.
  rewrite !vec_at_nat, !list_lookup_fmap, Hi. by destruct (m_opttype (g_options g)).
Qed.

Lemma deq_refl x : isnan x = false → deq x x = true.
Proof.
  destruct x as [s|s| |s m e]; intros H; try done; [by destruct s|]. unfold deq, SFeqb. cbn.
  destruct s; rewrite Z.compare_refl; change (Pos.compare_cont Eq m m) with (Pos.compare m m); by rewrite Pos.compare_refl.
Qed.
