(* ===== verification/GuidanceProperties.v ===== *)
(** * Properties of the guidance matrices

    The claims about the manager of shared guidance matrices and the selection managers
    that use it, with their witnesses. *)
From S2P Require Import Prelude StdMap Double Pid SwarmState KeyOrder Rand IpAddr IspPidMap Heap.
From S2P Require Import PeerDist Guidance SelHelper Selection GuidanceManager GuidanceManagerSpec.

(** ** Reachable managers *)

(** A manager with the references that its users hold.  Users release and reconfigure only
    what they hold. *)
Inductive mgr_step : PGMManager * list matrix_ptr → PGMManager * list matrix_ptr → Prop :=
  | mgr_get s h k p s' : few h → key_ok k → getGuidanceMatrix k s = Ok (p, s') → mgr_step (s, h) (s', p :: h)
  | mgr_add s h p b s' : few h → p ∈ h → addGuidanceMatrixRef p s = Ok (b, s') → mgr_step (s, h) (s', p :: h)
  | mgr_release s h h' p b s' : few h → h ≡ₚ p :: h' → releaseGuidanceMatrixNoLock p s = Ok (b, s') →
      mgr_step (s, h) (s', h')
  | mgr_set s h h' p o q s' : few h → h ≡ₚ p :: h' → options_ok o → setOptions p o s = Ok (q, s') →
      mgr_step (s, h) (s', option_list q ++ h')
  | mgr_comp s h aoe now isps swarm p r s' : p ∈ h → mgr_compute aoe now isps p swarm s = Ok (r, s') →
      mgr_step (s, h) (s', h).

Inductive mgr_reachable : PGMManager → list matrix_ptr → Prop :=
  | mgr_init : mgr_reachable PGMManager_new []
  | mgr_next s h s' h' : mgr_reachable s h → mgr_step (s, h) (s', h') → mgr_reachable s' h'.

Lemma mgr_step_inv s h s' h' : manager_inv s h → mgr_step (s, h) (s', h') → manager_inv s' h'.
Proof.
  intros I HS. inversion HS as [? ? k p ? HB Hk E|? ? p b ? HB Hp E|? ? ? p b ? HB HP E|? ? ? p o q ? HB HP Ho E|? ? ? ? ? ? p r ? Hp E];
    subst.
  - destruct (get_Ok s h k I HB Hk) as (p' & s1 & E1 & [I1 _]). unfold getGuidanceMatrix in E. rewrite E1 in E. by injection E as <- <-.
  - destruct (addRef_Ok s h p I HB Hp) as (s1 & E1 & I1 & _). rewrite E1 in E. by injection E as <- <-.
  - rewrite HP in I. unfold few in HB. rewrite (Permutation_length HP) in HB.
    destruct (release_Ok s h' p I HB) as (s1 & E1 & I1 & _). rewrite E1 in E. by injection E as <- <-.
  - rewrite HP in I. unfold few in HB. rewrite (Permutation_length HP) in HB. destruct (mi_held _ _ I p ltac:(left)) as [ob Hob].
    destruct (setOptions_Ok s h'0 p ob o I HB Ho Hob) as (q1 & s1 & E1 & I1 & _). rewrite E1 in E. by injection E as <- <-.
  - destruct (mgr_compute_Ok aoe now isps s h' p swarm I Hp) as (c & s1 & E1 & I1 & _). rewrite E1 in E. by injection E as <- <-.
Qed.

Lemma mgr_reachable_inv s h : mgr_reachable s h → manager_inv s h.
Proof. induction 1; [apply manager_new_inv|by eapply mgr_step_inv]. Qed.

(** C13. In every reachable state a matrix exists exactly as long as somebody holds a
    reference to it, its count is the number of these references, and two matrices that do
    not depend on a swarm have different keys.  Adding and releasing a held reference, and
    requesting a matrix, succeed there; releasing frees the matrix exactly with the last
    reference, and a request for generic guidance returns the existing matrix. *)
Theorem guidance_reference_counts s h : mgr_reachable s h → few h →
  (∀ p, is_Some (pm_heap s !! p) ↔ p ∈ h) ∧
  (∀ p o, pm_heap s !! p = Some o → m_refcount o = Z.of_nat (refs p h)) ∧
  (∀ p q o o', pm_heap s !! p = Some o → pm_heap s !! q = Some o' → generic o → mkey o = mkey o' → p = q) ∧
  (∀ p, p ∈ h → ∃ s', addGuidanceMatrixRef p s = Ok (true, s')) ∧
  (∀ p h', h ≡ₚ p :: h' → ∃ s', releaseGuidanceMatrixNoLock p s = Ok (true, s') ∧ (pm_heap s' !! p = None ↔ p ∉ h')) ∧
  (∀ k, key_ok k → ∃ p s', getGuidanceMatrix k s = Ok (p, s') ∧
     ∀ q o, pm_heap s !! q = Some o → mkey o = full_key k → isSwarmDependent (k_options k) = false → p = q).
Proof.
  intros I%mgr_reachable_inv HB. split_and!.
  - intros p. split; [intros [o Ho]; apply refs_pos; by apply (mi_refs _ _ I _ _ Ho)|apply (mi_held _ _ I)].
  - intros p o Ho. by apply (mi_refs _ _ I).
  - intros p q o o' Hp Hq Hg Hk. by apply (mi_shared _ _ I p q o o').
  - intros p Hp. destruct (addRef_Ok s h p I HB Hp) as (s' & E & _). eauto.
  - intros p h' HP. rewrite HP in I. unfold few in HB. rewrite (Permutation_length HP) in HB.
    destruct (release_Ok s h' p I HB) as (s' & E & I' & _ & _ & Hnone). exists s'. split; [done|]. split; [|done].
    intros Hn Hin. destruct (mi_held _ _ I' _ Hin). congruence.
  - intros k Hk. destruct (get_Ok s h k I HB Hk) as (p & s' & E & [_ _ _ _ _ _ Hs]). exists p, s'. split; [done|]. eauto.
Qed.

(** ** Guidance for a selection manager *)

(** C14. After [initGuidance] with a server address every ISP of the selection manager has a
    live matrix, whatever the server answers.  Reading its weights never runs out of range:
    with location-only options the percentages of the options are returned, otherwise the
    percentages and the weights of the row of the PID, and [ERR_UNKNOWN_PID] if the matrix
    has no such row (so for every PID while the server did not answer).  When a matrix with
    generic guidance is computed for new pDistances and the server answers, every
    internal PID before the first external one has the row of the reply.  The destructor
    returns all references. *)
Theorem guidance_for_every_isp aoe now isps w st s others addr port :
  let st0 := MkPGMState (ps_manager st) true addr port in
  pgm_inv st0 s others → pgm_few st0 others → m_guidance_initialized st = false →
  ∃ st' s', initGuidance aoe now isps addr port w st s = Ok (true, st', s') ∧
    (∀ isp, isp ∈ (m_guidance (ps_manager st)).*1 → ∃ p g,
       map_find Pos.ltb isp (m_guidance (selection_view st' s')) = Some (Some p) ∧
       w_matrices (selection_view st' s') !! p = Some g ∧
       (∀ pid,
          if decide (m_opttype (g_options g) = OPT_LOCATION_ONLY)
          then getWeights pid g = Ok (WeightsOk (m_intrapid_pct (g_options g)) (m_intraisp_pct (g_options g)) None)
          else if decide (0 ≤ pid < Z.of_nat (length (g_weights g)))%Z
          then ∃ a b row, vec_at (g_intrapid_pcts g) pid = Some a ∧ vec_at (g_intraisp_pcts g) pid = Some b ∧
            vec_at (g_weights g) pid = Some row ∧ getWeights pid g = Ok (WeightsOk a b (Some row))
          else getWeights pid g = Ok (WeightsError ERR_UNKNOWN_PID)) ∧
       (∀ aoe' now' isps' reply,
          m_opttype (g_options g) ≠ OPT_LOCATION_ONLY → isSwarmDependent (g_options g) = false →
          gi_pdist_time (isps' isp) ≠ 0%Z → gi_pdist_time (isps' isp) ≠ g_last_pdist_time g →
          aoe' (ReqGeneric (gi_portal (isps' isp)) (gi_pids (isps' isp))) = Some reply →
          ∃ s2 g2, mgr_compute aoe' now' isps' p None s' = Ok (0%Z, s2) ∧ w_matrices (selection_view st' s2) !! p = Some g2 ∧
            ∀ i src, source_pids (gi_pids (isps' isp)) !! i = Some src →
              getWeights (Z.of_nat i) g2 = Ok (WeightsOk (get_intrapid src (r_pcts reply)) (get_intradomain src (r_pcts reply))
                (Some (weight_row (r_weights reply) (gi_pids (isps' isp)) src))))) ∧
    ∃ s'', PGMSelectionManager_delete st' s' = Ok s'' ∧ manager_inv s'' others.
Proof.
  intros st0 P HB Hi. destruct (computeGuidance_Ok aoe now isps w st0 s others P HB) as (st' & s' & E & P' & K' & A').
  exists st', s'. unfold initGuidance. rewrite Hi. fold st0. rewrite E. split; [done|]. split.
  - intros isp Hin. destruct (A' isp Hin) as [p Hp]. pose proof (pi_manager _ _ _ P') as I.
    assert (Hh : p ∈ holdings (m_guidance (ps_manager st')) ++ others).
    { apply elem_of_app. left. apply list_elem_of_omap. exists (isp, Some p). split; [|done].
      apply (map_find_elem Pos.ltb); [apply P'|done]. }
    destruct (mi_held _ _ I p Hh) as [o Ho]. exists p, (mo_matrix o). split; [done|]. cbn [selection_view w_matrices].
    rewrite lookup_fmap, Ho. split; [done|]. split.
    + intros pid. destruct (mi_rows _ _ I _ _ Ho) as [n G]. by eapply getWeights_Ok.
    + intros aoe' now' isps' reply Ht Hd H0 Hl Ha.
      assert (Hisp : mo_isp o = isp).
      { assert (E' : isp_of p s' = Some isp) by (apply (pi_isp _ _ _ P'), (map_find_elem Pos.ltb); [apply P'|done]).
        unfold isp_of in E'. rewrite Ho in E'. by injection E'. }
      destruct (mgr_compute_fresh aoe' now' isps' p s' o reply isp _ I Ho Hisp Ht Hd H0 Hl Ha) as (s2 & o2 & E2 & Ho2 & HW).
      exists s2, (mo_matrix o2). split_and!; [done| |done]. cbn [selection_view w_matrices]. by rewrite lookup_fmap, Ho2.
  - apply delete_Ok; [done| |].
    + unfold pgm_few in *. rewrite <- (length_fmap fst (m_guidance (ps_manager st'))), K', length_fmap. done.
    + apply Forall_forall. intros [isp e] Hin. cbn. destruct (A' isp) as [p Hp].
      * rewrite <- K'. apply list_elem_of_fmap. by exists (isp, e).
      * apply (map_find_elem Pos.ltb) in Hin; [|apply P']. rewrite Hin in Hp. injection Hp as ->. by eexists.
Qed.

(** ** A manager with one ISP *)
Definition engine : text := [Ascii.ascii_of_nat 97].
Definition demo_key : GuidanceMatrixKey := MkKey 1%positive default_options engine 80.
Definition demo_shared : PGMManager * list matrix_ptr :=
  match getGuidanceMatrix demo_key PGMManager_new with
  | Ok (p, s) => match getGuidanceMatrix demo_key s with Ok (q, s') => (s', [q; p]) | Fault _ => (s, [p]) end
  | Fault _ => (PGMManager_new, [])
  end.

Lemma default_options_ok : options_ok default_options.
Proof. split; vm_compute; reflexivity. Qed.

Lemma demo_shared_reachable : mgr_reachable demo_shared.1 demo_shared.2.
Proof.
  assert (HK : key_ok demo_key) by (split; [apply default_options_ok|done]).
  unfold demo_shared. destruct (getGuidanceMatrix demo_key PGMManager_new) as [[p s]|e] eqn:E1; [|constructor].
  assert (H1 : mgr_reachable s [p]) by (eapply mgr_next; [constructor|]; by apply (mgr_get _ _ demo_key)).
  destruct (getGuidanceMatrix demo_key s) as [[q s']|e] eqn:E2; [|done].
  eapply mgr_next; [exact H1|]. by apply (mgr_get _ _ demo_key).
Qed.

Lemma guidance_reference_counts_witness :
  (∃ o, pm_heap demo_shared.1 !! 1%positive = Some o ∧ m_refcount o = 2%Z) ∧
  ∃ s', releaseGuidanceMatrixNoLock 1%positive demo_shared.1 = Ok (true, s') ∧ pm_heap s' !! 1%positive ≠ None.
Proof.
  destruct (guidance_reference_counts demo_shared.1 demo_shared.2 demo_shared_reachable) as (_ & H & _ & _ & HR & _).
  { vm_compute. reflexivity. }
  split.
  - eexists. split; [vm_compute; reflexivity|].
    etransitivity; [apply (H 1%positive); vm_compute; reflexivity|vm_compute; reflexivity].
  - destruct (HR 1%positive [1%positive]) as (s' & E & Hs); [vm_compute; reflexivity|]. exists s'. split; [exact E|].
    intros Hn. apply Hs in Hn. apply Hn. left.
Defined.

Definition demo_state : PGMState :=
  pgm_setISPs [1%positive; 2%positive] (MkPGMState (MkPGM default_options [] [] ∅) false [] 0).

(** The server fails at first; later it answers for new pDistances of an ISP with one PID. *)
Definition demo_source : PID := MkPID [] 1 false.
Definition demo_refreshed (isp : isp_ptr) : GuidanceISP := MkGuidanceISP [demo_source] 7 ([], 0%Z).
Definition demo_aoe_reply : aoe_reply := MkReply [(demo_source, [(demo_source, dlit 1 2)])] (MkPcts [] [] []) 60.

Lemma guidance_for_every_isp_witness : ∃ st' s' p s2 g,
  initGuidance (λ _, None) 0 (λ _, MkGuidanceISP [] 0 ([], 0%Z)) engine 80 (MkWorld ∅ ∅ 0 [] []) demo_state PGMManager_new = Ok (true, st', s') ∧
  map_find Pos.ltb 2%positive (m_guidance (selection_view st' s')) = Some (Some p) ∧
  mgr_compute (λ _, Some demo_aoe_reply) 5 demo_refreshed p None s' = Ok (0%Z, s2) ∧ w_matrices (selection_view st' s2) !! p = Some g ∧
  getWeights 0 g = Ok (WeightsOk dzero dzero (Some [dlit 1 2])) ∧ PGMSelectionManager_delete st' s' ≠ Fault UB.
Proof.
  destruct (guidance_for_every_isp (λ _, None) 0 (λ _, MkGuidanceISP [] 0 ([], 0%Z)) (MkWorld ∅ ∅ 0 [] []) demo_state
    PGMManager_new [] engine 80) as (st' & s' & E & H & s'' & D & _).
  - split.
    + repeat constructor.
    + exact manager_new_inv.
    + intros isp. exact default_options_ok.
    + discriminate.
    + intros isp p Hp. vm_compute in Hp. by repeat (apply elem_of_cons in Hp as [Hp|Hp]; [done|]); apply not_elem_of_nil in Hp.
  - vm_compute. reflexivity.
  - reflexivity.
  - destruct (H 2%positive) as (p & g & H1 & H2 & _ & HC); [vm_compute; right; left|].
    assert (Hg : m_opttype (g_options g) ≠ OPT_LOCATION_ONLY ∧ isSwarmDependent (g_options g) = false ∧ g_last_pdist_time g = 0%Z).
    { clear HC D H. vm_compute in E. injection E as <- <-. vm_compute in H1. injection H1 as <-. vm_compute in H2. injection H2 as <-.
      split; [discriminate|]. split; vm_compute; reflexivity. }
    destruct Hg as (G1 & G2 & G3).
    destruct (HC (λ _, Some demo_aoe_reply) 5%Z demo_refreshed demo_aoe_reply G1 G2) as (s2 & g2 & E2 & Hg2 & HW);
      [discriminate|rewrite G3; discriminate|reflexivity|].
    exists st', s', p, s2, g2. split; [exact E|]. split; [exact H1|]. split; [exact E2|]. split; [exact Hg2|].
    split; [exact (HW 0 demo_source eq_refl)|]. rewrite D. discriminate.
Defined.

(** [setOptions] compares options with an [operator==] that looks at three of the
    fields: new percentages, a new channel rate or a new recomputation interval do not
    reach the matrix, although the percentages and the rate are part of its key. *)
Theorem set_options_ignores_percentages s h p o options : mgr_reachable s h → few h → p ∈ h → pm_heap s !! p = Some o →
  options_ok options → m_opttype options = m_opttype (g_options (mo_matrix o)) →
  m_matching_uses_swarm_state options = m_matching_uses_swarm_state (g_options (mo_matrix o)) →
  m_overload_protection_factor options = m_overload_protection_factor (g_options (mo_matrix o)) →
  setOptions p options s = Ok (Some p, s).
Proof.
  intros _ _ _ Ho Hok E1 E2 E3. unfold setOptions, deref_matrix. rewrite Ho. cbn [from_option_or mbind outcome_bind].
  assert (options_eqb options (g_options (mo_matrix o)) = true) as ->; [|done].
  unfold options_eqb. rewrite E1, E2, <- E3, bool_decide_eq_true_2, eqb_reflx by done. cbn [andb].
  apply deq_refl, Hok.
Qed.

Lemma set_options_ignores_percentages_witness :
  ∃ o s, s = demo_shared.1 ∧ o = setLocationSelectionPercentage (dlit 1 10) (dlit 1 2) default_options ∧
    setOptions 1%positive o s = Ok (Some 1%positive, s) ∧ m_intraisp_pct o ≠ m_intraisp_pct default_options.
Proof.
  do 2 eexists. split; [reflexivity|]. split; [reflexivity|]. split; [|vm_compute; congruence].
  eapply (set_options_ignores_percentages demo_shared.1 demo_shared.2 1%positive _
    (setLocationSelectionPercentage (dlit 1 10) (dlit 1 2) default_options)).
  - apply demo_shared_reachable.
  - vm_compute. reflexivity.
  - vm_compute. left.
  - vm_compute. reflexivity.
  - split; vm_compute; reflexivity.
  - reflexivity.
  - reflexivity.
  - reflexivity.
Defined.

(** The destructor of a manager without guidance reads through a null pointer. *)
Theorem destructor_needs_guidance : PGMSelectionManager_delete demo_state PGMManager_new = Fault UB.
Proof. reflexivity. Qed.
