(* ===== verification/UpdateManager.v ===== *)
(** * Scheduling updates (common/cpp/src/lib/update_manager.cpp, p4p_selection_manager.cpp)

    [P4PUpdateManager] keeps a queue of tasks (load the PID map or the pDistance map of an
    ISP, recompute the guidance of a selection manager), ordered by their time, in the heap
    of Heap.v.  There is at most one task of a kind in the queue.  Tasks are allocated
    objects: [m_task_store] maps the addresses that are in use to the tasks.  The tasks of
    a selection manager are also kept in [m_selmgr_tasks]. *)
From S2P Require Import Prelude StdMap KeyOrder Double Heap IpAddr SwarmState Rand IspPidMap.
From S2P Require Import PeerDist Guidance SelHelper Selection GuidanceManager.

Notation task_ptr := positive (only parsing).
Notation sel_ptr := positive (only parsing).

Inductive TaskType := TYPE_PIDMAP | TYPE_PDISTANCE | TYPE_GUIDANCE.

#[global] Instance TaskType_eq_dec : EqDecision TaskType.
Proof. solve_decision. Defined.

Definition type_rank (t : TaskType) : Z :=
  match t with TYPE_PIDMAP => 0 | TYPE_PDISTANCE => 1 | TYPE_GUIDANCE => 2 end.

(** A task with its address. *)
Record Task := MkTask {
  t_ptr : task_ptr;
  exectime : Z;
  t_type : TaskType;
  t_isp : isp_ptr;
  t_sel_mgr : option sel_ptr
}.

(** A null pointer is less than every other one. *)
Definition ptr_rank (p : option positive) : Z := match p with None => 0 | Some p => Zpos p end.

(** [operator<] of tasks, for the detection of duplicates. *)
Definition task_ltb (t rhs : Task) : bool :=
  if (type_rank (t_type t) <? type_rank (t_type rhs))%Z then true
  else if (type_rank (t_type rhs) <? type_rank (t_type t))%Z then false
  else if Pos.ltb (t_isp t) (t_isp rhs) then true
  else if Pos.ltb (t_isp rhs) (t_isp t) then false
  else if (ptr_rank (t_sel_mgr t) <? ptr_rank (t_sel_mgr rhs))%Z then true
  else if (ptr_rank (t_sel_mgr rhs) <? ptr_rank (t_sel_mgr t))%Z then false
  else false.

(** Its key. *)
Definition task_key (t : Task) : Z * (positive * Z) := (type_rank (t_type t), (t_isp t, ptr_rank (t_sel_mgr t))).
Definition task_key_ltb : Z * (positive * Z) → Z * (positive * Z) → bool := lex_ltb Z.ltb (lex_ltb Pos.ltb Z.ltb).

Lemma task_ltb_key t rhs : task_ltb t rhs = task_key_ltb (task_key t) (task_key rhs).
Proof. unfold task_ltb, task_key_ltb, task_key, lex_ltb. cbn [fst snd]. repeat (case_match; cbn; try done). Qed.

(** [TaskPtrPriorityComparator]: earlier tasks are larger. *)
Definition earlier (t1 t2 : Task) : bool := (exectime t1 <? exectime t2)%Z.

Notation TaskQueue := (RandomAccessSet (T := Task) (K := Z * (positive * Z))).

Record P4PUpdateManager := MkUM {
  m_stopped : bool;
  m_isp_mgr : bool;                                  (* whether the ISP manager is set *)
  m_selection_mgrs : list sel_ptr;
  m_tasks : TaskQueue;
  m_selmgr_tasks : list (sel_ptr * list task_ptr);
  m_task_store : gmap task_ptr Task
}.

Definition P4PUpdateManager_new : P4PUpdateManager := MkUM false false [] ras_empty [] ∅.

Definition with_queue (q : TaskQueue) (sm : list (sel_ptr * list task_ptr)) (st : gmap task_ptr Task) (s : P4PUpdateManager) :=
  MkUM (m_stopped s) (m_isp_mgr s) (m_selection_mgrs s) q sm st.

(** [m_selmgr_tasks\[sel\]] *)
Definition sel_tasks (sel : sel_ptr) (s : P4PUpdateManager) : list task_ptr :=
  default [] (map_find Pos.ltb sel (m_selmgr_tasks s)).

(** [addTask]; the task was allocated by the caller. *)
Definition addTask (t : Task) (s : P4PUpdateManager) : outcome P4PUpdateManager :=
  '(ok, q) ← heap_push task_key task_key_ltb earlier t (m_tasks s);
  if (ok : bool) then
    mret (with_queue q
      match t_sel_mgr t with
      | None => m_selmgr_tasks s
      | Some sel => map_set Pos.ltb sel (set_insert Pos.ltb (t_ptr t) (sel_tasks sel s)) (m_selmgr_tasks s)
      end (<[t_ptr t := t]> (m_task_store s)) s)
  else Fault (Throw "Illegal state: failed to add new task").

(** [removeTask (task, remove_from_queue)]; the task is freed. *)
Definition removeTask (t : Task) (remove_from_queue : bool) (s : P4PUpdateManager) : outcome P4PUpdateManager :=
  q ← (if remove_from_queue then
         '(ok, q) ← heap_erase task_key task_key_ltb earlier t (m_tasks s);
         if (ok : bool) then mret q else Fault (Throw "Illegal state: failed to remove existing task")
       else mret (m_tasks s));
  mret (with_queue q
    match t_sel_mgr t with
    | None => m_selmgr_tasks s
    | Some sel => map_set Pos.ltb sel (set_erase Pos.ltb (t_ptr t) (sel_tasks sel s)) (m_selmgr_tasks s)
    end (delete (t_ptr t) (m_task_store s)) s).

(** [enqueueTask]: of two tasks of a kind the earlier one is kept. *)
Definition enqueueTask (time : Z) (type : TaskType) (isp : isp_ptr) (sel : option sel_ptr) (s : P4PUpdateManager)
  : outcome P4PUpdateManager :=
  let task := MkTask (fresh (dom (m_task_store s))) time type isp sel in
  found ← heap_find task_key task_key_ltb task (m_tasks s);
  match found with
  | None => addTask task s
  | Some existing =>
      if (exectime existing <=? time)%Z then mret s
      else s1 ← removeTask existing true s; addTask task s1
  end.

(** ** The interface; [isps] is what [m_isp_mgr->listISPs] returns. *)
Definition setISPManager (isps : list isp_ptr) (s : P4PUpdateManager) : outcome (bool * P4PUpdateManager) :=
  if m_isp_mgr s then mret (false, s)
  else
    s' ← ofold (λ isp s, enqueueTask 0 TYPE_PIDMAP isp None s) isps
           (MkUM (m_stopped s) true (m_selection_mgrs s) (m_tasks s) (m_selmgr_tasks s) (m_task_store s));
    mret (true, s').

Definition addSelectionManager (isps : list isp_ptr) (sel : sel_ptr) (s : P4PUpdateManager)
  : outcome (bool * P4PUpdateManager) :=
  if negb (m_isp_mgr s) then mret (false, s)
  else if set_mem Pos.ltb sel (m_selection_mgrs s) then mret (false, s)
  else
    s' ← ofold (λ isp s, enqueueTask 0 TYPE_GUIDANCE isp (Some sel) s) isps
           (MkUM (m_stopped s) (m_isp_mgr s) (set_insert Pos.ltb sel (m_selection_mgrs s)) (m_tasks s)
              (m_selmgr_tasks s) (m_task_store s));
    mret (true, s').

Definition removeSelectionManager (sel : sel_ptr) (s : P4PUpdateManager) : outcome (bool * P4PUpdateManager) :=
  if negb (set_mem Pos.ltb sel (m_selection_mgrs s)) then mret (false, s)
  else
    s1 ← match map_find Pos.ltb sel (m_selmgr_tasks s) with
         | None => mret s
         | Some tasks =>
             s1 ← ofold (λ p s, t ← from_option_or UB (m_task_store s !! p); removeTask t true s) tasks s;
             mret (with_queue (m_tasks s1) (map_erase Pos.ltb sel (m_selmgr_tasks s1)) (m_task_store s1) s1)
         end;
    mret (true, MkUM (m_stopped s1) (m_isp_mgr s1) (set_erase Pos.ltb sel (m_selection_mgrs s1)) (m_tasks s1)
                  (m_selmgr_tasks s1) (m_task_store s1)).

Definition stop (s : P4PUpdateManager) : P4PUpdateManager :=
  MkUM true (m_isp_mgr s) (m_selection_mgrs s) (m_tasks s) (m_selmgr_tasks s) (m_task_store s).

(** The destructor frees the tasks of the queue. *)
Fixpoint free_tasks (fuel : nat) (s : P4PUpdateManager) : outcome P4PUpdateManager :=
  if heap_empty (m_tasks s) then mret s
  else
    match fuel with
    | 0 => Fault NoFuel
    | S fuel =>
        task ← heap_top (m_tasks s);
        '(_, q) ← heap_pop task_key task_key_ltb earlier (m_tasks s);
        free_tasks fuel (with_queue q (m_selmgr_tasks s) (delete (t_ptr task) (m_task_store s)) s)
    end.
Definition P4PUpdateManager_delete (s : P4PUpdateManager) : outcome P4PUpdateManager :=
  free_tasks (ras_size (m_tasks s)) s.

(** ** Execution *)
Section execute.
(** Everything outside of the manager: the clock, the ISPs and the selection managers.  Any
    call may take time. *)
Context {X : Type}.
(** [time (NULL)], read anew by every call. *)
Variable time : X → Z * X.
(** [loadP4PInfo] of the PID map and of the pDistance map of an ISP, with the time to live
    that [getTTL] returns afterwards. *)
Variable load_pidmap load_pdistance : isp_ptr → X → Z * Z * X.
(** [updatePeerDistribution], [computeGuidance] and [getNextComputeTime] of a selection
    manager. *)
Variable sel_updatePeerDistribution sel_computeGuidance : isp_ptr → sel_ptr → X → outcome (Z * X).
Variable sel_getNextComputeTime : isp_ptr → sel_ptr → X → outcome Z.

Definition updatePIDMap (isp : isp_ptr) (s : P4PUpdateManager) (x : X) : outcome (P4PUpdateManager * X) :=
  let '(rc, ttl, x) := load_pidmap isp x in
  let '(now, x) := time x in
  if negb (rc =? 0)%Z then s' ← enqueueTask (now + 15 * 60) TYPE_PIDMAP isp None s; mret (s', x)
  else
    s1 ← enqueueTask (now + ttl) TYPE_PIDMAP isp None s;
    s2 ← enqueueTask 0 TYPE_PDISTANCE isp None s1;
    mret (s2, x).

Definition updatePDistanceMap (isp : isp_ptr) (s : P4PUpdateManager) (x : X) : outcome (P4PUpdateManager * X) :=
  let '(rc, ttl, x) := load_pdistance isp x in
  let '(now, x) := time x in
  if negb (rc =? 0)%Z then s' ← enqueueTask (now + 15 + 60) TYPE_PDISTANCE isp None s; mret (s', x)
  else
    s1 ← enqueueTask (now + ttl) TYPE_PDISTANCE isp None s;
    s2 ← ofold (λ sel s, enqueueTask 0 TYPE_GUIDANCE isp (Some sel) s) (m_selection_mgrs s) s1;
    mret (s2, x).

Definition updateGuidance (isp : isp_ptr) (sel : sel_ptr) (s : P4PUpdateManager) (x : X) : outcome (P4PUpdateManager * X) :=
  '(rc, x1) ← sel_updatePeerDistribution isp sel x;
  if (rc =? ERR_INVALID_ISP)%Z then mret (s, x1)
  else
    '(rc, x2) ← sel_computeGuidance isp sel x1;
    if (rc =? ERR_INVALID_ISP)%Z then mret (s, x2)
    else
      next_compute_time ← sel_getNextComputeTime isp sel x2;
      if (next_compute_time =? TIME_INVALID)%Z then mret (s, x2)
      else s' ← enqueueTask next_compute_time TYPE_GUIDANCE isp (Some sel) s; mret (s', x2).

(** A guidance task has a selection manager; calling a method of a null one is undefined. *)
Definition executeTask (t : Task) (s : P4PUpdateManager) (x : X) : outcome (P4PUpdateManager * X) :=
  match t_type t with
  | TYPE_PIDMAP => updatePIDMap (t_isp t) s x
  | TYPE_PDISTANCE => updatePDistanceMap (t_isp t) s x
  | TYPE_GUIDANCE => sel ← from_option_or UB (t_sel_mgr t); updateGuidance (t_isp t) sel s x
  end.

(** One turn of the inner loop of [run]: whether there was a task to execute, and the new
    state. *)
Definition run_task (s : P4PUpdateManager) (x : X) : outcome (bool * P4PUpdateManager * X) :=
  if m_stopped s || heap_empty (m_tasks s) then mret (false, s, x)
  else
    task ← heap_top (m_tasks s);
    let '(now, x) := time x in
    if (now <? exectime task)%Z then mret (false, s, x)
    else
      '(_, q) ← heap_pop task_key task_key_ltb earlier (m_tasks s);
      '(s1, x1) ← executeTask task (with_queue q (m_selmgr_tasks s) (m_task_store s) s) x;
      s2 ← removeTask task false s1;
      mret (true, s2, x1).

(** The inner loop. *)
Fixpoint run_tasks (fuel : nat) (s : P4PUpdateManager) (x : X) : outcome (P4PUpdateManager * X) :=
  match fuel with
  | 0 => Fault NoFuel
  | S fuel =>
      '(executed, s', x') ← run_task s x;
      if (executed : bool) then run_tasks fuel s' x' else mret (s', x')
  end.
End execute.

(** ** Selection managers *)

(** [P4PSelectionManager::updatePeerDistribution] stores the code in a [bool]. *)
Definition sm_updatePeerDistribution (isp : isp_ptr) (w : World) : outcome (Z * World) :=
  '(r, w') ← updatePeerDistribution isp w;
  mret (if (r =? 0)%Z then 0%Z else 1%Z, w').

(** The selection managers of a process share one manager of guidance matrices. *)
Record Process := MkProcess {
  pr_managers : gmap sel_ptr (World * PGMState);
  pr_guidance : PGMManager
}.

Section process.
Variable aoe : aoe_request → option aoe_reply.
Variable now : Z.
Variable isps : isp_ptr → GuidanceISP.

Definition proc_updatePeerDistribution (isp : isp_ptr) (sel : sel_ptr) (pr : Process) : outcome (Z * Process) :=
  '(w, st) ← from_option_or UB (pr_managers pr !! sel);
  '(r, w') ← sm_updatePeerDistribution isp w;
  mret (r, MkProcess (<[sel := (w', st)]> (pr_managers pr)) (pr_guidance pr)).

Definition proc_computeGuidance (isp : isp_ptr) (sel : sel_ptr) (pr : Process) : outcome (Z * Process) :=
  '(w, st) ← from_option_or UB (pr_managers pr !! sel);
  '(r, st', g) ← computeGuidanceInternal aoe now isps isp w st (pr_guidance pr);
  mret (r, MkProcess (<[sel := (w, st')]> (pr_managers pr)) g).

Definition proc_getNextComputeTime (isp : isp_ptr) (sel : sel_ptr) (pr : Process) : outcome Z :=
  '(w, st) ← from_option_or UB (pr_managers pr !! sel);
  getNextComputeTime isp (ps_manager st).
End process.
