(* ===== verification/UpdateManagerSpec.v ===== *)
(** * What the update manager schedules

    The queue is a map from kinds of tasks to times; the objects in memory are the tasks of
    the queue and the one that is being executed, and the index by selection managers
    agrees with them. *)
From S2P Require Import Prelude StdMap KeyOrder Double Heap IpAddr SwarmState Rand IspPidMap.
From S2P Require Import PeerDist Guidance SelHelper Selection GuidanceManager UpdateManager.

#[global] Instance task_key_order : StrictTotal task_key_ltb.
Proof. unfold task_key_ltb. apply _. Qed.
#[global] Instance earlier_order : StrictWeak earlier.
Proof. split; unfold earlier; intros *; rewrite ?Z.ltb_lt, ?Z.ltb_ge; lia. Qed.

Notation queue_inv := (heap_inv task_key task_key_ltb earlier).
Notation queue s := (m_vec (m_tasks s)).

(** A guidance task has a selection manager, the others have none. *)
Definition kind_ok (t : Task) : Prop := t_type t = TYPE_GUIDANCE ↔ is_Some (t_sel_mgr t).

Record um_inv (s : P4PUpdateManager) (cur : option Task) : Prop := {
  ui_heap : queue_inv (m_tasks s);
  ui_store : ∀ p t, m_task_store s !! p = Some t ↔ (t ∈ queue s ∨ cur = Some t) ∧ t_ptr t = p;
  ui_cur : ∀ t, cur = Some t → t ∉ queue s;
  ui_sorted : map_sorted Pos.ltb (m_selmgr_tasks s);
  ui_index : ∀ sel ps, map_find Pos.ltb sel (m_selmgr_tasks s) = Some ps → set_sorted Pos.ltb ps ∧
    ∀ p, p ∈ ps ↔ ∃ t, m_task_store s !! p = Some t ∧ t_sel_mgr t = Some sel;
  ui_indexed : ∀ p t sel, m_task_store s !! p = Some t → t_sel_mgr t = Some sel →
    is_Some (map_find Pos.ltb sel (m_selmgr_tasks s));
  ui_managers : set_sorted Pos.ltb (m_selection_mgrs s);
  ui_known : ∀ p t sel, m_task_store s !! p = Some t → t_sel_mgr t = Some sel → sel ∈ m_selection_mgrs s;
  ui_kind : ∀ p t, m_task_store s !! p = Some t → kind_ok t
}.

Lemma um_new_inv : um_inv P4PUpdateManager_new None.
Proof.
  split; try done; try constructor; cbn.
  - apply ras_empty_inv.
  - intros j _ a b Ha. done.
  - done.
  - by intros [[H|H] _]; [apply not_elem_of_nil in H|].
Qed.

(** Two tasks of the queue with the same key are one. *)
Lemma queue_key_inj s x y : queue_inv (m_tasks s) → x ∈ queue s → y ∈ queue s → task_key x = task_key y → x = y.
Proof.
  intros [I _] (i & Hi)%list_elem_of_lookup (j & Hj)%list_elem_of_lookup E.
  pose proof (ras_key_inj task_key task_key_ltb _ _ _ _ _ I Hi Hj E) as <-. congruence.
Qed.

Lemma queue_nodup s : queue_inv (m_tasks s) → NoDup (queue s).
Proof.
  intros [I _]. apply NoDup_alt. intros i j x Hi Hj. by apply (ras_key_inj task_key task_key_ltb _ _ _ _ _ I Hi Hj).
Qed.

Lemma sel_tasks_spec s cur sel : um_inv s cur → set_sorted Pos.ltb (sel_tasks sel s) ∧
  ∀ p, p ∈ sel_tasks sel s ↔ ∃ t, m_task_store s !! p = Some t ∧ t_sel_mgr t = Some sel.
Proof.
  intros I. unfold sel_tasks. destruct (map_find Pos.ltb sel (m_selmgr_tasks s)) as [ps|] eqn:E; cbn.
  - apply (ui_index _ _ I _ _ E).
  - split; [constructor|]. intros p. split; [by intros ?%not_elem_of_nil|]. intros (t & Ht & Hs).
    destruct (ui_indexed _ _ I _ _ _ Ht Hs). congruence.
Qed.

(** The index after the entry of one selection manager was replaced. *)
Lemma index_set s cur (store' : gmap task_ptr Task) sel ps : um_inv s cur →
  set_sorted Pos.ltb ps → (∀ p, p ∈ ps ↔ ∃ t, store' !! p = Some t ∧ t_sel_mgr t = Some sel) →
  (∀ p sel', sel' ≠ sel → (∃ t, store' !! p = Some t ∧ t_sel_mgr t = Some sel') ↔
     ∃ t, m_task_store s !! p = Some t ∧ t_sel_mgr t = Some sel') →
  let sm := map_set Pos.ltb sel ps (m_selmgr_tasks s) in
  map_sorted Pos.ltb sm ∧
  (∀ sel' ps', map_find Pos.ltb sel' sm = Some ps' → set_sorted Pos.ltb ps' ∧
     ∀ p, p ∈ ps' ↔ ∃ t, store' !! p = Some t ∧ t_sel_mgr t = Some sel') ∧
  (∀ p t sel', store' !! p = Some t → t_sel_mgr t = Some sel' → is_Some (map_find Pos.ltb sel' sm)).
Proof.
  intros I Hs Hps Hother sm. subst sm. split_and!; [apply (map_set_sorted Pos.ltb), I|..].
  - intros sel' ps' Hf. destruct (decide (sel' = sel)) as [->|Hne].
    + rewrite (map_find_set_eq Pos.ltb) in Hf by apply I. by injection Hf as <-.
    + rewrite (map_find_set_ne Pos.ltb) in Hf by (done || apply I). destruct (ui_index _ _ I _ _ Hf) as [H1 H2].
      split; [done|]. intros p. by rewrite H2, Hother.
  - intros p t sel' Ht Hsel. destruct (decide (sel' = sel)) as [->|Hne].
    + rewrite (map_find_set_eq Pos.ltb) by apply I. by eexists.
    + rewrite (map_find_set_ne Pos.ltb) by (done || apply I). destruct (proj1 (Hother p sel' Hne)) as (t' & Ht' & Hs'); [eauto|].
      by eapply (ui_indexed _ _ I).
Qed.

(** ** Adding and removing tasks *)

(** The parts that the queue operations do not touch. *)
Definition same_managers (s s' : P4PUpdateManager) : Prop :=
  m_selection_mgrs s' = m_selection_mgrs s ∧ m_stopped s' = m_stopped s ∧ m_isp_mgr s' = m_isp_mgr s.

Lemma same_managers_trans s1 s2 s3 : same_managers s1 s2 → same_managers s2 s3 → same_managers s1 s3.
Proof. intros (A & B & C) (D & E & F). split_and!; congruence. Qed.

Lemma addTask_Ok t s cur : um_inv s cur → (∀ x, x ∈ queue s → task_key x ≠ task_key t) →
  m_task_store s !! t_ptr t = None → kind_ok t → (∀ sel, t_sel_mgr t = Some sel → sel ∈ m_selection_mgrs s) →
  ∃ s', addTask t s = Ok s' ∧ um_inv s' cur ∧ queue s' ≡ₚ t :: queue s ∧ same_managers s s'.
Proof.
  intros I Hk Hp Hkind Hsel. unfold addTask.
  destruct (heap_push_Ok task_key task_key_ltb earlier t (m_tasks s) (ui_heap _ _ I)) as (b & q & -> & Iq & Hq).
  destruct b; [|destruct Hq as [_ (y & Hy & E)]; by destruct (Hk y Hy)]. cbn [mbind outcome_bind].
  eexists. split; [done|]. split; [|by repeat split]. cbn [with_queue].
  set (store' := <[t_ptr t := t]> (m_task_store s)).
  assert (HS : ∀ p x, store' !! p = Some x ↔ p = t_ptr t ∧ x = t ∨ p ≠ t_ptr t ∧ m_task_store s !! p = Some x).
  { intros p x. unfold store'. rewrite lookup_insert_Some. split; intros [[? ?]|[? ?]]; auto. }
  assert (Hold : ∀ p x, m_task_store s !! p = Some x → p ≠ t_ptr t) by (intros p x Hx ->; congruence).
  assert (Hix : let sm := match t_sel_mgr t with None => m_selmgr_tasks s
      | Some sel => map_set Pos.ltb sel (set_insert Pos.ltb (t_ptr t) (sel_tasks sel s)) (m_selmgr_tasks s) end in
    map_sorted Pos.ltb sm ∧
    (∀ sel' ps', map_find Pos.ltb sel' sm = Some ps' → set_sorted Pos.ltb ps' ∧
       ∀ p, p ∈ ps' ↔ ∃ x, store' !! p = Some x ∧ t_sel_mgr x = Some sel') ∧
    (∀ p x sel', store' !! p = Some x → t_sel_mgr x = Some sel' → is_Some (map_find Pos.ltb sel' sm))).
  { assert (HE : ∀ p sel', t_sel_mgr t ≠ Some sel' → (∃ x, store' !! p = Some x ∧ t_sel_mgr x = Some sel') ↔
      ∃ x, m_task_store s !! p = Some x ∧ t_sel_mgr x = Some sel').
    { intros p sel' Hne. split; intros (x & Hx & Hs).
      - apply HS in Hx as [[_ ->]|[_ Hx]]; [done|eauto].
      - exists x. split; [|done]. apply HS. right. eauto. }
    destruct (t_sel_mgr t) as [sel|] eqn:Es.
    - destruct (sel_tasks_spec s cur sel I) as [H1 H2]. apply (index_set s cur); [done|by apply (set_insert_sorted Pos.ltb)| |].
      + intros p. rewrite (set_insert_elem Pos.ltb), H2. split.
        * intros [->|(x & Hx & Hs)]; [exists t; split; [apply HS; by left|done]|]. exists x. split; [|done]. apply HS. right. eauto.
        * intros (x & Hx & Hs). apply HS in Hx as [[-> ->]|[_ Hx]]; [by left|]. right. eauto.
      + intros p sel' Hne. apply HE. congruence.
    - split_and!; [apply I|..].
      + intros sel' ps' Hf. destruct (ui_index _ _ I _ _ Hf) as [H1 H2]. split; [done|]. intros p. by rewrite H2, HE.
      + intros p x sel' Hx Hs. destruct (proj1 (HE p sel' ltac:(done))) as (x' & Hx' & Hs'); [eauto|]. by eapply (ui_indexed _ _ I). }
  destruct Hix as (X1 & X2 & X3). split; cbn [m_tasks m_task_store m_selmgr_tasks m_selection_mgrs]; try done; try apply I.
  - intros p x. rewrite HS, (ui_store _ _ I), Hq, elem_of_cons. split.
    + intros [[-> ->]|[_ [[?|?] ?]]]; split; auto.
    + intros [[[->|Hx]|Hx] <-]; [by left|..]; right; (split; [|by auto]);
        apply (Hold _ x), (ui_store _ _ I); auto.
  - intros x Hx. rewrite Hq, elem_of_cons. intros [->|Hin]; [|by apply (ui_cur _ _ I _ Hx)].
    apply (Hold (t_ptr t) t); [|done]. apply (ui_store _ _ I). auto.
  - intros p x sel [[_ ->]|[_ Hx]]%HS Hs; [by apply Hsel|by eapply (ui_known _ _ I)].
  - intros p x [[_ ->]|[_ Hx]]%HS; [done|by eapply (ui_kind _ _ I)].
Qed.

(** The index without a task. *)
Definition unindexed (t : Task) (s : P4PUpdateManager) : list (sel_ptr * list task_ptr) :=
  match t_sel_mgr t with
  | None => m_selmgr_tasks s
  | Some sel => map_set Pos.ltb sel (set_erase Pos.ltb (t_ptr t) (sel_tasks sel s)) (m_selmgr_tasks s)
  end.

Lemma unindexed_ok t s cur : um_inv s cur → m_task_store s !! t_ptr t = Some t →
  let store' := delete (t_ptr t) (m_task_store s) in
  map_sorted Pos.ltb (unindexed t s) ∧
  (∀ sel ps, map_find Pos.ltb sel (unindexed t s) = Some ps → set_sorted Pos.ltb ps ∧
     ∀ p, p ∈ ps ↔ ∃ x, store' !! p = Some x ∧ t_sel_mgr x = Some sel) ∧
  (∀ p x sel, store' !! p = Some x → t_sel_mgr x = Some sel → is_Some (map_find Pos.ltb sel (unindexed t s))).
Proof.
  intros I Ht store'.
  assert (HE : ∀ p sel', t_sel_mgr t ≠ Some sel' → (∃ x, store' !! p = Some x ∧ t_sel_mgr x = Some sel') ↔
    ∃ x, m_task_store s !! p = Some x ∧ t_sel_mgr x = Some sel').
  { intros p sel' Hne. unfold store'. setoid_rewrite lookup_delete_Some. split; intros (x & Hx & Hs).
    - exists x. split; [by destruct Hx|done].
    - exists x. split; [|done]. split; [|done]. intros <-. rewrite Ht in Hx. by injection Hx as <-. }
  unfold unindexed. destruct (t_sel_mgr t) as [sel|] eqn:Es.
  - destruct (sel_tasks_spec s cur sel I) as [H1 H2]. apply (index_set s cur); [done|by apply (set_erase_sorted Pos.ltb)| |].
    + intros p. rewrite (set_erase_elem Pos.ltb), H2 by done. unfold store'. setoid_rewrite lookup_delete_Some. split.
      * intros (Hne & x & Hx & Hs). exists x. auto.
      * intros (x & (Hne & Hx) & Hs). split; [congruence|]. eauto.
    + intros p sel' Hne. apply HE. congruence.
  - split_and!; [apply I|..].
    + intros sel' ps' Hf. destruct (ui_index _ _ I _ _ Hf) as [H1 H2]. split; [done|]. intros p. by rewrite H2, HE.
    + intros p x sel' Hx Hs. destruct (proj1 (HE p sel' ltac:(done))) as (x' & Hx' & Hs'); [eauto|]. by eapply (ui_indexed _ _ I).
Qed.

(** A task leaves the queue, or the one that was executed is done. *)
Lemma drop_task t s cur cur' q : um_inv s cur → m_task_store s !! t_ptr t = Some t → queue_inv q →
  (∀ x, x ∈ m_vec q ↔ x ∈ queue s ∧ x ≠ t) → (∀ x, cur' = Some x ↔ cur = Some x ∧ x ≠ t) →
  um_inv (with_queue q (unindexed t s) (delete (t_ptr t) (m_task_store s)) s) cur'.
Proof.
  intros I Ht Iq Hq Hc. destruct (unindexed_ok t s cur I Ht) as (X1 & X2 & X3).
  assert (HS : ∀ p x, delete (t_ptr t) (m_task_store s) !! p = Some x → m_task_store s !! p = Some x)
    by (by intros p x [_ Hx]%lookup_delete_Some).
  split; cbn [with_queue m_tasks m_task_store m_selmgr_tasks m_selection_mgrs]; try done; try apply I.
  - intros p x. rewrite lookup_delete_Some, (ui_store _ _ I), Hq, Hc. split.
    + intros (Hne & [Hx|Hx] & <-); split; try done; [left|right]; (split; [done|]); intros ->; done.
    + intros ([[Hx Hne]|[Hx Hne]] & <-); (split; [|by auto]); intros E; apply Hne;
        assert (m_task_store s !! t_ptr x = Some x) by (apply (ui_store _ _ I); auto); congruence.
  - intros x [Hx Hne]%Hc Hin%Hq. apply (ui_cur _ _ I _ Hx). tauto.
  - intros p x sel Hx%HS. by eapply (ui_known _ _ I).
  - intros p x Hx%HS. by eapply (ui_kind _ _ I).
Qed.

(** Whether erasing a task is safe: it is at the top or not at the last position. *)
Definition erasable (t : Task) (s : P4PUpdateManager) : Prop :=
  ∀ i, queue s !! i = Some t → i = 0 ∨ i < ras_size (m_tasks s) - 1.

Lemma removeTask_queue t s cur : um_inv s cur → t ∈ queue s →
  (∃ s', removeTask t true s = Ok s' ∧ um_inv s' cur ∧ queue s ≡ₚ t :: queue s' ∧ same_managers s s' ∧
     m_selmgr_tasks s' = unindexed t s ∧ m_task_store s' = delete (t_ptr t) (m_task_store s) ∧ erasable t s) ∨
  removeTask t true s = Fault UB ∧ ¬ erasable t s.
Proof.
  intros I Hin. pose proof Hin as (i & Hi)%list_elem_of_lookup. pose proof (ui_heap _ _ I) as [Ir _].
  assert (F : ras_find task_key task_key_ltb t (m_tasks s) = Some i) by (apply ras_find_Some; eauto).
  unfold removeTask. destruct (decide (i = 0 ∨ i < ras_size (m_tasks s) - 1)) as [Hok|Hbad].
  - left. destruct (heap_erase_Ok task_key task_key_ltb earlier t (m_tasks s) i (ui_heap _ _ I) F Hok) as (q & x & -> & Iq & Ek & P).
    assert (x = t) as ->.
    { apply (queue_key_inj s); [apply I|rewrite P; left|done|done]. }
    cbn [mbind outcome_bind mret outcome_ret]. eexists. split; [done|]. fold (unindexed t s).
    assert (HE : erasable t s).
    { intros j Hj. pose proof (ras_key_inj task_key task_key_ltb _ _ _ _ _ Ir Hi Hj eq_refl) as <-. done. }
    split; [|by split_and!; [..|done]]. pose proof (queue_nodup s (ui_heap _ _ I)) as ND. rewrite P in ND. apply NoDup_cons in ND as [Hn _].
    apply (drop_task t s cur); try done.
    + apply (ui_store _ _ I). auto.
    + intros x. rewrite P, elem_of_cons. split; [intros Hx; split; [by right|intros ->; done]|]. intros [[->|Hx] Hne]; done.
    + intros x. split; [|tauto]. intros Hx. split; [done|]. intros ->. by apply (ui_cur _ _ I _ Hx).
  - right. split; [|intros He; by apply Hbad, He].
    rewrite (heap_erase_last task_key task_key_ltb earlier t (m_tasks s) i Ir F); [done|..];
      apply lookup_lt_Some in Hi; unfold ras_size in *; lia.
Qed.

Lemma removeTask_done t s : um_inv s (Some t) →
  ∃ s', removeTask t false s = Ok s' ∧ um_inv s' None ∧ m_tasks s' = m_tasks s ∧ same_managers s s'.
Proof.
  intros I. eexists. split; [done|]. cbn. fold (unindexed t s). split; [|by repeat split].
  apply (drop_task t s (Some t)); try done; try apply I.
  - split; [by right|done].
  - intros x. split; [|tauto]. intros Hx. split; [done|]. intros ->. by apply (ui_cur _ _ I t).
  - intros x. split; [done|]. intros [[= ->] Hne]. done.
Qed.

(** ** The queue as a map *)
Definition pending (s : P4PUpdateManager) (k : Z * (positive * Z)) : option Z :=
  i ← map_find task_key_ltb k (m_vec_index (m_tasks s)); exectime <$> queue s !! i.

Lemma pending_Some s k x : queue_inv (m_tasks s) →
  pending s k = Some x ↔ ∃ t, t ∈ queue s ∧ task_key t = k ∧ exectime t = x.
Proof.
  intros [I _]. unfold pending. split.
  - destruct (map_find task_key_ltb k (m_vec_index (m_tasks s))) as [i|] eqn:E; [|done]. cbn.
    apply I in E as (t & Ht & Hk). rewrite Ht. cbn. intros [= <-]. exists t. split; [by eapply list_elem_of_lookup_2|done].
  - intros (t & (i & Hi)%list_elem_of_lookup & Hk & <-).
    assert (map_find task_key_ltb k (m_vec_index (m_tasks s)) = Some i) as -> by (apply I; eauto). cbn. by rewrite Hi.
Qed.

(** The effect of scheduling [k] at [time]: nothing if it is scheduled no later, else a new
    task, which replaces a later one. *)
Definition enqueued (k : Z * (positive * Z)) (time : Z) (s s' : P4PUpdateManager) : Prop :=
  s' = s ∧ (∃ e, e ∈ queue s ∧ task_key e = k ∧ (exectime e ≤ time)%Z) ∨
  ∃ t rest, task_key t = k ∧ exectime t = time ∧ queue s' ≡ₚ t :: rest ∧
    (queue s ≡ₚ rest ∧ (∀ e, e ∈ queue s → task_key e ≠ k) ∨
     ∃ e, queue s ≡ₚ e :: rest ∧ task_key e = k ∧ (time < exectime e)%Z).

Definition merged (old : option Z) (time : Z) : Z := match old with Some x => Z.min x time | None => time end.

Lemma option_Z_ext (a b : option Z) : (∀ x, a = Some x ↔ b = Some x) → a = b.
Proof. intros H. destruct a as [x|]; [symmetry; by apply H|]. destruct b as [y|]; [by apply H|done]. Qed.

Lemma enqueued_pending k time s s' : queue_inv (m_tasks s) → queue_inv (m_tasks s') → enqueued k time s s' →
  ∀ k', pending s' k' = if decide (k' = k) then Some (merged (pending s k) time) else pending s k'.
Proof.
  intros I I' HE k'. pose proof (pending_Some s) as P. pose proof (pending_Some s') as P'.
  assert (Hne : k' ≠ k → pending s' k' = pending s k').
  { intros Hne. destruct HE as [[-> _]|(t & rest & Hk & Ht & Hq' & Hq)]; [done|]. apply option_Z_ext. intros x.
    rewrite P, P' by done. setoid_rewrite Hq'. setoid_rewrite elem_of_cons. split.
    - intros (u & [->|Hu] & Hku & Hx); [congruence|]. exists u. split; [|done].
      destruct Hq as [[-> _]|(e & -> & _)]; [done|by right].
    - intros (u & Hu & Hku & Hx). exists u. split; [|done]. right.
      destruct Hq as [[Hq _]|(e & Hq & Hke & _)]; rewrite Hq in Hu; [done|]. apply elem_of_cons in Hu as [->|]; [congruence|done]. }
  case_decide as D; [|by apply Hne]. subst k'. clear Hne.
  destruct HE as [[-> (e & He & Hk & Hle)]|(t & rest & Hk & Ht & Hq' & Hq)].
  - assert (pending s k = Some (exectime e)) as -> by (apply P; eauto). cbn. f_equal. lia.
  - assert (pending s' k = Some time) as -> by (apply P'; [done|]; exists t; rewrite Hq'; split; [left|done]).
    f_equal. destruct Hq as [[Hq Hno]|(e & Hq & Hke & Hlt)].
    + destruct (pending s k) as [x|] eqn:E; [|done]. apply P in E as (u & Hu & Hku & _); [|done]. by destruct (Hno u Hu).
    + assert (pending s k = Some (exectime e)) as -> by (apply P; [done|]; exists e; rewrite Hq; split; [left|done]). cbn. lia.
Qed.

(** [enqueueTask] schedules the task, unless it has to erase a later one that is at the last
    position of the heap. *)
Lemma enqueueTask_Ok time type isp sel s cur : um_inv s cur → (type = TYPE_GUIDANCE ↔ is_Some sel) →
  (∀ x, sel = Some x → x ∈ m_selection_mgrs s) →
  let k := (type_rank type, (isp, ptr_rank sel)) in
  (∃ s', enqueueTask time type isp sel s = Ok s' ∧ um_inv s' cur ∧ same_managers s s' ∧ enqueued k time s s' ∧
     ∀ e, e ∈ queue s → task_key e = k → (time < exectime e)%Z → erasable e s) ∨
  (enqueueTask time type isp sel s = Fault UB ∧
     ∃ e, e ∈ queue s ∧ task_key e = k ∧ (time < exectime e)%Z ∧ ¬ erasable e s).
Proof.
  intros I Hkind Hsel k. unfold enqueueTask. set (p := fresh (dom (m_task_store s))).
  assert (Hp : m_task_store s !! p = None) by (apply not_elem_of_dom, is_fresh).
  set (task := MkTask p time type isp sel). pose proof (ui_heap _ _ I) as [Ir _]. unfold heap_find.
  destruct (ras_find task_key task_key_ltb task (m_tasks s)) as [i|] eqn:F.
  - apply ras_find_Some in F as (e & He & Hke); [|done]. unfold ras_get. rewrite He. cbn [from_option_or mbind outcome_bind mret outcome_ret].
    assert (Hin : e ∈ queue s) by (by eapply list_elem_of_lookup_2).
    destruct (Z.leb_spec (exectime e) time) as [Hle|Hlt].
    { left. exists s. split_and!; try done; [left; eauto|]. intros e' He' Hk' Hlt.
      assert (e' = e) as ->; [apply (queue_key_inj s); [apply I|done|done|by rewrite Hk', Hke]|lia]. }
    destruct (removeTask_queue e s cur I Hin) as [(s1 & -> & I1 & P1 & M1 & _ & St1 & HE)|[-> Hbad]].
    2: { right. split; [done|]. eauto. }
    cbn [mbind outcome_bind]. destruct (addTask_Ok task s1 cur I1) as (s2 & -> & I2 & P2 & M2).
    + intros x Hx Hkx. pose proof (queue_nodup s (ui_heap _ _ I)) as ND. rewrite P1 in ND. apply NoDup_cons in ND as [Hn _].
      assert (x = e) as ->; [|done]. apply (queue_key_inj s); [apply I|rewrite P1; by right|done|congruence].
    + rewrite St1. apply lookup_delete_None. by right.
    + done.
    + cbn. destruct M1 as [-> _]. done.
    + left. exists s2. split_and!; [done|done|by eapply same_managers_trans| |].
      * right. exists task, (queue s1). split_and!; try done. right. by exists e.
      * intros e' He' Hk' _. assert (e' = e) as ->; [apply (queue_key_inj s); [apply I|done|done|by rewrite Hk', Hke]|done].
  - destruct (addTask_Ok task s cur I) as (s2 & E2 & I2 & P2 & M2); [|done|done|done|].
    + intros x. by apply (ras_find_None task_key task_key_ltb).
    + assert (HN : ∀ x, x ∈ queue s → task_key x ≠ k) by (intros x; by apply (ras_find_None task_key task_key_ltb (m_tasks s) task)).
      left. exists s2. split_and!; [by cbn|done|done| |by intros x Hx Hk; destruct (HN x Hx)].
      right. exists task, (queue s). split_and!; try done. by left.
Qed.

(** ** The work that is due *)

(** A task counts for itself and for the tasks that executing it makes due at once. *)
Definition weight (n : nat) (t : TaskType) : nat :=
  match t with TYPE_PIDMAP => n + 2 | TYPE_PDISTANCE => n + 1 | TYPE_GUIDANCE => 1 end.
Definition load (n : nat) (now : Z) (t : Task) : nat := if (exectime t <=? now)%Z then weight n (t_type t) else 0.
Definition work (n : nat) (now : Z) (q : list Task) : nat := sum_list_with (load n now) q.

#[global] Instance work_perm n now : Proper ((≡ₚ) ==> eq) (work n now).
Proof. intros q q' E. unfold work. by rewrite E. Qed.

Lemma type_rank_inj a b : type_rank a = type_rank b → a = b.
Proof. by destruct a, b. Qed.

Lemma enqueued_work n now type x time s s' : enqueued (type_rank type, x) time s s' →
  work n now (queue s') ≤ work n now (queue s) + (if (time <=? now)%Z then weight n type else 0).
Proof.
  intros [[-> _]|(t & rest & Hk & Ht & -> & Hq)]; [lia|]. cbn [work sum_list_with].
  assert (t_type t = type) as Etype by (apply type_rank_inj; exact (f_equal fst Hk)).
  assert (load n now t = if (time <=? now)%Z then weight n type else 0) as -> by (unfold load; by rewrite Ht, Etype).
  destruct Hq as [[-> _]|(e & -> & _)]; unfold work; cbn [sum_list_with]; lia.
Qed.

(** ** Outcomes: a result, or the access out of range when the last task of the heap is erased *)
Definition settles {A} (r : outcome A) (P : A → Prop) : Prop := match r with Ok a => P a | Fault e => e = UB end.

Lemma settles_bind {A B} (r : outcome A) (f : A → outcome B) P Q :
  settles r P → (∀ a, P a → settles (f a) Q) → settles (r ≫= f) Q.
Proof. intros H HK. destruct r; cbn in *; [by apply HK|done]. Qed.

Lemma settles_impl {A} (r : outcome A) (P Q : A → Prop) : settles r P → (∀ a, P a → Q a) → settles r Q.
Proof. intros H HK. destruct r; cbn in *; [by apply HK|done]. Qed.

Lemma settles_ofold_split {A B} (P : list B → A → Prop) (f : B → A → outcome A) l a : P [] a →
  (∀ dn x rest a, l = dn ++ x :: rest → P dn a → settles (f x a) (P (dn ++ [x]))) → settles (ofold f l a) (P l).
Proof.
  intros H0 HS. assert (H : ∀ dn rest a, l = dn ++ rest → P dn a → settles (ofold f rest a) (P l)); [|by apply (H [] l)].
  intros dn rest. revert dn. induction rest as [|x rest IH]; intros dn a1 El HP; cbn.
  - by rewrite El, app_nil_r.
  - specialize (HS dn x rest a1 El HP). destruct (f x a1) as [a2|e]; [|done].
    apply (IH (dn ++ [x])); [by rewrite El, <- app_assoc|done].
Qed.

Lemma settles_ofold {A B} (P : list B → A → Prop) (f : B → A → outcome A) l a : P [] a →
  (∀ dn x a, P dn a → x ∈ l → settles (f x a) (P (dn ++ [x]))) → settles (ofold f l a) (P l).
Proof. intros H0 HS. apply settles_ofold_split; [done|]. intros dn x rest a1 -> HP. apply HS; [done|set_solver]. Qed.

Definition scheduled (cur : option Task) (k : Z * (positive * Z)) (time : Z) (s s' : P4PUpdateManager) : Prop :=
  um_inv s' cur ∧ same_managers s s' ∧ enqueued k time s s'.

Lemma enqueueTask_settles time type isp sel s cur : um_inv s cur → (type = TYPE_GUIDANCE ↔ is_Some sel) →
  (∀ x, sel = Some x → x ∈ m_selection_mgrs s) →
  settles (enqueueTask time type isp sel s) (scheduled cur (type_rank type, (isp, ptr_rank sel)) time s).
Proof.
  intros I Hk Hs. destruct (enqueueTask_Ok time type isp sel s cur I Hk Hs) as [(s' & -> & ? & ? & ? & _)|[-> _]]; cbn; [by split|done].
Qed.

(** Scheduling one kind of task for a list of ISPs or selection managers. *)
Lemma enqueue_all_settles {B} (time : Z) type (isp_of : B → isp_ptr) (sel_of : B → option sel_ptr) l s cur n now :
  um_inv s cur → (∀ b, b ∈ l → type = TYPE_GUIDANCE ↔ is_Some (sel_of b)) →
  (∀ b x, b ∈ l → sel_of b = Some x → x ∈ m_selection_mgrs s) →
  settles (ofold (λ b s, enqueueTask time type (isp_of b) (sel_of b) s) l s)
    (λ s', um_inv s' cur ∧ same_managers s s' ∧ work n now (queue s') ≤ work n now (queue s) + length l * weight n type).
Proof.
  intros I Hk Hs. apply (settles_ofold (λ dn s', um_inv s' cur ∧ same_managers s s' ∧
    work n now (queue s') ≤ work n now (queue s) + length dn * weight n type)); [split_and!; [done|by repeat split|lia]|].
  intros dn b s1 (I1 & M1 & W1) Hb. eapply settles_impl; [apply (enqueueTask_settles _ _ _ _ _ cur); [done|by apply Hk|]|].
  - intros x Hx. destruct M1 as [-> _]. by eapply Hs.
  - intros s2 (I2 & M2 & E2). split_and!; [done|by eapply same_managers_trans|].
    pose proof (enqueued_work n now _ _ _ _ _ E2) as W2. rewrite length_app. cbn [length]. destruct (time <=? now)%Z; lia.
Qed.

(** ** Executing tasks *)
Section execute.
Context {X : Type} (time : X → Z * X) (load_pidmap load_pdistance : isp_ptr → X → Z * Z * X).
Context (sel_dist sel_comp : isp_ptr → sel_ptr → X → outcome (Z * X)) (sel_next : isp_ptr → sel_ptr → X → outcome Z).

Notation exec := (executeTask time load_pidmap load_pdistance sel_dist sel_comp sel_next).
Notation round := (run_task time load_pidmap load_pdistance sel_dist sel_comp sel_next).
Notation rounds := (run_tasks time load_pidmap load_pdistance sel_dist sel_comp sel_next).

(** [W k x]: from [x] on, [k] more calls are finished by the time [horizon].  The environment
    is fast enough if a map that was loaded, or could not be, is due again after the
    horizon, and the selection managers answer, with no next time or one after it. *)
Context (W : nat → X → Prop) (horizon : Z).

Record environment_ok : Prop := {
  ev_horizon : (0 ≤ horizon)%Z;
  ev_mono : ∀ k x, W (S k) x → W k x;
  ev_time : ∀ k x, W (S k) x → ((time x).1 ≤ horizon)%Z ∧ W k (time x).2;
  ev_pidmap : ∀ k isp x rc ttl x1 t x2, W (S (S k)) x → load_pidmap isp x = (rc, ttl, x1) → time x1 = (t, x2) →
    W k x2 ∧ (horizon < t + if rc =? 0 then ttl else 900)%Z;
  ev_pdistance : ∀ k isp x rc ttl x1 t x2, W (S (S k)) x → load_pdistance isp x = (rc, ttl, x1) → time x1 = (t, x2) →
    W k x2 ∧ (horizon < t + if rc =? 0 then ttl else 75)%Z;
  ev_dist : ∀ k isp sel x, W (S k) x → ∃ rc x', sel_dist isp sel x = Ok (rc, x') ∧ W k x';
  ev_comp : ∀ k isp sel x, W (S k) x → ∃ rc x', sel_comp isp sel x = Ok (rc, x') ∧ W k x';
  ev_next : ∀ k isp sel x, W k x → ∃ t, sel_next isp sel x = Ok t ∧ (t = TIME_INVALID ∨ (horizon < t)%Z)
}.

(** The lemmas serve twice: for any environment, about the states that are reached, and for
    one that is [fast], about termination as well. *)
Context (fast : Prop) (E : fast → environment_ok).

Definition yields {A} (r : outcome A) (P : A → Prop) : Prop :=
  match r with Ok a => P a | Fault e => fast → e = UB end.

Lemma yields_settles {A} (r : outcome A) (P : A → Prop) : settles r P → yields r P.
Proof. destruct r as [a|e]; [done|]. intros H _. exact H. Qed.

Lemma yields_bind {A B} (r : outcome A) (f : A → outcome B) P Q :
  yields r P → (∀ a, P a → yields (f a) Q) → yields (r ≫= f) Q.
Proof. intros H HK. destruct r; cbn in *; [by apply HK|done]. Qed.

Lemma yields_total {A} (r : outcome A) (P : A → Prop) : (fast → ∃ a, r = Ok a ∧ P a) → yields r (λ a, fast → P a).
Proof.
  intros H. destruct r as [a|e]; cbn; intros HF; destruct (H HF) as (b & Eb & HP); [by injection Eb as ->|done].
Qed.

Notation due n s := (work n horizon (queue s)).

(** What a step keeps, and what it leaves to do: at most [w] units of work more (less one)
    and [k] calls. *)
Definition progress (cur : option Task) (n k w : nat) (s : P4PUpdateManager) (r : P4PUpdateManager * X) : Prop :=
  um_inv r.1 cur ∧ same_managers s r.1 ∧ (fast → W k r.2 ∧ due n r.1 < due n s + w).

(** An update with a new time: nothing more is due. *)
Lemma enqueue_later t type isp sel s cur n : um_inv s cur → (type = TYPE_GUIDANCE ↔ is_Some sel) →
  (∀ x, sel = Some x → x ∈ m_selection_mgrs s) → (fast → (horizon < t)%Z) →
  yields (enqueueTask t type isp sel s) (λ s', um_inv s' cur ∧ same_managers s s' ∧ (fast → due n s' ≤ due n s)).
Proof.
  intros I Hk Hs Ht. eapply yields_settles, settles_impl; [by apply (enqueueTask_settles _ _ _ _ _ cur)|]. intros s' (I' & M' & E').
  split_and!; [done|done|]. intros HF. pose proof (enqueued_work n horizon _ _ _ _ _ E') as WK.
  rewrite (proj2 (Z.leb_gt _ _)) in WK by auto. lia.
Qed.

Lemma updatePIDMap_yields isp s x cur n k : um_inv s cur → (fast → W (S (S k)) x) →
  yields (updatePIDMap time load_pidmap isp s x) (progress cur n k (n + 2) s).
Proof.
  intros I HW. unfold updatePIDMap. destruct (load_pidmap isp x) as [[rc ttl] x1] eqn:EL. destruct (time x1) as [t x2] eqn:ET.
  assert (HT : fast → W k x2 ∧ (horizon < t + if rc =? 0 then ttl else 900)%Z) by (intros HF; by apply (ev_pidmap (E HF) k isp x rc ttl x1); auto).
  destruct (rc =? 0)%Z; cbn [negb].
  - eapply yields_bind; [apply (enqueue_later _ _ _ None s cur n); [done|by split|done|tauto]|].
    intros s1 (I1 & M1 & W1). eapply yields_bind; [apply yields_settles, (enqueueTask_settles _ _ _ None _ cur); [done|by split|done]|].
    intros s2 (I2 & M2 & E2). pose proof (enqueued_work n horizon TYPE_PDISTANCE _ _ _ _ E2) as W2. cbn [weight] in W2.
    split_and!; [done|by eapply same_managers_trans|]. intros HF. specialize (W1 HF). split; [by apply HT|].
    cbn. destruct (0 <=? horizon)%Z; lia.
  - eapply yields_bind; [apply (enqueue_later _ _ _ None s cur n); [done|by split|done|tauto]|].
    intros s' (I' & M' & W'). split_and!; [done|done|]. intros HF. specialize (W' HF). split; [by apply HT|cbn; lia].
Qed.

Lemma updatePDistanceMap_yields isp s x cur n k : um_inv s cur → n = length (m_selection_mgrs s) → (fast → W (S (S k)) x) →
  yields (updatePDistanceMap time load_pdistance isp s x) (progress cur n k (n + 1) s).
Proof.
  intros I Hn HW. unfold updatePDistanceMap. destruct (load_pdistance isp x) as [[rc ttl] x1] eqn:EL. destruct (time x1) as [t x2] eqn:ET.
  assert (HT : fast → W k x2 ∧ (horizon < t + if rc =? 0 then ttl else 75)%Z) by (intros HF; by apply (ev_pdistance (E HF) k isp x rc ttl x1); auto).
  destruct (rc =? 0)%Z; cbn [negb].
  - eapply yields_bind; [apply (enqueue_later _ _ _ None s cur n); [done|by split|done|tauto]|].
    intros s1 (I1 & M1 & W1). eapply yields_bind.
    + apply yields_settles, (enqueue_all_settles 0 TYPE_GUIDANCE (λ _, isp) Some (m_selection_mgrs s) s1 cur n horizon I1).
      * intros b _. split; [by eexists|done].
      * intros b y Hb [= <-]. destruct M1 as [-> _]. done.
    + intros s2 (I2 & M2 & W2). split_and!; [done|by eapply same_managers_trans|]. intros HF. specialize (W1 HF).
      split; [by apply HT|]. cbn in *. rewrite <- Hn in W2. lia.
  - eapply yields_bind; [apply (enqueue_later _ _ _ None s cur n); [done|by split|done|intros HF; destruct (HT HF); lia]|].
    intros s' (I' & M' & W'). split_and!; [done|done|]. intros HF. specialize (W' HF). split; [by apply HT|cbn; lia].
Qed.

Lemma updateGuidance_yields isp sel s x cur n k : um_inv s cur → sel ∈ m_selection_mgrs s → (fast → W (S (S k)) x) →
  yields (updateGuidance sel_dist sel_comp sel_next isp sel s x) (progress cur n k 1 s).
Proof.
  intros I Hs HW. unfold updateGuidance.
  assert (Hskip : ∀ x, (fast → W k x) → progress cur n k 1 s (s, x)).
  { intros y Hy. split_and!; [done|by repeat split|]. intros HF. split; [by apply Hy|cbn; lia]. }
  eapply yields_bind; [apply (yields_total _ (λ r, W (S k) r.2)); intros HF; destruct (ev_dist (E HF) _ isp sel x (HW HF)) as (? & ? & ? & ?); eauto|].
  intros [rc x1] H1. cbn [snd] in H1. destruct (rc =? ERR_INVALID_ISP)%Z; [apply Hskip; intros HF; apply (ev_mono (E HF)); auto|].
  eapply yields_bind; [apply (yields_total _ (λ r, W k r.2)); intros HF; destruct (ev_comp (E HF) _ isp sel x1 (H1 HF)) as (? & ? & ? & ?); eauto|].
  intros [rc' x2] H2. cbn [snd] in H2. destruct (rc' =? ERR_INVALID_ISP)%Z; [by apply Hskip|].
  eapply yields_bind; [apply (yields_total _ (λ t, t = TIME_INVALID ∨ (horizon < t)%Z)); intros HF; by eapply (ev_next (E HF)); auto|].
  intros t Ht. destruct (Z.eqb_spec t TIME_INVALID) as [|Hne]; [by apply Hskip|].
  eapply yields_bind; [apply (enqueue_later _ _ _ (Some sel) s cur n); [done|by split; [eexists|]|by intros ? [= <-]|intros HF; by destruct (Ht HF)]|].
  intros s' (I' & M' & W'). split_and!; [done|done|]. intros HF. specialize (W' HF). split; [by apply H2|cbn; lia].
Qed.

Lemma executeTask_yields t s x n k : um_inv s (Some t) → n = length (m_selection_mgrs s) → (fast → W (S (S k)) x) →
  yields (exec t s x) (progress (Some t) n k (weight n (t_type t)) s).
Proof.
  intros I Hn HW. assert (Ht : m_task_store s !! t_ptr t = Some t) by (apply (ui_store _ _ I); split; [by right|done]).
  pose proof (ui_kind _ _ I _ _ Ht) as Hk. unfold kind_ok, executeTask in *. destruct (t_type t); cbn [weight].
  - by apply updatePIDMap_yields.
  - by apply updatePDistanceMap_yields.
  - destruct (proj1 Hk eq_refl) as [sel Hsel]. rewrite Hsel. cbn [from_option_or mbind outcome_bind].
    apply updateGuidance_yields; [done| |done]. by eapply (ui_known _ _ I).
Qed.

(** Taking the top task out of the queue. *)
Lemma pop_inv s t q : um_inv s None → queue s !! 0 = Some t → queue_inv q → queue s ≡ₚ t :: m_vec q →
  um_inv (with_queue q (m_selmgr_tasks s) (m_task_store s) s) (Some t).
Proof.
  intros I Ht Iq P. pose proof (queue_nodup s (ui_heap _ _ I)) as ND. rewrite P in ND. apply NoDup_cons in ND as [Hn _].
  split; cbn [with_queue m_tasks m_task_store m_selmgr_tasks m_selection_mgrs]; try done; try apply I.
  - intros p x. rewrite (ui_store _ _ I), P, elem_of_cons. split.
    + intros [[[->|Hx]|?] ?]; [by split; [right|]|by split; [left|]|done].
    + intros [[Hx|[= ->]] ?]; split; [|done| |done]; left; [by right|by left].
  - by intros x [= <-].
Qed.

(** Why the inner loop ends: the manager was stopped, there is no task, or the last reading
    of the clock is before all tasks. *)
Definition idle (s : P4PUpdateManager) (x : X) : Prop :=
  m_stopped s = true ∨ queue s = [] ∨ ∃ x0 t, time x0 = (t, x) ∧ ∀ u, u ∈ queue s → (t < exectime u)%Z.

(** One round: the earliest task, if it is due, is executed and freed. *)
Lemma run_task_yields s x n k : um_inv s None → n = length (m_selection_mgrs s) → (fast → W (3 + k) x) →
  yields (round s x) (λ r, if r.1.1 then progress None n k 0 s (r.1.2, r.2) else r.1.2 = s ∧ idle s r.2).
Proof.
  intros I Hn HW. unfold run_task, heap_empty, ras_size. destruct (m_stopped s) eqn:Es; cbn [orb]; [split; [done|by left]|].
  destruct (Nat.eqb_spec (length (queue s)) 0) as [Hz|Hz]; [split; [done|right; left; by apply length_zero_iff_nil]|].
  destruct (lookup_lt_is_Some_2 (queue s) 0) as [t Ht]; [lia|]. unfold heap_top, ras_get. rewrite Ht. cbn [from_option_or mbind outcome_bind].
  destruct (heap_pop_Ok task_key task_key_ltb earlier (m_tasks s) t (ui_heap _ _ I) Ht) as (q & -> & Iq & P & Hmax).
  destruct (time x) as [now x0] eqn:ET. destruct (Z.ltb_spec now (exectime t)) as [Hlt|Hge].
  { split; [done|]. right. right. exists x, now. split; [done|]. intros u Hu. apply Hmax in Hu. unfold earlier in Hu.
    rewrite Z.ltb_ge in Hu. lia. }
  cbn [mbind outcome_bind]. assert (HT : fast → (now ≤ horizon)%Z ∧ W (S (S k)) x0).
  { intros HF. pose proof (ev_time (E HF) _ _ (HW HF)) as HT. by rewrite ET in HT. }
  eapply yields_bind; [apply (executeTask_yields t _ x0 n k); [by apply pop_inv|done|tauto]|].
  intros [s1 x1] (I1 & M1 & W1). cbn [fst snd] in *. destruct (removeTask_done t s1 I1) as (s2 & -> & I2 & Q2 & M2). cbn.
  split_and!; [done|by eapply (same_managers_trans s s1); [exact M1|]|]. intros HF. destruct (W1 HF) as [H1 H2]. split; [done|].
  assert (Hw : due n s = weight n (t_type t) + work n horizon (m_vec q)).
  { rewrite P. unfold work. cbn [sum_list_with]. unfold load at 1. rewrite (proj2 (Z.leb_le _ _)); [done|]. destruct (HT HF). lia. }
  cbn [fst]. rewrite Q2. cbn in H2. lia.
Qed.
End execute.

(** Any execution of a task keeps the invariant. *)
Lemma run_task_inv {X} (time : X → Z * X) pm pd sd sc sn s x b s' x' : um_inv s None →
  run_task time pm pd sd sc sn s x = Ok (b, s', x') → um_inv s' None.
Proof.
  intros I ER. pose proof (run_task_yields time pm pd sd sc sn (λ _ _, True) 0 False ltac:(done) s x _ 0 I eq_refl ltac:(done)) as H.
  rewrite ER in H. cbn in H. destruct b; [apply H|]. by destruct H as [-> _].
Qed.

(** In a fast environment the inner loop ends, after no more rounds than there is work. *)
Lemma run_tasks_settles {X} (time : X → Z * X) pm pd sd sc sn W horizon fuel :
  environment_ok time pm pd sd sc sn W horizon →
  ∀ s x, um_inv s None → let d := work (length (m_selection_mgrs s)) horizon (queue s) in
  W (3 * S d) x → d < fuel →
  settles (run_tasks time pm pd sd sc sn fuel s x) (λ r, um_inv r.1 None ∧ same_managers s r.1 ∧ idle time r.1 r.2).
Proof.
  intros E. induction fuel as [|fuel IH]; intros s x I d HW Hf; [lia|]. cbn [run_tasks].
  pose proof (run_task_yields time pm pd sd sc sn W horizon True (λ _, E) s x _ (3 * d) I eq_refl) as H.
  replace (3 * S d) with (3 + 3 * d) in HW by lia. specialize (H ltac:(done)).
  destruct (run_task time pm pd sd sc sn s x) as [[[b s1] x1]|e]; cbn in H; [|by apply H]. cbn. destruct b; cbn in *.
  - destruct H as (I1 & M1 & H). destruct (H ltac:(done)) as [W1 D1]. cbn [fst snd] in *.
    assert (Hle : ∀ j k y, W (j + k) y → W k y) by (induction j; intros k y Hy; [done|apply IHj, (ev_mono _ _ _ _ _ _ _ _ E), Hy]).
    eapply settles_impl; [apply (IH s1 x1 I1)|].
    + apply (Hle (3 * d - 3 * S (work (length (m_selection_mgrs s1)) horizon (queue s1)))).
      destruct M1 as [M1 _]. rewrite M1. unfold d. match goal with |- W ?a _ => replace a with (3 * d); [done|unfold d; lia] end.
    + destruct M1 as [-> _]. cbn in *. lia.
    + intros r (I2 & M2 & H2). split_and!; [done|by eapply same_managers_trans|done].
  - destruct H as [-> H]. split_and!; [done|by repeat split|done].
Qed.

(** ** A queue of two tasks *)
Lemma two_tasks q t e : queue_inv q → m_vec q ≡ₚ [t; e] → (exectime t < exectime e)%Z → m_vec q = [t; e].
Proof.
  intros I P Hlt. symmetry in P. destruct (Permutation_length_2_inv P) as [Eq|Eq]; [done|].
  assert (H0 : m_vec q !! 0 = Some e) by (by rewrite Eq).
  destruct (heap_pop_Ok task_key task_key_ltb earlier q e I H0) as (_ & _ & _ & _ & Hmax).
  specialize (Hmax t ltac:(rewrite Eq; set_solver)). unfold earlier in Hmax. rewrite Z.ltb_ge in Hmax. lia.
Qed.

(** The later one cannot be erased, the earlier one can. *)
Lemma later_not_erasable s t e : queue s = [t; e] → ¬ erasable e s.
Proof. intros Q H. specialize (H 1). unfold ras_size in H. rewrite Q in H. destruct (H eq_refl); cbn in *; lia. Qed.

Lemma earlier_erasable s t e : t ≠ e → queue s = [t; e] → erasable t s.
Proof. intros Hne Q [|[|i]] Hi; rewrite Q in Hi; [by left|by injection Hi as ->|done]. Qed.

(** ** The interface *)
Lemma setISPManager_settles isps s : um_inv s None → settles (setISPManager isps s) (λ r, um_inv r.2 None).
Proof.
  intros I. unfold setISPManager. destruct (m_isp_mgr s); [done|].
  eapply settles_bind; [apply (enqueue_all_settles 0 TYPE_PIDMAP id (λ _, None) isps _ None 0 0); [by destruct I|by split|done]|].
  by intros s' (I' & _).
Qed.

Lemma addSelectionManager_settles isps sel s : um_inv s None →
  settles (addSelectionManager isps sel s) (λ r, um_inv r.2 None ∧ (r.1 = true → sel ∈ m_selection_mgrs r.2)).
Proof.
  intros I. unfold addSelectionManager. destruct (negb (m_isp_mgr s)); [done|].
  destruct (set_mem Pos.ltb sel (m_selection_mgrs s)); [done|].
  assert (Hin : sel ∈ set_insert Pos.ltb sel (m_selection_mgrs s)) by (apply (set_insert_elem Pos.ltb); by left).
  eapply settles_bind; [apply (enqueue_all_settles 0 TYPE_GUIDANCE id (λ _, Some sel) isps _ None 0 0)|].
  - destruct I. split; try done; cbn; [by apply (set_insert_sorted Pos.ltb)|].
    intros p t sel' Ht Hs. apply (set_insert_elem Pos.ltb). right. by eapply ui_known0.
  - intros b _. by split; [eexists|].
  - by intros b x _ [= <-].
  - intros s' (I' & (M' & _) & _). split; [done|]. intros _. cbn. by rewrite M'.
Qed.

(** The tasks of [sel] that are left. *)
Definition left_for (sel : sel_ptr) (ps : list task_ptr) (s : P4PUpdateManager) : Prop :=
  ∀ p, p ∈ ps ↔ ∃ t, m_task_store s !! p = Some t ∧ t_sel_mgr t = Some sel.

Lemma remove_all_settles sel ps s : um_inv s None → NoDup ps → left_for sel ps s →
  settles (ofold (λ p s, t ← from_option_or UB (m_task_store s !! p); removeTask t true s) ps s)
    (λ s', um_inv s' None ∧ same_managers s s' ∧ left_for sel [] s').
Proof.
  intros I ND HL. eapply settles_impl.
  - apply (settles_ofold_split (λ dn s', um_inv s' None ∧ same_managers s s' ∧
      ∀ p, p ∈ ps ∧ p ∉ dn ↔ ∃ t, m_task_store s' !! p = Some t ∧ t_sel_mgr t = Some sel)).
    { split_and!; [done|by repeat split|]. intros p. rewrite <- (HL p). split; [tauto|]. intros H. split; [done|apply not_elem_of_nil]. }
    intros dn p rest s1 El (I1 & M1 & L1). rewrite El in ND. apply NoDup_app in ND as (_ & HD & _).
    assert (Hpd : p ∉ dn) by (intros Hin; apply (HD p Hin); left).
    destruct (proj1 (L1 p)) as (t & Ht & Hs); [split; [rewrite El; set_solver|done]|].
    rewrite Ht. cbn [from_option_or mbind outcome_bind].
    apply (ui_store _ _ I1) in Ht as Ht'. destruct Ht' as [[Hq|?] Hp]; [|done].
    destruct (removeTask_queue t s1 None I1 Hq) as [(s2 & -> & I2 & _ & M2 & _ & St & _)|[-> _]]; [|done].
    cbn. split_and!; [done|by eapply same_managers_trans|]. intros p'. rewrite St. setoid_rewrite lookup_delete_Some.
    rewrite Hp, not_elem_of_app, list_elem_of_singleton. specialize (L1 p'). split.
    + intros (H1 & H2 & H3). destruct (proj1 L1) as (u & Hu & Hus); [done|]. exists u. split; [|done]. split; [congruence|done].
    + intros (u & (Hne & Hu) & Hus). destruct (proj2 L1) as [H1 H2]; [eauto|]. split; [done|]. split; [done|congruence].
  - intros s' (I' & M' & L'). split_and!; [done|done|]. intros p. rewrite <- L'. set_solver.
Qed.

Lemma removeSelectionManager_settles sel s : um_inv s None →
  settles (removeSelectionManager sel s) (λ r, um_inv r.2 None ∧
    sel ∉ m_selection_mgrs r.2 ∧ ∀ p t, m_task_store r.2 !! p = Some t → t_sel_mgr t ≠ Some sel).
Proof.
  intros I. unfold removeSelectionManager. destruct (set_mem Pos.ltb sel (m_selection_mgrs s)) eqn:Em; cbn [negb].
  2: { assert (Hn : sel ∉ m_selection_mgrs s) by (rewrite <- (set_mem_elem Pos.ltb sel _ (ui_managers _ _ I)); by rewrite Em).
       split_and!; [done|done|]. intros p t Ht Hs. by apply Hn, (ui_known _ _ I p t). }
  eapply (settles_bind _ _ (λ s1, um_inv s1 None ∧ left_for sel [] s1)).
  - destruct (map_find Pos.ltb sel (m_selmgr_tasks s)) as [ps|] eqn:Ef.
    + destruct (ui_index _ _ I _ _ Ef) as [Hs He].
      eapply settles_bind; [apply (remove_all_settles sel ps s I); [by apply (set_sorted_nodup Pos.ltb)|exact He]|].
      intros s1 (I1 & M1 & L1). cbn. split; [|done]. destruct I1. split; cbn; try done.
      * by apply (map_erase_sorted Pos.ltb).
      * intros sel' ps' Hf. destruct (decide (sel = sel')) as [<-|Hne]; [by rewrite (map_find_erase_eq Pos.ltb) in Hf by done|].
        rewrite (map_find_erase_ne Pos.ltb) in Hf by done. by apply ui_index0.
      * intros p t sel' Ht Hs'. destruct (decide (sel = sel')) as [<-|Hne].
        { exfalso. apply (not_elem_of_nil p), L1. eauto. }
        rewrite (map_find_erase_ne Pos.ltb) by done. by eapply ui_indexed0.
    + split; [done|]. intros p. split; [by intros ?%not_elem_of_nil|]. intros (t & Ht & Hs).
      destruct (ui_indexed _ _ I _ _ _ Ht Hs). congruence.
  - intros s1 (I1 & L1). cbn. assert (HN : ∀ p t, m_task_store s1 !! p = Some t → t_sel_mgr t ≠ Some sel).
    { intros p t Ht Hs. apply (not_elem_of_nil p), L1. eauto. }
    split_and!; [|rewrite (set_erase_elem Pos.ltb) by apply I1; tauto|done].
    destruct I1. split; cbn; try done; [by apply (set_erase_sorted Pos.ltb)|].
    intros p t sel' Ht Hs. apply (set_erase_elem Pos.ltb); [done|]. split; [|by eapply ui_known0].
    intros ->. by apply (HN p t).
Qed.

(** The destructor frees every task. *)
Lemma free_tasks_Ok fuel : ∀ s, queue_inv (m_tasks s) → length (queue s) ≤ fuel →
  (∀ p t, m_task_store s !! p = Some t ↔ t ∈ queue s ∧ t_ptr t = p) →
  ∃ s', free_tasks fuel s = Ok s' ∧ m_task_store s' = ∅.
Proof.
  induction fuel as [|fuel IH]; intros s I HL HS.
  - exists s. assert (Hq : queue s = []) by (apply nil_length_inv; lia). split.
    + cbn. unfold heap_empty, ras_size. by rewrite Hq.
    + apply map_empty. intros p. destruct (m_task_store s !! p) as [t|] eqn:E; [|done]. apply HS in E as [Ht _].
      rewrite Hq in Ht. by apply not_elem_of_nil in Ht.
  - cbn [free_tasks]. unfold heap_empty, ras_size. destruct (Nat.eqb_spec (length (queue s)) 0) as [Hz|Hz].
    { exists s. split; [done|]. apply map_empty. intros p. destruct (m_task_store s !! p) as [t|] eqn:E; [|done].
      apply HS in E as [Ht _]. apply length_zero_iff_nil in Hz. rewrite Hz in Ht. by apply not_elem_of_nil in Ht. }
    destruct (lookup_lt_is_Some_2 (queue s) 0) as [t Ht]; [lia|]. unfold heap_top, ras_get. rewrite Ht. cbn [from_option_or mbind outcome_bind].
    destruct (heap_pop_Ok task_key task_key_ltb earlier (m_tasks s) t I Ht) as (q & -> & Iq & P & _). cbn [mbind outcome_bind].
    pose proof (queue_nodup s I) as ND. rewrite P in ND. apply NoDup_cons in ND as [Hn _].
    apply IH; cbn [with_queue m_tasks m_task_store]; [done|apply Permutation_length in P; cbn in P; lia|].
    intros p u. rewrite lookup_delete_Some, HS, P, elem_of_cons. split.
    + intros (Hne & [->|Hu] & Hp); [done|]. done.
    + intros (Hu & Hp). split; [|auto]. intros Hp'.
      assert (m_task_store s !! p = Some u) by (apply HS; rewrite P; split; [by right|done]).
      assert (m_task_store s !! p = Some t) by (apply HS; rewrite P; split; [left|done]). congruence.
Qed.
