(* ===== verification/UpdateProperties.v ===== *)
(** * Properties of the update manager

    The claims about scheduling, with their witnesses. *)
From S2P Require Import Prelude StdMap KeyOrder Double Heap IpAddr SwarmState Rand IspPidMap.
From S2P Require Import PeerDist Guidance SelHelper Selection GuidanceManager UpdateManager UpdateManagerSpec.

(** ** Reachable managers *)
Inductive um_step : P4PUpdateManager → P4PUpdateManager → Prop :=
  | um_isps s isps b s' : setISPManager isps s = Ok (b, s') → um_step s s'
  | um_add s isps sel b s' : addSelectionManager isps sel s = Ok (b, s') → um_step s s'
  | um_remove s sel b s' : removeSelectionManager sel s = Ok (b, s') → um_step s s'
  | um_stop s : um_step s (stop s)
  | um_run {X} (time : X → Z * X) pm pd sd sc sn s x b s' x' :
      run_task time pm pd sd sc sn s x = Ok (b, s', x') → um_step s s'.

Inductive um_reachable : P4PUpdateManager → Prop :=
  | um_init : um_reachable P4PUpdateManager_new
  | um_next s s' : um_reachable s → um_step s s' → um_reachable s'.

Lemma um_step_inv s s' : um_inv s None → um_step s s' → um_inv s' None.
Proof.
  intros I HS. destruct HS as [s isps b s' E|s isps sel b s' E|s sel b s' E|s|X time pm pd sd sc sn s x b s' x' E].
  - pose proof (setISPManager_settles isps s I) as H. by rewrite E in H.
  - pose proof (addSelectionManager_settles isps sel s I) as H. rewrite E in H. apply H.
  - pose proof (removeSelectionManager_settles sel s I) as H. rewrite E in H. apply H.
  - by destruct I.
  - by eapply run_task_inv.
Qed.

Lemma um_reachable_inv s : um_reachable s → um_inv s None.
Proof. induction 1; [apply um_new_inv|by eapply um_step_inv]. Qed.

Lemma run_tasks_reachable {X} (time : X → Z * X) pm pd sd sc sn fuel : ∀ s x s' x',
  um_reachable s → run_tasks time pm pd sd sc sn fuel s x = Ok (s', x') → um_reachable s'.
Proof.
  induction fuel as [|fuel IH]; intros s x s' x' R ER; [done|]. cbn [run_tasks] in ER.
  destruct (run_task time pm pd sd sc sn s x) as [[[b s1] x1]|e] eqn:E1; [|done]. cbn [mbind outcome_bind] in ER.
  assert (R1 : um_reachable s1) by (eapply um_next; [done|by eapply um_run]).
  destruct b; [by eapply IH|]. by injection ER as <- <-.
Qed.

(** C18. The queue of a reachable manager is a map from kinds of tasks to times, and
    [enqueueTask] adds a time to it, keeping the earlier one of two, without touching other
    kinds.  It fails only when it has to erase a later task that is at the last position
    of the heap (and not at the top). *)
Theorem enqueue_keeps_earliest s time type isp sel : um_reachable s → (type = TYPE_GUIDANCE ↔ is_Some sel) →
  (∀ x, sel = Some x → x ∈ m_selection_mgrs s) →
  let k := (type_rank type, (isp, ptr_rank sel)) in
  (∃ s', enqueueTask time type isp sel s = Ok s' ∧
     ∀ k', pending s' k' = if decide (k' = k) then Some (merged (pending s k) time) else pending s k') ∨
  (enqueueTask time type isp sel s = Fault UB ∧
     ∃ e, e ∈ m_vec (m_tasks s) ∧ task_key e = k ∧ (time < exectime e)%Z ∧ ¬ erasable e s).
Proof.
  intros I%um_reachable_inv Hk Hs k. destruct (enqueueTask_Ok time type isp sel s None I Hk Hs) as [(s' & E & I' & _ & HQ & _)|H]; [left|by right].
  exists s'. split; [done|]. apply enqueued_pending; [apply I|apply I'|done].
Qed.

(** C19. In a reachable manager (one whose operations have returned so far) the objects in memory are exactly the tasks of the queue, at
    different addresses and of different kinds, a task with a selection manager has one
    that is registered, and the destructor frees every task.  Removing a selection manager
    (when it does not fail) removes its tasks. *)
Theorem scheduler_invariant s : um_reachable s →
  (∀ p t, m_task_store s !! p = Some t ↔ t ∈ m_vec (m_tasks s) ∧ t_ptr t = p) ∧
  (∀ t u, t ∈ m_vec (m_tasks s) → u ∈ m_vec (m_tasks s) → task_ltb t u = false → task_ltb u t = false → t = u) ∧
  (∀ t sel, t ∈ m_vec (m_tasks s) → t_sel_mgr t = Some sel → sel ∈ m_selection_mgrs s) ∧
  (∃ s', P4PUpdateManager_delete s = Ok s' ∧ m_task_store s' = ∅) ∧
  (∀ sel b s', removeSelectionManager sel s = Ok (b, s') →
     sel ∉ m_selection_mgrs s' ∧ ∀ t, t ∈ m_vec (m_tasks s') → t_sel_mgr t ≠ Some sel).
Proof.
  intros I%um_reachable_inv.
  assert (HS : ∀ p t, m_task_store s !! p = Some t ↔ t ∈ m_vec (m_tasks s) ∧ t_ptr t = p).
  { intros p t. rewrite (ui_store _ _ I). split; intros [H1 H2]; (split; [|done]); [by destruct H1|by left]. }
  split_and!; [done|..].
  - intros t u Ht Hu H1 H2. rewrite task_ltb_key in H1, H2. apply (queue_key_inj s); [apply I|done|done|].
    by apply (lt_total (ltb := task_key_ltb)).
  - intros t sel Ht Hs. apply (ui_known _ _ I (t_ptr t) t); [|done]. by apply HS.
  - unfold P4PUpdateManager_delete, ras_size. apply free_tasks_Ok; [apply I|done|done].
  - intros sel b s' E. pose proof (removeSelectionManager_settles sel s I) as H. rewrite E in H. destruct H as (I' & H1 & H2).
    split; [done|]. intros t Ht. apply (H2 (t_ptr t)). apply (ui_store _ _ I'). split; [by left|done].
Qed.


(** Guidance is computed once.  For a selection manager that knows the ISP,
    [getNextComputeTime] answers "invalid", and the task is not scheduled again; for one
    that does not, the code of [updatePeerDistribution] was turned into a [bool], so that
    the check for it does not work and [computeGuidance] throws out of the loop. *)
Theorem guidance_not_rescheduled aoe now isps isp sel s pr w st :
  pr_managers pr !! sel = Some (w, st) →
  (∀ s' pr', updateGuidance proc_updatePeerDistribution (proc_computeGuidance aoe now isps) proc_getNextComputeTime
     isp sel s pr = Ok (s', pr') → s' = s) ∧
  (map_find Pos.ltb isp (m_guidance (ps_manager st)) = None → getISPViewInternal isp w = None →
   updateGuidance proc_updatePeerDistribution (proc_computeGuidance aoe now isps) proc_getNextComputeTime isp sel s pr =
     Fault (Throw "Illegal state: no guidance matrix map entry exists for desired ISP")).
Proof.
  intros Hs. split.
  - intros s' pr' E. unfold updateGuidance in E.
    destruct (proc_updatePeerDistribution isp sel pr) as [[rc pr1]|e]; [|done]. cbn [mbind outcome_bind] in E.
    destruct (rc =? ERR_INVALID_ISP)%Z; [by injection E|].
    destruct (proc_computeGuidance aoe now isps isp sel pr1) as [[rc2 pr2]|e]; [|done]. cbn [mbind outcome_bind] in E.
    destruct (rc2 =? ERR_INVALID_ISP)%Z; [by injection E|]. unfold proc_getNextComputeTime in E.
    destruct (pr_managers pr2 !! sel) as [[w2 st2]|]; [|done]. cbn [from_option_or mbind outcome_bind] in E.
    unfold getNextComputeTime in E. destruct (map_find Pos.ltb isp (m_guidance (ps_manager st2))); [|done]. by injection E.
  - intros Hg Hv. unfold updateGuidance, proc_updatePeerDistribution, sm_updatePeerDistribution, updatePeerDistribution.
    rewrite Hs. cbn [from_option_or mbind outcome_bind]. rewrite Hv. cbn [mbind outcome_bind mret outcome_ret].
    change (ERR_INVALID_ISP =? 0)%Z with false. cbn iota. change (1 =? ERR_INVALID_ISP)%Z with false. cbn iota.
    unfold proc_computeGuidance. cbn [pr_managers]. rewrite lookup_insert_eq. cbn [from_option_or mbind outcome_bind].
    unfold computeGuidanceInternal. by rewrite Hg.
Qed.

(** ** A run with one ISP *)

(** Every call takes a second.  Maps load, with a fixed time to live. *)
Definition tick (x : Z) : Z * Z := (x, x + 1)%Z.
Definition load_map (ttl : Z) (isp : isp_ptr) (x : Z) : Z * Z * Z := (0, ttl, x + 1)%Z.
Definition no_guidance (isp : isp_ptr) (sel : sel_ptr) (x : Z) : outcome (Z * Z) := Ok (0, x + 1)%Z.
Definition no_time (isp : isp_ptr) (sel : sel_ptr) (x : Z) : outcome Z := Ok TIME_INVALID.


Definition started : P4PUpdateManager :=
  match setISPManager [1%positive] P4PUpdateManager_new with Ok (_, s) => s | Fault _ => P4PUpdateManager_new end.
Definition with_manager : P4PUpdateManager :=
  match addSelectionManager [1%positive] 9%positive started with Ok (_, s) => s | Fault _ => started end.

Lemma started_reachable : um_reachable started.
Proof.
  unfold started. destruct (setISPManager _ _) as [[b s]|e] eqn:E; [|constructor].
  eapply um_next; [constructor|]. by eapply um_isps.
Qed.
Lemma with_manager_reachable : um_reachable with_manager.
Proof.
  unfold with_manager. destruct (addSelectionManager _ _ _) as [[b s]|e] eqn:E; [|apply started_reachable].
  eapply um_next; [apply started_reachable|]. by eapply um_add.
Qed.

Lemma enqueue_keeps_earliest_witness : ∃ s', enqueueTask 5 TYPE_PIDMAP 1%positive None started = Ok s' ∧
  pending s' (0%Z, (1%positive, 0%Z)) = Some 0%Z.
Proof.
  destruct (enqueue_keeps_earliest started 5 TYPE_PIDMAP 1%positive None) as [(s' & E & H)|(E & _)].
  - apply started_reachable.
  - split; [discriminate|]. intros [? ?]. discriminate.
  - discriminate.
  - exists s'. split; [exact E|]. rewrite H. vm_compute. reflexivity.
  - vm_compute in E. discriminate.
Defined.

Lemma scheduler_invariant_witness : um_reachable with_manager ∧ length (m_vec (m_tasks with_manager)) = 2 ∧
  ∃ s', P4PUpdateManager_delete with_manager = Ok s' ∧ m_task_store s' = ∅.
Proof.
  split; [apply with_manager_reachable|]. split; [vm_compute; reflexivity|].
  apply (scheduler_invariant with_manager with_manager_reachable).
Defined.


(** A process whose selection manager knows no ISP. *)
Definition idle_process : Process :=
  MkProcess {[9%positive := (MkWorld ∅ ∅ 0 [] [], MkPGMState (MkPGM default_options [] [] ∅) false [] 0)]} PGMManager_new.

Lemma guidance_not_rescheduled_witness :
  updateGuidance proc_updatePeerDistribution (proc_computeGuidance (λ _, None) 0 (λ _, MkGuidanceISP [] 0 ([], 0%Z)))
    proc_getNextComputeTime 1%positive 9%positive started idle_process =
  Fault (Throw "Illegal state: no guidance matrix map entry exists for desired ISP").
Proof.
  eapply (guidance_not_rescheduled (λ _, None) 0 (λ _, MkGuidanceISP [] 0 ([], 0%Z)) 1%positive 9%positive started idle_process).
  - vm_compute. reflexivity.
  - reflexivity.
  - reflexivity.
Defined.

(** ** Refreshing a PID map *)

(** What the update of a PID map does to a queue with the pDistance task of its ISP. *)
Lemma refresh_queue {X} (time : X → Z * X) pm isp s x e ttl x1 now x2 cur : um_inv s cur →
  m_vec (m_tasks s) = [e] → task_key e = (1%Z, (isp, 0%Z)) → (0 < exectime e)%Z →
  pm isp x = (0%Z, ttl, x1) → time x1 = (now, x2) →
  ((now + ttl < exectime e)%Z → updatePIDMap time pm isp s x = Fault UB) ∧
  ((exectime e < now + ttl)%Z → ∃ s', updatePIDMap time pm isp s x = Ok (s', x2) ∧ um_inv s' cur ∧
     pending s' (0%Z, (isp, 0%Z)) = Some (now + ttl)%Z ∧ pending s' (1%Z, (isp, 0%Z)) = Some 0%Z).
Proof.
  intros I Q Hk He EL ET. unfold updatePIDMap. rewrite EL, ET. cbn [Z.eqb negb].
  destruct (enqueueTask_Ok (now + ttl) TYPE_PIDMAP isp None s cur I) as [(s1 & -> & I1 & _ & E1 & _)|(_ & u & Hu & Hku & _)]; [by split|done| |].
  2: { rewrite Q, list_elem_of_singleton in Hu. subst u. rewrite Hk in Hku. done. }
  cbn [mbind outcome_bind]. cbn in E1. pose proof (enqueued_pending _ _ _ _ (ui_heap _ _ I) (ui_heap _ _ I1) E1) as P1.
  assert (∃ t, exectime t = (now + ttl)%Z ∧ task_key t = (0%Z, (isp, 0%Z)) ∧ m_vec (m_tasks s1) ≡ₚ [t; e]) as (t & Ht & Hkt & Q1).
  { destruct E1 as [[_ (u & Hu & Hku & _)]|(t & rest & Hkt & Ht & HQ & [[HR _]|(u & HR & Hku & _)])].
    - rewrite Q, list_elem_of_singleton in Hu. subst u. rewrite Hk in Hku. done.
    - exists t. split_and!; [done|done|]. rewrite HQ. rewrite Q in HR. by rewrite <- HR.
    - rewrite Q in HR. symmetry in HR. apply Permutation_singleton_r in HR as [= -> _]. rewrite Hk in Hku. done. }
  assert (Hin : e ∈ m_vec (m_tasks s1)) by (rewrite Q1; set_solver).
  destruct (enqueueTask_Ok 0 TYPE_PDISTANCE isp None s1 cur I1) as [(s2 & -> & I2 & _ & E2 & HE)|(-> & u & Hu & Hku & _ & Hbad)]; [by split|done| |];
    cbn [mbind outcome_bind]; (split; intros Hlt).
  - exfalso. apply (later_not_erasable s1 t e); [apply two_tasks; [apply I1|done|lia]|]. by apply HE.
  - cbn [type_rank ptr_rank] in E2. exists s2. split_and!; [done|done|..]; rewrite (enqueued_pending _ _ _ _ (ui_heap _ _ I1) (ui_heap _ _ I2) E2).
    + rewrite decide_False by done. rewrite P1, decide_True by done. f_equal.
      destruct (pending s (0%Z, (isp, 0%Z))) as [y|] eqn:Ey; [|done]. apply pending_Some in Ey as (u & Hu & Hku & _); [|apply I].
      rewrite Q, list_elem_of_singleton in Hu. subst u. rewrite Hk in Hku. done.
    + rewrite decide_True by done. f_equal.
      assert (pending s1 (1%Z, (isp, 0%Z)) = Some (exectime e)) as -> by (apply pending_Some; [apply I1|eauto]). cbn. lia.
  - done.
  - exfalso. apply Hbad. assert (u = e) as -> by (apply (queue_key_inj s1); [apply I1|done|done|by rewrite Hku, Hk]).
    apply (earlier_erasable s1 e t); [intros ->; congruence|]. apply two_tasks; [apply I1|by rewrite Q1; constructor|lia].
Qed.

(** C35. When an ISP's PID map has to be loaded again while its pDistance task (in a queue
    with no other tasks) is pending for later, the loop crashes if the new PID map expires
    before that task: the new PID map task goes to the top of the heap, the pDistance task
    is at the last position, and replacing it by an immediate one erases it there, which is
    undefined.  If the new PID map expires after it, the round succeeds. *)
Theorem pid_map_refresh_crashes {X} (time : X → Z * X) pm pd sd sc sn s x p e now x0 ttl x1 now' x2 :
  um_reachable s → m_stopped s = false → m_vec (m_tasks s) ≡ₚ [p; e] →
  t_type p = TYPE_PIDMAP → t_type e = TYPE_PDISTANCE → t_isp e = t_isp p →
  time x = (now, x0) → (exectime p ≤ now)%Z → (exectime p < exectime e)%Z → (0 < exectime e)%Z →
  pm (t_isp p) x0 = (0%Z, ttl, x1) → time x1 = (now', x2) →
  ((now' + ttl < exectime e)%Z → ∀ fuel, run_tasks time pm pd sd sc sn (S fuel) s x = Fault UB) ∧
  ((exectime e < now' + ttl)%Z → ∃ s', run_task time pm pd sd sc sn s x = Ok (true, s', x2) ∧
     pending s' (task_key p) = Some (now' + ttl)%Z ∧ pending s' (task_key e) = Some 0%Z).
Proof.
  intros I%um_reachable_inv Hst Q Tp Te Hisp ET Hp Hpe He EL ET'.
  pose proof (two_tasks _ _ _ (ui_heap _ _ I) Q Hpe) as Qs.
  assert (Hkey : ∀ t, t ∈ m_vec (m_tasks s) → t_type t ≠ TYPE_GUIDANCE → task_key t = (type_rank (t_type t), (t_isp t, 0%Z))).
  { intros t Ht Hty. pose proof (ui_kind _ _ I (t_ptr t) t) as HK. unfold task_key. destruct (t_sel_mgr t) eqn:Es; [|done].
    destruct Hty. apply HK; [apply (ui_store _ _ I); auto|]. rewrite Es. by eexists. }
  assert (Hkp := Hkey p ltac:(rewrite Qs; set_solver) ltac:(by rewrite Tp)).
  assert (Hke := Hkey e ltac:(rewrite Qs; set_solver) ltac:(by rewrite Te)). rewrite Tp in Hkp. rewrite Te, Hisp in Hke.
  assert (H0 : m_vec (m_tasks s) !! 0 = Some p) by (by rewrite Qs).
  destruct (heap_pop_Ok task_key task_key_ltb earlier (m_tasks s) p (ui_heap _ _ I) H0) as (q & EP & Iq & PQ & _).
  pose proof (pop_inv s p q I H0 Iq PQ) as I1. set (s1 := with_queue q (m_selmgr_tasks s) (m_task_store s) s) in *.
  assert (Q1 : m_vec (m_tasks s1) = [e]).
  { rewrite Qs in PQ. apply (Permutation_cons_inv (a := p)) in PQ. symmetry in PQ. by apply Permutation_singleton_r in PQ. }
  assert (HR : run_task time pm pd sd sc sn s x =
    ('(s1', x') ← updatePIDMap time pm (t_isp p) s1 x0; s2 ← removeTask p false s1'; mret (true, s2, x'))).
  { unfold run_task, heap_empty, ras_size. rewrite Hst, Qs. cbn [length Nat.eqb orb]. unfold heap_top, ras_get. rewrite H0.
    cbn [from_option_or mbind outcome_bind]. rewrite ET, (proj2 (Z.ltb_ge _ _)), EP by done. cbn [mbind outcome_bind].
    unfold executeTask. by rewrite Tp. }
  destruct (refresh_queue time pm (t_isp p) s1 x0 e ttl x1 now' x2 _ I1 Q1 Hke He EL ET') as [HF HS].
  split; intros Hlt.
  - intros fuel. cbn [run_tasks]. by rewrite HR, (HF Hlt).
  - destruct (HS Hlt) as (s2 & E2 & I2 & P1 & P2). rewrite HR, E2. cbn [mbind outcome_bind].
    destruct (removeTask_done p s2 I2) as (s3 & -> & _ & Q3 & _). cbn [mbind outcome_bind]. exists s3. split; [done|].
    rewrite Hkp, Hke. unfold pending in *. by rewrite Q3.
Qed.

(** The state after the first run with times to live of 10 and 100 seconds. *)
Definition first_run : P4PUpdateManager :=
  match run_tasks tick (load_map 10) (load_map 100) no_guidance no_guidance no_time 10 started 0%Z with
  | Ok (s, _) => s
  | Fault _ => started
  end.
Definition first_task (i : nat) : Task := default (MkTask 1 0 TYPE_PIDMAP 1 None) (m_vec (m_tasks first_run) !! i).

Lemma first_run_reachable : um_reachable first_run.
Proof.
  unfold first_run. destruct (run_tasks _ _ _ _ _ _ _ _ _) as [[s x]|e] eqn:E; [|apply started_reachable].
  eapply run_tasks_reachable; [apply started_reachable|exact E].
Qed.

Lemma pid_map_refresh_crashes_witness : length (m_vec (m_tasks first_run)) = 2 ∧
  (∀ fuel, run_tasks tick (load_map 10) (load_map 100) no_guidance no_guidance no_time (S fuel) first_run 20%Z = Fault UB) ∧
  ∃ s', run_task tick (load_map 200) (load_map 100) no_guidance no_guidance no_time first_run 20%Z = Ok (true, s', 23%Z) ∧
    pending s' (task_key (first_task 1)) = Some 0%Z.
Proof.
  split; [vm_compute; reflexivity|]. split.
  - apply (pid_map_refresh_crashes tick (load_map 10) (load_map 100) no_guidance no_guidance no_time first_run 20%Z
      (first_task 0) (first_task 1) 20%Z 21%Z 10%Z 22%Z 22%Z 23%Z); try (vm_compute; reflexivity || discriminate); [apply first_run_reachable].
  - destruct (pid_map_refresh_crashes tick (load_map 200) (load_map 100) no_guidance no_guidance no_time first_run 20%Z
      (first_task 0) (first_task 1) 20%Z 21%Z 200%Z 22%Z 22%Z 23%Z) as [_ H]; try (vm_compute; reflexivity || discriminate); [apply first_run_reachable|].
    destruct H as (s' & H1 & _ & H2); [vm_compute; reflexivity|]. exists s'. split; [exact H1|exact H2].
Defined.
